(* ===== verification/_CoqProject ===== *)
-Q . S2P
Prelude.v
GoStd.v
GoNet.v
Enums.v
Names.v
KVStore.v
Udec.v
NodeRes.v
ResVals.v
ResFits.v
RateLimit.v
NotifyOrd.v
SyncData.v
Notify.v
Stm.v
Fields.v
ZoneObjs.v
ZoneApi.v
ZoneRefs.v
ZoneRuns.v
DnsLabel.v
Ports.v
LookupIdx.v
Sha256.v
ProvObjs.v
ProvCheck.v
FreeClust.v
ProvAggr.v
AutoProv.v
Failover.v
Maint.v
TPEChange.v
PlaceObjs.v
ClustRes.v
KeyWorkers.v
VMSpec.v
CloudRes.v
TrustRules.v
Placement.v
Reserve.v
VMPool.v
VMPoolApi.v
HAMgr.v
