(* ===== verification/Prelude.v ===== *)
(** * Edge-Cloud Platform: verification library (root file)

    The platform places applications on edge cloudlets.  A region's
    _controller_ (src/pkg/controller) keeps every object of the region in etcd,
    or in an in-memory store with the same interface (src/pkg/regiondata), and
    mirrors it in caches.  Changes reach the other processes over _notify_
    streams (src/pkg/notify): the resource managers (CRM, src/pkg/crm, and CCRM)
    that drive the cloudlets' platforms (src/pkg/platform), the match engine that
    answers clients, and auto-provisioning (src/pkg/autoprov).  The controller
    decides where a workload fits by resource accounting (src/pkg/resspec) and
    limits API requests (src/pkg/cloudcommon/ratelimit).

    ** The files

    - [Prelude] (this file): results and errors, tactics, the hint database
      [edge], lemmas on lists and maps.
    - [GoStd]: what the program uses of Go: machine integers with their
      wrap-around, strings, [strconv], [float64].  [GoNet]: addresses and CIDRs
      (net, net/netip), and [CidrContainsCidr] of cloudcommon/utils.go.  Two interfaces keep open what
      Go leaves open: [GoRange], the order of [range] over a map, and [GoSort],
      the order in which [sort.Slice] leaves equal elements.  Theorems hold for
      every instance; the runs use [canonical_range] and [stable_sort].
    - [Enums] (api/edgeproto/common.pb.go): the states that components share.
    - [Names] (util/validate.go, util/strings.go, util/ldapname.go,
      cloudcommon/names.go): what names may be, and how other names are made valid.
    - [KVStore] (regiondata/inmemory_store.go, objstore/objstore.go): the store
      [InMemoryStore], one function per critical section of its mutex; the
      transactions of [ApplySTM] with their read and write sets ([txn] is the
      tree of a body's reads and writes); watchers, with the callbacks in the
      order made ([delivered]).  [env_step] is any operation of any thread ([op]),
      and [reachable] its closure from the start of the store.
    - [SyncData] (regiondata/sync.go, the caches of api/edgeproto): the one
      callback that feeds all caches, the batches of a transaction, and the
      cache of [App] as the instance of [ObjCache].
    - [NotifyOrd] (api/edgeproto/notify_order.go): the graph of object types
      and the order in which they are sent.
    - [Notify] (notify/notify_sendrecv.go, notify_server.go, the senders and
      receivers of each type): one connection from a server to a client, with the
      callbacks of the caches, the goroutines that send and receive, and
      connections that are lost and made again.
    - [Stm] (the bodies of [ApplySTMWait]): a body is a program over its reads
      and writes ([stm]); [run_body] runs it on a snapshot, [region] gives an
      object type its codec and prefix, [committed] is the store after one.
    - [Fields], [ZoneObjs] (api/edgeproto): field masks, and zones, zone pools,
      policies, exceptions, apps and cloudlets as far as the handlers read them.
    - [ZoneApi] (controller/zone_api.go, zonepool_api.go, autoprovpolicy_api.go,
      trustpolicyexception_api.go): the handlers; one that runs several
      transactions is a sequence of them.  [ZoneRefs] has the invariant of the
      references between the objects, [ZoneRuns] concrete runs.
    - [DnsLabel] (controller/dnslabelgen.go, edgeproto/dnslabel.go): the labels
      of cloudlets, clusters and instances, and the domain names made of them.
    - [Ports] (util/ports.go, edgeproto/objs.go, controller/appinst_api.go):
      port specifications, the overlap of ports, and the public ports of the
      instances behind a load balancer.
    - [LookupIdx] (generated): the indexes from a key to the objects that refer
      to it.  [Sha256]: the digest of Go's library that names are made of.
    - [ProvObjs], [ProvCheck] (cloudcommon/autoprov_common.go,
      controller/autoprovpolicy_api.go, appinstrefs_api.go): application
      instances, their references, and the checks with which the controller
      admits what the auto-provisioning service asks for.
    - [FreeClust] (edgeproto/free_reservable_clusterinsts.go): the reservable
      clusters that are free.
    - [ProvAggr], [AutoProv], [Failover] (autoprov/autoprov_aggr.go,
      autoprov_minmax.go, autoprov_retry.go): the service: deployment on demand,
      the plan that keeps an app between its minimum and maximum, with the
      workers that carry it out ([AutoProv.Sites]), and the requests to move the
      apps of a cloudlet, as a step relation over the checks, the workers and
      the goroutines that answer.
    - [Maint] (controller/cloudlet_api.go, cloudletinfo_api.go,
      crmutil/controller-data.go): the start and the end of the maintenance of a
      cloudlet, as steps of the calls, the service and the resource manager.
    - [TPEChange] (controller/trustpolicyexception_changes.go): which instances
      of trust policy exceptions a change concerns ([Trigger]), and the goroutines
      of all controllers that apply them ([step]), with changes that start none.
    - [TrustRules] (app_api.go, trustpolicyexception_api.go): whether an app is
      compatible with the trust policy of a cloudlet and the exceptions.
    - [PlaceObjs], [ClustRes] (controller/cluster_resources.go), [CloudRes]
      (cloudlet_resources.go, cloudlet_resource_check.go): apps, instances and
      clusters; what is used of a cluster and of a cloudlet and what fits there.
    - [Placement] (appinst_zone.go, clusterinst_zone.go, potential_cloudlet.go):
      the cloudlets and clusters on which an instance can be placed, in order.
    - [Reserve] (appinst_api.go, clusterrefs_api.go): the transactions that choose
      and reserve a cluster for an instance, undo and delete; [rs_step] is a run of
      the controllers.
    - [Udec] (api/edgeproto/decimal.go): unsigned decimals.
    - [NodeRes] (api/edgeproto/resources.go, cloudcommon/infraresources.go):
      nodes, pools and requirements, their validation, resource keys.
    - [ResVals], [ResFits] (resspec/resvals.go, res_fits.go): maps of resource
      amounts, and the checks that a request fits on pools, clusters and nodes.
    - [VMSpec] (resspec/vmspec_matcher.go): the choice of an infra flavor.
    - [VMPool] (crm/crm_vmpool.go, platform/vmpool): the pool of VMs of a
      cloudlet.  [UpdateVMPool] is the CRM's handler; [CreateVMs], [DeleteVMs]
      and [UpdateVMs] are the platform's; the module [Race] interleaves their
      critical sections.
    - [VMPoolApi] (controller/vmpool_api.go, vmpoolinfo_api.go): the handlers of
      VM pools in the controller, and both sides together.
    - [KeyWorkers] (util/tasks/keyworkers.go): a worker goroutine for each key,
      as a step relation over the places of the goroutines.
    - [HAMgr] (redundancy/ha_manager.go): the active and the standby CRM and
      their lease in Redis.  A method is a program over its calls ([prog]);
      [step] interleaves the processes, the clock and crashes.
    - [RateLimit] (cloudcommon/ratelimit, api/edgeproto/ratelimit.go): the
      settings, the limiters, the limiter of an endpoint and the manager.

    [KVStore] is below [SyncData] and [Stm]; [SyncData] is below [Notify]; [Stm] is below the handlers
    ([ZoneApi], [DnsLabel], [ProvCheck]); [Udec], [NodeRes], [ResVals] are below
    [ResFits] and [VMSpec], which are below [ClustRes] and [CloudRes]; these and
    [TrustRules] are below [Placement], and it is below [Reserve];
    [VMSpec] is below [VMPool], which is below [VMPoolApi]; [LookupIdx],
    [FreeClust], [ProvAggr] and [AutoProv] are below [Failover], which is below
    [Maint].  Data, operations and
    constants keep the names of the code; where two types share a field name
    the field has a prefix ([np_Name], [fi_Name]).

    ** How code is translated

    A method that changes its receiver returns the new value; a method that
    holds a mutex is one step.  [(T, error)] is [result T]; [option] around a
    result stands for a panic.  A nil slice or map is the empty one, except
    where the code tells them apart, where it is an [option].  Pointers in
    containers are values, which is faithful because the code copies before
    it changes ([DeepCopyIn] in the caches, [Clone] of the maps).  Log calls,
    spans and metrics are left out.  What a callback or a check reads from the
    caches is an argument ([CacheData] does not change during a check).  Ghost
    fields that no code reads ([asked], [checked] of [Failover], [freed] of
    [VMPool.Race], [lb_again] of [Ports]) say so where they are declared.  A step
    relation takes every step that the code can take; where a theorem needs some
    of them not to happen, the relation has the set of the requests that come as
    an argument ([upd] of [zone_api], [P] of [mt_step], [coming] of [place_step],
    [silent] of [TPEChange.step], [users] of [mgr_next]) and the theorem says what
    it asks of the set.  Parameters of the model are: the encoding of objects
    ([Json], [SyncData]), the token buckets of
    golang.org/x/time and the clock ([RateLimit]), the work on VMs over ssh
    ([VMPool]), Redis ([HAMgr]), [%f] and [%v] of structures in messages.

    ** What is shown

    - The store: a transaction that commits is one step at its commit
      ([stm_serializable]); it succeeds alone and gives up after at most 13
      runs; revisions and versions only grow ([reachable_inv]); the four
      operations refine an abstract map ([ops_refine]); a client that follows
      its watch has the store's objects ([watch_consistent]), so the caches
      mirror the store ([caches_mirror_store]).
    - Controller: a body that commits is one atomic change ([commit_refines]);
      whatever handlers and requests come, the zones that pools and policies
      refer to are there, and the pools of exceptions are when no update writes
      the mark of a pool ([refs_intact], [pool_mark_cleared]); no two clusters or instances have the same domain
      name ([fqdns_unique]).
    - Auto-provisioning: the controller admits no second instance in a zone and
      none beyond the bounds of a policy, and records what it admits
      ([autoprov_bounds]); the service plans
      exactly the deletes and creates that the policy asks for
      ([checkPolicy_correct]), deploys after as many busy intervals as the policy
      says ([deploys_after_streak]), and answers each failover request once, when
      all it asked for is done ([failover_reply_complete]); its cache of free
      clusters and its indexes are exact ([free_clusters_exact], [index_exact],
      [cloudletNeedsCheck_exact]).
    - Maintenance: a cloudlet is under maintenance only when auto-provisioning has
      moved its apps without error and the resource manager has confirmed
      ([maintenance_acknowledged]), unless a call ignores the resource manager or
      the object is sent to the service again, which is then answered early
      ([resent_answered_early]); a start that runs alone comes to an end
      ([maintenance_ends]).
    - Trust policy exceptions: a change reaches every instance it concerns
      ([changes_reach_instances]); when the goroutines are done ([tpe_finishes])
      what is recorded and what was called last is what the objects say
      ([tpe_converges]), but for later changes that start no goroutine
      ([silent_change_stays]), and no two call the platform at once ([tpe_one_call]);
      a run that ends with an error blocks the others for an hour
      ([failed_owner_blocks]).
    - Ports: a specification that is accepted is valid ([ParseAppPorts_valid]);
      behind a shared load balancer no public port is used twice for a protocol
      and the record of them is exact ([shared_ports_exact]), as long as no
      instance gives its ports back a second time ([double_release]).
    - Notify: batches and streams send a type after those it refers to.  When the
      changes stop, the goroutines come to rest in whatever order they run and the
      client has the server's objects ([notify_settles]); before that it has every
      object of which no change is under way ([notify_mirrors]).
    - Trust policies: within a family of addresses an app is accepted exactly when
      every connection it requires lies within a rule ([trust_check_exact], on
      [CidrContainsCidr_correct]), and an update of a policy is accepted exactly
      when it suits the instances on the cloudlets of the policy that have no
      federated organization ([policy_update_safe]).
    - Placement: the cloudlets and clusters that are offered satisfy what the app
      needs ([potential_cloudlets_sound], [potential_clusters_sound]) and no other
      cluster does ([validated_exact]).  Instances placed with the check never need more than
      their cluster has ([place_keeps_capacity]): each kind of pool within its own
      nodes unless the user named the cluster ([named_cluster_oversubscribed]), and
      on clusters of VMs unless sidecars come ([sidecar_oversubscribes]).  What the
      check of a cloudlet decides is [fits_exact].  The instances on a reservable
      cluster that are no sidecars belong to one organization ([one_tenant]), as
      long as no undo clears a reservation that is in use.
    - Resources: decimals are exact ([arith_exact], round trips through text
      and JSON); resource maps are added and subtracted exactly; a request is
      accepted exactly when the suitable pools hold it ([NodePoolFits_correct],
      [cluster_fits_correct]); the flavor chosen is the smallest that suits
      ([GetVMSpec_closest]).
    - VM pools: an update keeps what is in use and always reports its end
      ([UpdateVMPool_safe]), replaces exactly what it should
      ([update_replaces]) and undoes additions and removals that fail; an
      allocation meets its specs, a group created and deleted leaves the pool
      as it was, and no interleaving gives a VM to two operations but for VMs
      that an update forces free ([operations_own_their_vms],
      [force_free_loses_allocation]).  The controller keeps the addresses of a pool
      apart ([addresses_distinct]).
    - Workers: one call at a time for each key and no lost request
      ([one_call_per_key], [requests_served]).
    - High availability: at most one active instance while Redis answers and
      the leases are extended in time ([at_most_one_active]), only the primary
      in an outage ([outage_leaves_primary]), takeover within a poll interval
      of the end of a lease ([standby_takes_over]).
    - Rate limits: the window limiter accepts exactly the limit, the limiters
      in force are those of the current settings but for those per user after a
      setting is pruned ([limiters_in_sync]), tracked callers are bounded.
    - Faults are theorems as well: a read-only transaction is not validated
      ([readonly_not_validated]), pruning leaves limiters per user in force,
      a volume can be left over from another flavor ([stale_volume]), matching
      depends on the order of a map ([match_order_dependent]), a failed
      replacement of a VM pool is not undone ([failed_update_not_reverted]), a
      refresh of the flavors loses allocations ([refresh_loses_allocation]), an
      active instance dies of its own lease ([regain_own_lease_fatal]), two
      workers take the same site ([getNext_race]), a failover is reported done
      while it runs ([failover_done_early]), two versions of an app get the same
      instance name ([autoprov_key_collision]), the undo of a failed creation
      frees a cluster that is in use ([failed_create_unreserves]), more nodes of a
      cluster are never checked ([cluster_update_unchecked]), the second VM that is
      added to a pool in use is refused ([second_member_refused]), an update of a
      pool is lost when its transaction runs again ([retry_loses_update]), a
      maintenance whose end failed once can be ended only by a call that ignores
      the resource manager ([exit_retry_stuck]), a port that is given back twice is
      given to two instances ([double_release]), an instance that moves stays in
      its old index entry ([moved_object_stays]).

    Theorems with hypotheses have a run at concrete data in the modules
    [Witness], [SyncWitness], [ResFitsWitness] and the like.

    ** Fuel and bounds

    Recursion that is not structural has fuel.  [ApplySTM_loop] runs with 13,
    which is the code's own limit of retries.  [orderUpdated] recurses
    through the graph of types: fuel above the length of the longest chain of
    references is enough, and [NewNotifyOrder_sorted] shows that it then
    returns.  The search of a field mask has one unit more than the length of the
    field; a label is tried with 10 candidates, as the code does; the blocks of a
    digest have one unit for each word.  Sizes of strings and maps are not bounded; machine integers wrap
    where the code computes with them, counters of events do not.

    ** What is not modelled, and what comes next

    Of [createAppInstInternal] and [deleteAppInstInternal] the parts in
    [ProvCheck], [DnsLabel], [Ports], [Placement] and [Reserve] are modelled, of
    [createClusterInstInternal] the checks in [CloudRes] and [Placement]; of
    [app_api.go], [cloudlet_api.go] and [trustpolicy_api.go] only what those
    read and the checks in [TrustRules].  What would come next: the handlers of flavors and resource tables.  Not planned: the etcd
    client, gRPC and HTTP servers, the streams of messages to API clients, the
    platforms other than VM pools, generated code beyond the pieces the models use, command lines,
    logging, secrets and tests. *)

From stdpp Require Export prelude gmap strings pretty sorting.
From stdpp Require Import fin_maps.
From Stdlib Require Export ZArith.

#[global] Set Default Goal Selector "!".

(** ** Results and errors

    A Go function that returns [(T, error)] and whose value is meaningless
    when the error is not nil is modelled by [result T]; an [error] is its
    message.  A function that can panic returns an [option] around it. *)

Definition error := string.

Inductive result (A : Type) : Type :=
| Ok (a : A)
| Err (e : error).
Arguments Ok {A} _.
Arguments Err {A} _.

#[global] Instance result_ret : MRet result := fun A a => Ok a.
#[global] Instance result_bind : MBind result := fun A B f r =>
  match r with Ok a => f a | Err e => Err e end.
#[global] Instance result_fmap : FMap result := fun A B f r =>
  match r with Ok a => Ok (f a) | Err e => Err e end.

Definition is_ok {A} (r : result A) : bool :=
  match r with Ok _ => true | Err _ => false end.

(** [if err := ..; err != nil { return wrap(err) }] *)
Definition map_err {A} (f : error -> error) (r : result A) : result A :=
  match r with Ok a => Ok a | Err e => Err (f e) end.

(** ** Tactics *)

(** Case analysis on every [if]/[match] of the goal, closing trivial cases. *)
Ltac split_matches :=
  repeat (case_match || case_decide); simplify_eq/=; try done.

(** Destruct the conjunctions and existentials of the context. *)
Ltac break_ands :=
  repeat match goal with
  | H : _ ∧ _ |- _ => destruct H
  | H : ∃ _, _ |- _ => destruct H
  end.

(** Invert a monadic [result] equation [x ≫= k = Ok b] into its steps. *)
Lemma result_bind_ok {A B} (r : result A) (k : A → result B) b :
  r ≫= k = Ok b ↔ ∃ a, r = Ok a ∧ k a = Ok b.
Proof. destruct r; simpl; naive_solver. Qed.

Lemma result_bind_err {A B} (r : result A) (k : A → result B) e :
  r ≫= k = Err e ↔ r = Err e ∨ ∃ a, r = Ok a ∧ k a = Err e.
Proof. destruct r; simpl; naive_solver. Qed.

Ltac inv_result :=
  repeat match goal with
  | H : @mbind result _ _ _ _ _ = Ok _ |- _ =>
      apply result_bind_ok in H as (? & ? & H)
  | H : Ok _ = Ok _ |- _ => injection H as H
  | H : Ok _ = Err _ |- _ => discriminate H
  | H : Err _ = Ok _ |- _ => discriminate H
  end; simplify_eq/=.

(** ** Lists *)

Create HintDb edge discriminated.

Lemma filter_all {A} (P : A → Prop) `{!∀ x, Decision (P x)} (l : list A) :
  Forall P l → filter P l = l.
Proof. induction 1; [done|]. rewrite filter_cons_True by done. by f_equal. Qed.

Lemma filter_none {A} (P : A → Prop) `{!∀ x, Decision (P x)} (l : list A) :
  Forall (λ x, ¬ P x) l → filter P l = [].
Proof. induction 1; [done|]. by rewrite filter_cons_False. Qed.

Lemma filter_flat_map {A B} (P : B → Prop) `{!∀ x, Decision (P x)}
    (f : A → list B) (l : list A) :
  filter P (flat_map f l) = flat_map (λ x, filter P (f x)) l.
Proof. induction l; simpl; [done|]. rewrite filter_app. by f_equal. Qed.

Lemma flat_map_perm {A B} (f : A → list B) (l1 l2 : list A) :
  l1 ≡ₚ l2 → flat_map f l1 ≡ₚ flat_map f l2.
Proof.
  induction 1; simpl; [done|by f_equiv| |by etrans].
  rewrite !app_assoc. f_equiv. apply Permutation_app_comm.
Qed.

Lemma flat_map_nil {A B} (f : A → list B) (l : list A) :
  (∀ x, x ∈ l → f x = []) → flat_map f l = [].
Proof.
  induction l as [|a l IH]; simpl; intros H; [done|].
  rewrite (H a) by set_solver. apply IH. set_solver.
Qed.

Lemma permutation_fold_left {A B} (f : B → A → B) (l1 l2 : list A) b :
  (∀ b x y, x ∈ l1 → y ∈ l1 → f (f b x) y = f (f b y) x) →
  l1 ≡ₚ l2 → fold_left f l1 b = fold_left f l2 b.
Proof.
  intros Hcomm Hperm. revert b Hcomm.
  induction Hperm as [|x l1 l2 _ IH|x y l|l1 l2 l3 H12 IH1 _ IH2];
    intros b Hcomm; simpl.
  - done.
  - apply IH. intros; apply Hcomm; set_solver.
  - by rewrite Hcomm by set_solver.
  - rewrite IH1 by done. apply IH2.
    intros b' x y Hx Hy. apply Hcomm; by rewrite H12.
Qed.

(** ** Maps *)

Section map_lemmas.
Context `{Countable K} {V : Type}.
Implicit Types m : gmap K V.

Lemma list_to_map_fold (l : list (K * V)) m k :
  NoDup l.*1 →
  fold_left (λ m kv, <[kv.1 := kv.2]> m) l m !! k =
  match (list_to_map l : gmap K V) !! k with Some v => Some v | None => m !! k end.
Proof.
  revert m. induction l as [|[k' v] l IH]; intros m Hnd; simpl.
  - by rewrite lookup_empty.
  - apply NoDup_cons in Hnd as [Hni Hnd]. rewrite IH by done.
    destruct (decide (k = k')) as [->|].
    + rewrite lookup_insert_eq, lookup_insert_eq.
      by rewrite not_elem_of_list_to_map_1 by done.
    + rewrite !lookup_insert_ne by done. done.
Qed.

Lemma map_to_list_lookup m k v : (k, v) ∈ map_to_list m ↔ m !! k = Some v.
Proof. apply elem_of_map_to_list. Qed.

End map_lemmas.
