(* ===== verification/GoStd.v ===== *)
(** * The parts of Go and of its standard library the program relies on

    - machine integers with their wrap-around ([uint32], [uint64], [int]);
    - the order in which [range] visits a map, which Go leaves unspecified:
      the interface [GoRange];
    - [strings], [strconv], [fmt] on integers and [slices.Sort] on strings;
    - [float64] as IEEE-754 binary64 (radix-2 [spec_float], 53 bits). *)

From S2P Require Export Prelude.
From Stdlib Require Import SpecFloat.
From Stdlib Require Export Ascii.

Local Open Scope Z_scope.

(** ** Machine integers *)

Definition wrap_u (w z : Z) : Z := z mod 2 ^ w.
Abbreviation u32 := (wrap_u 32).
Abbreviation u64 := (wrap_u 64).

(** [int64]/[int] two's complement. *)
Definition wrap_i64 (z : Z) : Z := (z + 2 ^ 63) mod 2 ^ 64 - 2 ^ 63.

Definition is_u (w z : Z) : Prop := 0 ≤ z < 2 ^ w.
Abbreviation is_u32 := (is_u 32).
Abbreviation is_u64 := (is_u 64).

Lemma wrap_u_small w z : is_u w z → wrap_u w z = z.
Proof. intros H. apply Z.mod_small, H. Qed.

Lemma wrap_u_range w z : 0 ≤ w → is_u w (wrap_u w z).
Proof. intros H. apply Z.mod_pos_bound. by apply Z.pow_pos_nonneg. Qed.

#[export] Hint Resolve wrap_u_range : edge.

(** ** Iterating over a map

    Go visits the entries of a map in an unspecified order.  The functions
    that range over a map take that order from an instance of [GoRange]; their
    theorems hold for every instance, so for every order. *)

Class GoRange := {
  go_range : ∀ {K} `{Countable K} {V}, gmap K V → list (K * V);
  go_range_perm : ∀ {K} `{Countable K} {V} (m : gmap K V),
    go_range m ≡ₚ map_to_list m;
}.

(** One admissible order, used by the concrete runs. *)
Definition canonical_range : GoRange :=
  {| go_range := λ K _ _ V m, map_to_list m;
     go_range_perm := λ K _ _ V m, reflexivity _ |}.

Section go_range.
Context {GR : GoRange} `{Countable K} {V : Type}.
Implicit Types m : gmap K V.

Lemma elem_of_go_range m k v : (k, v) ∈ go_range m ↔ m !! k = Some v.
Proof. rewrite go_range_perm. apply elem_of_map_to_list. Qed.

Lemma NoDup_go_range m : NoDup (go_range m).*1.
Proof. rewrite go_range_perm. apply NoDup_fst_map_to_list. Qed.

Lemma NoDup_go_range_kv m : NoDup (go_range m).
Proof. eapply NoDup_fmap_1, NoDup_go_range. Qed.

Lemma go_range_empty : go_range (∅ : gmap K V) = [].
Proof.
  pose proof (go_range_perm (∅ : gmap K V)) as Hp.
  rewrite map_to_list_empty in Hp. by apply Permutation_nil_r in Hp.
Qed.

Lemma list_to_map_go_range m : list_to_map (go_range m) = m.
Proof.
  rewrite <- (list_to_map_to_list m) at 2.
  apply list_to_map_proper; [apply NoDup_go_range | apply go_range_perm].
Qed.

Lemma length_go_range m : length (go_range m) = size m.
Proof. rewrite go_range_perm. apply length_map_to_list. Qed.

End go_range.

(** ** Sorting

    [sort.Slice] is not stable: elements that compare equal end in an
    unspecified order, taken from an instance of [GoSort]. *)

Class GoSort := {
  go_sort : ∀ {A}, (A → A → bool) → list A → list A;
  go_sort_perm : ∀ {A} (less : A → A → bool) l, go_sort less l ≡ₚ l;
  go_sort_sorted : ∀ {A} (less : A → A → bool) l,
    (∀ x y, less x y = true → less y x = false) →
    (∀ x y z, less y x = false → less z y = false → less z x = false) →
    StronglySorted (λ x y, less y x = false) (go_sort less l);
}.

(** One admissible sort, used by the concrete runs. *)
Program Definition stable_sort : GoSort :=
  {| go_sort := λ A less l,
       @merge_sort A (λ x y, less y x = false) (λ x y, decide (less y x = false)) l |}.
Next Obligation. intros. apply merge_sort_Permutation. Qed.
Next Obligation.
  intros A less l Hasym Htrans. simpl. apply Sorted_StronglySorted.
  - intros x y z. apply Htrans.
  - apply Sorted_merge_sort. intros x y.
    destruct (less y x) eqn:E; [right; by apply Hasym | by left].
Qed.

(** ** Characters and strings *)

Definition is_digit (c : ascii) : bool :=
  let n := Ascii.nat_of_ascii c in (Nat.leb 48 n && Nat.leb n 57)%bool.
Definition digit_val (c : ascii) : Z :=
  Z.of_nat (Ascii.nat_of_ascii c) - 48.

Definition quote_char : ascii := Ascii.ascii_of_nat 34.

(** [%q] of a string without characters to escape. *)
Definition quote (s : string) : string :=
  String quote_char (s +:+ String quote_char EmptyString).

(** [strings.ToLower] on ASCII. *)
Definition lower_ascii (c : ascii) : ascii :=
  let n := Ascii.nat_of_ascii c in
  if (Nat.leb 65 n && Nat.leb n 90)%bool then Ascii.ascii_of_nat (n + 32) else c.
Fixpoint to_lower (s : string) : string :=
  match s with
  | EmptyString => EmptyString
  | String c s' => String (lower_ascii c) (to_lower s')
  end.

(** [strings.Split] for a separator of one character. *)
Fixpoint split (sep : ascii) (s : string) : list string :=
  match s with
  | EmptyString => [EmptyString]
  | String c s' =>
      if decide (c = sep) then EmptyString :: split sep s'
      else match split sep s' with
           | h :: t => String c h :: t
           | [] => [String c EmptyString]
           end
  end.

(** [strings.Contains], [strings.HasPrefix], [strings.Join]. *)
Definition contains (s sub : string) : bool :=
  match String.index 0 sub s with Some _ => true | None => false end.
Definition has_prefix (s pre : string) : bool := String.prefix pre s.
Definition join (sep : string) (l : list string) : string := String.concat sep l.

(** [strings.TrimRight] and [strings.TrimLeft] for a set of characters. *)
Fixpoint trim_right (p : ascii → bool) (s : string) : string :=
  match s with
  | EmptyString => EmptyString
  | String c s' =>
      match trim_right p s' with
      | EmptyString => if p c then EmptyString else String c EmptyString
      | r => String c r
      end
  end.
Fixpoint trim_left (p : ascii → bool) (s : string) : string :=
  match s with
  | EmptyString => EmptyString
  | String c s' => if p c then trim_left p s' else s
  end.

(** [strings.Trim] for a set of characters. *)
Definition trim (p : ascii → bool) (s : string) : string := trim_right p (trim_left p s).

(** [strings.IndexByte], [strings.LastIndex] for one character. *)
Fixpoint index_byte (c : ascii) (s : string) : option nat :=
  match s with
  | EmptyString => None
  | String a s' => if decide (a = c) then Some 0%nat else S <$> index_byte c s'
  end.
Fixpoint last_index (c : ascii) (s : string) : option nat :=
  match s with
  | EmptyString => None
  | String a s' =>
      match last_index c s' with
      | Some n => Some (S n)
      | None => if decide (a = c) then Some 0%nat else None
      end
  end.

(** Slices of a string, [s[:n]] and [s[n:]]. *)
Fixpoint str_take (n : nat) (s : string) : string :=
  match n, s with
  | S n', String c s' => String c (str_take n' s')
  | _, _ => EmptyString
  end.
Fixpoint str_drop (n : nat) (s : string) : string :=
  match n, s with
  | S n', String c s' => str_drop n' s'
  | _, _ => s
  end.

(** [slices.Sort]/[sort.Strings]: ascending bytewise order. *)
Definition sort_strings (l : list string) : list string := merge_sort String.le l.

(** [strings.NewReplacer] for replacements of single characters. *)
Fixpoint replace_chars (f : ascii → option string) (s : string) : string :=
  match s with
  | EmptyString => EmptyString
  | String c s' => default (String c EmptyString) (f c) +:+ replace_chars f s'
  end.

(** ** Runes (unicode/utf8)

    [range] over a string decodes it: an invalid byte is the rune U+FFFD. *)
Definition byte_val (c : ascii) : Z := Z.of_nat (Ascii.nat_of_ascii c).
Definition byte_chr (z : Z) : ascii := Ascii.ascii_of_nat (Z.to_nat z).
Definition RuneError : Z := 65533.

(** The first rune and its width. *)
Definition DecodeRune (s : string) : Z * nat :=
  let cont (lo hi : Z) (s : string) : option (Z * string) :=
    match s with
    | String c s' =>
        if decide (lo ≤ byte_val c ≤ hi) then Some (byte_val c mod 64, s') else None
    | EmptyString => None
    end in
  match s with
  | EmptyString => (RuneError, 0%nat)
  | String c s1 =>
      let b := byte_val c in
      if decide (b < 128) then (b, 1%nat)
      else if decide (194 ≤ b < 224) then
        match cont 128 191 s1 with
        | Some (x, _) => (b mod 32 * 64 + x, 2%nat)
        | None => (RuneError, 1%nat)
        end
      else if decide (224 ≤ b < 240) then
        match cont (if decide (b = 224) then 160 else 128)
                (if decide (b = 237) then 159 else 191) s1 with
        | Some (x, s2) =>
            match cont 128 191 s2 with
            | Some (y, _) => ((b mod 16 * 64 + x) * 64 + y, 3%nat)
            | None => (RuneError, 1%nat)
            end
        | None => (RuneError, 1%nat)
        end
      else if decide (240 ≤ b < 245) then
        match cont (if decide (b = 240) then 144 else 128)
                (if decide (b = 244) then 143 else 191) s1 with
        | Some (x, s2) =>
            match cont 128 191 s2 with
            | Some (y, s3) =>
                match cont 128 191 s3 with
                | Some (z, _) => (((b mod 8 * 64 + x) * 64 + y) * 64 + z, 4%nat)
                | None => (RuneError, 1%nat)
                end
            | None => (RuneError, 1%nat)
            end
        | None => (RuneError, 1%nat)
        end
      else (RuneError, 1%nat)
  end.

(** The runes of a string with the indexes of their first bytes; a rune has at
    least one byte, so the length of the string is fuel enough. *)
Fixpoint runes_from (fuel ii : nat) (s : string) : list (nat * Z) :=
  match fuel, s with
  | S fuel', String _ _ =>
      let '(ch, w) := DecodeRune s in
      (ii, ch) :: runes_from fuel' (ii + w) (str_drop w s)
  | _, _ => []
  end.
Definition runes (s : string) : list (nat * Z) := runes_from (String.length s) 0 s.

(** [string(buf)] for a slice of runes. *)
Definition encode_rune (z : Z) : string :=
  let z := if decide (0 ≤ z < 55296 ∨ 57344 ≤ z < 1114112) then z else RuneError in
  if decide (z < 128) then String (byte_chr z) EmptyString
  else if decide (z < 2048) then
    String (byte_chr (192 + z / 64)) (String (byte_chr (128 + z mod 64)) EmptyString)
  else if decide (z < 65536) then
    String (byte_chr (224 + z / 4096))
      (String (byte_chr (128 + z / 64 mod 64)) (String (byte_chr (128 + z mod 64)) EmptyString))
  else
    String (byte_chr (240 + z / 262144))
      (String (byte_chr (128 + z / 4096 mod 64))
        (String (byte_chr (128 + z / 64 mod 64)) (String (byte_chr (128 + z mod 64)) EmptyString))).
Definition string_of_runes (l : list Z) : string := foldr (λ z s, encode_rune z +:+ s) "" l.

(** ** strconv and fmt on integers *)

(** [strconv.ParseUint(s, 10, bits)] *)
Fixpoint parse_digits (max acc : Z) (s : string) : result Z :=
  match s with
  | EmptyString => Ok acc
  | String c s' =>
      if is_digit c then
        let n := acc * 10 + digit_val c in
        if decide (max < n) then Err "value out of range"
        else parse_digits max n s'
      else Err "invalid syntax"
  end.
Definition num_error (fn s : string) (e : error) : error :=
  "strconv." +:+ fn +:+ ": parsing " +:+ quote s +:+ ": " +:+ e.
Definition ParseUint (s : string) (bits : Z) : result Z :=
  map_err (num_error "ParseUint" s)
    (match s with
     | EmptyString => Err "invalid syntax"
     | _ => parse_digits (2 ^ bits - 1) 0 s
     end).

(** [strconv.ParseInt(s, 10, bits)] and [strconv.Atoi] ([bits] = 64). *)
Definition parse_signed (s : string) (bits : Z) : result Z :=
  let '(neg, digits) :=
    match s with
    | String "+" s' => (false, s')
    | String "-" s' => (true, s')
    | _ => (false, s)
    end in
  match digits with
  | EmptyString => Err "invalid syntax"
  | _ =>
      un ← parse_digits (2 ^ bits - 1) 0 digits;
      let cutoff := 2 ^ (bits - 1) in
      if neg then
        if decide (cutoff < un) then Err "value out of range" else Ok (- un)
      else
        if decide (cutoff ≤ un) then Err "value out of range" else Ok un
  end.
Definition ParseInt (s : string) (bits : Z) : result Z :=
  map_err (num_error "ParseInt" s) (parse_signed s bits).
Definition Atoi (s : string) : result Z :=
  map_err (num_error "Atoi" s) (parse_signed s 64).

(** The value [strconv.Atoi] returns, also with an error: 0 on a syntax error,
    the nearest bound when out of range. *)
Definition Atoi_value (s : string) : Z :=
  match parse_signed s 64 with
  | Ok v => v
  | Err e =>
      if decide (e = "value out of range") then
        if has_prefix s "-" then - 2 ^ 63 else 2 ^ 63 - 1
      else 0
  end.

(** [%d] of a non-negative and of a signed integer. *)
Definition fmt_u (z : Z) : string := pretty (Z.to_N z).
Definition fmt_d (z : Z) : string := pretty z.

(** ** float64 *)

Abbreviation float64 := spec_float.
Abbreviation f64_prec := 53.
Abbreviation f64_emax := 1024.

Definition f64_of_Z (z : Z) : float64 := binary_normalize f64_prec f64_emax z 0 false.
Definition f64_add (a b : float64) : float64 := SFadd f64_prec f64_emax a b.
Definition f64_mul (a b : float64) : float64 := SFmul f64_prec f64_emax a b.
Definition f64_div (a b : float64) : float64 := SFdiv f64_prec f64_emax a b.
Definition f64_eqb (a b : float64) : bool := SFeqb a b.
Definition f64_ltb (a b : float64) : bool := SFltb a b.
Definition f64_leb (a b : float64) : bool := SFleb a b.
Definition f64_zero : float64 := S754_zero false.

(** The value of a finite float rounded up, and truncated, to an integer. *)
Definition f64_ceil_Z (f : float64) : Z :=
  match f with
  | S754_finite s m e =>
      let v := if s then Zneg m else Zpos m in
      if decide (0 ≤ e) then v * 2 ^ e else - ((- v) / 2 ^ (- e))
  | _ => 0
  end.
Definition f64_trunc_Z (f : float64) : Z :=
  match f with
  | S754_finite s m e =>
      let v := if s then Zneg m else Zpos m in
      if decide (0 ≤ e) then v * 2 ^ e else Z.quot v (2 ^ (- e))
  | _ => 0
  end.

(** [math.Ceil]: an integer of at most 53 significant bits is exact. *)
Definition f64_Ceil (f : float64) : float64 :=
  match f with
  | S754_finite s _ _ => binary_normalize f64_prec f64_emax (f64_ceil_Z f) 0 s
  | _ => f
  end.

(** [uint32(f)] and [uint64(f)]: truncation.  Out of range Go leaves the
    result to the implementation; this is amd64, which converts through a
    64-bit signed integer. *)
Definition f64_to_u32 (f : float64) : Z :=
  let z := f64_trunc_Z f in
  if decide (- 2 ^ 63 ≤ z < 2 ^ 63) then u32 z else 0.

(** ** Lemmas on strings and numerals *)

Fixpoint str_all (p : ascii → bool) (s : string) : bool :=
  match s with
  | EmptyString => true
  | String c s' => p c && str_all p s'
  end.

Lemma str_app_assoc s1 s2 s3 : (s1 +:+ s2) +:+ s3 = s1 +:+ (s2 +:+ s3).
Proof. induction s1 as [|c s1 IH]; [done|]. exact (f_equal (String c) IH). Qed.

Lemma str_all_app p s1 s2 : str_all p (s1 +:+ s2) = str_all p s1 && str_all p s2.
Proof. induction s1 as [|c s1 IH]; simpl; [done|]. by rewrite IH, andb_assoc. Qed.

Lemma str_all_impl (p q : ascii → bool) s :
  (∀ c, p c = true → q c = true) → str_all p s = true → str_all q s = true.
Proof.
  intros H. induction s as [|c s IH]; simpl; [done|]. rewrite !andb_true_iff. naive_solver.
Qed.

(** No occurrence of a character. *)
Definition str_avoids (c : ascii) (s : string) : Prop :=
  str_all (λ a, negb (bool_decide (a = c))) s = true.

Lemma index_byte_app c s1 s2 :
  str_avoids c s1 → index_byte c (s1 +:+ String c s2) = Some (String.length s1).
Proof.
  unfold str_avoids. induction s1 as [|a s1 IH]; simpl.
  - by rewrite decide_True by done.
  - rewrite andb_true_iff, negb_true_iff. intros [Ha H].
    apply bool_decide_eq_false in Ha. rewrite decide_False, IH by done. done.
Qed.
Lemma index_byte_none c s : str_avoids c s → index_byte c s = None.
Proof.
  unfold str_avoids. induction s as [|a s IH]; simpl; [done|].
  rewrite andb_true_iff, negb_true_iff. intros [Ha H].
  apply bool_decide_eq_false in Ha. by rewrite decide_False, IH by done.
Qed.
Lemma str_take_app s1 s2 : str_take (String.length s1) (s1 +:+ s2) = s1.
Proof. induction s1 as [|c s1 IH]; simpl; [by destruct s2|]. by f_equal. Qed.
Lemma str_drop_app c s1 s2 : str_drop (S (String.length s1)) (s1 +:+ String c s2) = s2.
Proof. induction s1 as [|a s1 IH]; simpl; [done|]. apply IH. Qed.

Lemma pretty_N_char_digit (x : N) :
  (x < 10)%N → is_digit (pretty_N_char x) = true ∧ digit_val (pretty_N_char x) = Z.of_N x.
Proof.
  intros Hx.
  assert (x ∈ ([0; 1; 2; 3; 4; 5; 6; 7; 8; 9])%N) as Hin.
  { assert (x = 0 ∨ x = 1 ∨ x = 2 ∨ x = 3 ∨ x = 4 ∨ x = 5 ∨ x = 6 ∨ x = 7 ∨ x = 8 ∨ x = 9)%N
      by lia. set_solver. }
  repeat (apply elem_of_cons in Hin as [->|Hin]; [done|]).
  by apply not_elem_of_nil in Hin.
Qed.

Lemma pretty_N_go_digits (x : N) s :
  str_all is_digit s = true → str_all is_digit (pretty_N_go x s) = true.
Proof.
  revert s. induction (N.lt_wf_0 x) as [x _ IH]; intros s Hs.
  destruct (decide (0 < x)%N) as [Hx|Hx].
  - rewrite pretty_N_go_step by done. apply IH; [apply N.div_lt; lia|].
    simpl. rewrite Hs.
    destruct (pretty_N_char_digit (x `mod` 10)) as [-> _]; [by apply N.mod_lt|done].
  - by replace x with 0%N by lia.
Qed.

Lemma pretty_N_digits (x : N) : str_all is_digit (pretty x) = true.
Proof.
  unfold pretty, pretty_N. case_decide; [done|]. by apply pretty_N_go_digits.
Qed.

Lemma fmt_d_avoids c z : is_digit c = false → c ≠ "-"%char → str_avoids c (fmt_d z).
Proof.
  intros Hc Hm.
  assert (H : ∀ n : N, str_avoids c (pretty n)).
  { intros n. eapply str_all_impl; [|apply pretty_N_digits]. intros a Ha. simpl.
    apply negb_true_iff, bool_decide_eq_false. congruence. }
  unfold fmt_d, pretty, pretty_Z. destruct z as [|p|p]; [apply (H 0%N)|apply (H (Npos p))|].
  unfold str_avoids. simpl. rewrite bool_decide_false by done. apply (H (Npos p)).
Qed.

(** A numeral reads back as the number printed. *)
Lemma parse_digits_go max (x : N) s :
  Z.of_N x ≤ max →
  parse_digits max 0 (pretty_N_go x s) = parse_digits max (Z.of_N x) s.
Proof.
  revert s. induction (N.lt_wf_0 x) as [x _ IH]; intros s Hmax.
  destruct (decide (0 < x)%N) as [Hx|Hx].
  - rewrite pretty_N_go_step by done.
    assert (Hdm := N.div_mod x 10 ltac:(lia)).
    assert (Hmod := N.mod_lt x 10 ltac:(lia)).
    assert (Hle : (x / 10 <= x)%N) by (apply N.Div0.div_le_upper_bound; lia).
    rewrite IH; [|apply N.div_lt; lia|lia].
    destruct (pretty_N_char_digit (x `mod` 10)%N) as [Hd Hv]; [done|].
    cbn [parse_digits]. rewrite Hd, Hv. rewrite decide_False by lia. f_equal. lia.
  - by replace x with 0%N by lia.
Qed.

Lemma parse_digits_pretty max (x : N) :
  Z.of_N x ≤ max → parse_digits max 0 (pretty x) = Ok (Z.of_N x).
Proof.
  intros Hmax. unfold pretty, pretty_N. case_decide.
  - subst. cbn [parse_digits is_digit]. change (digit_val "0") with 0.
    cbn. by rewrite decide_False by lia.
  - by rewrite parse_digits_go.
Qed.

Lemma pretty_N_nonempty (x : N) : pretty x ≠ EmptyString.
Proof.
  unfold pretty, pretty_N. case_decide as Hx; [done|].
  rewrite pretty_N_go_step by lia. intros H.
  assert (∀ y s, s ≠ EmptyString → pretty_N_go y s ≠ EmptyString) as Hne.
  { clear. intros y. induction (N.lt_wf_0 y) as [y _ IH]; intros s Hs.
    destruct (decide (0 < y)%N).
    - rewrite pretty_N_go_step by done. by apply IH; [apply N.div_lt; lia|].
    - by replace y with 0%N by lia. }
  by eapply Hne; [|exact H].
Qed.

Lemma ParseUint_fmt_u z bits :
  0 ≤ z < 2 ^ bits → ParseUint (fmt_u z) bits = Ok z.
Proof.
  intros Hz. unfold ParseUint, fmt_u.
  destruct (pretty (Z.to_N z)) as [|c s] eqn:Hs; [by destruct (pretty_N_nonempty _ Hs)|].
  rewrite <- Hs, parse_digits_pretty by lia. simpl. f_equal. lia.
Qed.

Lemma ParseInt_fmt_d z bits :
  0 ≤ z < 2 ^ (bits - 1) → ParseInt (fmt_d z) bits = Ok z.
Proof.
  intros Hz. assert (fmt_d z = pretty (Z.to_N z)) as -> by (unfold fmt_d; by destruct z; [..|lia]).
  assert (2 ^ (bits - 1) ≤ 2 ^ bits - 1 ∨ z ≤ 2 ^ bits - 1) as Hle.
  { destruct (decide (1 ≤ bits)) as [Hb|Hb]; [left|rewrite Z.pow_neg_r in Hz by lia; lia].
    replace bits with (Z.succ (bits - 1)) at 2 by lia. rewrite Z.pow_succ_r by lia. lia. }
  pose proof (pretty_N_digits (Z.to_N z)) as Hd. unfold ParseInt, parse_signed.
  destruct (pretty (Z.to_N z)) as [|c s] eqn:Hs; [by destruct (pretty_N_nonempty _ Hs)|].
  assert (c ≠ "+"%char ∧ c ≠ "-"%char) as [Hp Hm] by (simpl in Hd; split; intros ->; done).
  assert (match String c s with String "+" s' => (false, s') | String "-" s' => (true, s')
    | _ => (false, String c s) end = (false, String c s)) as ->.
  { clear -Hp Hm. destruct c as [[] [] [] [] [] [] [] []]; done. }
  rewrite <- Hs, parse_digits_pretty by lia. simpl. rewrite decide_False by lia. simpl. f_equal. lia.
Qed.

(** The value of a numeral read after [acc]. *)
Fixpoint str_val (acc : Z) (s : string) : Z :=
  match s with
  | EmptyString => acc
  | String c s' => str_val (acc * 10 + digit_val c) s'
  end.

Lemma digit_val_range c : is_digit c = true → 0 ≤ digit_val c ≤ 9.
Proof.
  unfold is_digit, digit_val. rewrite andb_true_iff, !Nat.leb_le. lia.
Qed.

Lemma str_val_ge acc s : 0 ≤ acc → str_all is_digit s = true → acc ≤ str_val acc s.
Proof.
  revert acc. induction s as [|c s IH]; intros acc Ha H; simpl in *; [lia|].
  apply andb_true_iff in H as [Hc Hs]. apply digit_val_range in Hc.
  specialize (IH (acc * 10 + digit_val c) ltac:(lia) Hs). lia.
Qed.

Lemma parse_digits_val max acc s :
  0 ≤ acc → str_all is_digit s = true → str_val acc s ≤ max →
  parse_digits max acc s = Ok (str_val acc s).
Proof.
  revert acc. induction s as [|c s IH]; intros acc Ha H Hm; simpl in *; [done|].
  apply andb_true_iff in H as [Hc Hs]. rewrite Hc.
  pose proof (digit_val_range c Hc).
  pose proof (str_val_ge (acc * 10 + digit_val c) s ltac:(lia) Hs).
  rewrite decide_False by lia. apply IH; [lia|done..].
Qed.

Lemma str_val_app acc s1 s2 : str_val acc (s1 +:+ s2) = str_val (str_val acc s1) s2.
Proof. revert acc. induction s1 as [|c s1 IH]; intros acc; simpl; [done|]. apply IH. Qed.

Lemma str_val_go (x : N) s : str_val 0 (pretty_N_go x s) = str_val (Z.of_N x) s.
Proof.
  revert s. induction (N.lt_wf_0 x) as [x _ IH]; intros s.
  destruct (decide (0 < x)%N) as [Hx|Hx].
  - rewrite pretty_N_go_step by done.
    assert (Hdm := N.div_mod x 10 ltac:(lia)).
    assert (Hmod := N.mod_lt x 10 ltac:(lia)).
    rewrite IH; [|apply N.div_lt; lia].
    destruct (pretty_N_char_digit (x `mod` 10)%N) as [_ Hv]; [done|].
    cbn [str_val]. rewrite Hv. f_equal. lia.
  - by replace x with 0%N by lia.
Qed.
Lemma str_val_pretty (x : N) : str_val 0 (pretty x) = Z.of_N x.
Proof.
  unfold pretty, pretty_N. case_decide; [by subst|]. by rewrite str_val_go.
Qed.

Lemma length_pretty_N_go (x : N) (k : nat) s :
  (x < 10 ^ N.of_nat k)%N →
  (String.length (pretty_N_go x s) ≤ k + String.length s)%nat.
Proof.
  revert x s. induction k as [|k IH]; intros x s Hx.
  - replace x with 0%N by (simpl in Hx; lia). by rewrite pretty_N_go_0.
  - destruct (decide (0 < x)%N) as [Hp|Hp].
    + rewrite pretty_N_go_step by done. etrans; [apply IH|simpl; lia].
      apply N.Div0.div_lt_upper_bound. rewrite Nat2N.inj_succ, N.pow_succ_r' in Hx. done.
    + replace x with 0%N by lia. rewrite pretty_N_go_0. lia.
Qed.
Lemma length_pretty_N (x : N) (k : nat) :
  (x < 10 ^ N.of_nat k)%N → (1 ≤ k)%nat → (String.length (pretty x) ≤ k)%nat.
Proof.
  intros Hx Hk. unfold pretty, pretty_N. case_decide; [done|].
  pose proof (length_pretty_N_go x k EmptyString Hx) as Hl. simpl in Hl. lia.
Qed.

(** Runs of one character, and what [strings.TrimRight] cuts. *)
Fixpoint str_rep (n : nat) (c : ascii) : string :=
  match n with O => EmptyString | S n' => String c (str_rep n' c) end.

Lemma trim_right_spec c s :
  ∃ k, s = trim_right (λ a, bool_decide (a = c)) s +:+ str_rep k c.
Proof.
  induction s as [|a s [k IH]]; simpl; [by exists 0%nat|].
  destruct (trim_right _ s) as [|b t]; simpl in IH.
  - case_bool_decide; subst; [by exists (S k)|]. by exists k.
  - exists k. by rewrite IH at 1.
Qed.
Lemma trim_right_all p q s : str_all q s = true → str_all q (trim_right p s) = true.
Proof.
  induction s as [|c s IH]; simpl; [done|]. rewrite andb_true_iff. intros [Hc Hs].
  specialize (IH Hs). destruct (trim_right p s); [destruct (p c)|]; simpl in *;
    by rewrite ?Hc, ?IH.
Qed.
Lemma length_str_rep n c : String.length (str_rep n c) = n.
Proof. induction n; simpl; congruence. Qed.
Lemma length_str_app s1 s2 :
  String.length (s1 +:+ s2) = (String.length s1 + String.length s2)%nat.
Proof. induction s1 as [|c s1 IH]; [done|]. exact (f_equal S IH). Qed.
Lemma str_val_zeros acc k : str_val acc (str_rep k "0") = acc * 10 ^ Z.of_nat k.
Proof.
  revert acc. induction k as [|k IH]; intros acc; [simpl; lia|].
  cbn [str_rep str_val]. rewrite IH. change (digit_val "0") with 0.
  rewrite Nat2Z.inj_succ, Z.pow_succ_r by lia. lia.
Qed.
Lemma str_all_rep p n c : p c = true → str_all p (str_rep n c) = true.
Proof. intros H. induction n; simpl; [done|]. by rewrite H. Qed.

Lemma split_avoids c s : str_avoids c s → split c s = [s].
Proof.
  unfold str_avoids. induction s as [|a s IH]; simpl; [done|].
  rewrite andb_true_iff, negb_true_iff. intros [Ha H].
  apply bool_decide_eq_false in Ha. by rewrite decide_False, IH by done.
Qed.
Lemma split_app c s1 s2 :
  str_avoids c s1 → split c (s1 +:+ String c s2) = s1 :: split c s2.
Proof.
  unfold str_avoids. induction s1 as [|a s1 IH]; simpl.
  - by rewrite decide_True.
  - rewrite andb_true_iff, negb_true_iff. intros [Ha H].
    apply bool_decide_eq_false in Ha. by rewrite decide_False, IH by done.
Qed.
Lemma digits_avoid c s : is_digit c = false → str_all is_digit s = true → str_avoids c s.
Proof.
  intros Hc. apply str_all_impl. intros a Ha. simpl.
  apply negb_true_iff, bool_decide_eq_false. congruence.
Qed.
