(* ===== verification/GoNet.v ===== *)
(** * Addresses and networks (net, net/netip; cloudcommon/utils.go)

    What the source uses of Go's packages net and net/netip: the parsing of
    addresses and of address prefixes, and masks; bytes are numbers.  On top of
    it [CidrContainsCidr] of cloudcommon.  Within a family of addresses it is
    containment ([CidrContainsCidr_correct]); across families it is not
    (examples). *)

From S2P Require Export Prelude GoStd.
#[local] Open Scope Z_scope.

(** ** net/netip *)

(** Errors carry no text: package net replaces them. *)
Record Addr := mkAddr { addr_bytes : list Z; Zone : string }.
Definition BitLen (a : Addr) : Z := 8 * Z.of_nat (length (addr_bytes a)).

(** No digit of the field has been read where the code asks whether it is at the
    start or after a dot. *)
Fixpoint parseIPv4Fields (s : string) (val digLen : Z) (fields : list Z) : option (list Z) :=
  match s with
  | EmptyString => if decide (length fields < 3)%nat then None else Some (fields ++ [val])
  | String c s' =>
      if is_digit c then
        if decide (digLen = 1 ∧ val = 0) then None
        else
          let val := val * 10 + digit_val c in
          if decide (val > 255) then None else parseIPv4Fields s' val (digLen + 1) fields
      else if decide (c = "."%char) then
        if decide (digLen = 0 ∨ s' = "") then None
        else if decide (length fields = 3%nat) then None
        else parseIPv4Fields s' 0 0 (fields ++ [val])
      else None
  end.
Definition parseIPv4 (s : string) : option Addr :=
  (λ b, mkAddr b "") <$> parseIPv4Fields s 0 0 [].

Definition hex_val (c : ascii) : option Z :=
  let n := byte_val c in
  if decide (48 <= n <= 57) then Some (n - 48)
  else if decide (97 <= n <= 102) then Some (n - 97 + 10)
  else if decide (65 <= n <= 70) then Some (n - 65 + 10)
  else None.
(** The digits read, their value and what follows. *)
Fixpoint hex_group (s : string) (off acc : Z) : option (Z * Z * string) :=
  match s with
  | EmptyString => Some (off, acc, "")
  | String c s' =>
      match hex_val c with
      | None => Some (off, acc, s)
      | Some d =>
          let acc := Z.shiftl acc 4 + d in
          if decide (off > 3) then None
          else if decide (acc > 65535) then None
          else hex_group s' (off + 1) acc
      end
  end.
(** The loop runs while fewer than sixteen bytes are set; a turn sets two. *)
Fixpoint v6_loop (fuel : nat) (ip : list Z) (ellipsis : option nat) (s : string) :
    option (list Z * option nat * string) :=
  match fuel with
  | O => Some (ip, ellipsis, s)
  | S fuel' =>
      match hex_group s 0 0 with
      | None => None
      | Some (off, acc, rest) =>
          if decide (off = 0) then None
          else
            let ip' := ip ++ [Z.shiftr acc 8; Z.land acc 255] in
            match rest with
            | EmptyString => Some (ip', ellipsis, "")
            | String c rest' =>
                if decide (c = "."%char) then
                  if decide (ellipsis = None ∧ length ip ≠ 12%nat) then None
                  else if decide (16 < length ip + 4)%nat then None
                  else (λ f, (ip ++ f, ellipsis, "")) <$> parseIPv4Fields s 0 0 []
                else if decide (c ≠ ":"%char) then None
                else
                  match rest' with
                  | EmptyString => None
                  | String c' rest'' =>
                      if decide (c' = ":"%char) then
                        if decide (is_Some ellipsis) then None
                        else if decide (rest'' = "") then Some (ip', Some (length ip'), "")
                        else v6_loop fuel' ip' (Some (length ip')) rest''
                      else v6_loop fuel' ip' ellipsis rest'
                  end
            end
      end
  end.
Definition v6_finish (r : list Z * option nat * string) : option (list Z) :=
  let '(ip, ellipsis, s) := r in
  if decide (s ≠ "") then None
  else if decide (length ip < 16)%nat then
    match ellipsis with
    | None => None
    | Some e => Some (take e ip ++ replicate (16 - length ip) 0 ++ drop e ip)
    end
  else match ellipsis with Some _ => None | None => Some ip end.
Definition parseIPv6 (in_ : string) : option Addr :=
  let parse s zone :=
    if has_prefix s "::" then
      let s' := str_drop 2 s in
      if decide (s' = "") then Some (mkAddr (replicate 16 0) zone)
      else (λ b, mkAddr b zone) <$> (v6_loop 8 [] (Some 0%nat) s' ≫= v6_finish)
    else (λ b, mkAddr b zone) <$> (v6_loop 8 [] None s ≫= v6_finish) in
  match index_byte "%" in_ with
  | None => parse in_ ""
  | Some i =>
      let zone := str_drop (i + 1) in_ in
      if decide (zone = "") then None else parse (str_take i in_) zone
  end.
Fixpoint scan_addr (in_ s : string) : option Addr :=
  match s with
  | EmptyString => None
  | String c s' =>
      if decide (c = "."%char) then parseIPv4 in_
      else if decide (c = ":"%char) then parseIPv6 in_
      else if decide (c = "%"%char) then None
      else scan_addr in_ s'
  end.
Definition ParseAddr (s : string) : option Addr := scan_addr s s.

(** ** net *)

(** [ParseIP]; the sixteen bytes of an IPv4 address start with the prefix. *)
Definition v4InV6Prefix : list Z := replicate 10 0 ++ [255; 255].
Definition As16 (b : list Z) : list Z := if decide (length b = 4%nat) then v4InV6Prefix ++ b else b.
Definition ParseIP (s : string) : option (list Z) :=
  match ParseAddr s with
  | Some a => if decide (Zone a ≠ "") then None else Some (As16 (addr_bytes a))
  | None => None
  end.

(** [dtoi]: a number and what follows it. *)
Fixpoint dtoi_from (s : string) (n : Z) : option (Z * string) :=
  match s with
  | EmptyString => Some (n, "")
  | String c s' =>
      if is_digit c then
        let n := n * 10 + digit_val c in
        if decide (n >= 16777215) then None else dtoi_from s' n
      else Some (n, s)
  end.
Definition dtoi (s : string) : option (Z * string) :=
  match s with
  | String c _ => if is_digit c then dtoi_from s 0 else None
  | EmptyString => None
  end.

Record IPNet := mkIPNet { IP : list Z; Mask : list Z }.
(** The first [n] bits of a byte, and of [l] bytes. *)
Definition byte_mask (n : Z) : Z := 255 - Z.shiftr 255 n.
Fixpoint CIDRMask (n : Z) (l : nat) : list Z :=
  match l with
  | O => []
  | S l' => if decide (n >= 8) then 255 :: CIDRMask (n - 8) l' else byte_mask n :: CIDRMask 0 l'
  end.
Definition ParseCIDR (s : string) : result (list Z * IPNet) :=
  let err := Err ("invalid CIDR address: " +:+ s) in
  match index_byte "/" s with
  | None => err
  | Some i =>
      match ParseAddr (str_take i s) with
      | None => err
      | Some ip =>
          if decide (Zone ip ≠ "") then err
          else
            match dtoi (str_drop (i + 1) s) with
            | Some (n, EmptyString) =>
                if decide (n > BitLen ip) then err
                else
                  let m := CIDRMask n (length (addr_bytes ip)) in
                  Ok (As16 (addr_bytes ip), mkIPNet (zip_with Z.land (addr_bytes ip) m) m)
            | _ => err
            end
      end
  end.
(** The length of a simple mask, [-1] of another. *)
Fixpoint leading_ones (fuel : nat) (v : Z) : Z * Z :=
  match fuel with
  | O => (0, v)
  | S fuel' =>
      if Z.testbit v 7 then let '(n, v') := leading_ones fuel' (Z.land (Z.shiftl v 1) 255) in (n + 1, v')
      else (0, v)
  end.
Arguments leading_ones : simpl never.
Fixpoint simpleMaskLength (mask : list Z) : Z :=
  match mask with
  | [] => 0
  | v :: mask' =>
      if decide (v = 255) then
        let n := simpleMaskLength mask' in if decide (n = -1) then -1 else n + 8
      else
        let '(n, v') := leading_ones 8 v in
        if decide (v' ≠ 0) then -1
        else if forallb (Z.eqb 0) mask' then n else -1
  end.
Definition Mask_Size (mask : list Z) : Z :=
  let n := simpleMaskLength mask in if decide (n = -1) then 0 else n.

(** ** cloudcommon *)

(** The loop over the bytes of the first network; [None] is an index out of the
    range of the second. *)
Fixpoint same_prefix (ip1 mask1 ip2 mask2 : list Z) : option bool :=
  match ip1, mask1 with
  | a :: ip1', m :: mask1' =>
      match ip2, mask2 with
      | b :: ip2', n :: mask2' =>
          if decide (Z.land a m ≠ Z.land (Z.land b n) m) then Some false
          else same_prefix ip1' mask1' ip2' mask2'
      | _, _ => None
      end
  | [], _ => Some true
  | _ :: _, [] => None
  end.
Definition CidrContainsCidr (n1 n2 : IPNet) : option bool :=
  if decide (Mask_Size (Mask n1) > Mask_Size (Mask n2)) then Some false
  else same_prefix (IP n1) (Mask n1) (IP n2) (Mask n2).

Example cidrs :
  ParseCIDR "10.1.2.3/16" = Ok (v4InV6Prefix ++ [10; 1; 2; 3], mkIPNet [10; 1; 0; 0] [255; 255; 0; 0]) ∧
  ParseCIDR "10.1.2.3/33" = Err "invalid CIDR address: 10.1.2.3/33" ∧
  ParseIP "fe80::1:2" = Some [254; 128; 0; 0; 0; 0; 0; 0; 0; 0; 0; 0; 0; 1; 0; 2] ∧
  ParseIP "::ffff:1.2.3.4" = ParseIP "1.2.3.4" ∧ ParseIP "1.2.3.04" = None ∧ ParseIP "fe80::1%eth0" = None ∧
  ParseIP "1:2:3:4:5:6:7::" = Some [0; 1; 0; 2; 0; 3; 0; 4; 0; 5; 0; 6; 0; 7; 0; 0] ∧
  ParseIP "1:2:3:4:5:6:7:8::" = None ∧ ParseIP "1::2::3" = None ∧ ParseIP "12345::" = None.
Proof. vm_compute. done. Qed.

(** ** What is parsed *)

Definition is_byte (b : Z) : Prop := 0 <= b < 256.
Lemma digit_range c : is_digit c = true → 0 <= digit_val c <= 9.
Proof. unfold is_digit, digit_val. intros [H1%Nat.leb_le H2%Nat.leb_le]%andb_prop. lia. Qed.
Lemma parseIPv4Fields_wf s val digLen fields b :
  Forall is_byte fields → (length fields <= 3)%nat → 0 <= val <= 255 →
  parseIPv4Fields s val digLen fields = Some b → length b = 4%nat ∧ Forall is_byte b.
Proof.
  revert val digLen fields. induction s as [|c s IH]; intros val digLen fields Hf Hl Hv H; simpl in H.
  - case_decide; [done|]. injection H as <-. rewrite length_app, Forall_app, Forall_singleton. unfold is_byte.
    repeat split; [simpl; lia|done|lia|lia].
  - destruct (is_digit c) eqn:Hc.
    + apply digit_range in Hc. case_decide; [done|]. case_decide; [done|]. eapply IH in H; try done. lia.
    + case_decide; [|done]. case_decide; [done|]. case_decide; [done|]. eapply IH in H; [done| | |lia].
      * apply Forall_app. split; [done|]. constructor; [unfold is_byte; lia|done].
      * rewrite length_app. simpl. lia.
Qed.
Lemma hex_group_range s off acc off' acc' rest :
  0 <= acc <= 65535 → hex_group s off acc = Some (off', acc', rest) → 0 <= acc' <= 65535.
Proof.
  revert off acc. induction s as [|c s IH]; intros off acc Ha H; cbn -[Z.shiftl] in H; [by simplify_eq|].
  destruct (hex_val c) as [d|] eqn:Hd; [|by simplify_eq]. case_decide; [done|]. case_decide; [done|].
  apply IH in H; [done|]. assert (0 <= d).
  { unfold hex_val in Hd. repeat case_decide; simplify_eq; lia. }
  pose proof (Z.shiftl_nonneg acc 4). lia.
Qed.
Lemma group_bytes acc : 0 <= acc <= 65535 → Forall is_byte [Z.shiftr acc 8; Z.land acc 255].
Proof.
  intros Ha. rewrite Z.shiftr_div_pow2 by lia. change 255 with (Z.ones 8). rewrite Z.land_ones by lia.
  repeat constructor; unfold is_byte; try (apply Z.mod_pos_bound; lia).
  - apply Z.div_pos; lia.
  - apply Z.div_lt_upper_bound; lia.
Qed.
Definition v6_wf (r : list Z * option nat * string) : Prop :=
  (length r.1.1 <= 16)%nat ∧ Forall is_byte r.1.1 ∧ ∀ e, r.1.2 = Some e → (e <= length r.1.1)%nat.
Lemma v6_loop_wf fuel ip ellipsis s r :
  v6_wf (ip, ellipsis, s) → (length ip + 2 * fuel = 16)%nat → v6_loop fuel ip ellipsis s = Some r → v6_wf r.
Proof.
  revert ip ellipsis s. induction fuel as [|fuel IH]; intros ip ellipsis s (Hl & Hb & He) Hf H; simpl in H; [by simplify_eq|].
  destruct (hex_group s 0 0) as [[[off acc] rest]|] eqn:Hg; [|done].
  apply hex_group_range, group_bytes in Hg; [|lia]. case_decide; [done|].
  set (ip' := ip ++ [Z.shiftr acc 8; Z.land acc 255]) in *. simpl in Hl, Hb, He.
  assert (length ip' = length ip + 2)%nat as Hl' by (unfold ip'; by rewrite length_app).
  assert (v6_wf (ip', ellipsis, "")) as Hw.
  { split; [simpl; lia|]. split; [by apply Forall_app|]. intros e Hq. simpl. specialize (He e Hq). lia. }
  assert (∀ s', v6_wf (ip', Some (length ip'), s')) as Hw'.
  { intros s'. split; [simpl; lia|]. split; [apply Hw|]. simpl. intros e [= <-]. lia. }
  destruct rest as [|c rest]; [by simplify_eq|]. case_decide.
  - case_decide; [done|]. case_decide; [done|]. apply fmap_Some in H as (f & Hp & ->).
    apply parseIPv4Fields_wf in Hp as [Hfl Hfb]; [|done|simpl; lia|lia].
    split; [simpl; rewrite length_app; lia|]. split; [by apply Forall_app|].
    simpl. rewrite length_app. intros e Hq. specialize (He e Hq). lia.
  - case_decide; [done|]. destruct rest as [|c' rest]; [done|]. case_decide.
    + case_decide; [done|]. case_decide; [simplify_eq; apply Hw'|]. eapply IH; [apply Hw'| |done]. lia.
    + eapply (IH ip' ellipsis (String c' rest)); [exact Hw|lia|done].
Qed.
Lemma v6_finish_wf r b : v6_wf r → v6_finish r = Some b → length b = 16%nat ∧ Forall is_byte b.
Proof.
  destruct r as [[ip ellipsis] s]. intros (Hl & Hb & He). simpl in Hl, Hb, He. unfold v6_finish.
  case_decide; [done|]. case_decide; destruct ellipsis as [e|]; try done; intros [= <-]; [|split; [lia|done]].
  specialize (He e eq_refl). rewrite !length_app, length_take, length_replicate, length_drop. split; [lia|].
  rewrite !Forall_app. split; [|split]; [by apply Forall_take|apply Forall_replicate; unfold is_byte; lia|by apply Forall_drop].
Qed.
Definition addr_wf (a : Addr) : Prop :=
  (length (addr_bytes a) = 4 ∨ length (addr_bytes a) = 16)%nat ∧ Forall is_byte (addr_bytes a).
Lemma parseIPv6_wf s a : parseIPv6 s = Some a → addr_wf a.
Proof.
  unfold parseIPv6.
  assert (∀ ell s' zone, (ell = Some 0%nat ∨ ell = None) →
    (λ b, mkAddr b zone) <$> (v6_loop 8 [] ell s' ≫= v6_finish) = Some a → addr_wf a) as Hloop.
  { intros ell s' zone Hell (b & Hb & ->)%fmap_Some. apply bind_Some in Hb as (r & Hr & Hb).
    apply v6_loop_wf in Hr; [|split_and!; simpl; [lia|done|]|done]; [|intros e ->; by destruct Hell; simplify_eq].
    apply v6_finish_wf in Hb as [? ?]; [|done]. split; [by right|done]. }
  assert (∀ s' zone,
    (if has_prefix s' "::" then
       if decide (str_drop 2 s' = "") then Some (mkAddr (replicate 16 0) zone)
       else (λ b, mkAddr b zone) <$> (v6_loop 8 [] (Some 0%nat) (str_drop 2 s') ≫= v6_finish)
     else (λ b, mkAddr b zone) <$> (v6_loop 8 [] None s' ≫= v6_finish)) = Some a → addr_wf a) as Hparse.
  { intros s' zone. destruct (has_prefix s' "::"); [|apply Hloop; by right]. case_decide; [|apply Hloop; by left].
    intros [= <-]. split; [by right|]. apply (Forall_replicate is_byte 16). unfold is_byte. lia. }
  destruct (index_byte "%" s) as [i|]; [case_decide; [done|]|]; apply Hparse.
Qed.
Lemma ParseAddr_wf s a : ParseAddr s = Some a → addr_wf a.
Proof.
  unfold ParseAddr. generalize s at 2 as s'. induction s' as [|c s' IH]; simpl; [done|].
  case_decide; [|case_decide; [apply parseIPv6_wf|by case_decide]].
  unfold parseIPv4. intros (b & Hb & ->)%fmap_Some. apply parseIPv4Fields_wf in Hb as [? ?]; [|done|simpl; lia|lia].
  split; [by left|done].
Qed.

(** ** Masks *)

Lemma CIDRMask_length n l : length (CIDRMask n l) = l.
Proof. revert n. induction l as [|l IH]; intros n; simpl; [done|]. case_decide; simpl; by rewrite IH. Qed.
(** Facts about the masks of a byte, by enumeration. *)
Lemma byte_range b (P : Z → bool) : forallb P (seqZ 0 256) = true → is_byte b → P b = true.
Proof. rewrite forallb_forall. intros H Hb. apply H, list_elem_of_In, elem_of_seqZ. unfold is_byte in Hb. lia. Qed.
Lemma bit_range k (P : Z → bool) : forallb P (seqZ 0 9) = true → 0 <= k <= 8 → P k = true.
Proof. rewrite forallb_forall. intros H Hb. apply H, list_elem_of_In, elem_of_seqZ. lia. Qed.
Lemma byte_mask_sub a b : 0 <= a <= b → b <= 8 → Z.land (byte_mask b) (byte_mask a) = byte_mask a.
Proof.
  intros Ha Hb. apply Z.eqb_eq.
  pose proof (bit_range b (λ b, forallb (λ a, implb (a <=? b) (Z.land (byte_mask b) (byte_mask a) =? byte_mask a)) (seqZ 0 9))
    ltac:(vm_compute; reflexivity) ltac:(lia)) as H. cbv beta in H.
  pose proof (bit_range a _ H ltac:(lia)) as H'. cbv beta in H'.
  destruct Ha as [_ Ha%Z.leb_le]. by rewrite Ha in H'.
Qed.
Lemma byte_mask_flip a b x :
  0 <= a < b → b <= 8 → is_byte x →
  is_byte (Z.lxor x (2 ^ (7 - a))) ∧ Z.land (Z.lxor x (2 ^ (7 - a))) (byte_mask a) = Z.land x (byte_mask a) ∧
  Z.land (Z.lxor x (2 ^ (7 - a))) (byte_mask b) ≠ Z.land x (byte_mask b).
Proof.
  intros Ha Hb Hx.
  set (P := λ x a b, let y := Z.lxor x (2 ^ (7 - a)) in implb (a <? b) ((0 <=? y) && (y <? 256) &&
    (Z.land y (byte_mask a) =? Z.land x (byte_mask a)) && negb (Z.land y (byte_mask b) =? Z.land x (byte_mask b)))).
  assert (P x a b = true) as HP.
  { pose proof (byte_range x (λ x, forallb (λ a, forallb (P x a) (seqZ 0 9)) (seqZ 0 9))
      ltac:(vm_compute; reflexivity) Hx) as H. cbv beta in H.
    pose proof (bit_range a _ H ltac:(lia)) as H'. cbv beta in H'. by apply (bit_range b _ H'); lia. }
  unfold P in HP. destruct Ha as [_ Ha%Z.ltb_lt]. rewrite Ha in HP. simpl in HP.
  apply andb_prop in HP as [HP H4]. apply andb_prop in HP as [HP H3]. apply andb_prop in HP as [H1 H2].
  apply Z.leb_le in H1. apply Z.ltb_lt in H2. apply Z.eqb_eq in H3. apply negb_true_iff, Z.eqb_neq in H4. done.
Qed.
(** The mask of the first byte. *)
Lemma CIDRMask_cons n l :
  0 <= n → CIDRMask n (S l) = byte_mask (Z.min n 8) :: CIDRMask (Z.max (n - 8) 0) l.
Proof.
  intros Hn. simpl. case_decide.
  - rewrite Z.min_r, Z.max_l by lia. done.
  - rewrite Z.min_l, Z.max_r by lia. done.
Qed.
Lemma Mask_Size_CIDRMask n l : 0 <= n <= 8 * Z.of_nat l → Mask_Size (CIDRMask n l) = n.
Proof.
  intros Hn. enough (simpleMaskLength (CIDRMask n l) = n) as Hs; [unfold Mask_Size; rewrite Hs; case_decide; lia|].
  assert (∀ m, forallb (Z.eqb 0) (CIDRMask 0 m) = true) as Hz by (induction m; simpl; [done|by rewrite IHm]).
  revert n Hn. induction l as [|l IH]; intros n Hn; simpl; [lia|]. case_decide; simpl.
  - rewrite IH by lia. case_decide; lia.
  - pose proof (bit_range n (λ n, implb (n <? 8) (negb (byte_mask n =? 255) &&
      ((leading_ones 8 (byte_mask n)).1 =? n) && ((leading_ones 8 (byte_mask n)).2 =? 0)))
      ltac:(vm_compute; reflexivity) ltac:(lia)) as H0. simpl in H0.
    assert (n <? 8 = true) as Hlt by (apply Z.ltb_lt; lia). rewrite Hlt in H0. simpl in H0.
    apply andb_prop in H0 as [H0 H2%Z.eqb_eq]. apply andb_prop in H0 as [H0%negb_true_iff%Z.eqb_neq H1%Z.eqb_eq].
    case_decide; [done|]. destruct (leading_ones 8 (byte_mask n)) as [k v]. simpl in H1, H2. subst.
    case_decide; [done|]. by rewrite Hz.
Qed.
Abbreviation masked := (zip_with Z.land).
Lemma masked_sub k1 k2 l ip :
  0 <= k1 <= k2 → length ip = l → masked (masked ip (CIDRMask k2 l)) (CIDRMask k1 l) = masked ip (CIDRMask k1 l).
Proof.
  revert k1 k2 ip. induction l as [|l IH]; intros k1 k2 [|b ip] Hk Hl; try done.
  rewrite !CIDRMask_cons by lia. simpl. f_equal; [|apply IH; [lia|by injection Hl]].
  by rewrite <-Z.land_assoc, byte_mask_sub by lia.
Qed.
(** A network has members that a longer mask tells apart. *)
Lemma masked_flip k1 k2 l ip :
  0 <= k2 < k1 → k1 <= 8 * Z.of_nat l → length ip = l → Forall is_byte ip →
  ∃ ip', length ip' = l ∧ Forall is_byte ip' ∧ masked ip' (CIDRMask k2 l) = masked ip (CIDRMask k2 l) ∧
    masked ip' (CIDRMask k1 l) ≠ masked ip (CIDRMask k1 l).
Proof.
  revert k1 k2 ip. induction l as [|l IH]; intros k1 k2 [|b ip] Hk Hk1 Hl Hip; try (simpl in *; lia).
  apply Forall_cons in Hip as [Hb Hip]. injection Hl as Hl. rewrite !CIDRMask_cons by lia. destruct (decide (k2 < 8)) as [H2|H2].
  - exists (Z.lxor b (2 ^ (7 - k2)) :: ip). destruct (byte_mask_flip k2 (Z.min k1 8) b) as (Hx & H3 & H4); [lia|lia|done|].
    split; [simpl; lia|]. split; [by constructor|]. rewrite (Z.min_l k2) by lia. simpl. split; [by rewrite H3|congruence].
  - destruct (IH (k1 - 8) (k2 - 8) ip) as (ip' & Hl' & Hb' & Heq & Hne); [lia|lia|done|done|].
    exists (b :: ip'). rewrite !Z.min_r, !Z.max_l by lia. split; [simpl; lia|]. split; [by constructor|].
    simpl. split; [by rewrite Heq|congruence].
Qed.

(** ** Networks *)

Record net_wf (n : IPNet) : Prop := {
  nw_mask : ∃ k, 0 <= k <= 8 * Z.of_nat (length (IP n)) ∧ Mask n = CIDRMask k (length (IP n));
  nw_bytes : Forall is_byte (IP n);
}.
Lemma dtoi_nonneg s n rest : dtoi s = Some (n, rest) → 0 <= n.
Proof.
  unfold dtoi. destruct s as [|c s]; [done|]. destruct (is_digit c); [|done]. assert (0 <= 0) as H by done.
  revert H. generalize 0 at 2 3 as m. generalize (String c s). clear. induction s as [|c s IH]; intros m Hm; simpl; [by intros [= <- <-]|].
  destruct (is_digit c) eqn:Hc; [|by intros [= <- <-]]. apply digit_range in Hc. case_decide; [done|].
  apply IH. lia.
Qed.
Lemma land_byte a b : is_byte a → is_byte (Z.land a b).
Proof.
  unfold is_byte. intros Ha. rewrite <-(Z.mod_small a 256) by lia. change 256 with (2 ^ 8). rewrite <-Z.land_ones by lia.
  rewrite <-Z.land_assoc, (Z.land_comm _ b), Z.land_assoc, Z.land_ones by lia. apply Z.mod_pos_bound. lia.
Qed.
Lemma ParseCIDR_wf s ip n :
  ParseCIDR s = Ok (ip, n) → net_wf n ∧ (length (IP n) = 4 ∨ length (IP n) = 16)%nat.
Proof.
  unfold ParseCIDR. destruct (index_byte _ s) as [i|]; [|done]. destruct (ParseAddr _) as [a|] eqn:Ha; [|done].
  apply ParseAddr_wf in Ha as [Hl Hb]. case_decide; [done|].
  destruct (dtoi _) as [[k [|]]|] eqn:Hd; try done. apply dtoi_nonneg in Hd. case_decide as Hk; [done|].
  intros [= _ <-]. unfold BitLen in Hk.
  assert (length (masked (addr_bytes a) (CIDRMask k (length (addr_bytes a)))) = length (addr_bytes a)) as Hlen.
  { rewrite length_zip_with, CIDRMask_length. apply Nat.min_id. }
  split; [|simpl; by rewrite Hlen]. split; simpl; rewrite ?Hlen.
  - exists k. split; [lia|done].
  - clear -Hb. generalize (CIDRMask k (length (addr_bytes a))). induction Hb; intros [|m ms]; simpl; constructor; [by apply land_byte|done].
Qed.
(** [net.IPNet.Contains], of an address with as many bytes. *)
Definition in_net (n : IPNet) (ip : list Z) : Prop :=
  length ip = length (IP n) ∧ Forall is_byte ip ∧ masked ip (Mask n) = masked (IP n) (Mask n).
Lemma in_net_self n : net_wf n → in_net n (IP n).
Proof. intros [_ Hb]. done. Qed.
Lemma same_prefix_spec ip1 m1 ip2 m2 :
  length m1 = length ip1 → length ip2 = length ip1 → length m2 = length ip1 →
  same_prefix ip1 m1 ip2 m2 = Some (bool_decide (masked (masked ip2 m2) m1 = masked ip1 m1)).
Proof.
  revert m1 ip2 m2. induction ip1 as [|a ip1 IH]; intros [|m m1] [|b ip2] [|n m2] H1 H2 H3; try done; simpl in *.
  case_decide as Hd.
  - rewrite bool_decide_eq_false_2; [done|]. intros [= Heq _]. done.
  - rewrite IH by lia. f_equal. apply bool_decide_ext. rewrite Hd. split; [by intros ->|by intros [=]].
Qed.
Lemma CidrContainsCidr_spec n1 n2 :
  net_wf n1 → net_wf n2 → length (IP n1) = length (IP n2) →
  ∃ b, CidrContainsCidr n1 n2 = Some b ∧ (b = true ↔ ∀ ip, in_net n2 ip → in_net n1 ip).
Proof.
  intros Hw1 Hw2 Hl. pose proof (in_net_self n2 Hw2) as Hself.
  destruct Hw1 as [(k1 & Hk1 & Hm1) Hb1], Hw2 as [(k2 & Hk2 & Hm2) Hb2]. unfold CidrContainsCidr.
  assert (Mask_Size (Mask n1) = k1 ∧ Mask_Size (Mask n2) = k2) as [-> ->].
  { rewrite Hm1, Hm2, !Mask_Size_CIDRMask by lia. done. }
  case_decide as Hsz.
  - exists false. split; [done|]. split; [done|]. intros Hall. exfalso.
    destruct (masked_flip k1 k2 (length (IP n2)) (IP n2)) as (ip & Hlen & Hb & Heq & Hne); [lia|lia|done|done|].
    apply Hne. rewrite <-Hl, <-Hm1. trans (masked (IP n1) (Mask n1)); [apply Hall|symmetry; apply Hall, Hself].
    split; [done|]. split; [done|]. by rewrite Hm2.
  - eexists. split; [apply same_prefix_spec|]; [by rewrite Hm1, CIDRMask_length|done|by rewrite Hm2, CIDRMask_length|].
    assert (∀ ip, length ip = length (IP n2) → masked (masked ip (Mask n2)) (Mask n1) = masked ip (Mask n1)) as Hsub.
    { intros ip Hip. rewrite Hm1, Hm2, Hl. apply masked_sub; [lia|done]. }
    rewrite bool_decide_eq_true, Hsub by done. split.
    + intros Heq ip (Hlen & Hb & Hin). split; [congruence|]. split; [done|]. by rewrite <-(Hsub ip), Hin, Hsub.
    + intros Hall. apply Hall, Hself.
Qed.

(** Of two networks of one family [CidrContainsCidr] answers whether the first
    contains every address of the second; it always answers. *)
Theorem CidrContainsCidr_correct (s1 s2 : string) (ip1 ip2 : list Z) (n1 n2 : IPNet)
    (H1 : ParseCIDR s1 = Ok (ip1, n1)) (H2 : ParseCIDR s2 = Ok (ip2, n2)) (Hfamily : length (IP n1) = length (IP n2)) :
  ∃ b, CidrContainsCidr n1 n2 = Some b ∧ (b = true ↔ ∀ ip, in_net n2 ip → in_net n1 ip).
Proof. apply ParseCIDR_wf in H1 as [Hw1 _], H2 as [Hw2 _]. by apply CidrContainsCidr_spec. Qed.

Definition contains_strings (s1 s2 : string) : result (option bool) :=
  n1 ← ParseCIDR s1; n2 ← ParseCIDR s2; Ok (CidrContainsCidr n1.2 n2.2).
Lemma CidrContainsCidr_correct_witness :
  contains_strings "10.0.0.0/8" "10.1.0.0/16" = Ok (Some true) ∧ contains_strings "10.0.0.0/8" "11.0.0.0/16" = Ok (Some false) ∧
  contains_strings "10.1.0.0/16" "10.0.0.0/8" = Ok (Some false) ∧
  ∃ b, CidrContainsCidr (mkIPNet [10; 0; 0; 0] [255; 0; 0; 0]) (mkIPNet [10; 1; 0; 0] [255; 255; 0; 0]) = Some b ∧
    (b = true ↔ ∀ ip, in_net (mkIPNet [10; 1; 0; 0] [255; 255; 0; 0]) ip → in_net (mkIPNet [10; 0; 0; 0] [255; 0; 0; 0]) ip).
Proof.
  do 3 (split; [vm_compute; reflexivity|]).
  refine (CidrContainsCidr_correct "10.0.0.0/8" "10.1.0.0/16" (v4InV6Prefix ++ [10; 0; 0; 0])
    (v4InV6Prefix ++ [10; 1; 0; 0]) _ _ _ _ _); vm_compute; reflexivity.
Defined.
(** Across families the answer is made of the first four bytes, or there is none:
    the index into the shorter address panics. *)
Example families_mixed :
  contains_strings "0.0.0.0/0" "::/0" = Ok (Some true) ∧ contains_strings "32.0.0.0/8" "2001:db8::/32" = Ok (Some true) ∧
  contains_strings "::/0" "0.0.0.0/0" = Ok None ∧ contains_strings "::/0" "10.0.0.0/8" = Ok None.
Proof. vm_compute. done. Qed.
