(* ===== verification/Enums.v ===== *)
(** * Enumerations (api/edgeproto/common.pb.go, distributed_match_engine/appcommon.pb.go)

    The states that several components share.  A protobuf enumeration is an
    [int32]; values without a name are not modelled. *)

From S2P Require Import Prelude.
From stdpp Require Import countable.

Inductive TrackedState :=
| TRACKED_STATE_UNKNOWN | NOT_PRESENT | CREATE_REQUESTED | CREATING | CREATE_ERROR | READY
| UPDATE_REQUESTED | UPDATING | UPDATE_ERROR | DELETE_REQUESTED | DELETING | DELETE_ERROR
| DELETE_PREPARE | CRM_INITOK | CREATING_DEPENDENCIES | DELETE_DONE.
#[global] Instance TrackedState_eq_dec : EqDecision TrackedState.
Proof. solve_decision. Defined.
Inductive Liveness := LIVENESS_UNKNOWN | LIVENESS_STATIC | LIVENESS_DYNAMIC | LIVENESS_AUTOPROV.
#[global] Instance Liveness_eq_dec : EqDecision Liveness.
Proof. solve_decision. Defined.

Inductive MaintenanceState :=
| NORMAL_OPERATION | MAINTENANCE_START | FAILOVER_REQUESTED | FAILOVER_DONE | FAILOVER_ERROR
| MAINTENANCE_START_NO_FAILOVER | CRM_REQUESTED | CRM_UNDER_MAINTENANCE | CRM_ERROR
| NORMAL_OPERATION_INIT | UNDER_MAINTENANCE.
#[global] Instance MaintenanceState_eq_dec : EqDecision MaintenanceState.
Proof. solve_decision. Defined.
Inductive CloudletState :=
| CLOUDLET_STATE_UNKNOWN | CLOUDLET_STATE_ERRORS | CLOUDLET_STATE_READY | CLOUDLET_STATE_OFFLINE
| CLOUDLET_STATE_NOT_PRESENT | CLOUDLET_STATE_INIT | CLOUDLET_STATE_UPGRADE | CLOUDLET_STATE_NEED_SYNC.
#[global] Instance CloudletState_eq_dec : EqDecision CloudletState.
Proof. solve_decision. Defined.
Inductive IpAccess := IP_ACCESS_UNKNOWN | IP_ACCESS_DEDICATED | IP_ACCESS_SHARED.
#[global] Instance IpAccess_eq_dec : EqDecision IpAccess.
Proof. solve_decision. Defined.
Inductive HealthCheck :=
| HEALTH_CHECK_UNKNOWN | HEALTH_CHECK_ROOTLB_OFFLINE | HEALTH_CHECK_SERVER_FAIL | HEALTH_CHECK_OK
| HEALTH_CHECK_CLOUDLET_OFFLINE.
#[global] Instance HealthCheck_eq_dec : EqDecision HealthCheck.
Proof. solve_decision. Defined.

(** *** Encodings *)

(** An enumeration is encoded by the position of a value among all of them;
    [N] keeps the decoding of large numbers cheap. *)
Definition position {A} `{EqDecision A} (l : list A) (a : A) : N :=
  N.of_nat (default 0%nat (fst <$> list_find (a =.) l)).
Definition at_position {A} `{EqDecision A} (l : list A) (n : N) : option A :=
  snd <$> list_find (λ a, position l a = n) l.
Definition all_TrackedStates : list TrackedState :=
  [TRACKED_STATE_UNKNOWN; NOT_PRESENT; CREATE_REQUESTED; CREATING; CREATE_ERROR; READY;
   UPDATE_REQUESTED; UPDATING; UPDATE_ERROR; DELETE_REQUESTED; DELETING; DELETE_ERROR;
   DELETE_PREPARE; CRM_INITOK; CREATING_DEPENDENCIES; DELETE_DONE].
Definition all_Livenesses : list Liveness :=
  [LIVENESS_UNKNOWN; LIVENESS_STATIC; LIVENESS_DYNAMIC; LIVENESS_AUTOPROV].
Definition all_MaintenanceStates : list MaintenanceState :=
  [NORMAL_OPERATION; MAINTENANCE_START; FAILOVER_REQUESTED; FAILOVER_DONE; FAILOVER_ERROR;
   MAINTENANCE_START_NO_FAILOVER; CRM_REQUESTED; CRM_UNDER_MAINTENANCE; CRM_ERROR;
   NORMAL_OPERATION_INIT; UNDER_MAINTENANCE].
Definition all_CloudletStates : list CloudletState :=
  [CLOUDLET_STATE_UNKNOWN; CLOUDLET_STATE_ERRORS; CLOUDLET_STATE_READY; CLOUDLET_STATE_OFFLINE;
   CLOUDLET_STATE_NOT_PRESENT; CLOUDLET_STATE_INIT; CLOUDLET_STATE_UPGRADE; CLOUDLET_STATE_NEED_SYNC].
Definition all_IpAccesses : list IpAccess := [IP_ACCESS_UNKNOWN; IP_ACCESS_DEDICATED; IP_ACCESS_SHARED].
Definition all_HealthChecks : list HealthCheck :=
  [HEALTH_CHECK_UNKNOWN; HEALTH_CHECK_ROOTLB_OFFLINE; HEALTH_CHECK_SERVER_FAIL; HEALTH_CHECK_OK;
   HEALTH_CHECK_CLOUDLET_OFFLINE].
Ltac enum_countable l :=
  refine (inj_countable (position l) (at_position l) _); intros []; reflexivity.
#[global] Instance TrackedState_countable : Countable TrackedState.
Proof. enum_countable all_TrackedStates. Defined.
#[global] Instance Liveness_countable : Countable Liveness.
Proof. enum_countable all_Livenesses. Defined.
#[global] Instance MaintenanceState_countable : Countable MaintenanceState.
Proof. enum_countable all_MaintenanceStates. Defined.
#[global] Instance CloudletState_countable : Countable CloudletState.
Proof. enum_countable all_CloudletStates. Defined.
#[global] Instance IpAccess_countable : Countable IpAccess.
Proof. enum_countable all_IpAccesses. Defined.
#[global] Instance HealthCheck_countable : Countable HealthCheck.
Proof. enum_countable all_HealthChecks. Defined.
