(* ===== verification/Names.v ===== *)
(** * Names (pkg/util/validate.go, ldapname.go)

    The character checks on names and the functions that turn a name into one
    that DNS, Kubernetes, Docker or Heat accept.  A regular expression of the
    code that is a sequence of character classes is a check of the characters;
    the classes are ASCII, so bytes can be checked instead of runes. *)

From S2P Require Export Prelude GoStd.
#[local] Open Scope Z_scope.

(** ** Characters *)

Definition in_class (lo hi : ascii) (c : ascii) : bool :=
  bool_decide (byte_val lo ≤ byte_val c ≤ byte_val hi).
Definition isASCIILower (c : ascii) : bool := in_class "a" "z" c.
Definition isASCIIUpper (c : ascii) : bool := in_class "A" "Z" c.
Definition isASCIIDigit (c : ascii) : bool := in_class "0" "9" c.
Definition lowerCaseOffset : Z := 32.
Definition alnum (c : ascii) : bool := isASCIILower c || isASCIIUpper c || isASCIIDigit c.
Definition one_of (l : string) (c : ascii) : bool :=
  bool_decide (c ∈ String.list_ascii_of_string l).

(** [^first rest*$]. *)
Definition match_chars (first rest : ascii → bool) (s : string) : bool :=
  match s with EmptyString => false | String c s' => first c && str_all rest s' end.

(** ** Checks *)

Definition name_char (c : ascii) : bool := alnum c || one_of "-_ .&,!" c.
Definition k8s_char (c : ascii) : bool := alnum c || one_of "-." c.
Definition ValidName (name : string) : bool := match_chars alnum name_char name.
Definition ValidKubernetesName (name : string) : bool := match_chars alnum k8s_char name.
(** The second class of the expression has a [+]. *)
Definition ValidDockerName (name : string) : bool :=
  match_chars alnum (λ c, alnum c || one_of "_.-" c) name && (2 <=? String.length name)%nat.
Definition word_char (c : ascii) : bool := alnum c || one_of "_" c.
Definition ValidRegion (name : string) : bool := match_chars word_char word_char name.
Definition ValidCliArg (arg : string) : bool :=
  match_chars (λ c, isASCIILower c || isASCIIDigit c)
    (λ c, isASCIILower c || isASCIIDigit c || one_of ".#:" c) arg.
Definition ValidIp (ip : list ascii) : bool :=
  bool_decide (length ip = 4%nat) || bool_decide (length ip = 16%nat).

Section ValidateNames.
Context {GR : GoRange}.
Definition ValidateNames (names : option (gmap string string)) : option error :=
  match names with
  | None => None
  | Some m =>
      (λ kv, "invalid " +:+ kv.1) <$>
        head (filter (λ kv, kv.2 ≠ "" ∧ ValidName kv.2 = false) (go_range m))
  end.
End ValidateNames.

Definition ldapNameMatch (name : string) : bool := match_chars name_char name_char name.
Definition first_char (s : string) : option ascii := head (String.list_ascii_of_string s).
Definition last_char (s : string) : option ascii := last (String.list_ascii_of_string s).
Definition ValidLDAPName (name : string) : option error :=
  if decide (name = "") then Some "name cannot be empty"
  else if decide (first_char name = Some " "%char ∨ last_char name = Some " "%char) then
    Some "name cannot have leading or trailing spaces"
  else if ldapNameMatch name then None
  else Some "name does not match LDAP required format".
Definition ValidObjName (name : string) : option error :=
  if str_all (λ c, alnum c || one_of "_-." c) name then ValidLDAPName name
  else Some "name can only contain letters, digits, _ . -".
Definition ValidStoragePath (path : string) : option error :=
  if negb (ValidName path) then Some ("Invalid path " +:+ path)
  else if decide (path = "." ∨ path = "..") then
    Some ("Invalid path " +:+ path +:+ ", cannot be name . or ...")
  else if contains path "/" then Some ("Invalid path " +:+ path +:+ ", cannot be have /")
  else None.
Definition ValidateImageVersion (imgVersion : string) : option error :=
  if match_chars alnum (λ c, alnum c || one_of "-._" c) imgVersion then None
  else Some "ImageVersion can only contain letters, digits, -, ., _".
Definition ValidK8SContainerName (name : string) : option error :=
  match split "/" name with
  | [_] =>
      if ValidKubernetesName name then None else Some "Invalid kubernetes container name"
  | [a; b] =>
      if negb (ValidKubernetesName a) then Some "Invalid kubernetes pod name"
      else if negb (ValidKubernetesName b) then Some "Invalid kubernetes container name"
      else None
  | [a; b; c] =>
      if negb (ValidKubernetesName a) then Some "Invalid kubernetes namespace name"
      else if negb (ValidKubernetesName b) then Some "Invalid kubernetes pod name"
      else if negb (ValidKubernetesName c) then Some "Invalid kubernetes container name"
      else None
  | _ =>
      Some "Invalid kubernetes container name, should be of format '<namespace>/<PodName>/<ContainerName>'"
  end.

(** ** Sanitizers *)

Definition without (l : string) (c : ascii) : option string :=
  if one_of l c then Some "" else None.
Definition DockerSanitize (name : string) : string :=
  replace_chars (λ c,
    if decide (c = "&"%char) then Some "-"
    else if decide (c = "!"%char) then Some "." else without " ," c) name.

(** The loop over the runes writes the kept ones into a buffer as long as the
    string, at the byte index less the number of runes skipped. *)
Definition rune_byte (ch : Z) : ascii := byte_chr (ch mod 256).
Definition dns_step (last : Z) (st : list Z * nat) (r : nat * Z) : list Z * nat :=
  let '(buf, skipped) := st in
  let '(ii, ch) := r in
  let b := rune_byte ch in
  if isASCIILower b || isASCIIDigit b then (<[(ii - skipped)%nat := ch]> buf, skipped)
  else if isASCIIUpper b then (<[(ii - skipped)%nat := ch + lowerCaseOffset]> buf, skipped)
  else if decide (ch = 45 ∨ ch = 95) then
    if decide (ii = 0%nat ∨ Z.of_nat ii = last) then (buf, S skipped)
    else (<[(ii - skipped)%nat := 45]> buf, skipped)
  else (buf, S skipped).
Definition DNSSanitize (name : string) : string :=
  let len := String.length name in
  let last := Z.of_nat len - 1 in
  let '(buf, skipped) := fold_left (dns_step last) (runes name) (replicate len 0, 0%nat) in
  string_of_runes (take (len - skipped) buf).

(** [%q] of a rune. *)
Definition quote_rune (ch : Z) : string := "'" +:+ encode_rune ch +:+ "'".
Fixpoint dns_check (name : string) (last : Z) (rs : list (nat * Z)) : option error :=
  match rs with
  | [] => None
  | (ii, ch) :: rs' =>
      let b := rune_byte ch in
      if isASCIILower b || isASCIIDigit b then dns_check name last rs'
      else if isASCIIUpper b then
        Some ("invalid RFC1123 name " +:+ quote name +:+ ", does not allow upper case characters")
      else if decide (ch = 45) then
        if decide (ii = 0%nat ∨ Z.of_nat ii = last) then
          Some ("invalid RFC1123 name " +:+ quote name +:+ ", cannot start or end with '-'")
        else dns_check name last rs'
      else Some ("invalid RFC1123 name " +:+ quote name +:+ ", does not allow " +:+ quote_rune ch)
  end.
Definition ValidDNSName (name : string) : option error :=
  if decide (63 < String.length name)%nat then
    Some ("invalid RFC1123 name " +:+ quote name +:+ ", cannot be longer than 63 characters")
  else dns_check name (Z.of_nat (String.length name) - 1) (runes name).

Definition maxHostnameLength : nat := 63.
Definition maxK8sNamespaceLength : nat := 63.
Definition HostnameSanitize (name : string) : string :=
  trim_right (λ c, bool_decide (c = "-"%char)) (str_take maxHostnameLength (DNSSanitize name)).
Definition NamespaceSanitize (name : string) : string :=
  trim_right (λ c, bool_decide (c = "-"%char)) (str_take maxK8sNamespaceLength (DNSSanitize name)).
Definition K8SSanitize (name : string) : string :=
  to_lower (replace_chars (λ c, if decide (c = "_"%char) then Some "-" else without " &,!" c) name).

(** [unicode.IsLetter] of a byte: the ASCII letters and those of Latin-1. *)
Definition IsLetter (c : ascii) : bool :=
  let b := byte_val c in
  isASCIILower c || isASCIIUpper c ||
  bool_decide (b = 170 ∨ b = 181 ∨ b = 186 ∨ 192 ≤ b ≤ 214 ∨ 216 ≤ b ≤ 246 ∨ 248 ≤ b).
Definition prefix_alpha (str : string) : string :=
  match str with
  | EmptyString => str
  | String c _ => if IsLetter c then str else "a" +:+ str
  end.
Definition K8SServiceSanitize (name : string) : string := prefix_alpha (DNSSanitize name).
Definition HeatSanitize (name : string) : string :=
  let str := prefix_alpha (replace_chars (without " &,!") name) in
  if decide (255 < String.length str)%nat then str_take 254 str else str.

Fixpoint label_loop (s : string) (label : string) : string :=
  match label with
  | EmptyString => s
  | String c label' =>
      if decide (String.length s = 63%nat) then s
      else if bool_decide (String.length s = 0%nat ∨ String.length s = 62%nat) && negb (alnum c)
      then label_loop s label'
      else if alnum c || one_of "-_." c then label_loop (s +:+ String c "") label'
      else label_loop s label'
  end.
Definition K8SLabelValueSanitize (label : string) : string :=
  trim_right (one_of "._-") (label_loop "" label).

(** ** Specifications *)

Definition is_ascii (s : string) : Prop := str_all (λ c, bool_decide (byte_val c < 128)) s = true.
Definition hyphen (c : ascii) : bool := bool_decide (c = "-"%char).
(** The characters of an RFC 1123 label. *)
Definition dns_char (c : ascii) : bool := isASCIILower c || isASCIIDigit c || hyphen c.

(** What becomes of a character; [edge]: it is the first or the last. *)
Definition dns_keep (edge : bool) (c : ascii) : option ascii :=
  if isASCIILower c || isASCIIDigit c then Some c
  else if isASCIIUpper c then Some (lower_ascii c)
  else if one_of "-_" c then if edge then None else Some "-"%char
  else None.
Definition at_edge (n i : nat) : bool := bool_decide (i = 0%nat ∨ S i = n).
Definition dns_kept (n k : nat) (l : list ascii) : list ascii :=
  omap (λ ic, dns_keep (at_edge n ic.1) ic.2) (imap (λ i c, ((k + i)%nat, c)) l).
Definition dns_filter (name : string) : string :=
  let l := String.list_ascii_of_string name in
  String.string_of_list_ascii (dns_kept (length l) 0 l).

(** ** Lemmas *)

Lemma all_ascii (P : ascii → Prop) :
  (∀ b0 b1 b2 b3 b4 b5 b6 b7, P (Ascii.Ascii b0 b1 b2 b3 b4 b5 b6 b7)) → ∀ c, P c.
Proof. intros HP [b0 b1 b2 b3 b4 b5 b6 b7]. apply HP. Qed.
(** A statement about one character is decided by trying all. *)
Ltac by_chars := refine (all_ascii _ _); intros [] [] [] [] [] [] [] []; vm_compute; done.

Lemma byte_val_range c : 0 ≤ byte_val c < 256.
Proof. unfold byte_val. pose proof (Ascii.nat_ascii_bounded c). lia. Qed.
Lemma byte_chr_val c : byte_chr (byte_val c) = c.
Proof. unfold byte_chr, byte_val. rewrite Nat2Z.id. apply Ascii.ascii_nat_embedding. Qed.
Lemma rune_byte_val c : rune_byte (byte_val c) = c.
Proof.
  unfold rune_byte. rewrite Z.mod_small by apply byte_val_range. apply byte_chr_val.
Qed.
Lemma encode_byte c : byte_val c < 128 → encode_rune (byte_val c) = String c "".
Proof.
  intros Hc. pose proof (byte_val_range c). unfold encode_rune.
  rewrite (decide_True (P := _ ∨ _)) by (left; lia). rewrite decide_True by done.
  by rewrite byte_chr_val.
Qed.

Lemma runes_ascii s : is_ascii s →
  runes s = imap (λ i c, (i, byte_val c)) (String.list_ascii_of_string s).
Proof.
  unfold runes, is_ascii. intros Hs.
  assert (∀ ii, runes_from (String.length s) ii s
    = imap (λ i c, ((ii + i)%nat, byte_val c)) (String.list_ascii_of_string s)) as ->; [|done].
  induction s as [|c s IH]; intros ii; [done|].
  simpl in Hs. apply andb_true_iff in Hs as [Hc Hs]. apply bool_decide_eq_true in Hc.
  cbn [runes_from String.length DecodeRune]. rewrite decide_True by done.
  cbn [String.list_ascii_of_string imap str_drop]. rewrite Nat.add_0_r. f_equal.
  rewrite IH by done. apply imap_ext. intros i x _. simpl. f_equal. lia.
Qed.

Lemma hyphens c : (byte_val c = 45 ∨ byte_val c = 95) ↔ one_of "-_" c = true.
Proof.
  rewrite <- (bool_decide_eq_true (byte_val c = 45 ∨ byte_val c = 95)).
  assert (bool_decide (byte_val c = 45 ∨ byte_val c = 95) = one_of "-_" c) as ->; [|done].
  revert c. by_chars.
Qed.
Lemma lower_val c : isASCIIUpper c = true → byte_val (lower_ascii c) = byte_val c + lowerCaseOffset.
Proof. revert c. by_chars. Qed.

Lemma insert_here {A} (out : list A) x y (l : list A) k :
  k = length out → <[k := y]> (out ++ x :: l) = out ++ y :: l.
Proof. intros ->. by rewrite insert_app_r_alt, Nat.sub_diag by lia. Qed.

Lemma dns_step_keep n k out sk m c :
  (k < n)%nat → k = (length out + sk)%nat →
  dns_step (Z.of_nat n - 1) (out ++ replicate (S m) 0, sk) (k, byte_val c) =
  match dns_keep (at_edge n k) c with
  | Some a => (out ++ byte_val a :: replicate m 0, sk)
  | None => (out ++ replicate (S m) 0, S sk)
  end.
Proof.
  intros Hn Hk. unfold dns_step, dns_keep. rewrite rune_byte_val. cbn [replicate].
  destruct (isASCIILower c || isASCIIDigit c); [by rewrite insert_here by lia|].
  destruct (isASCIIUpper c) eqn:Hu; [by rewrite insert_here, lower_val by (done || lia)|].
  destruct (one_of "-_" c) eqn:Ho.
  - rewrite decide_True by by apply hyphens. unfold at_edge.
    destruct (decide (k = 0%nat ∨ S k = n)).
    + rewrite decide_True by lia. by rewrite bool_decide_true.
    + rewrite decide_False by lia. rewrite bool_decide_false by done. by rewrite insert_here by lia.
  - rewrite decide_False; [done|]. rewrite hyphens. congruence.
Qed.

Lemma imap_shift {A} (f : ascii → A) k (l : list ascii) :
  imap ((λ i c, ((k + i)%nat, f c)) ∘ S) l = imap (λ i c, ((S k + i)%nat, f c)) l.
Proof. apply imap_ext. intros i x _. simpl. f_equal. lia. Qed.
Lemma dns_kept_cons n k c l :
  dns_kept n k (c :: l) =
  match dns_keep (at_edge n k) c with
  | Some a => a :: dns_kept n (S k) l
  | None => dns_kept n (S k) l
  end.
Proof.
  unfold dns_kept. rewrite <- (imap_shift (λ c, c)). cbn. rewrite Nat.add_0_r.
  by destruct (dns_keep (at_edge n k) c).
Qed.

Lemma dns_loop n l k out sk m :
  (k + length l ≤ n)%nat → (length l ≤ m)%nat → k = (length out + sk)%nat →
  fold_left (dns_step (Z.of_nat n - 1)) (imap (λ i c, ((k + i)%nat, byte_val c)) l)
    (out ++ replicate m 0, sk) =
  (out ++ (byte_val <$> dns_kept n k l) ++ replicate (m - length (dns_kept n k l)) 0,
   (sk + (length l - length (dns_kept n k l)))%nat)
  ∧ (length (dns_kept n k l) ≤ length l)%nat.
Proof.
  revert k out sk m. induction l as [|c l IH]; intros k out sk m Hn Hm Hk.
  { cbn. by rewrite Nat.sub_0_r, Nat.add_0_r. }
  destruct m as [|m]; [simpl in Hm; lia|]. simpl in Hn, Hm.
  cbn [imap fold_left]. rewrite Nat.add_0_r, dns_step_keep, imap_shift, dns_kept_cons by lia.
  destruct (dns_keep (at_edge n k) c) as [a|]; cbn iota.
  - destruct (IH (S k) (out ++ [byte_val a]) sk m) as [IH1 IH2];
      [lia|lia|rewrite length_app; simpl; lia|].
    rewrite <- app_assoc in IH1. cbn [app] in IH1. rewrite IH1.
    rewrite <- !app_assoc. cbn. split; [|lia]. done.
  - destruct (IH (S k) out (S sk) (S m)) as [IH1 IH2]; [lia..|].
    rewrite IH1. split; [|cbn; lia]. f_equal. cbn [length]. lia.
Qed.

Lemma dns_keep_char e c a : dns_keep e c = Some a → dns_char a = true ∧ byte_val a < 128.
Proof.
  assert (∀ e c, match dns_keep e c with
    | Some a => dns_char a && bool_decide (byte_val a < 128) | None => true end = true) as Hall.
  { intros []; by_chars. }
  intros Ha. specialize (Hall e c). rewrite Ha in Hall.
  apply andb_true_iff in Hall as [? Hv]. split; [done|]. by apply bool_decide_eq_true in Hv.
Qed.
Lemma elem_of_dns_kept n k l a : a ∈ dns_kept n k l → dns_char a = true ∧ byte_val a < 128.
Proof.
  intros Ha. unfold dns_kept in Ha. apply list_elem_of_omap in Ha as ([i c] & _ & Ha).
  by apply dns_keep_char in Ha.
Qed.

Lemma string_of_bytes l :
  Forall (λ c, byte_val c < 128) l →
  string_of_runes (byte_val <$> l) = String.string_of_list_ascii l.
Proof.
  induction 1 as [|c l Hc _ IH]; [done|]. cbn. rewrite encode_byte by done. cbn. by f_equal.
Qed.
Lemma length_list_ascii s : length (String.list_ascii_of_string s) = String.length s.
Proof. induction s; simpl; congruence. Qed.

(** The characters that are kept, in order. *)
Lemma DNSSanitize_filter name : is_ascii name → DNSSanitize name = dns_filter name.
Proof.
  intros Hname. unfold DNSSanitize, dns_filter. rewrite runes_ascii by done.
  rewrite <- length_list_ascii. set (l := String.list_ascii_of_string name).
  destruct (dns_loop (length l) l 0 [] 0 (length l)) as [Hloop Hlen]; [lia|lia|done|].
  cbn [app] in Hloop.
  replace (imap (λ i c, (i, byte_val c)) l)
    with (imap (λ i c, ((0 + i)%nat, byte_val c)) l) by done.
  rewrite Hloop.
  replace (length l - (0 + (length l - length (dns_kept (length l) 0 l))))%nat
    with (length (byte_val <$> dns_kept (length l) 0 l)) by (rewrite length_fmap; lia).
  rewrite take_app_length. apply string_of_bytes, Forall_forall.
  intros a Ha. by apply elem_of_dns_kept in Ha as [_ ?].
Qed.

Lemma str_all_lookup p s :
  str_all p s = true ↔ ∀ i c, String.list_ascii_of_string s !! i = Some c → p c = true.
Proof.
  induction s as [|a s IH]; simpl; [split; [by intros ? []|done]|].
  rewrite andb_true_iff, IH. split.
  - intros [Ha Hs] [|i] c Hc; simpl in Hc; [congruence|by eapply Hs].
  - intros Hs. split; [by apply (Hs 0%nat)|]. intros i c Hc. by apply (Hs (S i)).
Qed.
Lemma hyphen_val c : byte_val c = 45 ↔ c = "-"%char.
Proof.
  rewrite <- (bool_decide_eq_true (byte_val c = 45)), <- (bool_decide_eq_true (c = "-"%char)).
  assert (bool_decide (byte_val c = 45) = bool_decide (c = "-"%char)) as ->; [|done].
  revert c. by_chars.
Qed.

Lemma dns_check_ok name n k l :
  dns_check name (Z.of_nat n - 1) (imap (λ i c, ((k + i)%nat, byte_val c)) l) = None ↔
  ∀ i c, l !! i = Some c →
    dns_char c = true ∧ (c = "-"%char → (k + i)%nat ≠ 0%nat ∧ S (k + i) ≠ n).
Proof.
  revert k. induction l as [|a l IH]; intros k; [split; [by intros ? []|done]|].
  cbn [imap dns_check]. rewrite Nat.add_0_r, rune_byte_val, imap_shift.
  assert ((∀ i c, (a :: l) !! i = Some c →
      dns_char c = true ∧ (c = "-"%char → (k + i)%nat ≠ 0%nat ∧ S (k + i) ≠ n)) ↔
    (dns_char a = true ∧ (a = "-"%char → k ≠ 0%nat ∧ S k ≠ n)) ∧
    (∀ i c, l !! i = Some c →
      dns_char c = true ∧ (c = "-"%char → (S k + i)%nat ≠ 0%nat ∧ S (S k + i) ≠ n))) as ->.
  { split.
    - intros Hl. split; [specialize (Hl 0%nat a eq_refl); by rewrite Nat.add_0_r in Hl|].
      intros i c Hc. specialize (Hl (S i) c Hc). by rewrite Nat.add_succ_r in Hl.
    - intros [Ha Hl] [|i] c Hc; [injection Hc as <-; by rewrite Nat.add_0_r|].
      rewrite Nat.add_succ_r. by apply (Hl i). }
  assert (dns_char a = (isASCIILower a || isASCIIDigit a) || hyphen a) as -> by done.
  destruct (isASCIILower a || isASCIIDigit a) eqn:Hlow.
  { rewrite IH. assert (a ≠ "-"%char) as Hne by (intros ->; vm_compute in Hlow; done).
    cbn [orb]. tauto. }
  cbn [orb]. unfold hyphen at 1. rewrite bool_decide_eq_true, <- hyphen_val.
  destruct (isASCIIUpper a) eqn:Hup.
  { split; [done|]. intros [[Hh _] _]. apply hyphen_val in Hh. subst a. vm_compute in Hup. done. }
  destruct (decide (byte_val a = 45)) as [Ha|Ha]; [|split; [done|tauto]].
  destruct (decide (k = 0%nat ∨ Z.of_nat k = Z.of_nat n - 1)).
  - split; [done|]. intros [[_ Hk] _]. lia.
  - rewrite IH. split; [|tauto]. intros Hl. split; [|done]. split; [done|]. lia.
Qed.

(** The check in one formula, for ASCII. *)
Lemma ValidDNSName_spec s : is_ascii s →
  (ValidDNSName s = None ↔
   (String.length s ≤ 63)%nat ∧ str_all dns_char s = true ∧
   first_char s ≠ Some "-"%char ∧ last_char s ≠ Some "-"%char).
Proof.
  intros Hs. unfold ValidDNSName, first_char, last_char. rewrite runes_ascii by done.
  rewrite <- length_list_ascii, str_all_lookup. set (l := String.list_ascii_of_string s).
  case_decide as Hlen; [split; [done|lia]|].
  rewrite (dns_check_ok s (length l) 0 l). rewrite head_lookup, last_lookup. split.
  - intros Hl. split_and!; [lia| | |].
    + intros i c Hc. by apply (Hl i).
    + intros Hc. by destruct (proj2 (Hl 0%nat _ Hc) eq_refl).
    + intros Hc. pose proof (lookup_lt_Some _ _ _ Hc).
      destruct (proj2 (Hl _ _ Hc) eq_refl) as [_ Hn]. lia.
  - intros (_ & Hall & Hf & Hla) i c Hc. split; [by eapply Hall|]. intros ->.
    pose proof (lookup_lt_Some _ _ _ Hc). simpl. split; [by intros ->|].
    intros Hi. apply Hla. by replace (Nat.pred (length l)) with i by lia.
Qed.

(** ** What the sanitizers return *)

Lemma str_take_all p n s : str_all p s = true → str_all p (str_take n s) = true.
Proof.
  revert n. induction s as [|c s IH]; intros [|n]; simpl; try done.
  rewrite !andb_true_iff. naive_solver.
Qed.
Lemma length_str_take n s : (String.length (str_take n s) ≤ n)%nat.
Proof. revert s. induction n as [|n IH]; intros [|c s]; simpl; try lia. specialize (IH s). lia. Qed.
Lemma length_trim_right p s : (String.length (trim_right p s) ≤ String.length s)%nat.
Proof.
  induction s as [|c s IH]; simpl; [done|].
  destruct (trim_right p s); simpl in *; [destruct (p c)|]; simpl; lia.
Qed.
Lemma trim_right_last p s c : last_char (trim_right p s) = Some c → p c = false.
Proof.
  unfold last_char. induction s as [|a s IH]; simpl; [done|].
  destruct (trim_right p s) as [|b t] eqn:Ht.
  - destruct (p a) eqn:Ha; simpl; [done|congruence].
  - intros Hc. apply IH. by rewrite <- Hc.
Qed.
Lemma trim_right_first p s a :
  p a = false → trim_right p (String a s) = String a (trim_right p s).
Proof. intros Ha. simpl. rewrite Ha. by destruct (trim_right p s). Qed.
Lemma trim_right_first_char p s c :
  first_char (trim_right p s) = Some c → first_char s = Some c.
Proof.
  destruct s as [|a s]; simpl; [done|].
  by destruct (trim_right p s); [destruct (p a)|].
Qed.

Lemma ValidName_ascii name : ValidName name = true → is_ascii name.
Proof.
  assert (∀ c, alnum c || name_char c = true → bool_decide (byte_val c < 128) = true) as Hc.
  { intros c. apply implb_true_iff. revert c. by_chars. }
  unfold ValidName, is_ascii. destruct name as [|c s]; simpl; [done|].
  rewrite !andb_true_iff. intros [Hf Hs]. split; [apply Hc; by rewrite Hf|].
  eapply str_all_impl; [|done]. intros a Ha. apply Hc. by rewrite Ha, orb_true_r.
Qed.
Lemma dns_kept_all n k l : str_all dns_char (String.string_of_list_ascii (dns_kept n k l)) = true.
Proof.
  apply str_all_lookup. intros i c. rewrite String.list_ascii_of_string_of_list_ascii.
  intros Hc. by apply list_elem_of_lookup_2, elem_of_dns_kept in Hc as [? _].
Qed.
(** A valid name starts with a character that is kept. *)
Lemma DNSSanitize_first name :
  ValidName name = true → ∃ a s, DNSSanitize name = String a s ∧ hyphen a = false.
Proof.
  intros Hv. rewrite DNSSanitize_filter by by apply ValidName_ascii.
  destruct name as [|c name]; [done|]. simpl in Hv. apply andb_true_iff in Hv as [Hc _].
  unfold dns_filter. cbn [String.list_ascii_of_string]. rewrite dns_kept_cons.
  assert (∀ c, alnum c = true →
    match dns_keep true c with Some a => negb (hyphen a) | None => false end = true) as Hk.
  { intros b. apply implb_true_iff. revert b. by_chars. }
  specialize (Hk c Hc). replace (at_edge _ 0) with true by done.
  destruct (dns_keep true c) as [a|]; [|done]. eexists a, _. split; [done|]. by apply negb_true_iff.
Qed.
Lemma dns_char_ascii s : str_all dns_char s = true → is_ascii s.
Proof.
  apply str_all_impl. intros c. apply implb_true_iff. revert c. by_chars.
Qed.

(** The host name and the namespace made of a valid name are valid DNS
    labels and not empty. *)
Theorem HostnameSanitize_valid name :
  ValidName name = true →
  ValidDNSName (HostnameSanitize name) = None ∧ HostnameSanitize name ≠ "" ∧
  NamespaceSanitize name = HostnameSanitize name.
Proof.
  intros Hv. destruct (DNSSanitize_first name Hv) as (a & s & Hs & Ha).
  assert (str_all dns_char (DNSSanitize name) = true) as Hall.
  { rewrite DNSSanitize_filter by by apply ValidName_ascii. apply dns_kept_all. }
  assert (HostnameSanitize name = String a (trim_right hyphen (str_take 62 s))) as Hh.
  { unfold HostnameSanitize. rewrite Hs. cbn [str_take maxHostnameLength].
    by apply (trim_right_first hyphen). }
  assert (str_all dns_char (HostnameSanitize name) = true) as Hd.
  { by apply trim_right_all, str_take_all. }
  split_and!; [|by rewrite Hh|done].
  apply ValidDNSName_spec; [by apply dns_char_ascii|]. split_and!; [|done| |].
  - unfold HostnameSanitize. etransitivity; [apply length_trim_right|apply length_str_take].
  - rewrite Hh. cbn. intros [= ->]. done.
  - unfold HostnameSanitize. intros Hl. by apply trim_right_last in Hl.
Qed.

(** The characters of a Kubernetes label value. *)
Definition label_char (c : ascii) : bool := alnum c || one_of "-_." c.

Lemma label_loop_ok s label :
  (String.length s ≤ 63)%nat → str_all label_char s = true →
  match first_char s with Some c => alnum c = true | None => True end →
  let r := label_loop s label in
  (String.length r ≤ 63)%nat ∧ str_all label_char r = true ∧
  match first_char r with Some c => alnum c = true | None => True end.
Proof.
  revert s. induction label as [|c label IH]; simpl; intros s Hl Hs Hf; [done|].
  case_decide as Hfull; [done|].
  destruct (bool_decide _ && negb (alnum c)) eqn:Hskip; [by apply IH|].
  destruct (alnum c || one_of "-_." c) eqn:Hc; [|by apply IH].
  apply IH.
  - rewrite length_str_app. simpl. lia.
  - rewrite str_all_app, Hs. simpl. unfold label_char. by rewrite Hc.
  - destruct s as [|a s]; [|exact Hf]. change (alnum c = true).
    destruct (alnum c); [done|by vm_compute in Hskip].
Qed.

(** A Kubernetes label value made of any string has at most 63 characters,
    all of them allowed, and begins and ends with a letter or a digit unless it
    is empty. *)
Theorem K8SLabelValueSanitize_valid label :
  let s := K8SLabelValueSanitize label in
  (String.length s ≤ 63)%nat ∧ str_all label_char s = true ∧
  (s ≠ "" → (∃ c, first_char s = Some c ∧ alnum c = true) ∧
            (∃ c, last_char s = Some c ∧ alnum c = true)).
Proof.
  destruct (label_loop_ok "" label) as (Hl & Hs & Hf); [simpl; lia|done|done|].
  unfold K8SLabelValueSanitize. cbv zeta.
  assert (str_all label_char (trim_right (one_of "._-") (label_loop "" label)) = true) as Hall
    by by apply trim_right_all.
  split_and!; [pose proof (length_trim_right (one_of "._-") (label_loop "" label)); lia|done|].
  intros Hne. split.
  - destruct (first_char (trim_right _ _)) as [c|] eqn:Hc; [|by destruct (trim_right _ _)].
    exists c. split; [done|]. apply trim_right_first_char in Hc. by rewrite Hc in Hf.
  - destruct (last_char (trim_right _ _)) as [c|] eqn:Hc.
    2:{ apply last_None in Hc. by destruct (trim_right _ _). }
    exists c. split; [done|]. pose proof (trim_right_last _ _ _ Hc) as Hn.
    assert (label_char c = true) as Hlc.
    { rewrite str_all_lookup in Hall. unfold last_char in Hc. rewrite last_lookup in Hc. eauto. }
    revert Hn Hlc. unfold label_char. clear.
    assert (∀ c, implb (label_char c) (alnum c || one_of "._-" c) = true) as Hall by by_chars.
    specialize (Hall c). unfold label_char in Hall. intros Hn Hc. rewrite Hc, Hn in Hall.
    by rewrite orb_false_r in Hall.
Qed.

(** A name of letters and digits stays as it is but for the case; the hyphens at
    its ends go, those that come to the end do not. *)
Lemma DNSSanitize_trailing : DNSSanitize "a-!" = "a-" ∧ ValidName "a-!" = true.
Proof. vm_compute. done. Qed.

Module NamesWitness.

Lemma HostnameSanitize_valid_witness :
  ValidName "My Cloudlet_1.example, Inc&Co!" = true ∧
  HostnameSanitize "My Cloudlet_1.example, Inc&Co!" = "mycloudlet-1exampleincco" ∧
  ValidDNSName (HostnameSanitize "My Cloudlet_1.example, Inc&Co!") = None.
Proof.
  assert (ValidName "My Cloudlet_1.example, Inc&Co!" = true) as Hv by (vm_compute; reflexivity).
  split; [exact Hv|]. split; [vm_compute; reflexivity|].
  exact (proj1 (HostnameSanitize_valid _ Hv)).
Defined.

Example sanitizers_run :
  K8SLabelValueSanitize "-App Inst/v1.0_" = "AppInstv1.0" ∧
  K8SServiceSanitize "1app" = "a1app" ∧ DockerSanitize "a&b c!" = "a-bc." ∧
  HeatSanitize "1 vm!" = "a1vm" ∧ ValidateNames (GR := canonical_range) (Some {["n" := "a/b"]}) = Some "invalid n".
Proof. vm_compute. done. Qed.

End NamesWitness.
