(* ===== verification/KVStore.v ===== *)
(** * The in-memory object store (pkg/regiondata/inmemory_store.go)

    The key-value store of the region database: versioned objects, revisions,
    watchers, and software transactions (pkg/objstore/objstore.go).  Each method that
    takes the store's mutex is one atomic function on the store record; a
    method that gives the mutex up and takes it again ([Sync]) is one function
    per critical section.  The callbacks the store makes are recorded, in
    order, in [delivered]. *)

From S2P Require Export GoStd.

Local Open Scope Z_scope.

(** ** pkg/objstore/objstore.go *)

Module Objstore.

Definition ObjStoreUpdateVersionAny : Z := 0.
Definition ErrKVStoreNotInitialized : error := "Object Storage not initialized".

Inductive SyncCbAction := SyncUpdate | SyncDelete | SyncListStart | SyncList | SyncListEnd.

#[export] Instance SyncCbAction_eq_dec : EqDecision SyncCbAction.
Proof. solve_decision. Defined.

(** A nil [Key] or [Value] is [None]. *)
Record SyncCbData := mkSyncCbData {
  Action : SyncCbAction;
  Key : option string;
  Value : option string;
  Rev : Z;
  ModRev : Z;
  MoreEvents : bool;
}.

Section DbKeys.
Variable region : Z. (* GetRegion() *)

Definition DbKeyPrefixString (typ : string) : string := fmt_d region +:+ "/" +:+ typ.
Definition DbKeyString (typ key_string : string) : string :=
  DbKeyPrefixString typ +:+ "/" +:+ key_string.

End DbKeys.

(** [key[strings.IndexByte(key, '/')+1:]]: the index is -1 when there is none. *)
Definition after_slash (key : string) : string :=
  match index_byte "/" key with Some ii => str_drop (S ii) key | None => key end.
Definition DbKeyPrefixRemove (key : string) : string := after_slash (after_slash key).

Definition DbKeyPrefixParse (inkey : string) : result (string * string * string) :=
  match index_byte "/" inkey with
  | None => Err "No region prefix on db key"
  | Some ii =>
      let region := str_take ii inkey in
      let key := str_drop (S ii) inkey in
      match index_byte "/" key with
      | None => Ok (region, key, "")
      | Some ii => Ok (region, str_take ii key, str_drop (S ii) key)
      end
  end.

Definition NotFoundError (key : string) : error :=
  "key " +:+ DbKeyPrefixRemove key +:+ " not found".
Definition ExistsError (key : string) : error :=
  "key " +:+ DbKeyPrefixRemove key +:+ " already exists".

End Objstore.
Import Objstore.

(** ** State *)

Record inMemData := mkInMemData { val : string; vers : Z; modRev : Z }.

(** [db] is [None] for the nil map of a store that is stopped.  A watcher is
    identified by a number; [delivered] lists the calls of watcher callbacks
    made so far. *)
Record InMemoryStore := mkStore {
  db : option (gmap string inMemData);
  watchers : gmap string (list nat);
  rev : Z;
  next_watcher : nat;
  delivered : list (nat * SyncCbData);
}.

Record inMemoryReadResp := mkReadResp { r_val : string; r_modRev : Z; r_rev : Z }.

Record inMemorySTM := mkSTM {
  rset : gmap string inMemoryReadResp;
  wset : gmap string string;
}.

Definition db_lookup (e : InMemoryStore) (key : string) : option inMemData :=
  db e ≫= lookup key.

Definition set_db (e : InMemoryStore) (m : gmap string inMemData) (r : Z) : InMemoryStore :=
  mkStore (Some m) (watchers e) r (next_watcher e) (delivered e).
Definition deliver (e : InMemoryStore) (evs : list (nat * SyncCbData)) : InMemoryStore :=
  mkStore (db e) (watchers e) (rev e) (next_watcher e) (delivered e ++ evs).

(** ** Operations *)

Section Store.
Context {GR : GoRange}.

Definition Start : InMemoryStore := mkStore (Some ∅) ∅ 1 0 [].

Definition Stop (e : InMemoryStore) : InMemoryStore :=
  mkStore None (watchers e) (rev e) (next_watcher e) (delivered e).

Definition watch_events (e : InMemoryStore) (key : string) (data : SyncCbData)
    : list (nat * SyncCbData) :=
  flat_map (λ '(prefix, ws),
    if has_prefix key prefix then (λ w, (w, data)) <$> ws else [])
    (go_range (watchers e)).
Definition triggerWatcher (e : InMemoryStore) (action : SyncCbAction)
    (key v : string) (r : Z) : InMemoryStore :=
  deliver e (watch_events e key (mkSyncCbData action (Some key) (Some v) r r false)).

Definition Create (e : InMemoryStore) (key v : string) : InMemoryStore * result Z :=
  match db e with
  | None => (e, Err ErrKVStoreNotInitialized)
  | Some m =>
      match m !! key with
      | Some _ => (e, Err (ExistsError key))
      | None =>
          let r := rev e + 1 in
          let e1 := set_db e (<[key := mkInMemData v 1 r]> m) r in
          (triggerWatcher e1 SyncUpdate key v r, Ok r)
      end
  end.

Definition Update (e : InMemoryStore) (key v : string) (version : Z)
    : InMemoryStore * result Z :=
  match db e with
  | None => (e, Err ErrKVStoreNotInitialized)
  | Some m =>
      match m !! key with
      | None => (e, Err (NotFoundError key))
      | Some data =>
          if decide (version ≠ ObjStoreUpdateVersionAny ∧ vers data ≠ version)
          then (e, Err "Invalid version")
          else
            let r := rev e + 1 in
            let e1 := set_db e (<[key := mkInMemData v (vers data + 1) r]> m) r in
            (triggerWatcher e1 SyncUpdate key v r, Ok r)
      end
  end.

Definition Put (e : InMemoryStore) (key v : string) : InMemoryStore * result Z :=
  match db e with
  | None => (e, Err ErrKVStoreNotInitialized)
  | Some m =>
      let data := default (mkInMemData "" 0 0) (m !! key) in
      let r := rev e + 1 in
      let e1 := set_db e (<[key := mkInMemData v (vers data + 1) r]> m) r in
      (triggerWatcher e1 SyncUpdate key v r, Ok r)
  end.

Definition Delete (e : InMemoryStore) (key : string) : InMemoryStore * result Z :=
  match db e with
  | None => (e, Err ErrKVStoreNotInitialized)
  | Some m =>
      let r := rev e + 1 in
      let e1 := set_db e (delete key m) r in
      (triggerWatcher e1 SyncDelete key "" r, Ok r)
  end.

(** Returns the value, the version and the modification revision. *)
Definition Get (e : InMemoryStore) (key : string) : result (string * Z * Z) :=
  match db e with
  | None => Err ErrKVStoreNotInitialized
  | Some m =>
      match m !! key with
      | None => Err (NotFoundError key)
      | Some data => Ok (val data, vers data, modRev data)
      end
  end.

(** [List]: the callback runs on copies, after the mutex is released; its
    first error ends the loop. *)
Fixpoint list_loop {S} (cb : S → string → string → Z → Z → S * option error)
    (s : S) (r : Z) (kvs : list (string * inMemData)) : S :=
  match kvs with
  | [] => s
  | (k, v) :: kvs' =>
      let '(s', err) := cb s k (val v) r (modRev v) in
      match err with Some _ => s' | None => list_loop cb s' r kvs' end
  end.
Definition List {S} (e : InMemoryStore) (key : string)
    (cb : S → string → string → Z → Z → S * option error) (s : S) : result S :=
  match db e with
  | None => Err ErrKVStoreNotInitialized
  | Some m =>
      Ok (list_loop cb s (rev e)
            (go_range (filter (λ kv, has_prefix kv.1 key = true) m)))
  end.

(** [Rev]: [None] is the nil dereference on a missing key. *)
Definition Rev (e : InMemoryStore) (key : string) : option Z :=
  modRev <$> db_lookup e key.

(** *** Sync

    The first critical section registers the watcher and lists the objects,
    the second one, after the context is done, removes the watcher.  The list
    callbacks share one data object: [SyncListEnd] carries the revisions of the last [SyncList]. *)
Fixpoint sync_list (prefix : string) (r : Z) (data : SyncCbData)
    (kvs : list (string * inMemData)) : list SyncCbData * SyncCbData :=
  match kvs with
  | [] => ([], data)
  | (key, dd) :: kvs' =>
      if has_prefix key prefix then
        let data := mkSyncCbData SyncList (Some key) (Some (val dd)) r (modRev dd) false in
        let '(evs, last) := sync_list prefix r data kvs' in (data :: evs, last)
      else sync_list prefix r data kvs'
  end.
Definition Sync_register (e : InMemoryStore) (prefix : string) : InMemoryStore * nat :=
  let w := next_watcher e in
  let ws := default [] (watchers e !! prefix) in
  let start := mkSyncCbData SyncListStart None None 0 0 false in
  let '(evs, last) := sync_list prefix (rev e) start
    (match db e with Some m => go_range m | None => [] end) in
  let stop := mkSyncCbData SyncListEnd None None (Objstore.Rev last) (ModRev last) false in
  (mkStore (db e) (<[prefix := ws ++ [w]]> (watchers e)) (rev e) (S w)
     (delivered e ++ ((λ d, (w, d)) <$> (start :: evs ++ [stop]))), w).

Fixpoint remove_first (w : nat) (ws : list nat) : list nat :=
  match ws with
  | [] => []
  | x :: ws' => if decide (x = w) then ws' else x :: remove_first w ws'
  end.
Definition Sync_unregister (e : InMemoryStore) (prefix : string) (w : nat) : InMemoryStore :=
  match watchers e !! prefix with
  | None => e
  | Some ws =>
      let ws' := remove_first w ws in
      let ws_map := if decide (ws' = []) then delete prefix (watchers e)
                    else <[prefix := ws']> (watchers e) in
      mkStore (db e) ws_map (rev e) (next_watcher e) (delivered e)
  end.

Definition Grant (ttl : Z) : result Z := Err "dummy etcd grant unsupported".
Definition Revoke (lease : Z) : result unit := Err "dummy etcd revoke unsupported".
Definition KeepAlive (lease : Z) : result unit := Err "dummy etcd keepalive unsupported".

(** *** Transactions *)

Definition stm_reset : inMemorySTM := mkSTM ∅ ∅.

(** The read goes to the store with its mutex held ([e]); the revision is read
    afterwards, without it ([e']). *)
Definition stm_Get (e e' : InMemoryStore) (d : inMemorySTM) (key : string)
    : string * inMemorySTM :=
  match wset d !! key with
  | Some wv => (wv, d)
  | None =>
      match rset d !! key with
      | Some rr => (r_val rr, d)
      | None =>
          let '(byt, mr) :=
            match Get e key with Ok (v, _, m) => (v, m) | Err _ => ("", 0) end in
          (byt, mkSTM (<[key := mkReadResp byt mr (rev e')]> (rset d)) (wset d))
      end
  end.
Definition stm_Put (d : inMemorySTM) (key v : string) : inMemorySTM :=
  mkSTM (rset d) (<[key := v]> (wset d)).
Definition stm_Del (d : inMemorySTM) (key : string) : inMemorySTM :=
  mkSTM (rset d) (<[key := ""]> (wset d)).
Definition stm_Rev (e : InMemoryStore) (key : string) : option Z := Rev e key.

Definition db_modRev (e : InMemoryStore) (key : string) : Z :=
  match db_lookup e key with Some dd => modRev dd | None => 0 end.

(** Gets must not have changed; the result is the lowest revision of a read. *)
Fixpoint commit_check_rset (e : InMemoryStore) (r : Z)
    (rs : list (string * inMemoryReadResp)) : result Z :=
  match rs with
  | [] => Ok r
  | (key, resp) :: rs' =>
      if decide (db_modRev e key ≠ r_modRev resp) then Err "rset rev mismatch"
      else commit_check_rset e (if decide (r_rev resp < r) then r_rev resp else r) rs'
  end.
(** No written key is past that revision. *)
Fixpoint commit_check_wset (e : InMemoryStore) (r : Z) (ws : list (string * string))
    : result unit :=
  match ws with
  | [] => Ok tt
  | (key, _) :: ws' =>
      if decide (r < db_modRev e key) then Err "wset rev mismatch"
      else commit_check_wset e r ws'
  end.
(** One write at the new revision; a put on the nil map of a stopped store
    panics ([None]). *)
Definition commit_write (e : InMemoryStore) (key v : string) : option InMemoryStore :=
  if decide (v = "") then
    let e1 := match db e with Some m => set_db e (delete key m) (rev e) | None => e end in
    Some (triggerWatcher e1 SyncDelete key "" (rev e))
  else
    match db e with
    | None => None
    | Some m =>
        let dd := default (mkInMemData "" 0 0) (m !! key) in
        let e1 := set_db e (<[key := mkInMemData v (vers dd + 1) (rev e)]> m) (rev e) in
        Some (triggerWatcher e1 SyncUpdate key v (rev e))
    end.
Fixpoint commit_writes (e : InMemoryStore) (ws : list (string * string))
    : option InMemoryStore :=
  match ws with
  | [] => Some e
  | (key, v) :: ws' => e' ← commit_write e key v; commit_writes e' ws'
  end.

Definition MaxInt64 : Z := 2 ^ 63 - 1.

Definition commit (e : InMemoryStore) (stm : inMemorySTM)
    : option (InMemoryStore * result Z) :=
  if decide (wset stm = ∅) then Some (e, Ok (rev e))
  else
    match commit_check_rset e (MaxInt64 - 1) (go_range (rset stm)) with
    | Err err => Some (e, Err err)
    | Ok r =>
        match commit_check_wset e r (go_range (wset stm)) with
        | Err err => Some (e, Err err)
        | Ok _ =>
            let e1 := mkStore (db e) (watchers e) (rev e + 1) (next_watcher e) (delivered e) in
            e2 ← commit_writes e1 (go_range (wset stm));
            Some (e2, Ok (rev e2))
        end
    end.

(** *** The body of a transaction: the gets, puts and deletes it makes. *)
Inductive txn :=
| TRet (err : option error)
| TGet (key : string) (k : string → txn)
| TPut (key v : string) (t : txn)
| TDel (key : string) (t : txn).

(** The body run on its own, with no other operation in between. *)
Fixpoint txn_exec (e : InMemoryStore) (d : inMemorySTM) (t : txn)
    : inMemorySTM * option error :=
  match t with
  | TRet err => (d, err)
  | TGet key k => let '(v, d') := stm_Get e e d key in txn_exec e d' (k v)
  | TPut key v t' => txn_exec e (stm_Put d key v) t'
  | TDel key t' => txn_exec e (stm_Del d key) t'
  end.

(** What another thread may do to the store. *)
Inductive op :=
| OCreate (key v : string)
| OUpdate (key v : string) (version : Z)
| OPut (key v : string)
| ODelete (key : string)
| OCommit (stm : inMemorySTM)
| OWatch (prefix : string)
| OUnwatch (prefix : string) (w : nat)
| OStop.

Definition do_op (o : op) (e : InMemoryStore) : option InMemoryStore :=
  match o with
  | OCreate key v => Some (Create e key v).1
  | OUpdate key v version => Some (Update e key v version).1
  | OPut key v => Some (Put e key v).1
  | ODelete key => Some (Delete e key).1
  | OCommit stm => fst <$> commit e stm
  | OWatch prefix => Some (Sync_register e prefix).1
  | OUnwatch prefix w => Some (Sync_unregister e prefix w)
  | OStop => Some (Stop e)
  end.
Definition env_step (e e' : InMemoryStore) : Prop := ∃ o, do_op o e = Some e'.

(** The body run while other threads use the store. *)
Inductive txn_run : InMemoryStore → inMemorySTM → txn →
    InMemoryStore → inMemorySTM → option error → Prop :=
| run_ret e d err : txn_run e d (TRet err) e d err
| run_env e e1 d t e' d' err :
    env_step e e1 → txn_run e1 d t e' d' err → txn_run e d t e' d' err
| run_get e e1 d key k e' d' err :
    rtc env_step e e1 →
    txn_run e1 (stm_Get e e1 d key).2 (k (stm_Get e e1 d key).1) e' d' err →
    txn_run e d (TGet key k) e' d' err
| run_put e d key v t e' d' err :
    txn_run e (stm_Put d key v) t e' d' err → txn_run e d (TPut key v t) e' d' err
| run_del e d key t e' d' err :
    txn_run e (stm_Del d key) t e' d' err → txn_run e d (TDel key t) e' d' err.

(** *** ApplySTM

    [apply_run ii e t n e' r]: from the loop's counter [ii], the loop runs the
    body [n] times and returns [r].  The result [rev] is 0 after a failed
    commit. *)
Inductive apply_run (t : txn) : nat → InMemoryStore → nat → InMemoryStore →
    Z * option error → Prop :=
| apply_err ii e e' d err :
    txn_run e stm_reset t e' d (Some err) →
    apply_run t ii e 1 e' (0, Some err)
| apply_ok ii e e1 d e2 r :
    txn_run e stm_reset t e1 d None →
    commit e1 d = Some (e2, Ok r) →
    apply_run t ii e 1 e2 (r, None)
| apply_retry ii e e1 d err e2 n e3 res :
    txn_run e stm_reset t e1 d None →
    commit e1 d = Some (e2, Err err) →
    (ii + 1 ≤ 12)%nat →
    apply_run t (ii + 1) e2 n e3 res →
    apply_run t ii e (S n) e3 res
| apply_too_many ii e e1 d err e2 :
    txn_run e stm_reset t e1 d None →
    commit e1 d = Some (e2, Err err) →
    (12 < ii + 1)%nat →
    apply_run t ii e 1 e2 (0, Some "too many iterations").

(** The same loop with no other thread on the store. *)
Fixpoint ApplySTM_loop (fuel : nat) (ii : nat) (e : InMemoryStore) (t : txn)
    : option (InMemoryStore * (Z * option error)) :=
  match fuel with
  | O => None
  | S fuel' =>
      let '(d, err) := txn_exec e stm_reset t in
      match err with
      | Some msg => Some (e, (0, Some msg))
      | None =>
          c ← commit e d;
          match c.2 with
          | Ok r => Some (c.1, (r, None))
          | Err _ =>
              if decide (12 < ii + 1)%nat
              then Some (c.1, (0, Some "too many iterations"))
              else ApplySTM_loop fuel' (ii + 1) c.1 t
          end
      end
  end.
Definition ApplySTM (e : InMemoryStore) (t : txn) := ApplySTM_loop 13 0 e t.

End Store.

(** ** Specifications *)

(** What a client of the store sees of a key. *)
Definition view (e : InMemoryStore) (key : string) : string :=
  match db_lookup e key with Some dd => val dd | None => "" end.

(** A transaction body run against a fixed snapshot [f], reading its own
    writes [w]. *)
Fixpoint txn_pure (f : string → string) (w : gmap string string) (t : txn)
    : option error * gmap string string :=
  match t with
  | TRet err => (err, w)
  | TGet key k => txn_pure f w (k (default (f key) (w !! key)))
  | TPut key v t' => txn_pure f (<[key := v]> w) t'
  | TDel key t' => txn_pure f (<[key := ""]> w) t'
  end.

(** Revisions: positive, and never past the store's. *)
Definition store_inv (e : InMemoryStore) : Prop :=
  1 ≤ rev e ∧
  ∀ k d, db_lookup e k = Some d → 1 ≤ modRev d ≤ rev e ∧ 1 ≤ vers d.

(** [e'] is a later state of [e]: an object that is still at its revision is
    unchanged. *)
Definition evolves (e e' : InMemoryStore) : Prop :=
  rev e ≤ rev e' ∧
  ∀ k d, db_lookup e' k = Some d → db_lookup e k = Some d ∨ rev e < modRev d.

(** A recorded read still tells the value of the key at the revision read. *)
Definition read_ok (e : InMemoryStore) (k : string) (r : inMemoryReadResp) : Prop :=
  0 ≤ r_modRev r ≤ rev e ∧
  (r_modRev r = 0 → r_val r = "") ∧
  (∀ d, db_lookup e k = Some d → modRev d = r_modRev r → val d = r_val r).
Definition reads_ok (e : InMemoryStore) (d : inMemorySTM) : Prop :=
  ∀ k r, rset d !! k = Some r → read_ok e k r.

(** A client that keeps a copy of the objects under a prefix: between the start
    and the end of a listing it collects the keys listed, and at the end it
    drops every other key. *)
Record replica := mkReplica { r_map : gmap string string; r_all : gset string }.

Definition replay_ev (r : replica) (data : SyncCbData) : replica :=
  let key := default "" (Key data) in
  let v := default "" (Value data) in
  match Action data with
  | SyncListStart => mkReplica (r_map r) ∅
  | SyncList => mkReplica (<[key := v]> (r_map r)) ({[key]} ∪ r_all r)
  | SyncListEnd => mkReplica (filter (λ kv, kv.1 ∈ r_all r) (r_map r)) (r_all r)
  | SyncUpdate => mkReplica (<[key := v]> (r_map r)) (r_all r)
  | SyncDelete => mkReplica (delete key (r_map r)) (r_all r)
  end.
(** The events delivered to watcher [w]. *)
Definition events_of (w : nat) (evs : list (nat * SyncCbData)) : list SyncCbData :=
  snd <$> filter (λ ev, ev.1 = w) evs.
Definition replay (r : replica) (evs : list SyncCbData) : replica :=
  fold_left replay_ev evs r.

(** The values under a prefix. *)
Definition under_prefix (prefix : string) (m : gmap string inMemData) : gmap string string :=
  val <$> filter (λ kv, has_prefix kv.1 prefix = true) m.

(** Watcher identifiers: each is registered under one prefix only. *)
Definition watch_inv (e : InMemoryStore) : Prop :=
  (∀ p ws w, watchers e !! p = Some ws → w ∈ ws → (w < next_watcher e)%nat) ∧
  (∀ p ws q ws' w, watchers e !! p = Some ws → w ∈ ws →
     watchers e !! q = Some ws' → w ∈ ws' → p = q) ∧
  Forall (λ ev, (ev.1 < next_watcher e)%nat) (delivered e).
Definition watching (e : InMemoryStore) (prefix : string) (w : nat) : Prop :=
  ∃ ws, watchers e !! prefix = Some ws ∧ w ∈ ws.

(** The operations of the store on a map from keys to values and versions. *)
Definition abs (e : InMemoryStore) : option (gmap string (string * Z)) :=
  fmap (M := gmap string) (λ dd, (val dd, vers dd)) <$> db e.
Definition kv_op (o : op) (m : gmap string (string * Z))
    : gmap string (string * Z) * bool :=
  match o with
  | OCreate k v =>
      match m !! k with None => (<[k := (v, 1)]> m, true) | Some _ => (m, false) end
  | OUpdate k v n =>
      match m !! k with
      | Some (_, n') => if decide (n = 0 ∨ n = n') then (<[k := (v, n' + 1)]> m, true)
                        else (m, false)
      | None => (m, false)
      end
  | OPut k v =>
      (<[k := (v, match m !! k with Some (_, n) => n + 1 | None => 1 end)]> m, true)
  | ODelete k => (delete k m, true)
  | _ => (m, true)
  end.

Section StoreProofs.
Context {GR : GoRange}.
Implicit Types e : InMemoryStore.

(** *** Elementary changes *)

Lemma db_lookup_deliver e evs k : db_lookup (deliver e evs) k = db_lookup e k.
Proof. done. Qed.
Lemma rev_trigger e a k v r : rev (triggerWatcher e a k v r) = rev e.
Proof. done. Qed.
Lemma db_lookup_trigger e a k v r k' :
  db_lookup (triggerWatcher e a k v r) k' = db_lookup e k'.
Proof. done. Qed.
Lemma db_lookup_set e m r k : db_lookup (set_db e m r) k = m !! k.
Proof. done. Qed.
Lemma db_lookup_some e m k : db e = Some m → db_lookup e k = m !! k.
Proof. unfold db_lookup. by intros ->. Qed.

Lemma store_inv_Start : store_inv Start.
Proof. split; [done|]. intros k d. rewrite <- (db_lookup_deliver Start []). done. Qed.

Lemma evolves_refl e : evolves e e.
Proof. split; [lia|]. auto. Qed.

Lemma evolves_trans e1 e2 e3 : evolves e1 e2 → evolves e2 e3 → evolves e1 e3.
Proof.
  intros [Hr1 H1] [Hr2 H2]. split; [lia|]. intros k d Hd.
  destruct (H2 k d Hd) as [H|H]; [by apply H1 | right; lia].
Qed.

(** A state that keeps every object but one, which is new or gone. *)
Lemma inv_evolves_write e e' key od :
  store_inv e → rev e' = rev e + 1 →
  (∀ k, db_lookup e' k = if decide (k = key) then od else db_lookup e k) →
  (∀ d, od = Some d → modRev d = rev e + 1 ∧ 1 ≤ vers d) →
  store_inv e' ∧ evolves e e'.
Proof.
  intros [Hr Hi] Hrev Hl Hod. split; split; [lia| |lia|].
  - intros k d. rewrite Hl. case_decide.
    + intros ->. destruct (Hod d eq_refl). lia.
    + intros Hd. destruct (Hi k d Hd). lia.
  - intros k d. rewrite Hl. case_decide.
    + intros ->. destruct (Hod d eq_refl). right. lia.
    + auto.
Qed.

Lemma vers_default e key :
  store_inv e → 0 ≤ vers (default (mkInMemData "" 0 0) (db_lookup e key)).
Proof.
  intros [_ Hi]. destruct (db_lookup e key) as [d|] eqn:Hd; simpl; [|lia].
  destruct (Hi _ _ Hd). lia.
Qed.

(** The state after a write: the lookup function of [set_db] on one key. *)
Lemma lookup_write_insert e m key d r k a v r' :
  db e = Some m →
  db_lookup (triggerWatcher (set_db e (<[key := d]> m) r) a key v r') k
  = if decide (k = key) then Some d else db_lookup e k.
Proof.
  intros Hm. rewrite db_lookup_trigger, db_lookup_set, (db_lookup_some e m) by done.
  rewrite lookup_insert. repeat case_decide; congruence.
Qed.
Lemma lookup_write_delete e m key r k a v r' :
  db e = Some m →
  db_lookup (triggerWatcher (set_db e (delete key m) r) a key v r') k
  = if decide (k = key) then None else db_lookup e k.
Proof.
  intros Hm. rewrite db_lookup_trigger, db_lookup_set, (db_lookup_some e m) by done.
  rewrite lookup_delete. repeat case_decide; congruence.
Qed.

(** *** The writes of a commit *)

(** [written e k ws]: what the writes make of the lookup of [k]. *)
Definition write_result (e : InMemoryStore) (r : Z) (k v : string) : option inMemData :=
  if decide (v = "") then None
  else Some (mkInMemData v
         (vers (default (mkInMemData "" 0 0) (db_lookup e k)) + 1) r).

Lemma commit_write_spec e key v e' :
  commit_write e key v = Some e' →
  rev e' = rev e ∧
  ∀ k, db_lookup e' k = if decide (k = key) then write_result e (rev e) key v
                        else db_lookup e k.
Proof.
  unfold commit_write, write_result. intros H.
  destruct (decide (v = "")) as [->|Hv].
  - injection H as <-. split; [by destruct (db e)|]. intros k.
    rewrite db_lookup_trigger. unfold db_lookup at 1.
    destruct (db e) as [m|] eqn:Hm; simpl.
    + rewrite (db_lookup_some e m) by done. rewrite lookup_delete.
      repeat case_decide; congruence.
    + unfold db_lookup. rewrite Hm; simpl. by case_decide.
  - destruct (db e) as [m|] eqn:Hm; [|done]. injection H as <-.
    split; [done|]. intros k.
    rewrite lookup_write_insert by done. by rewrite (db_lookup_some e m key Hm).
Qed.

Lemma commit_writes_spec ws e e' :
  NoDup ws.*1 →
  commit_writes e ws = Some e' →
  rev e' = rev e ∧
  ∀ k, db_lookup e' k =
    match (list_to_map ws : gmap string string) !! k with
    | Some v => write_result e (rev e) k v
    | None => db_lookup e k
    end.
Proof.
  revert e. induction ws as [|[key v] ws IH]; intros e Hnd H; simpl in *.
  - injection H as <-. split; [done|]. intros k. by rewrite lookup_empty.
  - apply NoDup_cons in Hnd as [Hni Hnd].
    destruct (commit_write e key v) as [e1|] eqn:H1; [|done]. simpl in H.
    apply commit_write_spec in H1 as [Hr1 Hl1].
    destruct (IH e1 Hnd H) as [Hr Hl]. split; [congruence|]. intros k.
    rewrite Hl, lookup_insert.
    destruct (decide (key = k)) as [<-|Hne].
    + rewrite not_elem_of_list_to_map_1 by done. rewrite Hl1. by rewrite decide_True.
    + rewrite Hl1, (decide_False (P := k = key)) by done.
      destruct (list_to_map ws !! k) as [v'|]; [|done].
      unfold write_result. rewrite Hl1, Hr1.
      by rewrite (decide_False (P := k = key)) by done.
Qed.

(** What a commit with writes does, once it passed its checks. *)
Lemma commit_ok_spec e stm e' r :
  commit e stm = Some (e', Ok r) → wset stm ≠ ∅ →
  (∃ r0, commit_check_rset e (MaxInt64 - 1) (go_range (rset stm)) = Ok r0 ∧
         commit_check_wset e r0 (go_range (wset stm)) = Ok tt) ∧
  r = rev e + 1 ∧ rev e' = r ∧
  ∀ k, db_lookup e' k =
    match wset stm !! k with
    | Some v => write_result e r k v
    | None => db_lookup e k
    end.
Proof.
  unfold commit. intros H Hne. rewrite decide_False in H by done.
  destruct (commit_check_rset _ _ _) as [r0|] eqn:Hr; [|done].
  destruct (commit_check_wset _ _ _) as [[]|] eqn:Hw; [|done].
  destruct (commit_writes _ _) as [e2|] eqn:He; simpl in H; [|done].
  injection H as -> <-.
  apply commit_writes_spec in He as [Hrev Hl]; [|apply NoDup_go_range].
  simpl in Hrev. split; [by exists r0|].
  split; [done|]. split; [done|]. intros k. rewrite Hl, list_to_map_go_range.
  destruct (wset stm !! k); [|done]. by rewrite Hrev.
Qed.

Lemma commit_err_spec e stm e' err :
  commit e stm = Some (e', Err err) → e' = e.
Proof.
  unfold commit. intros H. repeat case_match; simplify_eq/=; try done.
  by destruct (commit_writes _ _); simplify_eq/=.
Qed.

(** *** Every operation keeps the invariant and only moves forward *)

Lemma Create_step e k v : store_inv e →
  store_inv (Create e k v).1 ∧ evolves e (Create e k v).1.
Proof.
  intros He. unfold Create. destruct (db e) as [m|] eqn:Hm; simpl;
    [|by auto using evolves_refl].
  destruct (m !! k) eqn:Hk; simpl; [by auto using evolves_refl|].
  eapply (inv_evolves_write e _ k (Some (mkInMemData v 1 (rev e + 1)))); [done..| |].
  - intros k'. by rewrite lookup_write_insert by done.
  - intros d [= <-]; simpl; lia.
Qed.
Lemma Update_step e k v n : store_inv e →
  store_inv (Update e k v n).1 ∧ evolves e (Update e k v n).1.
Proof.
  intros He. unfold Update. destruct (db e) as [m|] eqn:Hm; simpl;
    [|by auto using evolves_refl].
  destruct (m !! k) as [d0|] eqn:Hk; simpl; [|by auto using evolves_refl].
  case_decide; simpl; [by auto using evolves_refl|].
  eapply (inv_evolves_write e _ k (Some (mkInMemData v (vers d0 + 1) (rev e + 1)))); [done..| |].
  - intros k'. by rewrite lookup_write_insert by done.
  - intros d [= <-]; simpl. rewrite <- (db_lookup_some e m k Hm) in Hk.
    destruct (proj2 He _ _ Hk). lia.
Qed.
Lemma Put_step e k v : store_inv e →
  store_inv (Put e k v).1 ∧ evolves e (Put e k v).1.
Proof.
  intros He. unfold Put. destruct (db e) as [m|] eqn:Hm; simpl;
    [|by auto using evolves_refl].
  eapply (inv_evolves_write e _ k (Some (mkInMemData v _ (rev e + 1)))); [done..| |].
  - intros k'. by rewrite lookup_write_insert by done.
  - intros d [= <-]; simpl. pose proof (vers_default e k He) as Hv.
    rewrite (db_lookup_some e m k Hm) in Hv. lia.
Qed.
Lemma Delete_step e k : store_inv e →
  store_inv (Delete e k).1 ∧ evolves e (Delete e k).1.
Proof.
  intros He. unfold Delete. destruct (db e) as [m|] eqn:Hm; simpl;
    [|by auto using evolves_refl].
  eapply (inv_evolves_write e _ k None); [done..| |done].
  intros k'. by rewrite lookup_write_delete by done.
Qed.
Lemma commit_step e stm e' res : store_inv e →
  commit e stm = Some (e', res) → store_inv e' ∧ evolves e e'.
Proof.
  intros He H. destruct res as [r|err].
  2: { apply commit_err_spec in H as ->. auto using evolves_refl. }
  destruct (decide (wset stm = ∅)) as [Hw|Hw].
  { unfold commit in H. rewrite decide_True in H by done. simplify_eq.
    auto using evolves_refl. }
  apply commit_ok_spec in H as (_ & Hr & Hrev & Hl); [|done].
  destruct He as [He1 Hi]. split; split; [lia| |lia|].
  - intros k d. rewrite Hl. unfold write_result.
    destruct (wset stm !! k) as [v|].
    + case_decide; [done|]. intros [= <-]; simpl.
      pose proof (vers_default e k (conj He1 Hi)). lia.
    + intros Hd. destruct (Hi _ _ Hd). lia.
  - intros k d. rewrite Hl. unfold write_result.
    destruct (wset stm !! k) as [v|]; [|auto].
    case_decide; [done|]. intros [= <-]; simpl. right. lia.
Qed.

Lemma do_op_step o e e' : store_inv e → do_op o e = Some e' →
  store_inv e' ∧ evolves e e'.
Proof.
  intros He H. destruct o as [k v|k v n|k v|k|stm|p|p w|]; simpl in H; simplify_eq.
  - by apply Create_step.
  - by apply Update_step.
  - by apply Put_step.
  - by apply Delete_step.
  - destruct (commit e stm) as [[e1 res]|] eqn:Hc; simplify_eq/=.
    eapply commit_step; eauto.
  - unfold Sync_register. destruct (sync_list _ _ _ _).
    split; [apply He|apply (evolves_refl e)].
  - unfold Sync_unregister. destruct (watchers e !! p);
      (split; [apply He|apply (evolves_refl e)]).
  - destruct He. repeat split; simpl; try done; lia.
Qed.

Lemma env_steps e e' : store_inv e → rtc env_step e e' → store_inv e' ∧ evolves e e'.
Proof.
  intros He H. induction H as [e|e1 e2 e3 [o Ho] _ IH]; [by auto using evolves_refl|].
  destruct (do_op_step o e1 e2 He Ho) as [He2 Hev].
  destruct (IH He2) as [He3 Hev3]. eauto using evolves_trans.
Qed.

(** *** Reads of a transaction *)

Lemma read_ok_evolves e e' k r : evolves e e' → read_ok e k r → read_ok e' k r.
Proof.
  intros [Hr Hl] (Hm & H0 & Hv). split; [lia|]. split; [done|].
  intros d Hd Hmr. destruct (Hl k d Hd); [by apply Hv|lia].
Qed.
Lemma reads_ok_evolves e e' d : evolves e e' → reads_ok e d → reads_ok e' d.
Proof. intros Hev H k r Hr. eapply read_ok_evolves; eauto. Qed.

Lemma Get_read_ok e k byt mr r :
  store_inv e →
  match Get e k with Ok (v, _, m) => (v, m) | Err _ => ("", 0) end = (byt, mr) →
  read_ok e k (mkReadResp byt mr r).
Proof.
  intros [Hr Hi]. unfold Get, read_ok; simpl.
  destruct (db e) as [m|] eqn:Hm.
  - destruct (m !! k) as [d|] eqn:Hk; intros [= <- <-].
    + rewrite (db_lookup_some e m k Hm), Hk.
      rewrite <- (db_lookup_some e m k Hm) in Hk. destruct (Hi _ _ Hk).
      split; [lia|]. split; [lia|]. by intros ? [= <-].
    + rewrite (db_lookup_some e m k Hm), Hk. split; [lia|]. done.
  - intros [= <- <-]. unfold db_lookup. rewrite Hm. split; [lia|]. done.
Qed.

Lemma stm_Get_ok e e1 d key :
  store_inv e → evolves e e1 → reads_ok e d →
  let d' := (stm_Get e e1 d key).2 in
  reads_ok e1 d' ∧ rset d ⊆ rset d' ∧ wset d' = wset d ∧
  ((stm_Get e e1 d key).1 = default "" (wset d !! key) ∧ key ∈ dom (wset d) ∨
   wset d !! key = None ∧
   ∃ r, rset d' !! key = Some r ∧ r_val r = (stm_Get e e1 d key).1).
Proof.
  intros He Hev Hd. unfold stm_Get.
  destruct (wset d !! key) as [wv|] eqn:Hw; simpl.
  { split; [by eapply reads_ok_evolves|]. split; [done|]. split; [done|].
    left. split; [done|]. by apply elem_of_dom. }
  destruct (rset d !! key) as [rr|] eqn:Hr; simpl.
  { split; [by eapply reads_ok_evolves|]. split; [done|]. split; [done|].
    right. eauto. }
  destruct (match Get e key with Ok _ => _ | Err _ => _ end) as [byt mr] eqn:Hg.
  simpl. split; [|split; [by apply insert_subseteq|split; [done|]]].
  - intros k r. simpl. rewrite lookup_insert. case_decide as Hk; intros Hs.
    + simplify_eq. eapply read_ok_evolves; [done|]. by apply Get_read_ok.
    + eapply read_ok_evolves; [done|]. by apply Hd.
  - right. split; [done|]. eexists. by rewrite lookup_insert_eq.
Qed.

(** The run of a body is its run on any snapshot that agrees with what it read. *)
Lemma txn_run_reads e d t e' d' err :
  txn_run e d t e' d' err → store_inv e → reads_ok e d →
  store_inv e' ∧ evolves e e' ∧ reads_ok e' d' ∧ rset d ⊆ rset d' ∧
  ∀ f, (∀ k r, rset d' !! k = Some r → f k = r_val r) →
       txn_pure f (wset d) t = (err, wset d').
Proof.
  induction 1 as [e d err|e e1 d t e' d' err Henv _ IH|e e1 d key k e' d' err Henv _ IH
    |e d key v t e' d' err _ IH|e d key t e' d' err _ IH]; intros He Hd.
  - split; [done|]. by auto using evolves_refl.
  - destruct Henv as [o Ho]. destruct (do_op_step o e e1 He Ho) as [He1 Hev].
    destruct IH as (? & ? & ? & ? & ?); [done|by eapply reads_ok_evolves|].
    eauto 10 using evolves_trans.
  - destruct (env_steps e e1 He Henv) as [He1 Hev].
    destruct (stm_Get_ok e e1 d key He Hev Hd) as (Hd1 & Hsub & Hw & Hcase).
    destruct (IH He1 Hd1) as (? & ? & ? & Hsub' & Hpure).
    split; [done|]. split; [by eapply evolves_trans|]. split; [done|].
    split; [by etrans|]. intros f Hf. simpl. rewrite <- (Hpure f Hf), Hw. f_equal. f_equal.
    destruct Hcase as [[Hv Hin]|(Hn & r & Hr & Hv)].
    + apply elem_of_dom in Hin as [wv Hwv]. rewrite Hwv in *. done.
    + rewrite Hn. simpl. rewrite <- Hv. apply Hf. by eapply lookup_weaken.
  - by apply IH.
  - by apply IH.
Qed.

Lemma commit_check_rset_ok e rs r r' :
  commit_check_rset e r rs = Ok r' →
  ∀ k resp, (k, resp) ∈ rs → db_modRev e k = r_modRev resp.
Proof.
  revert r. induction rs as [|[key resp] rs IH]; intros r H k rp Hin; simpl in *.
  - set_solver.
  - case_decide as Hd; [done|]. apply elem_of_cons in Hin as [Heq|Hin].
    + by simplify_eq.
    + eapply IH; eauto.
Qed.

Lemma read_ok_view e k r :
  read_ok e k r → db_modRev e k = r_modRev r → view e k = r_val r.
Proof.
  unfold read_ok, db_modRev, view. intros (_ & H0 & Hv) Hm.
  destruct (db_lookup e k) as [d|] eqn:Hd; [by apply Hv|]. symmetry. by apply H0.
Qed.

Lemma stm_reset_ok e : reads_ok e stm_reset.
Proof. intros k r. simpl. by rewrite lookup_empty. Qed.

Lemma view_write_result e r k v :
  match write_result e r k v with Some dd => val dd | None => "" end = v.
Proof. unfold write_result. by case_decide as Hv. Qed.

(** The commit of a run: its reads are of the state at the commit, and its
    writes are on top of it. *)
Lemma committed_is_pure e t e1 d e2 r err :
  store_inv e → txn_run e stm_reset t e1 d err → commit e1 d = Some (e2, Ok r) → wset d ≠ ∅ →
  txn_pure (view e1) ∅ t = (err, wset d).
Proof.
  intros He Hrun Hc Hw.
  destruct (txn_run_reads _ _ _ _ _ _ Hrun He (stm_reset_ok e)) as (He1 & _ & Hreads & _ & Hpure).
  apply commit_ok_spec in Hc as ((r0 & Hrs & _) & _ & _ & _); [|done].
  apply Hpure. intros k rp Hrp. apply read_ok_view; [by apply Hreads|].
  eapply commit_check_rset_ok; [done|]. by apply elem_of_go_range.
Qed.
Lemma committed_writes e1 d e2 r k :
  commit e1 d = Some (e2, Ok r) → wset d ≠ ∅ →
  view e2 k = default (view e1 k) (wset d !! k).
Proof.
  intros Hc Hw. apply commit_ok_spec in Hc as (_ & _ & _ & Hl); [|done].
  unfold view at 1. rewrite Hl. destruct (wset d !! k) as [v|]; simpl; [apply view_write_result|done].
Qed.

(** C1: a transaction that commits a write, with any operations of other
    threads between its reads, has the effect of running its body in one step
    on the state at the commit: it returns what the body returns on that
    snapshot, the store then shows the body's writes over the snapshot, all
    at one new revision, and every other key is untouched (object, version and
    modification revision). *)
Theorem stm_serializable e t e1 d e2 r err :
  store_inv e →
  txn_run e stm_reset t e1 d err →
  commit e1 d = Some (e2, Ok r) →
  wset d ≠ ∅ →
  txn_pure (view e1) ∅ t = (err, wset d) ∧
  r = rev e1 + 1 ∧ rev e2 = r ∧
  (∀ k, view e2 k = default (view e1 k) (wset d !! k)) ∧
  (∀ k, wset d !! k = None → db_lookup e2 k = db_lookup e1 k) ∧
  (∀ k dd, k ∈ dom (wset d) → db_lookup e2 k = Some dd → modRev dd = r).
Proof.
  intros He Hrun Hc Hw. split; [by eapply committed_is_pure|].
  pose proof (λ k, committed_writes e1 d e2 r k Hc Hw) as Hview.
  apply commit_ok_spec in Hc as (_ & -> & Hrev & Hl); [|done].
  split; [done|]. split; [done|]. split; [exact Hview|]. split.
  - intros k Hk. by rewrite Hl, Hk.
  - intros k dd Hk. rewrite Hl. apply elem_of_dom in Hk as [v ->].
    unfold write_result. case_decide; [done|]. by intros [= <-].
Qed.

(** *** Transactions without interference *)

Lemma txn_exec_run e d t : txn_run e d t e (txn_exec e d t).1 (txn_exec e d t).2.
Proof.
  revert d. induction t as [err|key k IH|key v t IH|key t IH]; intros d; simpl.
  - constructor.
  - eapply run_get; [by apply rtc_refl|]. destruct (stm_Get e e d key); simpl. apply IH.
  - by constructor.
  - by constructor.
Qed.

(** Every read of an undisturbed run is of the current state. *)
Definition reads_current (e : InMemoryStore) (d : inMemorySTM) : Prop :=
  map_Forall (λ k r, r_rev r = rev e ∧ r_modRev r = db_modRev e k) (rset d).

Lemma stm_Get_current e d key :
  reads_current e d → reads_current e (stm_Get e e d key).2.
Proof.
  intros Hd. unfold stm_Get. destruct (wset d !! key); [done|].
  destruct (rset d !! key); [done|].
  destruct (match Get e key with Ok _ => _ | Err _ => _ end) as [byt mr] eqn:Hg.
  apply map_Forall_insert_2; [|done]. split; [done|]. simpl. revert Hg.
  unfold Get, db_modRev, db_lookup. destruct (db e) as [m|]; simpl; [|congruence].
  destruct (m !! key); congruence.
Qed.
Lemma txn_exec_current e d t :
  reads_current e d → reads_current e (txn_exec e d t).1.
Proof.
  revert d. induction t as [err|key k IH|key v t IH|key t IH]; intros d Hd; simpl;
    [done| |by apply IH|by apply IH].
  pose proof (stm_Get_current e d key Hd) as H.
  destruct (stm_Get e e d key) as [v d']. by apply IH.
Qed.

Lemma commit_check_rset_current e r rs :
  rev e ≤ r →
  Forall (λ kr, r_rev kr.2 = rev e ∧ r_modRev kr.2 = db_modRev e kr.1) rs →
  ∃ r', commit_check_rset e r rs = Ok r' ∧ rev e ≤ r'.
Proof.
  intros Hr Hrs. revert r Hr.
  induction Hrs as [|[k rp] rs [H1 H2] _ IH]; intros r Hr; simpl in *; [eauto|].
  rewrite decide_False by (rewrite H2; auto). apply IH. case_decide; lia.
Qed.
Lemma commit_check_wset_current e r ws :
  store_inv e → rev e ≤ r → commit_check_wset e r ws = Ok tt.
Proof.
  intros [Hr0 Hi] Hr. induction ws as [|[k v] ws IH]; simpl; [done|].
  rewrite decide_False; [done|]. unfold db_modRev.
  destruct (db_lookup e k) as [d|] eqn:Hd; [|lia]. destruct (Hi _ _ Hd). lia.
Qed.

Lemma commit_write_some e k v :
  is_Some (db e) → ∃ e', commit_write e k v = Some e' ∧ is_Some (db e').
Proof.
  intros [m Hm]. unfold commit_write. rewrite Hm.
  case_decide; eexists; (split; [done|]); eexists; done.
Qed.
Lemma commit_writes_some e ws :
  is_Some (db e) → is_Some (commit_writes e ws).
Proof.
  revert e. induction ws as [|[k v] ws IH]; intros e He; simpl; [done|].
  destruct (commit_write_some e k v He) as (e' & -> & He'). by apply IH.
Qed.

Lemma commit_current e d :
  store_inv e → is_Some (db e) → rev e < MaxInt64 - 1 → reads_current e d →
  wset d ≠ ∅ → ∃ e2 r, commit e d = Some (e2, Ok r).
Proof.
  intros He Hdb Hr Hd Hw. unfold commit. rewrite decide_False by done.
  destruct (commit_check_rset_current e (MaxInt64 - 1) (go_range (rset d)))
    as (r & -> & Hr'); [lia| |].
  { apply Forall_forall. intros [k rp] Hin. apply elem_of_go_range in Hin. by apply (Hd k). }
  rewrite commit_check_wset_current by done.
  edestruct (commit_writes_some
    (mkStore (db e) (watchers e) (rev e + 1) (next_watcher e) (delivered e)))
    as [e2 He2]; [done|]. rewrite He2. simpl. eauto.
Qed.

(** A transaction that no other thread disturbs succeeds at the first try:
    it returns the body's error with the store untouched, or the current
    revision when the body writes nothing, or else the next revision, and the
    store then shows the body's writes over the old contents. *)
Theorem ApplySTM_alone e t :
  store_inv e → is_Some (db e) → rev e < MaxInt64 - 1 →
  ∃ e2 r err, ApplySTM e t = Some (e2, (r, err)) ∧
  let '(err', w) := txn_pure (view e) ∅ t in
  err = err' ∧
  match err' with
  | Some _ => e2 = e ∧ r = 0
  | None =>
      if decide (w = ∅) then e2 = e ∧ r = rev e
      else r = rev e + 1 ∧ rev e2 = r ∧ ∀ k, view e2 k = default (view e k) (w !! k)
  end.
Proof.
  intros He Hdb Hrev. pose proof (txn_exec_run e stm_reset t) as Hrun.
  pose proof (txn_exec_current e stm_reset t) as Hcur.
  unfold ApplySTM. simpl. destruct (txn_exec e stm_reset t) as [d err]; simpl in *.
  specialize (Hcur (map_Forall_empty _)).
  destruct (txn_run_reads _ _ _ _ _ _ Hrun He (stm_reset_ok e))
    as (_ & _ & Hreads & _ & Hpure).
  assert (Hv : ∀ k r, rset d !! k = Some r → view e k = r_val r).
  { intros k r Hr. apply read_ok_view; [by apply Hreads|]. symmetry. by apply (Hcur k r). }
  specialize (Hpure (view e) Hv). simpl in Hpure. rewrite Hpure.
  destruct err as [m|]; [eauto 10|].
  destruct (decide (wset d = ∅)) as [Hw|Hw].
  - unfold commit. rewrite decide_True by done. simpl. eauto 10.
  - destruct (commit_current e d) as (e2 & r & Hc); [done..|].
    rewrite Hc. simpl. exists e2, r, None. split; [done|]. split; [done|].
    apply commit_ok_spec in Hc as (_ & -> & Hr2 & Hl); [|done].
    split; [done|]. split; [done|]. intros k. unfold view at 1. rewrite Hl.
    destruct (wset d !! k) as [v|]; simpl; [apply view_write_result|done].
Qed.

(** Under any interference [ApplySTM] gives up after at most 13 runs of
    the body, and a run whose commit is refused leaves no trace of its own:
    the commit's state is the state before it. *)
Theorem ApplySTM_bounded t e n e' res :
  apply_run t 0 e n e' res →
  (1 ≤ n ≤ 13)%nat ∧
  (∀ e1 d e2 err, commit e1 d = Some (e2, Err err) → e2 = e1).
Proof.
  intros Hrun. split; [|by eauto using commit_err_spec].
  enough (∀ ii, apply_run t ii e n e' res → (ii ≤ 12 → 1 ≤ n ∧ n + ii ≤ 13)%nat) as H.
  { specialize (H 0%nat Hrun). lia. }
  clear Hrun. intros ii Hrun. induction Hrun; lia.
Qed.

(** *** The operations on an abstract map *)

Lemma abs_set e m r : abs (set_db e m r) = Some ((λ dd, (val dd, vers dd)) <$> m).
Proof. done. Qed.
Lemma abs_trigger e a k v r : abs (triggerWatcher e a k v r) = abs e.
Proof. done. Qed.

Definition op_result (o : op) (e : InMemoryStore) : result Z :=
  match o with
  | OCreate k v => (Create e k v).2
  | OUpdate k v n => (Update e k v n).2
  | OPut k v => (Put e k v).2
  | ODelete k => (Delete e k).2
  | _ => Ok (rev e)
  end.

(** On a started store, Create, Update, Put and Delete act on keys, values
    and versions as the abstract map does (create fails on a key that exists,
    update on one that does not or whose version is another, delete always
    succeeds); a success is one new revision, which is the object's
    modification revision, and a failure leaves the whole store as it was. *)
Theorem ops_refine o e m :
  match o with OCreate _ _ | OUpdate _ _ _ | OPut _ _ | ODelete _ => True | _ => False end →
  abs e = Some m →
  ∃ e', do_op o e = Some e' ∧
    abs e' = Some (kv_op o m).1 ∧ is_ok (op_result o e) = (kv_op o m).2 ∧
    match op_result o e with
    | Ok r => r = rev e + 1 ∧ rev e' = r
    | Err _ => e' = e
    end.
Proof.
  intros Ho Ha. unfold abs in Ha. destruct (db e) as [db0|] eqn:Hdb; simplify_eq/=.
  destruct o as [k v|k v n|k v|k| | | |]; try done; simpl; eexists; (split; [done|]).
  - unfold Create. rewrite Hdb, lookup_fmap.
    destruct (db0 !! k) as [dd|] eqn:Hk; simpl.
    + unfold abs. by rewrite Hdb.
    + by rewrite abs_trigger, abs_set, fmap_insert.
  - unfold Update. rewrite Hdb, lookup_fmap.
    destruct (db0 !! k) as [dd|] eqn:Hk; simpl; [|unfold abs; by rewrite Hdb].
    unfold ObjStoreUpdateVersionAny.
    destruct (decide (n = 0 ∨ n = vers dd)).
    + rewrite decide_False by lia. simpl. by rewrite abs_trigger, abs_set, fmap_insert.
    + rewrite decide_True by lia. simpl. unfold abs. by rewrite Hdb.
  - unfold Put. rewrite Hdb, lookup_fmap. simpl. rewrite abs_trigger, abs_set, fmap_insert.
    by destruct (db0 !! k).
  - unfold Delete. rewrite Hdb. simpl. by rewrite abs_trigger, abs_set, fmap_delete.
Qed.

(** *** Watchers *)

Lemma events_of_app w evs1 evs2 :
  events_of w (evs1 ++ evs2) = events_of w evs1 ++ events_of w evs2.
Proof. unfold events_of. by rewrite filter_app, fmap_app. Qed.
Lemma replay_app r evs1 evs2 : replay r (evs1 ++ evs2) = replay (replay r evs1) evs2.
Proof. apply fold_left_app. Qed.

Lemma events_of_watch w e key data :
  Forall (λ d, d = data) (events_of w (watch_events e key data)).
Proof.
  unfold events_of, watch_events. apply Forall_fmap, Forall_forall. intros [w' d] Hin.
  apply list_elem_of_filter in Hin as [_ Hin]. apply list_elem_of_In, in_flat_map in Hin.
  destruct Hin as ([p ws] & _ & Hin). destruct (has_prefix key p); [|done].
  apply list_elem_of_In, list_elem_of_fmap in Hin as (? & ? & ?). by simplify_eq/=.
Qed.
Lemma events_of_watch_in w e prefix key data :
  watching e prefix w → has_prefix key prefix = true →
  events_of w (watch_events e key data) ≠ [].
Proof.
  intros (ws & Hp & Hw) Hpre. unfold events_of.
  assert (Hin : (w, data) ∈ filter (λ ev, ev.1 = w) (watch_events e key data)).
  { apply list_elem_of_filter. split; [done|]. apply list_elem_of_In, in_flat_map.
    exists (prefix, ws). split.
    - apply list_elem_of_In, elem_of_go_range, Hp.
    - rewrite Hpre. apply list_elem_of_In, list_elem_of_fmap. eauto. }
  intros Heq. apply fmap_nil_inv in Heq. rewrite Heq in Hin. by apply not_elem_of_nil in Hin.
Qed.
Lemma events_of_watch_out w e prefix key data :
  watch_inv e → watching e prefix w → has_prefix key prefix = false →
  events_of w (watch_events e key data) = [].
Proof.
  intros (_ & Huniq & _) (ws & Hp & Hw) Hpre. unfold events_of.
  rewrite filter_none; [done|]. apply Forall_forall. intros [w' d] Hin ?; simplify_eq/=.
  apply list_elem_of_In, in_flat_map in Hin as ([q ws'] & Hq & Hin).
  apply list_elem_of_In, elem_of_go_range in Hq.
  destruct (has_prefix key q) eqn:Hqp; [|done].
  apply list_elem_of_In, list_elem_of_fmap in Hin as (? & ? & ?). simplify_eq/=.
  assert (prefix = q) by (by eapply Huniq). congruence.
Qed.

Lemma watch_inv_deliver e key data :
  watch_inv e → watch_inv (deliver e (watch_events e key data)).
Proof.
  intros (Hlt & Huniq & Hd). split; [done|]. split; [done|]. simpl.
  apply Forall_app. split; [done|]. apply Forall_forall. intros [w d] Hin. simpl.
  apply list_elem_of_In, in_flat_map in Hin as ([q ws'] & Hq & Hin).
  apply list_elem_of_In, elem_of_go_range in Hq.
  destruct (has_prefix key q); [|done].
  apply list_elem_of_In, list_elem_of_fmap in Hin as (? & ? & ?). simplify_eq/=. eauto.
Qed.

(** Replaying an update or delete any number of times, at least once. *)
Lemma replay_repeat r data evs :
  Action data = SyncUpdate ∨ Action data = SyncDelete →
  Forall (λ d, d = data) evs → evs ≠ [] → replay r evs = replay_ev r data.
Proof.
  intros Ha Hevs. revert r. induction Hevs as [|d evs -> Hevs IH]; intros r Hne; [done|].
  change (replay r (data :: evs)) with (replay (replay_ev r data) evs).
  destruct evs as [|d' evs']; [done|]. rewrite IH by done. unfold replay_ev.
  destruct Ha as [-> | ->]; simpl; f_equal.
  - by rewrite insert_insert_eq.
  - by rewrite delete_delete_eq.
Qed.
Lemma replay_write r e prefix w data key :
  watch_inv e → watching e prefix w →
  Action data = SyncUpdate ∨ Action data = SyncDelete →
  r_map (replay r (events_of w (watch_events e key data))) =
  if has_prefix key prefix then r_map (replay_ev r data) else r_map r.
Proof.
  intros Hinv Hw Ha. destruct (has_prefix key prefix) eqn:Hp.
  - f_equal. apply replay_repeat; [done|apply events_of_watch|].
    by eapply events_of_watch_in.
  - by erewrite events_of_watch_out.
Qed.

Lemma under_prefix_insert prefix m k d :
  under_prefix prefix (<[k := d]> m) =
  if has_prefix k prefix then <[k := val d]> (under_prefix prefix m)
  else under_prefix prefix m.
Proof.
  unfold under_prefix. destruct (has_prefix k prefix) eqn:Hp.
  - by rewrite map_filter_insert_True, fmap_insert.
  - rewrite map_filter_insert_not; [done|]. simpl. congruence.
Qed.
Lemma under_prefix_delete prefix m k :
  under_prefix prefix (delete k m) =
  if has_prefix k prefix then delete k (under_prefix prefix m) else under_prefix prefix m.
Proof.
  unfold under_prefix. rewrite map_filter_delete, fmap_delete.
  destruct (has_prefix k prefix) eqn:Hp; [done|].
  apply delete_id. rewrite lookup_fmap, map_lookup_filter.
  destruct (m !! k); [|done]. simpl. rewrite option_guard_False by congruence. done.
Qed.

(** The watcher [w] of [prefix] is in step: its copy is the store's objects. *)
Definition in_step (e : InMemoryStore) (prefix : string) (w : nat) (r : replica) : Prop :=
  watch_inv e ∧ watching e prefix w ∧
  ∃ m, db e = Some m ∧ r_map (replay r (events_of w (delivered e))) = under_prefix prefix m.

Lemma in_step_insert e e' prefix w r m k d a_rev :
  in_step e prefix w r → db e = Some m →
  e' = triggerWatcher (set_db e (<[k := d]> m) a_rev) SyncUpdate k (val d) a_rev →
  in_step e' prefix w r.
Proof.
  intros (Hinv & Hw & m' & Hm' & Hr) Hm ->.
  split; [by apply watch_inv_deliver|]. split; [done|].
  eexists; split; [done|]. simplify_eq. simpl.
  rewrite events_of_app, replay_app.
  rewrite (replay_write _ (set_db e (<[k := d]> m') a_rev) prefix) by (by auto).
  rewrite under_prefix_insert. simpl. by rewrite Hr.
Qed.
Lemma in_step_delete e e' prefix w r m k v a_rev :
  in_step e prefix w r → db e = Some m →
  e' = triggerWatcher (set_db e (delete k m) a_rev) SyncDelete k v a_rev →
  in_step e' prefix w r.
Proof.
  intros (Hinv & Hw & m' & Hm' & Hr) Hm ->.
  split; [by apply watch_inv_deliver|]. split; [done|].
  eexists; split; [done|]. simplify_eq. simpl.
  rewrite events_of_app, replay_app.
  rewrite (replay_write _ (set_db e (delete k m') a_rev) prefix) by (by auto).
  rewrite under_prefix_delete. simpl. by rewrite Hr.
Qed.

Lemma in_step_rev e prefix w r a_rev :
  in_step e prefix w r →
  in_step (mkStore (db e) (watchers e) a_rev (next_watcher e) (delivered e)) prefix w r.
Proof. done. Qed.

Lemma in_step_commit_writes e e' ws prefix w r :
  in_step e prefix w r → commit_writes e ws = Some e' → in_step e' prefix w r.
Proof.
  revert e. induction ws as [|[k v] ws IH]; intros e He H; simpl in H; [by simplify_eq|].
  destruct (commit_write e k v) as [e1|] eqn:H1; [|done]. simpl in H.
  eapply IH; [|done]. destruct (proj2 (proj2 He)) as (m & Hm & _).
  unfold commit_write in H1. rewrite Hm in H1. case_decide; simplify_eq.
  - eapply in_step_delete; [done..|reflexivity].
  - eapply (in_step_insert e _ _ _ _ _ _ (mkInMemData v _ _)); [done..|reflexivity].
Qed.

Lemma remove_first_elem w w' ws : w ≠ w' → w ∈ ws → w ∈ remove_first w' ws.
Proof.
  intros Hne. induction ws as [|x ws IH]; simpl; [done|]. intros Hin.
  case_decide; set_solver.
Qed.
Lemma remove_first_sub w w' ws : w ∈ remove_first w' ws → w ∈ ws.
Proof. induction ws as [|x ws IH]; simpl; [done|]. case_decide; set_solver. Qed.

(** *** Registering and removing watchers *)

Lemma watch_inv_unregister e prefix w : watch_inv e → watch_inv (Sync_unregister e prefix w).
Proof.
  intros (Hlt & Huniq & Hd). unfold Sync_unregister.
  destruct (watchers e !! prefix) as [ws|] eqn:Hws; [|done].
  assert (Hsub : ∀ q ws' x,
    (if decide (remove_first w ws = []) then delete prefix (watchers e)
     else <[prefix := remove_first w ws]> (watchers e)) !! q = Some ws' → x ∈ ws' →
    ∃ ws0, watchers e !! q = Some ws0 ∧ x ∈ ws0).
  { intros q ws' x. case_decide.
    - rewrite lookup_delete. case_decide; [done|]. eauto.
    - rewrite lookup_insert. case_decide as Hq; [|by eauto].
      intros [= <-] Hx%remove_first_sub. subst q. eauto. }
  split; [|split; [|done]]; simpl.
  - intros q ws' x Hq Hx. destruct (Hsub _ _ _ Hq Hx) as (? & ? & ?). eauto.
  - intros q1 ws1 q2 ws2 x H1 Hx1 H2 Hx2.
    destruct (Hsub _ _ _ H1 Hx1) as (? & ? & ?), (Hsub _ _ _ H2 Hx2) as (? & ? & ?). eauto.
Qed.

Lemma watch_inv_register e prefix : watch_inv e → watch_inv (Sync_register e prefix).1.
Proof.
  intros (Hlt & Huniq & Hd). unfold Sync_register.
  destruct (sync_list _ _ _ _) as [evs last]. simpl.
  assert (Hsub : ∀ q ws x,
    <[prefix := default [] (watchers e !! prefix) ++ [next_watcher e]]> (watchers e) !! q
      = Some ws → x ∈ ws →
    q = prefix ∧ x = next_watcher e ∨ ∃ ws0, watchers e !! q = Some ws0 ∧ x ∈ ws0).
  { intros q ws x. rewrite lookup_insert. case_decide as Hq; [|by eauto].
    intros [= <-]. subst q. rewrite elem_of_app, list_elem_of_singleton.
    destruct (watchers e !! prefix) as [ws0|]; simpl; [|set_solver].
    intros [Hx| ->]; eauto. }
  split; [|split]; simpl.
  - intros q ws x Hq Hx. destruct (Hsub _ _ _ Hq Hx) as [[_ ->]|(? & H1 & H2)]; [lia|].
    pose proof (Hlt _ _ _ H1 H2). lia.
  - intros q1 ws1 q2 ws2 x H1 Hx1 H2 Hx2.
    destruct (Hsub _ _ _ H1 Hx1) as [[-> ->]|(? & Ha & Hb)],
      (Hsub _ _ _ H2 Hx2) as [[-> ?]|(? & Hc & Hd2)]; subst; eauto.
    + pose proof (Hlt _ _ _ Hc Hd2). lia.
    + pose proof (Hlt _ _ _ Ha Hb). lia.
  - apply Forall_app. split.
    + eapply Forall_impl; [done|]. simpl. intros. lia.
    + repeat (apply Forall_cons; split; [simpl; lia|]). apply Forall_fmap, Forall_forall.
      intros; simpl; lia.
Qed.

Lemma events_of_fmap w w' (evs : list SyncCbData) :
  events_of w ((λ d, (w', d)) <$> evs) = if decide (w' = w) then evs else [].
Proof.
  unfold events_of. case_decide as Hw.
  - rewrite filter_all; [|by apply Forall_fmap, Forall_forall].
    rewrite <- list_fmap_compose. apply list_fmap_id.
  - by rewrite filter_none; [|by apply Forall_fmap, Forall_forall].
Qed.

Lemma events_of_fresh w evs :
  Forall (λ ev, (ev.1 < w)%nat) evs → events_of w evs = [].
Proof.
  intros H. unfold events_of. rewrite filter_none; [done|].
  eapply Forall_impl; [done|]. intros [w' d]; simpl. lia.
Qed.

Lemma in_step_op o e e' prefix w r :
  match o with OStop => False | OUnwatch _ w' => w' ≠ w | _ => True end →
  in_step e prefix w r → do_op o e = Some e' → in_step e' prefix w r.
Proof.
  intros Ho He H. pose proof He as (Hinv & Hw & m & Hm & Hr).
  destruct o as [k v|k v n|k v|k|stm|p|p w'|]; simpl in H; simplify_eq.
  - unfold Create. rewrite Hm. destruct (m !! k); [done|].
    eapply (in_step_insert e _ _ _ _ _ _ (mkInMemData v _ _)); [done..|reflexivity].
  - unfold Update. rewrite Hm. destruct (m !! k); [|done]. case_decide; [done|].
    eapply (in_step_insert e _ _ _ _ _ _ (mkInMemData v _ _)); [done..|reflexivity].
  - unfold Put. rewrite Hm.
    eapply (in_step_insert e _ _ _ _ _ _ (mkInMemData v _ _)); [done..|reflexivity].
  - unfold Delete. rewrite Hm. eapply in_step_delete; [done..|reflexivity].
  - destruct (commit e stm) as [[e1 res]|] eqn:Hc; simplify_eq/=.
    unfold commit in Hc. case_decide; [by simplify_eq|].
    destruct (commit_check_rset _ _ _); [|by simplify_eq].
    destruct (commit_check_wset _ _ _); [|by simplify_eq].
    destruct (commit_writes _ _) as [e2|] eqn:Hcw; simplify_eq/=.
    eapply in_step_commit_writes; [|done]. by apply in_step_rev.
  - split; [by apply watch_inv_register|]. unfold Sync_register.
    destruct (sync_list _ _ _ _) as [evs last]. cbn [fst db watchers delivered]. split.
    + destruct Hw as (ws & Hws & Hw). unfold watching. simpl. setoid_rewrite lookup_insert.
      case_decide; subst; [|by eauto]. rewrite Hws. simpl. eexists. split; [done|].
      set_solver.
    + exists m. split; [done|]. rewrite events_of_app.
      destruct Hw as (ws & Hws & Hw). pose proof (proj1 Hinv _ _ _ Hws Hw).
      rewrite events_of_fmap, decide_False by lia. by rewrite app_nil_r.
  - split; [by apply watch_inv_unregister|]. unfold Sync_unregister.
    destruct (watchers e !! p) as [ws'|] eqn:Hp; [|by eauto]. simpl. split; [|by eauto].
    destruct Hw as (ws & Hws & Hw). unfold watching. simpl.
    destruct (decide (p = prefix)) as [->|Hne].
    + assert (Hin : w ∈ remove_first w' ws').
      { apply remove_first_elem; [done|]. by simplify_eq. }
      rewrite decide_False by (intros Hnil; rewrite Hnil in Hin; by apply not_elem_of_nil in Hin).
      rewrite lookup_insert_eq. by eauto.
    + case_decide; [rewrite lookup_delete_ne by done|rewrite lookup_insert_ne by done];
        eauto.
  - done.
Qed.

(** *** The listing of a new watcher *)

Lemma sync_list_replay prefix rv data kvs m0 all0 :
  NoDup kvs.*1 →
  let r := replay (mkReplica m0 all0) (sync_list prefix rv data kvs).1 in
  let listed k := if has_prefix k prefix
                  then (list_to_map kvs : gmap string inMemData) !! k else None in
  (∀ k, r_map r !! k = match listed k with Some d => Some (val d) | None => m0 !! k end) ∧
  (∀ k, k ∈ r_all r ↔ k ∈ all0 ∨ is_Some (listed k)).
Proof.
  revert data m0 all0. induction kvs as [|[key dd] kvs IH]; intros data m0 all0 Hnd; simpl.
  { split; intros k; rewrite lookup_empty; destruct (has_prefix k prefix); simpl; [done..| |];
    (split; [by left|]; intros [?|[? ?]]; done). }
  apply NoDup_cons in Hnd as [Hni Hnd].
  assert (Hnone : (list_to_map kvs : gmap string inMemData) !! key = None)
    by by apply not_elem_of_list_to_map_1.
  destruct (has_prefix key prefix) eqn:Hp.
  - set (data' := mkSyncCbData _ _ _ _ _ _).
    specialize (IH data' (<[key := val dd]> m0) ({[key]} ∪ all0) Hnd).
    destruct (sync_list prefix rv data' kvs) as [evs last]. cbn [fst] in *.
    destruct IH as [IHm IHa]. change (replay _ (data' :: evs)) with
      (replay (mkReplica (<[key := val dd]> m0) ({[key]} ∪ all0)) evs).
    split; intros k.
    + rewrite IHm, !lookup_insert. case_decide as Hk; [subst k|].
      * by rewrite Hp, Hnone.
      * done.
    + rewrite IHa, !lookup_insert, elem_of_union, elem_of_singleton.
      case_decide as Hk; [subst k|].
      * rewrite Hp. split; [intros _; right; eauto|by auto].
      * naive_solver.
  - destruct (IH data m0 all0 Hnd) as [IHm IHa]. split; intros k.
    + rewrite IHm, lookup_insert. case_decide as Hk; [subst k|done]. by rewrite Hp.
    + rewrite IHa, lookup_insert. case_decide as Hk; [subst k|done]. by rewrite Hp.
Qed.

Lemma Sync_register_in_step e prefix m0 :
  watch_inv e → is_Some (db e) →
  in_step (Sync_register e prefix).1 prefix (Sync_register e prefix).2 m0.
Proof.
  intros Hinv [m Hm]. split; [by apply watch_inv_register|].
  unfold Sync_register. rewrite Hm.
  pose proof (sync_list_replay prefix (rev e) (mkSyncCbData SyncListStart None None 0 0 false)
    (go_range m) (r_map m0) ∅ (NoDup_go_range m)) as [Hmap Hall].
  destruct (sync_list _ _ _ _) as [evs last].
  cbn [fst snd db watchers delivered]. split.
  - eexists. split; [apply lookup_insert_eq|]. set_solver.
  - exists m. split; [done|]. rewrite events_of_app.
    rewrite events_of_fresh by apply Hinv.
    rewrite events_of_fmap, decide_True by done. simpl in Hmap, Hall. cbn [app].
    change (replay m0 (?a :: ?l)) with (replay (replay_ev m0 a) l). rewrite replay_app. simpl.
    apply map_eq. intros k. unfold under_prefix.
    rewrite list_to_map_go_range in Hmap. rewrite list_to_map_go_range in Hall.
    rewrite lookup_fmap, !map_lookup_filter. simpl.
    rewrite Hmap. specialize (Hall k).
    assert (Hne : ¬ (k ∈ (∅ : gset string))) by set_solver.
    destruct (has_prefix k prefix) eqn:Hp, (m !! k) as [d|] eqn:Hk;
      destruct (r_map m0 !! k); simpl in *; repeat case_guard; naive_solver.
Qed.

(** *** Reachable states *)

Lemma watch_inv_rev e a_rev :
  watch_inv e →
  watch_inv (mkStore (db e) (watchers e) a_rev (next_watcher e) (delivered e)).
Proof. done. Qed.

Lemma watch_inv_commit_writes e e' ws :
  watch_inv e → commit_writes e ws = Some e' → watch_inv e'.
Proof.
  revert e. induction ws as [|[k v] ws IH]; intros e He H; simpl in H; [by simplify_eq|].
  destruct (commit_write e k v) as [e1|] eqn:H1; [|done]. simpl in H.
  eapply IH; [|done]. unfold commit_write in H1.
  destruct (db e) as [m|]; case_decide; simplify_eq;
    unfold triggerWatcher; by apply watch_inv_deliver.
Qed.

Lemma do_op_watch_inv o e e' : watch_inv e → do_op o e = Some e' → watch_inv e'.
Proof.
  intros He H. destruct o as [k v|k v n|k v|k|stm|p|p w|]; simpl in H; simplify_eq.
  - unfold Create, triggerWatcher. split_matches. by apply watch_inv_deliver.
  - unfold Update, triggerWatcher. split_matches. by apply watch_inv_deliver.
  - unfold Put, triggerWatcher. split_matches. by apply watch_inv_deliver.
  - unfold Delete, triggerWatcher. split_matches. by apply watch_inv_deliver.
  - destruct (commit e stm) as [[e1 res]|] eqn:Hc; simplify_eq/=.
    unfold commit in Hc. case_decide; [by simplify_eq|].
    destruct (commit_check_rset _ _ _); [|by simplify_eq].
    destruct (commit_check_wset _ _ _); [|by simplify_eq].
    destruct (commit_writes _ _) as [e2|] eqn:Hcw; simplify_eq/=.
    eapply watch_inv_commit_writes; [|done]. by apply watch_inv_rev.
  - by apply watch_inv_register.
  - by apply watch_inv_unregister.
  - done.
Qed.

Lemma watch_inv_Start : watch_inv Start.
Proof.
  split; [|split; [|by apply Forall_nil]]; simpl.
  - intros p ws w. by rewrite lookup_empty.
  - intros p ws q ws' w. by rewrite lookup_empty.
Qed.

Lemma env_steps_watch_inv e e' : watch_inv e → rtc env_step e e' → watch_inv e'.
Proof. intros He H. induction H as [|e1 e2 e3 [o Ho]]; eauto using do_op_watch_inv. Qed.

(** The states of a store that was started. *)
Definition reachable (e : InMemoryStore) : Prop := rtc env_step Start e.

(** In every state a started store can reach, the revision is positive and
    bounds every object's modification revision, an object's version is at
    least 1, a watcher is registered under one prefix only, and callbacks went
    to registered watchers only; and along every operation the revision never
    decreases, an object whose modification revision is not past the old
    revision being the object it was. *)
Theorem reachable_inv e :
  reachable e →
  store_inv e ∧ watch_inv e ∧ ∀ o e', do_op o e = Some e' → evolves e e'.
Proof.
  intros He. destruct (env_steps Start e store_inv_Start He) as [Hs _].
  split; [done|]. split; [by eapply env_steps_watch_inv, He; apply watch_inv_Start|].
  intros o e' Ho. by eapply do_op_step.
Qed.

(** The operations of others that leave watcher [w] alone. *)
Definition quiet_step (w : nat) (e e' : InMemoryStore) : Prop :=
  ∃ o, match o with OStop => False | OUnwatch _ w' => w' ≠ w | _ => True end ∧
       do_op o e = Some e'.

Lemma Sync_later_in_step e prefix r0 e1 :
  reachable e → is_Some (db e) →
  rtc (quiet_step (Sync_register e prefix).2) (Sync_register e prefix).1 e1 →
  in_step e1 prefix (Sync_register e prefix).2 r0.
Proof.
  intros He Hdb Hsteps. assert (Hw : watch_inv e).
  { eapply env_steps_watch_inv, He. apply watch_inv_Start. }
  pose proof (Sync_register_in_step e prefix r0 Hw Hdb) as Hin.
  revert Hin Hsteps. generalize (Sync_register e prefix).1, (Sync_register e prefix).2.
  intros e0 w Hin Hsteps.
  induction Hsteps as [|x y z (o & Ho & Hdo) _ IH]; [done|].
  apply IH. by eapply in_step_op.
Qed.

(** A client that calls [Sync] on a prefix with any stale copy [r0], in any
    reachable state, and applies the callbacks in order (inserting listed and
    updated objects, deleting deleted ones, and dropping at the end of the
    listing what was not listed) has at every later moment a copy equal to the
    store's objects under the prefix, whatever the other threads do in between
    (until the store is stopped or the watcher removed). *)
Theorem watch_consistent e prefix r0 e1 :
  reachable e → is_Some (db e) →
  rtc (quiet_step (Sync_register e prefix).2) (Sync_register e prefix).1 e1 →
  ∃ m, db e1 = Some m ∧
    r_map (replay r0 (events_of (Sync_register e prefix).2 (delivered e1)))
    = under_prefix prefix m.
Proof.
  intros He Hdb Hsteps.
  destruct (Sync_later_in_step e prefix r0 e1 He Hdb Hsteps) as (_ & _ & H). done.
Qed.

(** *** Keys *)

Lemma DbKey_parse region typ key :
  str_avoids "/" typ →
  DbKeyPrefixParse (DbKeyString region typ key) = Ok (fmt_d region, typ, key) ∧
  DbKeyPrefixRemove (DbKeyString region typ key) = key.
Proof.
  intros Ht. unfold DbKeyPrefixParse, DbKeyPrefixRemove, DbKeyString, DbKeyPrefixString.
  assert (Hd : str_avoids "/" (fmt_d region)) by by apply fmt_d_avoids.
  replace ((fmt_d region +:+ "/" +:+ typ) +:+ "/" +:+ key)
    with (fmt_d region +:+ String "/" (typ +:+ String "/" key))
    by (by rewrite !str_app_assoc).
  unfold after_slash. rewrite !index_byte_app, str_take_app, !str_drop_app by done.
  by rewrite index_byte_app, str_take_app, str_drop_app by done.
Qed.

(** The type and the key string of a database key can be parsed back, for
    every region number and every type name without a slash, whatever the key
    holds; [DbKeyPrefixRemove] gives the key string. *)
Theorem DbKeyPrefixParse_DbKeyString region typ key :
  str_avoids "/" typ →
  DbKeyPrefixParse (DbKeyString region typ key) = Ok (fmt_d region, typ, key) ∧
  DbKeyPrefixRemove (DbKeyString region typ key) = key.
Proof.
  apply DbKey_parse.
Qed.

End StoreProofs.

(** ** Witnesses and a limit of the isolation *)

Module Witness.

#[local] Existing Instance canonical_range.

Definition e0 : InMemoryStore := (Put Start "1/App/a" "x").1.
Definition e1 : InMemoryStore := (Put e0 "1/App/b" "y").1.
(** Appends the value of [b] to [a], after reading both. *)
Definition t0 : txn :=
  TGet "1/App/a" (λ a, TGet "1/App/b" (λ b, TPut "1/App/a" (a +:+ b) (TDel "1/App/b" (TRet None)))).
Definition d0 : inMemorySTM := (txn_exec e1 stm_reset t0).1.

Lemma reachable_e1 : reachable e1.
Proof.
  eapply rtc_l; [by exists (OPut "1/App/a" "x")|].
  eapply rtc_once. by exists (OPut "1/App/b" "y").
Defined.
Lemma inv_e1 : store_inv e1.
Proof. by destruct (env_steps Start e1 store_inv_Start reachable_e1). Qed.
Lemma run_t0 : txn_run e0 stm_reset t0 e1 d0 None.
Proof.
  eapply run_env; [by exists (OPut "1/App/b" "y")|].
  eapply (txn_exec_run e1 stm_reset t0).
Qed.

Lemma stm_serializable_witness :
  ∃ e2 r, commit e1 d0 = Some (e2, Ok r) ∧ r = 4 ∧ view e2 "1/App/a" = "xy".
Proof.
  eexists _, _. split; [vm_compute; reflexivity|].
  split; [reflexivity|].
  assert (He0 : store_inv e0).
  { apply (env_steps Start e0 store_inv_Start). eapply rtc_once. by exists (OPut "1/App/a" "x"). }
  eapply (stm_serializable e0 t0 e1 d0 _ 4 None He0 run_t0 eq_refl).
  vm_compute. discriminate.
Defined.

Lemma ApplySTM_alone_witness :
  ∃ e2, ApplySTM e1 t0 = Some (e2, (4, None)).
Proof.
  destruct (ApplySTM_alone e1 t0 inv_e1) as (e2 & r & err & H & _);
    [by eexists|reflexivity|].
  exists e2. rewrite H. apply (f_equal (fmap snd)) in H. vm_compute in H.
  by injection H as <- <-.
Defined.

Lemma ApplySTM_bounded_witness : (1 ≤ 1 ≤ 13)%nat.
Proof.
  assert (H : apply_run t0 0 e0 1 (default e0 (fst <$> commit e1 d0)) (4, None)).
  { eapply apply_ok; [apply run_t0|]. vm_compute. reflexivity. }
  exact (proj1 (ApplySTM_bounded t0 e0 1 _ _ H)).
Defined.

Lemma reachable_inv_witness : store_inv e1.
Proof. exact (proj1 (reachable_inv e1 reachable_e1)). Defined.

Lemma ops_refine_witness :
  ∃ e', do_op (OUpdate "1/App/a" "z" 1) e1 = Some e' ∧ rev e' = 4.
Proof.
  destruct (ops_refine (OUpdate "1/App/a" "z" 1) e1 _ I eq_refl) as (e' & H & _ & _ & Hr).
  exists e'. split; [exact H|]. vm_compute in H. by injection H as <-.
Defined.

Lemma watch_consistent_witness :
  ∃ e', rtc (quiet_step 0) (Sync_register e1 "1/App").1 e' ∧
    r_map (replay (mkReplica {["1/App/old" := "stale"]} ∅) (events_of 0 (delivered e')))
    = {["1/App/b" := "y"]}.
Proof.
  exists (Delete (Sync_register e1 "1/App").1 "1/App/a").1.
  assert (Hs : rtc (quiet_step 0) (Sync_register e1 "1/App").1
    (Delete (Sync_register e1 "1/App").1 "1/App/a").1).
  { eapply rtc_once. by exists (ODelete "1/App/a"). }
  split; [exact Hs|].
  destruct (watch_consistent e1 "1/App" (mkReplica {["1/App/old" := "stale"]} ∅) _
    reachable_e1 ltac:(by eexists) Hs) as (m & Hm & Hr).
  etrans; [exact Hr|]. vm_compute in Hm. injection Hm as <-. by vm_compute.
Defined.

Lemma DbKeyPrefixParse_DbKeyString_witness :
  DbKeyPrefixParse "7/App/a/b" = Ok ("7", "App", "a/b").
Proof. exact (proj1 (DbKeyPrefixParse_DbKeyString 7 "App" "a/b" eq_refl)). Defined.

(** Reads two keys and reports whether they differ. *)
Definition t_cmp : txn :=
  TGet "k1" (λ a, TGet "k2" (λ b,
    TRet (if decide (a = b) then None else Some "differ"))).
Definition e_same : InMemoryStore := (Put (Put Start "k1" "v").1 "k2" "v").1.
(** Another transaction that writes both keys. *)
Definition d_both : inMemorySTM := mkSTM ∅ {["k1" := "w"; "k2" := "w"]}.

(** A transaction that only reads is not validated: though the two keys are
    equal before and after another transaction that writes both at once, it
    can see one old and one new value, and the commit of its empty write set
    succeeds all the same. *)
Theorem readonly_not_validated :
  ∃ e' d, txn_run e_same stm_reset t_cmp e' d (Some "differ") ∧
    (txn_pure (view e_same) ∅ t_cmp).1 = None ∧
    (txn_pure (view e') ∅ t_cmp).1 = None ∧
    commit e' d = Some (e', Ok (rev e')).
Proof.
  eexists _, _. split; [|split; [|split]].
  - eapply run_get; [apply rtc_refl|].
    eapply run_env; [exists (OCommit d_both); vm_compute; reflexivity|].
    eapply run_get; [apply rtc_refl|]. vm_compute. apply run_ret.
  - by vm_compute.
  - by vm_compute.
  - by vm_compute.
Qed.

End Witness.
