(* ===== verification/Udec.v ===== *)
(** * Unsigned decimals (api/edgeproto/decimal.go)

    [Udec64] is a decimal with a 64-bit whole part and nine places after the
    point: the specification is its value in billionths, and arithmetic is
    arithmetic modulo 2^64 wholes. *)

From S2P Require Export GoStd.

Local Open Scope Z_scope.

Module Udec.

(** ** Data *)

Record Udec64 := mkUdec { Whole : Z; Nanos : Z }.

#[export] Instance Udec64_eq_dec : EqDecision Udec64.
Proof. solve_decision. Defined.

Definition DecNanos : Z := 1.
Definition DecMicros : Z := u32 (1000 * DecNanos).
Definition DecMillis : Z := u32 (1000 * DecMicros).
Definition DecWhole : Z := u32 (1000 * DecMillis).
Definition DecPrecision : nat := 9.

Definition NewUdec64 (whole nanos : Z) : Udec64 :=
  mkUdec (u64 (whole + nanos / DecWhole)) (nanos mod DecWhole).

(** ** Comparison *)

Definition Cmp (a b : Udec64) : Z :=
  if decide (Whole b < Whole a) then 1
  else if decide (Whole a < Whole b) then -1
  else if decide (Nanos b < Nanos a) then 1
  else if decide (Nanos a < Nanos b) then -1
  else 0.
Definition GreaterThan (a b : Udec64) : bool := Cmp a b =? 1.
Definition Equal (a b : Udec64) : bool := Cmp a b =? 0.
Definition LessThan (a b : Udec64) : bool := Cmp a b =? -1.

Definition CmpUint64 (a : Udec64) (val : Z) : Z :=
  if decide (val < Whole a) then 1
  else if decide (Whole a < val) then -1
  else if decide (0 < Nanos a) then 1
  else 0.
Definition GreaterThanUint64 (a : Udec64) (val : Z) : bool := CmpUint64 a val =? 1.
Definition EqualUint64 (a : Udec64) (val : Z) : bool := CmpUint64 a val =? 0.
Definition LessThanUint64 (a : Udec64) (val : Z) : bool := CmpUint64 a val =? -1.
Definition IsZero (a : Udec64) : bool := (Whole a =? 0) && (Nanos a =? 0).

(** ** Arithmetic: each method returns the new value of its receiver. *)

Definition Set_ (a : Udec64) (whole nanos : Z) : Udec64 := mkUdec whole nanos.

Definition Add (a b : Udec64) : Udec64 :=
  let nanos := u32 (Nanos a + Nanos b) in
  let wholeExtra := nanos / DecWhole in
  mkUdec (u64 (Whole a + u64 (Whole b + wholeExtra))) (nanos mod DecWhole).

Definition Sub (a b : Udec64) : Udec64 :=
  let whole := u64 (Whole a - Whole b) in
  if decide (Nanos b ≤ Nanos a) then mkUdec whole (u32 (Nanos a - Nanos b))
  else mkUdec (u64 (whole - 1)) (u32 (u32 (DecWhole + Nanos a) - Nanos b)).

(** Returns also the new value of the flag. *)
Definition SubFloor (a b : Udec64) (underflow : bool) : Udec64 * bool :=
  if LessThan a b then (mkUdec 0 0, true) else (Sub a b, underflow).

Definition AddUint64 (a : Udec64) (val : Z) : Udec64 := mkUdec (u64 (Whole a + val)) (Nanos a).
Definition SubUint64 (a : Udec64) (val : Z) : Udec64 := mkUdec (u64 (Whole a - val)) (Nanos a).
Definition Uint64 (a : Udec64) : Z := Whole a.
Definition Ceil (a : Udec64) : Z :=
  if decide (Nanos a = 0) then Whole a else u64 (Whole a + 1).
Definition Float (a : Udec64) : float64 :=
  f64_add (f64_of_Z (Whole a)) (f64_div (f64_of_Z (Nanos a)) (f64_of_Z DecWhole)).

Definition Mult (a : Udec64) (factor : Z) : Udec64 :=
  if decide (factor = 1) then a
  else if decide (factor = 0) then mkUdec 0 0
  else
    let whole := u64 (Whole a * factor) in
    let nanos := u64 (Nanos a * factor) in
    let wholeExtra := nanos / DecWhole in
    mkUdec (u64 (whole + wholeExtra)) (u32 (nanos mod DecWhole)).

(** ** Text *)

Fixpoint scale_nanos (n : nat) (nanos : Z) : Z :=
  match n with O => nanos | S n' => scale_nanos n' (u32 (nanos * 10)) end.

Definition ParseUdec64 (str : string) : result Udec64 :=
  let vals := split "." str in
  if decide (2 < length vals)%nat then Err "Too many decimal points"
  else
    whole ← map_err (λ e, "Parsing whole number " +:+ default "" (vals !! 0%nat)
                          +:+ " failed, " +:+ e)
              (ParseUint (default "" (vals !! 0%nat)) 64);
    match vals !! 1%nat with
    | None => Ok (mkUdec whole 0)
    | Some dec =>
        let precision := String.length dec in
        if decide (DecPrecision < precision)%nat
        then Err "Decimal precision cannot be smaller than nanos"
        else
          nanos64 ← map_err (λ e, "Parsing decimal number " +:+ dec +:+ " failed, " +:+ e)
                      (ParseUint dec 32);
          Ok (mkUdec whole (scale_nanos (DecPrecision - precision) (u32 nanos64)))
    end.

Fixpoint pad_zeros (n : nat) (s : string) : string :=
  match n with O => s | S n' => pad_zeros n' ("0" +:+ s) end.

Definition DecString (u : Udec64) : string :=
  if decide (Nanos u = 0) then fmt_u (Whole u)
  else
    let decStr := fmt_u (Nanos u) in
    let decStr := pad_zeros (DecPrecision - String.length decStr) decStr in
    let decStr := trim_right (λ c, bool_decide (c = "0"%char)) decStr in
    fmt_u (Whole u) +:+ "." +:+ decStr.

(** A JSON value, as far as decoding it to a string or a uint64 tells it. *)
Inductive json := JNull | JString (s : string) | JUint (z : Z) | JOther (text : string).

Definition unmarshal_string (j : json) : option string :=
  match j with JNull => Some "" | JString s => Some s | _ => None end.
Definition unmarshal_uint64 (j : json) : option Z :=
  match j with JUint z => Some z | _ => None end.

Definition MarshalJSON (u : Udec64) : json :=
  if decide (Nanos u = 0) then JUint (Whole u) else JString (DecString u).

(** Decoding into the receiver [u]. *)
Definition UnmarshalJSON (u : Udec64) (b : json) : result Udec64 :=
  match unmarshal_string b with
  | Some str => map_err (λ _, "json: cannot unmarshal string " +:+ str) (ParseUdec64 str)
  | None =>
      match unmarshal_uint64 b with
      | Some val => Ok (mkUdec val (Nanos u))
      | None => Err "json: cannot unmarshal value"
      end
  end.

(** YAML: the decoder's callback as its results for a string and for a uint64. *)
Definition UnmarshalYAML (u : Udec64) (as_string : option string) (as_uint64 : option Z)
    : result Udec64 :=
  match as_string with
  | Some str => ParseUdec64 str
  | None =>
      match as_uint64 with
      | Some val => Ok (mkUdec val (Nanos u))
      | None => Err "Invalid unsigned decimal 64 type"
      end
  end.
Definition MarshalYAML (u : Udec64) : Z + string :=
  if decide (Nanos u = 0) then inl (Whole u) else inr (DecString u).

(** ** Specification *)

(** Billionths. *)
Definition value (u : Udec64) : Z := Whole u * 1000000000 + Nanos u.
Definition wf (u : Udec64) : Prop := is_u64 (Whole u) ∧ 0 ≤ Nanos u < 1000000000.
(** The range of values: 2^64 wholes. *)
Definition modulus : Z := 2 ^ 64 * 1000000000.

Lemma value_range u : wf u → 0 ≤ value u < modulus.
Proof. unfold wf, is_u, value, modulus. lia. Qed.

Lemma value_inj a b : wf a → wf b → value a = value b → a = b.
Proof.
  destruct a as [aw an], b as [bw bn]. unfold wf, value; simpl. intros. f_equal; lia.
Qed.

(** A representation is determined by its value modulo the range. *)
Lemma value_mod u z q : wf u → value u = z + q * modulus → value u = z mod modulus.
Proof.
  intros Hu H. apply value_range in Hu. apply (Z.mod_unique _ _ (- q)); lia.
Qed.

Lemma DecWhole_eq : DecWhole = 1000000000.
Proof. done. Qed.

Lemma u64_quot z : ∃ q, u64 z = z + q * 2 ^ 64 ∧ 0 ≤ u64 z < 2 ^ 64.
Proof.
  exists (- (z / 2 ^ 64)). unfold wrap_u.
  pose proof (Z.div_mod z (2 ^ 64) ltac:(lia)).
  pose proof (Z.mod_pos_bound z (2 ^ 64) ltac:(lia)). lia.
Qed.
Lemma u32_id z : 0 ≤ z < 2 ^ 32 → u32 z = z.
Proof. apply wrap_u_small. Qed.

Lemma Cmp_value a b : wf a → wf b →
  Cmp a b = match value a ?= value b with Gt => 1 | Lt => -1 | Eq => 0 end.
Proof.
  unfold wf, Cmp, value. intros. destruct (Z.compare_spec
    (Whole a * 1000000000 + Nanos a) (Whole b * 1000000000 + Nanos b));
    repeat case_decide; lia.
Qed.

(** The new whole part and the nanos, both in range, with the right sum. *)
Lemma wf_value_intro w n z q :
  0 ≤ n < 1000000000 → is_u64 w → w * 1000000000 + n = z + q * modulus →
  wf (mkUdec w n) ∧ value (mkUdec w n) = z mod modulus.
Proof.
  intros Hn Hw Hz. assert (Hwf : wf (mkUdec w n)) by done.
  split; [done|]. by eapply value_mod.
Qed.

Ltac wrap64 z := let q := fresh "q" in let H := fresh "Hq" in
  destruct (u64_quot z) as (q & H & ?).

Lemma Add_value a b : wf a → wf b →
  wf (Add a b) ∧ value (Add a b) = (value a + value b) mod modulus.
Proof.
  intros [Ha Han] [Hb Hbn]. unfold Add. rewrite DecWhole_eq, u32_id by lia.
  set (n := Nanos a + Nanos b).
  pose proof (Z.div_mod n 1000000000 ltac:(lia)) as Hdm.
  pose proof (Z.mod_pos_bound n 1000000000 ltac:(lia)) as Hmb.
  wrap64 (Whole b + n / 1000000000).
  wrap64 (Whole a + u64 (Whole b + n / 1000000000)).
  eapply (wf_value_intro _ _ _ (q + q0)); [done|done|].
  unfold value, modulus. lia.
Qed.

Lemma Sub_value a b : wf a → wf b →
  wf (Sub a b) ∧ value (Sub a b) = (value a - value b) mod modulus.
Proof.
  intros [Ha Han] [Hb Hbn]. unfold Sub. rewrite DecWhole_eq.
  wrap64 (Whole a - Whole b).
  case_decide.
  - rewrite u32_id by lia. eapply (wf_value_intro _ _ _ q); [lia|done|].
    unfold value, modulus. lia.
  - rewrite (u32_id (_ + _)), u32_id by lia. wrap64 (u64 (Whole a - Whole b) - 1).
    eapply (wf_value_intro _ _ _ (q + q0)); [lia|done|]. unfold value, modulus. lia.
Qed.

Lemma Mult_value a f : wf a → is_u32 f →
  wf (Mult a f) ∧ value (Mult a f) = (value a * f) mod modulus.
Proof.
  intros Hwf Hf. pose proof (value_range a Hwf) as Hr. pose proof Hwf as [Ha Han].
  unfold Mult. case_decide; [|case_decide].
  - subst. split; [done|]. rewrite Z.mul_1_r. symmetry. by apply Z.mod_small.
  - subst. split; [done|]. by rewrite Z.mul_0_r.
  - rewrite DecWhole_eq. unfold is_u in Hf.
    rewrite (wrap_u_small 64 (Nanos a * f)) by (unfold is_u; nia).
    set (n := Nanos a * f).
    pose proof (Z.div_mod n 1000000000 ltac:(lia)) as Hdm.
    pose proof (Z.mod_pos_bound n 1000000000 ltac:(lia)) as Hmb.
    rewrite u32_id by lia.
    wrap64 (Whole a * f). wrap64 (u64 (Whole a * f) + n / 1000000000).
    eapply (wf_value_intro _ _ _ (q + q0)); [done|done|].
    unfold value, modulus. subst n. nia.
Qed.

(** ** Printing and parsing *)

Lemma scale_nanos_pow n z :
  0 ≤ z → z * 10 ^ Z.of_nat n < 2 ^ 32 → scale_nanos n z = z * 10 ^ Z.of_nat n.
Proof.
  revert z. induction n as [|n IH]; intros z Hz Hlt; cbn [scale_nanos]; [simpl; lia|].
  rewrite Nat2Z.inj_succ, Z.pow_succ_r in Hlt |- * by lia.
  pose proof (Z.pow_pos_nonneg 10 (Z.of_nat n) ltac:(lia) ltac:(lia)).
  rewrite u32_id by nia. rewrite IH by nia. lia.
Qed.

Lemma pad_zeros_eq n s : pad_zeros n s = str_rep n "0" +:+ s.
Proof.
  revert s. induction n as [|n IH]; intros s; [done|]. cbn [pad_zeros]. rewrite IH.
  clear IH. induction n as [|n IH]; [done|]. exact (f_equal (String "0") IH).
Qed.

Lemma parse_u z bits : 0 ≤ z < 2 ^ bits → ParseUint (fmt_u z) bits = Ok z.
Proof. apply ParseUint_fmt_u. Qed.

(** The decimals of [n] nanos: at most nine digits, whose value scaled back is [n]. *)
Definition decimals (n : Z) : string :=
  trim_right (λ c, bool_decide (c = "0"%char))
    (pad_zeros (DecPrecision - String.length (fmt_u n)) (fmt_u n)).

Lemma decimals_spec n : 0 < n < 1000000000 →
  let d := decimals n in
  str_all is_digit d = true ∧ d ≠ "" ∧ (String.length d ≤ 9)%nat ∧
  str_val 0 d * 10 ^ Z.of_nat (9 - String.length d) = n ∧
  0 ≤ str_val 0 d < 2 ^ 32.
Proof.
  intros Hn d. unfold d, decimals.
  assert (Hlen : (String.length (fmt_u n) ≤ 9)%nat).
  { apply length_pretty_N; [|lia]. change (10 ^ N.of_nat 9)%N with 1000000000%N. lia. }
  set (p := pad_zeros _ _).
  assert (Hp : str_all is_digit p = true ∧ String.length p = 9%nat ∧ str_val 0 p = n).
  { unfold p, DecPrecision. rewrite pad_zeros_eq. split; [|split].
    - rewrite str_all_app, str_all_rep by done. apply pretty_N_digits.
    - rewrite length_str_app, length_str_rep. lia.
    - rewrite str_val_app, str_val_zeros. unfold fmt_u. rewrite str_val_pretty. lia. }
  destruct Hp as (Hd & Hl & Hv).
  destruct (trim_right_spec "0" p) as [k Hk].
  pose proof (trim_right_all (λ c, bool_decide (c = "0"%char)) is_digit p Hd) as Ht.
  set (t := trim_right _ p) in *.
  assert (Hlk : (String.length t + k = 9)%nat).
  { trans (String.length (t +:+ str_rep k "0"));
      [by rewrite length_str_app, length_str_rep|by rewrite <- Hk]. }
  assert (Hvk : str_val 0 t * 10 ^ Z.of_nat k = n).
  { trans (str_val 0 (t +:+ str_rep k "0"));
      [by rewrite str_val_app, str_val_zeros|by rewrite <- Hk]. }
  pose proof (str_val_ge 0 t ltac:(lia) Ht) as Hge.
  pose proof (Z.pow_pos_nonneg 10 (Z.of_nat k) ltac:(lia) ltac:(lia)) as Hpow.
  split; [done|]. split; [|split; [lia|split]].
  - intros Ht0. rewrite Ht0 in Hvk. simpl in Hvk. lia.
  - by replace (9 - String.length t)%nat with k by lia.
  - split; [done|]. nia.
Qed.

Lemma ParseUint_digits s bits :
  str_all is_digit s = true → s ≠ "" → str_val 0 s < 2 ^ bits →
  ParseUint s bits = Ok (str_val 0 s).
Proof.
  intros Hd Hne Hlt. unfold ParseUint. destruct s as [|c s]; [done|].
  by rewrite parse_digits_val by (done || lia).
Qed.

Lemma fmt_u_split z : split "." (fmt_u z) = [fmt_u z].
Proof. apply split_avoids, digits_avoid; [done|apply pretty_N_digits]. Qed.

Lemma DecString_eq u :
  DecString u = if decide (Nanos u = 0) then fmt_u (Whole u)
                else fmt_u (Whole u) +:+ String "." (decimals (Nanos u)).
Proof. done. Qed.

Lemma Parse_DecString u : wf u → ParseUdec64 (DecString u) = Ok u.
Proof.
  intros [Hw Hn]. destruct u as [w n]; unfold is_u in Hw; simpl in *.
  unfold ParseUdec64. rewrite DecString_eq. simpl.
  destruct (decide (n = 0)) as [->|Hz].
  - rewrite fmt_u_split. simpl. by rewrite parse_u by lia.
  - destruct (decimals_spec n) as (Hd & Hne & Hlen & Hv & Hr); [lia|].
    rewrite (split_app "." (fmt_u w) (decimals n))
      by (apply digits_avoid; [done|apply pretty_N_digits]).
    rewrite (split_avoids "." (decimals n)) by by apply digits_avoid.
    simpl. rewrite parse_u by lia. simpl.
    rewrite decide_False by (unfold DecPrecision; lia).
    rewrite ParseUint_digits by (done || lia). simpl. f_equal. f_equal.
    unfold DecPrecision. rewrite u32_id by lia. rewrite scale_nanos_pow by lia. done.
Qed.

(** ** Comparison *)

Lemma LessThan_value a b : wf a → wf b → LessThan a b = true ↔ value a < value b.
Proof.
  intros. unfold LessThan. rewrite Cmp_value by done.
  destruct (Z.compare_spec (value a) (value b)); by split; [done || lia|done || lia].
Qed.
Lemma GreaterThan_value a b : wf a → wf b → GreaterThan a b = true ↔ value b < value a.
Proof.
  intros. unfold GreaterThan. rewrite Cmp_value by done.
  destruct (Z.compare_spec (value a) (value b)); by split; [done || lia|done || lia].
Qed.
Lemma Equal_value a b : wf a → wf b → Equal a b = true ↔ a = b.
Proof.
  intros Ha Hb. unfold Equal. rewrite Cmp_value by done.
  destruct (Z.compare_spec (value a) (value b)) as [Heq|Hlt|Hgt]; split; try done.
  - intros _. by apply value_inj.
  - intros ->. lia.
  - intros ->. lia.
Qed.
Lemma Ceil_value a : wf a → Whole a < 2 ^ 64 - 1 →
  Ceil a * 1000000000 - 1000000000 < value a ≤ Ceil a * 1000000000.
Proof.
  intros [Ha Hn] Hw. unfold is_u in Ha. unfold Ceil, value.
  case_decide; [lia|]. rewrite wrap_u_small by (unfold is_u; lia). lia.
Qed.

(** ** Properties *)

(** C37: on decimals in range (64-bit whole part, less than 10^9 nanos), addition,
    subtraction and multiplication by a uint32 are exact arithmetic on
    billionths modulo 2^64 wholes, carries and borrows included, and keep the
    representation in range; so they are exact whenever the true result is
    in range. *)
Theorem arith_exact a b f :
  wf a → wf b → is_u32 f →
  (wf (Add a b) ∧ value (Add a b) = (value a + value b) mod modulus) ∧
  (wf (Sub a b) ∧ value (Sub a b) = (value a - value b) mod modulus) ∧
  (wf (Mult a f) ∧ value (Mult a f) = (value a * f) mod modulus).
Proof.
  intros. split; [by apply Add_value|]. split; [by apply Sub_value|by apply Mult_value].
Qed.

(** [Cmp] orders decimals by their value, [SubFloor] is subtraction that
    stops at zero and raises the underflow flag exactly when it had to stop
    (and never lowers it), and [Ceil] is the least whole number not below the
    value, unless that is 2^64, which wraps to 0. *)
Theorem order_and_floor a b flag :
  wf a → wf b →
  (LessThan a b = true ↔ value a < value b) ∧
  (Equal a b = true ↔ a = b) ∧
  (GreaterThan a b = true ↔ value b < value a) ∧
  value (SubFloor a b flag).1 = Z.max 0 (value a - value b) ∧
  (SubFloor a b flag).2 = (flag || (value a <? value b)) ∧
  (Whole a < 2 ^ 64 - 1 →
     Ceil a * 1000000000 - 1000000000 < value a ≤ Ceil a * 1000000000).
Proof.
  intros Ha Hb. pose proof (value_range a Ha). pose proof (value_range b Hb).
  rewrite LessThan_value, GreaterThan_value, Equal_value by done.
  split; [done|]. split; [done|]. split; [done|].
  split; [|split; [|by apply Ceil_value]].
  all: unfold SubFloor; pose proof (LessThan_value a b Ha Hb) as Hl;
    destruct (LessThan a b); simpl.
  - unfold value at 1. simpl. apply proj1 in Hl. specialize (Hl eq_refl). lia.
  - rewrite (proj2 (Sub_value a b Ha Hb)), Z.mod_small; [|]; destruct (Z.ltb_spec (value a) (value b)); naive_solver lia.
  - destruct (Z.ltb_spec (value a) (value b)); destruct flag; naive_solver lia.
  - destruct (Z.ltb_spec (value a) (value b)); destruct flag; naive_solver lia.
Qed.

(** Parsing the decimal string of any decimal in range gives the decimal back. *)
Theorem ParseUdec64_DecString u : wf u → ParseUdec64 (DecString u) = Ok u.
Proof. apply Parse_DecString. Qed.

(** Decoding the JSON encoding of a decimal (a number when it is whole, a
    string otherwise) into a receiver whose nanos are zero, or of a decimal
    that is not whole into any receiver, gives the decimal back; a whole number
    decoded into another receiver keeps the receiver's nanos. *)
Theorem json_roundtrip u0 u :
  wf u →
  UnmarshalJSON u0 (MarshalJSON u) =
    Ok (mkUdec (Whole u) (if decide (Nanos u = 0) then Nanos u0 else Nanos u)).
Proof.
  intros Hu. unfold UnmarshalJSON, MarshalJSON. case_decide as Hn; simpl; [done|].
  rewrite Parse_DecString by done. by destruct u.
Qed.

Lemma wf_small w n : bool_decide (0 ≤ w < 2 ^ 64 ∧ 0 ≤ n < 1000000000) = true →
  wf (mkUdec w n).
Proof. rewrite bool_decide_eq_true. by intros [? ?]. Qed.

Lemma arith_exact_witness :
  value (Add (mkUdec 3 700000000) (mkUdec 0 500000000)) = 4200000000 ∧
  value (Sub (mkUdec 3 200000000) (mkUdec 0 500000000)) = 2700000000 ∧
  value (Mult (mkUdec 3 700000000) 3) = 11100000000.
Proof.
  assert (Hwf : wf (mkUdec 3 700000000) ∧ wf (mkUdec 0 500000000) ∧ wf (mkUdec 3 200000000))
    by (split; [|split]; by apply wf_small).
  destruct Hwf as (Ha & Hb & Hc). assert (Hf : is_u32 3) by done.
  split; [|split].
  - rewrite (proj2 (proj1 (arith_exact _ _ 3 Ha Hb Hf))). reflexivity.
  - rewrite (proj2 (proj1 (proj2 (arith_exact _ _ 3 Hc Hb Hf)))). reflexivity.
  - rewrite (proj2 (proj2 (proj2 (arith_exact _ _ 3 Ha Hb Hf)))). reflexivity.
Defined.

Lemma order_and_floor_witness :
  LessThan (mkUdec 1 5) (mkUdec 1 6) = true ∧
  (SubFloor (mkUdec 1 5) (mkUdec 1 6) false).2 = true ∧ Ceil (mkUdec 1 5) = 2.
Proof.
  destruct (order_and_floor (mkUdec 1 5) (mkUdec 1 6) false)
    as (H1 & _ & _ & _ & H2 & _); [by apply wf_small..|].
  split; [by apply H1|]. split; [exact H2|done].
Defined.

Lemma ParseUdec64_DecString_witness :
  ParseUdec64 "12.05" = Ok (mkUdec 12 50000000).
Proof.
  assert (H : DecString (mkUdec 12 50000000) = "12.05") by by vm_compute.
  rewrite <- H. apply ParseUdec64_DecString. by apply wf_small.
Defined.

Lemma json_roundtrip_witness :
  UnmarshalJSON (mkUdec 0 250000000) (MarshalJSON (mkUdec 3 0)) = Ok (mkUdec 3 250000000).
Proof. apply json_roundtrip. by apply wf_small. Defined.

End Udec.
