(* ===== verification/NodeRes.v ===== *)
(** * Node, pool and Kubernetes resources
    (api/edgeproto/resources.go, pkg/cloudcommon/infraresources.go)

    The records of the API as far as resource accounting reads them, their
    validation, the conversions from a flavor, resource keys and GPU counts.
    A pointer is an [option]; a slice of GPUs is a list (a nil slice has no
    elements), but for the flavor, where nil and empty are told apart. *)

From S2P Require Export Udec.
Export Udec.

Local Open Scope Z_scope.

(** ** Data *)

Record GPUResource := mkGPU {
  ModelId : string; Count : Z; Vendor : string; Memory : Z; InUse : Z }.

Record NodeResources := mkNodeResources {
  nr_Vcpus : Z;
  nr_Ram : Z;
  nr_Disk : Z;
  nr_Gpus : list GPUResource;
  nr_OptResMap : gmap string string;
  nr_InfraNodeFlavor : string;
  nr_ExternalVolumeSize : Z;
}.

Record NodePool := mkNodePool {
  np_Name : string;
  np_NumNodes : Z;
  np_NodeResources : option NodeResources;
  np_Scalable : bool;
}.

Record NodePoolTopology := mkTopology {
  MinNodeVcpus : Z;
  MinNodeMemory : Z;
  MinNodeDisk : Z;
  MinNodeGpus : list GPUResource;
  MinNodeOptRes : gmap string string;
  MinNumberOfNodes : Z;
}.

Record NodePoolResources := mkNodePoolResources {
  TotalVcpus : Udec64;
  TotalMemory : Z;
  TotalDisk : Z;
  TotalGpus : list GPUResource;
  TotalOptRes : gmap string string;
  Topology : NodePoolTopology;
}.

Record KubernetesResources := mkKubernetesResources {
  CpuPool : option NodePoolResources;
  GpuPool : option NodePoolResources;
  MinKubernetesVersion : string;
}.

Record Flavor := mkFlavor {
  f_Name : string;
  f_Ram : Z;
  f_Vcpus : Z;
  f_Disk : Z;
  f_Gpus : option (list GPUResource);
  f_OptResMap : gmap string string;
}.

Record FlavorInfo := mkFlavorInfo {
  fi_Name : string;
  fi_Vcpus : Z;
  fi_Ram : Z;
  fi_Disk : Z;
  fi_Gpus : list GPUResource;
  fi_PropMap : gmap string string;
}.
Abbreviation FlavorLookup := (gmap string FlavorInfo).

(** The resource part of a cluster instance. *)
Record ClusterInst := mkClusterInst {
  ci_NodePools : list NodePool;
  ci_NodeResources : option NodeResources;
}.

Record InfraResource := mkInfraResource {
  ir_Name : string;
  ir_Value : Z;
  InfraMaxValue : Z;
  QuotaMaxValue : Z;
  ir_Units : string;
  ir_Type : string;
  ir_AlertThreshold : Z;
}.

Record ResourceQuota := mkResourceQuota {
  rq_Name : string;
  rq_Value : Z;
  rq_AlertThreshold : Z;
  rq_ResourceType : string;
}.

Definition emptyNodeResources : NodeResources := mkNodeResources 0 0 0 [] ∅ "" 0.
Definition emptyTopology : NodePoolTopology := mkTopology 0 0 0 [] ∅ 0.
Definition emptyNodePoolResources : NodePoolResources :=
  mkNodePoolResources (mkUdec 0 0) 0 0 [] ∅ emptyTopology.

Definition DefaultNodePoolName : string := "defaultpool".

(** ** Validation *)

Definition NodeResources_Validate (s : option NodeResources) : result unit :=
  match s with
  | None => Err "missing node resources"
  | Some s =>
      if decide (nr_Vcpus s = 0) then Err "vcpus must be greater than 0"
      else if decide (nr_Ram s = 0) then Err "memory must be greater than 0"
      else Ok tt
  end.

Definition NodePool_Validate (s : NodePool) : result unit :=
  if decide (np_Name s = "") then Err "missing name"
  else if decide (np_NumNodes s = 0) then Err "num nodes must be greater than 0"
  else
    match np_NodeResources s with
    | None => Err "missing node resources"
    | Some _ => NodeResources_Validate (np_NodeResources s)
    end.

(** Sets the number of nodes of the topology when it is missing. *)
Definition NodePoolResources_Validate (s : NodePoolResources) : result NodePoolResources :=
  if IsZero (TotalVcpus s) then Err "total required vcpus must be greater than 0"
  else if decide (TotalMemory s ≤ 0)
  then Err "total required memory must be greater than 0"
  else if decide (MinNumberOfNodes (Topology s) ≤ 0) then
    let t := Topology s in
    Ok (mkNodePoolResources (TotalVcpus s) (TotalMemory s) (TotalDisk s) (TotalGpus s)
          (TotalOptRes s)
          (mkTopology (MinNodeVcpus t) (MinNodeMemory t) (MinNodeDisk t) (MinNodeGpus t)
             (MinNodeOptRes t) 1))
  else Ok s.

Definition validate_pool (pre : string) (s : option NodePoolResources)
    : result (option NodePoolResources) :=
  match s with
  | None => Ok None
  | Some p => Some <$> map_err (λ e, pre +:+ " pool " +:+ e) (NodePoolResources_Validate p)
  end.

Definition KubernetesResources_Validate (s : option KubernetesResources)
    : result KubernetesResources :=
  match s with
  | None => Err "missing kubernetes resources"
  | Some s =>
      match CpuPool s, GpuPool s with
      | None, None => Err "no pools specified"
      | _, _ =>
          cpu ← validate_pool "cpu" (CpuPool s);
          gpu ← validate_pool "gpu" (GpuPool s);
          match gpu with
          | Some p =>
              if decide (TotalGpus p = [] ∧ default "" (TotalOptRes p !! "gpu") = "")
              then Err "gpu pool has no gpus specified"
              else Ok (mkKubernetesResources cpu gpu (MinKubernetesVersion s))
          | None => Ok (mkKubernetesResources cpu gpu (MinKubernetesVersion s))
          end
      end
  end.

(** ** From a flavor *)

Definition gpus_of (g : option (list GPUResource)) : list GPUResource := default [] g.

Definition ToNodeResources (s : Flavor) : NodeResources :=
  mkNodeResources (f_Vcpus s) (f_Ram s) (f_Disk s) (gpus_of (f_Gpus s)) (f_OptResMap s) "" 0.

Definition ToKubernetesResources (s : Flavor) : KubernetesResources :=
  let pool := mkNodePoolResources (NewUdec64 (f_Vcpus s) 0) (f_Ram s) 0 (gpus_of (f_Gpus s)) ∅
                (mkTopology (f_Vcpus s) (f_Ram s) 0 (gpus_of (f_Gpus s)) ∅ 0) in
  let gpuCount := match f_OptResMap s !! "gpu" with Some _ => 1 | None => 0 end in
  if decide (0 < gpuCount) then mkKubernetesResources None (Some pool) ""
  else mkKubernetesResources (Some pool) None "".

Definition NodeResources_SetFromFlavor (s : NodeResources) (flavor : Flavor) : NodeResources :=
  mkNodeResources (f_Vcpus flavor) (f_Ram flavor) (f_Disk flavor) (gpus_of (f_Gpus flavor))
    (f_OptResMap flavor) (nr_InfraNodeFlavor s) (nr_ExternalVolumeSize s).

Definition NodePool_SetFromFlavor (s : NodePool) (flavor : Flavor) : NodePool :=
  let nr := default emptyNodeResources (np_NodeResources s) in
  mkNodePool (np_Name s) (np_NumNodes s) (Some (NodeResources_SetFromFlavor nr flavor))
    (np_Scalable s).

Definition pool_SetFromFlavor (p : NodePoolResources) (flavor : Flavor) : NodePoolResources :=
  let g := gpus_of (f_Gpus flavor) in
  mkNodePoolResources (NewUdec64 (f_Vcpus flavor) 0) (f_Ram flavor) (f_Disk flavor) g
    (f_OptResMap flavor)
    (mkTopology (f_Vcpus flavor) (f_Ram flavor) (f_Disk flavor) g (f_OptResMap flavor)
       (MinNumberOfNodes (Topology p))).
Definition KubernetesResources_SetFromFlavor (s : KubernetesResources) (flavor : Flavor)
    : KubernetesResources :=
  match f_Gpus flavor with
  | Some _ =>
      let pool := default emptyNodePoolResources (GpuPool s) in
      mkKubernetesResources (CpuPool s) (Some (pool_SetFromFlavor pool flavor))
        (MinKubernetesVersion s)
  | None =>
      let pool := default emptyNodePoolResources (CpuPool s) in
      mkKubernetesResources (Some (pool_SetFromFlavor pool flavor)) (GpuPool s)
        (MinKubernetesVersion s)
  end.

(** ** Cluster instance *)

Definition EnsureDefaultNodePool (s : ClusterInst) : ClusterInst :=
  match ci_NodePools s with
  | [] => mkClusterInst
            [mkNodePool DefaultNodePoolName 0 (Some emptyNodeResources) false]
            (ci_NodeResources s)
  | _ => s
  end.

Definition GetNumNodes (s : ClusterInst) : Z :=
  fold_left (λ n pool, u32 (n + np_NumNodes pool)) (ci_NodePools s) 0.

(** The last flavor of a name wins. *)
Definition GetFlavorLookup (flavors : list FlavorInfo) : FlavorLookup :=
  fold_left (λ m fi, <[fi_Name fi := fi]> m) flavors ∅.

(** ** Keys *)

Definition BuildResKey (resourceType name : string) : string :=
  if decide (resourceType = "") then name else resourceType +:+ "/" +:+ name.
Definition BuildResKeyDesc (resourceType name : string) : string :=
  if decide (resourceType = "") then name else resourceType +:+ " " +:+ name.
Definition ResourceQuota_ResKey (s : ResourceQuota) : string :=
  BuildResKey (rq_ResourceType s) (rq_Name s).
Definition InfraResource_ResKey (s : InfraResource) : string :=
  BuildResKey (ir_Type s) (ir_Name s).
Definition ResourceQuota_ResKeyDesc (s : ResourceQuota) : string :=
  BuildResKeyDesc (rq_ResourceType s) (rq_Name s).
Definition InfraResource_ResKeyDesc (s : InfraResource) : string :=
  BuildResKeyDesc (ir_Type s) (ir_Name s).

Definition WithCount (s : GPUResource) (count : Z) : GPUResource :=
  mkGPU (ModelId s) count (Vendor s) (Memory s) (InUse s).

(** ** GPU counts *)

(** Type, alias and count of an optional resource such as vgpu:A100:2. *)
Definition ParseOptResVal (resStr : string) : result (string * string * Z) :=
  let parse typ spec countStr second :=
    match Atoi countStr with
    | Err _ => Err ("non-numeric resource count " +:+ second +:+ " in optres value " +:+ resStr)
    | Ok count => Ok (typ, spec, count)
    end in
  match split ":" resStr with
  | [] | [_] => Err ("missing mandatory resource count for " +:+ resStr
                     +:+ ", ex: optresmap=gpu=gpu:1")
  | [typ; countStr] => parse typ "" countStr countStr
  | [typ; spec; countStr] => parse typ spec countStr spec
  | _ => Err ("invalid optresmap value " +:+ resStr
              +:+ ", should be of form gpu:1 or pci:T4:2")
  end.

Definition GetOptResGPUCount (optResMap : gmap string string) : Z :=
  match optResMap !! "gpu" with
  | None => 0
  | Some val =>
      match ParseOptResVal val with Ok (_, _, count) => u64 count | Err _ => 0 end
  end.

Definition GetGPUCount (gpus : list GPUResource) (optResMap : gmap string string) : Z :=
  let count := fold_left (λ n gpu, u64 (n + Count gpu)) gpus 0 in
  u64 (count + GetOptResGPUCount optResMap).

Definition NodeResourcesGPUCount (nr : option NodeResources) : Z :=
  match nr with None => 0 | Some nr => GetGPUCount (nr_Gpus nr) (nr_OptResMap nr) end.
Definition NodePoolResourcesGPUCount (npr : option NodePoolResources) : Z :=
  match npr with None => 0 | Some npr => GetGPUCount (TotalGpus npr) (TotalOptRes npr) end.
Definition KuberentesResourcesGPUCount (kr : option KubernetesResources) : Z :=
  match kr with
  | Some kr =>
      match GpuPool kr with
      | Some p => GetGPUCount (TotalGpus p) (TotalOptRes p)
      | None => 0
      end
  | None => 0
  end.
(** Of the resources of an application instance. *)
Definition AppInstGpuCount (kr : option KubernetesResources) (nr : option NodeResources) : Z :=
  match kr, nr with
  | Some _, _ => KuberentesResourcesGPUCount kr
  | None, Some _ => NodeResourcesGPUCount nr
  | None, None => 0
  end.

(** ** Properties *)

(** What a valid requirement guarantees to the code that places it. *)
Definition pool_ok (p : NodePoolResources) : Prop :=
  IsZero (TotalVcpus p) = false ∧ 0 < TotalMemory p ∧ 1 ≤ MinNumberOfNodes (Topology p).

Lemma validate_pool_ok pre s s' :
  validate_pool pre s = Ok s' →
  match s' with Some p => pool_ok p | None => s = None end.
Proof.
  unfold validate_pool, NodePoolResources_Validate, pool_ok. intros H.
  destruct s as [p|]; [|by inv_result].
  destruct (IsZero (TotalVcpus p)) eqn:Hz; [done|].
  repeat case_decide; simplify_eq/=; split; (done || (split; simpl; lia)).
Qed.

Lemma validate_pool_none pre s s' : validate_pool pre s = Ok s' → s' = None → s = None.
Proof. intros H%validate_pool_ok ->. done. Qed.

(** Kubernetes requirements that pass validation have a CPU or a GPU pool,
    each pool asks for vcpus and memory and for at least one node, a GPU pool
    asks for GPUs, and validating the result again changes nothing. *)
Theorem KubernetesResources_Validate_ok s s' :
  KubernetesResources_Validate s = Ok s' →
  (CpuPool s' ≠ None ∨ GpuPool s' ≠ None) ∧
  (∀ p, CpuPool s' = Some p → pool_ok p) ∧
  (∀ p, GpuPool s' = Some p →
     pool_ok p ∧ (TotalGpus p ≠ [] ∨ default "" (TotalOptRes p !! "gpu") ≠ "")) ∧
  KubernetesResources_Validate (Some s') = Ok s'.
Proof.
  unfold KubernetesResources_Validate at 1. intros H. destruct s as [s|]; [|done].
  assert (Hsome : ¬ (CpuPool s = None ∧ GpuPool s = None)).
  { intros [H1 H2]. by rewrite H1, H2 in H. }
  assert (H' : validate_pool "cpu" (CpuPool s) ≫= (λ cpu,
    validate_pool "gpu" (GpuPool s) ≫= λ gpu,
    match gpu with
    | Some p =>
        if decide (TotalGpus p = [] ∧ default "" (TotalOptRes p !! "gpu") = "")
        then Err "gpu pool has no gpus specified"
        else Ok (mkKubernetesResources cpu gpu (MinKubernetesVersion s))
    | None => Ok (mkKubernetesResources cpu gpu (MinKubernetesVersion s))
    end) = Ok s').
  { by destruct (CpuPool s), (GpuPool s). }
  clear H. apply result_bind_ok in H' as (cpu & Hcpu & H).
  apply result_bind_ok in H as (gpu & Hgpu & H).
  pose proof (validate_pool_ok _ _ _ Hcpu) as Hc. pose proof (validate_pool_ok _ _ _ Hgpu) as Hg.
  assert (Hs : s' = mkKubernetesResources cpu gpu (MinKubernetesVersion s) ∧
    ∀ p, gpu = Some p → TotalGpus p ≠ [] ∨ default "" (TotalOptRes p !! "gpu") ≠ "").
  { destruct gpu as [p|]; [|by simplify_eq]. case_decide as Hd; simplify_eq.
    split; [done|]. intros p' [= <-].
    destruct (decide (TotalGpus p = [])); [|by left]. right. naive_solver. }
  destruct Hs as [-> Hgp]. simpl. split; [|split; [|split]].
  - destruct cpu, gpu; naive_solver.
  - by intros p ->.
  - intros p ->. auto.
  - assert (Hv : ∀ p, pool_ok p → NodePoolResources_Validate p = Ok p).
    { intros p (H1 & H2 & H3). unfold NodePoolResources_Validate. rewrite H1.
      by rewrite !decide_False by lia. }
    destruct cpu as [c|], gpu as [g|]; simpl; rewrite ?Hv by done; simpl;
      rewrite ?Hv by done; simpl; rewrite ?decide_False; try done;
      try (intros [H1 H2]; by destruct (Hgp _ eq_refl)).
    naive_solver.
Qed.

(** Resource keys identify resources: when resource types hold no slash and
    the names of untyped resources hold none either, two resources with the
    same key have the same type and name. *)
Theorem BuildResKey_inj t1 n1 t2 n2 :
  str_avoids "/" t1 → str_avoids "/" t2 →
  (t1 = "" → str_avoids "/" n1) → (t2 = "" → str_avoids "/" n2) →
  BuildResKey t1 n1 = BuildResKey t2 n2 → t1 = t2 ∧ n1 = n2.
Proof.
  intros Ht1 Ht2 Hn1 Hn2. unfold BuildResKey.
  assert (Hx : ∀ t n n', str_avoids "/" t → str_avoids "/" n' → t +:+ "/" +:+ n ≠ n').
  { intros t n n' Ht Hn' Heq. change ("/" +:+ n) with (String "/" n) in Heq. apply (f_equal (index_byte "/")) in Heq.
    rewrite (index_byte_none "/" n') in Heq by done.
    by rewrite (index_byte_app "/" t n) in Heq. }
  repeat case_decide; intros Heq.
  - by subst.
  - symmetry in Heq. exfalso. by eapply Hx, Heq; auto.
  - exfalso. by eapply Hx, Heq; auto.
  - change ("/" +:+ n1) with (String "/" n1) in Heq.
    change ("/" +:+ n2) with (String "/" n2) in Heq.
    assert (Hi : String.length t1 = String.length t2).
    { apply (f_equal (index_byte "/")) in Heq.
      rewrite (index_byte_app "/" t1 n1), (index_byte_app "/" t2 n2) in Heq by done.
      by injection Heq. }
    split.
    + apply (f_equal (str_take (String.length t1))) in Heq.
      by rewrite str_take_app, Hi, str_take_app in Heq.
    + apply (f_equal (str_drop (S (String.length t1)))) in Heq.
      rewrite (str_drop_app "/" t1 n1), Hi, (str_drop_app "/" t2 n2) in Heq. done.
Qed.

Definition sample_pool : NodePoolResources :=
  mkNodePoolResources (mkUdec 2 500000000) 4096 0 [] ∅ emptyTopology.

Lemma KubernetesResources_Validate_ok_witness :
  ∃ s', KubernetesResources_Validate (Some (mkKubernetesResources (Some sample_pool) None ""))
        = Ok s' ∧ (CpuPool s' ≠ None ∨ GpuPool s' ≠ None).
Proof.
  eexists. split; [reflexivity|].
  eapply (KubernetesResources_Validate_ok
    (Some (mkKubernetesResources (Some sample_pool) None ""))). reflexivity.
Defined.

Lemma BuildResKey_inj_witness : "gpu" = "gpu" ∧ "nvidia-t4" = "nvidia-t4".
Proof. by apply (BuildResKey_inj "gpu" "nvidia-t4" "gpu" "nvidia-t4"). Defined.
