(* ===== verification/ResVals.v ===== *)
(** * Resource value maps (pkg/resspec/resvals.go)

    Maps from resource keys to decimal amounts with their arithmetic.  The
    methods change the map they are called on and copy what they insert, so a
    map shares no value with another and a method returns the new map.  The
    specification reads a map as the function [amount] from keys to
    billionths. *)

From S2P Require Export NodeRes.

Local Open Scope Z_scope.

(** ** Constants (pkg/cloudcommon/infraresources.go) *)

Definition ResourceRamMb : string := "RAM".
Definition ResourceVcpus : string := "vCPUs".
Definition ResourceDiskGb : string := "Disk".
Definition ResourceRamUnits : string := "MB".
Definition ResourceDiskUnits : string := "GB".
Definition ResourceTypeGPU : string := "gpu".

(** ** Data *)

Record ResVal := mkResVal {
  rv_Name : string;
  rv_Units : string;
  rv_Value : Udec64;
  rv_ResourceType : string;
  rv_OptResMapKey : string;
  rv_OptResMapSpec : string;
}.

Definition NewDecimalResVal (name units : string) (value : Udec64) : ResVal :=
  mkResVal name units value "" "" "".
Definition NewWholeResVal (name units : string) (value : Z) : ResVal :=
  mkResVal name units (mkUdec value 0) "" "" "".
Definition NewWholeResTypeVal (resourceType name units : string) (value : Z) : ResVal :=
  mkResVal name units (mkUdec value 0) resourceType "" "".
Definition NewGPURes (name : string) (count : Z) : ResVal :=
  NewWholeResTypeVal ResourceTypeGPU name "" count.

Definition ResVal_Key (s : ResVal) : string := BuildResKey (rv_ResourceType s) (rv_Name s).
Definition ResVal_Clone (s : ResVal) : ResVal := s.
Definition AsInfraRes (s : ResVal) : InfraResource :=
  mkInfraResource (rv_Name s) (Whole (rv_Value s)) 0 0 (rv_Units s) (rv_ResourceType s) 0.
Definition FromInfraRes (infraRes : InfraResource) : ResVal :=
  mkResVal (ir_Name infraRes) (ir_Units infraRes) (mkUdec (ir_Value infraRes) 0)
    (ir_Type infraRes) "" "".

Definition set_value (s : ResVal) (v : Udec64) : ResVal :=
  mkResVal (rv_Name s) (rv_Units s) v (rv_ResourceType s) (rv_OptResMapKey s)
    (rv_OptResMapSpec s).

Abbreviation ResValMap := (gmap string ResVal).

(** ** Operations *)

Section Ops.
Context {GR : GoRange}.
Implicit Types s other : ResValMap.

Definition AddMult s (nres : ResVal) (factor : Z) : ResValMap :=
  let cp := set_value nres (Mult (rv_Value nres) factor) in
  let key := ResVal_Key nres in
  match s !! key with
  | Some existing => <[key := set_value existing (Udec.Add (rv_Value existing) (rv_Value cp))]> s
  | None => <[key := cp]> s
  end.
Definition Add s (nres : ResVal) : ResValMap := AddMult s nres 1.
Definition AddRes s (name units : string) (whole nanos : Z) : ResValMap :=
  Add s (NewDecimalResVal name units (NewUdec64 whole nanos)).
Definition AddVcpus s (whole nanos : Z) : ResValMap := AddRes s ResourceVcpus "" whole nanos.
Definition AddRam s (val : Z) : ResValMap := AddRes s ResourceRamMb ResourceRamUnits val 0.
Definition AddDisk s (val : Z) : ResValMap := AddRes s ResourceDiskGb ResourceDiskUnits val 0.
Definition AddGPU s (name : string) (count : Z) : ResValMap := Add s (NewGPURes name count).
Definition AddGPUs s (gpus : list GPUResource) (factor : Z) : ResValMap :=
  fold_left (λ s gpu, AddGPU s (ModelId gpu) (u32 (Count gpu * factor))) gpus s.

(** The value that the string of an optional resource adds. *)
Definition opt_res_val (resName val : string) (mult : Z) : result ResVal :=
  '(typ, alias, count) ← ParseOptResVal val;
  let parts := [resName] ++ (if decide (typ = "") then [] else [typ])
                         ++ (if decide (alias = "") then [] else [alias]) in
  let name := join ":" parts in
  let spec := str_take (default 0%nat (last_index ":" val)) val in
  Ok (mkResVal name "" (mkUdec (u64 (u64 count * mult)) 0) "" resName spec).
Definition AddOptRes s (resName val : string) (mult : Z) : result ResValMap :=
  nres ← opt_res_val resName val mult; Ok (Add s nres).

(** Stops at the first error. *)
Fixpoint add_opt_list s (l : list (string * string)) (count : Z) : result ResValMap :=
  match l with
  | [] => Ok s
  | (resName, val) :: l' => s' ← AddOptRes s resName val count; add_opt_list s' l' count
  end.
Definition AddOptResMap s (optResMap : gmap string string) (count : Z) : result ResValMap :=
  add_opt_list s (go_range optResMap) count.

(** What is in the map after an error, for the callers that go on with it. *)
Fixpoint add_opt_partial s (l : list (string * string)) (count : Z) : ResValMap :=
  match l with
  | [] => s
  | (resName, val) :: l' =>
      match AddOptRes s resName val count with Ok s' => add_opt_partial s' l' count | Err _ => s end
  end.

Definition AddAllMult s other (factor : Z) : ResValMap :=
  fold_left (λ s kv, AddMult s kv.2 factor) (go_range other) s.

Definition SubFloor s (nres : ResVal) (underflow : bool) : ResValMap * bool :=
  match s !! ResVal_Key nres with
  | Some existing =>
      let '(v, u) := Udec.SubFloor (rv_Value existing) (rv_Value nres) underflow in
      (<[ResVal_Key nres := set_value existing v]> s, u)
  | None => (s, underflow)
  end.
Definition SubFloorAll s other (underflow : bool) : ResValMap * bool :=
  fold_left (λ su kv, SubFloor su.1 kv.2 su.2) (go_range other) (s, underflow).

Definition GetInt s (resName : string) : Z :=
  match s !! resName with Some v => Whole (rv_Value v) | None => 0 end.
Definition Clone s : ResValMap :=
  fold_left (λ clone kv, Add clone (ResVal_Clone kv.2)) (go_range s) ∅.
Definition SortedKeys s : list string := sort_strings (go_range s).*1.
Definition String_ s : string :=
  join ", " ((λ resName,
    match s !! resName with
    | Some res => resName +:+ " " +:+ DecString (rv_Value res) +:+ rv_Units res
    | None => ""
    end) <$> SortedKeys s).

Definition AddNodeResources s (nr : option NodeResources) (count : Z) : result ResValMap :=
  match nr with
  | None => Ok s
  | Some nr =>
      let s := AddVcpus s (u64 (nr_Vcpus nr * count)) 0 in
      let s := AddRam s (u64 (nr_Ram nr * count)) in
      let s := AddDisk s (u64 (nr_Disk nr * count)) in
      let s := AddGPUs s (nr_Gpus nr) count in
      AddOptResMap s (nr_OptResMap nr) count
  end.
Definition AddNodeResources_partial s (nr : NodeResources) (count : Z) : ResValMap :=
  let s := AddVcpus s (u64 (nr_Vcpus nr * count)) 0 in
  let s := AddRam s (u64 (nr_Ram nr * count)) in
  let s := AddDisk s (u64 (nr_Disk nr * count)) in
  let s := AddGPUs s (nr_Gpus nr) count in
  add_opt_partial s (go_range (nr_OptResMap nr)) count.
Definition AddNodePoolResources s (npr : option NodePoolResources) : result ResValMap :=
  match npr with
  | None => Ok s
  | Some npr =>
      let s := AddVcpus s (Whole (TotalVcpus npr)) (Nanos (TotalVcpus npr)) in
      let s := AddRam s (TotalMemory npr) in
      let s := AddDisk s (TotalDisk npr) in
      let s := AddGPUs s (TotalGpus npr) 1 in
      AddOptResMap s (TotalOptRes npr) 1
  end.

(** [None] is the false of the code: nothing to compare. *)
Definition DivFactor s (nres : ResVal) : option Z :=
  match s !! ResVal_Key nres with
  | Some existing =>
      let nrVal := Float (rv_Value nres) in
      if f64_eqb nrVal f64_zero then None
      else Some (f64_to_u32 (f64_Ceil (f64_div (Float (rv_Value existing)) nrVal)))
  | None => None
  end.
Definition DivFactorLargest s other : Z :=
  fold_left (λ largest kv,
    match DivFactor s kv.2 with
    | Some factor => if decide (largest < factor) then factor else largest
    | None => largest
    end) (go_range other) 0.

End Ops.

(** ** Specification *)

(** The amount of a resource in a map, in billionths; 0 when it has none. *)
Definition amount (s : ResValMap) (key : string) : Z :=
  match s !! key with Some v => value (rv_Value v) | None => 0 end.

(** Every entry is under its own key and in range. *)
Definition rmap_wf (s : ResValMap) : Prop :=
  map_Forall (λ k v, ResVal_Key v = k ∧ wf (rv_Value v)) s.

Section Proofs.
Context {GR : GoRange}.
Implicit Types s other : ResValMap.

Lemma rmap_wf_empty : rmap_wf ∅.
Proof. apply map_Forall_empty. Qed.

Lemma rmap_wf_insert s k v :
  rmap_wf s → ResVal_Key v = k → wf (rv_Value v) → rmap_wf (<[k := v]> s).
Proof. intros. by apply map_Forall_insert_2. Qed.

Lemma rmap_wf_lookup s k v : rmap_wf s → s !! k = Some v → ResVal_Key v = k ∧ wf (rv_Value v).
Proof. intros H Hk. by apply (H k). Qed.

Lemma amount_range s k : rmap_wf s → 0 ≤ amount s k < modulus.
Proof.
  intros Hs. unfold amount. destruct (s !! k) as [v|] eqn:Hk.
  - apply value_range. by eapply rmap_wf_lookup.
  - by unfold modulus.
Qed.

Lemma amount_insert s k v k' :
  amount (<[k := v]> s) k' = if decide (k = k') then value (rv_Value v) else amount s k'.
Proof. unfold amount. rewrite lookup_insert. by case_decide. Qed.

Lemma AddMult_spec s nres f :
  rmap_wf s → wf (rv_Value nres) → is_u32 f →
  rmap_wf (AddMult s nres f) ∧
  ∀ k, amount (AddMult s nres f) k =
       if decide (ResVal_Key nres = k)
       then (amount s k + value (rv_Value nres) * f) mod modulus else amount s k.
Proof.
  intros Hs Hn Hf. destruct (Mult_value _ f Hn Hf) as [Hmw Hm]. unfold AddMult.
  destruct (s !! ResVal_Key nres) as [ex|] eqn:Hk; simpl.
  - destruct (rmap_wf_lookup _ _ _ Hs Hk) as [Hek Hew].
    destruct (Add_value _ _ Hew Hmw) as [Haw Ha]. split.
    + apply rmap_wf_insert; [done| |done]. by rewrite <- Hek.
    + intros k. rewrite amount_insert. case_decide as Hkk; [|done]. subst k. simpl.
      rewrite Ha, Hm, Zplus_mod_idemp_r. unfold amount. by rewrite Hk.
  - split; [by apply rmap_wf_insert|].
    intros k. rewrite amount_insert. case_decide as Hkk; [|done]. subst k. simpl.
    rewrite Hm. unfold amount. by rewrite Hk, Z.add_0_l.
Qed.

(** Folding over the entries of a well-formed map touches each key once. *)
Lemma AddAllMult_fold l s f :
  rmap_wf s → is_u32 f → NoDup l.*1 →
  Forall (λ kv, ResVal_Key kv.2 = kv.1 ∧ wf (rv_Value kv.2)) l →
  let s' := fold_left (λ s kv, AddMult s kv.2 f) l s in
  rmap_wf s' ∧
  ∀ k, amount s' k = match (list_to_map l : ResValMap) !! k with
                     | Some v => (amount s k + value (rv_Value v) * f) mod modulus
                     | None => amount s k
                     end.
Proof.
  intros Hs Hf Hnd Hl. revert s Hs. induction Hl as [|[k0 v0] l [Hk0 Hv0] Hl IH]; intros s Hs.
  - simpl. split; [done|]. intros k. by rewrite lookup_empty.
  - simpl in *. apply NoDup_cons in Hnd as [Hni Hnd].
    destruct (AddMult_spec s v0 f Hs Hv0 Hf) as [Hw Ha].
    destruct (IH Hnd _ Hw) as [Hw' Ha']. split; [done|]. intros k.
    rewrite Ha', lookup_insert, Ha, Hk0. case_decide as Hkk; [subst k|].
    + by rewrite not_elem_of_list_to_map_1 by done.
    + done.
Qed.

Lemma rmap_wf_range s :
  rmap_wf s → Forall (λ kv, ResVal_Key kv.2 = kv.1 ∧ wf (rv_Value kv.2)) (go_range s).
Proof.
  intros Hs. apply Forall_forall. intros [k v] Hin. apply elem_of_go_range in Hin.
  by eapply rmap_wf_lookup.
Qed.

Lemma AddAllMult_spec s other f :
  rmap_wf s → rmap_wf other → is_u32 f →
  rmap_wf (AddAllMult s other f) ∧
  ∀ k, amount (AddAllMult s other f) k = (amount s k + amount other k * f) mod modulus.
Proof.
  intros Hs Ho Hf. destruct (AddAllMult_fold (go_range other) s f Hs Hf
    (NoDup_go_range _) (rmap_wf_range _ Ho)) as [Hw Ha].
  split; [done|]. intros k. unfold AddAllMult. rewrite Ha, list_to_map_go_range.
  unfold amount at 4. destruct (other !! k); [done|].
  rewrite Z.mul_0_l, Z.add_0_r, Z.mod_small; [done|]. by apply amount_range.
Qed.

Lemma Clone_spec s :
  rmap_wf s → rmap_wf (Clone s) ∧ ∀ k, amount (Clone s) k = amount s k.
Proof.
  intros Hs. destruct (AddAllMult_spec ∅ s 1 rmap_wf_empty Hs ltac:(done)) as [Hw Ha].
  split; [done|]. intros k. unfold Clone, Add, ResVal_Clone. unfold AddAllMult in Ha.
  rewrite Ha, Z.mul_1_r. change (amount ∅ k) with 0.
  rewrite Z.add_0_l. apply Z.mod_small. by apply amount_range.
Qed.

Lemma Udec_SubFloor_spec a b u : wf a → wf b →
  wf (Udec.SubFloor a b u).1 ∧
  value (Udec.SubFloor a b u).1 = Z.max 0 (value a - value b) ∧
  (Udec.SubFloor a b u).2 = u || (value a <? value b).
Proof.
  intros Ha Hb. pose proof (value_range a Ha). pose proof (value_range b Hb).
  pose proof (LessThan_value a b Ha Hb) as Hl. unfold Udec.SubFloor.
  destruct (LessThan a b) eqn:Hlt; simpl.
  - apply proj1 in Hl. specialize (Hl eq_refl). split; [by split|].
    split; [unfold value at 1; simpl; lia|].
    destruct (Z.ltb_spec (value a) (value b)); [by destruct u|lia].
  - destruct (Sub_value a b Ha Hb) as [Hw Hv].
    assert (Hge : value b ≤ value a) by (destruct (decide (value a < value b)); naive_solver lia).
    split; [done|]. split; [rewrite Hv, Z.mod_small; lia|].
    destruct (Z.ltb_spec (value a) (value b)); [lia|by destruct u].
Qed.

Lemma SubFloor_spec s nres u :
  rmap_wf s → wf (rv_Value nres) →
  rmap_wf (SubFloor s nres u).1 ∧
  dom (SubFloor s nres u).1 = dom s ∧
  ∀ k, amount (SubFloor s nres u).1 k =
       if decide (ResVal_Key nres = k)
       then Z.max 0 (amount s k - value (rv_Value nres)) else amount s k.
Proof.
  intros Hs Hn. unfold SubFloor. pose proof (value_range _ Hn).
  destruct (s !! ResVal_Key nres) as [ex|] eqn:Hk; simpl.
  - destruct (rmap_wf_lookup _ _ _ Hs Hk) as [Hek Hew].
    destruct (Udec_SubFloor_spec (rv_Value ex) (rv_Value nres) u Hew Hn) as (Hw & Hv & _).
    destruct (Udec.SubFloor _ _ _) as [v u'] eqn:He. simpl in *.
    split; [|split].
    + apply rmap_wf_insert; [done| |done]. by rewrite <- Hek.
    + rewrite dom_insert_L. apply elem_of_dom_2 in Hk. set_solver.
    + intros k. rewrite amount_insert. case_decide as Hkk; [|done]. subst k. simpl.
      rewrite Hv. unfold amount. by rewrite Hk.
  - split; [done|]. split; [done|]. intros k. case_decide as Hkk; [|done]. subst k.
    unfold amount. rewrite Hk. lia.
Qed.

Lemma SubFloorAll_fold l s u :
  rmap_wf s → NoDup l.*1 →
  Forall (λ kv, ResVal_Key kv.2 = kv.1 ∧ wf (rv_Value kv.2)) l →
  let s' := (fold_left (λ su kv, SubFloor su.1 kv.2 su.2) l (s, u)).1 in
  rmap_wf s' ∧ dom s' = dom s ∧
  ∀ k, amount s' k = match (list_to_map l : ResValMap) !! k with
                     | Some v => Z.max 0 (amount s k - value (rv_Value v))
                     | None => amount s k
                     end.
Proof.
  intros Hs Hnd Hl. revert s u Hs.
  induction Hl as [|[k0 v0] l [Hk0 Hv0] Hl IH]; intros s u Hs.
  - simpl. split; [done|]. split; [done|]. intros k. by rewrite lookup_empty.
  - simpl in *. apply NoDup_cons in Hnd as [Hni Hnd].
    destruct (SubFloor_spec s v0 u Hs Hv0) as (Hw & Hd & Ha).
    destruct (SubFloor s v0 u) as [s1 u1]. simpl in *.
    destruct (IH Hnd s1 u1 Hw) as (Hw' & Hd' & Ha'). split; [done|].
    split; [congruence|]. intros k.
    rewrite Ha', lookup_insert, Ha, Hk0. case_decide as Hkk; [subst k|].
    + by rewrite not_elem_of_list_to_map_1 by done.
    + done.
Qed.

Lemma SubFloorAll_spec s other u :
  rmap_wf s → rmap_wf other →
  rmap_wf (SubFloorAll s other u).1 ∧
  dom (SubFloorAll s other u).1 = dom s ∧
  ∀ k, amount (SubFloorAll s other u).1 k = Z.max 0 (amount s k - amount other k).
Proof.
  intros Hs Ho. destruct (SubFloorAll_fold (go_range other) s u Hs
    (NoDup_go_range _) (rmap_wf_range _ Ho)) as (Hw & Hd & Ha).
  split; [done|]. split; [done|]. intros k. unfold SubFloorAll.
  rewrite Ha, list_to_map_go_range. unfold amount at 4.
  destruct (other !! k); [done|]. pose proof (amount_range s k Hs). lia.
Qed.

Lemma elem_of_SortedKeys s k : k ∈ SortedKeys s ↔ is_Some (s !! k).
Proof.
  unfold SortedKeys, sort_strings. rewrite merge_sort_Permutation, list_elem_of_fmap.
  split.
  - intros ([k' v] & -> & Hin). apply elem_of_go_range in Hin. by eexists.
  - intros [v Hv]. exists (k, v). split; [done|]. by apply elem_of_go_range.
Qed.

(** *** Building maps from resources *)

Lemma NewUdec64_spec w n : is_u64 w → 0 ≤ n < 1000000000 →
  NewUdec64 w n = mkUdec w n.
Proof.
  intros Hw Hn. unfold NewUdec64. rewrite DecWhole_eq.
  rewrite Z.div_small, Z.mod_small, Z.add_0_r by lia. by rewrite wrap_u_small.
Qed.

Lemma Add_spec s nres :
  rmap_wf s → wf (rv_Value nres) →
  rmap_wf (Add s nres) ∧
  ∀ k, amount (Add s nres) k =
       if decide (ResVal_Key nres = k)
       then (amount s k + value (rv_Value nres)) mod modulus else amount s k.
Proof.
  intros Hs Hn. destruct (AddMult_spec s nres 1 Hs Hn ltac:(done)) as [Hw Ha].
  split; [done|]. intros k. unfold Add. by rewrite Ha, Z.mul_1_r.
Qed.

Lemma AddRes_wf s name units w n :
  rmap_wf s → is_u64 w → 0 ≤ n < 1000000000 → rmap_wf (AddRes s name units w n).
Proof.
  intros Hs Hw Hn. unfold AddRes. rewrite NewUdec64_spec by done. by apply Add_spec.
Qed.

Lemma wf_whole z : is_u64 z → wf (mkUdec z 0).
Proof. by split. Qed.

Lemma AddGPU_wf s name c : rmap_wf s → is_u32 c → rmap_wf (AddGPU s name c).
Proof.
  intros Hs Hc. apply Add_spec; [done|]. apply wf_whole. unfold is_u in *. simpl. lia.
Qed.
Lemma AddGPUs_wf s gpus f : rmap_wf s → rmap_wf (AddGPUs s gpus f).
Proof.
  revert s. induction gpus as [|g gpus IH]; intros s Hs; simpl; [done|].
  apply IH, AddGPU_wf; [done|]. by apply wrap_u_range.
Qed.
Lemma AddOptRes_wf s n v m s' : rmap_wf s → AddOptRes s n v m = Ok s' → rmap_wf s'.
Proof.
  intros Hs H. unfold AddOptRes in H. apply result_bind_ok in H as (nres & Hn & H).
  injection H as <-. apply Add_spec; [done|]. unfold opt_res_val in Hn.
  apply result_bind_ok in Hn as ([[t a] c] & _ & Hn). injection Hn as <-. simpl.
  apply wf_whole. by apply wrap_u_range.
Qed.
Lemma add_opt_list_wf s l c s' : rmap_wf s → add_opt_list s l c = Ok s' → rmap_wf s'.
Proof.
  revert s. induction l as [|[n v] l IH]; intros s Hs H; simpl in H; [by simplify_eq|].
  apply result_bind_ok in H as (s1 & H1 & H). eapply IH, H. by eapply AddOptRes_wf, H1.
Qed.

(** Resources whose fields fit their widths. *)
Definition nr_wf (nr : NodeResources) : Prop :=
  is_u64 (nr_Vcpus nr) ∧ is_u64 (nr_Ram nr) ∧ is_u64 (nr_Disk nr).
Definition npr_wf (npr : NodePoolResources) : Prop :=
  wf (TotalVcpus npr) ∧ is_u64 (TotalMemory npr) ∧ is_u64 (TotalDisk npr).

Lemma AddNodeResources_wf s nr c s' :
  rmap_wf s → AddNodeResources s (Some nr) c = Ok s' → rmap_wf s'.
Proof.
  intros Hs H. unfold AddNodeResources in H. eapply add_opt_list_wf, H.
  apply AddGPUs_wf. unfold AddDisk, AddRam, AddVcpus.
  do 3 (apply AddRes_wf; [|by apply wrap_u_range|done]). done.
Qed.
Lemma AddNodePoolResources_wf s npr s' :
  rmap_wf s → npr_wf npr → AddNodePoolResources s (Some npr) = Ok s' → rmap_wf s'.
Proof.
  intros Hs ([Hv1 Hv2] & Hm & Hd) H. unfold AddNodePoolResources in H.
  eapply add_opt_list_wf, H. apply AddGPUs_wf. unfold AddDisk, AddRam, AddVcpus.
  do 3 (apply AddRes_wf; [|done|done]). done.
Qed.

(** On well-formed maps (every entry under its own key, amounts in range),
    adding [factor] times a map adds [factor] times each amount modulo the
    range, subtracting a map subtracts each amount down to zero at the lowest
    and adds no resource, and cloning keeps every amount; all three keep maps
    well-formed, and whatever the order in which the maps are ranged over. *)
Theorem ResValMap_arith s other f u :
  rmap_wf s → rmap_wf other → is_u32 f →
  (rmap_wf (AddAllMult s other f) ∧
   ∀ k, amount (AddAllMult s other f) k = (amount s k + amount other k * f) mod modulus) ∧
  (rmap_wf (SubFloorAll s other u).1 ∧
   dom (SubFloorAll s other u).1 = dom s ∧
   ∀ k, amount (SubFloorAll s other u).1 k = Z.max 0 (amount s k - amount other k)) ∧
  (rmap_wf (Clone s) ∧ ∀ k, amount (Clone s) k = amount s k).
Proof.
  intros Hs Ho Hf. split; [by apply AddAllMult_spec|].
  split; [by apply SubFloorAll_spec|by apply Clone_spec].
Qed.

End Proofs.

Module ResValsWitness.

#[local] Existing Instance canonical_range.

Definition total0 : ResValMap := AddRam (AddVcpus ∅ 4 0) 8192.
Definition used0 : ResValMap := AddRam (AddVcpus ∅ 1 500000000) 10000.

Lemma total0_wf : rmap_wf total0.
Proof. unfold total0, AddRam, AddVcpus. do 2 (apply AddRes_wf; [|done|done]). apply rmap_wf_empty. Qed.
Lemma used0_wf : rmap_wf used0.
Proof. unfold used0, AddRam, AddVcpus. do 2 (apply AddRes_wf; [|done|done]). apply rmap_wf_empty. Qed.

Lemma ResValMap_arith_witness :
  amount (AddAllMult total0 used0 3) "vCPUs" = 8500000000 ∧
  amount (SubFloorAll total0 used0 false).1 "RAM" = 0.
Proof.
  destruct (ResValMap_arith total0 used0 3 false total0_wf used0_wf ltac:(done))
    as ((_ & Ha) & (_ & _ & Hs) & _).
  split; [rewrite Ha|rewrite Hs]; reflexivity.
Defined.

End ResValsWitness.
