(* ===== verification/ResFits.v ===== *)
(** * Do the requested resources fit? (pkg/resspec/res_fits.go)

    The checks that place a workload on node pools, on a Kubernetes cluster or
    on a single node, with the reasons for refusal and the scaling proposal.
    The nil map of the code is the empty map.  Log calls are left out. *)

From S2P Require Export ResVals.

Local Open Scope Z_scope.

(** ** Data *)

Abbreviation SkipReasons := (list string).

Record PoolScaleSpec := mkPoolScaleSpec {
  PoolName : string;
  NumNodesChange : Z;
  PerNodeResources : ResValMap;
}.
Record KubeResScaleSpec := mkKubeResScaleSpec {
  CPUPoolScale : option PoolScaleSpec;
  GPUPoolScale : option PoolScaleSpec;
}.

Section Fits.
Context {GR : GoRange}.

(** ** Conversions *)

Definition NodeResourcesToResValMap (nr : option NodeResources) : result ResValMap :=
  AddNodeResources ∅ nr 1.
Definition NodePoolResourcesToResValMap (npr : option NodePoolResources) : result ResValMap :=
  AddNodePoolResources ∅ npr.
Definition TopologyToResValMap (top : option NodePoolTopology) : result ResValMap :=
  match top with
  | None => Ok ∅
  | Some top =>
      let s := AddVcpus ∅ (MinNodeVcpus top) 0 in
      let s := AddRam s (MinNodeMemory top) in
      let s := AddDisk s (MinNodeDisk top) in
      let s := AddGPUs s (MinNodeGpus top) 1 in
      AddOptResMap s (MinNodeOptRes top) 1
  end.

Definition GetInfraNodeResources (nr : NodeResources) (flavorLookup : FlavorLookup)
    : result NodeResources :=
  if decide (nr_InfraNodeFlavor nr ≠ "") then
    match flavorLookup !! nr_InfraNodeFlavor nr with
    | None => Err ("infra node flavor " +:+ nr_InfraNodeFlavor nr +:+ " not found")
    | Some fi =>
        Ok (mkNodeResources (fi_Vcpus fi) (fi_Ram fi) (fi_Disk fi) (fi_Gpus fi)
              (nr_OptResMap nr) "" 0)
    end
  else Ok nr.

(** ** The checks *)

(** The message for a resource that does not fit, if it does not. *)
Definition not_enough (reqVals freeVals : ResValMap) (resName : string) : option string :=
  match reqVals !! resName with
  | None => None
  | Some reqVal =>
      let freeVal := default (NewWholeResVal "" "" 0) (freeVals !! resName) in
      if GreaterThan (rv_Value reqVal) (rv_Value freeVal) then
        Some ("want " +:+ DecString (rv_Value reqVal) +:+ rv_Units reqVal +:+ " " +:+ resName
              +:+ " but only " +:+ DecString (rv_Value freeVal) +:+ rv_Units reqVal +:+ " free")
      else None
  end.
Definition ResValsFits (reqVals freeVals : ResValMap) (skipReasons : SkipReasons)
    : result unit :=
  let notEnough := omap (not_enough reqVals freeVals) (SortedKeys reqVals) in
  if decide (notEnough ≠ []) then
    let skipped := if decide (skipReasons ≠ []) then ", " +:+ join ", " skipReasons else "" in
    Err (join ", " notEnough +:+ skipped)
  else Ok tt.

(** The first minimum a pool's nodes do not meet. *)
Fixpoint check_mins (pool : NodePool) (reqMins infraResCounts : ResValMap)
    (keys : list string) : option string :=
  match keys with
  | [] => None
  | resName :: keys' =>
      match reqMins !! resName with
      | None => check_mins pool reqMins infraResCounts keys'
      | Some reqMin =>
          match infraResCounts !! resName with
          | None => Some ("skipped pool " +:+ np_Name pool +:+ " because requested resource "
                          +:+ resName +:+ " not present")
          | Some infraCount =>
              if LessThan (rv_Value infraCount) (rv_Value reqMin) then
                Some ("skipped pool " +:+ np_Name pool +:+ " because node resource " +:+ resName
                      +:+ " " +:+ DecString (rv_Value infraCount) +:+ rv_Units infraCount
                      +:+ " does not meet min reqs of " +:+ DecString (rv_Value reqMin)
                      +:+ rv_Units reqMin)
              else check_mins pool reqMins infraResCounts keys'
          end
      end
  end.

(** One pool: the reason to skip it, or the resources of one of its nodes. *)
Definition check_pool (reqsGpuCount : Z) (reqMins : ResValMap) (flavorLookup : FlavorLookup)
    (clusterSpecified : bool) (pool : NodePool) : result (string + ResValMap) :=
  match np_NodeResources pool with
  | None => Err ("pool " +:+ np_Name pool +:+ " node resources not defined")
  | Some nr =>
      let poolGpuCount := NodeResourcesGPUCount (Some nr) in
      if decide (reqsGpuCount = 0 ∧ 0 < poolGpuCount ∧ clusterSpecified = false) then
        Ok (inl ("skipped gpu pool " +:+ np_Name pool +:+ " because no request for gpu"))
      else if decide (0 < reqsGpuCount ∧ poolGpuCount = 0) then
        Ok (inl ("skipped cpu pool " +:+ np_Name pool +:+ " because requesting for gpu"))
      else
        infraRes ← map_err (λ e, "pool " +:+ np_Name pool +:+ " " +:+ e)
                     (GetInfraNodeResources nr flavorLookup);
        infraResCounts ← map_err (λ e, "pool " +:+ np_Name pool +:+ " resources " +:+ e)
                           (NodeResourcesToResValMap (Some infraRes));
        match check_mins pool reqMins infraResCounts (SortedKeys reqMins) with
        | Some reason => Ok (inl reason)
        | None => Ok (inr infraResCounts)
        end
  end.

Record pools_state := mkPools {
  ps_total : ResValMap;
  ps_reasons : SkipReasons;
  ps_scalable : option (NodePool * ResValMap);
}.
Fixpoint pools_loop (check : NodePool → result (string + ResValMap)) (st : pools_state)
    (pools : list NodePool) : result pools_state :=
  match pools with
  | [] => Ok st
  | pool :: pools' =>
      v ← check pool;
      match v with
      | inl reason =>
          pools_loop check
            (mkPools (ps_total st) (ps_reasons st ++ [reason]) (ps_scalable st)) pools'
      | inr counts =>
          let scalable := match ps_scalable st with
                          | None => if np_Scalable pool then Some (pool, counts) else None
                          | Some p => Some p
                          end in
          pools_loop check
            (mkPools (AddAllMult (ps_total st) counts (np_NumNodes pool)) (ps_reasons st)
               scalable) pools'
      end
  end.

(** The nodes a pool has to grow by: (req + used - total) / per node. *)
Definition scale_nodes (reqTotals used total perNode : ResValMap) : Z :=
  let req := Clone reqTotals in
  let req := AddAllMult req used 1 in
  let req := (SubFloorAll req total false).1 in
  DivFactorLargest req perNode.

Definition NodePoolFits (reqs : NodePoolResources) (used : ResValMap)
    (nodePools : list NodePool) (flavorLookup : FlavorLookup) (clusterSpecified : bool)
    : option PoolScaleSpec * ResValMap * option error :=
  match TopologyToResValMap (Some (Topology reqs)) with
  | Err err => (None, ∅, Some ("requested topology " +:+ err))
  | Ok reqMins =>
      let reqsGpuCount := NodePoolResourcesGPUCount (Some reqs) in
      match pools_loop (check_pool reqsGpuCount reqMins flavorLookup clusterSpecified)
              (mkPools ∅ [] None) nodePools with
      | Err err => (None, ∅, Some err)
      | Ok st =>
          match NodePoolResourcesToResValMap (Some reqs) with
          | Err err => (None, ∅, Some ("requested total resources " +:+ err))
          | Ok reqTotals =>
              let free := (SubFloorAll (Clone (ps_total st)) used false).1 in
              match ResValsFits reqTotals free (ps_reasons st) with
              | Ok _ => (None, free, None)
              | Err fitsErr =>
                  match ps_scalable st with
                  | None => (None, free, Some fitsErr)
                  | Some (pool, perNode) =>
                      let numNodes := scale_nodes reqTotals used (ps_total st) perNode in
                      (Some (mkPoolScaleSpec (np_Name pool) numNodes perNode), free,
                       Some fitsErr)
                  end
              end
          end
      end
  end.

Definition KubernetesResourcesFits (clusterInst : ClusterInst) (reqs : KubernetesResources)
    (cpuUsed gpuUsed : ResValMap) (flavorLookup : FlavorLookup) (clusterSpecified : bool)
    : option KubeResScaleSpec * ResValMap * option error :=
  let '(cpuSS, free, fitsErr) :=
    match CpuPool reqs with
    | None => (None, ∅, None)
    | Some cpu =>
        let '(ss, cpufree, err) :=
          NodePoolFits cpu cpuUsed (ci_NodePools clusterInst) flavorLookup clusterSpecified in
        (ss, AddAllMult ∅ cpufree 1,
         (λ e, "cpu pool requirements not met, " +:+ e) <$> err)
    end in
  let '(gpuSS, free, fitsErr) :=
    match GpuPool reqs with
    | None => (None, free, fitsErr)
    | Some gpu =>
        let '(ss, gpufree, err) :=
          NodePoolFits gpu gpuUsed (ci_NodePools clusterInst) flavorLookup clusterSpecified in
        (ss, AddAllMult free gpufree 1,
         match fitsErr with
         | Some e => Some e
         | None => (λ e, "gpu pool requirements not met, " +:+ e) <$> err
         end)
    end in
  match fitsErr with
  | None => (None, free, None)
  | Some e =>
      match cpuSS, gpuSS with
      | None, None => (None, free, Some e)
      | _, _ => (Some (mkKubeResScaleSpec cpuSS gpuSS), free, Some e)
      end
  end.

Definition NodeResourcesFits (clusterInst : ClusterInst) (reqs : option NodeResources)
    (used : ResValMap) (flavorLookup : FlavorLookup) : result unit :=
  match reqs with
  | None => Err "request missing node resources definition"
  | Some reqs =>
      match ci_NodeResources clusterInst with
      | None => Err "cluster inst missing node resources definition"
      | Some nr =>
          clusterInfraRes ← map_err (λ e, "cluster resources " +:+ e)
                              (GetInfraNodeResources nr flavorLookup);
          reqVals ← map_err (λ e, "requested resources " +:+ e)
                      (NodeResourcesToResValMap (Some reqs));
          clusterVals ← map_err (λ e, "cluster resources " +:+ e)
                          (NodeResourcesToResValMap (Some clusterInfraRes));
          let freeVals := (SubFloorAll (Clone clusterVals) used false).1 in
          ResValsFits reqVals freeVals []
      end
  end.

(** ** Specification *)

(** What [n] nodes of each kind supply of a resource. *)
Definition supply (ps : list (ResValMap * Z)) (k : string) : Z :=
  foldr (λ mn z, amount mn.1 k * mn.2 + z) 0 ps.

(** The pools a check accepts, with the resources of a node and the number of nodes. *)
Definition accepted (check : NodePool → result (string + ResValMap)) (pools : list NodePool)
    : list (ResValMap * Z) :=
  omap (λ pool, match check pool with Ok (inr m) => Some (m, np_NumNodes pool) | _ => None end)
    pools.

(** Every requested amount is at most what is left. *)
Definition fits (req : ResValMap) (total used : string → Z) : Prop :=
  ∀ k, amount req k ≤ Z.max 0 (total k - used k).

#[local] Arguments NodeResourcesToResValMap : simpl never.

(** ** Lemmas *)

Lemma ResValsFits_iff req free rs :
  rmap_wf req → rmap_wf free →
  is_ok (ResValsFits req free rs) = true ↔ ∀ k, amount req k ≤ amount free k.
Proof.
  intros Hr Hf. unfold ResValsFits.
  assert (Hne : omap (not_enough req free) (SortedKeys req) = [] ↔
                ∀ k, not_enough req free k = None).
  { split.
    - intros Hnil k. destruct (not_enough req free k) as [m|] eqn:Hm; [|done].
      assert (Hin : m ∈ omap (not_enough req free) (SortedKeys req)).
      { apply list_elem_of_omap. exists k. split; [|done]. apply elem_of_SortedKeys.
        unfold not_enough in Hm. by destruct (req !! k). }
      rewrite Hnil in Hin. by apply not_elem_of_nil in Hin.
    - intros Hn. induction (SortedKeys req) as [|k l IH]; [done|]. simpl. by rewrite Hn. }
  assert (Hk : ∀ k, not_enough req free k = None ↔ amount req k ≤ amount free k).
  { intros k. unfold not_enough, amount.
    pose proof (amount_range free k Hf) as Hfr. unfold amount in Hfr.
    destruct (req !! k) as [rv|] eqn:Hrk; [|by split; [lia|]].
    destruct (rmap_wf_lookup _ _ _ Hr Hrk) as [_ Hrw].
    set (fv := default _ (free !! k)).
    assert (Hfv : wf (rv_Value fv) ∧ value (rv_Value fv) =
      match free !! k with Some v => value (rv_Value v) | None => 0 end).
    { unfold fv. destruct (free !! k) as [v|] eqn:Hfk; simpl; [|done].
      split; [|done]. by eapply rmap_wf_lookup. }
    destruct Hfv as [Hfw <-]. pose proof (GreaterThan_value _ _ Hrw Hfw) as Hg.
    destruct (GreaterThan _ _); [|naive_solver lia].
    split; [done|]. apply proj1 in Hg. specialize (Hg eq_refl). lia. }
  case_decide as Hd; simpl; split; try done.
  - intros Hle. destruct Hd. apply Hne. intros k. apply Hk, Hle.
  - intros _ k. apply Hk. apply Hne. destruct (omap _ _) eqn:Ho; [done|]. by destruct Hd.
Qed.

Lemma check_mins_ok pool mins counts :
  rmap_wf mins → rmap_wf counts →
  check_mins pool mins counts (SortedKeys mins) = None →
  ∀ k, amount mins k ≤ amount counts k.
Proof.
  intros Hm Hc Hchk k. destruct (mins !! k) as [mv|] eqn:Hk.
  2: { unfold amount at 1. rewrite Hk. by apply amount_range. }
  assert (Hin : k ∈ SortedKeys mins) by (apply elem_of_SortedKeys; eauto).
  induction (SortedKeys mins) as [|k' l IH]; [by apply not_elem_of_nil in Hin|].
  simpl in Hchk. apply elem_of_cons in Hin as [<-|Hin].
  - rewrite Hk in Hchk. destruct (counts !! k) as [cv|] eqn:Hck; [|done].
    destruct (LessThan _ _) eqn:Hlt; [done|].
    destruct (rmap_wf_lookup _ _ _ Hm Hk) as [_ Hmw], (rmap_wf_lookup _ _ _ Hc Hck) as [_ Hcw].
    unfold amount. rewrite Hk, Hck. pose proof (LessThan_value _ _ Hcw Hmw) as Hl.
    destruct (decide (value (rv_Value cv) < value (rv_Value mv))); [|lia].
    apply proj2 in Hl. rewrite Hl in Hlt; done.
  - apply IH; [|done]. destruct (mins !! k') as [?|]; [|done].
    destruct (counts !! k'); [|done]. by destruct (LessThan _ _).
Qed.

Lemma supply_nonneg ps k :
  Forall (λ mn, rmap_wf mn.1 ∧ 0 ≤ mn.2) ps → 0 ≤ supply ps k.
Proof.
  induction 1 as [|[m n] ps [Hm Hn] _ IH]; simpl in *; [done|].
  pose proof (amount_range m k Hm). nia.
Qed.

Lemma accepted_cons check pool pools :
  accepted check (pool :: pools) =
  match check pool with
  | Ok (inr m) => (m, np_NumNodes pool) :: accepted check pools
  | _ => accepted check pools
  end.
Proof. unfold accepted. simpl. destruct (check pool) as [[|]|]; done. Qed.
Lemma supply_cons m n ps k : supply ((m, n) :: ps) k = amount m k * n + supply ps k.
Proof. done. Qed.

Lemma pools_loop_total check pools st st' :
  (∀ pool m, check pool = Ok (inr m) → rmap_wf m) →
  Forall (λ pool, is_u32 (np_NumNodes pool)) pools →
  rmap_wf (ps_total st) →
  pools_loop check st pools = Ok st' →
  rmap_wf (ps_total st') ∧
  ∀ k, amount (ps_total st') k =
       (amount (ps_total st) k + supply (accepted check pools) k) mod modulus.
Proof.
  intros Hc Hp. revert st. induction Hp as [|pool pools Hn _ IH]; intros st Hst H.
  { simpl in H. simplify_eq. split; [done|]. intros k. unfold supply; simpl.
    rewrite Z.add_0_r, Z.mod_small; [done|]. by apply amount_range. }
  simpl in H. apply result_bind_ok in H as (v & Hv & H).
  setoid_rewrite accepted_cons. rewrite Hv. destruct v as [reason|m].
  - apply IH in H; [|done]. exact H.
  - apply Hc in Hv as Hm.
    destruct (AddAllMult_spec (ps_total st) m (np_NumNodes pool) Hst Hm Hn) as [Hw Ha].
    apply IH in H as [Hw' Ha']; [|done]. split; [done|]. intros k. rewrite Ha'. simpl.
    rewrite Ha. rewrite Zplus_mod_idemp_l.
    f_equal. lia.
Qed.

Lemma pools_loop_scalable check pools st st' pool m :
  pools_loop check st pools = Ok st' → ps_scalable st' = Some (pool, m) →
  ps_scalable st = Some (pool, m) ∨
  pool ∈ pools ∧ np_Scalable pool = true ∧ check pool = Ok (inr m).
Proof.
  revert st. induction pools as [|p pools IH]; intros st H Hs; simpl in H.
  { simplify_eq. by left. }
  apply result_bind_ok in H as (v & Hv & H). destruct v as [reason|c].
  - destruct (IH _ H Hs) as [?|(? & ? & ?)]; [by left|]. right. set_solver.
  - destruct (IH _ H Hs) as [Hst|(? & ? & ?)]; [|right; set_solver].
    simpl in Hst. destruct (ps_scalable st) as [x|]; [by left|].
    destruct (np_Scalable p) eqn:Hps; simplify_eq. right. set_solver.
Qed.

Lemma TopologyToResValMap_wf t m :
  is_u64 (MinNodeVcpus t) → is_u64 (MinNodeMemory t) → is_u64 (MinNodeDisk t) →
  TopologyToResValMap (Some t) = Ok m → rmap_wf m.
Proof.
  intros H1 H2 H3 H. unfold TopologyToResValMap in H. eapply add_opt_list_wf, H.
  apply AddGPUs_wf. unfold AddDisk, AddRam, AddVcpus.
  do 3 (apply AddRes_wf; [|done|done]). apply rmap_wf_empty.
Qed.

Lemma check_pool_ok g mins lookup spec pool m :
  rmap_wf mins → check_pool g mins lookup spec pool = Ok (inr m) →
  rmap_wf m ∧ (∀ k, amount mins k ≤ amount m k) ∧
  (0 < g → 0 < NodeResourcesGPUCount (np_NodeResources pool) ∨
           NodeResourcesGPUCount (np_NodeResources pool) ≠ 0) ∧
  (g = 0 → spec = false → ¬ 0 < NodeResourcesGPUCount (np_NodeResources pool)).
Proof.
  intros Hmins H. unfold check_pool in H.
  destruct (np_NodeResources pool) as [nr|]; [|done].
  case_decide as H1; [done|]. case_decide as H2; [done|].
  apply result_bind_ok in H as (infra & Hi & H). apply result_bind_ok in H as (c & Hcs & H).
  destruct (NodeResourcesToResValMap (Some infra)) as [c'|] eqn:Hn; simplify_eq/=.
  apply AddNodeResources_wf in Hn; [|apply rmap_wf_empty].
  destruct (check_mins _ _ _ _) eqn:Hcm; simplify_eq.
  split; [done|]. split; [by eapply check_mins_ok|]. split; [|naive_solver].
  intros Hg. right. naive_solver.
Qed.

(** The widths of the numbers of a request and of the pools. *)
Definition request_wf (reqs : NodePoolResources) : Prop :=
  npr_wf reqs ∧ is_u64 (MinNodeVcpus (Topology reqs)) ∧
  is_u64 (MinNodeMemory (Topology reqs)) ∧ is_u64 (MinNodeDisk (Topology reqs)).
Definition pools_wf (pools : list NodePool) : Prop :=
  Forall (λ pool, is_u32 (np_NumNodes pool)) pools.

(** What an accepted pool offers: nodes that meet every per-node minimum, and
    GPUs exactly when the request has some (unless the user chose the cluster). *)
Definition suitable (reqs : NodePoolResources) (mins : ResValMap) (clusterSpecified : bool)
    (pool : NodePool) (m : ResValMap) : Prop :=
  (∀ k, amount mins k ≤ amount m k) ∧
  (0 < NodePoolResourcesGPUCount (Some reqs) → NodeResourcesGPUCount (np_NodeResources pool) ≠ 0) ∧
  (NodePoolResourcesGPUCount (Some reqs) = 0 → clusterSpecified = false →
   ¬ 0 < NodeResourcesGPUCount (np_NodeResources pool)).

Lemma NodePoolFits_inv reqs used pools lookup spec :
  request_wf reqs → pools_wf pools → rmap_wf used →
  match NodePoolFits reqs used pools lookup spec with
  | (ss, free, err) =>
      (ss = None ∧ free = ∅ ∧ err ≠ None) ∨
      ∃ mins reqTotals total,
        let check := check_pool (NodePoolResourcesGPUCount (Some reqs)) mins lookup spec in
        TopologyToResValMap (Some (Topology reqs)) = Ok mins ∧ rmap_wf mins ∧
        NodePoolResourcesToResValMap (Some reqs) = Ok reqTotals ∧
        (∀ k, total k = supply (accepted check pools) k mod modulus) ∧
        (∀ k, amount free k = Z.max 0 (total k - amount used k)) ∧
        (err = None ↔ fits reqTotals total (amount used)) ∧
        match ss with
        | None => True
        | Some ss => err ≠ None ∧ ∃ pool, pool ∈ pools ∧ np_Scalable pool = true ∧
            check pool = Ok (inr (PerNodeResources ss)) ∧ PoolName ss = np_Name pool
        end
  end.
Proof.
  intros (Hnpr & Ht1 & Ht2 & Ht3) Hp Hu. unfold NodePoolFits.
  destruct (TopologyToResValMap _) as [mins|] eqn:Ht; [|by left].
  pose proof (TopologyToResValMap_wf _ _ Ht1 Ht2 Ht3 Ht) as Hmins.
  set (check := check_pool _ _ _ _).
  destruct (pools_loop check _ pools) as [st|] eqn:Hl; [|by left].
  destruct (NodePoolResourcesToResValMap _) as [reqTotals|] eqn:Hr; [|by left].
  assert (Hrw : rmap_wf reqTotals) by (eapply AddNodePoolResources_wf, Hr; [apply rmap_wf_empty|done]).
  destruct (pools_loop_total check pools (mkPools ∅ [] None) st) as [Htw Hta];
    [intros pool m Hm; by apply check_pool_ok in Hm as [? _]|done|apply rmap_wf_empty|done|].
  destruct (Clone_spec _ Htw) as [Hcw Hca].
  destruct (SubFloorAll_spec (Clone (ps_total st)) used false Hcw Hu) as (Hfw & _ & Hfa).
  pose proof (ResValsFits_iff reqTotals _ (ps_reasons st) Hrw Hfw) as Hfit.
  set (free := (SubFloorAll _ used false).1) in *.
  assert (Hfree : ∀ k, amount free k = Z.max 0 (amount (ps_total st) k - amount used k)).
  { intros k. by rewrite Hfa, Hca. }
  assert (Hfit' : is_ok (ResValsFits reqTotals free (ps_reasons st)) = true ↔
    fits reqTotals (amount (ps_total st)) (amount used)).
  { rewrite Hfit. unfold fits. by setoid_rewrite Hfree. }
  destruct (ResValsFits reqTotals free (ps_reasons st)) as [[]|e] eqn:He; simpl in Hfit'.
  - right. exists mins, reqTotals, (amount (ps_total st)). fold check. naive_solver.
  - destruct (ps_scalable st) as [[pool perNode]|] eqn:Hs;
      right; exists mins, reqTotals, (amount (ps_total st)); fold check; [|naive_solver].
    destruct (pools_loop_scalable _ _ _ _ _ _ Hl Hs) as [?|(? & ? & ?)]; [done|].
    split_and!; [done..| | |]; [naive_solver|done|]. eexists. eauto.
Qed.

Lemma accepted_elem check pools m n :
  (m, n) ∈ accepted check pools ↔
  ∃ pool, pool ∈ pools ∧ check pool = Ok (inr m) ∧ n = np_NumNodes pool.
Proof.
  unfold accepted. rewrite list_elem_of_omap. split.
  - intros (pool & Hin & H). repeat case_match; simplify_eq. eauto.
  - intros (pool & Hin & H & ->). exists pool. by rewrite H.
Qed.

(** A check that stopped early has no result. *)
Ltac no_result :=
  split; [by simpl|intros; break_ands; simplify_eq; congruence].

(** A pool that is not requested is not in the way. *)
Definition pool_accepted (p : option NodePoolResources) (used : ResValMap)
    (pools : list NodePool) (lookup : FlavorLookup) (spec : bool) : Prop :=
  match p with None => True | Some p => (NodePoolFits p used pools lookup spec).2 = None end.

(** The node pool check accepts a request exactly when each requested
    amount is at most what the suitable pools supply (nodes times the
    resources of a node) less what is used; it counts only pools whose nodes
    meet the per-node minimums, which have GPUs if the request has some, and
    no GPUs if it has none (unless the user named the cluster); the free
    amounts it reports are that difference; and it proposes to scale only
    when it refuses, and only a scalable suitable pool.  Supplies are
    assumed not to overflow; a request, pool or flavor that cannot be read is
    refused with nothing free and no proposal. *)
Theorem NodePoolFits_correct reqs used pools lookup spec ss free err :
  request_wf reqs → pools_wf pools → rmap_wf used →
  (∀ mins k, 0 ≤ supply (accepted (check_pool (NodePoolResourcesGPUCount (Some reqs)) mins
                                     lookup spec) pools) k < modulus) →
  NodePoolFits reqs used pools lookup spec = (ss, free, err) →
  (ss = None ∧ free = ∅ ∧ err ≠ None) ∨
  ∃ mins reqTotals ps,
    TopologyToResValMap (Some (Topology reqs)) = Ok mins ∧
    NodePoolResourcesToResValMap (Some reqs) = Ok reqTotals ∧
    (∀ m n, (m, n) ∈ ps → ∃ pool, pool ∈ pools ∧ n = np_NumNodes pool ∧
                                  suitable reqs mins spec pool m) ∧
    (∀ k, amount free k = Z.max 0 (supply ps k - amount used k)) ∧
    (err = None ↔ fits reqTotals (supply ps) (amount used)) ∧
    match ss with
    | None => True
    | Some ss => err ≠ None ∧ ∃ pool, pool ∈ pools ∧ np_Scalable pool = true ∧
        suitable reqs mins spec pool (PerNodeResources ss) ∧ PoolName ss = np_Name pool
    end.
Proof.
  intros Hreq Hp Hu Hov Heq. pose proof (NodePoolFits_inv _ _ _ lookup spec Hreq Hp Hu) as Hinv.
  rewrite Heq in Hinv.
  destruct Hinv as [?|(mins & rt & total & Ht & Hmw & Hr & Htot & Hfree & Hfit & Hss)]; [by left|].
  right. exists mins, rt, (accepted (check_pool (NodePoolResourcesGPUCount (Some reqs)) mins
                                       lookup spec) pools).
  assert (Htot' : ∀ k, total k = supply (accepted (check_pool
    (NodePoolResourcesGPUCount (Some reqs)) mins lookup spec) pools) k).
  { intros k. by rewrite Htot, Z.mod_small. }
  split; [done|]. split; [done|]. split; [|split; [|split]].
  - intros m n Hin. apply accepted_elem in Hin as (pool & Hin & Hc & ->).
    apply check_pool_ok in Hc as (_ & H1 & H2 & H3); [|done].
    exists pool. split; [done|]. split; [done|]. split; [done|]. naive_solver lia.
  - intros k. by rewrite Hfree, Htot'.
  - rewrite Hfit. unfold fits. by setoid_rewrite Htot'.
  - destruct ss as [ss|]; [|done]. destruct Hss as (He & pool & Hin & Hsc & Hc & Hn).
    split; [done|]. exists pool. apply check_pool_ok in Hc as (_ & H1 & H2 & H3); [|done].
    split; [done|]. split; [done|]. split; [|done]. split; [done|]. naive_solver lia.
Qed.

(** The Kubernetes check accepts exactly when each pool requested is
    accepted by the node pool check, it proposes scaling only when it refuses;
    the single node check accepts exactly when each requested amount is at
    most what the node (or its infra flavor) has less what is used. *)
Theorem cluster_fits_correct ci kreqs cpuUsed gpuUsed nreqs used lookup spec :
  rmap_wf used →
  (let '(ss, free, err) := KubernetesResourcesFits ci kreqs cpuUsed gpuUsed lookup spec in
   (err = None ↔
      pool_accepted (CpuPool kreqs) cpuUsed (ci_NodePools ci) lookup spec ∧
      pool_accepted (GpuPool kreqs) gpuUsed (ci_NodePools ci) lookup spec) ∧
   (ss ≠ None → err ≠ None)) ∧
  (is_ok (NodeResourcesFits ci (Some nreqs) used lookup) = true ↔
   ∃ nr infra reqVals clusterVals,
     ci_NodeResources ci = Some nr ∧ GetInfraNodeResources nr lookup = Ok infra ∧
     NodeResourcesToResValMap (Some nreqs) = Ok reqVals ∧
     NodeResourcesToResValMap (Some infra) = Ok clusterVals ∧
     fits reqVals (amount clusterVals) (amount used)).
Proof.
  intros Hu. split.
  - unfold KubernetesResourcesFits.
    destruct (CpuPool kreqs) as [cp|], (GpuPool kreqs) as [gp|]; simpl.
    + destruct (NodePoolFits cp _ _ _ _) as [[s1 f1] e1].
      destruct (NodePoolFits gp _ _ _ _) as [[s2 f2] e2].
      destruct e1, e2, s1, s2; simpl; naive_solver.
    + destruct (NodePoolFits cp _ _ _ _) as [[s1 f1] e1].
      destruct e1, s1; simpl; naive_solver.
    + destruct (NodePoolFits gp _ _ _ _) as [[s2 f2] e2].
      destruct e2, s2; simpl; naive_solver.
    + simpl. naive_solver.
  - unfold NodeResourcesFits. destruct (ci_NodeResources ci) as [nr|]; simpl; [|no_result].
    destruct (GetInfraNodeResources nr lookup) as [infra|] eqn:Hi; simpl; [|no_result].
    destruct (NodeResourcesToResValMap (Some nreqs)) as [rv|] eqn:Hr; simpl; [|no_result].
    destruct (NodeResourcesToResValMap (Some infra)) as [cv|] eqn:Hc; simpl; [|no_result].
    assert (Hrw : rmap_wf rv) by (eapply AddNodeResources_wf, Hr; apply rmap_wf_empty).
    assert (Hcw : rmap_wf cv) by (eapply AddNodeResources_wf, Hc; apply rmap_wf_empty).
    destruct (Clone_spec cv Hcw) as [Hcw' Hca].
    destruct (SubFloorAll_spec (Clone cv) used false Hcw' Hu) as (Hfw & _ & Hfa).
    rewrite ResValsFits_iff by done. setoid_rewrite Hfa. setoid_rewrite Hca.
    unfold fits. split; [by eauto 10|].
    intros (nr' & infra' & rv' & cv' & Hnr & Hi' & Hr' & Hc' & Hk).
    simplify_eq. assert (infra' = infra) as -> by congruence.
    by assert (cv' = cv) as -> by congruence.
Qed.

End Fits.

(** ** Witnesses *)

Module ResFitsWitness.

#[local] Existing Instance canonical_range.

Definition node4 : NodeResources := mkNodeResources 4 8192 0 [] ∅ "" 0.
Definition pool2 : NodePool := mkNodePool "p" 2 (Some node4) true.
Definition req6 : NodePoolResources :=
  mkNodePoolResources (mkUdec 6 500000000) 1024 0 [] ∅ (mkTopology 2 0 0 [] ∅ 1).
Definition used2 : ResValMap := AddVcpus ∅ 1 600000000.
Definition ci0 : ClusterInst := mkClusterInst [pool2] (Some node4).

Lemma used2_wf : rmap_wf used2.
Proof. apply AddRes_wf; [apply rmap_wf_empty|done|done]. Qed.

Lemma req6_wf : request_wf req6.
Proof. by repeat split. Qed.
Lemma pool2_wf : pools_wf [pool2].
Proof. by apply Forall_singleton. Qed.

(** The resources of one node. *)
Definition node4_map : ResValMap :=
  match NodeResourcesToResValMap (Some node4) with Ok m => m | Err _ => ∅ end.

(** 6.5 vcpus wanted, 8 minus 1.6 free: one more node is proposed. *)
Lemma req6_refused :
  ∃ free e, NodePoolFits req6 used2 [pool2] ∅ false =
    (Some (mkPoolScaleSpec "p" 1 node4_map), free, Some e).
Proof. eexists _, _. vm_compute. reflexivity. Qed.

Lemma node4_map_bound k : 0 ≤ amount node4_map k ≤ 8192 * 1000000000.
Proof.
  assert (HM : map_Forall (λ _ v, 0 ≤ value (rv_Value v) ≤ 8192 * 1000000000) node4_map)
    by (apply (proj1 (bool_decide_eq_true _)); vm_compute; reflexivity).
  unfold amount. destruct (node4_map !! k) as [v|] eqn:Hv; [by apply (HM k)|done].
Qed.

Lemma supply_small mins k :
  0 ≤ supply (accepted (check_pool (NodePoolResourcesGPUCount (Some req6)) mins ∅ false)
                [pool2]) k < modulus.
Proof.
  rewrite accepted_cons.
  change (check_pool _ mins ∅ false pool2) with
    (match check_mins pool2 mins node4_map (SortedKeys mins) with
     | Some reason => Ok (inl reason)
     | None => Ok (inr node4_map)
     end : result (string + ResValMap)).
  destruct (check_mins _ _ _ _); [by split|].
  rewrite supply_cons. change (supply (accepted _ []) k) with 0.
  pose proof (node4_map_bound k). change (np_NumNodes pool2) with 2. unfold modulus. lia.
Qed.

Lemma NodePoolFits_correct_witness :
  ∃ mins reqTotals ps, TopologyToResValMap (Some (Topology req6)) = Ok mins ∧
    NodePoolResourcesToResValMap (Some req6) = Ok reqTotals ∧
    ¬ fits reqTotals (supply ps) (amount used2).
Proof.
  destruct req6_refused as (free & e & H).
  destruct (NodePoolFits_correct req6 used2 [pool2] ∅ false _ _ _
    req6_wf pool2_wf used2_wf
    (λ mins k, supply_small mins k) H) as [(? & _)|(mins & rt & ps & H1 & H2 & _ & _ & H3 & _)];
    [discriminate|].
  exists mins, rt, ps. split; [done|]. split; [done|]. intros Hf. apply H3 in Hf. discriminate.
Defined.

Lemma cluster_fits_correct_witness :
  is_ok (NodeResourcesFits ci0 (Some node4) used2 ∅) = false ∧
  is_ok (NodeResourcesFits ci0 (Some node4) ∅ ∅) = true.
Proof.
  split; [by vm_compute|].
  destruct (cluster_fits_correct ci0 (mkKubernetesResources None None "") ∅ ∅ node4 ∅ ∅ false
    rmap_wf_empty) as [_ H].
  apply H. eexists _, _, _, _. split; [reflexivity|]. split; [reflexivity|].
  split; [reflexivity|]. split; [reflexivity|]. intros k.
  change (amount ∅ k) with 0. rewrite Z.sub_0_r. apply Z.le_max_r.
Defined.

End ResFitsWitness.
