(* ===== verification/RateLimit.v ===== *)
(** * API rate limiting (pkg/cloudcommon/ratelimit, api/edgeproto/ratelimit.go)

    The settings and their validation, the fixed window limiter, the two flow
    limiters, the composite of limiters, the limiter of one API endpoint and
    the manager that holds one per API.

    The token bucket of golang.org/x/time/rate is a parameter (its state, its
    constructor, [Allow] and [Wait]).  The clock is a sequence of readings
    [clk] in nanoseconds; an operation takes the number of readings made so
    far and returns the new one.  The settings an endpoint is created with
    are its own. *)

From S2P Require Export GoStd.

Local Open Scope Z_scope.

(** ** Settings (api/edgeproto/ratelimit.go) *)

Inductive ApiEndpointType := UNKNOWN_API_ENDPOINT_TYPE | DME.
Inductive RateLimitTarget := UNKNOWN_TARGET | ALL_REQUESTS | PER_IP | PER_USER.
Inductive FlowRateLimitAlgorithm :=
  UNKNOWN_FLOW_ALGORITHM | TOKEN_BUCKET_ALGORITHM | LEAKY_BUCKET_ALGORITHM.
Inductive MaxReqsRateLimitAlgorithm := UNKNOWN_MAX_REQS_ALGORITHM | FIXED_WINDOW_ALGORITHM.

#[export] Instance ApiEndpointType_eq_dec : EqDecision ApiEndpointType.
Proof. solve_decision. Defined.
#[export] Instance RateLimitTarget_eq_dec : EqDecision RateLimitTarget.
Proof. solve_decision. Defined.
#[export] Instance FlowRateLimitAlgorithm_eq_dec : EqDecision FlowRateLimitAlgorithm.
Proof. solve_decision. Defined.
#[export] Instance MaxReqsRateLimitAlgorithm_eq_dec : EqDecision MaxReqsRateLimitAlgorithm.
Proof. solve_decision. Defined.

Record FlowSettings := mkFlowSettings {
  FlowAlgorithm : FlowRateLimitAlgorithm;
  ReqsPerSecond : float64;
  BurstSize : Z;
}.
Record MaxReqsSettings := mkMaxReqsSettings {
  MaxReqsAlgorithm : MaxReqsRateLimitAlgorithm;
  MaxRequests : Z;
  Interval : Z;
}.
Record RateLimitSettingsKey := mkRLKey {
  ApiName : string;
  rlk_ApiEndpointType : ApiEndpointType;
  rlk_RateLimitTarget : RateLimitTarget;
}.
Record FlowRateLimitSettingsKey := mkFlowKey {
  FlowSettingsName : string;
  fk_RateLimitKey : RateLimitSettingsKey;
}.
Record MaxReqsRateLimitSettingsKey := mkMaxKey {
  MaxReqsSettingsName : string;
  mk_RateLimitKey : RateLimitSettingsKey;
}.
Record FlowRateLimitSettings := mkFlowRL {
  frl_Key : FlowRateLimitSettingsKey; frl_Settings : FlowSettings }.
Record MaxReqsRateLimitSettings := mkMaxRL {
  mrl_Key : MaxReqsRateLimitSettingsKey; mrl_Settings : MaxReqsSettings }.

(** A nil map of settings is the empty map. *)
Record RateLimitSettings := mkRLS {
  rls_Key : RateLimitSettingsKey;
  rls_Flow : gmap string FlowSettings;
  rls_MaxReqs : gmap string MaxReqsSettings;
}.

#[export] Instance RateLimitSettingsKey_eq_dec : EqDecision RateLimitSettingsKey.
Proof. solve_decision. Defined.
#[export] Instance FlowRateLimitSettingsKey_eq_dec : EqDecision FlowRateLimitSettingsKey.
Proof. solve_decision. Defined.
#[export] Instance MaxReqsRateLimitSettingsKey_eq_dec : EqDecision MaxReqsRateLimitSettingsKey.
Proof. solve_decision. Defined.

(** Keys as pairs of strings and numbers, to index maps with them. *)
Definition type_code (t : ApiEndpointType) : nat :=
  match t with UNKNOWN_API_ENDPOINT_TYPE => 0 | DME => 1 end.
Definition target_code (t : RateLimitTarget) : nat :=
  match t with UNKNOWN_TARGET => 0 | ALL_REQUESTS => 1 | PER_IP => 2 | PER_USER => 3 end.
Definition key_enc (k : RateLimitSettingsKey) : string * nat * nat :=
  (ApiName k, type_code (rlk_ApiEndpointType k), target_code (rlk_RateLimitTarget k)).
Definition key_dec (p : string * nat * nat) : option RateLimitSettingsKey :=
  let '(api, ty, tg) := p in
  Some (mkRLKey api (match ty with 1%nat => DME | _ => UNKNOWN_API_ENDPOINT_TYPE end)
    (match tg with 1%nat => ALL_REQUESTS | 2%nat => PER_IP | 3%nat => PER_USER
     | _ => UNKNOWN_TARGET end)).
#[export] Instance RateLimitSettingsKey_countable : Countable RateLimitSettingsKey.
Proof. refine (inj_countable key_enc key_dec _). by intros [api [] []]. Defined.
#[export] Instance FlowRateLimitSettingsKey_countable : Countable FlowRateLimitSettingsKey.
Proof.
  refine (inj_countable' (λ k, (FlowSettingsName k, fk_RateLimitKey k))
    (λ p, mkFlowKey p.1 p.2) _). by intros [].
Defined.
#[export] Instance MaxReqsRateLimitSettingsKey_countable : Countable MaxReqsRateLimitSettingsKey.
Proof.
  refine (inj_countable' (λ k, (MaxReqsSettingsName k, mk_RateLimitKey k))
    (λ p, mkMaxKey p.1 p.2) _). by intros [].
Defined.

Definition GlobalApiName : string := "Global".
Definition PersistentConnectionApiName : string := "PersistentConnection".

Definition FlowSettings_Validate (fmt_f : float64 → string) (f : FlowSettings) : result unit :=
  if decide (FlowAlgorithm f = LEAKY_BUCKET_ALGORITHM ∨ FlowAlgorithm f = TOKEN_BUCKET_ALGORITHM)
  then
    if f64_leb (ReqsPerSecond f) f64_zero
    then Err ("Invalid ReqsPerSecond " +:+ fmt_f (ReqsPerSecond f)
              +:+ ", must be greater than 0")
    else if decide (FlowAlgorithm f = TOKEN_BUCKET_ALGORITHM ∧ BurstSize f ≤ 0)
    then Err ("Invalid BurstSize " +:+ fmt_d (BurstSize f) +:+ ", must be greater than 0")
    else if decide (FlowAlgorithm f = LEAKY_BUCKET_ALGORITHM ∧ BurstSize f ≠ 0)
    then Err "BurstSize does not apply for the leaky bucket algorithm"
    else Ok tt
  else Err "Invalid FlowAlgorithm".

Definition MaxReqsSettings_Validate (m : MaxReqsSettings) : result unit :=
  if decide (MaxReqsAlgorithm m = FIXED_WINDOW_ALGORITHM) then
    if decide (MaxRequests m ≤ 0)
    then Err ("Invalid MaxRequests " +:+ fmt_d (MaxRequests m) +:+ ", must be greater than 0")
    else if decide (Interval m ≤ 0)
    then Err ("Invalid Interval " +:+ fmt_d (Interval m) +:+ ", must be greater than 0")
    else Ok tt
  else Err "Invalid MaxReqsAlgorithm".

(** The first error of a loop. *)
Fixpoint first_err {A} (f : A → result unit) (l : list A) : result unit :=
  match l with [] => Ok tt | a :: l' => f a ≫= λ _, first_err f l' end.

Definition RateLimitSettingsKey_ValidateKey (key : option RateLimitSettingsKey) : result unit :=
  match key with
  | None => Err "Nil key"
  | Some key =>
      if decide (ApiName key = "") then Err "Invalid ApiName"
      else if decide (rlk_RateLimitTarget key = UNKNOWN_TARGET) then Err "Invalid RateLimitTarget"
      else if decide (rlk_ApiEndpointType key = UNKNOWN_API_ENDPOINT_TYPE)
      then Err "Invalid ApiEndpointType"
      else Ok tt
  end.
Definition FlowKey_ValidateKey (key : option FlowRateLimitSettingsKey) : result unit :=
  match key with
  | None => Err "Nil key"
  | Some key =>
      if decide (FlowSettingsName key = "") then Err "Invalid FlowSettingsName"
      else RateLimitSettingsKey_ValidateKey (Some (fk_RateLimitKey key))
  end.
Definition MaxKey_ValidateKey (key : option MaxReqsRateLimitSettingsKey) : result unit :=
  match key with
  | None => Err "Nil key"
  | Some key =>
      if decide (MaxReqsSettingsName key = "") then Err "Invalid MaxReqsSettingsName"
      else RateLimitSettingsKey_ValidateKey (Some (mk_RateLimitKey key))
  end.
Definition GetRateLimitSettingsKey (apiName : string) (t : ApiEndpointType)
    (target : RateLimitTarget) : RateLimitSettingsKey := mkRLKey apiName t target.

Definition UpdateFlowSettings (r : RateLimitSettings) (f : FlowRateLimitSettings)
    : RateLimitSettings :=
  mkRLS (rls_Key r) (<[FlowSettingsName (frl_Key f) := frl_Settings f]> (rls_Flow r))
    (rls_MaxReqs r).
Definition RemoveFlowSettings (r : RateLimitSettings) (name : string) : RateLimitSettings :=
  mkRLS (rls_Key r) (delete name (rls_Flow r)) (rls_MaxReqs r).
Definition UpdateMaxReqsSettings (r : RateLimitSettings) (m : MaxReqsRateLimitSettings)
    : RateLimitSettings :=
  mkRLS (rls_Key r) (rls_Flow r)
    (<[MaxReqsSettingsName (mrl_Key m) := mrl_Settings m]> (rls_MaxReqs r)).
Definition RemoveMaxReqsSettings (r : RateLimitSettings) (name : string) : RateLimitSettings :=
  mkRLS (rls_Key r) (rls_Flow r) (delete name (rls_MaxReqs r)).

Definition token_settings (key : RateLimitSettingsKey) (name : string) (rps burst : Z)
    : RateLimitSettings :=
  mkRLS key {[name := mkFlowSettings TOKEN_BUCKET_ALGORITHM (f64_of_Z rps) burst]} ∅.
Definition GetDefaultRateLimitSettings : gmap RateLimitSettingsKey RateLimitSettings :=
  let dmeGlobalAllReqs := token_settings (mkRLKey GlobalApiName DME ALL_REQUESTS)
    "dmeglobalallreqs1" 25000 250 in
  let verifyLocAllReqs := token_settings (mkRLKey "VerifyLocation" DME ALL_REQUESTS)
    "verifylocallreqs1" 5000 50 in
  let persistentConnectionAllReqs :=
    token_settings (mkRLKey PersistentConnectionApiName DME ALL_REQUESTS)
    "persistentconnectionallreqs1" 100 10 in
  let dmeGlobalPerIp := token_settings (mkRLKey GlobalApiName DME PER_IP)
    "dmeglobalperip1" 10000 100 in
  let verifyLocPerIp := token_settings (mkRLKey "VerifyLocation" DME PER_IP)
    "verifylocperip1" 1000 25 in
  <[rls_Key verifyLocPerIp := verifyLocPerIp]>
  (<[rls_Key dmeGlobalPerIp := dmeGlobalPerIp]>
  (<[rls_Key persistentConnectionAllReqs := persistentConnectionAllReqs]>
  (<[rls_Key verifyLocAllReqs := verifyLocAllReqs]>
  (<[rls_Key dmeGlobalAllReqs := dmeGlobalAllReqs]> ∅)))).

Section Settings.
Context {GR : GoRange}.

Definition RateLimitSettings_Validate (fmt_f : float64 → string) (r : RateLimitSettings)
    : result unit :=
  first_err (λ kv, FlowSettings_Validate fmt_f kv.2) (go_range (rls_Flow r)) ≫= λ _,
  first_err (λ kv, MaxReqsSettings_Validate kv.2) (go_range (rls_MaxReqs r)).
Definition FlowRateLimitSettings_Validate (fmt_f : float64 → string)
    (f : FlowRateLimitSettings) : result unit := FlowSettings_Validate fmt_f (frl_Settings f).
Definition MaxReqsRateLimitSettings_Validate (m : MaxReqsRateLimitSettings) : result unit :=
  MaxReqsSettings_Validate (mrl_Settings m).

(** *** conversion.go *)

Definition add_flow (m : gmap RateLimitSettingsKey RateLimitSettings)
    (f : FlowRateLimitSettings) : gmap RateLimitSettingsKey RateLimitSettings :=
  let key := fk_RateLimitKey (frl_Key f) in
  let r := default (mkRLS key ∅ ∅) (m !! key) in
  <[key := mkRLS (rls_Key r) (<[FlowSettingsName (frl_Key f) := frl_Settings f]> (rls_Flow r))
             (rls_MaxReqs r)]> m.
Definition add_maxreqs (m : gmap RateLimitSettingsKey RateLimitSettings)
    (f : MaxReqsRateLimitSettings) : gmap RateLimitSettingsKey RateLimitSettings :=
  let key := mk_RateLimitKey (mrl_Key f) in
  let r := default (mkRLS key ∅ ∅) (m !! key) in
  <[key := mkRLS (rls_Key r) (rls_Flow r)
             (<[MaxReqsSettingsName (mrl_Key f) := mrl_Settings f]> (rls_MaxReqs r))]> m.
Definition DbToUserSettings (fsettings : list FlowRateLimitSettings)
    (msettings : list MaxReqsRateLimitSettings) : list RateLimitSettings :=
  let settingsmap := fold_left add_maxreqs msettings (fold_left add_flow fsettings ∅) in
  (go_range settingsmap).*2.

Definition flows_of (s : RateLimitSettings) : list FlowRateLimitSettings :=
  (λ kv, mkFlowRL (mkFlowKey kv.1 (rls_Key s)) kv.2) <$> go_range (rls_Flow s).
Definition maxreqs_of (s : RateLimitSettings) : list MaxReqsRateLimitSettings :=
  (λ kv, mkMaxRL (mkMaxKey kv.1 (rls_Key s)) kv.2) <$> go_range (rls_MaxReqs s).
Definition UserToDbSettings (settings : list RateLimitSettings)
    : list FlowRateLimitSettings * list MaxReqsRateLimitSettings :=
  (flat_map flows_of settings, flat_map maxreqs_of settings).

End Settings.

(** ** Limiters *)

Record CallerInfo := mkCaller { Api : string; User : string; Ip : string }.

(** golang.org/x/time/rate: [rl_new rate burst], and [Allow] and [Wait] at a
    reading of the clock. *)
Record RateLib := mkRateLib {
  rl_state : Type;
  rl_new : float64 → Z → rl_state;
  rl_allow : Z → rl_state → bool * rl_state;
  rl_wait : Z → rl_state → result unit * rl_state;
}.

Record IntervalLimiter := mkInterval {
  requestLimit : Z;
  currentNumberOfRequests : Z;
  interval : Z;
  intervalStartTime : Z;
}.

Section Limiters.
Context {GR : GoRange}.
Variable lib : RateLib.
Variable clk : nat → Z.
(** fmt's %f and the string of a duration, in messages only. *)
Variable fmt_f : float64 → string.
Variable fmt_duration : Z → string.

(** A computation that may read the clock: the number of readings is threaded. *)
Definition timed (A : Type) := nat → A * nat.

(** *** interval-limiter.go *)

Definition NewIntervalLimiter (reqLimit intvl : Z) : timed IntervalLimiter :=
  λ n, (mkInterval reqLimit 0 intvl (clk n), S n).

Definition Interval_Limit (i : IntervalLimiter) : timed (result unit * IntervalLimiter) :=
  λ n,
    let '(i, n) :=
      if decide (interval i < clk n - intervalStartTime i)
      then (mkInterval (requestLimit i) 0 (interval i) (clk (S n)), S (S n))
      else (i, S n) in
    if decide (requestLimit i ≤ currentNumberOfRequests i ∧ requestLimit i ≠ 0) then
      let waitTime := interval i - (clk n - intervalStartTime i) in
      (Err ("Exceeded limit of " +:+ fmt_d (requestLimit i) +:+ ", retry again in "
            +:+ fmt_duration waitTime), i, S n)
    else
      (Ok tt, mkInterval (requestLimit i) (wrap_i64 (currentNumberOfRequests i + 1))
                (interval i) (intervalStartTime i), n).

(** *** The flow limiters, and the Limiter interface of the limiters made
    from settings. *)
Inductive Limiter :=
| LTokenBucket (tokensPerSecond : float64) (bucketSize : Z) (limiter : rl_state lib)
| LLeakyBucket (reqsPerSecond : float64) (limiter : rl_state lib)
| LInterval (i : IntervalLimiter).

Definition NewTokenBucketLimiter (tokensPerSecond : float64) (bucketSize : Z) : Limiter :=
  LTokenBucket tokensPerSecond bucketSize (rl_new lib tokensPerSecond bucketSize).
Definition NewLeakyBucketLimiter (reqsPerSecond : float64) : Limiter :=
  LLeakyBucket reqsPerSecond (rl_new lib reqsPerSecond 1).

Definition TokenBucket_Limit (tps : float64) (size : Z) (l : rl_state lib)
    : timed (result unit * Limiter) :=
  λ n,
    let '(ok, l') := rl_allow lib (clk n) l in
    (if ok then Ok tt else Err ("Exceeded rate of " +:+ fmt_f tps +:+ " requests per second"),
     LTokenBucket tps size l', S n).
Definition LeakyBucket_Limit (rps : float64) (l : rl_state lib) : timed (result unit * Limiter) :=
  λ n,
    let '(r, l') := rl_wait lib (clk n) l in
    (map_err (λ e, "error during leakybucker rate limiting: " +:+ e) r, LLeakyBucket rps l', S n).

Definition Limiter_Limit (l : Limiter) : timed (result unit * Limiter) :=
  match l with
  | LTokenBucket tps size s => TokenBucket_Limit tps size s
  | LLeakyBucket rps s => LeakyBucket_Limit rps s
  | LInterval i => λ n, let '(r, i', n') := Interval_Limit i n in (r, LInterval i', n')
  end.

(** *** composite-limiter.go: the first refusal ends the loop. *)
Definition CompositeLimiter := list Limiter.

Fixpoint Composite_Limit (c : CompositeLimiter) : timed (result unit * CompositeLimiter) :=
  λ n,
    match c with
    | [] => (Ok tt, [], n)
    | l :: c' =>
        let '(r, l', n) := Limiter_Limit l n in
        match r with
        | Err e => (Err e, l' :: c', n)
        | Ok _ => let '(r, c'', n) := Composite_Limit c' n in (r, l' :: c'', n)
        end
    end.

(** *** From settings to limiters *)

Fixpoint flow_limiters (l : list (string * FlowSettings)) : list Limiter :=
  match l with
  | [] => []
  | (_, f) :: l' =>
      match FlowAlgorithm f with
      | TOKEN_BUCKET_ALGORITHM =>
          NewTokenBucketLimiter (ReqsPerSecond f) (BurstSize f) :: flow_limiters l'
      | LEAKY_BUCKET_ALGORITHM => NewLeakyBucketLimiter (ReqsPerSecond f) :: flow_limiters l'
      | UNKNOWN_FLOW_ALGORITHM => flow_limiters l'
      end
  end.
Fixpoint maxreqs_limiters (l : list (string * MaxReqsSettings)) : timed (list Limiter) :=
  λ n,
    match l with
    | [] => ([], n)
    | (_, m) :: l' =>
        match MaxReqsAlgorithm m with
        | FIXED_WINDOW_ALGORITHM =>
            let '(i, n) := NewIntervalLimiter (MaxRequests m) (Interval m) n in
            let '(ls, n) := maxreqs_limiters l' n in (LInterval i :: ls, n)
        | UNKNOWN_MAX_REQS_ALGORITHM => maxreqs_limiters l' n
        end
    end.
Definition getLimitersFromRateLimitSettings (settings : option RateLimitSettings)
    : timed (list Limiter) :=
  λ n,
    match settings with
    | None => ([], n)
    | Some s =>
        let fl := flow_limiters (go_range (rls_Flow s)) in
        let '(ml, n) := maxreqs_limiters (go_range (rls_MaxReqs s)) n in (fl ++ ml, n)
    end.

(** ** apiendpoint-limiter.go *)

Record apiEndpointRateLimitSettings := mkAES {
  AllRequestsRateLimitSettings : option RateLimitSettings;
  PerIpRateLimitSettings : option RateLimitSettings;
  PerUserRateLimitSettings : option RateLimitSettings;
}.

Record apiEndpointLimiter := mkAEL {
  apiName : string;
  aes : apiEndpointRateLimitSettings;
  limitAllRequests : CompositeLimiter;
  limitsPerIp : gmap string CompositeLimiter;
  limitsPerUser : gmap string CompositeLimiter;
  maxNumIps : Z;
  maxNumUsers : Z;
}.

Definition newApiEndpointLimiter (api : string) (s : apiEndpointRateLimitSettings)
    (maxIps maxUsers : Z) : timed apiEndpointLimiter :=
  λ n,
    let '(ls, n) := getLimitersFromRateLimitSettings (AllRequestsRateLimitSettings s) n in
    (mkAEL api s ls ∅ ∅ maxIps maxUsers, n).

Definition set_all (a : apiEndpointLimiter) (c : CompositeLimiter) : apiEndpointLimiter :=
  mkAEL (apiName a) (aes a) c (limitsPerIp a) (limitsPerUser a) (maxNumIps a) (maxNumUsers a).
Definition set_ips (a : apiEndpointLimiter) (m : gmap string CompositeLimiter)
    : apiEndpointLimiter :=
  mkAEL (apiName a) (aes a) (limitAllRequests a) m (limitsPerUser a) (maxNumIps a) (maxNumUsers a).
Definition set_users (a : apiEndpointLimiter) (m : gmap string CompositeLimiter)
    : apiEndpointLimiter :=
  mkAEL (apiName a) (aes a) (limitAllRequests a) (limitsPerIp a) m (maxNumIps a) (maxNumUsers a).
Definition set_aes (a : apiEndpointLimiter) (s : apiEndpointRateLimitSettings)
    : apiEndpointLimiter :=
  mkAEL (apiName a) s (limitAllRequests a) (limitsPerIp a) (limitsPerUser a) (maxNumIps a)
    (maxNumUsers a).

Definition doesLimitByUser (a : apiEndpointLimiter) : bool :=
  match PerUserRateLimitSettings (aes a) with Some _ => true | None => false end.
Definition doesLimitByIp (a : apiEndpointLimiter) : bool :=
  match PerIpRateLimitSettings (aes a) with Some _ => true | None => false end.
Definition doesLimitByAllRequests (a : apiEndpointLimiter) : bool :=
  match AllRequestsRateLimitSettings (aes a) with Some _ => true | None => false end.

(** Ranges over the entries and deletes them until the map is small enough. *)
Fixpoint remove_excess (max : Z) (visit : list string) (m : gmap string CompositeLimiter)
    : gmap string CompositeLimiter :=
  match visit with
  | [] => m
  | k :: visit' =>
      if decide (Z.of_nat (size m) < max) then m else remove_excess max visit' (delete k m)
  end.
Definition removeExcessIps (a : apiEndpointLimiter) : apiEndpointLimiter :=
  set_ips a (remove_excess (maxNumIps a) (go_range (limitsPerIp a)).*1 (limitsPerIp a)).
Definition removeExcessUsers (a : apiEndpointLimiter) : apiEndpointLimiter :=
  set_users a (remove_excess (maxNumUsers a) (go_range (limitsPerUser a)).*1 (limitsPerUser a)).

(** The two per-caller sections of [Limit]: look the limiter up, or make room
    and add one, and ask it. *)
Definition limit_per_ip (a : apiEndpointLimiter) (ip : string)
    : timed (result unit * apiEndpointLimiter) :=
  λ n,
    let '(limiter, a, n) :=
      match limitsPerIp a !! ip with
      | Some limiter => (limiter, a, n)
      | None =>
          let a := removeExcessIps a in
          let '(ls, n) := getLimitersFromRateLimitSettings (PerIpRateLimitSettings (aes a)) n in
          (ls, set_ips a (<[ip := ls]> (limitsPerIp a)), n)
      end in
    let '(r, limiter, n) := Composite_Limit limiter n in
    (map_err (λ e, "Client exceeded api rate limit per ip. " +:+ e) r,
     set_ips a (<[ip := limiter]> (limitsPerIp a)), n).
Definition limit_per_user (a : apiEndpointLimiter) (user : string)
    : timed (result unit * apiEndpointLimiter) :=
  λ n,
    let '(limiter, a, n) :=
      match limitsPerUser a !! user with
      | Some limiter => (limiter, a, n)
      | None =>
          let a := removeExcessUsers a in
          let '(ls, n) := getLimitersFromRateLimitSettings (PerUserRateLimitSettings (aes a)) n in
          (ls, set_users a (<[user := ls]> (limitsPerUser a)), n)
      end in
    let '(r, limiter, n) := Composite_Limit limiter n in
    (map_err (λ e, "user " +:+ quote user +:+ " exceeded api rate limit per user. " +:+ e) r,
     set_users a (<[user := limiter]> (limitsPerUser a)), n).

Definition Endpoint_Limit (a : apiEndpointLimiter) (info : option CallerInfo)
    : timed (result unit * apiEndpointLimiter) :=
  λ n,
    match info with
    | None => (Err "nil CallerInfo - skipping rate limit", a, n)
    | Some info =>
        let '(r, a, n) :=
          if doesLimitByIp a && negb (bool_decide (Ip info = ""))
          then limit_per_ip a (Ip info) n else (Ok tt, a, n) in
        match r with
        | Err e => (Err e, a, n)
        | Ok _ =>
            let '(r, a, n) :=
              if doesLimitByUser a && negb (bool_decide (User info = ""))
              then limit_per_user a (User info) n else (Ok tt, a, n) in
            match r with
            | Err e => (Err e, a, n)
            | Ok _ =>
                if doesLimitByAllRequests a then
                  let '(r, c, n) := Composite_Limit (limitAllRequests a) n in
                  (r, set_all a c, n)
                else (Ok tt, a, n)
            end
        end
    end.

(** *** Changing the settings of an endpoint *)

(** The settings of one target, and what a change to them resets. *)
Definition set_all_settings (a : apiEndpointLimiter) (s : option RateLimitSettings)
    : timed apiEndpointLimiter :=
  λ n,
    let a := set_aes a (mkAES s (PerIpRateLimitSettings (aes a)) (PerUserRateLimitSettings (aes a))) in
    let '(ls, n) := getLimitersFromRateLimitSettings s n in (set_all a ls, n).
Definition set_ip_settings (a : apiEndpointLimiter) (s : option RateLimitSettings)
    : apiEndpointLimiter :=
  set_ips (set_aes a (mkAES (AllRequestsRateLimitSettings (aes a)) s
                        (PerUserRateLimitSettings (aes a)))) ∅.
Definition set_user_settings (a : apiEndpointLimiter) (s : option RateLimitSettings)
    : apiEndpointLimiter :=
  set_users (set_aes a (mkAES (AllRequestsRateLimitSettings (aes a))
                          (PerIpRateLimitSettings (aes a)) s)) ∅.

Definition or_new (s : option RateLimitSettings) (key : RateLimitSettingsKey)
    : RateLimitSettings := default (mkRLS key ∅ ∅) s.

Definition updateFlowRateLimitSettings (a : apiEndpointLimiter)
    (f : option FlowRateLimitSettings) : timed apiEndpointLimiter :=
  λ n,
    match f with
    | None => (a, n)
    | Some f =>
        let key := fk_RateLimitKey (frl_Key f) in
        let upd s := Some (UpdateFlowSettings (or_new s key) f) in
        match rlk_RateLimitTarget key with
        | ALL_REQUESTS => set_all_settings a (upd (AllRequestsRateLimitSettings (aes a))) n
        | PER_IP => (set_ip_settings a (upd (PerIpRateLimitSettings (aes a))), n)
        | PER_USER => (set_user_settings a (upd (PerUserRateLimitSettings (aes a))), n)
        | UNKNOWN_TARGET => (a, n)
        end
    end.
Definition updateMaxReqsRateLimitSettings (a : apiEndpointLimiter)
    (f : option MaxReqsRateLimitSettings) : timed apiEndpointLimiter :=
  λ n,
    match f with
    | None => (a, n)
    | Some f =>
        let key := mk_RateLimitKey (mrl_Key f) in
        let upd s := Some (UpdateMaxReqsSettings (or_new s key) f) in
        match rlk_RateLimitTarget key with
        | ALL_REQUESTS => set_all_settings a (upd (AllRequestsRateLimitSettings (aes a))) n
        | PER_IP => (set_ip_settings a (upd (PerIpRateLimitSettings (aes a))), n)
        | PER_USER => (set_user_settings a (upd (PerUserRateLimitSettings (aes a))), n)
        | UNKNOWN_TARGET => (a, n)
        end
    end.

(** [None]: the nil dereference when the target has no settings. *)
Definition remove_settings (remove : RateLimitSettings → RateLimitSettings)
    (a : apiEndpointLimiter) (target : RateLimitTarget) : nat → option (apiEndpointLimiter * nat) :=
  λ n,
    match target with
    | ALL_REQUESTS =>
        s ← AllRequestsRateLimitSettings (aes a); Some (set_all_settings a (Some (remove s)) n)
    | PER_IP => s ← PerIpRateLimitSettings (aes a); Some (set_ip_settings a (Some (remove s)), n)
    | PER_USER =>
        s ← PerUserRateLimitSettings (aes a); Some (set_user_settings a (Some (remove s)), n)
    | UNKNOWN_TARGET => Some (a, n)
    end.
Definition removeFlowRateLimitSettings (a : apiEndpointLimiter) (target : RateLimitTarget)
    (name : string) : nat → option (apiEndpointLimiter * nat) :=
  remove_settings (λ s, RemoveFlowSettings s name) a target.
Definition removeMaxReqsRateLimitSettings (a : apiEndpointLimiter) (target : RateLimitTarget)
    (name : string) : nat → option (apiEndpointLimiter * nat) :=
  remove_settings (λ s, RemoveMaxReqsSettings s name) a target.

(** *** Pruning

    One loop per target over the names of its settings: a name whose key is
    not kept is removed.  As in the code, the third loop, over the settings per
    user, resets the limiters per IP. *)
Fixpoint prune_all (remove : RateLimitSettings → string → RateLimitSettings)
    (keep : RateLimitSettings → string → bool) (names : list string) (a : apiEndpointLimiter)
    : timed apiEndpointLimiter :=
  λ n,
    match names, AllRequestsRateLimitSettings (aes a) with
    | name :: names', Some s =>
        if keep s name then prune_all remove keep names' a n
        else let '(a, n) := set_all_settings a (Some (remove s name)) n in
             prune_all remove keep names' a n
    | _, _ => (a, n)
    end.
Fixpoint prune_ip (remove : RateLimitSettings → string → RateLimitSettings)
    (keep : RateLimitSettings → string → bool) (names : list string) (a : apiEndpointLimiter)
    : apiEndpointLimiter :=
  match names, PerIpRateLimitSettings (aes a) with
  | name :: names', Some s =>
      if keep s name then prune_ip remove keep names' a
      else prune_ip remove keep names' (set_ip_settings a (Some (remove s name)))
  | _, _ => a
  end.
Fixpoint prune_user (remove : RateLimitSettings → string → RateLimitSettings)
    (keep : RateLimitSettings → string → bool) (names : list string) (a : apiEndpointLimiter)
    : apiEndpointLimiter :=
  match names, PerUserRateLimitSettings (aes a) with
  | name :: names', Some s =>
      if keep s name then prune_user remove keep names' a
      else
        let a := set_aes a (mkAES (AllRequestsRateLimitSettings (aes a))
                              (PerIpRateLimitSettings (aes a)) (Some (remove s name))) in
        prune_user remove keep names' (set_ips a ∅)
  | _, _ => a
  end.

Definition flow_names (s : option RateLimitSettings) : list string :=
  match s with Some s => (go_range (rls_Flow s)).*1 | None => [] end.
Definition maxreqs_names (s : option RateLimitSettings) : list string :=
  match s with Some s => (go_range (rls_MaxReqs s)).*1 | None => [] end.

Definition pruneFlowRateLimitSettings (a : apiEndpointLimiter)
    (keys : gset FlowRateLimitSettingsKey) : timed apiEndpointLimiter :=
  λ n,
    let keep s name := bool_decide (mkFlowKey name (rls_Key s) ∈ keys) in
    let '(a, n) := prune_all RemoveFlowSettings keep
                     (flow_names (AllRequestsRateLimitSettings (aes a))) a n in
    let a := prune_ip RemoveFlowSettings keep (flow_names (PerIpRateLimitSettings (aes a))) a in
    (prune_user RemoveFlowSettings keep (flow_names (PerUserRateLimitSettings (aes a))) a, n).
Definition pruneMaxReqsRateLimitSettings (a : apiEndpointLimiter)
    (keys : gset MaxReqsRateLimitSettingsKey) : timed apiEndpointLimiter :=
  λ n,
    let keep s name := bool_decide (mkMaxKey name (rls_Key s) ∈ keys) in
    let '(a, n) := prune_all RemoveMaxReqsSettings keep
                     (maxreqs_names (AllRequestsRateLimitSettings (aes a))) a n in
    let a := prune_ip RemoveMaxReqsSettings keep
               (maxreqs_names (PerIpRateLimitSettings (aes a))) a in
    (prune_user RemoveMaxReqsSettings keep
       (maxreqs_names (PerUserRateLimitSettings (aes a))) a, n).

Definition updateMaxNumIps (a : apiEndpointLimiter) (max : Z) : apiEndpointLimiter :=
  mkAEL (apiName a) (aes a) (limitAllRequests a) (limitsPerIp a) (limitsPerUser a) max
    (maxNumUsers a).
Definition updateMaxNumUsers (a : apiEndpointLimiter) (max : Z) : apiEndpointLimiter :=
  mkAEL (apiName a) (aes a) (limitAllRequests a) (limitsPerIp a) (limitsPerUser a) (maxNumIps a)
    max.

Definition num_settings (s : option RateLimitSettings) : nat :=
  match s with Some s => size (rls_Flow s) + size (rls_MaxReqs s) | None => 0 end.
Definition isEmpty (a : apiEndpointLimiter) : bool :=
  bool_decide (num_settings (AllRequestsRateLimitSettings (aes a))
               + num_settings (PerIpRateLimitSettings (aes a))
               + num_settings (PerUserRateLimitSettings (aes a)) = 0)%nat.

(** ** ratelimitmgr.go *)

Record RateLimitManager := mkManager {
  limitsPerApi : gmap string apiEndpointLimiter;
  disableRateLimit : bool;
  maxTrackedIps : Z;
  maxTrackedUsers : Z;
}.
Definition NewRateLimitManager (disable : bool) (maxIps maxUsers : Z) : RateLimitManager :=
  mkManager ∅ disable maxIps maxUsers.
Definition set_apis (r : RateLimitManager) (m : gmap string apiEndpointLimiter)
    : RateLimitManager :=
  mkManager m (disableRateLimit r) (maxTrackedIps r) (maxTrackedUsers r).

Definition CreateApiEndpointLimiter (r : RateLimitManager) (api : string)
    (allReqs perIp perUser : option RateLimitSettings) : timed RateLimitManager :=
  λ n,
    let '(a, n) := newApiEndpointLimiter api (mkAES allReqs perIp perUser) (maxTrackedIps r)
                     (maxTrackedUsers r) n in
    (set_apis r (<[api := a]> (limitsPerApi r)), n).

(** The limiter of an API, created when there is none. *)
Definition lookup_or_new (r : RateLimitManager) (api : string) : timed apiEndpointLimiter :=
  λ n,
    match limitsPerApi r !! api with
    | Some a => (a, n)
    | None => newApiEndpointLimiter api (mkAES None None None) (maxTrackedIps r)
                (maxTrackedUsers r) n
    end.
Definition UpdateFlowRateLimitSettings (r : RateLimitManager) (f : FlowRateLimitSettings)
    : timed RateLimitManager :=
  λ n,
    let api := ApiName (fk_RateLimitKey (frl_Key f)) in
    let '(a, n) := lookup_or_new r api n in
    let '(a, n) := updateFlowRateLimitSettings a (Some f) n in
    (set_apis r (<[api := a]> (limitsPerApi r)), n).
Definition UpdateMaxReqsRateLimitSettings (r : RateLimitManager) (f : MaxReqsRateLimitSettings)
    : timed RateLimitManager :=
  λ n,
    let api := ApiName (mk_RateLimitKey (mrl_Key f)) in
    let '(a, n) := lookup_or_new r api n in
    let '(a, n) := updateMaxReqsRateLimitSettings a (Some f) n in
    (set_apis r (<[api := a]> (limitsPerApi r)), n).

(** The entry of an API after a change: dropped when nothing is left. *)
Definition put_or_drop (r : RateLimitManager) (api : string) (a : apiEndpointLimiter)
    : RateLimitManager :=
  if isEmpty a then set_apis r (delete api (limitsPerApi r))
  else set_apis r (<[api := a]> (limitsPerApi r)).
Definition RemoveFlowRateLimitSettings (r : RateLimitManager) (key : FlowRateLimitSettingsKey)
    : nat → option (RateLimitManager * nat) :=
  λ n,
    let api := ApiName (fk_RateLimitKey key) in
    match limitsPerApi r !! api with
    | None => Some (r, n)
    | Some a =>
        p ← removeFlowRateLimitSettings a (rlk_RateLimitTarget (fk_RateLimitKey key))
              (FlowSettingsName key) n;
        Some (put_or_drop r api p.1, p.2)
    end.
Definition RemoveMaxReqsRateLimitSettings (r : RateLimitManager)
    (key : MaxReqsRateLimitSettingsKey) : nat → option (RateLimitManager * nat) :=
  λ n,
    let api := ApiName (mk_RateLimitKey key) in
    match limitsPerApi r !! api with
    | None => Some (r, n)
    | Some a =>
        p ← removeMaxReqsRateLimitSettings a (rlk_RateLimitTarget (mk_RateLimitKey key))
              (MaxReqsSettingsName key) n;
        Some (put_or_drop r api p.1, p.2)
    end.

Fixpoint prune_apis (prune : apiEndpointLimiter → timed apiEndpointLimiter)
    (l : list (string * apiEndpointLimiter)) (r : RateLimitManager) : timed RateLimitManager :=
  λ n,
    match l with
    | [] => (r, n)
    | (api, a) :: l' =>
        let '(a, n) := prune a n in prune_apis prune l' (put_or_drop r api a) n
    end.
Definition PruneFlowRateLimitSettings (r : RateLimitManager)
    (keys : gset FlowRateLimitSettingsKey) : timed RateLimitManager :=
  prune_apis (λ a, pruneFlowRateLimitSettings a keys) (go_range (limitsPerApi r)) r.
Definition PruneMaxReqsRateLimitSettings (r : RateLimitManager)
    (keys : gset MaxReqsRateLimitSettingsKey) : timed RateLimitManager :=
  prune_apis (λ a, pruneMaxReqsRateLimitSettings a keys) (go_range (limitsPerApi r)) r.

Definition UpdateDisableRateLimit (r : RateLimitManager) (disable : bool) : RateLimitManager :=
  mkManager (limitsPerApi r) disable (maxTrackedIps r) (maxTrackedUsers r).
Definition UpdateMaxTrackedIps (r : RateLimitManager) (max : Z) : RateLimitManager :=
  mkManager ((λ a, updateMaxNumIps a max) <$> limitsPerApi r) (disableRateLimit r) max
    (maxTrackedUsers r).
Definition UpdateMaxTrackedUsers (r : RateLimitManager) (max : Z) : RateLimitManager :=
  mkManager ((λ a, updateMaxNumUsers a max) <$> limitsPerApi r) (disableRateLimit r)
    (maxTrackedIps r) max.

Definition Manager_Limit (r : RateLimitManager) (info : option CallerInfo)
    : timed (result unit * RateLimitManager) :=
  λ n,
    if disableRateLimit r then (Ok tt, r, n)
    else
      match info with
      | None => (Err "nil CallerInfo - skipping rate limit", r, n)
      | Some i =>
          let found :=
            match limitsPerApi r !! Api i with
            | Some a => Some (Api i, a)
            | None => (λ a, (GlobalApiName, a)) <$> limitsPerApi r !! GlobalApiName
            end in
          match found with
          | None => (Ok tt, r, n)
          | Some (api, a) =>
              let '(res, a, n) := Endpoint_Limit a info n in
              (res, set_apis r (<[api := a]> (limitsPerApi r)), n)
          end
      end.

(** ** Specification *)

(** A limiter without its state: what the settings say about it. *)
Inductive limiter_params :=
| PTokenBucket (tokensPerSecond : float64) (bucketSize : Z)
| PLeakyBucket (reqsPerSecond : float64)
| PInterval (limit intvl : Z).
Definition params_of (l : Limiter) : limiter_params :=
  match l with
  | LTokenBucket tps size _ => PTokenBucket tps size
  | LLeakyBucket rps _ => PLeakyBucket rps
  | LInterval i => PInterval (requestLimit i) (interval i)
  end.
Definition flow_params (f : FlowSettings) : option limiter_params :=
  match FlowAlgorithm f with
  | TOKEN_BUCKET_ALGORITHM => Some (PTokenBucket (ReqsPerSecond f) (BurstSize f))
  | LEAKY_BUCKET_ALGORITHM => Some (PLeakyBucket (ReqsPerSecond f))
  | UNKNOWN_FLOW_ALGORITHM => None
  end.
Definition maxreqs_params (m : MaxReqsSettings) : option limiter_params :=
  match MaxReqsAlgorithm m with
  | FIXED_WINDOW_ALGORITHM => Some (PInterval (MaxRequests m) (Interval m))
  | UNKNOWN_MAX_REQS_ALGORITHM => None
  end.
(** The limits that settings ask for. *)
Definition settings_params (s : option RateLimitSettings) : list limiter_params :=
  match s with
  | None => []
  | Some s => omap (λ kv, flow_params kv.2) (go_range (rls_Flow s)) ++
              omap (λ kv, maxreqs_params kv.2) (go_range (rls_MaxReqs s))
  end.

(** The limiters of an endpoint enforce its current settings: those of all
    requests and of the addresses, and of the users when [users]. *)
Definition in_sync (users : bool) (a : apiEndpointLimiter) : Prop :=
  params_of <$> limitAllRequests a = settings_params (AllRequestsRateLimitSettings (aes a)) ∧
  map_Forall (λ _ c, params_of <$> c = settings_params (PerIpRateLimitSettings (aes a)))
    (limitsPerIp a) ∧
  (users = true →
   map_Forall (λ _ c, params_of <$> c = settings_params (PerUserRateLimitSettings (aes a)))
     (limitsPerUser a)).
Definition mgr_in_sync (users : bool) (r : RateLimitManager) : Prop :=
  map_Forall (λ _ a, in_sync users a) (limitsPerApi r).

(** [k] requests in a row. *)
Fixpoint interval_calls (k : nat) (i : IntervalLimiter) : timed (nat * IntervalLimiter) :=
  λ n,
    match k with
    | O => (0%nat, i, n)
    | S k' =>
        let '(r, i, n) := Interval_Limit i n in
        let '(c, i, n) := interval_calls k' i n in
        ((if is_ok r then S c else c), i, n)
    end.

(** ** Lemmas *)

Lemma Interval_Limit_cases i n :
  Interval_Limit i n =
  let expired := bool_decide (interval i < clk n - intervalStartTime i) in
  let i1 := if expired then mkInterval (requestLimit i) 0 (interval i) (clk (S n)) else i in
  let n1 := if expired then S (S n) else S n in
  if decide (requestLimit i ≤ currentNumberOfRequests i1 ∧ requestLimit i ≠ 0) then
    (Err ("Exceeded limit of " +:+ fmt_d (requestLimit i) +:+ ", retry again in "
          +:+ fmt_duration (interval i - (clk n1 - intervalStartTime i1))), i1, S n1)
  else
    (Ok tt, mkInterval (requestLimit i) (wrap_i64 (currentNumberOfRequests i1 + 1))
              (interval i) (intervalStartTime i1), n1).
Proof.
  unfold Interval_Limit. simpl. case_bool_decide; simpl.
  - by rewrite decide_True by done.
  - by rewrite decide_False by done.
Qed.

Lemma wrap_i64_small z : 0 ≤ z < 2 ^ 63 → wrap_i64 z = z.
Proof. intros H. unfold wrap_i64. rewrite Z.mod_small; lia. Qed.

Lemma interval_calls_window k i n :
  0 ≤ currentNumberOfRequests i ≤ requestLimit i → 0 < requestLimit i < 2 ^ 63 →
  (∀ m, (n ≤ m < n + 2 * k)%nat → clk m - intervalStartTime i ≤ interval i) →
  let '(c, i', _) := interval_calls k i n in
  Z.of_nat c = Z.min (Z.of_nat k) (requestLimit i - currentNumberOfRequests i) ∧
  currentNumberOfRequests i' = currentNumberOfRequests i + Z.of_nat c ∧
  requestLimit i' = requestLimit i ∧ intervalStartTime i' = intervalStartTime i.
Proof.
  revert i n. induction k as [|k IH]; intros i n Hc Hl Hw; cbn [interval_calls]; [simpl; lia|].
  rewrite Interval_Limit_cases.
  rewrite (bool_decide_false (interval i < _)) by (specialize (Hw n); lia).
  cbn [fst snd]. case_decide as Hd.
  - specialize (IH i (S (S n)) Hc Hl). destruct (interval_calls k i (S (S n))) as [[c i'] n'].
    destruct IH as (H1 & H2 & H3 & H4); [intros m Hm; apply Hw; lia|]. simpl. lia.
  - rewrite wrap_i64_small by lia.
    set (i1 := mkInterval _ _ _ _). specialize (IH i1 (S n)).
    destruct (interval_calls k i1 (S n)) as [[c i'] n'].
    destruct IH as (H1 & H2 & H3 & H4); simpl; [lia|lia|intros m Hm; apply Hw; lia|].
    simpl in *. lia.
Qed.

Lemma flow_limiters_params l : params_of <$> flow_limiters l = omap (λ kv, flow_params kv.2) l.
Proof.
  induction l as [|[k f] l IH]; [done|]. simpl. unfold flow_params.
  destruct (FlowAlgorithm f); simpl; [done|by f_equal..].
Qed.
Lemma maxreqs_limiters_params l n :
  params_of <$> (maxreqs_limiters l n).1 = omap (λ kv, maxreqs_params kv.2) l.
Proof.
  revert n. induction l as [|[k m] l IH]; intros n; [done|]. simpl. unfold maxreqs_params.
  destruct (MaxReqsAlgorithm m); [apply IH|]. simpl. specialize (IH (S n)).
  destruct (maxreqs_limiters l (S n)) as [ls n']. simpl. by f_equal.
Qed.
Lemma getLimiters_params s n :
  params_of <$> (getLimitersFromRateLimitSettings s n).1 = settings_params s.
Proof.
  destruct s as [s|]; [|done]. simpl.
  pose proof (maxreqs_limiters_params (go_range (rls_MaxReqs s)) n) as H.
  destruct (maxreqs_limiters _ n) as [ml n']. simpl in *.
  by rewrite fmap_app, flow_limiters_params, H.
Qed.

Lemma Limiter_Limit_params l n : params_of (Limiter_Limit l n).1.2 = params_of l.
Proof.
  destruct l as [tps size s|rps s|i]; simpl.
  - unfold TokenBucket_Limit. by destruct (rl_allow lib (clk n) s).
  - unfold LeakyBucket_Limit. by destruct (rl_wait lib (clk n) s).
  - rewrite Interval_Limit_cases. cbn zeta. case_bool_decide; by case_decide.
Qed.
Lemma Composite_Limit_params c n :
  params_of <$> (Composite_Limit c n).1.2 = params_of <$> c.
Proof.
  revert n. induction c as [|l c IH]; intros n; [done|]. simpl.
  pose proof (Limiter_Limit_params l n) as Hl.
  destruct (Limiter_Limit l n) as [[r l'] n1]. simpl in Hl. destruct r as [u|e]; simpl.
  - specialize (IH n1). destruct (Composite_Limit c n1) as [[r' c'] n2]. simpl in *. by f_equal.
  - by f_equal.
Qed.

Lemma map_Forall_remove_excess (P : string → CompositeLimiter → Prop) max l m :
  map_Forall P m → map_Forall P (remove_excess max l m).
Proof.
  revert m. induction l as [|k l IH]; intros m Hm; simpl; [done|]. case_decide; [done|].
  apply IH. by apply map_Forall_delete.
Qed.

Lemma limit_per_ip_sync {u} a ip n :
  in_sync u a → in_sync u (limit_per_ip a ip n).1.2 ∧ aes (limit_per_ip a ip n).1.2 = aes a.
Proof.
  intros (Hall & Hip & Hus). unfold limit_per_ip.
  destruct (limitsPerIp a !! ip) as [c|] eqn:Hk.
  - pose proof (Composite_Limit_params c n) as Hc.
    destruct (Composite_Limit c n) as [[r c'] n']. simpl in *.
    split; [|done]. split; [done|]. split; [|done]. simpl.
    apply map_Forall_insert_2; [|done]. rewrite Hc. by apply (Hip ip).
  - pose proof (getLimiters_params (PerIpRateLimitSettings (aes a)) n) as Hg. simpl.
    destruct (getLimitersFromRateLimitSettings _ n) as [ls n1].
    pose proof (Composite_Limit_params ls n1) as Hc.
    destruct (Composite_Limit ls n1) as [[r c'] n']. simpl in *.
    split; [|done]. split; [done|]. split; [|done]. simpl.
    apply map_Forall_insert_2; [congruence|]. apply map_Forall_insert_2; [congruence|].
    by apply map_Forall_remove_excess.
Qed.
Lemma limit_per_user_sync {u} a user n :
  in_sync u a → in_sync u (limit_per_user a user n).1.2 ∧ aes (limit_per_user a user n).1.2 = aes a.
Proof.
  intros (Hall & Hip & Hus). unfold limit_per_user.
  destruct (limitsPerUser a !! user) as [c|] eqn:Hk.
  - pose proof (Composite_Limit_params c n) as Hc.
    destruct (Composite_Limit c n) as [[r c'] n']. simpl in *.
    split; [|done]. split; [done|]. split; [done|]. simpl.
    intros Hu. apply map_Forall_insert_2; [|by apply Hus]. rewrite Hc. by apply (Hus Hu user).
  - pose proof (getLimiters_params (PerUserRateLimitSettings (aes a)) n) as Hg. simpl.
    destruct (getLimitersFromRateLimitSettings _ n) as [ls n1].
    pose proof (Composite_Limit_params ls n1) as Hc.
    destruct (Composite_Limit ls n1) as [[r c'] n']. simpl in *.
    split; [|done]. split; [done|]. split; [done|]. simpl. intros Hu.
    apply map_Forall_insert_2; [congruence|]. apply map_Forall_insert_2; [congruence|].
    by apply map_Forall_remove_excess, Hus.
Qed.

Lemma Endpoint_Limit_sync {u} a info n : in_sync u a → in_sync u (Endpoint_Limit a info n).1.2.
Proof.
  intros Ha. unfold Endpoint_Limit. destruct info as [info|]; [|done].
  set (step1 := if doesLimitByIp a && _ then _ else _).
  assert (H1 : in_sync u step1.1.2).
  { unfold step1. case_match; [|done]. by apply limit_per_ip_sync. }
  destruct step1 as [[[ok|e] a1] n1]; simpl in H1; [|done].
  set (step2 := if doesLimitByUser a1 && _ then _ else _).
  assert (H2 : in_sync u step2.1.2).
  { unfold step2. case_match; [|done]. by apply limit_per_user_sync. }
  destruct step2 as [[[u2|e] a2] n2]; simpl in H2; [|done].
  destruct (doesLimitByAllRequests a2); [|done].
  pose proof (Composite_Limit_params (limitAllRequests a2) n2) as Hc.
  destruct (Composite_Limit (limitAllRequests a2) n2) as [[r c] n3]. simpl in *.
  destruct H2 as (Hall & Hip & Hus). split; [|done]. simpl. by rewrite Hc.
Qed.

Lemma set_all_settings_sync {u} a s n : in_sync u a → in_sync u (set_all_settings a s n).1.
Proof.
  intros (_ & Hip & Hus). unfold set_all_settings.
  pose proof (getLimiters_params s n) as Hg.
  destruct (getLimitersFromRateLimitSettings s n) as [ls n']. by split.
Qed.
Lemma set_ip_settings_sync {u} a s : in_sync u a → in_sync u (set_ip_settings a s).
Proof. intros (? & _ & ?). split; [done|]. split; [apply map_Forall_empty|done]. Qed.
Lemma set_user_settings_sync {u} a s : in_sync u a → in_sync u (set_user_settings a s).
Proof. intros (? & ? & _). split; [done|]. split; [done|intros _; apply map_Forall_empty]. Qed.

Lemma new_sync {u} api s mi mu n : in_sync u (newApiEndpointLimiter api s mi mu n).1.
Proof.
  unfold newApiEndpointLimiter.
  pose proof (getLimiters_params (AllRequestsRateLimitSettings s) n) as Hg.
  destruct (getLimitersFromRateLimitSettings _ n) as [ls n']. split; [done|].
  split; [apply map_Forall_empty|intros _; apply map_Forall_empty].
Qed.

Lemma updateFlow_sync {u} a f n : in_sync u a → in_sync u (updateFlowRateLimitSettings a f n).1.
Proof.
  intros Ha. destruct f as [f|]; [|done]. simpl.
  destruct (rlk_RateLimitTarget _); simpl;
    auto using set_all_settings_sync, set_ip_settings_sync, set_user_settings_sync.
Qed.
Lemma updateMaxReqs_sync {u} a f n : in_sync u a → in_sync u (updateMaxReqsRateLimitSettings a f n).1.
Proof.
  intros Ha. destruct f as [f|]; [|done]. simpl.
  destruct (rlk_RateLimitTarget _); simpl;
    auto using set_all_settings_sync, set_ip_settings_sync, set_user_settings_sync.
Qed.
Lemma remove_sync {u} rm a target n p :
  in_sync u a → remove_settings rm a target n = Some p → in_sync u p.1.
Proof.
  intros Ha H. unfold remove_settings in H. destruct target; simpl in H.
  - by simplify_eq.
  - destruct (AllRequestsRateLimitSettings (aes a)); simplify_eq/=.
    by apply set_all_settings_sync.
  - destruct (PerIpRateLimitSettings (aes a)); simplify_eq/=. by apply set_ip_settings_sync.
  - destruct (PerUserRateLimitSettings (aes a)); simplify_eq/=.
    by apply set_user_settings_sync.
Qed.

(** *** Pruning *)

Lemma prune_all_spec {u} rm keep names a n :
  in_sync u a →
  in_sync u (prune_all rm keep names a n).1 ∧
  PerIpRateLimitSettings (aes (prune_all rm keep names a n).1) = PerIpRateLimitSettings (aes a) ∧
  PerUserRateLimitSettings (aes (prune_all rm keep names a n).1)
    = PerUserRateLimitSettings (aes a).
Proof.
  revert a n. induction names as [|name names IH]; intros a n Ha; [done|]. simpl.
  destruct (AllRequestsRateLimitSettings (aes a)) as [s|]; [|done].
  destruct (keep s name); [by apply IH|].
  pose proof (set_all_settings_sync a (Some (rm s name)) n Ha) as Hs.
  unfold set_all_settings in *.
  destruct (getLimitersFromRateLimitSettings _ n) as [ls n1].
  destruct (IH _ n1 Hs) as (H1 & H2 & H3). done.
Qed.
Lemma prune_ip_spec {u} rm keep names a :
  in_sync u a →
  in_sync u (prune_ip rm keep names a) ∧
  PerUserRateLimitSettings (aes (prune_ip rm keep names a)) = PerUserRateLimitSettings (aes a).
Proof.
  revert a. induction names as [|name names IH]; intros a Ha; [done|]. simpl.
  destruct (PerIpRateLimitSettings (aes a)) as [s|]; [|done].
  destruct (keep s name); [by apply IH|].
  destruct (IH (set_ip_settings a (Some (rm s name)))) as [H1 H2];
    [by apply set_ip_settings_sync|]. done.
Qed.
(** The loop over the settings per user leaves the limiters of users: these stay
    in force when it removes nothing. *)
Lemma prune_user_kept rm keep names a s :
  PerUserRateLimitSettings (aes a) = Some s → Forall (λ name, keep s name = true) names →
  prune_user rm keep names a = a.
Proof.
  intros Hs. induction 1 as [|name names Hk _ IH]; [done|]. simpl. by rewrite Hs, Hk.
Qed.
Lemma prune_user_shared rm keep names a : in_sync false a → in_sync false (prune_user rm keep names a).
Proof.
  revert a. induction names as [|name names IH]; intros a Ha; [done|]. simpl.
  destruct (PerUserRateLimitSettings (aes a)) as [s|]; [|done]. destruct (keep s name); [by apply IH|].
  apply IH. destruct Ha as (H1 & _ & _). split; [exact H1|]. split; [apply map_Forall_empty|done].
Qed.
Lemma prune_user_sync {u} rm keep names a :
  in_sync u a →
  (u = true → ∀ s, PerUserRateLimitSettings (aes a) = Some s → Forall (λ name, keep s name = true) names) →
  in_sync u (prune_user rm keep names a).
Proof.
  intros Ha Hk. destruct u; [|by apply prune_user_shared].
  destruct (PerUserRateLimitSettings (aes a)) as [s|] eqn:Hs.
  - by rewrite (prune_user_kept _ _ _ a s) by auto.
  - destruct names as [|name names]; [done|]. simpl. by rewrite Hs.
Qed.
(** The three loops. *)
Lemma prune_sync {u} rm keep l1 (l2 l3 : apiEndpointLimiter → list string) a n :
  in_sync u a →
  (u = true → ∀ a' s, PerUserRateLimitSettings (aes a') = PerUserRateLimitSettings (aes a) →
     PerUserRateLimitSettings (aes a) = Some s → Forall (λ name, keep s name = true) (l3 a')) →
  in_sync u (let '(a, n) := prune_all rm keep l1 a n in
             let a := prune_ip rm keep (l2 a) a in (prune_user rm keep (l3 a) a, n)).1.
Proof.
  intros Ha Hk. destruct (prune_all_spec rm keep l1 a n Ha) as (Hs & Hip & Hus).
  destruct (prune_all rm keep l1 a n) as [a1 n1]. cbn [fst] in *.
  destruct (prune_ip_spec rm keep (l2 a1) a1 Hs) as [Hs2 Hu]. rewrite Hus in Hu. cbn zeta. cbn [fst].
  apply prune_user_sync; [done|]. intros Hut s Hps. apply Hk; [done|done|congruence].
Qed.

(** The settings after a pruning loop. *)
Definition prune_settings (rm : RateLimitSettings → string → RateLimitSettings)
    (keep : RateLimitSettings → string → bool) (names : list string) (s : RateLimitSettings)
    : RateLimitSettings :=
  fold_left (λ s name, if keep s name then s else rm s name) names s.

Lemma prune_all_settings rm keep names a n :
  AllRequestsRateLimitSettings (aes (prune_all rm keep names a n).1) =
  prune_settings rm keep names <$> AllRequestsRateLimitSettings (aes a).
Proof.
  revert a n. induction names as [|name names IH]; intros a n; simpl.
  { by destruct (AllRequestsRateLimitSettings (aes a)). }
  destruct (AllRequestsRateLimitSettings (aes a)) as [s|] eqn:Hs; simpl; [|done].
  destruct (keep s name); [by rewrite IH, Hs|].
  unfold set_all_settings. destruct (getLimitersFromRateLimitSettings _ n) as [ls n1].
  by rewrite IH.
Qed.
Lemma prune_ip_settings rm keep names a :
  PerIpRateLimitSettings (aes (prune_ip rm keep names a)) =
  prune_settings rm keep names <$> PerIpRateLimitSettings (aes a).
Proof.
  revert a. induction names as [|name names IH]; intros a; simpl.
  { by destruct (PerIpRateLimitSettings (aes a)). }
  destruct (PerIpRateLimitSettings (aes a)) as [s|] eqn:Hs; simpl; [|done].
  destruct (keep s name); by rewrite IH, ?Hs.
Qed.
Lemma prune_user_settings rm keep names a :
  aes (prune_user rm keep names a) =
  mkAES (AllRequestsRateLimitSettings (aes a)) (PerIpRateLimitSettings (aes a))
    (prune_settings rm keep names <$> PerUserRateLimitSettings (aes a)).
Proof.
  assert (Heta : ∀ x o, PerUserRateLimitSettings x = o →
    x = mkAES (AllRequestsRateLimitSettings x) (PerIpRateLimitSettings x) o)
    by (by intros [] ? <-).
  revert a. induction names as [|name names IH]; intros a; simpl.
  { apply Heta. by destruct (PerUserRateLimitSettings (aes a)). }
  destruct (PerUserRateLimitSettings (aes a)) as [s|] eqn:Hs; simpl; [|by apply Heta].
  destruct (keep s name); by rewrite IH, ?Hs.
Qed.
Lemma prune_ip_all rm keep names a :
  AllRequestsRateLimitSettings (aes (prune_ip rm keep names a))
  = AllRequestsRateLimitSettings (aes a).
Proof.
  revert a. induction names as [|name names IH]; intros a; simpl; [done|].
  destruct (PerIpRateLimitSettings (aes a)) as [s|]; [|done].
  destruct (keep s name); by rewrite IH.
Qed.

Lemma prune_settings_flow (k : RateLimitSettingsKey → string → bool) names s :
  let s' := prune_settings RemoveFlowSettings (λ s name, k (rls_Key s) name) names s in
  rls_Key s' = rls_Key s ∧ rls_MaxReqs s' = rls_MaxReqs s ∧
  ∀ x, rls_Flow s' !! x =
    if decide (x ∈ names ∧ k (rls_Key s) x = false) then None else rls_Flow s !! x.
Proof.
  revert s. induction names as [|name names IH]; intros s; cbn zeta.
  { split; [done|]. split; [done|]. intros x. rewrite decide_False by set_solver. done. }
  unfold prune_settings. cbn [fold_left]. destruct (k (rls_Key s) name) eqn:Hk.
  - destruct (IH s) as (H1 & H2 & H3). split; [done|]. split; [done|]. intros x.
    rewrite H3. apply decide_ext. rewrite elem_of_cons. split.
    + intros [Hin Hkx]. split; [by right|done].
    + intros [[->|Hin] Hkx]; [congruence|done].
  - destruct (IH (RemoveFlowSettings s name)) as (H1 & H2 & H3). simpl in *.
    split; [done|]. split; [done|]. intros x. rewrite H3, lookup_delete.
    repeat case_decide; subst; try done; set_solver.
Qed.

(** What pruning leaves of settings: the flow settings whose keys are kept. *)
Definition keep_flows (keys : gset FlowRateLimitSettingsKey) (s : RateLimitSettings)
    : RateLimitSettings :=
  mkRLS (rls_Key s) (filter (λ kv, mkFlowKey kv.1 (rls_Key s) ∈ keys) (rls_Flow s))
    (rls_MaxReqs s).

Lemma prune_flows_all keys s :
  prune_settings RemoveFlowSettings
    (λ s name, bool_decide (mkFlowKey name (rls_Key s) ∈ keys)) (flow_names (Some s)) s
  = keep_flows keys s.
Proof.
  destruct (prune_settings_flow (λ key name, bool_decide (mkFlowKey name key ∈ keys))
    (flow_names (Some s)) s) as (H1 & H2 & H3).
  destruct (prune_settings _ _ _ s) as [key' flow' mr']. simpl in *. subst.
  unfold keep_flows. f_equal. apply map_eq. intros x. rewrite H3, map_lookup_filter.
  destruct (rls_Flow s !! x) as [f|] eqn:Hf; simpl; [|by case_decide].
  case_decide as Hd; case_guard as Hg; try done.
  - destruct Hd as [_ Hd]. simpl in Hg. by apply bool_decide_eq_false in Hd.
  - destruct Hd. split; [|by apply bool_decide_eq_false].
    apply list_elem_of_fmap. exists (x, f). split; [done|]. by apply elem_of_go_range.
Qed.

Lemma prune_flows_option keys o :
  prune_settings RemoveFlowSettings
    (λ s name, bool_decide (mkFlowKey name (rls_Key s) ∈ keys)) (flow_names o) <$> o
  = keep_flows keys <$> o.
Proof. destruct o as [s|]; [|done]. exact (f_equal Some (prune_flows_all keys s)). Qed.

Lemma pruneFlow_aes {u} a keys n :
  in_sync u a →
  aes (pruneFlowRateLimitSettings a keys n).1 =
  mkAES (keep_flows keys <$> AllRequestsRateLimitSettings (aes a))
    (keep_flows keys <$> PerIpRateLimitSettings (aes a))
    (keep_flows keys <$> PerUserRateLimitSettings (aes a)).
Proof.
  intros Ha. unfold pruneFlowRateLimitSettings.
  set (keep := λ s name, bool_decide _). set (l1 := flow_names (AllRequestsRateLimitSettings _)).
  destruct (prune_all_spec RemoveFlowSettings keep l1 a n Ha) as (Hs & Hip & Hus).
  pose proof (prune_all_settings RemoveFlowSettings keep l1 a n) as Hall.
  destruct (prune_all RemoveFlowSettings keep l1 a n) as [a1 n1]. cbn [fst] in *.
  rewrite prune_user_settings, prune_ip_all, prune_ip_settings, Hall, Hip.
  destruct (prune_ip_spec RemoveFlowSettings keep
    (flow_names (PerIpRateLimitSettings (aes a))) a1 Hs) as [_ Hu].
  rewrite Hu, Hus. unfold l1, keep. by rewrite !prune_flows_option.
Qed.

(** No setting per user is removed. *)
Definition keeps_user_flows (keys : gset FlowRateLimitSettingsKey) (a : apiEndpointLimiter) : Prop :=
  ∀ s name, PerUserRateLimitSettings (aes a) = Some s → is_Some (rls_Flow s !! name) → mkFlowKey name (rls_Key s) ∈ keys.
Definition keeps_user_maxreqs (keys : gset MaxReqsRateLimitSettingsKey) (a : apiEndpointLimiter) : Prop :=
  ∀ s name, PerUserRateLimitSettings (aes a) = Some s → is_Some (rls_MaxReqs s !! name) → mkMaxKey name (rls_Key s) ∈ keys.
Lemma pruneFlow_sync {u} a keys n :
  in_sync u a → (u = true → keeps_user_flows keys a) → in_sync u (pruneFlowRateLimitSettings a keys n).1.
Proof.
  intros Ha Hk. unfold pruneFlowRateLimitSettings. set (keep := λ s name, bool_decide _).
  apply (prune_sync RemoveFlowSettings keep _ (λ a, flow_names (PerIpRateLimitSettings (aes a)))
    (λ a, flow_names (PerUserRateLimitSettings (aes a)))); [done|].
  intros Hu a' s Heq Hs. rewrite Heq, Hs. apply Forall_forall. intros name Hin. apply bool_decide_eq_true.
  apply (Hk Hu s); [done|]. apply list_elem_of_fmap in Hin as ([k v] & -> & Hin). apply elem_of_go_range in Hin. by eexists.
Qed.
Lemma pruneMaxReqs_sync {u} a keys n :
  in_sync u a → (u = true → keeps_user_maxreqs keys a) → in_sync u (pruneMaxReqsRateLimitSettings a keys n).1.
Proof.
  intros Ha Hk. unfold pruneMaxReqsRateLimitSettings. set (keep := λ s name, bool_decide _).
  apply (prune_sync RemoveMaxReqsSettings keep _ (λ a, maxreqs_names (PerIpRateLimitSettings (aes a)))
    (λ a, maxreqs_names (PerUserRateLimitSettings (aes a)))); [done|].
  intros Hu a' s Heq Hs. rewrite Heq, Hs. apply Forall_forall. intros name Hin. apply bool_decide_eq_true.
  apply (Hk Hu s); [done|]. apply list_elem_of_fmap in Hin as ([k v] & -> & Hin). apply elem_of_go_range in Hin. by eexists.
Qed.

(** *** The manager *)

Lemma mgr_insert_sync {u} r api a : mgr_in_sync u r → in_sync u a →
  mgr_in_sync u (set_apis r (<[api := a]> (limitsPerApi r))).
Proof. intros Hr Ha. by apply map_Forall_insert_2. Qed.
Lemma put_or_drop_sync {u} r api a : mgr_in_sync u r → in_sync u a → mgr_in_sync u (put_or_drop r api a).
Proof.
  intros Hr Ha. unfold put_or_drop. destruct (isEmpty a).
  - by apply map_Forall_delete.
  - by apply mgr_insert_sync.
Qed.
Lemma lookup_or_new_sync {u} r api n : mgr_in_sync u r → in_sync u (lookup_or_new r api n).1.
Proof.
  intros Hr. unfold lookup_or_new. destruct (limitsPerApi r !! api) as [a|] eqn:Ha.
  - by apply (Hr api).
  - apply new_sync.
Qed.

(** The requests to a manager. *)
Inductive mgr_op :=
| MCreate (api : string) (allReqs perIp perUser : option RateLimitSettings)
| MUpdateFlow (f : FlowRateLimitSettings)
| MRemoveFlow (key : FlowRateLimitSettingsKey)
| MUpdateMaxReqs (f : MaxReqsRateLimitSettings)
| MRemoveMaxReqs (key : MaxReqsRateLimitSettingsKey)
| MDisable (b : bool)
| MMaxIps (max : Z)
| MMaxUsers (max : Z)
| MPruneFlow (keys : gset FlowRateLimitSettingsKey)
| MPruneMaxReqs (keys : gset MaxReqsRateLimitSettingsKey)
| MLimit (info : option CallerInfo).
Definition mgr_step (o : mgr_op) (r : RateLimitManager) (n : nat)
    : option (RateLimitManager * nat) :=
  match o with
  | MCreate api x y z => Some (CreateApiEndpointLimiter r api x y z n)
  | MUpdateFlow f => Some (UpdateFlowRateLimitSettings r f n)
  | MRemoveFlow key => RemoveFlowRateLimitSettings r key n
  | MUpdateMaxReqs f => Some (UpdateMaxReqsRateLimitSettings r f n)
  | MRemoveMaxReqs key => RemoveMaxReqsRateLimitSettings r key n
  | MDisable b => Some (UpdateDisableRateLimit r b, n)
  | MMaxIps max => Some (UpdateMaxTrackedIps r max, n)
  | MMaxUsers max => Some (UpdateMaxTrackedUsers r max, n)
  | MPruneFlow keys => Some (PruneFlowRateLimitSettings r keys n)
  | MPruneMaxReqs keys => Some (PruneMaxReqsRateLimitSettings r keys n)
  | MLimit info => let '(_, r', n') := Manager_Limit r info n in Some (r', n')
  end.
(** No setting per user is pruned. *)
Definition keeps_users (o : mgr_op) (r : RateLimitManager) : Prop :=
  match o with
  | MPruneFlow keys => map_Forall (λ _, keeps_user_flows keys) (limitsPerApi r)
  | MPruneMaxReqs keys => map_Forall (λ _, keeps_user_maxreqs keys) (limitsPerApi r)
  | _ => True
  end.
(** A request, with the reading of the clock it begins at; when [users], one that
    prunes no setting per user. *)
Definition mgr_next (users : bool) (s s' : RateLimitManager * nat) : Prop :=
  ∃ o, mgr_step o s.1 s.2 = Some s' ∧ (users = true → keeps_users o s.1).

Lemma prune_apis_sync {u} prune l r n :
  Forall (λ kv, ∀ n, in_sync u (prune kv.2 n).1) l → mgr_in_sync u r → mgr_in_sync u (prune_apis prune l r n).1.
Proof.
  intros Hl. revert r n. induction Hl as [|[api a] l Ha _ IH]; intros r n Hr; [done|]. simpl.
  specialize (Ha n). simpl in Ha. destruct (prune a n) as [a' n']. by apply IH, put_or_drop_sync.
Qed.
Lemma range_apis {P : apiEndpointLimiter → Prop} (m : gmap string apiEndpointLimiter) :
  map_Forall (λ _, P) m → Forall (λ kv, P kv.2) (go_range m).
Proof. intros Hm. apply Forall_forall. intros [k a] Hin%elem_of_go_range. by eapply Hm. Qed.

Lemma map_fmap_sync {u} (f : apiEndpointLimiter → apiEndpointLimiter)
    (m : gmap string apiEndpointLimiter) :
  (∀ a, in_sync u a → in_sync u (f a)) →
  map_Forall (λ _ a, in_sync u a) m → map_Forall (λ _ a, in_sync u a) (f <$> m).
Proof. intros Hf Hm k a. rewrite lookup_fmap_Some. intros (a' & <- & Hk). by eapply Hf, Hm. Qed.

Lemma Manager_Limit_sync {u} r info n : mgr_in_sync u r → mgr_in_sync u (Manager_Limit r info n).1.2.
Proof.
  intros Hr. unfold Manager_Limit. destruct (disableRateLimit r); [done|].
  destruct info as [i|]; [|done].
  set (found := match limitsPerApi r !! Api i with Some _ => _ | None => _ end).
  assert (Hf : ∀ api a, found = Some (api, a) → in_sync u a).
  { intros api a. unfold found. destruct (limitsPerApi r !! Api i) as [a'|] eqn:Ha.
    - intros [= <- <-]. by apply (Hr (Api i)).
    - destruct (limitsPerApi r !! GlobalApiName) as [a'|] eqn:Hg; simpl; [|done].
      intros [= <- <-]. by apply (Hr GlobalApiName). }
  destruct found as [[api a]|]; [|done].
  pose proof (Endpoint_Limit_sync a (Some i) n (Hf api a eq_refl)) as Hs.
  destruct (Endpoint_Limit a (Some i) n) as [[res a'] n']. by apply mgr_insert_sync.
Qed.

Lemma mgr_step_sync {u} o r n p :
  (u = true → keeps_users o r) → mgr_in_sync u r → mgr_step o r n = Some p → mgr_in_sync u p.1.
Proof.
  intros Hk Hr H. destruct o as [api x y z|f|key|f|key|b|max|max|keys|keys|info]; simpl in H, Hk; simplify_eq.
  - unfold CreateApiEndpointLimiter.
    pose proof (new_sync (u := u) api (mkAES x y z) (maxTrackedIps r) (maxTrackedUsers r) n) as Hn.
    destruct (newApiEndpointLimiter _ _ _ _ n) as [a n']. by apply mgr_insert_sync.
  - unfold UpdateFlowRateLimitSettings.
    pose proof (lookup_or_new_sync r (ApiName (fk_RateLimitKey (frl_Key f))) n Hr) as Hl.
    destruct (lookup_or_new _ _ n) as [a n1]. simpl in Hl.
    pose proof (updateFlow_sync a (Some f) n1 Hl) as Hu.
    destruct (updateFlowRateLimitSettings a (Some f) n1) as [a2 n2]. by apply mgr_insert_sync.
  - unfold RemoveFlowRateLimitSettings in H.
    destruct (limitsPerApi r !! _) as [a|] eqn:Ha; [|by simplify_eq].
    destruct (removeFlowRateLimitSettings a _ _ n) as [q|] eqn:Hq; simplify_eq/=.
    apply put_or_drop_sync; [done|]. eapply remove_sync, Hq. by apply (Hr _ _ Ha).
  - unfold UpdateMaxReqsRateLimitSettings.
    pose proof (lookup_or_new_sync r (ApiName (mk_RateLimitKey (mrl_Key f))) n Hr) as Hl.
    destruct (lookup_or_new _ _ n) as [a n1]. simpl in Hl.
    pose proof (updateMaxReqs_sync a (Some f) n1 Hl) as Hu.
    destruct (updateMaxReqsRateLimitSettings a (Some f) n1) as [a2 n2].
    by apply mgr_insert_sync.
  - unfold RemoveMaxReqsRateLimitSettings in H.
    destruct (limitsPerApi r !! _) as [a|] eqn:Ha; [|by simplify_eq].
    destruct (removeMaxReqsRateLimitSettings a _ _ n) as [q|] eqn:Hq; simplify_eq/=.
    apply put_or_drop_sync; [done|]. eapply remove_sync, Hq. by apply (Hr _ _ Ha).
  - done.
  - by apply map_fmap_sync.
  - by apply map_fmap_sync.
  - apply prune_apis_sync; [|done]. apply (range_apis (P := λ a, ∀ n, in_sync u (pruneFlowRateLimitSettings a keys n).1)). intros api a Ha m.
    apply pruneFlow_sync; [by eapply Hr|]. intros Hu. by eapply (Hk Hu).
  - apply prune_apis_sync; [|done]. apply (range_apis (P := λ a, ∀ n, in_sync u (pruneMaxReqsRateLimitSettings a keys n).1)). intros api a Ha m.
    apply pruneMaxReqs_sync; [by eapply Hr|]. intros Hu. by eapply (Hk Hu).
  - pose proof (Manager_Limit_sync r info n Hr) as Hm.
    destruct (Manager_Limit r info n) as [[res r'] n']. by simplify_eq.
Qed.

(** *** Tracked callers *)

Lemma remove_excess_size max l m :
  (∀ k, k ∈ dom m → k ∈ l) →
  (Z.of_nat (size (remove_excess max l m)) < max ∨ remove_excess max l m = ∅) ∧
  remove_excess max l m ⊆ m.
Proof.
  revert m. induction l as [|k l IH]; intros m Hm; simpl.
  - assert (m = ∅) as -> by (apply dom_empty_inv_L; set_solver). auto.
  - case_decide; [auto|]. destruct (IH (delete k m)) as [H1 H2].
    + intros x. rewrite dom_delete_L. set_solver.
    + split; [done|]. etrans; [done|]. apply delete_subseteq.
Qed.

Lemma tracked_room m max (k : string) (c c' : CompositeLimiter) :
  Z.of_nat (size (<[k := c']> (<[k := c]> (remove_excess max (go_range m).*1 m))))
    ≤ Z.max 1 max.
Proof.
  destruct (remove_excess_size max (go_range m).*1 m) as [H _].
  { intros x [v Hx]%elem_of_dom. apply list_elem_of_fmap. exists (x, v).
    split; [done|]. by apply elem_of_go_range. }
  rewrite insert_insert_eq.
  assert (Hs : ∀ m' : gmap string CompositeLimiter, (size (<[k := c']> m') ≤ S (size m'))%nat).
  { intros m'. destruct (m' !! k) eqn:Hk.
    - rewrite map_size_insert_Some by eauto. lia.
    - rewrite map_size_insert_None by done. lia. }
  specialize (Hs (remove_excess max (go_range m).*1 m)).
  destruct H as [H|H]; [lia|]. rewrite H, map_size_empty in Hs. rewrite H. lia.
Qed.

Lemma limit_per_ip_tracked a ip n :
  let a' := (limit_per_ip a ip n).1.2 in
  limitsPerUser a' = limitsPerUser a ∧
  if decide (limitsPerIp a !! ip = None)
  then Z.of_nat (size (limitsPerIp a')) ≤ Z.max 1 (maxNumIps a)
  else dom (limitsPerIp a') = dom (limitsPerIp a).
Proof.
  unfold limit_per_ip. destruct (limitsPerIp a !! ip) as [c|] eqn:Hk.
  - destruct (Composite_Limit c n) as [[r c'] n']. simpl. split; [done|].
    apply dom_insert_lookup_L. by eexists.
  - simpl. destruct (getLimitersFromRateLimitSettings _ n) as [ls n1].
    destruct (Composite_Limit ls n1) as [[r c'] n']. simpl. split; [done|].
    apply tracked_room.
Qed.

Lemma limit_per_user_tracked a user n :
  let a' := (limit_per_user a user n).1.2 in
  limitsPerIp a' = limitsPerIp a ∧
  if decide (limitsPerUser a !! user = None)
  then Z.of_nat (size (limitsPerUser a')) ≤ Z.max 1 (maxNumUsers a)
  else dom (limitsPerUser a') = dom (limitsPerUser a).
Proof.
  unfold limit_per_user. destruct (limitsPerUser a !! user) as [c|] eqn:Hk.
  - destruct (Composite_Limit c n) as [[r c'] n']. simpl. split; [done|].
    apply dom_insert_lookup_L. by eexists.
  - simpl. destruct (getLimitersFromRateLimitSettings _ n) as [ls n1].
    destruct (Composite_Limit ls n1) as [[r c'] n']. simpl. split; [done|].
    apply tracked_room.
Qed.

(** The tracked callers of an endpoint: at most the configured numbers (one
    at the least). *)
Definition tracked_ok (a : apiEndpointLimiter) : Prop :=
  Z.of_nat (size (limitsPerIp a)) ≤ Z.max 1 (maxNumIps a) ∧
  Z.of_nat (size (limitsPerUser a)) ≤ Z.max 1 (maxNumUsers a).

Lemma size_same_dom (m m' : gmap string CompositeLimiter) : dom m = dom m' → size m = size m'.
Proof. intros H. by rewrite <- !size_dom, H. Qed.

Lemma limit_per_ip_maxes a ip n :
  let a' := (limit_per_ip a ip n).1.2 in
  maxNumIps a' = maxNumIps a ∧ maxNumUsers a' = maxNumUsers a.
Proof.
  unfold limit_per_ip. destruct (limitsPerIp a !! ip) as [c|].
  - by destruct (Composite_Limit c n) as [[r c'] n'].
  - simpl. destruct (getLimitersFromRateLimitSettings _ n) as [ls n1].
    by destruct (Composite_Limit ls n1) as [[r c'] n'].
Qed.
Lemma limit_per_user_maxes a user n :
  let a' := (limit_per_user a user n).1.2 in
  maxNumIps a' = maxNumIps a ∧ maxNumUsers a' = maxNumUsers a.
Proof.
  unfold limit_per_user. destruct (limitsPerUser a !! user) as [c|].
  - by destruct (Composite_Limit c n) as [[r c'] n'].
  - simpl. destruct (getLimitersFromRateLimitSettings _ n) as [ls n1].
    by destruct (Composite_Limit ls n1) as [[r c'] n'].
Qed.

Lemma limit_per_ip_tracked_ok a ip n : tracked_ok a → tracked_ok (limit_per_ip a ip n).1.2.
Proof.
  intros [Hi Hu]. destruct (limit_per_ip_tracked a ip n) as [Hus Hip].
  destruct (limit_per_ip_maxes a ip n) as [H1 H2]. unfold tracked_ok. rewrite Hus, H1, H2.
  split; [|done]. case_decide; [done|]. by rewrite (size_same_dom _ _ Hip).
Qed.
Lemma limit_per_user_tracked_ok a user n :
  tracked_ok a → tracked_ok (limit_per_user a user n).1.2.
Proof.
  intros [Hi Hu]. destruct (limit_per_user_tracked a user n) as [Hus Hip].
  destruct (limit_per_user_maxes a user n) as [H1 H2]. unfold tracked_ok. rewrite Hus, H1, H2.
  split; [done|]. case_decide; [done|]. by rewrite (size_same_dom _ _ Hip).
Qed.
Lemma Endpoint_Limit_tracked a info n : tracked_ok a → tracked_ok (Endpoint_Limit a info n).1.2.
Proof.
  intros Ha. unfold Endpoint_Limit. destruct info as [info|]; [|done].
  set (step1 := if doesLimitByIp a && _ then _ else _).
  assert (H1 : tracked_ok step1.1.2).
  { unfold step1. case_match; [|done]. by apply limit_per_ip_tracked_ok. }
  destruct step1 as [[[ok|e] a1] n1]; simpl in H1; [|done].
  set (step2 := if doesLimitByUser a1 && _ then _ else _).
  assert (H2 : tracked_ok step2.1.2).
  { unfold step2. case_match; [|done]. by apply limit_per_user_tracked_ok. }
  destruct step2 as [[[u2|e] a2] n2]; simpl in H2; [|done].
  destruct (doesLimitByAllRequests a2); [|done].
  by destruct (Composite_Limit (limitAllRequests a2) n2) as [[r c] n3].
Qed.

(** ** Properties *)

(** A fixed window limiter: of [k] requests whose clock readings all fall in
    the current interval exactly as many are accepted as the limit still
    allows, and the count and the start of the interval tell so; a request
    after the interval is accepted, restarts it at that reading and counts
    as its first. *)
Theorem IntervalLimiter_window i n k :
  0 ≤ currentNumberOfRequests i ≤ requestLimit i → 0 < requestLimit i < 2 ^ 63 →
  ((∀ m, (n ≤ m < n + 2 * k)%nat → clk m - intervalStartTime i ≤ interval i) →
   let '(c, i', _) := interval_calls k i n in
   Z.of_nat c = Z.min (Z.of_nat k) (requestLimit i - currentNumberOfRequests i) ∧
   currentNumberOfRequests i' = currentNumberOfRequests i + Z.of_nat c ∧
   intervalStartTime i' = intervalStartTime i) ∧
  (interval i < clk n - intervalStartTime i →
   Interval_Limit i n =
     (Ok tt, mkInterval (requestLimit i) 1 (interval i) (clk (S n)), S (S n))).
Proof.
  intros Hc Hl. split.
  - intros Hw. pose proof (interval_calls_window k i n Hc Hl Hw) as H.
    destruct (interval_calls k i n) as [[c i'] n']. naive_solver.
  - intros He. rewrite Interval_Limit_cases. rewrite bool_decide_true by done. simpl.
    by rewrite decide_False by lia.
Qed.

(** C35: the limiters in force always are those of the current settings.  From a
    manager where they are (as in a new one), after any requests (creations, updates,
    removals, prunings, changes of the switches, calls), whatever the clock and the
    token buckets do: the limiters of all requests and of each tracked address enforce
    the settings of their target; and so do those of each tracked user, when no
    pruning removes a setting per user ([prune_per_user_keeps_limiters]). *)
Theorem limiters_in_sync (users : bool) (s s' : RateLimitManager * nat) :
  mgr_in_sync users s.1 → rtc (mgr_next users) s s' → mgr_in_sync users s'.1.
Proof.
  intros Hs Hrun. induction Hrun as [|x y z (o & Ho & Hk) _ IH]; [done|]. apply IH. by eapply mgr_step_sync.
Qed.

(** Pruning flow settings leaves at an endpoint, for each of the three
    targets, exactly the flow settings whose keys are kept, and every other
    setting. *)
Theorem pruneFlow_correct a keys n :
  in_sync true a →
  aes (pruneFlowRateLimitSettings a keys n).1 =
  mkAES (keep_flows keys <$> AllRequestsRateLimitSettings (aes a))
    (keep_flows keys <$> PerIpRateLimitSettings (aes a))
    (keep_flows keys <$> PerUserRateLimitSettings (aes a)).
Proof. exact (pruneFlow_aes a keys n). Qed.

(** A request never makes an endpoint track more addresses or users than
    configured (or one, if less than one is configured). *)
Theorem Endpoint_Limit_bounded a info n :
  tracked_ok a → tracked_ok (Endpoint_Limit a info n).1.2.
Proof. exact (Endpoint_Limit_tracked a info n). Qed.

End Limiters.

(** ** Witnesses, and pruning the settings of users *)

Module RateLimitWitness.

#[local] Existing Instance canonical_range.

(** A bucket that hands its tokens out once. *)
Definition lib0 : RateLib :=
  mkRateLib Z (λ _ burst, burst) (λ _ l, (bool_decide (0 < l), l - 1)) (λ _ l, (Ok tt, l)).
Definition clk0 (n : nat) : Z := Z.of_nat n.

Definition key_user : RateLimitSettingsKey := mkRLKey "FindCloudlet" DME PER_USER.
Definition user_settings : RateLimitSettings := token_settings key_user "u1" 10 5.
Definition user_limiter : Limiter lib0 := NewTokenBucketLimiter lib0 (f64_of_Z 10) 5.
(** An endpoint that limits each user and tracks one. *)
Definition a0 : apiEndpointLimiter lib0 :=
  mkAEL lib0 "FindCloudlet" (mkAES None None (Some user_settings)) [] ∅
    {["alice" := [user_limiter]]} 100 100.

Lemma a0_sync : in_sync lib0 true a0.
Proof.
  split; [done|]. split; [apply map_Forall_empty|]. intros _. apply map_Forall_singleton. by vm_compute.
Qed.

(** Pruning the only flow setting per user removes the setting but keeps the
    limiter of a tracked user, which goes on limiting that user by the removed
    setting: the loop over the settings per user resets the limiters per
    address instead. *)
Theorem prune_per_user_keeps_limiters :
  in_sync lib0 true a0 ∧
  let a := (pruneFlowRateLimitSettings lib0 clk0 a0 ∅ 0%nat).1 in
  PerUserRateLimitSettings (aes lib0 a) = Some (keep_flows ∅ user_settings) ∧
  limitsPerUser lib0 a = limitsPerUser lib0 a0 ∧
  ¬ in_sync lib0 true a.
Proof.
  split; [exact a0_sync|]. split; [by vm_compute|]. split; [by vm_compute|].
  intros (_ & _ & Hu). specialize (Hu eq_refl "alice" [user_limiter] eq_refl). by vm_compute in Hu.
Qed.

Lemma IntervalLimiter_window_witness :
  (interval_calls clk0 (λ _, "") 3 (mkInterval 2 0 100 0) 0%nat).1.1 = 2%nat ∧
  ∀ i n, interval i = 5 → requestLimit i = 2 → intervalStartTime i = 0 →
    currentNumberOfRequests i = 2 → n = 6%nat →
    is_ok (Interval_Limit clk0 (λ _, "") i n).1.1 = true.
Proof.
  split.
  - destruct (IntervalLimiter_window clk0 (λ _, "") (mkInterval 2 0 100 0) 0%nat 3%nat) as [H _];
      [simpl; lia|simpl; lia|].
    assert (Hw : ∀ m, (0 ≤ m < 0 + 2 * 3)%nat →
      clk0 m - intervalStartTime (mkInterval 2 0 100 0) ≤ interval (mkInterval 2 0 100 0))
      by (intros m Hm; unfold clk0; simpl; lia).
    specialize (H Hw). destruct (interval_calls _ _ _ _ _) as [[c i'] n']. simpl in *. lia.
  - intros i n Hi Hl Hs Hc ->.
    destruct (IntervalLimiter_window clk0 (λ _, "") i 6%nat 0%nat) as [_ H]; [lia|lia|].
    rewrite H; [done|]. unfold clk0. lia.
Defined.

Definition mgr0 : RateLimitManager lib0 := mkManager lib0 {["FindCloudlet" := a0]} false 100 100.
Lemma mgr0_sync : mgr_in_sync lib0 true mgr0.
Proof. apply map_Forall_singleton, a0_sync. Qed.

Definition op0 : mgr_op :=
  MUpdateFlow (mkFlowRL (mkFlowKey "u2" key_user)
    (mkFlowSettings LEAKY_BUCKET_ALGORITHM (f64_of_Z 3) 0)).
(** A pruning that keeps the settings of users, then a new setting. *)
Definition op1 : mgr_op := MPruneFlow {[mkFlowKey "u1" key_user]}.
Definition mgr1 : RateLimitManager lib0 * nat :=
  Eval vm_compute in default (mgr0, 0%nat) (mgr_step lib0 clk0 (λ _, "") (λ _, "") op1 mgr0 0%nat).
Definition mgr2 : RateLimitManager lib0 * nat :=
  Eval vm_compute in default (mgr0, 0%nat) (mgr_step lib0 clk0 (λ _, "") (λ _, "") op0 mgr1.1 mgr1.2).
Lemma limiters_in_sync_witness :
  limitsPerApi lib0 mgr2.1 !! "FindCloudlet" ≠ None ∧ mgr_in_sync lib0 true mgr2.1.
Proof.
  split; [vm_compute; discriminate|].
  apply (limiters_in_sync lib0 clk0 (λ _, "") (λ _, "") true (mgr0, 0%nat) mgr2); [exact mgr0_sync|].
  apply (rtc_l _ _ mgr1); [exists op1; split; [vm_compute; reflexivity|]|].
  - intros _. apply map_Forall_singleton. intros s name [= <-] [f Hf]. simpl in Hf.
    apply lookup_singleton_Some in Hf as [<- _]. set_solver.
  - apply rtc_once. exists op0. split; [vm_compute; reflexivity|done].
Defined.

Lemma pruneFlow_correct_witness :
  PerUserRateLimitSettings (aes lib0
    (pruneFlowRateLimitSettings lib0 clk0 a0 {[mkFlowKey "u1" key_user]} 0%nat).1)
  = Some user_settings.
Proof.
  rewrite (pruneFlow_correct lib0 clk0 a0 {[mkFlowKey "u1" key_user]} 0%nat a0_sync).
  by vm_compute.
Defined.

Lemma Endpoint_Limit_bounded_witness :
  tracked_ok lib0
    (Endpoint_Limit lib0 clk0 (λ _, "") (λ _, "") a0
       (Some (mkCaller "FindCloudlet" "bob" "")) 0%nat).1.2.
Proof. apply Endpoint_Limit_bounded. split; vm_compute; discriminate. Defined.

End RateLimitWitness.
