(* ===== verification/NotifyOrd.v ===== *)
(** * The order of objects on notify streams (api/edgeproto/notify_order.go)

    A graph of object types with an order number each: a type comes after the
    types it refers to.  A node is named by its type; the pointers of the code
    are names here.  [orderUpdated] recurses through the graph, here with
    fuel: any fuel above the length of the longest chain of references is
    enough, as [rank] functions show. *)

From S2P Require Export GoStd.

(** ** Data *)

Record NotifyOrderNode := mkNode {
  typeName : string;
  order : nat;
  dependsOn : list string;
  dependedOnBy : list string;
}.
Abbreviation NotifyOrder := (gmap string NotifyOrderNode).

Definition set_order (o : nat) (x : NotifyOrderNode) : NotifyOrderNode :=
  mkNode (typeName x) o (dependsOn x) (dependedOnBy x).
Definition order_of (s : NotifyOrder) (x : string) : nat := from_option order 0 (s !! x).
Definition users_of (s : NotifyOrder) (x : string) : list string :=
  from_option dependedOnBy [] (s !! x).

(** ** Operations *)

Definition getNode (s : NotifyOrder) (obj : string) : NotifyOrder :=
  match s !! obj with Some _ => s | None => <[obj := mkNode obj 0 [] []]> s end.

(** [None]: out of fuel. *)
Fixpoint orderUpdated (fuel : nat) (s : NotifyOrder) (x : string) : option NotifyOrder :=
  match fuel with
  | O => None
  | S fuel' =>
      (fix loop (s : NotifyOrder) (users : list string) : option NotifyOrder :=
         match users with
         | [] => Some s
         | u :: users' =>
             if decide (order_of s x < order_of s u) then loop s users'
             else
               s1 ← orderUpdated fuel' (alter (set_order (order_of s x + 1)) u s) u;
               loop s1 users'
         end) s (users_of s x)
  end.

Definition addObjectDep (fuel : nat) (s : NotifyOrder) (obj dep : string)
    : option NotifyOrder :=
  let s := getNode (getNode s obj) dep in
  let s := alter (λ x, mkNode (typeName x) (order x) (dependsOn x ++ [dep]) (dependedOnBy x)) obj s in
  let s := alter (λ x, mkNode (typeName x) (order x) (dependsOn x) (dependedOnBy x ++ [obj])) dep s in
  if decide (order_of s dep < order_of s obj) then Some s
  else orderUpdated fuel (alter (set_order (order_of s dep + 1)) obj s) obj.

Fixpoint add_deps (fuel : nat) (s : NotifyOrder) (deps : list (string * string))
    : option NotifyOrder :=
  match deps with
  | [] => Some s
  | (obj, ref) :: deps' => s1 ← addObjectDep fuel s obj ref; add_deps fuel s1 deps'
  end.

Definition Less (s : NotifyOrder) (t1 t2 : string) : bool :=
  bool_decide (order_of s t1 < order_of s t2).

(** api/edgeproto/alert.pb.go: the references between the object types. *)
Definition references : list (string * list string) := [
  ("AllData", ["AlertPolicy"; "App"; "AutoProvPolicy"; "AutoScalePolicy"; "Cloudlet";
      "ClusterInst"; "Flavor"; "GPUDriver"; "Network"; "PlatformFeatures"; "ResTagTable"; "TrustPolicy"; "VMPool"; "Zone"; "ZonePool"]);
  ("App", ["AlertPolicy"; "AutoProvPolicy"; "Flavor"]);
  ("AppAlertPolicy", ["AlertPolicy"; "App"]);
  ("AppAutoProvPolicy", ["App"; "AutoProvPolicy"]);
  ("AppInst", ["App"; "Cloudlet"; "ClusterInst"; "Flavor"]);
  ("AppInstKeyV1", ["ClusterInst"]);
  ("AppInstKeyV2", ["Cloudlet"]);
  ("AppInstRefs", ["AppInst"]);
  ("AutoProvPolicy", ["Zone"]);
  ("AutoProvPolicyZone", ["AutoProvPolicy"; "Zone"]);
  ("Cloudlet", ["Flavor"; "GPUDriver"; "PlatformFeatures"; "ResTagTable"; "TrustPolicy";
      "VMPool"]);
  ("CloudletRefs", ["AppInst"; "ClusterInst"]);
  ("CloudletResMap", ["Cloudlet"; "ResTagTable"]);
  ("ClusterInst", ["AutoScalePolicy"; "Cloudlet"; "Network"]);
  ("ClusterInstKeyV1", ["Cloudlet"]);
  ("ClusterInstKeyV2", ["Cloudlet"]);
  ("ClusterRefs", ["AppInst"]);
  ("DeploymentZoneRequest", ["AlertPolicy"; "AutoProvPolicy"; "Flavor"]);
  ("GPUConfig", ["GPUDriver"]);
  ("Network", ["Cloudlet"]);
  ("NetworkKey", ["Cloudlet"]);
  ("TPEInstanceKey", ["App"; "ZonePool"]);
  ("TrustPolicyException", ["App"; "ZonePool"]);
  ("TrustPolicyExceptionKey", ["App"; "ZonePool"]);
  ("ZonePool", ["Zone"]);
  ("ZonePoolMember", ["Zone"; "ZonePool"])].
Definition GetReferencesMap : gmap string (list string) := list_to_map references.

Section Notify.
Context {GR : GoRange}.

Definition reference_pairs (refs : gmap string (list string)) : list (string * string) :=
  flat_map (λ '(obj, rs), (λ r, (obj, r)) <$> rs) (go_range refs).
Definition NewNotifyOrder (fuel : nat) (refs : gmap string (list string)) : option NotifyOrder :=
  add_deps fuel ∅ (reference_pairs refs).

End Notify.

(** ** Lemmas *)

Section Order.
(** A rank of the types: references go to lower ranks; [N] bounds the ranks. *)
Variable rank : string → nat.
Variable N : nat.
Hypothesis rank_le : ∀ x, rank x ≤ N.

(** The graph respects the ranks, and its edges lead to nodes. *)
Definition graph_ok (s : NotifyOrder) : Prop :=
  ∀ x u, u ∈ users_of s x → rank x < rank u ∧ u ∈ dom s.
Definition orders_ok (s : NotifyOrder) : Prop := ∀ x, order_of s x ≤ rank x.
(** The edges out of every node but those in [P] are respected. *)
Definition respects (P : string → Prop) (s : NotifyOrder) : Prop :=
  ∀ x u, ¬ P x → u ∈ users_of s x → order_of s x < order_of s u.
Definition same_graph (s s' : NotifyOrder) : Prop :=
  dom s' = dom s ∧ ∀ x, users_of s' x = users_of s x.

Lemma order_of_set s u o x : u ∈ dom s →
  order_of (alter (set_order o) u s) x = if decide (u = x) then o else order_of s x.
Proof.
  intros [n Hn]%elem_of_dom. unfold order_of. rewrite lookup_alter.
  case_decide; subst; [by rewrite Hn|done].
Qed.
Lemma users_of_set s u o x : users_of (alter (set_order o) u s) x = users_of s x.
Proof.
  unfold users_of. rewrite lookup_alter. case_decide; subst; [|done]. by destruct (s !! x).
Qed.
Lemma same_graph_set s u o : same_graph s (alter (set_order o) u s).
Proof. split; [by apply dom_alter_L|]. intros x. apply users_of_set. Qed.
Lemma same_graph_trans s1 s2 s3 : same_graph s1 s2 → same_graph s2 s3 → same_graph s1 s3.
Proof. intros [H1 H2] [H3 H4]. split; [congruence|]. intros x. by rewrite H4. Qed.
Lemma graph_ok_same s s' : same_graph s s' → graph_ok s → graph_ok s'.
Proof. intros [Hd Hu] H x u Hin. rewrite Hu in Hin. rewrite Hd. by apply H. Qed.

(** The state after [x]'s order went up: its edges are respected again, orders
    only went up, and only of types ranked above [x]. *)
Lemma orderUpdated_ok fuel s x (P : string → Prop) :
  N < rank x + fuel → graph_ok s → orders_ok s → respects P s →
  ∃ s', orderUpdated fuel s x = Some s' ∧ same_graph s s' ∧ orders_ok s' ∧
    (∀ y, order_of s y ≤ order_of s' y) ∧
    (∀ y, rank y ≤ rank x → order_of s' y = order_of s y) ∧
    respects (λ y, P y ∧ y ≠ x) s'.
Proof.
  revert s x P. induction fuel as [|fuel IH]; intros s x P Hf Hg Ho Hr.
  { specialize (rank_le x). lia. }
  cbn [orderUpdated].
  assert (Hloop : ∀ users s0,
    (∀ u, u ∈ users → u ∈ users_of s x) → same_graph s s0 → orders_ok s0 →
    (∀ y, order_of s y ≤ order_of s0 y) →
    (∀ y, rank y ≤ rank x → order_of s0 y = order_of s y) →
    respects (λ y, P y ∨ y = x) s0 →
    (∀ u, u ∈ users_of s x → u ∈ users ∨ order_of s0 x < order_of s0 u) →
    ∃ s', (fix loop (s : NotifyOrder) (users : list string) : option NotifyOrder :=
         match users with
         | [] => Some s
         | u :: users' =>
             if decide (order_of s x < order_of s u) then loop s users'
             else
               s1 ← orderUpdated fuel (alter (set_order (order_of s x + 1)) u s) u;
               loop s1 users'
         end) s0 users = Some s' ∧ same_graph s s' ∧ orders_ok s' ∧
      (∀ y, order_of s y ≤ order_of s' y) ∧
      (∀ y, rank y ≤ rank x → order_of s' y = order_of s y) ∧
      respects (λ y, P y ∧ y ≠ x) s').
  { intros users. induction users as [|u users IHu]; intros s0 Hsub Hsg Ho0 Hup Hlow Hr0 Hdone.
    - exists s0. split; [done|]. split; [done|]. split; [done|]. split; [done|].
      split; [done|]. intros y u Hy Hin. destruct (decide (y = x)) as [->|Hne].
      + rewrite (proj2 Hsg) in Hin. destruct (Hdone u Hin) as [Hn|?]; [|done].
        by apply not_elem_of_nil in Hn.
      + apply Hr0; [naive_solver|done].
    - assert (Hu : u ∈ users_of s x) by (apply Hsub; left).
      destruct (Hg x u Hu) as [Hrk Hdom]. case_decide as Hlt.
      + apply IHu; try done; [intros; apply Hsub; by right|].
        intros v Hv. destruct (Hdone v Hv) as [Hin|?]; [|by right].
        apply elem_of_cons in Hin as [->|?]; [by right|by left].
      + set (s1 := alter (set_order (order_of s0 x + 1)) u s0).
        assert (Hdom0 : u ∈ dom s0) by by rewrite (proj1 Hsg).
        assert (Ho1 : ∀ y, order_of s1 y = if decide (u = y) then order_of s0 x + 1
                                            else order_of s0 y)
          by (intros; by apply order_of_set).
        assert (Hsg1 : same_graph s0 s1) by apply same_graph_set.
        destruct (IH s1 u (λ y, (P y ∨ y = x) ∨ y = u)) as (s2 & Hs2 & Hsg2 & Ho2 & Hup2 & Hlow2 & Hr2).
        * lia.
        * eapply graph_ok_same; [done|]. by eapply graph_ok_same.
        * intros y. rewrite Ho1. case_decide; [|apply Ho0]. subst y.
          specialize (Ho0 x). lia.
        * intros y v Hy Hin. rewrite (proj2 Hsg1) in Hin. rewrite !Ho1.
          rewrite (decide_False (P := u = y)) by naive_solver.
          specialize (Hr0 y v ltac:(naive_solver) Hin). case_decide; [|done]. subst v. lia.
        * fold s1. rewrite Hs2. simpl. apply IHu.
          -- intros; apply Hsub; by right.
          -- eapply same_graph_trans; [done|]. by eapply same_graph_trans.
          -- done.
          -- intros y. etrans; [apply Hup|]. etrans; [|apply Hup2]. rewrite Ho1.
             case_decide; [|done]. subst y. lia.
          -- intros y Hy. rewrite Hlow2 by lia. rewrite Ho1, decide_False; [by apply Hlow|].
             intros ->. lia.
          -- intros y v Hy Hin. apply Hr2; [naive_solver|done].
          -- assert (Hx : order_of s2 x = order_of s0 x).
             { rewrite Hlow2 by lia. rewrite Ho1, decide_False; [done|]. intros ->. lia. }
             intros v Hv. rewrite Hx. destruct (Hdone v Hv) as [Hin|Hlt'].
             ++ apply elem_of_cons in Hin as [->|?]; [|by left]. right.
                specialize (Hup2 u). rewrite Ho1, decide_True in Hup2 by done. lia.
             ++ right. eapply Nat.lt_le_trans; [done|]. etrans; [|apply Hup2].
                rewrite Ho1. case_decide; [|done]. subst v. lia. }
  apply Hloop; try done.
  - intros y u Hy. apply Hr. naive_solver.
  - by left.
Qed.

Lemma getNode_ok s x :
  dom (getNode s x) = dom s ∪ {[x]} ∧
  (∀ y, users_of (getNode s x) y = users_of s y) ∧ (∀ y, order_of (getNode s x) y = order_of s y).
Proof.
  unfold getNode. destruct (s !! x) as [n|] eqn:Hx.
  - split; [|done]. apply elem_of_dom_2 in Hx. set_solver.
  - split; [rewrite dom_insert_L; set_solver|].
    unfold users_of, order_of.
    split; intros y; rewrite lookup_insert; case_decide; subst; by rewrite ?Hx.
Qed.

(** The invariant between additions. *)
Definition order_inv (s : NotifyOrder) : Prop :=
  graph_ok s ∧ orders_ok s ∧ respects (λ _, False) s.

Lemma addObjectDep_ok fuel s obj dep :
  order_inv s → rank dep < rank obj → N < fuel →
  ∃ s', addObjectDep fuel s obj dep = Some s' ∧ order_inv s' ∧
    (∀ x u, u ∈ users_of s' x ↔ u ∈ users_of s x ∨ x = dep ∧ u = obj).
Proof.
  intros (Hg & Ho & Hr) Hrk Hf. unfold addObjectDep.
  destruct (getNode_ok s obj) as (Hd1 & Hu1 & Ho1).
  destruct (getNode_ok (getNode s obj) dep) as (Hd2 & Hu2 & Ho2).
  set (s2 := getNode (getNode s obj) dep) in *.
  set (s3 := alter _ obj s2). set (s4 := alter _ dep s3).
  assert (Hd4 : dom s4 = dom s ∪ {[obj]} ∪ {[dep]}).
  { unfold s4, s3. by rewrite !dom_alter_L, Hd2, Hd1. }
  assert (Hord4 : ∀ y, order_of s4 y = order_of s y).
  { intros y. rewrite <- Ho1, <- Ho2. unfold s4, s3, order_of. rewrite !lookup_alter.
    by repeat case_decide; subst; destruct (s2 !! _). }
  assert (Hus4 : ∀ x u, u ∈ users_of s4 x ↔ u ∈ users_of s x ∨ x = dep ∧ u = obj).
  { intros x u. rewrite <- Hu1, <- Hu2. unfold s4, s3, users_of.
    assert (Hdep : is_Some (s2 !! dep)) by (apply elem_of_dom; set_solver).
    destruct (decide (dep = x)) as [<-|Hne].
    - destruct Hdep as [n Hn].
      rewrite lookup_alter_eq, lookup_alter_ne by (intros ->; lia).
      rewrite Hn. simpl. rewrite elem_of_app, list_elem_of_singleton. naive_solver.
    - rewrite lookup_alter_ne by done.
      trans (u ∈ from_option dependedOnBy [] (s2 !! x)); [|naive_solver].
      rewrite lookup_alter. case_decide; subst; [by destruct (s2 !! x)|done]. }
  assert (Hg4 : graph_ok s4).
  { intros x u Hin. rewrite Hd4. apply Hus4 in Hin as [Hin|[-> ->]].
    - destruct (Hg _ _ Hin). set_solver.
    - set_solver. }
  rewrite !Hord4. case_decide as Hlt.
  - exists s4. split; [done|]. split; [|done]. split; [done|]. split.
    + intros y. rewrite Hord4. apply Ho.
    + intros x u _ Hin. rewrite !Hord4. apply Hus4 in Hin as [Hin|[-> ->]]; [exact (Hr x u (λ f, f) Hin)|done].
  - set (s5 := alter (set_order (order_of s dep + 1)) obj s4).
    assert (Hord5 : ∀ y, order_of s5 y = if decide (obj = y) then order_of s dep + 1
                                          else order_of s y).
    { intros y. unfold s5. rewrite order_of_set by set_solver. by rewrite Hord4. }
    assert (Hsg : same_graph s4 s5) by apply same_graph_set.
    destruct (orderUpdated_ok fuel s5 obj (λ y, y = obj)) as (s' & Hs' & Hsg' & Ho' & _ & _ & Hr').
    + lia.
    + by eapply graph_ok_same.
    + intros y. rewrite Hord5. case_decide; [|apply Ho]. subst y. specialize (Ho dep). lia.
    + intros x u Hx Hin. rewrite (proj2 Hsg) in Hin. rewrite !Hord5.
      rewrite (decide_False (P := obj = x)) by naive_solver.
      apply Hus4 in Hin as [Hin|[-> ->]].
      * specialize (Hr x u (λ f, f) Hin). case_decide; [|done]. subst u. lia.
      * rewrite decide_True by done. lia.
    + fold s5. exists s'. split; [done|]. split.
      * split; [|split; [done|]].
        -- eapply graph_ok_same, Hg4. by eapply same_graph_trans.
        -- intros x u _. apply Hr'. naive_solver.
      * intros x u. rewrite (proj2 Hsg'), (proj2 Hsg). apply Hus4.
Qed.

Lemma add_deps_ok fuel s deps :
  N < fuel → (∀ obj dep, (obj, dep) ∈ deps → rank dep < rank obj) → order_inv s →
  ∃ s', add_deps fuel s deps = Some s' ∧ order_inv s' ∧
    ∀ obj dep, (obj, dep) ∈ deps ∨ obj ∈ users_of s dep → obj ∈ users_of s' dep.
Proof.
  intros Hf. revert s. induction deps as [|[o d] deps IH]; intros s Hrk Hs.
  { exists s. split; [done|]. split; [done|]. intros obj dep [Hin|?]; [|done].
    by apply not_elem_of_nil in Hin. }
  cbn [add_deps].
  destruct (addObjectDep_ok fuel s o d Hs) as (s1 & Hs1 & Hinv & Hus); [apply Hrk; left|done|].
  rewrite Hs1. simpl. destruct (IH s1) as (s' & Hs' & Hinv' & Hin'); [|done|].
  { intros obj dep Hin. apply Hrk. by right. }
  exists s'. split; [done|]. split; [done|]. intros obj dep Hin. apply Hin'.
  rewrite Hus. destruct Hin as [Hin|?]; [|by auto].
  apply elem_of_cons in Hin as [[= -> ->]|?]; auto.
Qed.

Lemma order_inv_empty : order_inv ∅.
Proof.
  split; [|split].
  - intros x u Hin. unfold users_of in Hin. rewrite lookup_empty in Hin.
    by apply not_elem_of_nil in Hin.
  - intros x. unfold order_of. rewrite lookup_empty. simpl. lia.
  - intros x u _ Hin. unfold users_of in Hin. rewrite lookup_empty in Hin.
    by apply not_elem_of_nil in Hin.
Qed.

End Order.

Lemma elem_of_reference_pairs {GR : GoRange} refs obj r :
  (obj, r) ∈ reference_pairs refs ↔ ∃ rs, refs !! obj = Some rs ∧ r ∈ rs.
Proof.
  unfold reference_pairs. rewrite list_elem_of_In, in_flat_map. split.
  - intros ([o rs] & Ho & Hin). apply list_elem_of_In, elem_of_go_range in Ho.
    apply list_elem_of_In, list_elem_of_fmap in Hin as (x & ? & ?). simplify_eq. eauto.
  - intros (rs & Ho & Hin). exists (obj, rs).
    split; apply list_elem_of_In; [by apply elem_of_go_range|].
    apply list_elem_of_fmap. eauto.
Qed.

(** C36: when the references have no cycle (some numbering of the types, up to
    [N], decreases along references) the order is built, with any fuel above
    [N], whatever the order in which the references are visited, and it sends
    every type after the types it refers to. *)
Theorem NewNotifyOrder_sorted {GR : GoRange} (rank : string → nat) N fuel refs :
  (∀ x, rank x ≤ N) →
  (∀ obj rs r, refs !! obj = Some rs → r ∈ rs → rank r < rank obj) →
  N < fuel →
  ∃ s, NewNotifyOrder fuel refs = Some s ∧
    ∀ obj rs r, refs !! obj = Some rs → r ∈ rs →
      Less s r obj = true ∧ Less s obj r = false.
Proof.
  intros HN Hrk Hf. unfold NewNotifyOrder.
  destruct (add_deps_ok rank N HN fuel ∅ (reference_pairs refs) Hf) as (s & Hs & (_ & _ & Hr) & Hin).
  - intros obj dep Hd. apply elem_of_reference_pairs in Hd as (rs & ? & ?). eauto.
  - apply order_inv_empty.
  - exists s. split; [done|]. intros obj rs r Ho Hrs.
    assert (Hlt : order_of s r < order_of s obj).
    { apply Hr; [intros []|]. apply Hin. left. apply elem_of_reference_pairs. eauto. }
    unfold Less. split; [by apply bool_decide_eq_true|apply bool_decide_eq_false; lia].
Qed.

(** The references of the program have no cycle: each type's rank is the
    length of its longest chain of references. *)
Fixpoint ref_rank (fuel : nat) (x : string) : nat :=
  match fuel with
  | O => 0
  | S fuel' =>
      foldr (λ r n, Nat.max (S (ref_rank fuel' r)) n) 0 (default [] (GetReferencesMap !! x))
  end.

Definition rank_tbl : gmap string nat :=
  Eval vm_compute in
  list_to_map ((λ x, (x, ref_rank 8 x)) <$> remove_dups (references.*1 ++ concat references.*2)).
Definition rank_of (x : string) : nat := default 0 (rank_tbl !! x).

Lemma rank_of_bound x : rank_of x ≤ 7.
Proof.
  unfold rank_of. destruct (rank_tbl !! x) as [n|] eqn:Hx; simpl; [|lia].
  assert (H : map_Forall (λ _ n, n ≤ 7) rank_tbl)
    by (apply (proj1 (bool_decide_eq_true _)); vm_compute; reflexivity).
  by apply (H x).
Qed.
Lemma rank_of_decreases obj rs r :
  GetReferencesMap !! obj = Some rs → r ∈ rs → rank_of r < rank_of obj.
Proof.
  assert (H : map_Forall (λ obj rs, Forall (λ r, rank_of r < rank_of obj) rs) GetReferencesMap)
    by (apply (proj1 (bool_decide_eq_true _)); vm_compute; reflexivity).
  intros Ho Hr. specialize (H obj rs Ho). rewrite Forall_forall in H. by apply H.
Qed.

Lemma NewNotifyOrder_sorted_witness :
  ∃ s, @NewNotifyOrder canonical_range 8 GetReferencesMap = Some s ∧
    Less s "Cloudlet" "ClusterInst" = true ∧ Less s "AppInst" "App" = false.
Proof.
  destruct (@NewNotifyOrder_sorted canonical_range rank_of 7 8 GetReferencesMap
    rank_of_bound rank_of_decreases ltac:(lia)) as (s & Hs & H).
  exists s. split; [exact Hs|].
  split.
  - apply (H "ClusterInst" ["AutoScalePolicy"; "Cloudlet"; "Network"] "Cloudlet");
      [vm_compute; reflexivity|right; left].
  - apply (H "AppInst" ["App"; "Cloudlet"; "ClusterInst"; "Flavor"] "App");
      [vm_compute; reflexivity|left].
Defined.
