(* ===== verification/SyncData.v ===== *)
(** * Caches kept in step with the store (pkg/regiondata/sync.go)

    One callback receives every change of the region's objects and feeds the
    cache of the object's type; the changes of one transaction are collected
    and applied in notify order.  A cache is anything with the four
    operations of [ObjCache]; it is identified by its type string.  Each
    callback runs with the mutex held and is one function; the condition
    variable is the predicate a waiter waits for. *)

From S2P Require Export KVStore NotifyOrd.
Import Objstore.

Local Open Scope Z_scope.

(** ** The caches (api/edgeproto/caches.go) *)

Class ObjCache (C : Type) := {
  SyncUpdate_ : C → string → string → Z → Z → C;
  SyncDelete_ : C → string → Z → Z → C;
  SyncListStart_ : C → C;
  SyncListEnd_ : C → C;
  UsesOrg_ : C → string → bool;
}.

(** ** State *)

Record syncBatchData := mkBatch { b_type : string; b_data : SyncCbData }.

Record Sync (C : Type) := mkSync {
  s_rev : Z;
  initWait : bool;
  syncDone : bool;
  batch : list syncBatchData;
  notifyOrd : NotifyOrder;
  caches : gmap string C;
}.
Arguments mkSync {C} _ _ _ _ _ _.
Arguments s_rev {C} _.
Arguments initWait {C} _.
Arguments syncDone {C} _.
Arguments batch {C} _.
Arguments notifyOrd {C} _.
Arguments caches {C} _.

(** ** Operations *)

Section SyncOps.
Context {GR : GoRange} {C : Type} `{ObjCache C}.
Variable region : Z. (* GetRegion() *)
Implicit Types s : Sync C.

Definition InitSync (ord : NotifyOrder) : Sync C := mkSync 1 true false [] ord ∅.
Definition RegisterCache s (typ : string) (cache : C) : Sync C :=
  mkSync (s_rev s) (initWait s) (syncDone s) (batch s) (notifyOrd s) (<[typ := cache]> (caches s)).

(** The prefix the store is watched on, and the end of the watch. *)
Definition sync_prefix : string := fmt_d region +:+ "/".
Definition sync_stopped s : Sync C :=
  mkSync (s_rev s) (initWait s) true (batch s) (notifyOrd s) (caches s).

Definition getSpanKey : string := fmt_d region +:+ "/SpanEtcdKey".

(** The type string of the cache for a key. *)
Definition GetCache s (key : string) : option string :=
  if decide (key = getSpanKey) then None
  else
    match DbKeyPrefixParse key with
    | Err _ => None
    | Ok (_, typ, _) => match caches s !! typ with Some _ => Some typ | None => None end
    end.

Fixpoint insert_batch (ord : NotifyOrder) (dat : syncBatchData) (l : list syncBatchData)
    : list syncBatchData :=
  match l with
  | [] => [dat]
  | d :: l' => if Less ord (b_type dat) (b_type d) then dat :: d :: l'
               else d :: insert_batch ord dat l'
  end.
Definition insertBatchData s (typ : string) (data : SyncCbData) : Sync C :=
  mkSync (s_rev s) (initWait s) (syncDone s)
    (insert_batch (notifyOrd s) (mkBatch typ data) (batch s)) (notifyOrd s) (caches s).

(** One change applied to a cache. *)
Definition cache_apply (c : C) (data : SyncCbData) : C :=
  let key := default "" (Key data) in
  match Action data with
  | SyncUpdate | SyncList =>
      SyncUpdate_ c key (default "" (Value data)) (Objstore.Rev data) (ModRev data)
  | SyncDelete => SyncDelete_ c key (Objstore.Rev data) (ModRev data)
  | _ => c
  end.
Definition apply_batch (m : gmap string C) (l : list syncBatchData) : gmap string C :=
  fold_left (λ m d, alter (λ c, cache_apply c (b_data d)) (b_type d) m) l m.

Definition set_caches s (m : gmap string C) : Sync C :=
  mkSync (s_rev s) (initWait s) (syncDone s) (batch s) (notifyOrd s) m.

Definition syncCb s (data : SyncCbData) : Sync C :=
  let s :=
    match Action data with
    | SyncListStart => set_caches s (SyncListStart_ <$> caches s)
    | SyncListEnd => set_caches s (SyncListEnd_ <$> caches s)
    | SyncList | SyncUpdate | SyncDelete =>
        let s := match GetCache s (default "" (Key data)) with
                 | Some typ => insertBatchData s typ data
                 | None => s
                 end in
        if MoreEvents data then s
        else mkSync (Objstore.Rev data) (initWait s) (syncDone s) [] (notifyOrd s)
               (apply_batch (caches s) (batch s))
    end in
  mkSync (s_rev s)
    (if decide (Action data = SyncListEnd) then false else initWait s)
    (syncDone s) (batch s) (notifyOrd s) (caches s).

(** [SyncWait(rev)] returns in a state where this holds. *)
Definition SyncWait_over s (r : Z) : bool := bool_decide (r ≤ s_rev s) || syncDone s.

(** [ApplySTMWaitRev]: the result, and the revision waited for before it is
    returned, if any. *)
Definition ApplySTMWaitRev (e : InMemoryStore) (t : txn)
    : option (InMemoryStore * (Z * option error) * option Z) :=
  r ← ApplySTM e t;
  let '(e', (rv, err)) := r in
  Some (e', (rv, err), match err with None => Some rv | Some _ => None end).
Definition ApplySTMWait (e : InMemoryStore) (t : txn)
    : option (InMemoryStore * option error * option Z) :=
  r ← ApplySTMWaitRev e t;
  let '(e', (_, err), wait) := r in Some (e', err, wait).

Definition UsesOrg s (org : string) : list string :=
  sort_strings ((filter (λ kv, UsesOrg_ kv.2 org = true) (go_range (caches s))).*1).

End SyncOps.

(** ** Batches *)

Definition batch_le (ord : NotifyOrder) (x y : syncBatchData) : Prop :=
  Less ord (b_type y) (b_type x) = false.

Lemma Less_false ord x y :
  Less ord x y = false ↔ (order_of ord y ≤ order_of ord x)%nat.
Proof. unfold Less. rewrite bool_decide_eq_false. lia. Qed.

Lemma insert_batch_perm ord dat l : insert_batch ord dat l ≡ₚ l ++ [dat].
Proof.
  induction l as [|d l IH]; simpl; [done|]. destruct (Less _ _ _).
  - apply (Permutation_app_comm [dat] (d :: l)).
  - by rewrite IH.
Qed.

Lemma insert_batch_sorted ord dat l :
  StronglySorted (batch_le ord) l → StronglySorted (batch_le ord) (insert_batch ord dat l).
Proof.
  induction 1 as [|d l Hs IH Hd]; simpl; [by repeat constructor|].
  destruct (Less ord (b_type dat) (b_type d)) eqn:Hl.
  - constructor; [by constructor|]. constructor.
    + unfold batch_le. unfold Less in Hl. apply bool_decide_eq_true in Hl.
      apply Less_false. lia.
    + eapply Forall_impl; [exact Hd|]. intros x Hx. unfold batch_le in *.
      apply Less_false in Hx. unfold Less in Hl. apply bool_decide_eq_true in Hl.
      apply Less_false. lia.
  - constructor; [done|]. rewrite insert_batch_perm. apply Forall_app. split; [done|].
    by apply Forall_singleton.
Qed.

Lemma Less_irrefl ord x : Less ord x x = false.
Proof. apply Less_false. lia. Qed.

(** Entries of one type keep their order: the new one comes last. *)
Lemma insert_batch_stable ord dat l t :
  StronglySorted (batch_le ord) l →
  filter (λ d, b_type d = t) (insert_batch ord dat l) =
  filter (λ d, b_type d = t) (l ++ [dat]).
Proof.
  induction 1 as [|d l Hs IH Hd]; simpl; [done|].
  destruct (Less ord (b_type dat) (b_type d)) eqn:Hl.
  - destruct (decide (b_type dat = t)) as [Ht|Ht].
    + (* everything from [d] on is of another type *)
      assert (Hn : filter (λ d, b_type d = t) (d :: l) = []).
      { apply filter_none. subst t. constructor.
        - intros Heq. by rewrite Heq, Less_irrefl in Hl.
        - eapply Forall_impl; [exact Hd|]. intros x Hx Heq. unfold batch_le in Hx.
          rewrite Heq in Hx. congruence. }
      rewrite filter_cons_True by done.
      change (d :: l ++ [dat]) with ((d :: l) ++ [dat]). rewrite filter_app, Hn.
      by rewrite filter_cons_True by done.
    + rewrite filter_cons_False by done.
      change (d :: l ++ [dat]) with ((d :: l) ++ [dat]). rewrite filter_app.
      rewrite (filter_cons_False _ _ []) by done. by rewrite app_nil_r.
  - rewrite !filter_cons. by case_decide; rewrite IH.
Qed.

Definition collect (ord : NotifyOrder) (items : list syncBatchData) : list syncBatchData :=
  fold_left (λ l d, insert_batch ord d l) items [].

Lemma collect_snoc ord items d : collect ord (items ++ [d]) = insert_batch ord d (collect ord items).
Proof. unfold collect. by rewrite fold_left_app. Qed.

(** The batch of a transaction holds its changes, each once, sorted so that
    no type comes before a type it must follow, and the changes of one type in
    the order they arrived. *)
Theorem batch_ordered ord items :
  collect ord items ≡ₚ items ∧
  StronglySorted (λ x y, Less ord (b_type y) (b_type x) = false) (collect ord items) ∧
  ∀ t, filter (λ d, b_type d = t) (collect ord items) = filter (λ d, b_type d = t) items.
Proof.
  induction items as [|d items IH] using rev_ind; [repeat constructor|].
  destruct IH as (Hp & Hs & Hf). rewrite collect_snoc. split; [|split].
  - by rewrite insert_batch_perm, Hp.
  - by apply insert_batch_sorted.
  - intros t. rewrite insert_batch_stable by done. by rewrite !filter_app, Hf.
Qed.

(** ** An object cache (api/edgeproto/app.pb.go)

    The cache the code generator makes for every object type, as generated for
    App: the objects by key with their revisions, and while a listing is on
    the keys listed.  The JSON of objects and keys is an interface.  The
    callbacks of the cache's users are left out. *)

Class ObjCodec (K O : Type) := {
  json_decode : string → option O;      (* json.Unmarshal of an object *)
  GetKeyVal : O → K;
  GetKeyString : K → string;
  KeyStringParse : string → K;
  KeyStringParse_GetKeyString : ∀ k, KeyStringParse (GetKeyString k) = k;
}.

Section AppCache.
Context {K O : Type} `{Countable K} `{!ObjCodec K O}.

Record AppCache := mkAppCache {
  Objs : gmap K (O * Z);
  List_ : option (gset K);
}.

Definition AppCache_Update (c : AppCache) (obj : O) (modRev : Z) : AppCache :=
  mkAppCache (<[GetKeyVal obj := (obj, modRev)]> (Objs c)) (List_ c).
Definition AppCache_Delete (c : AppCache) (key : K) : AppCache :=
  mkAppCache (delete key (Objs c)) (List_ c).

Definition AppCache_SyncUpdate (c : AppCache) (key v : string) (rev modRev : Z) : AppCache :=
  match json_decode v with
  | None => c
  | Some obj =>
      let c := AppCache_Update c obj modRev in
      mkAppCache (Objs c) ((λ l, {[GetKeyVal obj]} ∪ l) <$> List_ c)
  end.
Definition AppCache_SyncDelete (c : AppCache) (key : string) (rev modRev : Z) : AppCache :=
  AppCache_Delete c (KeyStringParse (DbKeyPrefixRemove key)).
Definition AppCache_SyncListStart (c : AppCache) : AppCache := mkAppCache (Objs c) (Some ∅).
Definition AppCache_SyncListEnd (c : AppCache) : AppCache :=
  mkAppCache (filter (λ kv, kv.1 ∈ default ∅ (List_ c)) (Objs c)) None.

#[export] Instance AppCache_ObjCache : ObjCache AppCache := {|
  SyncUpdate_ := AppCache_SyncUpdate;
  SyncDelete_ := AppCache_SyncDelete;
  SyncListStart_ := AppCache_SyncListStart;
  SyncListEnd_ := AppCache_SyncListEnd;
  UsesOrg_ _ _ := false;
|}.

End AppCache.
Arguments AppCache K O {_ _}.

(** ** The caches mirror the store *)

Section Mirror.
Context {GR : GoRange} {K O : Type} `{Countable K} `{!ObjCodec K O}.
Variable region : Z.
(** The type of objects under consideration. *)
Variable t : string.
Hypothesis t_plain : str_avoids "/" t.

Definition dbkey (k : K) : string := DbKeyString region t (GetKeyString k).

(** The type of a key that is not the span key. *)
Definition key_type (key : string) : option string :=
  if decide (key = getSpanKey region) then None
  else match DbKeyPrefixParse key with Ok (_, typ, _) => Some typ | Err _ => None end.

Lemma str_app_inj s s1 s2 : s +:+ s1 = s +:+ s2 → s1 = s2.
Proof. induction s as [|c s IH]; [done|]. intros Heq. apply IH. by injection Heq. Qed.

Lemma key_type_dbkey k : key_type (dbkey k) = Some t.
Proof.
  unfold key_type, dbkey. rewrite decide_False.
  - by rewrite (proj1 (DbKey_parse region t (GetKeyString k) t_plain)).
  - unfold getSpanKey, DbKeyString, DbKeyPrefixString. rewrite !str_app_assoc.
    intros Heq. apply str_app_inj in Heq. apply (str_app_inj "/") in Heq.
    change ("/" +:+ GetKeyString k) with (String "/" (GetKeyString k)) in Heq.
    apply (f_equal (index_byte "/")) in Heq.
    by rewrite (index_byte_app "/" t (GetKeyString k)) in Heq by done.
Qed.
Lemma dbkey_inj k1 k2 : dbkey k1 = dbkey k2 → k1 = k2.
Proof.
  unfold dbkey. intros Heq. apply (f_equal DbKeyPrefixRemove) in Heq.
  rewrite !(λ k, proj2 (DbKey_parse region t k t_plain)) in Heq.
  rewrite <- (KeyStringParse_GetKeyString k1), <- (KeyStringParse_GetKeyString k2). congruence.
Qed.

Lemma GetCache_type (s : Sync (AppCache K O)) key :
  GetCache region s key =
  match key_type key with
  | Some typ => match caches s !! typ with Some _ => Some typ | None => None end
  | None => None
  end.
Proof.
  unfold GetCache, key_type. case_decide; [done|].
  by destruct (DbKeyPrefixParse key) as [[[? ?] ?]|].
Qed.

(** Objects are stored under their own keys. *)
Definition stored_ok (key v : string) : Prop :=
  ∃ o : O, json_decode v = Some o ∧ key = dbkey (GetKeyVal o).
Definition event_ok (d : SyncCbData) : Prop :=
  key_type (default "" (Key d)) = Some t →
  match Action d with
  | SyncList | SyncUpdate => stored_ok (default "" (Key d)) (default "" (Value d))
  | SyncDelete => ∃ k, default "" (Key d) = dbkey k
  | _ => True
  end.

(** The shape of what a watcher is told: listings, and writes outside of them. *)
Definition phase_step (ls : bool) (d : SyncCbData) : option bool :=
  match Action d with
  | SyncListStart => Some true
  | SyncList => if ls then Some true else None
  | SyncListEnd => if ls then Some false else None
  | _ => if ls then None else Some false
  end.
Fixpoint phase (ls : bool) (ds : list SyncCbData) : option bool :=
  match ds with [] => Some ls | d :: ds' => phase_step ls d ≫= λ ls', phase ls' ds' end.

Lemma phase_app ls ds1 ds2 : phase ls (ds1 ++ ds2) = phase ls ds1 ≫= λ ls', phase ls' ds2.
Proof.
  revert ls. induction ds1 as [|d ds1 IH]; intros ls; [done|]. simpl.
  destruct (phase_step ls d); simpl; [apply IH|done].
Qed.

(** The cache against a copy of the raw objects. *)
Definition mirrors (ls : bool) (c : AppCache K O) (r : replica) : Prop :=
  (∀ k, fst <$> Objs c !! k = r_map r !! dbkey k ≫= json_decode) ∧
  (∀ key v, r_map r !! key = Some v → key_type key = Some t → stored_ok key v) ∧
  (if ls then ∃ l, List_ c = Some l ∧ ∀ k, k ∈ l ↔ dbkey k ∈ r_all r else List_ c = None).

Lemma mirrors_put ls c r key v rev modRev all' :
  mirrors ls c r → stored_ok key v → key_type key = Some t →
  (all' = if ls then {[key]} ∪ r_all r else r_all r) →
  mirrors ls (AppCache_SyncUpdate c key v rev modRev) (mkReplica (<[key := v]> (r_map r)) all').
Proof.
  intros (Hm & Hok & Hl) (o & Hdec & Hkey) Hty Hall. unfold AppCache_SyncUpdate. rewrite Hdec.
  simpl. split; [|split].
  - intros k. simpl. rewrite !lookup_insert. destruct (decide (GetKeyVal o = k)) as [<-|Hne].
    + rewrite decide_True by done. simpl. by rewrite Hdec.
    + rewrite decide_False; [apply Hm|]. intros Heq. apply Hne, dbkey_inj. congruence.
  - intros k w. simpl. rewrite lookup_insert. case_decide as Hk; [|by apply Hok].
    intros [= <-] _. subst k. by exists o.
  - simpl. destruct ls; [|by rewrite Hl]. destruct Hl as (l & -> & Hl). simpl.
    eexists. split; [done|]. intros k. rewrite Hall, !elem_of_union, !elem_of_singleton, Hl.
    rewrite Hkey. split; (intros [Heq|?]; [left|by right]); [by subst|by apply dbkey_inj].
Qed.
Lemma mirrors_delete c r k rev modRev :
  mirrors false c r →
  mirrors false (AppCache_SyncDelete c (dbkey k) rev modRev)
    (mkReplica (delete (dbkey k) (r_map r)) (r_all r)).
Proof.
  intros (Hm & Hok & Hl). unfold AppCache_SyncDelete, dbkey at 1.
  rewrite (proj2 (DbKey_parse region t (GetKeyString k) t_plain)), KeyStringParse_GetKeyString.
  split; [|split; [|done]].
  - intros k'. simpl. rewrite !lookup_delete. destruct (decide (k = k')) as [<-|Hne].
    + by rewrite decide_True.
    + rewrite decide_False; [apply Hm|]. intros Heq. by apply Hne, dbkey_inj.
  - intros k' w. simpl. rewrite lookup_delete. case_decide; [done|]. apply Hok.
Qed.
(** A change of another type's object. *)
Lemma mirrors_other ls c r key m' all' :
  mirrors ls c r → key_type key ≠ Some t →
  (∀ k, k ≠ key → m' !! k = r_map r !! k) → (∀ k, k ≠ key → k ∈ all' ↔ k ∈ r_all r) →
  mirrors ls c (mkReplica m' all').
Proof.
  intros (Hm & Hok & Hl) Hty Hm' Hall.
  assert (Hne : ∀ k, dbkey k ≠ key) by (intros k <-; by rewrite key_type_dbkey in Hty).
  split; [|split].
  - intros k. rewrite Hm. simpl. by rewrite Hm'.
  - intros k w. simpl. intros Hk Hkt. apply (Hok k w); [|done]. rewrite <- Hm'; [done|].
    intros ->. done.
  - destruct ls; [|done]. destruct Hl as (l & Hlc & Hl). exists l. split; [done|].
    intros k. simpl. rewrite Hall by done. apply Hl.
Qed.
Lemma mirrors_end c r :
  mirrors true c r →
  mirrors false (AppCache_SyncListEnd c)
    (mkReplica (filter (λ kv, kv.1 ∈ r_all r) (r_map r)) (r_all r)).
Proof.
  intros (Hm & Hok & (l & Hlc & Hl)). unfold AppCache_SyncListEnd. rewrite Hlc. simpl.
  split; [|split; [|done]]; simpl.
  - intros k. rewrite !map_lookup_filter. specialize (Hm k). specialize (Hl k).
    destruct (Objs c !! k) as [[o mr]|] eqn:Ho; simpl in *.
    + destruct (r_map r !! dbkey k) as [v|] eqn:Hv; simpl in *; [|done].
      repeat case_guard; simpl; naive_solver.
    + destruct (r_map r !! dbkey k) as [v|]; simpl in *; [|done]. by case_guard.
  - intros key v Hk. apply map_lookup_filter_Some in Hk as [Hk _]. by apply Hok.
Qed.

(** A state of [Sync] between callbacks, with the cache of our type in it. *)
Definition sync_mirrors (ls : bool) (s : Sync (AppCache K O)) (r : replica) : Prop :=
  batch s = [] ∧ ∃ c, caches s !! t = Some c ∧ mirrors ls c r.

Lemma apply_one (m : gmap string (AppCache K O)) typ d :
  apply_batch m [mkBatch typ d] = alter (λ c, cache_apply c d) typ m.
Proof. done. Qed.

Lemma syncCb_mirrors ls s r d ls' :
  sync_mirrors ls s r → MoreEvents d = false → event_ok d → phase_step ls d = Some ls' →
  sync_mirrors ls' (syncCb region s d) (replay_ev r d).
Proof.
  intros (Hb & c & Hc & Hm) Hmore Hok Hph.
  set (key := default "" (Key d)) in *. unfold event_ok in Hok. fold key in Hok.
  (* a change of one object *)
  assert (Hchange : Action d = SyncList ∨ Action d = SyncUpdate ∨ Action d = SyncDelete →
    ls' = ls ∧ batch (syncCb region s d) = [] ∧
    caches (syncCb region s d) !! t =
      Some (if decide (key_type key = Some t) then cache_apply c d else c)).
  { intros Ha. split; [unfold phase_step in Hph; destruct Ha as [Ha|[Ha|Ha]];
      rewrite Ha in Hph; by destruct ls; simplify_eq|].
    unfold syncCb. rewrite GetCache_type. fold key.
    assert (Hx : ∀ T (a b x : T), match Action d with
      | SyncListStart => a | SyncListEnd => b | _ => x end = x)
      by (intros; by destruct Ha as [-> |[-> | ->]]).
    rewrite Hx, Hmore. simpl.
    destruct (key_type key) as [typ|] eqn:Hty; simpl.
    - destruct (caches s !! typ) as [c'|] eqn:Hct; simpl; rewrite Hb; simpl.
      + split; [done|]. rewrite lookup_alter. case_decide as Heq.
        * subst typ. rewrite decide_True by done. rewrite Hc. done.
        * rewrite decide_False by congruence. by rewrite Hc.
      + split; [done|]. rewrite decide_False by congruence. by rewrite Hc.
    - rewrite Hb. split; [done|]. simpl. by rewrite Hc. }
  unfold phase_step in Hph. destruct (Action d) eqn:Ha.
  - destruct Hchange as (-> & Hb' & Hc'); [by auto|]. split; [done|]. eexists. split; [done|].
    unfold replay_ev. rewrite Ha. fold key. case_decide as Hty.
    + unfold cache_apply. rewrite Ha. fold key.
      apply mirrors_put; [done|by apply Hok|done|by destruct ls].
    + eapply mirrors_other; [done|done| |done].
      intros k Hk. by rewrite lookup_insert_ne.
  - destruct Hchange as (-> & Hb' & Hc'); [by auto|]. split; [done|]. eexists. split; [done|].
    unfold replay_ev. rewrite Ha. fold key. case_decide as Hty.
    + unfold cache_apply. rewrite Ha. fold key. destruct (Hok Hty) as [k Hk].
      rewrite Hk. destruct ls; [done|]. by apply mirrors_delete.
    + eapply mirrors_other; [done|done| |done].
      intros k Hk. by rewrite lookup_delete_ne.
  - simplify_eq. unfold syncCb, replay_ev. rewrite Ha. split; [done|].
    exists (AppCache_SyncListStart c).
    split; [exact (eq_trans (lookup_fmap _ _ _) (f_equal _ Hc))|].
    destruct Hm as (Hm & Hst & _). split; [done|]. split; [done|]. simpl.
    eexists. split; [done|]. set_solver.
  - destruct Hchange as (-> & Hb' & Hc'); [by auto|]. split; [done|]. eexists. split; [done|].
    unfold replay_ev. rewrite Ha. fold key. case_decide as Hty.
    + unfold cache_apply. rewrite Ha. fold key.
      apply mirrors_put; [done|by apply Hok|done|by destruct ls].
    + eapply mirrors_other; [done|done| |].
      * intros k Hk. by rewrite lookup_insert_ne.
      * intros k Hk. set_solver.
  - destruct ls; [|done]. simplify_eq. unfold syncCb, replay_ev. rewrite Ha. split; [done|].
    exists (AppCache_SyncListEnd c).
    split; [exact (eq_trans (lookup_fmap _ _ _) (f_equal _ Hc))|].
    by apply mirrors_end.
Qed.

Lemma syncCb_mirrors_all ds ls s r ls' :
  sync_mirrors ls s r → Forall (λ d, MoreEvents d = false) ds → Forall event_ok ds →
  phase ls ds = Some ls' →
  sync_mirrors ls' (fold_left (syncCb region) ds s) (replay r ds).
Proof.
  intros Hs Hmore. revert ls s r Hs.
  induction Hmore as [|d ds Hd _ IH]; intros ls s r Hs Hok Hph; simpl in Hph.
  { by simplify_eq. }
  apply Forall_cons in Hok as [Hokd Hok].
  destruct (phase_step ls d) as [ls1|] eqn:Hp; [|done]. simpl in *.
  eapply IH; [|done|done]. by eapply syncCb_mirrors.
Qed.

(** *** What a watcher of the store is told *)

Definition is_write (d : SyncCbData) : Prop :=
  (Action d = SyncUpdate ∨ Action d = SyncDelete) ∧ MoreEvents d = false.
Definition new_writes (w : nat) (e e' : InMemoryStore) : Prop :=
  ∃ new, delivered e' = delivered e ++ new ∧ Forall is_write (events_of w new).

Lemma new_writes_refl w e : new_writes w e e.
Proof. exists []. split; [by rewrite app_nil_r|constructor]. Qed.
Lemma new_writes_trans w e1 e2 e3 :
  new_writes w e1 e2 → new_writes w e2 e3 → new_writes w e1 e3.
Proof.
  intros (n1 & H1 & F1) (n2 & H2 & F2). exists (n1 ++ n2). split.
  - by rewrite H2, H1, app_assoc.
  - rewrite events_of_app. by apply Forall_app.
Qed.
Lemma new_writes_trigger w e e' a k v r :
  a = SyncUpdate ∨ a = SyncDelete → delivered e' = delivered e →
  new_writes w e (triggerWatcher e' a k v r).
Proof.
  intros Ha Hd. eexists. split; [by simpl; rewrite Hd|].
  eapply Forall_impl; [apply events_of_watch|]. intros d ->. by split.
Qed.
Lemma commit_write_new w e k v e' : commit_write e k v = Some e' → new_writes w e e'.
Proof.
  unfold commit_write. intros Hc. case_decide; [simplify_eq|].
  - apply new_writes_trigger; [by right|]. by destruct (db e).
  - destruct (db e); simplify_eq. by apply new_writes_trigger; [left|].
Qed.
Lemma commit_writes_new w ws e e' : commit_writes e ws = Some e' → new_writes w e e'.
Proof.
  revert e. induction ws as [|[k v] ws IH]; intros e Hc; simpl in Hc.
  { simplify_eq. apply new_writes_refl. }
  destruct (commit_write e k v) as [e1|] eqn:H1; [|done]. simpl in Hc.
  eapply new_writes_trans; [by eapply commit_write_new|by apply IH].
Qed.

Lemma commit_writes_next ws e e' :
  commit_writes e ws = Some e' → next_watcher e' = next_watcher e.
Proof.
  revert e. induction ws as [|[k v] ws IH]; intros e Hc; simpl in Hc; [by simplify_eq|].
  destruct (commit_write e k v) as [e1|] eqn:H1; [|done]. simpl in Hc.
  rewrite (IH _ Hc). unfold commit_write in H1.
  destruct (db e); case_decide; by simplify_eq.
Qed.

Lemma do_op_new w o e e' :
  (w < next_watcher e)%nat → do_op o e = Some e' →
  new_writes w e e' ∧ (w < next_watcher e')%nat.
Proof.
  intros Hw Hdo. destruct o as [k v|k v n|k v|k|stm|p|p w'|]; simpl in Hdo; simplify_eq.
  - unfold Create. split_matches; split; try done; try apply new_writes_refl.
    by apply new_writes_trigger; [left|].
  - unfold Update. split_matches; split; try done; try apply new_writes_refl.
    by apply new_writes_trigger; [left|].
  - unfold Put. split_matches; split; try done; try apply new_writes_refl.
    by apply new_writes_trigger; [left|].
  - unfold KVStore.Delete. split_matches; split; try done; try apply new_writes_refl.
    by apply new_writes_trigger; [right|].
  - destruct (commit e stm) as [[e1 res]|] eqn:Hc; simplify_eq/=.
    unfold commit in Hc. case_decide; [simplify_eq; split; [apply new_writes_refl|done]|].
    destruct (commit_check_rset _ _ _); [|simplify_eq; split; [apply new_writes_refl|done]].
    destruct (commit_check_wset _ _ _); [|simplify_eq; split; [apply new_writes_refl|done]].
    destruct (commit_writes _ _) as [e2|] eqn:Hcw; simplify_eq/=.
    split; [by apply (commit_writes_new w) in Hcw|].
    by rewrite (commit_writes_next _ _ _ Hcw).
  - unfold Sync_register. destruct (sync_list _ _ _ _) as [evs last]. cbn [fst]. split.
    + eexists. split; [reflexivity|]. rewrite events_of_fmap, decide_False by lia. constructor.
    + simpl. lia.
  - unfold Sync_unregister. destruct (watchers e !! p);
      (split; [exists []; split; [by rewrite app_nil_r|constructor]|done]).
  - split; [exists []; split; [by rewrite app_nil_r|constructor]|done].
Qed.

Lemma sync_list_shape prefix rv data kvs :
  Forall (λ d, Action d = SyncList ∧ MoreEvents d = false) (sync_list prefix rv data kvs).1.
Proof.
  revert data. induction kvs as [|[k dd] kvs IH]; intros data; simpl; [constructor|].
  destruct (has_prefix k prefix); [|apply IH].
  set (data' := mkSyncCbData _ _ _ _ _ _). specialize (IH data').
  destruct (sync_list prefix rv data' kvs). by constructor.
Qed.
Lemma phase_lists ds : Forall (λ d, Action d = SyncList ∧ MoreEvents d = false) ds →
  phase true ds = Some true.
Proof.
  induction 1 as [|d ds [Ha _] _ IH]; simpl; [done|]. unfold phase_step. by rewrite Ha.
Qed.
Lemma phase_writes ds : Forall is_write ds → phase false ds = Some false.
Proof.
  induction 1 as [|d ds [Ha _] _ IH]; simpl; [done|]. unfold phase_step.
  by destruct Ha as [-> | ->].
Qed.

Lemma register_shape e prefix :
  watch_inv e →
  let '(e1, w) := Sync_register e prefix in
  phase false (events_of w (delivered e1)) = Some false ∧
  Forall (λ d, MoreEvents d = false) (events_of w (delivered e1)) ∧ (w < next_watcher e1)%nat.
Proof.
  intros Hinv. unfold Sync_register.
  pose proof (sync_list_shape prefix (KVStore.rev e) (mkSyncCbData SyncListStart None None 0 0 false)
    (match db e with Some m => go_range m | None => [] end)) as Hl.
  destruct (sync_list _ _ _ _) as [evs last]. cbn [fst delivered next_watcher] in *.
  rewrite events_of_app, events_of_fresh by apply Hinv.
  rewrite events_of_fmap, decide_True by done. cbn [app].
  split; [|split; [|lia]].
  - cbn [phase phase_step Action]. cbn. rewrite phase_app, phase_lists by done. done.
  - constructor; [done|]. apply Forall_app. split; [|by repeat constructor].
    eapply Forall_impl; [exact Hl|]. by intros d [_ ?].
Qed.

Lemma quiet_shape w e e' :
  (w < next_watcher e)%nat → rtc (quiet_step w) e e' → new_writes w e e'.
Proof.
  intros Hw Hs. induction Hs as [|x y z (o & _ & Hdo) _ IH]; [apply new_writes_refl|].
  destruct (do_op_new w o x y Hw Hdo) as [Hn Hw'].
  eapply new_writes_trans; [exact Hn|by apply IH].
Qed.

Lemma has_prefix_app s1 s2 : has_prefix (s1 +:+ s2) s1 = true.
Proof.
  unfold has_prefix. induction s1 as [|c s1 IH]; [by destruct s2|].
  change ((if ascii_dec c c then String.prefix s1 (s1 +:+ s2) else false) = true).
  destruct (ascii_dec c c); [exact IH|done].
Qed.
Lemma dbkey_prefix k : has_prefix (dbkey k) (sync_prefix region) = true.
Proof.
  unfold dbkey, DbKeyString, DbKeyPrefixString, sync_prefix.
  rewrite !str_app_assoc. rewrite <- (str_app_assoc (fmt_d region)). apply has_prefix_app.
Qed.

(** C3: from the store to the caches: start [Sync] on the region's prefix in
    any reachable state of a started store, and let other threads use the
    store in any way (short of stopping it or removing the watcher).  When the
    callbacks delivered so far have run, the cache of a registered object
    type, empty at first, holds under every key exactly the object that the
    store holds under that key's database key, and no other object, provided
    the objects of that type are stored in JSON under their own keys. *)
Theorem caches_mirror_store e e1 (s0 : Sync (AppCache K O)) :
  reachable e → is_Some (db e) →
  rtc (quiet_step (Sync_register e (sync_prefix region)).2)
      (Sync_register e (sync_prefix region)).1 e1 →
  let evs := events_of (Sync_register e (sync_prefix region)).2 (delivered e1) in
  Forall event_ok evs →
  batch s0 = [] → caches s0 !! t = Some (mkAppCache ∅ None) →
  ∃ m c, db e1 = Some m ∧ caches (fold_left (syncCb region) evs s0) !! t = Some c ∧
    ∀ k, fst <$> Objs c !! k = (val <$> m !! dbkey k) ≫= json_decode.
Proof.
  intros He Hdb Hsteps evs Hok Hb Hc.
  assert (Hw : watch_inv e) by (eapply env_steps_watch_inv, He; apply watch_inv_Start).
  destruct (Sync_later_in_step e (sync_prefix region) (mkReplica ∅ ∅) e1 He Hdb Hsteps)
    as (_ & _ & m & Hm & Hr). fold evs in Hr.
  pose proof (register_shape e (sync_prefix region) Hw) as Hreg.
  destruct (Sync_register e (sync_prefix region)) as [e0 w]. cbn [fst snd] in *.
  destruct Hreg as (Hph & Hmore & Hlt).
  destruct (quiet_shape w e0 e1 Hlt Hsteps) as (new & Hnew & Hwr).
  assert (Hevs : evs = events_of w (delivered e0) ++ events_of w new)
    by (unfold evs; by rewrite Hnew, events_of_app).
  destruct (syncCb_mirrors_all evs false s0 (mkReplica ∅ ∅) false) as (_ & c & Hc1 & Hmir & _).
  - split; [done|]. eexists. split; [done|]. split; [|split; [|done]].
    + intros k. simpl. by rewrite !lookup_empty.
    + intros k v. simpl. by rewrite lookup_empty.
  - rewrite Hevs. apply Forall_app. split; [done|].
    eapply Forall_impl; [exact Hwr|]. by intros d [_ ?].
  - done.
  - rewrite Hevs, phase_app, Hph. simpl. by apply phase_writes.
  - exists m, c. split; [done|]. split; [done|]. intros k.
    rewrite Hmir, Hr. unfold under_prefix. rewrite lookup_fmap, map_lookup_filter.
    destruct (m !! dbkey k) as [dd|]; [|done]. simpl. by rewrite option_guard_True by apply dbkey_prefix.
Qed.

End Mirror.

(** ** A witness: objects that are their own JSON, a key before a colon *)

Module SyncWitness.

#[local] Existing Instance canonical_range.

(** An object is a key and a text; its JSON puts a colon in between. *)
Definition obj_decode (v : string) : option (string * string) :=
  match index_byte ":" v with
  | Some n => Some (str_take n v, str_drop (S n) v)
  | None => None
  end.
#[local] Instance obj_codec : ObjCodec string (string * string).
Proof.
  exact {| json_decode := obj_decode; GetKeyVal := fst; GetKeyString := id;
           KeyStringParse := id; KeyStringParse_GetKeyString := λ k, eq_refl |}.
Defined.

Definition e_w : InMemoryStore := (Put Start "7/App/a" "a:one").1.
Definition e_1 : InMemoryStore :=
  (KVStore.Delete (Create (Sync_register e_w (sync_prefix 7)).1 "7/App/b" "b:two").1 "7/App/a").1.
Definition s_0 : Sync (AppCache string (string * string)) :=
  RegisterCache (InitSync ∅) "App" (mkAppCache ∅ None).

Lemma caches_mirror_store_witness :
  ∃ m c, db e_1 = Some m ∧
    caches (fold_left (syncCb 7) (events_of (Sync_register e_w (sync_prefix 7)).2 (delivered e_1))
              s_0) !! "App" = Some c ∧
    ∀ k, fst <$> Objs c !! k = (val <$> m !! dbkey 7 "App" k) ≫= json_decode.
Proof.
  apply (caches_mirror_store 7 "App" eq_refl e_w e_1 s_0).
  - eapply rtc_once. by exists (OPut "7/App/a" "a:one").
  - by eexists.
  - eapply rtc_l; [by exists (OCreate "7/App/b" "b:two")|].
    eapply rtc_once. by exists (ODelete "7/App/a").
  - assert (Hevs : events_of (Sync_register e_w (sync_prefix 7)).2 (delivered e_1) =
      [mkSyncCbData SyncListStart None None 0 0 false;
       mkSyncCbData SyncList (Some "7/App/a") (Some "a:one") 2 2 false;
       mkSyncCbData SyncListEnd None None 2 2 false;
       mkSyncCbData SyncUpdate (Some "7/App/b") (Some "b:two") 3 3 false;
       mkSyncCbData SyncDelete (Some "7/App/a") (Some "") 4 4 false])
      by (vm_compute; reflexivity).
    rewrite Hevs. repeat constructor; intros _; simpl.
    + exists ("a", "one"). split; vm_compute; reflexivity.
    + exists ("b", "two"). split; vm_compute; reflexivity.
    + exists "a". vm_compute. reflexivity.
  - reflexivity.
  - reflexivity.
Defined.

End SyncWitness.
