(* ===== verification/Notify.v ===== *)
(** * The notify protocol (pkg/notify/notify_sendrecv.go, notify_server.go,
    notify_client.go, and the code generated for each type of object)

    A server mirrors its caches into the caches of a client.  Every type of
    objects has a sender, with the keys that have to be sent; one goroutine
    gathers the keys of all types and sends the objects, another receives them.
    [exec] is one critical section of any goroutine; [net_step] any of them.

    The maps of all types are one map here, whose keys are the name of the type
    (its place in [sendlist]) and the key of the object.  The types are those
    without a filter written by hand; filters and [ForceDelete], which only
    filters call, are not modelled.

    [notify_settles]: when the changes stop, the goroutines come to rest, in
    whatever order they run, and then the caches are equal. *)

From S2P Require Export SyncData.
#[local] Open Scope Z_scope.

(** ** Negotiation *)

Definition NotifyVersion : Z := 1.
(** The version in the server's reply, and what the client makes of it. *)
Definition server_version (requested : Z) : Z :=
  if decide (requested > NotifyVersion) then requested else NotifyVersion.
Definition client_version (requested reply : Z) : Z := if decide (requested > reply) then reply else requested.

Section Notify.
Context {K O : Type} `{Countable K} `{!ObjCodec K O}.
(** The number of types registered, and those that the other side wants. *)
Context (ntypes : nat) (isRemoteWanted : nat → bool).

Notation name := (nat * K)%type.
Record SendContext := mkSendContext { sc_modRev : Z; forceDelete : bool }.
Inductive Notice := UPDATE (n : nat) (obj : O) (ModRev : Z) | DELETE (n : nat) (k : K) (ModRev : Z) | SENDALL_END.
(** The caches of a node. *)
Notation caches := (gmap name (O * Z)).
Notation contexts := (gmap name SendContext).

(** Where the goroutine that sends is: it waits for the signal; the types below
    [todo] have to be gathered, [updated] if the first of them is queued; it
    sends type [ii], with the keys it has taken.  [sae] is its copy of
    [sendAllEnd]. *)
Inductive place :=
| Waiting
| Gather (todo : nat) (updated sae hasData : bool)
| Sending (ii : nat) (keys : option (contexts)) (sae : bool).
Record sender := mkSender {
  objs : caches;
  pending : list (name * Z);             (* callbacks that have yet to run *)
  waking : nat;                          (* callbacks before their [wakeup] *)
  Keys : gmap name SendContext;
  keysToSend : gmap name SendContext;
  signal : bool;
  sendAll : bool;
  sendAllEnd : bool;
  manualSendAllEnd : bool;
  at_ : place;
}.
Record receiver := mkReceiver { robjs : caches; sendAllKeys : option (gset name); recvAll : bool }.
Record conn := mkConn { snd_ : sender; stream : list Notice; rcv : receiver }.

(** ** The senders (generated) *)

Definition with_send (keys tosend : contexts) (pl : place) (s : sender) : sender :=
  mkSender (objs s) (pending s) (waking s) keys tosend (signal s) (sendAll s) (sendAllEnd s) (manualSendAllEnd s) pl.
(** [UpdateAll] of type [i]. *)
Definition UpdateAll (i : nat) (s : sender) : gmap name SendContext :=
  if isRemoteWanted i then
    ((λ orv : O * Z, mkSendContext orv.2 false) <$> filter (λ kv : name * (O * Z), kv.1.1 = i) (objs s)) ∪ Keys s
  else Keys s.
(** The keys of type [i], and the others. *)
Definition of_type (i : nat) (m : contexts) : gmap name SendContext :=
  filter (λ kv : name * SendContext, kv.1.1 = i) m.
Definition other_types (i : nat) (m : contexts) : gmap name SendContext :=
  filter (λ kv : name * SendContext, kv.1.1 ≠ i) m.
Definition PrepData (i : nat) (s : sender) : gmap name SendContext * gmap name SendContext * bool :=
  if decide (of_type i (Keys s) = ∅) then (Keys s, keysToSend s, false)
  else (other_types i (Keys s), of_type i (Keys s) ∪ other_types i (keysToSend s), true).
(** The notice for one key. *)
Definition notice_for (x : name) (c : SendContext) (s : sender) : Notice :=
  match objs s !! x with
  | Some (obj, modRev) => if forceDelete c then DELETE x.1 x.2 (sc_modRev c) else UPDATE x.1 obj modRev
  | None => DELETE x.1 x.2 (sc_modRev c)
  end.

(** ** The caches *)

(** The object changes under the lock of the cache; the callback that tells the
    senders runs after it. *)
Definition cache_update (i : nat) (obj : O) (modRev : Z) (s : sender) : sender :=
  mkSender (<[(i, GetKeyVal obj) := (obj, modRev)]> (objs s)) (pending s ++ [((i, GetKeyVal obj), modRev)]) (waking s)
    (Keys s) (keysToSend s) (signal s) (sendAll s) (sendAllEnd s) (manualSendAllEnd s) (at_ s).
Definition cache_delete (x : name) (modRev : Z) (s : sender) : sender :=
  mkSender (delete x (objs s)) (pending s ++ [(x, modRev)]) (waking s)
    (Keys s) (keysToSend s) (signal s) (sendAll s) (sendAllEnd s) (manualSendAllEnd s) (at_ s).
(** [Update] and [updateInternal]. *)
Definition Update (x : name) (modRev : Z) (rest : list (name * Z)) (s : sender) : sender :=
  if isRemoteWanted x.1 then
    mkSender (objs s) rest (S (waking s)) (<[x := mkSendContext modRev false]> (Keys s)) (keysToSend s)
      (signal s) (sendAll s) (sendAllEnd s) (manualSendAllEnd s) (at_ s)
  else
    mkSender (objs s) rest (waking s) (Keys s) (keysToSend s) (signal s) (sendAll s) (sendAllEnd s)
      (manualSendAllEnd s) (at_ s).
Definition wakeup (w : nat) (s : sender) : sender :=
  mkSender (objs s) (pending s) w (Keys s) (keysToSend s) true (sendAll s) (sendAllEnd s) (manualSendAllEnd s) (at_ s).
Definition triggerSendAllEnd (s : sender) : sender :=
  if manualSendAllEnd s then
    mkSender (objs s) (pending s) (waking s) (Keys s) (keysToSend s) true (sendAll s) true false (at_ s)
  else s.

(** ** The receivers *)

Definition Prune (valid : gset name) (m : caches) : caches := filter (λ kv : name * (O * Z), kv.1 ∈ valid) m.
Definition Recv (n : Notice) (r : receiver) : receiver :=
  match n with
  | UPDATE i obj modRev =>
      mkReceiver (<[(i, GetKeyVal obj) := (obj, modRev)]> (robjs r)) ((λ l, {[(i, GetKeyVal obj)]} ∪ l) <$> sendAllKeys r)
        (recvAll r)
  | DELETE i k _ => mkReceiver (delete (i, k) (robjs r)) (sendAllKeys r) (recvAll r)
  | SENDALL_END =>
      if recvAll r then mkReceiver (Prune (default ∅ (sendAllKeys r)) (robjs r)) None false else r
  end.

(** ** The goroutines *)

Inductive event :=
| EUpdate (i : nat) (obj : O) (modRev : Z)   (* a cache of the server changes *)
| EDelete (x : name) (modRev : Z)
| EConnect (filterCloudletKeys : bool)       (* the client connects, perhaps again *)
| ETrigger                                   (* [triggerSendAllEnd] *)
| ECallback (j : nat)                        (* the [j]-th of the callbacks *)
| EWakeup
| ESend (x : option name)                    (* the next step of the sending goroutine *)
| ERecv.
(** One step of [send]; which key of a map is next is open. *)
Definition send_step (x : option name) (c : conn) : option conn :=
  let s := snd_ c in
  let go s := Some (mkConn s (stream c) (rcv c)) in
  match at_ s with
  | Waiting =>
      if signal s then
        go (mkSender (objs s) (pending s) (waking s) (Keys s) (keysToSend s) false (sendAll s) (sendAllEnd s)
              (manualSendAllEnd s) (Gather ntypes false (sendAllEnd s) false))
      else None
  | Gather (S i) false sae hasData =>
      go (with_send (if sendAll s then UpdateAll i s else Keys s) (keysToSend s) (Gather (S i) true sae hasData) s)
  | Gather (S i) true sae hasData =>
      let '(keys, tosend, any) := PrepData i s in
      go (with_send keys tosend (Gather i false sae (hasData || any)) s)
  | Gather O _ sae hasData =>
      go (with_send (Keys s) (keysToSend s)
            (if negb hasData && negb (sendAll s) && negb sae then Waiting else Sending 0 None sae) s)
  | Sending ii None sae =>
      if decide (ii < ntypes)%nat then
        go (with_send (Keys s) (other_types ii (keysToSend s)) (Sending ii (Some (of_type ii (keysToSend s))) sae) s)
      else
        Some (mkConn (mkSender (objs s) (pending s) (waking s) (Keys s) (keysToSend s) (signal s) false
                       (if sae then false else sendAllEnd s) (manualSendAllEnd s) Waiting)
                (stream c ++ if sae then [SENDALL_END] else []) (rcv c))
  | Sending ii (Some keys) sae =>
      match x with
      | Some x =>
          match keys !! x with
          | Some ctx =>
              Some (mkConn (with_send (Keys s) (keysToSend s) (Sending ii (Some (delete x keys)) sae) s)
                      (stream c ++ [notice_for x ctx s]) (rcv c))
          | None => None
          end
      | None => if decide (keys = ∅) then go (with_send (Keys s) (keysToSend s) (Sending (S ii) None sae) s) else None
      end
  end.
(** A connection: the server makes new senders and the first [wakeup]; the
    client keeps its caches and expects all objects. *)
Definition connect (filterCloudletKeys : bool) (c : conn) : conn :=
  mkConn (mkSender (objs (snd_ c)) (pending (snd_ c)) 0 ∅ ∅ true true (negb filterCloudletKeys) filterCloudletKeys Waiting)
    [] (mkReceiver (robjs (rcv c)) (Some ∅) true).
Definition exec (e : event) (c : conn) : option conn :=
  let on s := Some (mkConn s (stream c) (rcv c)) in
  match e with
  | EUpdate i obj modRev => on (cache_update i obj modRev (snd_ c))
  | EDelete x modRev => on (cache_delete x modRev (snd_ c))
  | EConnect f => Some (connect f c)
  | ETrigger => on (triggerSendAllEnd (snd_ c))
  | ECallback j =>
      match pending (snd_ c) !! j with
      | Some (x, modRev) => on (Update x modRev (delete j (pending (snd_ c))) (snd_ c))
      | None => None
      end
  | EWakeup => match waking (snd_ c) with S w => on (wakeup w (snd_ c)) | O => None end
  | ESend x => send_step x c
  | ERecv =>
      match stream c with
      | n :: rest => Some (mkConn (snd_ c) rest (Recv n (rcv c)))
      | [] => None
      end
  end.
(** The steps of the protocol, without changes from outside. *)
Definition internal (e : event) : bool :=
  match e with ECallback _ | EWakeup | ESend _ | ERecv => true | _ => false end.
Definition net_step (c c' : conn) : Prop := ∃ e, exec e c = Some c'.
Definition own_step (c c' : conn) : Prop := ∃ e, internal e = true ∧ exec e c = Some c'.
(** A server that has not been connected to, and a client with any caches. *)
Definition start (m r : caches) (f : bool) : conn :=
  connect f (mkConn (mkSender m [] 0 ∅ ∅ false false false false Waiting) [] (mkReceiver r None false)).

(** ** Maps split by type *)

Lemma of_type_lookup i m x c : of_type i m !! x = Some c ↔ m !! x = Some c ∧ x.1 = i.
Proof. apply map_lookup_filter_Some. Qed.
Lemma other_types_lookup i m x c : other_types i m !! x = Some c ↔ m !! x = Some c ∧ x.1 ≠ i.
Proof. apply map_lookup_filter_Some. Qed.
Lemma split_size i m : size m = (size (of_type i m) + size (other_types i m))%nat.
Proof.
  unfold of_type, other_types. rewrite <-map_size_disj_union by apply map_disjoint_filter_complement.
  by rewrite map_filter_union_complement.
Qed.
Lemma union_size (m1 m2 : contexts) : (size (m1 ∪ m2) <= size m1 + size m2)%nat.
Proof.
  rewrite <-!size_dom, dom_union_L, size_union_alt. pose proof (subseteq_size (dom m2 ∖ dom m1) (dom m2) ltac:(set_solver)). lia.
Qed.
Lemma prep_spec i s keys tosend any :
  PrepData i s = (keys, tosend, any) →
  any = bool_decide (of_type i (Keys s) ≠ ∅) ∧ keys = other_types i (Keys s) ∧
  tosend = if any then of_type i (Keys s) ∪ other_types i (keysToSend s) else keysToSend s.
Proof.
  unfold PrepData. case_decide as He; intros [= <- <- <-].
  - split; [by rewrite bool_decide_eq_false_2 by tauto|]. split; [|done]. apply map_eq. intros x.
    apply option_eq. intros c. rewrite other_types_lookup. split; [|tauto]. intros Hx. split; [done|]. intros Hi.
    assert (of_type i (Keys s) !! x = Some c) as Hc by (by apply of_type_lookup). rewrite He in Hc. by apply lookup_empty_Some in Hc.
  - by rewrite bool_decide_eq_true_2.
Qed.

(** ** The notices under way *)

(** What a notice leaves in the cache of the receiver at [x]. *)
Definition effect (x : name) (n : Notice) : option (option (O * Z)) :=
  match n with
  | UPDATE i obj modRev => if decide (x = (i, GetKeyVal obj)) then Some (Some (obj, modRev)) else None
  | DELETE i k _ => if decide (x = (i, k)) then Some None else None
  | SENDALL_END => None
  end.
Fixpoint last_for (x : name) (l : list Notice) : option (option (O * Z)) :=
  match l with
  | [] => None
  | n :: l' => match last_for x l' with Some e => Some e | None => effect x n end
  end.
Lemma last_for_snoc x l n :
  last_for x (l ++ [n]) = match effect x n with Some e => Some e | None => last_for x l end.
Proof.
  induction l as [|n' l IH]; simpl; [by destruct (effect x n)|]. rewrite IH. by destruct (effect x n).
Qed.
Lemma effect_notice x c s : (∀ y v, objs s !! y = Some v → GetKeyVal v.1 = y.2) → forceDelete c = false →
  effect x (notice_for x c s) = Some (objs s !! x) ∧ ∀ y, y ≠ x → effect y (notice_for x c s) = None.
Proof.
  intros Hkey Hf. unfold notice_for. destruct (objs s !! x) as [[obj modRev]|] eqn:Hx.
  - rewrite Hf. simpl. apply Hkey in Hx. simpl in Hx. rewrite Hx, <-surjective_pairing. rewrite decide_True by done.
    split; [done|]. intros y Hy. by rewrite decide_False.
  - simpl. rewrite <-surjective_pairing. rewrite decide_True by done. split; [done|]. intros y Hy. by rewrite decide_False.
Qed.
Lemma recv_all n r :
  n ≠ SENDALL_END → recvAll (Recv n r) = recvAll r ∧ (is_Some (sendAllKeys (Recv n r)) ↔ is_Some (sendAllKeys r)).
Proof. intros Hn. destruct n; [|done..]. split; [done|]. simpl. by destruct (sendAllKeys r). Qed.
Lemma recv_at x n r :
  n ≠ SENDALL_END →
  robjs (Recv n r) !! x = match effect x n with Some e => e | None => robjs r !! x end ∧
  (∀ l, sendAllKeys (Recv n r) = Some l → ∃ l0, sendAllKeys r = Some l0 ∧ (x ∈ l ↔ x ∈ l0 ∨ ∃ v, effect x n = Some (Some v))).
Proof.
  intros Hn. destruct n as [i obj modRev|i k modRev|]; [| |done]; simpl; split.
  - rewrite lookup_insert. destruct (decide (x = _)) as [->|Hx]; [by rewrite decide_True|by rewrite decide_False].
  - destruct (sendAllKeys r) as [l0|]; [|done]. intros l [= <-]. exists l0. split; [done|].
    rewrite elem_of_union, elem_of_singleton. case_decide; naive_solver.
  - rewrite lookup_delete. destruct (decide (x = _)) as [->|Hx]; [by rewrite decide_True|by rewrite decide_False].
  - intros l Hl. exists l. split; [done|]. case_decide; naive_solver.
Qed.

(** ** The invariant *)

Definition keys_of (pl : place) : contexts := match pl with Sending _ (Some keys) _ => keys | _ => ∅ end.
(** In this round, [UpdateAll] and [PrepData] of type [i] are to come. *)
Definition to_update (pl : place) (i : nat) : Prop :=
  match pl with
  | Waiting => True
  | Gather todo updated _ _ => ((if updated then S i else i) < todo)%nat
  | Sending _ _ _ => False
  end.
Definition to_prep (pl : place) (i : nat) : Prop := match pl with Gather todo _ _ _ => (i < todo)%nat | _ => False end.
(** Where keys that have been gathered may be. *)
Definition to_take (pl : place) (i : nat) : Prop :=
  match pl with
  | Waiting => False
  | Gather todo _ _ hasData => (todo <= i)%nat ∧ hasData = true
  | Sending ii None _ => (ii <= i)%nat
  | Sending ii (Some _) _ => (ii < i)%nat
  end.
Definition sae_of (pl : place) : bool := match pl with Waiting => false | Gather _ _ sae _ => sae | Sending _ _ sae => sae end.

(** A change of [x] is still to be sent; or the stream and the receiver have it. *)
Definition dirty (s : sender) (x : name) : Prop :=
  x ∈ (pending s).*1 ∨ is_Some (Keys s !! x) ∨ is_Some (keysToSend s !! x) ∨ is_Some (keys_of (at_ s) !! x).
Definition all_to_come (s : sender) (x : name) : Prop := sendAll s = true ∧ to_update (at_ s) x.1.
Definition clean (c : conn) (x : name) : Prop :=
  match objs (snd_ c) !! x with
  | Some v =>
      all_to_come (snd_ c) x ∨ last_for x (stream c) = Some (Some v) ∨
      last_for x (stream c) = None ∧ robjs (rcv c) !! x = Some v ∧ ∀ l, sendAllKeys (rcv c) = Some l → x ∈ l
  | None =>
      last_for x (stream c) = Some None ∨
      last_for x (stream c) = None ∧ (robjs (rcv c) !! x = None ∨ ∃ l, sendAllKeys (rcv c) = Some l ∧ x ∉ l)
  end.
Definition ctx_ok (m : contexts) : Prop :=
  ∀ x ctx, m !! x = Some ctx → forceDelete ctx = false ∧ isRemoteWanted x.1 = true.
Record sender_inv (s : sender) : Prop := {
  si_key y v : objs s !! y = Some v → GetKeyVal v.1 = y.2;
  si_ctx : ctx_ok (Keys s) ∧ ctx_ok (keysToSend s) ∧ ctx_ok (keys_of (at_ s));
  si_signal : signal s = true ∨ (0 < waking s)%nat ∨ ∀ x, is_Some (Keys s !! x) → to_prep (at_ s) x.1;
  si_take x : is_Some (keysToSend s !! x) → to_take (at_ s) x.1;
  si_end : sendAllEnd s = true → signal s = true ∨ sae_of (at_ s) = true;
  si_all : sendAll s = true → signal s = true ∨ at_ s ≠ Waiting;
}.
Record net_inv (c : conn) : Prop := {
  ni_sender : sender_inv (snd_ c);
  ni_clean x : isRemoteWanted x.1 = true → dirty (snd_ c) x ∨ clean c x;
  ni_rec : recvAll (rcv c) = true ↔ is_Some (sendAllKeys (rcv c));
  ni_all : SENDALL_END ∈ stream c ∨ recvAll (rcv c) = false → sendAll (snd_ c) = false;
  ni_manual : manualSendAllEnd (snd_ c) = true ∨ sendAllEnd (snd_ c) = true ∨ SENDALL_END ∈ stream c ∨
              recvAll (rcv c) = false;
}.

(** A step of the sender that sends nothing. *)
Lemma quiet_step c s' :
  net_inv c → sender_inv s' →
  (∀ x, isRemoteWanted x.1 = true → dirty (snd_ c) x → dirty s' x) →
  (∀ x, isRemoteWanted x.1 = true → objs s' !! x = objs (snd_ c) !! x ∨ dirty s' x) →
  (∀ x, isRemoteWanted x.1 = true → is_Some (objs s' !! x) → all_to_come (snd_ c) x → dirty s' x ∨ all_to_come s' x) →
  (sendAll (snd_ c) = false → sendAll s' = false) →
  manualSendAllEnd s' = true ∨ sendAllEnd s' = true ∨ manualSendAllEnd s' = manualSendAllEnd (snd_ c) ∧ sendAllEnd s' = sendAllEnd (snd_ c) →
  net_inv (mkConn s' (stream c) (rcv c)).
Proof.
  intros [Hs Hc Hr Ha Hm] Hs' Hd Ho Hall Hsa Hman. split; simpl; [done| |done| |].
  - intros x Hw. destruct (Ho x Hw) as [Hox|]; [|by left]. destruct (Hc x Hw) as [?|Hcl]; [left; by apply Hd|].
    unfold clean in *. simpl. rewrite Hox. destruct (objs (snd_ c) !! x) as [v|] eqn:Hv; [|by right].
    destruct Hcl as [Hx|?]; [|by right; right].
    destruct (Hall x Hw) as [?|?]; [by rewrite Hox|done|by left|by right; left].
  - intros Hx. by apply Hsa, Ha.
  - destruct Hman as [?|[?|[-> ->]]]; [by left|by right; left|done].
Qed.
Lemma ctx_split i m : ctx_ok m → ctx_ok (of_type i m) ∧ ctx_ok (other_types i m).
Proof.
  intros Hm. split; intros x ctx Hx; [apply of_type_lookup in Hx as [Hx _]|apply other_types_lookup in Hx as [Hx _]]; by apply Hm.
Qed.
Lemma ctx_union m1 m2 : ctx_ok m1 → ctx_ok m2 → ctx_ok (m1 ∪ m2).
Proof. intros H1 H2 x ctx [Hx|[_ Hx]]%lookup_union_Some_raw; [by apply H1|by apply H2]. Qed.
Lemma ctx_empty : ctx_ok ∅.
Proof. intros x ctx Hx. by apply lookup_empty_Some in Hx. Qed.

(** *** Changes, callbacks and connections *)

Lemma pending_snoc (l : list (name * Z)) x y modRev : x ∈ (l ++ [(y, modRev)]).*1 ↔ x ∈ l.*1 ∨ x = y.
Proof. rewrite fmap_app, elem_of_app. simpl. by rewrite list_elem_of_singleton. Qed.
Lemma update_inv i obj modRev c : net_inv c → net_inv (mkConn (cache_update i obj modRev (snd_ c)) (stream c) (rcv c)).
Proof.
  intros Hinv. apply quiet_step; [done| | | | |done|by right; right].
  - destruct (ni_sender c Hinv) as [Hk Hc Hs Ht He Ha]. split; simpl; [|done..].
    intros y v [[<- <-]|[_ ?]]%lookup_insert_Some; [done|by apply Hk].
  - intros x _ [Hp|Hx]; [left; apply pending_snoc; by left|by right].
  - intros x _. simpl. destruct (decide (x = (i, GetKeyVal obj))) as [->|]; [right|left; by apply lookup_insert_ne].
    left. apply pending_snoc. by right.
  - intros x _ _ Hx. by right.
Qed.
Lemma cache_delete_inv y modRev c : net_inv c → net_inv (mkConn (cache_delete y modRev (snd_ c)) (stream c) (rcv c)).
Proof.
  intros Hinv. apply quiet_step; [done| | | | |done|by right; right].
  - destruct (ni_sender c Hinv) as [Hk Hc Hs Ht He Ha]. split; simpl; [|done..].
    intros z v [_ ?]%lookup_delete_Some. by apply Hk.
  - intros x _ [Hp|Hx]; [left; apply pending_snoc; by left|by right].
  - intros x _. simpl. destruct (decide (x = y)) as [->|]; [right|left; by apply lookup_delete_ne].
    left. apply pending_snoc. by right.
  - intros x _ _ Hx. by right.
Qed.
Lemma trigger_inv c : net_inv c → net_inv (mkConn (triggerSendAllEnd (snd_ c)) (stream c) (rcv c)).
Proof.
  intros Hinv. unfold triggerSendAllEnd. destruct (manualSendAllEnd (snd_ c)) eqn:Hm; [|by destruct c].
  apply quiet_step; simpl; [done| |done|by left|by right|done|by right; left].
  destruct (ni_sender c Hinv) as [Hk Hc Hs Ht He Ha]. split; simpl; [done|done|by left|done|by left|by left].
Qed.
Lemma callback_inv j x modRev c :
  net_inv c → pending (snd_ c) !! j = Some (x, modRev) →
  net_inv (mkConn (Update x modRev (delete j (pending (snd_ c))) (snd_ c)) (stream c) (rcv c)).
Proof.
  intros Hinv Hj. assert (∀ y, y ∈ (pending (snd_ c)).*1 → y = x ∨ y ∈ (delete j (pending (snd_ c))).*1) as Hp.
  { intros y Hy. rewrite (delete_Permutation _ _ _ Hj) in Hy. simpl in Hy. by apply elem_of_cons in Hy. }
  destruct (ni_sender c Hinv) as [Hk (Hc1 & Hc2 & Hc3) Hs Ht He Ha]. unfold Update. destruct (isRemoteWanted x.1) eqn:Hw.
  - apply quiet_step; simpl; [done| | |by left|by right|done|by right; right].
    + split; simpl; [done| |by right; left; lia|done|done|done]. split; [|done].
      intros y ctx [[<- <-]|[_ ?]]%lookup_insert_Some; [done|by apply Hc1].
    + intros y _ [[->|Hy]%Hp|[Hy|Hy]]; unfold dirty; simpl; rewrite ?lookup_insert_eq; eauto.
      destruct (decide (y = x)) as [->|]; [rewrite lookup_insert_eq; eauto|rewrite lookup_insert_ne by done; eauto].
  - apply quiet_step; simpl; [done|by split| |by left|by right|done|by right; right].
    intros y Hwy [[->|Hy]%Hp|Hy]; [congruence|by left|by right].
Qed.
Lemma wakeup_inv w c : net_inv c → net_inv (mkConn (wakeup w (snd_ c)) (stream c) (rcv c)).
Proof.
  intros Hinv. apply quiet_step; simpl; [done| |done|by left|by right|done|by right; right].
  destruct (ni_sender c Hinv) as [Hk Hc Hs Ht He Ha]. split; simpl; [done|done|by left|done|by left|by left].
Qed.
Lemma connect_inv f c : (∀ y v, objs (snd_ c) !! y = Some v → GetKeyVal v.1 = y.2) → net_inv (connect f c).
Proof.
  intros Hk. split; simpl.
  - split; simpl; [done|split; [apply ctx_empty|split; apply ctx_empty]|by left| |by left|by left].
    intros x [ctx Hx]. by apply lookup_empty_Some in Hx.
  - intros x _. right. unfold clean. simpl. destruct (objs (snd_ c) !! x); [by left|]. right. split; [done|]. right.
    exists ∅. split; [done|]. set_solver.
  - split; [by eexists|done].
  - by intros [?%elem_of_nil|?].
  - destruct f; [by left|by right; left].
Qed.

(** *** The sending goroutine *)

Lemma of_type_is x i m : is_Some (m !! x) → is_Some (of_type i m !! x) ∨ is_Some (other_types i m !! x).
Proof.
  intros [ctx Hx]. destruct (decide (x.1 = i)); [left|right]; exists ctx; [by apply of_type_lookup|by apply other_types_lookup].
Qed.
Lemma is_union (m1 m2 : contexts) x : is_Some ((m1 ∪ m2) !! x) ↔ is_Some (m1 !! x) ∨ is_Some (m2 !! x).
Proof. rewrite lookup_union_is_Some. tauto. Qed.
Lemma wake_inv c :
  net_inv c → (∀ i, isRemoteWanted i = true → (i < ntypes)%nat) → at_ (snd_ c) = Waiting →
  let s := snd_ c in
  net_inv (mkConn (mkSender (objs s) (pending s) (waking s) (Keys s) (keysToSend s) false (sendAll s) (sendAllEnd s)
    (manualSendAllEnd s) (Gather ntypes false (sendAllEnd s) false)) (stream c) (rcv c)).
Proof.
  intros Hinv Hn Hpl s. destruct (ni_sender c Hinv) as [Hk (Hc1 & Hc2 & Hc3) Hs Ht He Ha]. fold s in Hk, Hc1, Hc2, Hc3, Hs, Ht, He, Ha, Hpl.
  apply quiet_step; simpl; [done| | |by left| |done|by right; right].
  - split; simpl; [done| | | |by right|by right].
    + split; [done|]. split; [done|apply ctx_empty].
    + right; right. intros x [ctx Hx]. apply Hn. by apply Hc1 in Hx as [_ ?].
    + intros x Hx%Ht. by rewrite Hpl in Hx.
  - intros x _ [?|[?|[?|Hx]]]; unfold dirty; simpl; eauto. fold s in Hx. rewrite Hpl in Hx. simpl in Hx.
    destruct Hx as [? Hx]. by apply lookup_empty_Some in Hx.
  - intros x Hw _ [Hx _]. right. split; [done|]. simpl. by apply Hn.
Qed.
Lemma update_all_is i s x :
  isRemoteWanted i = true → is_Some (UpdateAll i s !! x) ↔ is_Some (objs s !! x) ∧ x.1 = i ∨ is_Some (Keys s !! x).
Proof.
  intros Hw. unfold UpdateAll. rewrite Hw, is_union, lookup_fmap, fmap_is_Some. unfold is_Some at 1.
  setoid_rewrite map_lookup_filter_Some. unfold is_Some. naive_solver.
Qed.
Lemma update_all_ctx i s : ctx_ok (Keys s) → ctx_ok (UpdateAll i s).
Proof.
  intros Hc. unfold UpdateAll. destruct (isRemoteWanted i) eqn:Hw; [|done]. apply ctx_union; [|done].
  intros x ctx Hx. rewrite lookup_fmap in Hx. apply fmap_Some in Hx as ([o r] & [_ <-]%map_lookup_filter_Some & ->). done.
Qed.
Lemma gather_all_inv i sae any c :
  net_inv c → at_ (snd_ c) = Gather (S i) false sae any →
  let s := snd_ c in
  net_inv (mkConn (with_send (if sendAll s then UpdateAll i s else Keys s) (keysToSend s) (Gather (S i) true sae any) s)
    (stream c) (rcv c)).
Proof.
  intros Hinv Hpl s. destruct (ni_sender c Hinv) as [Hk (Hc1 & Hc2 & Hc3) Hs Ht He Ha]. fold s in Hk, Hc1, Hc2, Hc3, Hs, Ht, He, Ha, Hpl.
  assert (∀ x, is_Some (Keys s !! x) → is_Some ((if sendAll s then UpdateAll i s else Keys s) !! x)) as Hsub.
  { intros x Hx. destruct (sendAll s); [|done]. unfold UpdateAll. destruct (isRemoteWanted i); [|done]. apply is_union. by right. }
  apply quiet_step; simpl; [done| | |by left| |done|by right; right].
  - split; simpl; [done| | | | |by right].
    + split; [|by split; [done|apply ctx_empty]]. destruct (sendAll s); [by apply update_all_ctx|done].
    + destruct Hs as [?|[?|Hx]]; [by left|by right; left|]. right; right. rewrite Hpl in Hx. simpl in Hx. intros x Hx'.
      destruct (sendAll s); [|by apply Hx]. destruct (isRemoteWanted i) eqn:Hw.
      * apply update_all_is in Hx' as [[_ ->]|Hx']; [lia|by apply Hx|done].
      * unfold UpdateAll in Hx'. rewrite Hw in Hx'. by apply Hx.
    + intros x Hx%Ht. by rewrite Hpl in Hx.
    + intros Hx%He. by rewrite Hpl in Hx.
  - intros x _ [?|[?|[?|Hx]]]; unfold dirty; simpl; [by left|right; left; by apply Hsub|by right; right; left|].
    fold s in Hx. rewrite Hpl in Hx. simpl in Hx. destruct Hx as [? Hx]. by apply lookup_empty_Some in Hx.
  - intros x Hw Hx [Hall Hup]. fold s in Hall, Hup. rewrite Hall. rewrite Hpl in Hup. simpl in Hup.
    destruct (decide (x.1 = i)) as [Hi|]; [left; right; left; apply update_all_is; [congruence|by left]|].
    right. split; [done|]. simpl. lia.
Qed.
Lemma gather_prep_inv i sae any c keys tosend any' :
  net_inv c → at_ (snd_ c) = Gather (S i) true sae any → PrepData i (snd_ c) = (keys, tosend, any') →
  net_inv (mkConn (with_send keys tosend (Gather i false sae (any || any')) (snd_ c)) (stream c) (rcv c)).
Proof.
  intros Hinv Hpl Hprep. apply prep_spec in Hprep as (Hany & Hkeys & Htosend). set (s := snd_ c) in *.
  destruct (ni_sender c Hinv) as [Hk (Hc1 & Hc2 & Hc3) Hs Ht He Ha]. fold s in Hk, Hc1, Hc2, Hc3, Hs, Ht, He, Ha.
  assert (∀ x, is_Some (tosend !! x) → is_Some (of_type i (Keys s) !! x) ∨ is_Some (keysToSend s !! x)) as Hin.
  { intros x Hx. rewrite Htosend in Hx. destruct any'; [|by right]. apply is_union in Hx as [Hx|[ctx Hx]]; [by left|].
    apply other_types_lookup in Hx as [Hx _]. right. by exists ctx. }
  apply quiet_step; simpl; [done| | |by left| |done|by right; right].
  - split; simpl; [done| | | | |by right].
    + split; [rewrite Hkeys; by apply ctx_split|]. split; [|apply ctx_empty]. rewrite Htosend.
      destruct any'; [apply ctx_union; by apply ctx_split|done].
    + destruct Hs as [?|[?|Hx]]; [by left|by right; left|]. right; right. rewrite Hpl in Hx. simpl in Hx.
      intros x [ctx Hx']. rewrite Hkeys in Hx'. apply other_types_lookup in Hx' as [Hx' Hne].
      specialize (Hx x ltac:(by exists ctx)). lia.
    + intros x [[ctx Hx]|Hx]%Hin.
      * apply of_type_lookup in Hx as Hx2. destruct Hx2 as [_ Hi]. subst i. split; [done|]. rewrite Hany. apply orb_true_iff. right.
        apply bool_decide_eq_true. intros He'. rewrite He' in Hx. by apply lookup_empty_Some in Hx.
      * apply Ht in Hx. rewrite Hpl in Hx. simpl in Hx. destruct Hx as [? ->]. split; [lia|done].
    + intros Hx%He. by rewrite Hpl in Hx.
  - intros x _ [?|[Hx|[Hx|Hx]]]; unfold dirty; simpl; [by left| | |].
    + destruct (of_type_is x i _ Hx) as [Hx'|Hx']; [|right; left; by rewrite Hkeys]. right; right; left. rewrite Htosend.
      destruct any'; [apply is_union; by left|]. symmetry in Hany. apply bool_decide_eq_false in Hany.
      destruct Hany. intros He'. fold s in Hx'. rewrite He' in Hx'. destruct Hx' as [? Hx']. by apply lookup_empty_Some in Hx'.
    + right; right; left. rewrite Htosend. destruct any'; [|done]. apply is_union. right.
      apply Ht in Hx as Hx2. fold s in Hpl. rewrite Hpl in Hx2. simpl in Hx2. destruct Hx as [ctx Hx]. exists ctx.
      apply other_types_lookup. split; [done|lia].
    + fold s in Hx. rewrite Hpl in Hx. simpl in Hx. destruct Hx as [? Hx]. by apply lookup_empty_Some in Hx.
  - intros x Hw _ [Hall Hup]. right. split; [done|]. fold s in Hup. rewrite Hpl in Hup. simpl in Hup |- *. lia.
Qed.
Lemma gathered_inv updated sae any c :
  net_inv c → (∀ i, isRemoteWanted i = true → (i < ntypes)%nat) → at_ (snd_ c) = Gather 0 updated sae any →
  let s := snd_ c in
  net_inv (mkConn (with_send (Keys s) (keysToSend s)
    (if negb any && negb (sendAll s) && negb sae then Waiting else Sending 0 None sae) s) (stream c) (rcv c)).
Proof.
  intros Hinv Hn Hpl s. destruct (ni_sender c Hinv) as [Hk (Hc1 & Hc2 & Hc3) Hs Ht He Ha]. fold s in Hk, Hc1, Hc2, Hc3, Hs, Ht, He, Ha, Hpl.
  set (pl := if negb any && negb (sendAll s) && negb sae then Waiting else Sending 0 None sae).
  assert (keys_of pl = ∅ ∧ (pl = Waiting → any = false ∧ sendAll s = false ∧ sae = false) ∧
    (pl ≠ Waiting → pl = Sending 0 None sae)) as (Hkeys & Hwait & Hsend).
  { unfold pl. destruct any, (sendAll s), sae; done. }
  apply quiet_step; simpl; [done| | |by left| |done|by right; right].
  - split; simpl; [done| | | | |].
    + split; [done|]. split; [done|]. rewrite Hkeys. apply ctx_empty.
    + destruct Hs as [?|[?|Hx]]; [by left|by right; left|]. right; right. rewrite Hpl in Hx. simpl in Hx.
      intros x Hx'%Hx. lia.
    + intros x Hx%Ht. rewrite Hpl in Hx. simpl in Hx. destruct Hx as [_ Ha'].
      rewrite Hsend; [simpl; lia|]. intros Hp. apply Hwait in Hp as [? _]. congruence.
    + intros Hx%He. rewrite Hpl in Hx. simpl in Hx. destruct Hx as [?|Hsae]; [by left|right].
      rewrite Hsend; [done|]. intros Hp. apply Hwait in Hp as (_ & _ & ?). congruence.
    + intros Hx. right. intros Hp. apply Hwait in Hp as (_ & ? & _). congruence.
  - intros x _ [?|[?|[?|Hx]]]; unfold dirty; simpl; eauto. fold s in Hx. rewrite Hpl in Hx. simpl in Hx.
    destruct Hx as [? Hx]. by apply lookup_empty_Some in Hx.
  - intros x Hw _ [Hall Hup]. fold s in Hup. rewrite Hpl in Hup. simpl in Hup. by destruct updated; lia.
Qed.
Lemma take_inv ii sae c :
  net_inv c → at_ (snd_ c) = Sending ii None sae →
  let s := snd_ c in
  net_inv (mkConn (with_send (Keys s) (other_types ii (keysToSend s)) (Sending ii (Some (of_type ii (keysToSend s))) sae) s)
    (stream c) (rcv c)).
Proof.
  intros Hinv Hpl s. destruct (ni_sender c Hinv) as [Hk (Hc1 & Hc2 & Hc3) Hs Ht He Ha]. fold s in Hk, Hc1, Hc2, Hc3, Hs, Ht, He, Ha, Hpl.
  apply quiet_step; simpl; [done| | |by left| |done|by right; right].
  - split; simpl; [done| | | | |by right].
    + split; [done|]. by destruct (ctx_split ii _ Hc2).
    + destruct Hs as [?|[?|Hx]]; [by left|by right; left|]. right; right. by rewrite Hpl in Hx.
    + intros x [ctx Hx]. apply other_types_lookup in Hx as [Hx Hne]. specialize (Ht x ltac:(by exists ctx)).
      rewrite Hpl in Ht. simpl in Ht. lia.
    + intros Hx%He. by rewrite Hpl in Hx.
  - intros x _ [?|[?|[Hx|Hx]]]; unfold dirty; simpl; eauto.
    + destruct (of_type_is x ii _ Hx); eauto.
    + fold s in Hx. rewrite Hpl in Hx. simpl in Hx. destruct Hx as [? Hx]. by apply lookup_empty_Some in Hx.
  - intros x Hw _ [Hall Hup]. fold s in Hup. by rewrite Hpl in Hup.
Qed.
Lemma next_type_inv ii sae c :
  net_inv c → at_ (snd_ c) = Sending ii (Some ∅) sae →
  let s := snd_ c in
  net_inv (mkConn (with_send (Keys s) (keysToSend s) (Sending (S ii) None sae) s) (stream c) (rcv c)).
Proof.
  intros Hinv Hpl s. destruct (ni_sender c Hinv) as [Hk (Hc1 & Hc2 & Hc3) Hs Ht He Ha]. fold s in Hk, Hc1, Hc2, Hc3, Hs, Ht, He, Ha, Hpl.
  apply quiet_step; simpl; [done| | |by left| |done|by right; right].
  - split; simpl; [done| | | | |by right].
    + split; [done|]. split; [done|apply ctx_empty].
    + destruct Hs as [?|[?|Hx]]; [by left|by right; left|]. right; right. by rewrite Hpl in Hx.
    + intros x Hx%Ht. rewrite Hpl in Hx. simpl in Hx. lia.
    + intros Hx%He. by rewrite Hpl in Hx.
  - intros x _ [?|[?|[?|Hx]]]; unfold dirty; simpl; eauto. fold s in Hx. rewrite Hpl in Hx. simpl in Hx.
    destruct Hx as [? Hx]. by apply lookup_empty_Some in Hx.
  - intros x Hw _ [Hall Hup]. fold s in Hup. by rewrite Hpl in Hup.
Qed.
Lemma send_one_inv ii keys x ctx sae c :
  net_inv c → at_ (snd_ c) = Sending ii (Some keys) sae → keys !! x = Some ctx →
  let s := snd_ c in
  net_inv (mkConn (with_send (Keys s) (keysToSend s) (Sending ii (Some (delete x keys)) sae) s)
    (stream c ++ [notice_for x ctx s]) (rcv c)).
Proof.
  intros Hinv Hpl Hx s. destruct Hinv as [[Hk (Hc1 & Hc2 & Hc3) Hs Ht He Ha] Hc Hr Hal Hm].
  fold s in Hk, Hc1, Hc2, Hc3, Hs, Ht, He, Ha, Hc, Hal, Hm, Hpl. rewrite Hpl in Hc3. simpl in Hc3.
  destruct (effect_notice x ctx s Hk (proj1 (Hc3 x ctx Hx))) as [Heff Heff'].
  assert (notice_for x ctx s ≠ SENDALL_END) as Hne by (unfold notice_for; repeat case_match; done).
  split; simpl.
  - split; simpl; [done| | | | |by right].
    + split; [done|]. split; [done|]. intros y ctx' [_ Hy]%lookup_delete_Some. by apply Hc3.
    + destruct Hs as [?|[?|Hx']]; [by left|by right; left|]. right; right. by rewrite Hpl in Hx'.
    + intros y Hy%Ht. by rewrite Hpl in Hy.
    + intros Hy%He. by rewrite Hpl in Hy.
  - intros y Hw. destruct (decide (y = x)) as [->|Hyx].
    + right. unfold clean. simpl. rewrite last_for_snoc, Heff. destruct (objs s !! x); [by right; left|by left].
    + destruct (Hc y Hw) as [Hd|Hcl]; [left|right].
      * destruct Hd as [?|[?|[?|Hy]]]; unfold dirty; simpl; eauto. right; right; right. rewrite lookup_delete_ne by done.
        by rewrite Hpl in Hy.
      * unfold clean in *. simpl. rewrite last_for_snoc, (Heff' y Hyx). fold s in Hcl. destruct (objs s !! y); [|done].
        destruct Hcl as [[_ Hup]|Hcl]; [|by right]. by rewrite Hpl in Hup.
  - done.
  - rewrite elem_of_app, list_elem_of_singleton. intros [[?|?]|?]; [by apply Hal; left|congruence|by apply Hal; right].
  - rewrite elem_of_app. tauto.
Qed.
Lemma round_end_inv ii sae c :
  net_inv c → at_ (snd_ c) = Sending ii None sae → (∀ i, isRemoteWanted i = true → (i < ntypes)%nat) → ¬ (ii < ntypes)%nat →
  let s := snd_ c in
  net_inv (mkConn (mkSender (objs s) (pending s) (waking s) (Keys s) (keysToSend s) (signal s) false
             (if sae then false else sendAllEnd s) (manualSendAllEnd s) Waiting)
           (stream c ++ if sae then [SENDALL_END] else []) (rcv c)).
Proof.
  intros Hinv Hpl Hn Hii s. destruct Hinv as [[Hk (Hc1 & Hc2 & Hc3) Hs Ht He Ha] Hc Hr Hal Hm].
  fold s in Hk, Hc1, Hc2, Hc3, Hs, Ht, He, Ha, Hc, Hal, Hm, Hpl.
  assert (∀ y, last_for y (stream c ++ if sae then [SENDALL_END] else []) = last_for y (stream c)) as Hlast.
  { intros y. destruct sae; [by rewrite last_for_snoc|by rewrite app_nil_r]. }
  split; simpl.
  - split; simpl; [done| | | | |done].
    + split; [done|]. split; [done|apply ctx_empty].
    + destruct Hs as [?|[?|Hx]]; [by left|by right; left|]. right; right. by rewrite Hpl in Hx.
    + intros x [ctx Hx]. apply Hc2 in Hx as Hx2. destruct Hx2 as [_ Hx2%Hn]. specialize (Ht x ltac:(by exists ctx)).
      rewrite Hpl in Ht. simpl in Ht. lia.
    + destruct sae; [done|]. intros Hx%He. rewrite Hpl in Hx. simpl in Hx. destruct Hx; [by left|done].
  - intros y Hw. destruct (Hc y Hw) as [Hd|Hcl]; [left|right].
    + destruct Hd as [?|[?|[?|Hy]]]; unfold dirty; simpl; eauto. rewrite Hpl in Hy. simpl in Hy.
      destruct Hy as [? Hy]. by apply lookup_empty_Some in Hy.
    + unfold clean in *. simpl. rewrite Hlast. fold s in Hcl. destruct (objs s !! y); [|done].
      destruct Hcl as [[_ Hup]|Hcl]; [|by right]. by rewrite Hpl in Hup.
  - done.
  - done.
  - rewrite elem_of_app. destruct sae; [right; right; left; right; by apply list_elem_of_singleton|].
    rewrite app_nil_r in *. tauto.
Qed.

(** *** Receiving *)

Lemma recv_inv n rest c :
  net_inv c → stream c = n :: rest → net_inv (mkConn (snd_ c) rest (Recv n (rcv c))).
Proof.
  intros [Hs Hc Hr Hal Hm] Hst. assert (n = SENDALL_END ∨ n ≠ SENDALL_END) as [->|Hne] by (destruct n; [by right|by right|by left]).
  - assert (sendAll (snd_ c) = false) as Hsa by (apply Hal; left; rewrite Hst; by left).
    assert (∀ y, last_for y (stream c) = last_for y rest) as Hlast.
    { intros y. rewrite Hst. simpl. by destruct (last_for y rest). }
    simpl. destruct (recvAll (rcv c)) eqn:Hra; (split; simpl; [done| | |done|by right; right; right]).
    + destruct (proj1 Hr eq_refl) as [l Hl]. intros y Hw. destruct (Hc y Hw) as [?|Hcl]; [by left|right].
      unfold clean in *. simpl. rewrite Hlast, Hl in Hcl. rewrite Hl. simpl. unfold Prune.
      destruct (objs (snd_ c) !! y) as [v|].
      * right. destruct Hcl as [[? _]|[?|(? & Hy & Hin)]]; [congruence|by left|right]. split; [done|]. split; [|done].
        apply map_lookup_filter_Some. split; [done|by apply Hin].
      * destruct Hcl as [?|[? Hy]]; [by left|right]. split; [done|]. left. apply map_lookup_filter_None.
        destruct Hy as [?|(l' & [= <-] & Hnin)]; [by left|right]. by intros.
    + split; [done|]. by intros [? ?].
    + intros y Hw. destruct (Hc y Hw) as [?|Hcl]; [by left|right]. unfold clean in *. simpl. by rewrite Hlast in Hcl.
    + by rewrite Hra in *.
  - destruct (recv_all n (rcv c) Hne) as [Hra Hsk].
    assert (SENDALL_END ∈ stream c ↔ SENDALL_END ∈ rest) as Hend.
    { rewrite Hst, elem_of_cons. split; [by intros [<-|?]|by right]. }
    split; simpl; [done| |by rewrite Hra, Hsk|by rewrite Hra, <-Hend|by rewrite Hra, <-Hend].
    intros y Hw. destruct (Hc y Hw) as [?|Hcl]; [by left|right]. destruct (recv_at y n (rcv c) Hne) as [Hobj Hkeys].
    unfold clean in *. simpl. rewrite Hst in Hcl. simpl in Hcl. destruct (last_for y rest) as [e|] eqn:Hl.
    + destruct (objs (snd_ c) !! y) as [v|]; [|naive_solver]. destruct Hcl as [?|[?|[? _]]]; [by left|by right; left|done].
    + destruct (objs (snd_ c) !! y) as [v|].
      * destruct Hcl as [?|Hcl]; [by left|right; right]. split; [done|]. rewrite Hobj.
        destruct Hcl as [He|(He & Hy & Hin)]; rewrite He in *; (split; [done|]); intros l (l0 & Hl0 & Hiff)%Hkeys;
          apply Hiff; [right; by exists v|left; by apply Hin].
      * right. split; [done|]. rewrite Hobj. destruct Hcl as [He|[He Hy]]; rewrite He in *; [by left|].
        destruct Hy as [?|(l0 & Hl0 & Hnin)]; [by left|right]. destruct (proj2 Hsk ltac:(by exists l0)) as [l Hl'].
        exists l. split; [done|]. destruct (Hkeys l Hl') as (l1 & Hl1 & Hiff). rewrite Hiff. naive_solver.
Qed.

(** ** Runs *)

Section Runs.
(** The types that the other side wants are registered. *)
Hypothesis wanted_registered : ∀ i, isRemoteWanted i = true → (i < ntypes)%nat.

Lemma send_step_inv x c c' : net_inv c → send_step x c = Some c' → net_inv c'.
Proof.
  intros Hinv Hstep. unfold send_step in Hstep. destruct (at_ (snd_ c)) as [|[|i] updated sae any|ii [keys|] sae] eqn:Hpl.
  - destruct (signal (snd_ c)); [|done]. injection Hstep as <-. by apply wake_inv.
  - injection Hstep as <-. by eapply gathered_inv.
  - destruct updated.
    + destruct (PrepData i (snd_ c)) as [[keys tosend] any'] eqn:Hp. injection Hstep as <-. by eapply gather_prep_inv.
    + injection Hstep as <-. by apply gather_all_inv.
  - destruct x as [x|].
    + destruct (keys !! x) eqn:Hx; [|done]. injection Hstep as <-. by apply send_one_inv.
    + case_decide as He; [|done]. injection Hstep as <-. subst keys. by eapply next_type_inv.
  - case_decide; injection Hstep as <-; [by apply take_inv|by eapply round_end_inv].
Qed.
Lemma exec_inv e c c' : net_inv c → exec e c = Some c' → net_inv c'.
Proof.
  intros Hinv He. destruct e as [i obj modRev|x modRev|f| |j| |x|]; simpl in He.
  - injection He as <-. by apply update_inv.
  - injection He as <-. by apply cache_delete_inv.
  - injection He as <-. apply connect_inv, (ni_sender c Hinv).
  - injection He as <-. by apply trigger_inv.
  - destruct (pending (snd_ c) !! j) as [[x modRev]|] eqn:Hj; [|done]. injection He as <-. by apply callback_inv.
  - destruct (waking (snd_ c)) as [|w]; [done|]. injection He as <-. by apply wakeup_inv.
  - by eapply send_step_inv.
  - destruct (stream c) as [|n rest] eqn:Hst; [done|]. injection He as <-. by apply recv_inv.
Qed.

(** *** Measure *)

Definition place_ok (c : conn) : Prop :=
  match at_ (snd_ c) with Sending ii (Some _) _ => (ii < ntypes)%nat | _ => True end.
Lemma exec_place e c c' : place_ok c → exec e c = Some c' → place_ok c'.
Proof.
  intros Hp He. unfold place_ok in *. destruct e as [i obj modRev|x modRev|f| |j| |x|]; simpl in He; try by injection He as <-.
  - injection He as <-. simpl. unfold triggerSendAllEnd. by destruct (manualSendAllEnd _).
  - destruct (pending (snd_ c) !! j) as [[x modRev]|]; [|done]. injection He as <-. simpl. unfold Update. by destruct (isRemoteWanted _).
  - destruct (waking (snd_ c)); [done|]. by injection He as <-.
  - unfold send_step in He. destruct (at_ (snd_ c)) as [|[|i] updated sae any|ii [keys|] sae] eqn:Hpl.
    + destruct (signal (snd_ c)); [|done]. by injection He as <-.
    + injection He as <-. simpl. by destruct (_ && _).
    + destruct updated; [|by injection He as <-]. destruct (PrepData i (snd_ c)) as [[??]?]. by injection He as <-.
    + destruct x as [x|]; [|case_decide; [by injection He as <-|done]]. destruct (keys !! x); [|done]. by injection He as <-.
    + by case_decide; injection He as <-.
  - destruct (stream c); [done|]. by injection He as <-.
Qed.
Definition round_cost : nat := 4 * ntypes + 6.
Definition cost (pl : place) : nat :=
  match pl with
  | Waiting => 0
  | Gather todo updated _ _ => 2 * ntypes + 4 + 2 * todo + (if updated then 0 else 1)
  | Sending ii None _ => 2 * (ntypes - ii) + 3
  | Sending ii (Some keys) _ => 2 * (ntypes - ii) + 2 + 2 * size keys
  end.
Definition updates (s : sender) : nat :=
  if sendAll s then
    match at_ s with Waiting => ntypes | Gather todo updated _ _ => todo - (if updated then 1 else 0) | Sending _ _ _ => 0 end
  else 0.
Definition work (c : conn) : nat :=
  let s := snd_ c in
  length (stream c) + (round_cost + 4) * length (pending s) + (round_cost + 1) * waking s +
  (if signal s then round_cost else 0) + 2 * size (Keys s) + 2 * size (keysToSend s) + cost (at_ s) +
  updates s * (2 * size (objs s)).

Lemma update_all_size i s : (size (UpdateAll i s) <= size (objs s) + size (Keys s))%nat.
Proof.
  unfold UpdateAll. destruct (isRemoteWanted i); [|lia]. etransitivity; [apply union_size|]. rewrite map_size_fmap.
  pose proof (map_subseteq_size _ _ (map_filter_subseteq (λ kv : name * (O * Z), kv.1.1 = i) (objs s))). lia.
Qed.
Lemma prep_size i s keys tosend any :
  PrepData i s = (keys, tosend, any) → (size keys + size tosend <= size (Keys s) + size (keysToSend s))%nat.
Proof.
  unfold PrepData. case_decide; intros [= <- <- <-]; [lia|]. pose proof (split_size i (Keys s)).
  pose proof (union_size (of_type i (Keys s)) (other_types i (keysToSend s))). pose proof (split_size i (keysToSend s)). lia.
Qed.
Lemma send_step_work x c c' : place_ok c → send_step x c = Some c' → (work c' < work c)%nat.
Proof.
  intros Hp Hstep. unfold send_step in Hstep. unfold place_ok in Hp.
  destruct (at_ (snd_ c)) as [|[|i] updated sae any|ii [keys|] sae] eqn:Hpl.
  - destruct (signal (snd_ c)) eqn:Hs; [|done]. injection Hstep as <-. unfold work, updates. simpl. rewrite Hpl, Hs. simpl.
    unfold round_cost. destruct (sendAll (snd_ c)); rewrite ?Nat.sub_0_r; lia.
  - injection Hstep as <-. unfold work, updates. simpl. rewrite Hpl. destruct (sendAll (snd_ c)), any, sae, updated; simpl; lia.
  - destruct updated.
    + destruct (PrepData i (snd_ c)) as [[keys tosend] any'] eqn:Hprep. injection Hstep as <-. apply prep_size in Hprep.
      unfold work, updates. simpl. rewrite Hpl. simpl. rewrite Nat.sub_0_r. destruct (sendAll (snd_ c)); rewrite ?Nat.sub_0_r; lia.
    + injection Hstep as <-. unfold work, updates. simpl. rewrite Hpl. simpl. pose proof (update_all_size i (snd_ c)).
      destruct (sendAll (snd_ c)); rewrite ?Nat.sub_0_r; lia.
  - destruct x as [x|].
    + destruct (keys !! x) as [ctx|] eqn:Hx; [|done]. injection Hstep as <-. unfold work, updates. simpl. rewrite Hpl. simpl.
      rewrite length_app. simpl. rewrite map_size_delete_Some by done.
      assert (size keys ≠ 0)%nat by (apply map_size_non_empty_iff; intros ->; by apply lookup_empty_Some in Hx).
      destruct (sendAll (snd_ c)); lia.
    + case_decide; [|done]. injection Hstep as <-. unfold work, updates. simpl. rewrite Hpl. simpl. destruct (sendAll (snd_ c)); lia.
  - case_decide; injection Hstep as <-; unfold work, updates; simpl; rewrite Hpl; simpl.
    + pose proof (split_size ii (keysToSend (snd_ c))). destruct (sendAll (snd_ c)); lia.
    + rewrite length_app. destruct sae, (sendAll (snd_ c)); simpl; lia.
Qed.
Lemma own_step_work c c' : place_ok c → own_step c c' → (work c' < work c)%nat.
Proof.
  intros Hp (e & Hint & He). destruct e as [| | | |j| |x|]; try done; simpl in He.
  - destruct (pending (snd_ c) !! j) as [[x modRev]|] eqn:Hj; [|done]. injection He as <-.
    assert (length (pending (snd_ c)) = S (length (delete j (pending (snd_ c))))) as Hlen.
    { by rewrite (Permutation_length (delete_Permutation _ _ _ Hj)). }
    unfold work, Update, updates. destruct (isRemoteWanted x.1); simpl; rewrite Hlen; [|lia].
    assert (size (<[x:=mkSendContext modRev false]> (Keys (snd_ c))) <= S (size (Keys (snd_ c))))%nat.
    { rewrite map_size_insert. destruct (Keys (snd_ c) !! x); simpl; lia. }
    lia.
  - destruct (waking (snd_ c)) as [|w] eqn:Hw; [done|]. injection He as <-. unfold work, updates. simpl. rewrite Hw.
    destruct (signal (snd_ c)); lia.
  - by eapply send_step_work.
  - destruct (stream c) as [|n rest] eqn:Hst; [done|]. injection He as <-. unfold work. simpl. rewrite Hst. simpl. lia.
Qed.
Lemma own_steps_end c : place_ok c → sn own_step c.
Proof.
  remember (work c) as n eqn:Hn. revert c Hn. induction (lt_wf n) as [n _ IH]. intros c -> Hp. constructor. intros c' Hstep.
  pose proof (own_step_work c c' Hp Hstep) as Hw. destruct Hstep as (e & _ & He). eapply IH; [exact Hw|done|by eapply exec_place].
Qed.

(** *** At rest *)

Lemma at_rest c :
  nf own_step c →
  pending (snd_ c) = [] ∧ waking (snd_ c) = 0%nat ∧ stream c = [] ∧ at_ (snd_ c) = Waiting ∧ signal (snd_ c) = false.
Proof.
  intros Hnf. assert (∀ e, internal e = true → exec e c = None) as Hno.
  { intros e Hi. destruct (exec e c) as [c'|] eqn:He; [|done]. destruct Hnf. exists c', e. done. }
  split; [|split; [|split]].
  - destruct (pending (snd_ c)) as [|[x r] l] eqn:Hp; [done|]. specialize (Hno (ECallback 0) eq_refl). simpl in Hno. by rewrite Hp in Hno.
  - destruct (waking (snd_ c)) eqn:Hw; [done|]. specialize (Hno EWakeup eq_refl). simpl in Hno. by rewrite Hw in Hno.
  - destruct (stream c) eqn:Hst; [done|]. specialize (Hno ERecv eq_refl). simpl in Hno. by rewrite Hst in Hno.
  - pose proof (λ x, Hno (ESend x) eq_refl) as Hs. simpl in Hs. unfold send_step in Hs.
    destruct (at_ (snd_ c)) as [|[|i] updated sae any|ii [keys|] sae].
    + specialize (Hs None). by destruct (signal (snd_ c)).
    + by specialize (Hs None).
    + specialize (Hs None). destruct updated; [|done]. by destruct (PrepData i (snd_ c)) as [[??]?].
    + destruct (map_choose_or_empty keys) as [(x & ctx & Hx)|He].
      * specialize (Hs (Some x)). simpl in Hs. by rewrite Hx in Hs.
      * specialize (Hs None). by rewrite decide_True in Hs.
    + specialize (Hs None). by case_decide.
Qed.
Lemma rest_nf c :
  pending (snd_ c) = [] → waking (snd_ c) = 0%nat → stream c = [] → at_ (snd_ c) = Waiting → signal (snd_ c) = false →
  nf own_step c.
Proof.
  intros Hp Hw Hst Hpl Hs (c' & e & Hi & He). destruct e as [| | | |j| |x|]; try done; simpl in He.
  - by rewrite Hp in He.
  - by rewrite Hw in He.
  - unfold send_step in He. by rewrite Hpl, Hs in He.
  - by rewrite Hst in He.
Qed.
Lemma own_step_keeps c c' :
  own_step c c' → objs (snd_ c') = objs (snd_ c) ∧ manualSendAllEnd (snd_ c') = manualSendAllEnd (snd_ c).
Proof.
  intros (e & Hint & He). destruct e as [| | | |j| |x|]; try done; simpl in He.
  - destruct (pending (snd_ c) !! j) as [[x modRev]|]; [|done]. injection He as <-. simpl. unfold Update. by destruct (isRemoteWanted _).
  - destruct (waking (snd_ c)); [done|]. by injection He as <-.
  - unfold send_step in He. destruct (at_ (snd_ c)) as [|[|i] updated sae any|ii [keys|] sae].
    + destruct (signal (snd_ c)); [|done]. by injection He as <-.
    + by injection He as <-.
    + destruct updated; [|by injection He as <-]. destruct (PrepData i (snd_ c)) as [[??]?]. by injection He as <-.
    + destruct x as [x|]; [|case_decide; [by injection He as <-|done]]. destruct (keys !! x); [|done]. by injection He as <-.
    + by case_decide; injection He as <-.
  - destruct (stream c); [done|]. by injection He as <-.
Qed.
Lemma own_steps_keep c c' :
  rtc own_step c c' → net_inv c → net_inv c' ∧ objs (snd_ c') = objs (snd_ c) ∧
  manualSendAllEnd (snd_ c') = manualSendAllEnd (snd_ c).
Proof.
  induction 1 as [c|c1 c2 c3 Hstep _ IH]; intros Hinv; [done|]. destruct (own_step_keeps c1 c2 Hstep) as [Ho Hm].
  destruct Hstep as (e & _ & He). destruct (IH (exec_inv e c1 c2 Hinv He)) as (? & -> & ->). done.
Qed.
Lemma run_inv m r f c :
  (∀ y v, m !! y = Some v → GetKeyVal v.1 = y.2) → rtc net_step (start m r f) c → net_inv c ∧ place_ok c.
Proof.
  intros Hm Hrun. assert (net_inv (start m r f) ∧ place_ok (start m r f)) as Hs by (split; [by apply connect_inv|done]).
  induction Hrun as [c|c1 c2 c3 (e & He) _ IH]; [done|]. apply IH. destruct Hs. split; [by eapply exec_inv|by eapply exec_place].
Qed.
(** A key that is not dirty, and of which no notice is under way. *)
Lemma mirrored c x :
  net_inv c → isRemoteWanted x.1 = true → ¬ dirty (snd_ c) x → last_for x (stream c) = None → recvAll (rcv c) = false →
  robjs (rcv c) !! x = objs (snd_ c) !! x.
Proof.
  intros [Hs Hc Hr Hal Hm] Hw Hd Hl Hra. destruct (Hc x Hw) as [?|Hcl]; [done|]. unfold clean in Hcl.
  specialize (Hal (or_intror Hra)). assert (sendAllKeys (rcv c) = None) as Hk.
  { destruct (sendAllKeys (rcv c)); [|done]. rewrite (proj2 Hr) in Hra by eauto. done. }
  destruct (objs (snd_ c) !! x) as [v|].
  - destruct Hcl as [[? _]|[?|(_ & ? & _)]]; [congruence|congruence|done].
  - destruct Hcl as [?|[_ [?|(l & ? & _)]]]; [congruence|done|congruence].
Qed.

(** C15: once all objects have been sent, whatever is going on: if no change of an
    object is waiting to be sent, and no notice of it is under way, the client has
    the object as the server has it. *)
Theorem notify_mirrors (m r : caches) (filterCloudletKeys : bool) (c : conn) (x : name)
    (Hkeys : ∀ y v, m !! y = Some v → GetKeyVal v.1 = y.2) (Hrun : rtc net_step (start m r filterCloudletKeys) c)
    (Hwanted : isRemoteWanted x.1 = true) (Hend : recvAll (rcv c) = false)
    (Hidle : x ∉ (pending (snd_ c)).*1 ∧ Keys (snd_ c) !! x = None ∧ keysToSend (snd_ c) !! x = None ∧
             keys_of (at_ (snd_ c)) !! x = None ∧ last_for x (stream c) = None) :
  robjs (rcv c) !! x = objs (snd_ c) !! x.
Proof.
  destruct Hidle as (Hp & Hk & Ht & Hof & Hl). destruct (run_inv m r filterCloudletKeys c Hkeys Hrun) as [Hinv _].
  apply mirrored; [done|done| |done|done]. intros [?|[[? ?]|[[? ?]|[? ?]]]]; congruence.
Qed.
(** C5: when the changes stop, the callbacks, the sending and the receiving
    goroutine come to rest in whatever order they run, after any number of
    connections, and then the client's caches are the server's: no change is lost,
    and nothing stays that the server does not have. *)
Theorem notify_settles (m r : caches) (filterCloudletKeys : bool) (c : conn)
    (Hkeys : ∀ y v, m !! y = Some v → GetKeyVal v.1 = y.2) (Hrun : rtc net_step (start m r filterCloudletKeys) c)
    (Hnot_withheld : manualSendAllEnd (snd_ c) = false) :
  sn own_step c ∧
  ∀ c', rtc own_step c c' → nf own_step c' →
    objs (snd_ c') = objs (snd_ c) ∧
    ∀ x, isRemoteWanted x.1 = true → robjs (rcv c') !! x = objs (snd_ c) !! x.
Proof.
  destruct (run_inv m r filterCloudletKeys c Hkeys Hrun) as [Hinv Hplace]. split; [by apply own_steps_end|].
  intros c' Hown Hnf. destruct (own_steps_keep c c' Hown Hinv) as (Hinv' & Ho & Hm). split; [done|]. intros x Hw. rewrite <-Ho.
  destruct (at_rest c' Hnf) as (Hp & Hwk & Hst & Hpl & Hsig). destruct (ni_sender c' Hinv') as [_ _ Hs Ht He Ha].
  assert (∀ y, Keys (snd_ c') !! y = None) as HK.
  { intros y. destruct Hs as [?|[?|Hs]]; [congruence|lia|]. rewrite Hpl in Hs. simpl in Hs.
    destruct (Keys (snd_ c') !! y) eqn:Hy; [|done]. by destruct (Hs y ltac:(by eexists)). }
  apply mirrored; [done|done| |by rewrite Hst|].
  - intros [Hy|[[? Hy]|[Hy|Hy]]].
    + rewrite Hp in Hy. by apply elem_of_nil in Hy.
    + congruence.
    + apply Ht in Hy. by rewrite Hpl in Hy.
    + rewrite Hpl in Hy. simpl in Hy. destruct Hy as [? Hy]. by apply lookup_empty_Some in Hy.
  - destruct (ni_manual c' Hinv') as [?|[Hx|[Hx|?]]]; [congruence| | |done].
    + apply He in Hx. rewrite Hpl in Hx. simpl in Hx. destruct Hx; congruence.
    + rewrite Hst in Hx. by apply elem_of_nil in Hx.
Qed.
End Runs.
End Notify.

(** ** Concrete runs *)

Module NotifyWitness.
(** Two types: 0 for flavors, and 1 for apps, which name a flavor. *)
Record obj := mkObj { o_key : string; o_flavor : string }.
#[export] Instance obj_codec : ObjCodec string obj := {|
  json_decode _ := None; GetKeyVal := o_key; GetKeyString := id; KeyStringParse := id;
  KeyStringParse_GetKeyString _ := eq_refl |}.
Definition wanted (i : nat) : bool := bool_decide (i < 2)%nat.
Lemma wanted_ok i : wanted i = true → (i < 2)%nat.
Proof. apply bool_decide_eq_true. Qed.
Notation world := (conn (K := string) (O := obj)).
Notation node := (gmap (nat * string) (obj * Z)).
Definition do (e : event) (c : option world) : option world := c ≫= exec 2 wanted e.
Definition run (es : list event) (c : world) : option world := fold_left (λ c e, do e c) es (Some c).
Lemma run_steps es c c' : run es c = Some c' → rtc (net_step 2 wanted) c c'.
Proof.
  unfold run. revert c. induction es as [|e es IH]; intros c Hr; simpl in Hr; [injection Hr as ->; apply rtc_refl|].
  destruct (exec 2 wanted e c) as [c1|] eqn:He.
  - eapply rtc_l; [exists e; exact He|by apply IH].
  - exfalso. clear -Hr. induction es; [done|by apply IHes].
Qed.
Lemma run_own es c c' : forallb internal es = true → run es c = Some c' → rtc (own_step 2 wanted) c c'.
Proof.
  unfold run. revert c. induction es as [|e es IH]; intros c Hi Hr; simpl in Hr; [injection Hr as ->; apply rtc_refl|].
  simpl in Hi. apply andb_prop in Hi as [He Hes]. destruct (exec 2 wanted e c) as [c1|] eqn:Hex.
  - eapply rtc_l; [exists e; by split|by apply IH].
  - exfalso. clear -Hr. induction es; [done|by apply IHes].
Qed.

Definition flavor (k : string) : (nat * string) * (obj * Z) := ((0%nat, k), (mkObj k "", 1)).
Definition app (k f : string) : (nat * string) * (obj * Z) := ((1%nat, k), (mkObj k f, 1)).
Definition server : node := list_to_map [flavor "small"; app "game" "small"].
(** A client that has an app from before, which is gone. *)
Definition client : node := list_to_map [app "old" "small"; app "game" "tiny"].
Definition gather : list (event (K := string) (O := obj)) := replicate 6 (ESend None).
Definition c0 : world := start server client false.
(** All is sent; then the app is deleted. *)
Definition sent_all : list event :=
  gather ++ [ESend None; ESend (Some (0%nat, "small")); ESend None; ESend None; ESend (Some (1%nat, "game"));
             ESend None; ESend None; ERecv; ERecv; ERecv].
Definition state_after (es : list event) (c : world) : world := default c (run es c).
Definition c1 : world := state_after sent_all c0.
Definition c2 : world := state_after [EDelete (1%nat, "game") 2] c1.
Definition settle : list (event (K := string) (O := obj)) :=
  [ECallback 0; EWakeup] ++ gather ++ [ESend None; ESend None; ESend None; ESend (Some (1%nat, "game"));
   ESend None; ESend None; ERecv].
Definition c3 : world := state_after settle c2.
Lemma server_keys y v : server !! y = Some v → GetKeyVal (K := string) v.1 = y.2.
Proof.
  intros Hy. apply elem_of_list_to_map_2 in Hy. apply elem_of_cons in Hy as [[= -> ->]|Hy]; [done|].
  by apply list_elem_of_singleton in Hy as [= -> ->].
Qed.
Lemma notify_mirrors_witness :
  robjs (rcv c1) !! (1%nat, "game") = Some (mkObj "game" "small", 1) ∧ robjs (rcv c1) !! (1%nat, "old") = None ∧
  robjs (rcv c1) !! (1%nat, "game") = objs (snd_ c1) !! (1%nat, "game").
Proof.
  split; [vm_compute; reflexivity|]. split; [vm_compute; reflexivity|].
  refine (notify_mirrors 2 wanted wanted_ok server client false c1 (1%nat, "game") server_keys _ _ _ _).
  - apply (run_steps sent_all). vm_compute. reflexivity.
  - reflexivity.
  - vm_compute. reflexivity.
  - (split; [|vm_compute; repeat split]). vm_compute. apply not_elem_of_nil.
Defined.
Lemma at_rest_c3 : nf (own_step 2 wanted) c3.
Proof. apply rest_nf; vm_compute; reflexivity. Qed.
Lemma notify_settles_witness :
  sn (own_step 2 wanted) c2 ∧
  objs (snd_ c3) = objs (snd_ c2) ∧ ∀ x, wanted x.1 = true → robjs (rcv c3) !! x = objs (snd_ c2) !! x.
Proof.
  destruct (notify_settles 2 wanted wanted_ok server client false c2 server_keys) as [Hsn Hend].
  - apply (run_steps (sent_all ++ [EDelete (1%nat, "game") 2])). vm_compute. reflexivity.
  - vm_compute. reflexivity.
  - split; [exact Hsn|]. apply Hend; [|apply at_rest_c3].
    apply (run_own settle); [reflexivity|]. vm_compute. reflexivity.
Defined.
Example deleted_on_the_client : robjs (rcv c3) = list_to_map [flavor "small"].
Proof. vm_compute. reflexivity. Qed.

(** The object is read when it is sent, not when its key is gathered: an app that
    comes to use a new flavor in between is sent before the flavor. *)
Definition overtaken : list event :=
  [EUpdate 1 (mkObj "game" "small") 2; ECallback 0; EWakeup] ++ gather ++
  [EUpdate 0 (mkObj "big" "") 3; ECallback 0; EUpdate 1 (mkObj "game" "big") 4;
   ESend None; ESend None; ESend None; ESend (Some (1%nat, "game")); ERecv].
Definition c4 : world := state_after overtaken c1.
Example app_before_its_flavor :
  robjs (rcv c4) !! (1%nat, "game") = Some (mkObj "game" "big", 4) ∧ robjs (rcv c4) !! (0%nat, "big") = None ∧
  objs (snd_ c4) !! (0%nat, "big") = Some (mkObj "big" "", 3).
Proof. vm_compute. repeat split. Qed.
(** Deletions are sent in the order of the types as well: of an app and then its
    flavor, deleted in this order, the flavor goes first. *)
Definition deletions : list event :=
  [EDelete (1%nat, "game") 2; ECallback 0; EDelete (0%nat, "small") 3; ECallback 0; EWakeup] ++ gather ++
  [ESend None; ESend (Some (0%nat, "small")); ERecv].
Definition c5 : world := state_after deletions c1.
Example flavor_deleted_first :
  robjs (rcv c5) !! (1%nat, "game") = Some (mkObj "game" "small", 1) ∧ robjs (rcv c5) !! (0%nat, "small") = None.
Proof. vm_compute. repeat split. Qed.
(** The server replies with the higher of the two versions. *)
Example highest_version : server_version 2 = 2 ∧ NotifyVersion = 1 ∧ client_version 2 (server_version 2) = 2.
Proof. repeat split. Qed.
End NotifyWitness.
