(* ===== verification/Stm.v ===== *)
(** * API handlers over the store (the bodies given to ApplySTMWait)

    A body is a program over the reads and writes of typed objects ([stm]); its
    meaning on a snapshot is [stm_pure], and [to_txn] is the transaction that
    the store runs ([KVStore]).  [commit_refines] shows that a committed body is
    one atomic step.  A handler ([hprog]) is a sequence of bodies and of looks at
    the caches; [sys_step] interleaves handlers.  A look at the caches sees some
    state of the store between the handler's own last commit, which
    ApplySTMWait waits for, and now.  The last section is the protocol by which
    an object that others refer to is deleted: it is marked with
    [DeletePrepare], the caches are searched for references, and it is deleted
    or the mark is undone. *)

From S2P Require Export Prelude GoStd KVStore SyncData.
Import Objstore.
#[local] Open Scope nat_scope.

(** ** Bodies *)

Inductive stm (A : Type) :=
| SRet (a : A)
| SErr (e : error)
| SGet (key : string) (k : string → stm A)
| SPut (key v : string) (m : stm A)
| SDel (key : string) (m : stm A).
Arguments SRet {A}. Arguments SErr {A}. Arguments SGet {A}. Arguments SPut {A}. Arguments SDel {A}.

#[global] Instance stm_ret : MRet stm := λ A a, SRet a.
#[global] Instance stm_bind : MBind stm := λ A B f, fix bind m :=
  match m with
  | SRet a => f a
  | SErr e => SErr e
  | SGet key k => SGet key (λ v, bind (k v))
  | SPut key v m => SPut key v (bind m)
  | SDel key m => SDel key (bind m)
  end.
(** [if err := r; err != nil { return err }]. *)
Definition stm_check (err : option error) : stm () :=
  match err with None => SRet () | Some e => SErr e end.
Definition stm_lift {A} (r : result A) : stm A :=
  match r with Ok a => SRet a | Err e => SErr e end.

(** The transaction of a body; the store does not see the value that the body
    leaves in the handler's variables, only its error. *)
Fixpoint to_txn {A} (m : stm A) : txn :=
  match m with
  | SRet _ => TRet None
  | SErr e => TRet (Some e)
  | SGet key k => TGet key (λ v, to_txn (k v))
  | SPut key v m => TPut key v (to_txn m)
  | SDel key m => TDel key (to_txn m)
  end.

(** *** Snapshots *)

(** What the store has, or what a transaction writes: the empty string for
    what is not there or is deleted. *)
Abbreviation snapshot := (gmap string string).
Definition get (f : snapshot) (key : string) : string := default "" (f !! key).
Definition content (e : InMemoryStore) : snapshot := val <$> default ∅ (db e).
(** The snapshot after the writes [w]. *)
Definition after (w f : snapshot) : snapshot := w ∪ f.

Fixpoint stm_pure {A} (f w : snapshot) (m : stm A) : result A * snapshot :=
  match m with
  | SRet a => (Ok a, w)
  | SErr e => (Err e, w)
  | SGet key k => stm_pure f w (k (get (after w f) key))
  | SPut key v m => stm_pure f (<[key := v]> w) m
  | SDel key m => stm_pure f (<[key := ""]> w) m
  end.

(** The body on its own: the snapshot after it, unless it fails. *)
Definition run_body {A} (m : stm A) (f : snapshot) : result A * snapshot :=
  let '(r, w) := stm_pure f ∅ m in
  match r with Ok _ => (r, after w f) | Err _ => (r, f) end.

(** A body that returns whatever its reads give, having written [w]. *)
Inductive may_return {A} : stm A → snapshot → snapshot → result A → Prop :=
| mr_ret a w : may_return (SRet a) w w (Ok a)
| mr_err e w : may_return (SErr e) w w (Err e)
| mr_get key k v w w' r : may_return (k v) w w' r → may_return (SGet key k) w w' r
| mr_put key v m w w' r : may_return m (<[key := v]> w) w' r → may_return (SPut key v m) w w' r
| mr_del key m w w' r : may_return m (<[key := ""]> w) w' r → may_return (SDel key m) w w' r.

Lemma get_content e key : get (content e) key = view e key.
Proof.
  unfold get, content, view, db_lookup. destruct (db e) as [m|]; simpl; [|done].
  rewrite lookup_fmap. by destruct (m !! key).
Qed.
Lemma get_after w f key : get (after w f) key = default (get f key) (w !! key).
Proof.
  unfold get, after. destruct (w !! key) as [v|] eqn:Hk.
  - by rewrite (lookup_union_Some_l _ _ _ _ Hk).
  - by rewrite lookup_union_r.
Qed.
Lemma after_empty f : after ∅ f = f.
Proof. apply (left_id_L ∅ (∪)). Qed.

Definition err_of {A} (r : result A) : option error :=
  match r with Ok _ => None | Err e => Some e end.
Lemma pure_to_txn {A} (m : stm A) f g w :
  (∀ k, g k = get f k) →
  txn_pure g w (to_txn m) = (err_of (stm_pure f w m).1, (stm_pure f w m).2).
Proof.
  intros Hg. revert w. induction m as [a|e|key k IH|key v m IH|key m IH]; intros w; simpl; try done.
  rewrite Hg, <- get_after. apply IH.
Qed.
Lemma stm_pure_bind {A B} (m : stm A) (k : A → stm B) f w :
  stm_pure f w (m ≫= k) =
  match stm_pure f w m with (Ok a, w') => stm_pure f w' (k a) | (Err e, w') => (Err e, w') end.
Proof. revert w. induction m as [| |key kk IH|key v m IH|key m IH]; intros w; simpl; auto. Qed.
Lemma run_body_ok {A} (m : stm A) f a f' :
  run_body m f = (Ok a, f') → ∃ w, stm_pure f ∅ m = (Ok a, w) ∧ f' = after w f.
Proof.
  unfold run_body. destruct (stm_pure f ∅ m) as [[a'|] w]; intros [= <- <-]. by exists w.
Qed.
Lemma after_after w1 w2 f : after w2 (after w1 f) = after (w2 ∪ w1) f.
Proof. apply (assoc_L (∪)). Qed.
Lemma pure_may_return {A} (m : stm A) f w : may_return m w (stm_pure f w m).2 (stm_pure f w m).1.
Proof.
  revert w. induction m as [| |key kk IH|key v m IH|key m IH]; intros w; simpl.
  - apply mr_ret.
  - apply mr_err.
  - eapply mr_get, IH.
  - apply mr_put, IH.
  - apply mr_del, IH.
Qed.

Lemma may_return_inv {A} (m : stm A) w w' r :
  may_return m w w' r →
  match m with
  | SRet a => w' = w ∧ r = Ok a
  | SErr e => w' = w ∧ r = Err e
  | SGet key k => ∃ v, may_return (k v) w w' r
  | SPut key v m' => may_return m' (<[key := v]> w) w' r
  | SDel key m' => may_return m' (<[key := ""]> w) w' r
  end.
Proof. destruct 1; eauto. Qed.

Section Refines.
Context {GR : GoRange}.

Lemma run_may_return {A} (m : stm A) e d e' d' err :
  txn_run e d (to_txn m) e' d' err →
  ∃ r, err = err_of r ∧ may_return m (wset d) (wset d') r.
Proof.
  intros Hrun. remember (to_txn m) as t eqn:Ht. revert m Ht.
  induction Hrun as [e d err|e e1 d t e' d' err Henv _ IH|e e1 d key k e' d' err Henv _ IH
    |e d key v t e' d' err _ IH|e d key t e' d' err _ IH]; intros m Ht.
  - destruct m as [a|er| | |]; simpl in Ht; simplify_eq.
    + exists (Ok a). split; [done|apply mr_ret].
    + exists (Err er). split; [done|apply mr_err].
  - by apply IH.
  - destruct m as [| |key' k'| |]; simpl in Ht; simplify_eq.
    destruct (IH _ eq_refl) as (r & -> & Hr). exists r. split; [done|].
    assert (wset (stm_Get e e1 d key').2 = wset d) as Hw
      by (unfold stm_Get; by repeat case_match).
    rewrite Hw in Hr. by eapply mr_get.
  - destruct m as [| | |key' v' m'|]; simpl in Ht; simplify_eq.
    destruct (IH m' eq_refl) as (r & -> & Hr). exists r. split; [done|]. by apply mr_put.
  - destruct m as [| | | |key' m']; simpl in Ht; simplify_eq.
    destruct (IH m' eq_refl) as (r & -> & Hr). exists r. split; [done|]. by apply mr_del.
Qed.

(** A handler body that commits is one atomic step of the store at the moment of
    its commit, whatever other threads did while it ran: when it has writes they
    are those of the body on the content of the store then, where the body has a
    value, and the store has exactly these writes on top of that content; when
    it has none the store is as it was. *)
Theorem commit_refines {A} (m : stm A) e e1 d e2 rev :
  store_inv e →
  txn_run e stm_reset (to_txn m) e1 d None → commit e1 d = Some (e2, Ok rev) →
  (∃ a, may_return m ∅ (wset d) (Ok a)) ∧
  if decide (wset d = ∅) then ∀ k, get (content e2) k = get (content e1) k
  else ∃ a, stm_pure (content e1) ∅ m = (Ok a, wset d) ∧
       ∀ k, get (content e2) k = get (after (wset d) (content e1)) k.
Proof.
  intros He Hrun Hc. split.
  { apply run_may_return in Hrun as (r & Hr & Hm). destruct r as [a|]; [|done]. by exists a. }
  case_decide as Hw.
  - intros k. rewrite !get_content. unfold commit in Hc. rewrite decide_True in Hc by done.
    by simplify_eq.
  - pose proof (committed_is_pure e (to_txn m) e1 d e2 rev None He Hrun Hc Hw) as Hpure.
    rewrite (pure_to_txn m (content e1)) in Hpure by (intros k; by rewrite get_content).
    destruct (stm_pure (content e1) ∅ m) as [[a|] w]; simpl in Hpure; simplify_eq.
    exists a. split; [done|]. intros k.
    by rewrite get_content, (committed_writes e1 d e2 rev k Hc Hw), get_after, get_content.
Qed.
End Refines.

(** ** Typed objects *)

(** What the generated code has for a type of objects besides its codec: its
    name in keys, and the encoding. *)
Class Stored (K O : Type) `{!ObjCodec K O} := {
  obj_type : string;
  json_encode : O → string;
  obj_type_plain : str_avoids "/" obj_type;
  json_decode_encode o : json_decode (json_encode o) = Some o;
  json_encode_ne o : json_encode o ≠ "";
}.

Section Objects.
Context (region : Z) {K O : Type} `{EqDecision K, !ObjCodec K O, !Stored K O}.

Definition obj_key (k : K) : string := DbKeyString region obj_type (GetKeyString k).

(** [STMGet] with a buffer, and without one ([STMHas] is the same). *)
Definition parseGetData (v : string) : option O := if decide (v = "") then None else json_decode v.
Definition STMGet (k : K) : stm (option O) := SGet (obj_key k) (λ v, SRet (parseGetData v)).
Definition STMHas (k : K) : stm bool := SGet (obj_key k) (λ v, SRet (bool_decide (v ≠ ""))).
Definition STMPut (o : O) : stm () := SPut (obj_key (GetKeyVal o)) (json_encode o) (SRet ()).
Definition STMDel (k : K) : stm () := SDel (obj_key k) (SRet ()).

(** The objects of the type in a snapshot. *)
Definition obj_at (f : snapshot) (k : K) : option O := parseGetData (get f (obj_key k)).
Definition has_obj (f : snapshot) (k : K) : Prop := get f (obj_key k) ≠ "".
#[global] Instance has_obj_dec f k : Decision (has_obj f k).
Proof. unfold has_obj. apply _. Defined.
(** Every value of the type is an object stored under its own key. *)
Definition well_stored (f : snapshot) : Prop :=
  ∀ k, has_obj f k → ∃ o, obj_at f k = Some o ∧ GetKeyVal o = k.

(** A cache: the objects of the type that the store has. *)
Definition cached (f : snapshot) : list O :=
  omap (λ kv, o ← parseGetData kv.2;
              if decide (kv.1 = obj_key (GetKeyVal o)) then Some o else None) (map_to_list f).

Lemma GetKeyString_inj k k' : GetKeyString k = GetKeyString k' → k = k'.
Proof.
  intros Hk. rewrite <- (KeyStringParse_GetKeyString (O := O) k), Hk.
  apply KeyStringParse_GetKeyString.
Qed.
Lemma str_app_inj_r (s1 s2 s3 : string) : s1 +:+ s2 = s1 +:+ s3 → s2 = s3.
Proof. induction s1 as [|c s1 IH]; [done|]. intros [= Hs]. by apply IH. Qed.
Lemma obj_key_inj k k' : obj_key k = obj_key k' → k = k'.
Proof.
  unfold obj_key, DbKeyString. intros Hk. apply str_app_inj_r, str_app_inj_r in Hk.
  by apply GetKeyString_inj.
Qed.
Lemma parse_encode o : parseGetData (json_encode o) = Some o.
Proof.
  unfold parseGetData. rewrite decide_False by apply json_encode_ne. apply json_decode_encode.
Qed.
Lemma obj_at_has f k o : obj_at f k = Some o → has_obj f k.
Proof. unfold obj_at, parseGetData, has_obj. by case_decide. Qed.

Lemma elem_of_cached f o : o ∈ cached f ↔ obj_at f (GetKeyVal o) = Some o.
Proof.
  unfold cached, obj_at. rewrite list_elem_of_omap. split.
  - intros ([key v] & Hin & Ho). apply elem_of_map_to_list in Hin. cbn [fst snd] in Ho.
    apply bind_Some in Ho as (o' & Hv & Ho). case_decide as Hk; [|done]. injection Ho as ->.
    subst key. unfold get. by rewrite Hin.
  - intros Ho. destruct (f !! obj_key (GetKeyVal o)) as [v|] eqn:Hv; [|by unfold get in Ho; rewrite Hv in Ho].
    exists (obj_key (GetKeyVal o), v). split; [by apply elem_of_map_to_list|]. cbn [fst snd].
    unfold get in Ho. rewrite Hv in Ho. cbn in Ho. rewrite Ho. cbn. by rewrite decide_True.
Qed.

(** Running the accesses of a body that has not written yet. *)
Lemma pure_STMGet {B} f k (g : option O → stm B) :
  stm_pure f ∅ (STMGet k ≫= g) = stm_pure f ∅ (g (obj_at f k)).
Proof. cbn. by rewrite after_empty. Qed.
Lemma pure_STMHas {B} f k (g : bool → stm B) :
  stm_pure f ∅ (STMHas k ≫= g) = stm_pure f ∅ (g (bool_decide (has_obj f k))).
Proof. cbn. by rewrite after_empty. Qed.
Lemma pure_STMPut f o :
  stm_pure f ∅ (STMPut o) = (Ok (), {[obj_key (GetKeyVal o) := json_encode o]}).
Proof. cbn. by rewrite insert_empty. Qed.
Lemma pure_STMDel f k : stm_pure f ∅ (STMDel k) = (Ok (), {[obj_key k := ""]}).
Proof. cbn. by rewrite insert_empty. Qed.

(** The same for a body that has written [w]. *)
Lemma pure_STMGet_after {B} f w k (g : option O → stm B) :
  stm_pure f w (STMGet k ≫= g) = stm_pure f w (g (obj_at (after w f) k)).
Proof. done. Qed.
Lemma pure_STMPut_after {B} f w o (g : () → stm B) :
  stm_pure f w (STMPut o ≫= g) = stm_pure f (<[obj_key (GetKeyVal o) := json_encode o]> w) (g ()).
Proof. done. Qed.
Lemma after_insert f w key v : after (<[key := v]> w) f = after {[key := v]} (after w f).
Proof. by rewrite after_after, <- insert_union_singleton_l. Qed.

(** What a put and a delete of an object of the type do. *)
Lemma obj_at_put f o k :
  obj_at (after {[obj_key (GetKeyVal o) := json_encode o]} f) k =
  if decide (k = GetKeyVal o) then Some o else obj_at f k.
Proof.
  unfold obj_at. rewrite get_after. case_decide as Hk.
  - subst. rewrite lookup_singleton_eq. apply parse_encode.
  - rewrite lookup_singleton_ne; [done|]. intros He. by apply Hk, eq_sym, obj_key_inj.
Qed.
Lemma obj_at_del f k k' :
  obj_at (after {[obj_key k' := ""]} f) k = if decide (k = k') then None else obj_at f k.
Proof.
  unfold obj_at. rewrite get_after. case_decide as Hk.
  - subst. by rewrite lookup_singleton_eq.
  - rewrite lookup_singleton_ne; [done|]. intros He. by apply Hk, eq_sym, obj_key_inj.
Qed.
Lemma has_obj_put f o k :
  has_obj (after {[obj_key (GetKeyVal o) := json_encode o]} f) k ↔ k = GetKeyVal o ∨ has_obj f k.
Proof.
  unfold has_obj. rewrite get_after. destruct (decide (k = GetKeyVal o)) as [->|Hk].
  - rewrite lookup_singleton_eq. simpl. pose proof (json_encode_ne o). tauto.
  - rewrite lookup_singleton_ne; [tauto|]. intros He. by apply Hk, eq_sym, obj_key_inj.
Qed.
Lemma has_obj_del f k k' : has_obj (after {[obj_key k' := ""]} f) k ↔ k ≠ k' ∧ has_obj f k.
Proof.
  unfold has_obj. rewrite get_after. destruct (decide (k = k')) as [->|Hk].
  - rewrite lookup_singleton_eq. simpl. tauto.
  - rewrite lookup_singleton_ne; [tauto|]. intros He. by apply Hk, eq_sym, obj_key_inj.
Qed.
Lemma well_stored_put f o :
  well_stored f → well_stored (after {[obj_key (GetKeyVal o) := json_encode o]} f).
Proof.
  intros Hf k Hk. rewrite obj_at_put. case_decide as He; [by exists o|].
  apply has_obj_put in Hk as [?|Hk]; [done|]. by apply Hf.
Qed.
Lemma well_stored_del f k : well_stored f → well_stored (after {[obj_key k := ""]} f).
Proof.
  intros Hf k' [Hk Hh]%has_obj_del. rewrite obj_at_del, decide_False by done. by apply Hf.
Qed.
End Objects.

(** Writes to one type leave the others alone. *)
Section OtherType.
Context (region : Z) {K O K' O' : Type}.
Context `{HC : !ObjCodec K O, HS : !Stored K O, HC' : !ObjCodec K' O', HS' : !Stored K' O'}.
Hypothesis types_differ : obj_type (K := K) (O := O) ≠ obj_type (K := K') (O := O').

Lemma obj_key_ne (k : K) (k' : K') : obj_key region (O := O) k ≠ obj_key region (O := O') k'.
Proof.
  unfold obj_key, DbKeyString, DbKeyPrefixString. rewrite !str_app_assoc.
  intros Hk%str_app_inj_r%str_app_inj_r.
  set (t := obj_type (K := K) (O := O)) in *. set (t' := obj_type (K := K') (O := O')) in *.
  assert (t +:+ String "/" (GetKeyString (O := O) k) = t' +:+ String "/" (GetKeyString (O := O') k'))
    as Hs by exact Hk.
  pose proof (f_equal (index_byte "/") Hs) as Hi.
  rewrite !index_byte_app in Hi by apply obj_type_plain. injection Hi as Hi.
  pose proof (f_equal (str_take (String.length t)) Hs) as Ht.
  rewrite str_take_app, Hi, str_take_app in Ht. by apply types_differ.
Qed.
Lemma get_other f (k : K) (k' : K') v :
  get (after {[obj_key region (O := O') k' := v]} f) (obj_key region (O := O) k)
  = get f (obj_key region (O := O) k).
Proof. by rewrite get_after, lookup_singleton_ne by apply not_eq_sym, obj_key_ne. Qed.
Lemma obj_at_other f (k : K) (k' : K') v :
  obj_at region (after {[obj_key region (O := O') k' := v]} f) k = obj_at region (O := O) f k.
Proof. unfold obj_at. by rewrite get_other. Qed.
Lemma has_obj_other f (k : K) (k' : K') v :
  has_obj region (O := O) (after {[obj_key region (O := O') k' := v]} f) k ↔ has_obj region (O := O) f k.
Proof. unfold has_obj. by rewrite get_other. Qed.
Lemma well_stored_other f (k' : K') v :
  well_stored region (O := O) f → well_stored region (K := K) (O := O) (after {[obj_key region (O := O') k' := v]} f).
Proof. intros Hf k Hk%has_obj_other. rewrite obj_at_other. by apply Hf. Qed.
End OtherType.

(** ** Handlers *)

Inductive hprog :=
| HDone (err : option error)
| HTxn {A : Type} (m : stm A) (k : result A → hprog)   (* ApplySTMWait *)
| HCache (k : snapshot → hprog).                        (* looks at the caches *)

(** The handler with nothing else running. *)
Fixpoint run_alone (h : hprog) (f : snapshot) : option error * snapshot :=
  match h with
  | HDone err => (err, f)
  | HTxn m k => let '(r, f') := run_body m f in run_alone (k r) f'
  | HCache k => run_alone (k f) f
  end.

(** The states the store went through, numbered, and the handlers with the
    number of the state after their last commit. *)
Record sys := mkSys { now : nat; past : nat → snapshot; threads : list (nat * hprog) }.
Definition current (σ : sys) : snapshot := past σ (now σ).
Definition commit_at (σ : sys) (f : snapshot) (i : nat) (h : hprog) : sys :=
  mkSys (S (now σ)) (λ n, if decide (n = S (now σ)) then f else past σ n)
    (<[i := (S (now σ), h)]> (threads σ)).
Definition goes_on (σ : sys) (i since : nat) (h : hprog) : sys :=
  mkSys (now σ) (past σ) (<[i := (since, h)]> (threads σ)).

(** A body commits its writes, or commits without any, or fails: then what its
    reads gave does not matter.  "too many iterations" is one of the errors. *)
Inductive sys_step (api : hprog → Prop) (σ : sys) : sys → Prop :=
| sys_new h : api h → sys_step api σ (mkSys (now σ) (past σ) (threads σ ++ [(now σ, h)]))
| sys_commit {A} i since (m : stm A) k a w :
    threads σ !! i = Some (since, HTxn m k) →
    stm_pure (current σ) ∅ m = (Ok a, w) → w ≠ ∅ →
    sys_step api σ (commit_at σ (after w (current σ)) i (k (Ok a)))
| sys_readonly {A} i since (m : stm A) k a :
    threads σ !! i = Some (since, HTxn m k) →
    may_return m ∅ ∅ (Ok a) → sys_step api σ (goes_on σ i since (k (Ok a)))
| sys_fails {A} i since (m : stm A) k e :
    threads σ !! i = Some (since, HTxn m k) → sys_step api σ (goes_on σ i since (k (Err e)))
| sys_cache i since k n :
    threads σ !! i = Some (since, HCache k) → since ≤ n ≤ now σ →
    sys_step api σ (goes_on σ i since (k (past σ n))).
Definition sys_start (f : snapshot) : sys := mkSys 0 (λ _, f) [].
Definition sys_reachable (api : hprog → Prop) (f : snapshot) (σ : sys) : Prop :=
  rtc (sys_step api) (sys_start f) σ.

(** A schedule, executed: a commit is that of the body on the current state. *)
Inductive choice := New (h : hprog) | Commit (i : nat) | GiveUp (i : nat) | Look (i n : nat).
Definition exec_step (c : choice) (σ : sys) : option sys :=
  match c with
  | New h => Some (mkSys (now σ) (past σ) (threads σ ++ [(now σ, h)]))
  | Commit i =>
      match threads σ !! i with
      | Some (since, HTxn m k) =>
          match stm_pure (current σ) ∅ m with
          | (Ok a, w) =>
              if decide (w = ∅) then Some (goes_on σ i since (k (Ok a)))
              else Some (commit_at σ (after w (current σ)) i (k (Ok a)))
          | (Err e, _) => Some (goes_on σ i since (k (Err e)))
          end
      | _ => None
      end
  | GiveUp i =>
      match threads σ !! i with
      | Some (since, HTxn m k) => Some (goes_on σ i since (k (Err "too many iterations")))
      | _ => None
      end
  | Look i n =>
      match threads σ !! i with
      | Some (since, HCache k) =>
          if decide (since ≤ n ≤ now σ) then Some (goes_on σ i since (k (past σ n))) else None
      | _ => None
      end
  end.
Fixpoint exec (cs : list choice) (σ : sys) : option sys :=
  match cs with [] => Some σ | c :: cs' => exec_step c σ ≫= exec cs' end.
Definition choice_ok (api : hprog → Prop) (c : choice) : Prop :=
  match c with New h => api h | _ => True end.

Lemma exec_step_sound (api : hprog → Prop) c σ σ' :
  choice_ok api c → exec_step c σ = Some σ' → sys_step api σ σ'.
Proof.
  destruct c as [h|i|i|i n]; simpl; intros Hok Hs.
  - injection Hs as <-. by apply sys_new.
  - destruct (threads σ !! i) as [[since [|A m k|]]|] eqn:Hi; try done.
    pose proof (pure_may_return m (current σ) ∅) as Hret.
    destruct (stm_pure (current σ) ∅ m) as [[a|e] w] eqn:Hp.
    + case_decide as Hw; injection Hs as <-.
      * subst w. by eapply sys_readonly.
      * by eapply sys_commit.
    + injection Hs as <-. by eapply sys_fails.
  - destruct (threads σ !! i) as [[since [|A m k|]]|] eqn:Hi; try done. injection Hs as <-.
    by eapply sys_fails.
  - destruct (threads σ !! i) as [[since [| |k]]|] eqn:Hi; try done. case_decide; [|done].
    injection Hs as <-. by eapply sys_cache.
Qed.
Lemma exec_reachable (api : hprog → Prop) cs f σ :
  Forall (choice_ok api) cs → exec cs (sys_start f) = Some σ → sys_reachable api f σ.
Proof.
  unfold sys_reachable. generalize (sys_start f). induction cs as [|c cs IH]; simpl; intros σ0 Hok Hs.
  - injection Hs as <-. apply rtc_refl.
  - apply bind_Some in Hs as (σ1 & Hs & Hr). inversion_clear Hok.
    eapply rtc_l; [by eapply exec_step_sound|by apply IH].
Qed.

(** ** Deletion of objects that others refer to *)

Section DeletePrepare.
(** Targets, references to them, and what a snapshot says of them: whether the
    target exists, whether it is marked for deletion, whether the reference is
    there; [wf] is what else the handlers keep. *)
Context {T U : Type}.
Context (exists_ prepared : T → snapshot → Prop) (uses : U → T → snapshot → Prop).
Context (wf : snapshot → Prop).

(** No reference dangles. *)
Definition refs_ok (f : snapshot) : Prop := ∀ u t, uses u t f → exists_ t f.

(** What a handler that is deleting a target knows: that it put the mark, and
    which of the references it has found absent since. *)
Abbreviation deleting := (option (T * (U → Prop))).
Definition knows (own : deleting) (f : snapshot) : Prop :=
  match own with
  | Some (t, free) => prepared t f ∧ ∀ u, free u → ¬ uses u t f
  | None => True
  end.

(** A commit of a body: references are only added to targets that exist and
    are not marked; only the owner of the mark removes it, and only when it
    found none of the references the target. *)
Record commit_ok (own : deleting) (f f' : snapshot) (own' : deleting) : Prop := {
  co_wf : wf f';
  co_uses u t : uses u t f' → uses u t f ∨ (exists_ t f ∧ ¬ prepared t f);
  co_exists t : exists_ t f → exists_ t f' ∨ ∃ b, own = Some (t, b) ∧ ∀ u, b u;
  co_prepared t : prepared t f → prepared t f' ∨ ∃ b, own = Some (t, b);
  co_own t b : own' = Some (t, b) → prepared t f' ∧ (own = Some (t, b) ∨ ((∀ u, ¬ b u) ∧ ¬ prepared t f));
}.
Fixpoint protocol (own : deleting) (h : hprog) : Prop :=
  match h with
  | HDone _ => True
  | HCache k => ∀ c, wf c →
      protocol own (k c) ∨
      match own with
      | Some (t, b) => ∃ b' : U → Prop, (∀ u, b' u → ¬ uses u t c) ∧
                         protocol (Some (t, λ u, b u ∨ b' u)) (k c)
      | None => False
      end
  | @HTxn A m k => ∃ own' : A → deleting,
      (∀ f a w, wf f → refs_ok f → knows own f → stm_pure f ∅ m = (Ok a, w) → w ≠ ∅ →
         commit_ok own f (after w f) (own' a) ∧ protocol (own' a) (k (Ok a))) ∧
      (∀ a, may_return m ∅ ∅ (Ok a) → protocol own (k (Ok a))) ∧
      (∀ e, protocol own (k (Err e)))
  end.

(** What holds of a handler in progress that owns the mark of a target: the
    target was marked, and got no references, since the handler's commit. *)
Definition thread_ok (σ : sys) (own : deleting) (th : nat * hprog) : Prop :=
  th.1 ≤ now σ ∧ protocol own th.2 ∧
  match own with
  | Some (t, free) =>
      (∀ n, th.1 ≤ n ≤ now σ → prepared t (past σ n) ∧
         ∀ u, uses u t (current σ) → uses u t (past σ n)) ∧
      (∀ u, free u → ¬ uses u t (current σ))
  | None => True
  end.
Definition owners_differ (owns : list deleting) : Prop :=
  ∀ i j t b b', owns !! i = Some (Some (t, b)) → owns !! j = Some (Some (t, b')) → i = j.
Record protocol_inv (σ : sys) : Prop := {
  pi_wf n : n ≤ now σ → wf (past σ n);
  pi_refs : refs_ok (current σ);
  pi_threads : ∃ owns, Forall2 (thread_ok σ) owns (threads σ) ∧ owners_differ owns;
}.

Lemma current_commit σ f i h : current (commit_at σ f i h) = f.
Proof. unfold current, commit_at. simpl. by rewrite decide_True. Qed.
Lemma past_commit σ f i h n : n ≤ now σ → past (commit_at σ f i h) n = past σ n.
Proof. intros Hn. simpl. rewrite decide_False; [done|lia]. Qed.

(** A thread that goes on without a commit. *)
Lemma protocol_goes_on σ i since h own own' owns :
  protocol_inv σ → Forall2 (thread_ok σ) owns (threads σ) → owners_differ owns →
  owns !! i = Some own → fst <$> own' = fst <$> own →
  thread_ok σ own' (since, h) → protocol_inv (goes_on σ i since h).
Proof.
  intros [Hwf Hrefs _] Hth Hdiff Hi Hsame Hok. split; [done|done|].
  exists (<[i := own']> owns). split.
  - by apply Forall2_insert.
  - intros j j' t b b' Hj Hj'.
    assert (∀ j b, <[i := own']> owns !! j = Some (Some (t, b)) →
      ∃ b', owns !! j = Some (Some (t, b'))) as Hold.
    { intros x c Hx. apply list_lookup_insert_Some in Hx as [(<- & -> & _)|[_ Hx]]; [|eauto].
      destruct own as [[t' b0]|]; simpl in Hsame; simplify_eq. eauto. }
    apply Hold in Hj as [? Hj], Hj' as [? Hj']. eauto.
Qed.

(** The other threads keep what they know over a commit. *)
Lemma thread_ok_commit σ f' i h own own' own_j th :
  commit_ok own (current σ) f' own' → wf (current σ) → refs_ok (current σ) →
  (∀ t b b', own = Some (t, b) → own_j ≠ Some (t, b')) →
  thread_ok σ own_j th → thread_ok (commit_at σ f' i h) own_j th.
Proof.
  intros [_ Huses _ Hprep _] Hwf Hrefs Hne (Hs & Hp & Hk). split; [simpl; lia|]. split; [done|].
  destruct own_j as [[t free]|]; [|done]. destruct Hk as [Hn Hfree].
  assert (prepared t (current σ)) as Hcur by (apply (Hn (now σ)); lia).
  assert (∀ u, uses u t f' → uses u t (current σ)) as Hu.
  { intros u Hu. destruct (Huses u t Hu) as [?|[_ ?]]; done. }
  rewrite current_commit. split.
  - intros n Hnn. destruct (decide (n = S (now σ))) as [->|Hne'].
    + simpl. rewrite decide_True by done. split; [|done].
      destruct (Hprep t Hcur) as [?|[b Hb]]; [done|]. by destruct (Hne t b free Hb).
    + rewrite past_commit by (simpl in Hnn; lia). destruct (Hn n) as [? Hun]; [simpl in Hnn; lia|].
      split; [done|]. intros u Hu'. by apply Hun, Hu.
  - intros u Hf Hu'. by apply (Hfree u Hf), Hu.
Qed.

Lemma refs_commit own f f' own' :
  commit_ok own f f' own' → refs_ok f → knows own f → refs_ok f'.
Proof.
  intros [_ Huses Hex _ _] Hrefs Hknows u t Hu.
  assert (exists_ t f) as Ht by (destruct (Huses u t Hu) as [?|[? _]]; [by eapply Hrefs|done]).
  destruct (Hex t Ht) as [?|(b & -> & Hall)]; [done|]. destruct Hknows as [Hp Hfree].
  destruct (Huses u t Hu) as [Hu'|[_ Hn]]; [by destruct (Hfree u (Hall u))|done].
Qed.

Lemma knows_thread σ own th : thread_ok σ own th → knows own (current σ).
Proof.
  intros (Hs & _ & Hk). destruct own as [[t b]|]; [|done]. destruct Hk as [Hn Hf].
  split; [apply (Hn (now σ)); lia|done].
Qed.

Lemma protocol_commit σ {A} i since (m : stm A) k a w :
  protocol_inv σ → threads σ !! i = Some (since, HTxn m k) →
  stm_pure (current σ) ∅ m = (Ok a, w) → w ≠ ∅ →
  protocol_inv (commit_at σ (after w (current σ)) i (k (Ok a))).
Proof.
  intros Hinv Hi Hpure Hw. pose proof Hinv as [Hwf Hrefs (owns & Hth & Hdiff)].
  destruct (Forall2_lookup_r _ _ _ _ _ Hth Hi) as (own & Hown & Hok).
  pose proof (knows_thread σ own _ Hok) as Hknows.
  pose proof (proj1 (proj2 Hok)) as (own' & Hc & _ & _).
  destruct (Hc _ a w (Hwf (now σ) ltac:(lia)) Hrefs Hknows Hpure Hw) as [Hco Hp].
  split.
  - intros n Hn. destruct (decide (n = S (now σ))) as [->|Hne].
    + simpl. rewrite decide_True by done. by eapply co_wf.
    + rewrite past_commit by (simpl in Hn; lia). apply Hwf. simpl in Hn. lia.
  - rewrite current_commit. by eapply refs_commit.
  - assert (∀ j own_j, j ≠ i → owns !! j = Some own_j →
      ∀ t b b', own' a = Some (t, b) → own_j ≠ Some (t, b')) as Hnew.
    { intros j own_j Hji Hj t b b' Ho ->.
      destruct (co_own _ _ _ _ Hco t b Ho) as [_ [->|[_ Hn]]].
      - by apply Hji, (Hdiff j i t b' b).
      - apply Hn. apply Forall2_lookup_l with (i := j) (x := Some (t, b')) in Hth as (y & _ & Hy); [|done].
        destruct Hy as (Hy & _ & Hall & _). apply (Hall (now σ)). lia. }
    exists (<[i := own' a]> owns). split.
    + apply Forall2_lookup. intros j. simpl.
      destruct (decide (j = i)) as [->|Hji].
      * rewrite !list_lookup_insert_eq by (by eapply lookup_lt_Some). constructor.
        split; [simpl; lia|]. split; [exact Hp|]. destruct (own' a) as [[t b]|] eqn:Ho; [|exact I].
        destruct (co_own _ _ _ _ Hco t b eq_refl) as [Hp' Hfrom]. rewrite current_commit. split.
        -- intros n Hn. simpl in Hn. replace n with (S (now σ)) by lia. simpl.
           by rewrite decide_True.
        -- intros u Hb Hu. destruct Hfrom as [->|[Hnb _]]; [|by destruct (Hnb u)].
           destruct Hknows as [Hpt Hfree]. destruct (co_uses _ _ _ _ Hco u t Hu) as [Hu'|[_ ?]]; [|done].
           by apply (Hfree u Hb).
      * rewrite !list_lookup_insert_ne by done.
        destruct (owns !! j) as [own_j|] eqn:Hj.
        -- destruct (Forall2_lookup_l _ _ _ _ _ Hth Hj) as (y & -> & Hy). constructor.
           eapply (thread_ok_commit σ _ i); [exact Hco|apply (Hwf (now σ)); lia|done| |done].
           intros t b b' -> ->. by apply Hji, (Hdiff j i t b' b).
        -- destruct (threads σ !! j) eqn:Htj; [|constructor].
           by destruct (Forall2_lookup_r _ _ _ _ _ Hth Htj) as (? & ? & _); simplify_eq.
    + intros j j' t b b' Hj Hj'.
      apply list_lookup_insert_Some in Hj as [(<- & Hj & _)|[Hji Hj]],
        Hj' as [(<- & Hj' & _)|[Hji' Hj']]; try done.
      * exfalso. by eapply (Hnew j' _ ltac:(done) Hj' t b b').
      * exfalso. by eapply (Hnew j _ ltac:(done) Hj t b' b).
      * by eapply Hdiff.
Qed.

Lemma protocol_step (api : hprog → Prop) σ σ' :
  (∀ h, api h → protocol None h) → protocol_inv σ → sys_step api σ σ' → protocol_inv σ'.
Proof.
  intros Hapi Hinv Hstep. pose proof Hinv as [Hwf Hrefs (owns & Hth & Hdiff)].
  destruct Hstep as [h Hh|A i since m k a w Hi Hpure Hw|A i since m k a Hi Hret|A i since m k e Hi
    |i since k n Hi Hn].
  - split; [done|done|]. exists (owns ++ [None]). split.
    + apply Forall2_app; [done|]. repeat constructor. by apply Hapi.
    + assert (∀ j t b, (owns ++ [None]) !! j = Some (Some (t, b)) → owns !! j = Some (Some (t, b)))
        as Hold.
      { intros j t b [Hj|[_ Hj]]%lookup_app_Some; [done|].
        by apply list_lookup_singleton_Some in Hj as [_ ?]. }
      intros j j' t b b' Hj%Hold Hj'%Hold. by eapply Hdiff.
  - by eapply protocol_commit.
  - destruct (Forall2_lookup_r _ _ _ _ _ Hth Hi) as (own & Hown & Hs & (own' & _ & Hr & _) & Hk).
    eapply protocol_goes_on; [done..|]. split; [done|]. split; [by apply Hr|done].
  - destruct (Forall2_lookup_r _ _ _ _ _ Hth Hi) as (own & Hown & Hs & (own' & _ & _ & He) & Hk).
    eapply protocol_goes_on; [done..|]. split; [done|]. split; [by apply He|done].
  - destruct (Forall2_lookup_r _ _ _ _ _ Hth Hi) as (own & Hown & Hs & Hp & Hk).
    destruct (Hp (past σ n)) as [Hg|Hg]; [apply Hwf; lia| |].
    + eapply protocol_goes_on; [done..|]. split; [done|]. split; [exact Hg|done].
    + destruct own as [[t b]|]; [|done]. destruct Hg as (b' & Hun & Hg).
      eapply (protocol_goes_on σ i since (k (past σ n)) _ (Some (t, λ u, b u ∨ b' u))); [done..|].
      split; [done|]. split; [exact Hg|]. destruct Hk as [Hall Hfree]. split; [exact Hall|].
      intros u [Hb|Hb] Hu; [by apply (Hfree u Hb)|].
      apply (Hun u Hb). apply (Hall n); [simpl; lia|done].
Qed.

Lemma protocol_refs (api : hprog → Prop) f σ :
  (∀ h, api h → protocol None h) → wf f → refs_ok f → sys_reachable api f σ →
  refs_ok (current σ) ∧ wf (current σ).
Proof.
  intros Hapi Hwf Hrefs Hreach.
  assert (protocol_inv σ) as [Hw Hr _]; [|split; [done|apply Hw; lia]].
  assert (protocol_inv (sys_start f)) as H0.
  { split; [by intros|done|]. exists []. split; [constructor|]. by intros i j t b b' Hi. }
  revert H0. induction Hreach as [|x y z Hxy _ IH]; [done|]. intros Hx.
  by apply IH, (protocol_step api x).
Qed.
End DeletePrepare.

Module StmWitness.
#[local] Existing Instance canonical_range.

Definition e0 : InMemoryStore := (Put Start "1/App/a" "x").1.
Definition e1 : InMemoryStore := (Put e0 "1/App/b" "y").1.
(** Appends [b] to [a]; another thread writes [b] before it is read. *)
Definition body : stm nat :=
  SGet "1/App/b" (λ b, SGet "1/App/a" (λ a, SPut "1/App/a" (a +:+ b) (SRet 7))).
Definition d1 : inMemorySTM := (txn_exec e1 stm_reset (to_txn body)).1.
Lemma inv_e0 : store_inv e0.
Proof. apply (env_steps Start e0 store_inv_Start). eapply rtc_once. by exists (OPut "1/App/a" "x"). Qed.
Lemma run_body_e0 : txn_run e0 stm_reset (to_txn body) e1 d1 None.
Proof.
  eapply run_env; [by exists (OPut "1/App/b" "y")|]. eapply (txn_exec_run e1 stm_reset (to_txn body)).
Qed.

Lemma commit_refines_witness :
  ∃ e2, commit e1 d1 = Some (e2, Ok 4%Z) ∧ stm_pure (content e1) ∅ body = (Ok 7, wset d1) ∧
    get (content e2) "1/App/a" = "xy".
Proof.
  destruct (commit e1 d1) as [[e2 [r|]]|] eqn:Hc; [|by vm_compute in Hc..].
  assert (r = 4%Z) as -> by (vm_compute in Hc; congruence).
  exists e2. split; [reflexivity|].
  destruct (commit_refines body e0 e1 d1 e2 4 inv_e0 run_body_e0 Hc) as [_ Hw].
  rewrite decide_False in Hw by (vm_compute; discriminate).
  destruct Hw as (a & Ha & Hget).
  assert (a = 7) as -> by (apply (f_equal fst) in Ha; vm_compute in Ha; congruence).
  split; [exact Ha|]. rewrite Hget. vm_compute. reflexivity.
Defined.
End StmWitness.
