(* ===== verification/Fields.v ===== *)
(** * Field masks, JSON, and copying fields

    - The field masks of update requests (api/edgeproto/alert.pb.go): fields are
      dotted paths of numbers, and a field stands for what is below it.
    - What the models take from [encoding/json]: a value that is encoded and
      decoded is the value ([Json]).
    - The step of the generated CopyInFields functions: a field is taken over
      when the mask has it and it differs, and the changes are counted. *)

From S2P Require Export Prelude GoStd Stm.
From stdpp Require Import countable.
#[local] Open Scope nat_scope.

(** ** Field masks *)

Abbreviation FieldMap := (gset string).
Definition MakeFieldMap (fields : list string) : FieldMap := list_to_set fields.

(** The field or a parent of it; every turn shortens the key. *)
Fixpoint Has_loop (fuel : nat) (s : FieldMap) (key : string) : bool :=
  match fuel with
  | 0 => false
  | S fuel =>
      if decide (key ∈ s) then true
      else match last_index "." key with
           | None => false
           | Some idx => Has_loop fuel s (str_take idx key)
           end
  end.
Definition Has (s : FieldMap) (key : string) : bool := Has_loop (S (String.length key)) s key.
Definition HasOrHasChild (s : FieldMap) (key : string) : bool :=
  Has s key ||
  bool_decide (Exists (λ k, has_prefix k (key +:+ ".") = true) (elements s)).
Definition Fields (s : FieldMap) : list string := sort_strings (elements s).

(** [parent p key]: [key] is [p] or below it. *)
Definition below (p key : string) : Prop := key = p ∨ ∃ rest, key = p +:+ "." +:+ rest.

Lemma last_index_spec c s n :
  last_index c s = Some n → ∃ rest, s = str_take n s +:+ String c rest ∧ n < String.length s.
Proof.
  revert n. induction s as [|a s IH]; [done|]. intros n. simpl.
  destruct (last_index c s) as [m|]; simpl.
  - intros [= <-]. destruct (IH m eq_refl) as (rest & Hs & Hm). exists rest. split; [|lia].
    simpl. by rewrite Hs at 1.
  - case_decide; [|done]. intros [= <-]. subst a. exists s. split; [done|lia].
Qed.
Lemma last_index_ge c p rest :
  ∃ n rest', last_index c (p +:+ String c rest) = Some n ∧ str_take n (p +:+ String c rest) = p +:+ rest'
    ∧ (rest' = "" ∨ ∃ r, rest' = String c r).
Proof.
  induction p as [|a p (n & rest' & Hn & Ht & Hr)].
  - simpl. destruct (last_index c rest) as [m|].
    + exists (S m), (String c (str_take m rest)). split; [done|]. split; [done|]. right. by eexists.
    + exists 0, "". rewrite decide_True by done. split_and!; [done|done|by left].
  - exists (S n), rest'. cbn -[String.append]. simpl. rewrite Hn. simpl. rewrite Ht. done.
Qed.
Lemma str_app_nil (s : string) : s +:+ "" = s.
Proof. induction s as [|c s IH]; [done|]. exact (f_equal (String c) IH). Qed.
Lemma length_str_take_lt n s : n < String.length s → String.length (str_take n s) = n.
Proof. revert s. induction n as [|n IH]; intros [|c s]; simpl; try lia. intros ?. rewrite IH; lia. Qed.


Lemma below_trans p q r : below p q → below q r → below p r.
Proof.
  intros [->|[s1 ->]] [->|[s2 ->]]; [by left|right; by eexists|right; by eexists|right].
  exists (s1 +:+ "." +:+ s2). by rewrite !str_app_assoc.
Qed.

Lemma Has_loop_spec fuel s key :
  String.length key < fuel → (Has_loop fuel s key = true ↔ ∃ p, p ∈ s ∧ below p key).
Proof.
  revert key. induction fuel as [|fuel IH]; intros key Hf; [lia|]. simpl.
  case_decide as Hin; [split; [|done]; intros _; exists key; split; [done|by left]|].
  destruct (last_index "." key) as [n|] eqn:Hn.
  - destruct (last_index_spec _ _ _ Hn) as (rest & Hkey & Hlt).
    rewrite IH by (rewrite length_str_take_lt by done; lia). split.
    + intros (p & Hp & Hb). exists p. split; [done|]. eapply below_trans; [done|]. right.
      exists rest. exact Hkey.
    + intros (p & Hp & [->|[r Hr]]); [done|]. exists p. split; [done|]. subst key.
      destruct (last_index_ge "." p r) as (m & rest' & Hm & Ht & Hr').
      change (p +:+ "." +:+ r) with (p +:+ String "." r) in Hn |- *.
      rewrite Hn in Hm. injection Hm as <-. rewrite Ht.
      destruct Hr' as [->|[r' ->]]; [left|right; by exists r'].
      by rewrite str_app_nil.
  - split; [done|]. intros (p & Hp & [->|[r ->]]); [done|].
    destruct (last_index_ge "." p r) as (m & ? & Hm & _).
    change (p +:+ "." +:+ r) with (p +:+ String "." r) in Hn. congruence.
Qed.

(** A mask has a field when one of its fields is that field or a parent. *)
Lemma Has_spec s key : Has s key = true ↔ ∃ p, p ∈ s ∧ below p key.
Proof. apply Has_loop_spec. lia. Qed.

Lemma has_prefix_spec s pre : has_prefix s pre = true ↔ ∃ r, s = pre +:+ r.
Proof.
  unfold has_prefix. revert s. induction pre as [|c pre IH]; intros s.
  - destruct s; simpl; split; eauto.
  - destruct s as [|a s]; [split; [done|by intros [r [=]]]|].
    cbn [String.prefix]. destruct (Ascii.ascii_dec c a) as [->|Hne].
    + rewrite IH. split; intros [r Hr]; exists r; [by rewrite Hr|by injection Hr].
    + split; [done|]. intros [r Hr]. by injection Hr.
Qed.
(** The other way round as well: a field below it. *)
Lemma HasOrHasChild_spec s key :
  HasOrHasChild s key = true ↔ ∃ p, p ∈ s ∧ (below p key ∨ below key p).
Proof.
  unfold HasOrHasChild. rewrite orb_true_iff, Has_spec, bool_decide_eq_true, list.Exists_exists. split.
  - intros [(p & Hp & Hb)|(p & Hp & Hpre)]; [exists p; split; [done|by left]|].
    exists p. split; [by apply elem_of_elements|]. right.
    apply has_prefix_spec in Hpre as [r ->]. right. exists r. by rewrite str_app_assoc.
  - intros (p & Hp & [Hb|[->|[r ->]]]); [left; by exists p|left|right].
    + exists key. split; [done|by left].
    + exists (key +:+ "." +:+ r). split; [by apply elem_of_elements|].
      apply has_prefix_spec. exists r. by rewrite str_app_assoc.
Qed.
Lemma Has_HasOrHasChild s p key : below p key → Has s p = true → HasOrHasChild s key = true.
Proof.
  rewrite Has_spec, HasOrHasChild_spec. intros Hb (q & Hq & Hqp). exists q. split; [done|].
  left. by eapply below_trans.
Qed.

(** ** Copying fields *)

(** The field after the step, and 1 when it was changed. *)
Definition copy {A} `{EqDecision A} (has : bool) (m src : A) : A * nat :=
  if has then if decide (m ≠ src) then (src, 1) else (m, 0) else (m, 0).
(** A list: it is replaced when the request has one, and else emptied. *)
Definition copy_list {A} (has : bool) (m src : list A) : list A * nat :=
  if has then
    match src, m with
    | _ :: _, _ => (src, 1)
    | [], _ :: _ => ([], 1)
    | [], [] => (m, 0)
    end
  else (m, 0).

Lemma copy_same {A} `{EqDecision A} has (m : A) : copy has m m = (m, 0).
Proof. unfold copy. destruct has; [|done]. by rewrite decide_False by naive_solver. Qed.
Lemma copy_off {A} `{EqDecision A} (m src : A) : copy false m src = (m, 0).
Proof. done. Qed.
Lemma copy_unchanged {A} `{EqDecision A} has (m src : A) : (copy has m src).2 = 0 → (copy has m src).1 = m.
Proof. unfold copy. destruct has; [|done]. by case_decide. Qed.
Lemma copy_fst {A} `{EqDecision A} has (m src : A) : (copy has m src).1 = if has then src else m.
Proof.
  unfold copy. destruct has; [|done]. case_decide as Hd; [done|].
  apply dec_stable. naive_solver.
Qed.
Lemma copy_list_fst {A} has (m src : list A) : (copy_list has m src).1 = if has then src else m.
Proof. unfold copy_list. destruct has; [|done]. by destruct src, m. Qed.
Lemma copy_list_unchanged {A} has (m src : list A) :
  (copy_list has m src).2 = 0 → (copy_list has m src).1 = m.
Proof. unfold copy_list. destruct has; [|done]. by destruct src, m. Qed.

(** ** encoding/json *)

Class Json (A : Type) := {
  Marshal : A → string;
  Unmarshal : string → option A;
  Unmarshal_Marshal a : Unmarshal (Marshal a) = Some a;
  Marshal_ne a : Marshal a ≠ "";
}.

(** An encoding of any countable type, for runs. *)
Fixpoint bits (p : positive) : string :=
  match p with
  | xH => "1"
  | xO p => String "0" (bits p)
  | xI p => String "1" (bits p)
  end.
Fixpoint of_bits (s : string) : option positive :=
  match s with
  | EmptyString => None
  | String c EmptyString => Some xH
  | String c s' => (if decide (c = "0"%char) then xO else xI) <$> of_bits s'
  end.
Lemma bits_ne p : bits p ≠ "".
Proof. by destruct p. Qed.
Lemma of_bits_bits p : of_bits (bits p) = Some p.
Proof.
  induction p as [p IH|p IH|]; [..|done].
  all: pose proof (bits_ne p); simpl; destruct (bits p) eqn:Hb; [done|]; by rewrite IH.
Qed.
Program Definition countable_json {A} `{Countable A} : Json A :=
  {| Marshal a := bits (encode a); Unmarshal s := of_bits s ≫= decode |}.
Next Obligation. intros. simpl. rewrite of_bits_bits. apply decode_encode. Qed.
Next Obligation. intros. apply bits_ne. Qed.
