(* ===== verification/ZoneObjs.v ===== *)
(** * Zones, zone pools and what refers to them (api/edgeproto)

    The records of zone.pb.go, zonepool.pb.go, autoprovpolicy.pb.go and
    trustpolicyexception.pb.go, with their generated CopyInFields and their
    validation (objs.go); of apps and cloudlets only what the handlers of
    [ZoneApi], the checks of [ProvCheck] and [AutoProv] read.  A pointer is an [option]; a nil slice is the empty list: the
    protobuf and JSON decoders do not make empty slices.  A [float64] of a
    location is one that JSON has a number for and that it gives back: not NaN,
    not infinite and not the negative zero. *)

From S2P Require Export Prelude GoStd Enums SyncData Stm Fields NodeRes.
From S2P Require Import Names.
From stdpp Require Import countable.
From Stdlib Require Import SpecFloat.
#[local] Open Scope Z_scope.

(** ** Data *)

Record ZoneKey := mkZoneKey {
  zk_Organization : string; zk_Name : string; zk_FederatedOrganization : string }.
Record Timestamp := mkTimestamp { Seconds : Z; Nanos : Z }.
Definition json_float (x : float64) : bool :=
  valid_binary f64_prec f64_emax x &&
  match x with S754_zero s => negb s | S754_finite _ _ _ => true | _ => false end.
Definition coord : Type := {x : float64 | json_float x}.
Record Loc := mkLoc {
  Latitude : coord; Longitude : coord; HorizontalAccuracy : coord; VerticalAccuracy : coord;
  Altitude : coord; Course : coord; Speed : coord; loc_Timestamp : option Timestamp }.
Record Zone := mkZone {
  z_Fields : list string;
  z_Key : ZoneKey;
  z_Description : string;
  z_InfraFlavors : list FlavorInfo;
  z_Location : Loc;
  z_ObjId : string;
  z_DeletePrepare : bool;
  z_CreatedAt : Timestamp;
  z_UpdatedAt : Timestamp;
}.

Record ZonePoolKey := mkZonePoolKey { zpk_Organization : string; zpk_Name : string }.
Record ZonePool := mkZonePool {
  zp_Fields : list string;
  zp_Key : ZonePoolKey;
  zp_Zones : list ZoneKey;
  zp_CreatedAt : Timestamp;
  zp_UpdatedAt : Timestamp;
  zp_DeletePrepare : bool;
}.
Record ZonePoolMember := mkZonePoolMember { zpm_Key : ZonePoolKey; zpm_Zone : ZoneKey }.

Record PolicyKey := mkPolicyKey { pk_Organization : string; pk_Name : string }.
Record AutoProvPolicy := mkAutoProvPolicy {
  ap_Fields : list string;
  ap_Key : PolicyKey;
  DeployClientCount : Z;
  DeployIntervalCount : Z;
  ap_Zones : list ZoneKey;
  MinActiveInstances : Z;
  MaxInstances : Z;
  UndeployClientCount : Z;
  UndeployIntervalCount : Z;
  ap_DeletePrepare : bool;
}.
Record AutoProvPolicyZone := mkAutoProvPolicyZone { apz_Key : PolicyKey; apz_ZoneKey : ZoneKey }.

Record AppKey := mkAppKey { ak_Organization : string; ak_Name : string; ak_Version : string }.
Record App := mkApp {
  app_Key : AppKey;
  Trusted : bool;
  app_DeletePrepare : bool;
  AutoProvPolicies : list string;
  app_AutoProvPolicy : string;
  app_Deployment : string;
}.

Record TPEKey := mkTPEKey { tk_AppKey : AppKey; tk_ZonePoolKey : ZonePoolKey; tk_Name : string }.
Inductive TPEState := STATE_UNKNOWN | STATE_APPROVAL_REQUESTED | STATE_ACTIVE | STATE_REJECTED.
Record SecurityRule := mkSecurityRule {
  Protocol : string; PortRangeMin : Z; PortRangeMax : Z; RemoteCidr : string }.
Record TrustPolicyException := mkTPE {
  tpe_Fields : list string;
  tpe_Key : TPEKey;
  tpe_State : TPEState;
  OutboundSecurityRules : list SecurityRule;
}.

Record CloudletKey := mkCloudletKey {
  ck_Organization : string; ck_Name : string; ck_FederatedOrganization : string }.
Record Cloudlet := mkCloudlet {
  cl_Key : CloudletKey; cl_Zone : string; cl_MaintenanceState : MaintenanceState }.

(** *** Instances *)

#[global] Instance ZoneKey_eq_dec : EqDecision ZoneKey.
Proof. solve_decision. Defined.
#[global] Instance Timestamp_eq_dec : EqDecision Timestamp.
Proof. solve_decision. Defined.
#[global] Instance float64_eq_dec : EqDecision float64.
Proof. solve_decision. Defined.
#[global] Instance ZonePoolKey_eq_dec : EqDecision ZonePoolKey.
Proof. solve_decision. Defined.
#[global] Instance PolicyKey_eq_dec : EqDecision PolicyKey.
Proof. solve_decision. Defined.
#[global] Instance AppKey_eq_dec : EqDecision AppKey.
Proof. solve_decision. Defined.
#[global] Instance TPEKey_eq_dec : EqDecision TPEKey.
Proof. solve_decision. Defined.
#[global] Instance TPEState_eq_dec : EqDecision TPEState.
Proof. solve_decision. Defined.
#[global] Instance CloudletKey_eq_dec : EqDecision CloudletKey.
Proof. solve_decision. Defined.

#[global] Instance ZoneKey_countable : Countable ZoneKey.
Proof.
  refine (inj_countable' (λ k, (zk_Organization k, zk_Name k, zk_FederatedOrganization k))
    (λ '(o, n, f), mkZoneKey o n f) _). by intros [].
Defined.
#[global] Instance ZonePoolKey_countable : Countable ZonePoolKey.
Proof.
  refine (inj_countable' (λ k, (zpk_Organization k, zpk_Name k))
    (λ '(o, n), mkZonePoolKey o n) _). by intros [].
Defined.
#[global] Instance PolicyKey_countable : Countable PolicyKey.
Proof.
  refine (inj_countable' (λ k, (pk_Organization k, pk_Name k)) (λ '(o, n), mkPolicyKey o n) _).
  by intros [].
Defined.
#[global] Instance AppKey_countable : Countable AppKey.
Proof.
  refine (inj_countable' (λ k, (ak_Organization k, ak_Name k, ak_Version k))
    (λ '(o, n, v), mkAppKey o n v) _). by intros [].
Defined.
#[global] Instance TPEKey_countable : Countable TPEKey.
Proof.
  refine (inj_countable' (λ k, (tk_AppKey k, tk_ZonePoolKey k, tk_Name k))
    (λ '(a, p, n), mkTPEKey a p n) _). by intros [].
Defined.
#[global] Instance CloudletKey_countable : Countable CloudletKey.
Proof.
  refine (inj_countable' (λ k, (ck_Organization k, ck_Name k, ck_FederatedOrganization k))
    (λ '(o, n, f), mkCloudletKey o n f) _). by intros [].
Defined.

(** What the generated code has for each type. *)
Section Codecs.
Context `{!Json ZoneKey, !Json ZonePoolKey, !Json PolicyKey, !Json AppKey, !Json TPEKey,
  !Json CloudletKey, !Json Zone, !Json ZonePool, !Json AutoProvPolicy, !Json App,
  !Json TrustPolicyException, !Json Cloudlet}.

Definition codec {K O} `{!Json K, !Json O} (key : O → K) (zero : K) : ObjCodec K O.
Proof.
  refine {| json_decode := Unmarshal; GetKeyVal := key; GetKeyString := Marshal;
            KeyStringParse := λ s, default zero (Unmarshal s) |}.
  abstract (intros k; by rewrite Unmarshal_Marshal).
Defined.
#[global] Instance Zone_codec : ObjCodec ZoneKey Zone := codec z_Key (mkZoneKey "" "" "").
#[global] Instance ZonePool_codec : ObjCodec ZonePoolKey ZonePool := codec zp_Key (mkZonePoolKey "" "").
#[global] Instance AutoProvPolicy_codec : ObjCodec PolicyKey AutoProvPolicy :=
  codec ap_Key (mkPolicyKey "" "").
#[global] Instance App_codec : ObjCodec AppKey App := codec app_Key (mkAppKey "" "" "").
#[global] Instance TPE_codec : ObjCodec TPEKey TrustPolicyException :=
  codec tpe_Key (mkTPEKey (mkAppKey "" "" "") (mkZonePoolKey "" "") "").
#[global] Instance Cloudlet_codec : ObjCodec CloudletKey Cloudlet :=
  codec cl_Key (mkCloudletKey "" "" "").

Definition stored {K O} `{!Json K, !Json O} (key : O → K) (zero : K) (type : string)
    (Hplain : str_avoids "/" type) : @Stored K O (codec key zero) :=
  @Build_Stored K O (codec key zero) type Marshal Hplain Unmarshal_Marshal Marshal_ne.
#[global] Instance Zone_stored : Stored ZoneKey Zone := stored z_Key _ "Zone" eq_refl.
#[global] Instance ZonePool_stored : Stored ZonePoolKey ZonePool := stored zp_Key _ "ZonePool" eq_refl.
#[global] Instance AutoProvPolicy_stored : Stored PolicyKey AutoProvPolicy :=
  stored ap_Key _ "AutoProvPolicy" eq_refl.
#[global] Instance App_stored : Stored AppKey App := stored app_Key _ "App" eq_refl.
#[global] Instance TPE_stored : Stored TPEKey TrustPolicyException :=
  stored tpe_Key _ "TrustPolicyException" eq_refl.
#[global] Instance Cloudlet_stored : Stored CloudletKey Cloudlet := stored cl_Key _ "Cloudlet" eq_refl.
End Codecs.

(** ** Copying fields *)

(** The counter [changed] of the generated code: the sum of the steps. *)
Definition copy_Timestamp (fmap : FieldMap) (field : string) (m src : Timestamp) : Timestamp * nat :=
  let has := HasOrHasChild fmap field in
  let '(s, c1) := copy (has && Has fmap (field +:+ ".1")) (Seconds m) (Seconds src) in
  let '(n, c2) := copy (has && Has fmap (field +:+ ".2")) (Nanos m) (Nanos src) in
  (mkTimestamp s n, c1 + c2)%nat.
Definition copy_ZoneKey (fmap : FieldMap) (m src : ZoneKey) : ZoneKey * nat :=
  let has := HasOrHasChild fmap "2" in
  let '(o, c1) := copy (has && Has fmap "2.1") (zk_Organization m) (zk_Organization src) in
  let '(n, c2) := copy (has && Has fmap "2.2") (zk_Name m) (zk_Name src) in
  let '(f, c3) := copy (has && Has fmap "2.3") (zk_FederatedOrganization m)
                    (zk_FederatedOrganization src) in
  (mkZoneKey o n f, c1 + c2 + c3)%nat.
Definition copy_Loc (fmap : FieldMap) (m src : Loc) : Loc * nat :=
  let has := HasOrHasChild fmap "5" in
  let '(la, c1) := copy (has && Has fmap "5.1") (Latitude m) (Latitude src) in
  let '(lo, c2) := copy (has && Has fmap "5.2") (Longitude m) (Longitude src) in
  let '(h, c3) := copy (has && Has fmap "5.3") (HorizontalAccuracy m) (HorizontalAccuracy src) in
  let '(v, c4) := copy (has && Has fmap "5.4") (VerticalAccuracy m) (VerticalAccuracy src) in
  let '(al, c5) := copy (has && Has fmap "5.5") (Altitude m) (Altitude src) in
  let '(co, c6) := copy (has && Has fmap "5.6") (Course m) (Course src) in
  let '(sp, c7) := copy (has && Has fmap "5.7") (Speed m) (Speed src) in
  let '(ts, c8) :=
    if has && HasOrHasChild fmap "5.8" then
      match loc_Timestamp src with
      | Some t =>
          let '(t', c) := copy_Timestamp fmap "5.8"
                            (default (mkTimestamp 0 0) (loc_Timestamp m)) t in
          (Some t', c)
      | None => copy true (loc_Timestamp m) None
      end
    else (loc_Timestamp m, 0%nat) in
  (mkLoc la lo h v al co sp ts, c1 + c2 + c3 + c4 + c5 + c6 + c7 + c8)%nat.
Definition Zone_CopyInFields (m src : Zone) : Zone * nat :=
  let fmap := MakeFieldMap (z_Fields src) in
  let '(key, c1) := copy_ZoneKey fmap (z_Key m) (z_Key src) in
  let '(desc, c2) := copy (Has fmap "3") (z_Description m) (z_Description src) in
  let '(fl, c3) := copy_list (HasOrHasChild fmap "4") (z_InfraFlavors m) (z_InfraFlavors src) in
  let '(loc, c4) := copy_Loc fmap (z_Location m) (z_Location src) in
  let '(id, c5) := copy (Has fmap "89") (z_ObjId m) (z_ObjId src) in
  let '(prep, c6) := copy (Has fmap "90") (z_DeletePrepare m) (z_DeletePrepare src) in
  let '(cr, c7) := copy_Timestamp fmap "91" (z_CreatedAt m) (z_CreatedAt src) in
  let '(up, c8) := copy_Timestamp fmap "92" (z_UpdatedAt m) (z_UpdatedAt src) in
  (mkZone (z_Fields m) key desc fl loc id prep cr up, c1 + c2 + c3 + c4 + c5 + c6 + c7 + c8)%nat.

Definition ZonePool_CopyInFields (m src : ZonePool) : ZonePool * nat :=
  let fmap := MakeFieldMap (zp_Fields src) in
  let has := HasOrHasChild fmap "2" in
  let '(o, c1) := copy (has && Has fmap "2.1") (zpk_Organization (zp_Key m))
                    (zpk_Organization (zp_Key src)) in
  let '(n, c2) := copy (has && Has fmap "2.2") (zpk_Name (zp_Key m)) (zpk_Name (zp_Key src)) in
  let '(zs, c3) := copy_list (HasOrHasChild fmap "3") (zp_Zones m) (zp_Zones src) in
  let '(cr, c4) := copy_Timestamp fmap "4" (zp_CreatedAt m) (zp_CreatedAt src) in
  let '(up, c5) := copy_Timestamp fmap "5" (zp_UpdatedAt m) (zp_UpdatedAt src) in
  let '(prep, c6) := copy (Has fmap "6") (zp_DeletePrepare m) (zp_DeletePrepare src) in
  (mkZonePool (zp_Fields m) (mkZonePoolKey o n) zs cr up prep, c1 + c2 + c3 + c4 + c5 + c6)%nat.

Definition AutoProvPolicy_CopyInFields (m src : AutoProvPolicy) : AutoProvPolicy * nat :=
  let fmap := MakeFieldMap (ap_Fields src) in
  let has := HasOrHasChild fmap "2" in
  let '(o, c1) := copy (has && Has fmap "2.1") (pk_Organization (ap_Key m))
                    (pk_Organization (ap_Key src)) in
  let '(n, c2) := copy (has && Has fmap "2.2") (pk_Name (ap_Key m)) (pk_Name (ap_Key src)) in
  let '(dc, c3) := copy (Has fmap "3") (DeployClientCount m) (DeployClientCount src) in
  let '(di, c4) := copy (Has fmap "4") (DeployIntervalCount m) (DeployIntervalCount src) in
  let '(zs, c5) := copy_list (HasOrHasChild fmap "5") (ap_Zones m) (ap_Zones src) in
  let '(mn, c6) := copy (Has fmap "6") (MinActiveInstances m) (MinActiveInstances src) in
  let '(mx, c7) := copy (Has fmap "7") (MaxInstances m) (MaxInstances src) in
  let '(uc, c8) := copy (Has fmap "8") (UndeployClientCount m) (UndeployClientCount src) in
  let '(ui, c9) := copy (Has fmap "9") (UndeployIntervalCount m) (UndeployIntervalCount src) in
  let '(prep, c10) := copy (Has fmap "10") (ap_DeletePrepare m) (ap_DeletePrepare src) in
  (mkAutoProvPolicy (ap_Fields m) (mkPolicyKey o n) dc di zs mn mx uc ui prep,
   c1 + c2 + c3 + c4 + c5 + c6 + c7 + c8 + c9 + c10)%nat.

Definition TPE_CopyInFields (m src : TrustPolicyException) : TrustPolicyException * nat :=
  let fmap := MakeFieldMap (tpe_Fields src) in
  let k := tpe_Key m in let ks := tpe_Key src in
  let has := HasOrHasChild fmap "2" in
  let hasA := has && HasOrHasChild fmap "2.1" in
  let hasP := has && HasOrHasChild fmap "2.2" in
  let '(ao, c1) := copy (hasA && Has fmap "2.1.1") (ak_Organization (tk_AppKey k))
                     (ak_Organization (tk_AppKey ks)) in
  let '(an, c2) := copy (hasA && Has fmap "2.1.2") (ak_Name (tk_AppKey k)) (ak_Name (tk_AppKey ks)) in
  let '(av, c3) := copy (hasA && Has fmap "2.1.3") (ak_Version (tk_AppKey k))
                     (ak_Version (tk_AppKey ks)) in
  let '(po, c4) := copy (hasP && Has fmap "2.2.1") (zpk_Organization (tk_ZonePoolKey k))
                     (zpk_Organization (tk_ZonePoolKey ks)) in
  let '(pn, c5) := copy (hasP && Has fmap "2.2.2") (zpk_Name (tk_ZonePoolKey k))
                     (zpk_Name (tk_ZonePoolKey ks)) in
  let '(n, c6) := copy (has && Has fmap "2.3") (tk_Name k) (tk_Name ks) in
  let '(st, c7) := copy (Has fmap "3") (tpe_State m) (tpe_State src) in
  let '(rs, c8) := copy_list (HasOrHasChild fmap "4") (OutboundSecurityRules m)
                     (OutboundSecurityRules src) in
  (mkTPE (tpe_Fields m) (mkTPEKey (mkAppKey ao an av) (mkZonePoolKey po pn) n) st rs,
   c1 + c2 + c3 + c4 + c5 + c6 + c7 + c8)%nat.

(** ** Validation *)

Definition ZoneAllFieldsStringMap : gmap string string := list_to_map
  [("2.1", "Key Organization"); ("2.2", "Key Name"); ("2.3", "Key Federated Organization");
   ("3", "Description"); ("4.1", "Infra Flavors Name"); ("4.2", "Infra Flavors Vcpus");
   ("4.3", "Infra Flavors Ram"); ("4.4", "Infra Flavors Disk");
   ("4.5.1", "Infra Flavors Prop Map Key"); ("4.5.2", "Infra Flavors Prop Map Value");
   ("4.6.1", "Infra Flavors Gpus Model Id"); ("4.6.2", "Infra Flavors Gpus Count");
   ("4.6.3", "Infra Flavors Gpus Vendor"); ("4.6.4", "Infra Flavors Gpus Memory");
   ("4.6.5", "Infra Flavors Gpus In Use"); ("5.1", "Location Latitude");
   ("5.2", "Location Longitude"); ("5.3", "Location Horizontal Accuracy");
   ("5.4", "Location Vertical Accuracy"); ("5.5", "Location Altitude");
   ("5.6", "Location Course"); ("5.7", "Location Speed");
   ("5.8.1", "Location Timestamp Seconds"); ("5.8.2", "Location Timestamp Nanos");
   ("89", "Obj Id"); ("90", "Delete Prepare"); ("91.1", "Created At Seconds");
   ("91.2", "Created At Nanos"); ("92.1", "Updated At Seconds"); ("92.2", "Updated At Nanos")].
Definition UpdateZoneFieldsMap : FieldMap := list_to_set
  ["3"; "4"; "4.1"; "4.2"; "4.3"; "4.4"; "4.5"; "4.5.1"; "4.5.2"; "4.6"; "4.6.1"; "4.6.2";
   "4.6.3"; "4.6.4"; "4.6.5"; "89"].
Definition IsKeyField (s : string) : bool := has_prefix s "2." || bool_decide (s = "2").

(** A field that the map of names does not have is let through. *)
Definition bad_field (allowed : FieldMap) (field : string) : option string :=
  if IsKeyField field then None
  else if Has allowed field then None
  else ZoneAllFieldsStringMap !! field.
Definition Zone_ValidateUpdateFields (m : Zone) : option error :=
  if decide (z_Fields m = []) then Some "nothing specified to update"
  else
    match omap (M := list) (bad_field UpdateZoneFieldsMap) (Fields (MakeFieldMap (z_Fields m))) with
    | [] => None
    | bad => Some ("specified field(s) " +:+ GoStd.join "," bad +:+ " cannot be modified")
    end.

Definition ZoneKey_ValidateKey (key : ZoneKey) : option error :=
  if negb (ValidName (zk_Organization key)) then
    Some ("Invalid zone organization name " +:+ zk_Organization key)
  else if negb (ValidName (zk_Name key)) then Some "Invalid zone name"
  else None.
Definition Zone_Validate (s : Zone) : option error := ZoneKey_ValidateKey (z_Key s).
Definition ZonePoolKey_ValidateKey (key : ZonePoolKey) : option error :=
  if negb (ValidName (zpk_Organization key)) then Some "Invalid zone pool organization"
  else if negb (ValidName (zpk_Name key)) then Some "Invalid zone pool name"
  else None.
Definition ZonePool_Validate (s : ZonePool) : option error := ZonePoolKey_ValidateKey (zp_Key s).
Definition AppKey_ValidateKey (key : AppKey) : option error :=
  if negb (ValidName (ak_Name key)) then Some "Invalid app name"
  else if negb (ValidName (ak_Version key)) then Some "Invalid app version"
  else if negb (ValidName (ak_Organization key)) then Some "Invalid app organization"
  else None.
Definition PolicyKey_ValidateKey (key : PolicyKey) : option error :=
  match ValidObjName (pk_Organization key) with
  | Some err =>
      Some ("Invalid organization, " +:+ to_lower (str_take 1 err) +:+ str_drop 1 err)
  | None => if decide (pk_Name key = "") then Some "Policy name cannot be empty" else None
  end.
Definition AutoProvPolicy_Validate (s : AutoProvPolicy) : option error :=
  match PolicyKey_ValidateKey (ap_Key s) with
  | Some err => Some err
  | None =>
      if decide (MinActiveInstances s > MaxInstances s ∧ MaxInstances s ≠ 0) then
        Some "Minimum active instances cannot be larger than Maximum Instances"
      else if decide (MinActiveInstances s = 0 ∧ DeployClientCount s = 0) then
        Some "One of deploy client count and minimum active instances must be specified"
      else None
  end.
Definition TPEKey_ValidateKey (key : TPEKey) : option error :=
  match AppKey_ValidateKey (tk_AppKey key) with
  | Some err => Some ("Invalid AppKey in TrustPolicyExceptionKey, " +:+ err)
  | None =>
      match ZonePoolKey_ValidateKey (tk_ZonePoolKey key) with
      | Some err => Some ("Invalid ZonePoolKey in TrustPolicyExceptionKey, " +:+ err)
      | None =>
          if decide (tk_Name key = "") then Some "TrustPolicyException name cannot be empty"
          else None
      end
  end.

(** [strings.ToUpper] on ASCII. *)
Definition upper_ascii (c : ascii) : ascii :=
  if isASCIILower c then byte_chr (byte_val c - 32) else c.
Fixpoint to_upper (s : string) : string :=
  match s with EmptyString => s | String c s' => String (upper_ascii c) (to_upper s') end.
Definition fixupSecurityRules (rules : list SecurityRule) : list SecurityRule :=
  (λ o, mkSecurityRule (to_upper (Protocol o)) (PortRangeMin o)
          (if decide (PortRangeMax o = 0) then PortRangeMin o else PortRangeMax o)
          (RemoteCidr o)) <$> rules.

Section Rules.
(** [net.ParseCIDR]. *)
Context (ParseCIDR : string → option error).

Definition minPort : Z := 1.
Definition maxPort : Z := 65535.
Fixpoint ValidateSecurityRules (rules : list SecurityRule) : option error :=
  match rules with
  | [] => None
  | r :: rules' =>
      if decide (Protocol r ≠ "TCP" ∧ Protocol r ≠ "UDP" ∧ Protocol r ≠ "ICMP") then
        Some "Protocol must be one of: (TCP,UDP,ICMP)"
      else
        let ports :=
          if decide (Protocol r = "ICMP") then
            if decide (PortRangeMin r ≠ 0 ∨ PortRangeMax r ≠ 0) then
              Some "Port range must be empty for ICMP"
            else None
          else if decide (PortRangeMin r < minPort ∨ PortRangeMin r > maxPort) then
            Some ("Invalid min port: " +:+ fmt_u (PortRangeMin r))
          else if decide (PortRangeMax r > maxPort) then
            Some ("Invalid max port: " +:+ fmt_u (PortRangeMax r))
          else if decide (PortRangeMin r > PortRangeMax r) then
            Some ("Min port range: " +:+ fmt_u (PortRangeMin r) +:+
                  " cannot be higher than max: " +:+ fmt_u (PortRangeMax r))
          else None in
        match ports with
        | Some err => Some err
        | None =>
            match ParseCIDR (RemoteCidr r) with
            | Some err => Some err
            | None => ValidateSecurityRules rules'
            end
        end
  end.
Definition TPE_Validate (s : TrustPolicyException) : option error :=
  match TPEKey_ValidateKey (tpe_Key s) with
  | Some err => Some err
  | None =>
      if decide (OutboundSecurityRules s = []) then Some "Security rules must be specified"
      else ValidateSecurityRules (OutboundSecurityRules s)
  end.
End Rules.

(** ** What copying fields keeps *)

(** The steps of a copy, one equation each. *)
Ltac copies := repeat match goal with
  | |- context [let '(_, _) := ?c in _] => destruct c eqn:?
  end; simpl;
  repeat match goal with
  | H : copy _ _ _ = _ |- _ => apply (f_equal fst) in H; rewrite copy_fst in H; simpl in H
  | H : copy_list _ _ _ = _ |- _ => apply (f_equal fst) in H; rewrite copy_list_fst in H; simpl in H
  end.
Lemma if_same {A} (b : bool) (x : A) : (if b then x else x) = x.
Proof. by destruct b. Qed.

Lemma copy_ZoneKey_same fmap k : copy_ZoneKey fmap k k = (k, 0%nat).
Proof. unfold copy_ZoneKey. rewrite !copy_same. by destruct k. Qed.
Lemma Zone_CopyInFields_key m src :
  z_Key m = z_Key src → z_Key (Zone_CopyInFields m src).1 = z_Key src.
Proof.
  intros Hk. unfold Zone_CopyInFields. rewrite Hk, copy_ZoneKey_same. by copies.
Qed.
(** A field that the mask does not have, nor a parent or child of it, stays. *)
Lemma ZonePool_CopyInFields_spec m src :
  zp_Key m = zp_Key src →
  let m' := (ZonePool_CopyInFields m src).1 in
  let fmap := MakeFieldMap (zp_Fields src) in
  zp_Key m' = zp_Key src ∧
  zp_Zones m' = (if HasOrHasChild fmap "3" then zp_Zones src else zp_Zones m) ∧
  zp_DeletePrepare m' = (if Has fmap "6" then zp_DeletePrepare src else zp_DeletePrepare m).
Proof.
  intros Hk. unfold ZonePool_CopyInFields. rewrite Hk, !copy_same. cbv zeta. copies.
  subst. split_and!; [by destruct (zp_Key src)|done|done].
Qed.
Lemma AutoProvPolicy_CopyInFields_spec m src :
  ap_Key m = ap_Key src →
  let m' := (AutoProvPolicy_CopyInFields m src).1 in
  ap_Key m' = ap_Key src ∧
  ap_Zones m' = (if HasOrHasChild (MakeFieldMap (ap_Fields src)) "5" then ap_Zones src else ap_Zones m).
Proof.
  intros Hk. unfold AutoProvPolicy_CopyInFields. rewrite Hk, !(copy_same (A := string)). cbv zeta.
  copies. subst. split; [by destruct (ap_Key src)|done].
Qed.
Lemma TPE_CopyInFields_key m src :
  tpe_Key m = tpe_Key src → tpe_Key (TPE_CopyInFields m src).1 = tpe_Key src.
Proof.
  intros Hk. unfold TPE_CopyInFields. rewrite Hk, !(copy_same (A := string)). cbv zeta. copies.
  by destruct (tpe_Key src) as [[] [] ?].
Qed.

(** ** A validated update *)

Lemma below_90 p : below p "90" → p = "90".
Proof.
  intros [->|[r Hr]]; [done|]. exfalso.
  destruct p as [|c [|c' [|c'' p]]]; simplify_eq/=.
Qed.
(** ValidateUpdateFields lets no update set the mark of a deletion. *)
Lemma update_keeps_prepare m in_ :
  Zone_ValidateUpdateFields in_ = None →
  z_DeletePrepare (Zone_CopyInFields m in_).1 = z_DeletePrepare m.
Proof.
  unfold Zone_ValidateUpdateFields. case_decide; [done|]. intros Hv.
  assert (Has (MakeFieldMap (z_Fields in_)) "90" = false) as H90.
  { apply not_true_iff_false. intros (p & Hp & Hb%below_90)%Has_spec. subst p.
    assert ("Delete Prepare" ∈ omap (M := list) (bad_field UpdateZoneFieldsMap)
      (Fields (MakeFieldMap (z_Fields in_)))) as Hin.
    { apply list_elem_of_omap. exists "90". split; [|by vm_compute].
      unfold Fields, sort_strings. rewrite merge_sort_Permutation. by apply elem_of_elements. }
    destruct (omap _ _); [by apply elem_of_nil in Hin|done]. }
  unfold Zone_CopyInFields. rewrite H90, copy_off. by copies.
Qed.

(** ** JSON for runs *)

Module JsonRuns.
#[export] Instance float64_countable : Countable float64.
Proof.
  refine (inj_countable' (λ x, match x with
      | S754_zero s => inl (inl s) | S754_infinity s => inl (inr s) | S754_nan => inr None
      | S754_finite s m e => inr (Some (s, m, e)) end)
    (λ c, match c with
      | inl (inl s) => S754_zero s | inl (inr s) => S754_infinity s | inr None => S754_nan
      | inr (Some (s, m, e)) => S754_finite s m e end) _). by intros [].
Defined.
#[export] Instance coord_countable : Countable coord.
Proof. unfold coord. apply _. Defined.
#[export] Instance Timestamp_countable : Countable Timestamp.
Proof.
  refine (inj_countable' (λ t, (Seconds t, Nanos t)) (λ '(s, n), mkTimestamp s n) _). by intros [].
Defined.
#[export] Instance GPUResource_eq_dec : EqDecision GPUResource.
Proof. solve_decision. Defined.
#[export] Instance GPUResource_countable : Countable GPUResource.
Proof.
  refine (inj_countable' (λ g, (ModelId g, Count g, Vendor g, Memory g, InUse g))
    (λ '(m, c, v, mem, u), mkGPU m c v mem u) _). by intros [].
Defined.
#[export] Instance FlavorInfo_eq_dec : EqDecision FlavorInfo.
Proof. solve_decision. Defined.
#[export] Instance FlavorInfo_countable : Countable FlavorInfo.
Proof.
  refine (inj_countable' (λ f, (fi_Name f, fi_Vcpus f, fi_Ram f, fi_Disk f, fi_Gpus f, fi_PropMap f))
    (λ '(n, v, r, d, g, p), mkFlavorInfo n v r d g p) _). by intros [].
Defined.
#[export] Instance Loc_eq_dec : EqDecision Loc.
Proof. solve_decision. Defined.
#[export] Instance Loc_countable : Countable Loc.
Proof.
  refine (inj_countable' (λ l, (Latitude l, Longitude l, HorizontalAccuracy l, VerticalAccuracy l,
      Altitude l, Course l, Speed l, loc_Timestamp l))
    (λ '(a, b, c, d, e, f, g, t), mkLoc a b c d e f g t) _). by intros [].
Defined.
#[export] Instance Zone_eq_dec : EqDecision Zone.
Proof. solve_decision. Defined.
#[export] Instance Zone_countable : Countable Zone.
Proof.
  refine (inj_countable' (λ z, (z_Fields z, z_Key z, z_Description z, z_InfraFlavors z, z_Location z,
      z_ObjId z, z_DeletePrepare z, z_CreatedAt z, z_UpdatedAt z))
    (λ '(a, b, c, d, e, f, g, h, i), mkZone a b c d e f g h i) _). by intros [].
Defined.
#[export] Instance ZonePool_eq_dec : EqDecision ZonePool.
Proof. solve_decision. Defined.
#[export] Instance ZonePool_countable : Countable ZonePool.
Proof.
  refine (inj_countable' (λ p, (zp_Fields p, zp_Key p, zp_Zones p, zp_CreatedAt p, zp_UpdatedAt p,
      zp_DeletePrepare p)) (λ '(a, b, c, d, e, f), mkZonePool a b c d e f) _). by intros [].
Defined.
#[export] Instance AutoProvPolicy_eq_dec : EqDecision AutoProvPolicy.
Proof. solve_decision. Defined.
#[export] Instance AutoProvPolicy_countable : Countable AutoProvPolicy.
Proof.
  refine (inj_countable' (λ p, (ap_Fields p, ap_Key p, DeployClientCount p, DeployIntervalCount p,
      ap_Zones p, MinActiveInstances p, MaxInstances p, UndeployClientCount p, UndeployIntervalCount p,
      ap_DeletePrepare p))
    (λ '(a, b, c, d, e, f, g, h, i, j), mkAutoProvPolicy a b c d e f g h i j) _). by intros [].
Defined.
#[export] Instance App_eq_dec : EqDecision App.
Proof. solve_decision. Defined.
#[export] Instance App_countable : Countable App.
Proof.
  refine (inj_countable' (λ a, (Trusted a, app_DeletePrepare a, AutoProvPolicies a,
      app_AutoProvPolicy a, app_Deployment a, app_Key a))
    (λ '(t, d, l, p, e, k), mkApp k t d l p e) _). by intros [].
Defined.
#[export] Instance SecurityRule_eq_dec : EqDecision SecurityRule.
Proof. solve_decision. Defined.
#[export] Instance SecurityRule_countable : Countable SecurityRule.
Proof.
  refine (inj_countable' (λ r, (Protocol r, PortRangeMin r, PortRangeMax r, RemoteCidr r))
    (λ '(p, a, b, c), mkSecurityRule p a b c) _). by intros [].
Defined.
#[export] Instance TPEState_countable : Countable TPEState.
Proof.
  refine (inj_countable' (λ s, match s with STATE_UNKNOWN => 0 | STATE_APPROVAL_REQUESTED => 1
      | STATE_ACTIVE => 2 | STATE_REJECTED => 3 end)
    (λ n, if decide (n = 0) then STATE_UNKNOWN else if decide (n = 1) then STATE_APPROVAL_REQUESTED
          else if decide (n = 2) then STATE_ACTIVE else STATE_REJECTED) _). by intros [].
Defined.
#[export] Instance TPE_eq_dec : EqDecision TrustPolicyException.
Proof. solve_decision. Defined.
#[export] Instance TPE_countable : Countable TrustPolicyException.
Proof.
  refine (inj_countable' (λ t, (tpe_Fields t, tpe_Key t, tpe_State t, OutboundSecurityRules t))
    (λ '(a, b, c, d), mkTPE a b c d) _). by intros [].
Defined.
#[export] Instance Cloudlet_eq_dec : EqDecision Cloudlet.
Proof. solve_decision. Defined.
#[export] Instance Cloudlet_countable : Countable Cloudlet.
Proof.
  refine (inj_countable' (λ c, (cl_MaintenanceState c, cl_Zone c, cl_Key c))
    (λ '(m, z, k), mkCloudlet k z m) _). by intros [].
Defined.
#[export] Instance run_json A `{Countable A} : Json A := countable_json.

Definition zero_coord : coord := exist _ f64_zero I.
Definition zero_loc : Loc :=
  mkLoc zero_coord zero_coord zero_coord zero_coord zero_coord zero_coord zero_coord None.
Definition zero_ts : Timestamp := mkTimestamp 0 0.
End JsonRuns.
