(* ===== verification/ZoneApi.v ===== *)
(** * The handlers for zones, zone pools, auto-provisioning policies and trust
    policy exceptions (pkg/controller/zone_api.go, zonepool_api.go,
    autoprovpolicy_api.go, trustpolicyexception_api.go)

    Each handler is an [hprog]: its transaction bodies, and its looks at the
    caches, in the code's order.  A look inside a body is made before the body,
    which gives it the same states to see.  A deferred undo is the last body of
    the branches that fail.

    [refs_intact]: whatever handlers run at the same time, a zone that a pool or
    a policy has is there; so is the pool of an exception when no request of
    UpdateZonePool writes the mark of a deletion. *)

From S2P Require Export ZoneObjs.
#[local] Open Scope Z_scope.

(** [NotFoundError], [ExistsError], [BeingDeletedError]. *)
Definition NotFoundError {K} `{!Json K} (type : string) (k : K) : error :=
  type +:+ " key " +:+ Marshal k +:+ " not found".
Definition ExistsError {K} `{!Json K} (type : string) (k : K) : error :=
  type +:+ " key " +:+ Marshal k +:+ " already exists".
Definition BeingDeletedError {K} `{!Json K} (type : string) (k : K) : error :=
  type +:+ " " +:+ Marshal k +:+ " is being deleted".

(** *** Small changes of objects *)

Definition zone_prepare (b : bool) (z : Zone) : Zone :=
  mkZone (z_Fields z) (z_Key z) (z_Description z) (z_InfraFlavors z) (z_Location z) (z_ObjId z)
    b (z_CreatedAt z) (z_UpdatedAt z).
Definition zone_set_id (id : string) (z : Zone) : Zone :=
  mkZone (z_Fields z) (z_Key z) (z_Description z) (z_InfraFlavors z) (z_Location z) id
    (z_DeletePrepare z) (z_CreatedAt z) (z_UpdatedAt z).
Definition pool_prepare (b : bool) (p : ZonePool) : ZonePool :=
  mkZonePool (zp_Fields p) (zp_Key p) (zp_Zones p) (zp_CreatedAt p) (zp_UpdatedAt p) b.
Definition pool_set_zones (zs : list ZoneKey) (p : ZonePool) : ZonePool :=
  mkZonePool (zp_Fields p) (zp_Key p) zs (zp_CreatedAt p) (zp_UpdatedAt p) (zp_DeletePrepare p).
Definition pool_created (t : Timestamp) (p : ZonePool) : ZonePool :=
  mkZonePool (zp_Fields p) (zp_Key p) (zp_Zones p) t (zp_UpdatedAt p) (zp_DeletePrepare p).
Definition pool_updated (t : Timestamp) (p : ZonePool) : ZonePool :=
  mkZonePool (zp_Fields p) (zp_Key p) (zp_Zones p) (zp_CreatedAt p) t (zp_DeletePrepare p).
Definition policy_prepare (b : bool) (p : AutoProvPolicy) : AutoProvPolicy :=
  mkAutoProvPolicy (ap_Fields p) (ap_Key p) (DeployClientCount p) (DeployIntervalCount p) (ap_Zones p)
    (MinActiveInstances p) (MaxInstances p) (UndeployClientCount p) (UndeployIntervalCount p) b.
Definition policy_set_zones (zs : list ZoneKey) (p : AutoProvPolicy) : AutoProvPolicy :=
  mkAutoProvPolicy (ap_Fields p) (ap_Key p) (DeployClientCount p) (DeployIntervalCount p) zs
    (MinActiveInstances p) (MaxInstances p) (UndeployClientCount p) (UndeployIntervalCount p)
    (ap_DeletePrepare p).
Definition tpe_set_state (st : TPEState) (t : TrustPolicyException) : TrustPolicyException :=
  mkTPE (tpe_Fields t) (tpe_Key t) st (OutboundSecurityRules t).
Definition FixupSecurityRules (t : TrustPolicyException) : TrustPolicyException :=
  mkTPE (tpe_Fields t) (tpe_Key t) (tpe_State t) (fixupSecurityRules (OutboundSecurityRules t)).
(** [key.Organization = org]. *)
Definition set_org (org : string) (k : ZoneKey) : ZoneKey :=
  mkZoneKey org (zk_Name k) (zk_FederatedOrganization k).
Definition pool_set_orgs (p : ZonePool) : ZonePool :=
  pool_set_zones (set_org (zpk_Organization (zp_Key p)) <$> zp_Zones p) p.
(** The first element that is equal goes: [append(l[:ii], l[ii+1:]...)]. *)
Fixpoint remove_first {A} `{EqDecision A} (x : A) (l : list A) : option (list A) :=
  match l with
  | [] => None
  | y :: l' => if decide (y = x) then Some l' else cons y <$> remove_first x l'
  end.

Section Api.
Context (region : Z) {GR : GoRange}.
Context `{JZK : !Json ZoneKey, JPK : !Json ZonePoolKey, JPoK : !Json PolicyKey, JAK : !Json AppKey,
  JTK : !Json TPEKey, JCK : !Json CloudletKey, JZ : !Json Zone, JP : !Json ZonePool,
  JPo : !Json AutoProvPolicy, JA : !Json App, JT : !Json TrustPolicyException, JC : !Json Cloudlet}.
(** [net.ParseCIDR], and the text of protobuf messages in an error. *)
Context (ParseCIDR : string → option error) (AppKey_String : AppKey → string)
  (TPEKey_String : TPEKey → string).

(** The objects of a cache, in an order of [range]. *)
Definition cache_range (K O : Type) `{Countable K, !ObjCodec K O, !Stored K O}
    (f : snapshot) : list (K * O) :=
  go_range (list_to_map ((λ o, (GetKeyVal o, o)) <$> cached region (O := O) f)).

(** ** Zones *)

Definition create_zone_body (ulid : string) (in_ : Zone) : stm () :=
  has ← STMHas region (O := Zone) (z_Key in_);
  if (has : bool) then SErr (ExistsError "Zone" (z_Key in_))
  else STMPut region (zone_set_id (to_lower ulid) in_).
Definition CreateZone (ulid : string) (in_ : Zone) : hprog :=
  match Zone_Validate in_ with
  | Some err => HDone (Some err)
  | None => HTxn (create_zone_body ulid in_) (λ r, HDone (err_of r))
  end.

(** The body puts the zone of the store into [in]. *)
Definition delete_zone_prepare (key : ZoneKey) : stm ZoneKey :=
  zone ← STMGet region key;
  match zone with
  | None => SErr (NotFoundError "Zone" key)
  | Some z =>
      if z_DeletePrepare z then SErr (BeingDeletedError "Zone" (z_Key z))
      else _ ← STMPut region (zone_prepare true z); SRet (z_Key z)
  end.
Definition delete_zone_undo_body (key : ZoneKey) : stm () :=
  zone ← STMGet region key;
  match zone with
  | None => SErr (NotFoundError "Zone" key)
  | Some z => STMPut region (zone_prepare false z)
  end.
Definition delete_zone_undo (key : ZoneKey) (err : error) : hprog :=
  HTxn (delete_zone_undo_body key) (λ _, HDone (Some err)).
Definition delete_zone_body (key : ZoneKey) : stm () :=
  zone ← STMGet region key;
  match zone with
  | None => SErr (NotFoundError "Zone" key)
  | Some z =>
      if negb (z_DeletePrepare z) then
        SErr ("delete zone " +:+ Marshal key +:+
              " expected zone to be in delete prepare, but was not")
      else STMDel region (O := Zone) key
  end.

Definition AutoProvPolicy_UsesZone (f : snapshot) (key : ZoneKey) : list PolicyKey :=
  fst <$> filter (λ ko, key ∈ ap_Zones ko.2) (cache_range PolicyKey AutoProvPolicy f).
Definition CloudletsUsingZone (f : snapshot) (key : ZoneKey) : list string :=
  (λ ko, ck_Name (cl_Key ko.2)) <$>
    filter (λ ko, ck_Organization (cl_Key ko.2) = zk_Organization key ∧
                  ck_FederatedOrganization (cl_Key ko.2) = zk_FederatedOrganization key ∧
                  zk_Name key = cl_Zone ko.2) (cache_range CloudletKey Cloudlet f).
Definition ZonePool_UsesZone (f : snapshot) (key : ZoneKey) : list ZonePoolKey :=
  fst <$> filter (λ ko, zpk_Organization ko.1 = zk_Organization key ∧ key ∈ zp_Zones ko.2)
    (cache_range ZonePoolKey ZonePool f).

Definition delete_zone_checked (key : ZoneKey) : hprog :=
  HCache (λ c, match AutoProvPolicy_UsesZone c key with
  | _ :: _ as l =>
      delete_zone_undo key ("zone in use by AutoProvPolicy " +:+ GoStd.join ", " (Marshal <$> l))
  | [] =>
  HCache (λ c, match CloudletsUsingZone c key with
  | _ :: _ as l => delete_zone_undo key ("zone in use by cloudlets " +:+ GoStd.join ", " l)
  | [] =>
  HCache (λ c, match ZonePool_UsesZone c key with
  | _ :: _ as l =>
      delete_zone_undo key ("zone in use by ZonePool " +:+ GoStd.join ", " (Marshal <$> l))
  | [] =>
      HTxn (delete_zone_body key) (λ r,
        match r with Err e => delete_zone_undo key e | Ok _ => HDone None end)
  end) end) end).
Definition DeleteZone (in_ : Zone) : hprog :=
  HTxn (delete_zone_prepare (z_Key in_)) (λ r,
    match r with Err e => HDone (Some e) | Ok key => delete_zone_checked key end).

Definition update_zone_body (in_ : Zone) : stm () :=
  zone ← STMGet region (z_Key in_);
  match zone with
  | None => SErr (NotFoundError "Zone" (z_Key in_))
  | Some z =>
      if z_DeletePrepare z then SErr (BeingDeletedError "Zone" (z_Key in_))
      else
        let '(z', changed) := Zone_CopyInFields z in_ in
        if decide (changed = 0%nat) then SRet () else STMPut region z'
  end.
Definition UpdateZone (in_ : Zone) : hprog :=
  match Zone_ValidateUpdateFields in_ with
  | Some err => HDone (Some err)
  | None => HTxn (update_zone_body in_) (λ r, HDone (err_of r))
  end.

(** ** Zone pools *)

(** Sets the organization of the keys it comes to; [zone] is the zero value
    when it is not found. *)
Fixpoint checkZonesExist_loop (org : string) (zones : list ZoneKey) (notFound : list string)
    : stm (list ZoneKey) :=
  match zones with
  | [] =>
      match notFound with
      | [] => SRet []
      | _ => SErr ("Zones " +:+ GoStd.join ", " notFound +:+ " not found")
      end
  | k :: zones' =>
      let key := set_org org k in
      zone ← STMGet region key;
      if match zone with Some z => z_DeletePrepare z | None => false end
      then SErr (BeingDeletedError "Zone" key)
      else
        let notFound' := match zone with Some _ => notFound | None => notFound ++ [Marshal key] end in
        rest ← checkZonesExist_loop org zones' notFound'; SRet (key :: rest)
  end.
Definition checkZonesExist (in_ : ZonePool) : stm ZonePool :=
  zones ← checkZonesExist_loop (zpk_Organization (zp_Key in_)) (zp_Zones in_) [];
  SRet (pool_set_zones zones in_).

Definition create_pool_body (now_ : Timestamp) (in_ : ZonePool) : stm () :=
  has ← STMHas region (O := ZonePool) (zp_Key in_);
  if (has : bool) then SErr (ExistsError "ZonePool" (zp_Key in_))
  else
    pool ← checkZonesExist (pool_set_orgs in_);
    STMPut region (pool_created now_ pool).
Definition CreateZonePool (now_ : Timestamp) (in_ : ZonePool) : hprog :=
  match ZonePool_Validate in_ with
  | Some err => HDone (Some err)
  | None => HTxn (create_pool_body now_ in_) (λ r, HDone (err_of r))
  end.

(** [Show] with a filter: an empty field of the filter matches everything. *)
Definition filter_field (o m : string) : bool := bool_decide (o = "" ∨ o = m).
Definition filter_ZonePoolKey (o m : ZonePoolKey) : bool :=
  filter_field (zpk_Organization o) (zpk_Organization m) && filter_field (zpk_Name o) (zpk_Name m).
Definition GetTrustPolicyExceptionForZonePoolKey (f : snapshot) (cKey : ZonePoolKey)
    : option TrustPolicyException :=
  last (snd <$> filter (λ ko, filter_ZonePoolKey cKey (tk_ZonePoolKey (tpe_Key ko.2)) = true)
    (cache_range TPEKey TrustPolicyException f)).
Definition TrustPolicyExceptionForZonePoolKeyExists (f : snapshot) (cKey : ZonePoolKey)
    : option TPEKey := tpe_Key <$> GetTrustPolicyExceptionForZonePoolKey f cKey.

Definition delete_pool_prepare (key : ZonePoolKey) : stm () :=
  cur ← STMGet region key;
  match cur with
  | None => SErr (NotFoundError "ZonePool" key)
  | Some p =>
      if zp_DeletePrepare p then SErr (BeingDeletedError "ZonePool" key)
      else STMPut region (pool_prepare true p)
  end.
Definition delete_pool_undo_body (key : ZonePoolKey) : stm () :=
  cur ← STMGet region key;
  match cur with
  | None => SRet ()
  | Some p => if zp_DeletePrepare p then STMPut region (pool_prepare false p) else SRet ()
  end.
Definition delete_pool_undo (key : ZonePoolKey) (err : error) : hprog :=
  HTxn (delete_pool_undo_body key) (λ _, HDone (Some err)).
Definition delete_pool_body (key : ZonePoolKey) : stm () :=
  has ← STMHas region (O := ZonePool) key;
  if (has : bool) then STMDel region (O := ZonePool) key
  else SErr (NotFoundError "ZonePool" key).
Definition delete_pool_checked (key : ZonePoolKey) : hprog :=
  HCache (λ c, match TrustPolicyExceptionForZonePoolKeyExists c key with
  | Some tk =>
      delete_pool_undo key ("ZonePool in use by Trust Policy Exception " +:+ Marshal tk)
  | None =>
      HTxn (delete_pool_body key) (λ r,
        match r with Err e => delete_pool_undo key e | Ok _ => HDone None end)
  end).
Definition DeleteZonePool (in_ : ZonePool) : hprog :=
  HTxn (delete_pool_prepare (zp_Key in_)) (λ r,
    match r with Err e => HDone (Some e) | Ok _ => delete_pool_checked (zp_Key in_) end).

Definition update_pool_body (now_ : Timestamp) (in_ : ZonePool) (tpe : option TPEKey) : stm () :=
  cur ← STMGet region (zp_Key in_);
  match cur with
  | None => SErr (NotFoundError "ZonePool" (zp_Key in_))
  | Some p =>
      let '(p', changed) := ZonePool_CopyInFields p (pool_set_orgs in_) in
      match ZonePool_Validate p' with
      | Some err => SErr err
      | None =>
          if decide (changed = 0%nat) then SRet ()
          else
            pool ← checkZonesExist p';
            match tpe with
            | Some k =>
                SErr ("Not allowed to update ZonePool when TrustPolicyException "
                      +:+ Marshal k +:+ " is applied")
            | None => STMPut region (pool_updated now_ pool)
            end
      end
  end.
Definition UpdateZonePool (now_ : Timestamp) (in_ : ZonePool) : hprog :=
  HCache (λ c,
    HTxn (update_pool_body now_ in_ (TrustPolicyExceptionForZonePoolKeyExists c (zp_Key in_)))
      (λ r, HDone (err_of r))).

Definition add_member_body (in_ : ZonePoolMember) : stm () :=
  cur ← STMGet region (zpm_Key in_);
  match cur with
  | None => SErr (NotFoundError "ZonePool" (zpm_Key in_))
  | Some p =>
      let zone := set_org (zpk_Organization (zpm_Key in_)) (zpm_Zone in_) in
      if decide (zone ∈ zp_Zones p) then SErr "Zone already part of pool"
      else
        pool ← checkZonesExist (pool_set_zones (zp_Zones p ++ [zone]) p);
        STMPut region pool
  end.
(** The exceptions of the pool are applied to the zone after this and the next
    handler's body. *)
Definition AddZonePoolMember (in_ : ZonePoolMember) : hprog :=
  HTxn (add_member_body in_) (λ r, HDone (err_of r)).
Definition remove_member_body (in_ : ZonePoolMember) : stm () :=
  cur ← STMGet region (zpm_Key in_);
  match cur with
  | None => SErr (NotFoundError "ZonePool" (zpm_Key in_))
  | Some p =>
      let zone := set_org (zpk_Organization (zpm_Key in_)) (zpm_Zone in_) in
      match remove_first zone (zp_Zones p) with
      | None => SRet ()
      | Some zones => STMPut region (pool_set_zones zones p)
      end
  end.
Definition RemoveZonePoolMember (in_ : ZonePoolMember) : hprog :=
  HTxn (remove_member_body in_) (λ r, HDone (err_of r)).

(** ** Auto-provisioning policies *)

Fixpoint configureZones_loop (zones : list ZoneKey) (dups : gset ZoneKey) : stm () :=
  match zones with
  | [] => SRet ()
  | k :: zones' =>
      zone ← STMGet region k;
      match zone with
      | None => SErr (NotFoundError "Zone" k)
      | Some z =>
          if z_DeletePrepare z then SErr (BeingDeletedError "Zone" (z_Key z))
          else if decide (z_Key z ∈ dups) then
            SErr ("duplicate zone " +:+ Marshal (z_Key z) +:+ " in list")
          else configureZones_loop zones' ({[z_Key z]} ∪ dups)
      end
  end.
Definition configureZones (policy : AutoProvPolicy) : stm () :=
  configureZones_loop (ap_Zones policy) ∅.

Definition create_policy_body (in_ : AutoProvPolicy) : stm () :=
  has ← STMHas region (O := AutoProvPolicy) (ap_Key in_);
  if (has : bool) then SErr (ExistsError "Policy" (ap_Key in_))
  else _ ← configureZones in_; STMPut region in_.
Definition CreateAutoProvPolicy (in_ : AutoProvPolicy) : hprog :=
  match AutoProvPolicy_Validate in_ with
  | Some err => HDone (Some err)
  | None =>
      if decide (MinActiveInstances in_ > Z.of_nat (length (ap_Zones in_))) then
        HDone (Some "Minimum Active Instances cannot be larger than the number of Zones")
      else HTxn (create_policy_body in_) (λ r, HDone (err_of r))
  end.
Definition update_policy_body (in_ : AutoProvPolicy) : stm () :=
  cur ← STMGet region (ap_Key in_);
  match cur with
  | None => SErr (NotFoundError "Policy" (ap_Key in_))
  | Some p =>
      let '(p', changed) := AutoProvPolicy_CopyInFields p in_ in
      match AutoProvPolicy_Validate p' with
      | Some err => SErr err
      | None =>
          if decide (changed = 0%nat) then SRet ()
          else _ ← configureZones p'; STMPut region p'
      end
  end.
Definition UpdateAutoProvPolicy (in_ : AutoProvPolicy) : hprog :=
  HTxn (update_policy_body in_) (λ r, HDone (err_of r)).

Definition UsesAutoProvPolicy (f : snapshot) (key : PolicyKey) : option AppKey :=
  fst <$> head (filter (λ ko, ak_Organization (app_Key ko.2) = pk_Organization key ∧
      (app_AutoProvPolicy ko.2 = pk_Name key ∨ pk_Name key ∈ AutoProvPolicies ko.2))
    (cache_range AppKey App f)).
Definition delete_policy_prepare (key : PolicyKey) : stm () :=
  cur ← STMGet region key;
  match cur with
  | None => SErr (NotFoundError "Policy" key)
  | Some p =>
      if ap_DeletePrepare p then SErr (BeingDeletedError "Policy" key)
      else STMPut region (policy_prepare true p)
  end.
Definition delete_policy_undo_body (key : PolicyKey) : stm () :=
  cur ← STMGet region key;
  match cur with
  | None => SRet ()
  | Some p => if ap_DeletePrepare p then STMPut region (policy_prepare false p) else SRet ()
  end.
Definition delete_policy_undo (key : PolicyKey) (err : error) : hprog :=
  HTxn (delete_policy_undo_body key) (λ _, HDone (Some err)).
(** [store.Delete] validates the key and deletes whatever is there. *)
Definition delete_policy_checked (key : PolicyKey) : hprog :=
  HCache (λ c, match UsesAutoProvPolicy c key with
  | Some ak => delete_policy_undo key ("Policy in use by App " +:+ Marshal ak)
  | None =>
      match PolicyKey_ValidateKey key with
      | Some err => delete_policy_undo key err
      | None =>
          HTxn (STMDel region (O := AutoProvPolicy) key) (λ r,
            match r with Err e => delete_policy_undo key e | Ok _ => HDone None end)
      end
  end).
Definition DeleteAutoProvPolicy (in_ : AutoProvPolicy) : hprog :=
  HTxn (delete_policy_prepare (ap_Key in_)) (λ r,
    match r with Err e => HDone (Some e) | Ok _ => delete_policy_checked (ap_Key in_) end).

Definition add_policy_zone_body (in_ : AutoProvPolicyZone) : stm () :=
  cur ← STMGet region (apz_Key in_);
  match cur with
  | None => SErr (NotFoundError "Policy" (apz_Key in_))
  | Some p =>
      if decide (apz_ZoneKey in_ ∈ ap_Zones p) then SErr "zone already part of policy"
      else
        let p' := policy_set_zones (ap_Zones p ++ [apz_ZoneKey in_]) p in
        _ ← configureZones p'; STMPut region p'
  end.
Definition AddAutoProvPolicyZone (in_ : AutoProvPolicyZone) : hprog :=
  HTxn (add_policy_zone_body in_) (λ r, HDone (err_of r)).
Definition remove_policy_zone_body (in_ : AutoProvPolicyZone) : stm () :=
  cur ← STMGet region (apz_Key in_);
  match cur with
  | None => SErr (NotFoundError "Policy" (apz_Key in_))
  | Some p =>
      match remove_first (apz_ZoneKey in_) (ap_Zones p) with
      | None => SRet ()
      | Some zones => STMPut region (policy_set_zones zones p)
      end
  end.
Definition RemoveAutoProvPolicyZone (in_ : AutoProvPolicyZone) : hprog :=
  HTxn (remove_policy_zone_body in_) (λ r, HDone (err_of r)).

(** ** Trust policy exceptions *)

(** [strings.TrimSpace] on ASCII. *)
Definition TrimSpace (s : string) : string :=
  trim (λ c, bool_decide (byte_val c = 32 ∨ 9 ≤ byte_val c ≤ 13)) s.
Definition create_tpe_body (in_ : TrustPolicyException) : stm () :=
  let key := tpe_Key in_ in
  has ← STMHas region (O := TrustPolicyException) key;
  if (has : bool) then SErr (ExistsError "TrustPolicyException" key)
  else
    app ← STMGet region (O := App) (tk_AppKey key);
    match app with
    | None => SErr (NotFoundError "App" (tk_AppKey key))
    | Some a =>
        if app_DeletePrepare a then SErr (BeingDeletedError "App" (tk_AppKey key))
        else if negb (Trusted a) then
          SErr ("Non trusted app: " +:+ TrimSpace (AppKey_String (app_Key a)) +:+
                " not compatible with trust policy: " +:+ TPEKey_String key)
        else
          pool ← STMGet region (O := ZonePool) (tk_ZonePoolKey key);
          match pool with
          | None => SErr (NotFoundError "ZonePool" (tk_ZonePoolKey key))
          | Some p =>
              if zp_DeletePrepare p then SErr (BeingDeletedError "ZonePool" (tk_ZonePoolKey key))
              else STMPut region in_
          end
    end.
Definition CreateTrustPolicyException (in_ : TrustPolicyException) : hprog :=
  let in_ := FixupSecurityRules in_ in
  match TPE_Validate ParseCIDR in_ with
  | Some err => HDone (Some err)
  | None =>
      HTxn (create_tpe_body (tpe_set_state STATE_APPROVAL_REQUESTED in_)) (λ r, HDone (err_of r))
  end.

Definition update_tpe_body (in_ : TrustPolicyException) : stm () :=
  let fmap := MakeFieldMap (tpe_Fields in_) in
  let rulesSpecified := HasOrHasChild fmap "4" in
  let stateSpecified := Has fmap "3" in
  cur ← STMGet region (tpe_Key in_);
  match cur with
  | None => SErr (NotFoundError "TrustPolicyException" (tpe_Key in_))
  | Some t =>
      if stateSpecified && bool_decide (tpe_State in_ ≠ STATE_ACTIVE ∧ tpe_State in_ ≠ STATE_REJECTED)
      then SErr "New state must be either Active or Rejected"
      else if rulesSpecified && bool_decide (tpe_State t ≠ STATE_APPROVAL_REQUESTED) then
        SErr "Can update security rules only when trust policy exception is still in approval requested state"
      else if negb stateSpecified && negb rulesSpecified then SRet ()
      else
        let '(t', changed) := TPE_CopyInFields t in_ in
        if decide (changed = 0%nat) then SRet ()
        else
          let t' := FixupSecurityRules t' in
          match TPE_Validate ParseCIDR t' with
          | Some err => SErr err
          | None => STMPut region t'
          end
  end.
(** The exception is applied after the body when its state changed. *)
Definition UpdateTrustPolicyException (in_ : TrustPolicyException) : hprog :=
  HTxn (update_tpe_body in_) (λ r, HDone (err_of r)).

Definition delete_tpe_body (key : TPEKey) : stm () :=
  cur ← STMGet region (O := TrustPolicyException) key;
  match cur with
  | None => SErr (NotFoundError "TrustPolicyException" key)
  | Some _ => STMDel region (O := TrustPolicyException) key
  end.
Definition DeleteTrustPolicyException (in_ : TrustPolicyException) : hprog :=
  HTxn (delete_tpe_body (tpe_Key in_)) (λ r, HDone (err_of r)).

(** The handlers, with any request; the requests of UpdateZonePool are those of
    [upd], since one that writes [DeletePrepare] (field 6) can clear the mark of
    a deletion in progress: see [refs_intact] and [pool_mark_cleared]. *)
Definition sets_mark (in_ : ZonePool) : bool := Has (MakeFieldMap (zp_Fields in_)) "6".
Inductive zone_api (upd : ZonePool → Prop) : hprog → Prop :=
| api_CreateZone ulid in_ : zone_api upd (CreateZone ulid in_)
| api_DeleteZone in_ : zone_api upd (DeleteZone in_)
| api_UpdateZone in_ : zone_api upd (UpdateZone in_)
| api_CreateZonePool t in_ : zone_api upd (CreateZonePool t in_)
| api_DeleteZonePool in_ : zone_api upd (DeleteZonePool in_)
| api_UpdateZonePool t in_ : upd in_ → zone_api upd (UpdateZonePool t in_)
| api_AddZonePoolMember in_ : zone_api upd (AddZonePoolMember in_)
| api_RemoveZonePoolMember in_ : zone_api upd (RemoveZonePoolMember in_)
| api_CreateAutoProvPolicy in_ : zone_api upd (CreateAutoProvPolicy in_)
| api_UpdateAutoProvPolicy in_ : zone_api upd (UpdateAutoProvPolicy in_)
| api_DeleteAutoProvPolicy in_ : zone_api upd (DeleteAutoProvPolicy in_)
| api_AddAutoProvPolicyZone in_ : zone_api upd (AddAutoProvPolicyZone in_)
| api_RemoveAutoProvPolicyZone in_ : zone_api upd (RemoveAutoProvPolicyZone in_)
| api_CreateTrustPolicyException in_ : zone_api upd (CreateTrustPolicyException in_)
| api_UpdateTrustPolicyException in_ : zone_api upd (UpdateTrustPolicyException in_)
| api_DeleteTrustPolicyException in_ : zone_api upd (DeleteTrustPolicyException in_).
End Api.
