(* ===== verification/ZoneRefs.v ===== *)
(** * References to zones and zone pools are kept

    The handlers of [ZoneApi] follow the protocol of [Stm]'s last section, with
    zones and pools as the targets; pools and policies refer to zones, trust
    policy exceptions to pools.  Pools are targets only when no request of
    UpdateZonePool writes their mark ([guarded]). *)

From S2P Require Export ZoneApi.
#[local] Open Scope Z_scope.

Section Refs.
Context (region : Z) {GR : GoRange}.
Context `{JZK : !Json ZoneKey, JPK : !Json ZonePoolKey, JPoK : !Json PolicyKey, JAK : !Json AppKey,
  JTK : !Json TPEKey, JCK : !Json CloudletKey, JZ : !Json Zone, JP : !Json ZonePool,
  JPo : !Json AutoProvPolicy, JA : !Json App, JT : !Json TrustPolicyException, JC : !Json Cloudlet}.
Context (ParseCIDR : string → option error) (AppKey_String : AppKey → string)
  (TPEKey_String : TPEKey → string).

Abbreviation zone_at := (obj_at region (O := Zone)).
Abbreviation pool_at := (obj_at region (O := ZonePool)).
Abbreviation policy_at := (obj_at region (O := AutoProvPolicy)).
Abbreviation tpe_at := (obj_at region (O := TrustPolicyException)).
Abbreviation api := (zone_api region ParseCIDR AppKey_String TPEKey_String).

(** ** The invariant *)

(** Values are objects under their keys, and the zones of a pool are of its
    organization. *)
Record zones_wf (f : snapshot) : Prop := {
  zw_zone : well_stored region (O := Zone) f;
  zw_pool : well_stored region (O := ZonePool) f;
  zw_policy : well_stored region (O := AutoProvPolicy) f;
  zw_tpe : well_stored region (O := TrustPolicyException) f;
  zw_org pk p zk : pool_at f pk = Some p → zk ∈ zp_Zones p →
    zk_Organization zk = zpk_Organization pk;
}.
(** What is referred to is there: the zones of pools and policies, and the
    pools of exceptions. *)
Record zones_intact (f : snapshot) : Prop := {
  in_pool pk p zk : pool_at f pk = Some p → zk ∈ zp_Zones p → ∃ z, zone_at f zk = Some z;
  in_policy pk p zk : policy_at f pk = Some p → zk ∈ ap_Zones p → ∃ z, zone_at f zk = Some z;
}.
Definition pools_intact (f : snapshot) : Prop :=
  ∀ tk t, tpe_at f tk = Some t → ∃ p, pool_at f (tk_ZonePoolKey tk) = Some p.

(** ** The protocol's view of the objects *)

Inductive target := TZone (k : ZoneKey) | TPool (k : ZonePoolKey).
Inductive referrer := RPool (k : ZonePoolKey) | RPolicy (k : PolicyKey) | RTPE (k : TPEKey).
#[global] Instance target_eq_dec : EqDecision target.
Proof. solve_decision. Defined.

(** [guarded]: nothing but a deletion writes the mark of a pool. *)
Definition t_exists (guarded : bool) (t : target) (f : snapshot) : Prop :=
  match t with
  | TZone k => ∃ z, zone_at f k = Some z
  | TPool k => guarded → ∃ p, pool_at f k = Some p
  end.
Definition t_prepared (guarded : bool) (t : target) (f : snapshot) : Prop :=
  match t with
  | TZone k => ∃ z, zone_at f k = Some z ∧ z_DeletePrepare z = true
  | TPool k => guarded ∧ ∃ p, pool_at f k = Some p ∧ zp_DeletePrepare p = true
  end.
Definition t_uses (u : referrer) (t : target) (f : snapshot) : Prop :=
  match u, t with
  | RPool pk, TZone zk => ∃ p, pool_at f pk = Some p ∧ zk ∈ zp_Zones p
  | RPolicy pk, TZone zk => ∃ p, policy_at f pk = Some p ∧ zk ∈ ap_Zones p
  | RTPE tk, TPool pk => (∃ t, tpe_at f tk = Some t) ∧ tk_ZonePoolKey tk = pk
  | _, _ => False
  end.

(** ** What a write of one type does to the objects of the four *)

Abbreviation zone_write k v f := (after {[obj_key region (O := Zone) k := v]} f).
Abbreviation pool_write k v f := (after {[obj_key region (O := ZonePool) k := v]} f).
Abbreviation policy_write k v f := (after {[obj_key region (O := AutoProvPolicy) k := v]} f).
Abbreviation tpe_write k v f := (after {[obj_key region (O := TrustPolicyException) k := v]} f).

(** The other types. *)
Record same_but_zones (f f' : snapshot) : Prop := {
  sz_pool k : pool_at f' k = pool_at f k;
  sz_policy k : policy_at f' k = policy_at f k;
  sz_tpe k : tpe_at f' k = tpe_at f k }.
Record same_but_pools (f f' : snapshot) : Prop := {
  sp_zone k : zone_at f' k = zone_at f k;
  sp_policy k : policy_at f' k = policy_at f k;
  sp_tpe k : tpe_at f' k = tpe_at f k }.
Record same_but_policies (f f' : snapshot) : Prop := {
  so_zone k : zone_at f' k = zone_at f k;
  so_pool k : pool_at f' k = pool_at f k;
  so_tpe k : tpe_at f' k = tpe_at f k }.
Record same_but_tpes (f f' : snapshot) : Prop := {
  st_zone k : zone_at f' k = zone_at f k;
  st_pool k : pool_at f' k = pool_at f k;
  st_policy k : policy_at f' k = policy_at f k }.

Lemma zone_write_others f k v : same_but_zones f (zone_write k v f).
Proof.
  split; intros k'.
  - refine (obj_at_other region (O := ZonePool) (O' := Zone) _ f k' k v). by intros [=].
  - refine (obj_at_other region (O := AutoProvPolicy) (O' := Zone) _ f k' k v). by intros [=].
  - refine (obj_at_other region (O := TrustPolicyException) (O' := Zone) _ f k' k v). by intros [=].
Qed.
Lemma pool_write_others f k v : same_but_pools f (pool_write k v f).
Proof.
  split; intros k'.
  - refine (obj_at_other region (O := Zone) (O' := ZonePool) _ f k' k v). by intros [=].
  - refine (obj_at_other region (O := AutoProvPolicy) (O' := ZonePool) _ f k' k v). by intros [=].
  - refine (obj_at_other region (O := TrustPolicyException) (O' := ZonePool) _ f k' k v). by intros [=].
Qed.
Lemma policy_write_others f k v : same_but_policies f (policy_write k v f).
Proof.
  split; intros k'.
  - refine (obj_at_other region (O := Zone) (O' := AutoProvPolicy) _ f k' k v). by intros [=].
  - refine (obj_at_other region (O := ZonePool) (O' := AutoProvPolicy) _ f k' k v). by intros [=].
  - refine (obj_at_other region (O := TrustPolicyException) (O' := AutoProvPolicy) _ f k' k v). by intros [=].
Qed.
Lemma tpe_write_others f k v : same_but_tpes f (tpe_write k v f).
Proof.
  split; intros k'.
  - refine (obj_at_other region (O := Zone) (O' := TrustPolicyException) _ f k' k v). by intros [=].
  - refine (obj_at_other region (O := ZonePool) (O' := TrustPolicyException) _ f k' k v). by intros [=].
  - refine (obj_at_other region (O := AutoProvPolicy) (O' := TrustPolicyException) _ f k' k v). by intros [=].
Qed.
(** The type itself. *)
Lemma zone_at_put f z k :
  zone_at (zone_write (z_Key z) (Marshal z) f) k = if decide (k = z_Key z) then Some z else zone_at f k.
Proof. exact (obj_at_put region f z k). Qed.
Lemma zone_at_del f k' k :
  zone_at (zone_write k' "" f) k = if decide (k = k') then None else zone_at f k.
Proof. exact (obj_at_del region f k k'). Qed.
Lemma pool_at_put f p k :
  pool_at (pool_write (zp_Key p) (Marshal p) f) k = if decide (k = zp_Key p) then Some p else pool_at f k.
Proof. exact (obj_at_put region f p k). Qed.
Lemma pool_at_del f k' k :
  pool_at (pool_write k' "" f) k = if decide (k = k') then None else pool_at f k.
Proof. exact (obj_at_del region f k k'). Qed.
Lemma policy_at_put f p k :
  policy_at (policy_write (ap_Key p) (Marshal p) f) k = if decide (k = ap_Key p) then Some p else policy_at f k.
Proof. exact (obj_at_put region f p k). Qed.
Lemma policy_at_del f k' k :
  policy_at (policy_write k' "" f) k = if decide (k = k') then None else policy_at f k.
Proof. exact (obj_at_del region f k k'). Qed.
Lemma tpe_at_put f t k :
  tpe_at (tpe_write (tpe_Key t) (Marshal t) f) k = if decide (k = tpe_Key t) then Some t else tpe_at f k.
Proof. exact (obj_at_put region f t k). Qed.
Lemma tpe_at_del f k' k :
  tpe_at (tpe_write k' "" f) k = if decide (k = k') then None else tpe_at f k.
Proof. exact (obj_at_del region f k k'). Qed.

(** The invariant of the values, over a put and a delete of each type. *)
Definition pool_orgs (p : ZonePool) : Prop :=
  ∀ zk, zk ∈ zp_Zones p → zk_Organization zk = zpk_Organization (zp_Key p).
Lemma zones_wf_frame f f' :
  (∀ k, pool_at f' k = pool_at f k) →
  well_stored region (O := Zone) f' → well_stored region (O := ZonePool) f' →
  well_stored region (O := AutoProvPolicy) f' → well_stored region (O := TrustPolicyException) f' →
  zones_wf f → zones_wf f'.
Proof. intros Hp ? ? ? ? [_ _ _ _ Ho]. split; try done. intros pk p zk. rewrite Hp. apply Ho. Qed.
Lemma wf_zone_put f z : zones_wf f → zones_wf (zone_write (z_Key z) (Marshal z) f).
Proof.
  intros Hwf. pose proof Hwf as [Hw_zone Hw_pool Hw_policy Hw_tpe Ho].
  eapply zones_wf_frame; [exact (sz_pool _ _ (zone_write_others f _ _))|..|done].
  - exact (well_stored_put region (O := Zone) f z Hw_zone).
  - refine (well_stored_other region (O := ZonePool) (O' := Zone) _ f _ _ Hw_pool). by intros [=].
  - refine (well_stored_other region (O := AutoProvPolicy) (O' := Zone) _ f _ _ Hw_policy). by intros [=].
  - refine (well_stored_other region (O := TrustPolicyException) (O' := Zone) _ f _ _ Hw_tpe). by intros [=].
Qed.
Lemma wf_zone_del f k : zones_wf f → zones_wf (zone_write k "" f).
Proof.
  intros Hwf. pose proof Hwf as [Hw_zone Hw_pool Hw_policy Hw_tpe Ho].
  eapply zones_wf_frame; [exact (sz_pool _ _ (zone_write_others f _ _))|..|done].
  - exact (well_stored_del region (O := Zone) f k Hw_zone).
  - refine (well_stored_other region (O := ZonePool) (O' := Zone) _ f _ _ Hw_pool). by intros [=].
  - refine (well_stored_other region (O := AutoProvPolicy) (O' := Zone) _ f _ _ Hw_policy). by intros [=].
  - refine (well_stored_other region (O := TrustPolicyException) (O' := Zone) _ f _ _ Hw_tpe). by intros [=].
Qed.
Lemma wf_pool_put f p : pool_orgs p → zones_wf f → zones_wf (pool_write (zp_Key p) (Marshal p) f).
Proof.
  intros Horg Hwf. pose proof Hwf as [Hw_zone Hw_pool Hw_policy Hw_tpe Ho].
  split.
  - refine (well_stored_other region (O := Zone) (O' := ZonePool) _ f _ _ Hw_zone). by intros [=].
  - exact (well_stored_put region (O := ZonePool) f p Hw_pool).
  - refine (well_stored_other region (O := AutoProvPolicy) (O' := ZonePool) _ f _ _ Hw_policy). by intros [=].
  - refine (well_stored_other region (O := TrustPolicyException) (O' := ZonePool) _ f _ _ Hw_tpe). by intros [=].
  - intros pk p' zk Hp. rewrite pool_at_put in Hp. case_decide; [|by eapply Ho].
    injection Hp as <-. subst pk. apply Horg.
Qed.
Lemma wf_pool_del f k : zones_wf f → zones_wf (pool_write k "" f).
Proof.
  intros Hwf. pose proof Hwf as [Hw_zone Hw_pool Hw_policy Hw_tpe Ho].
  split.
  - refine (well_stored_other region (O := Zone) (O' := ZonePool) _ f _ _ Hw_zone). by intros [=].
  - exact (well_stored_del region (O := ZonePool) f k Hw_pool).
  - refine (well_stored_other region (O := AutoProvPolicy) (O' := ZonePool) _ f _ _ Hw_policy). by intros [=].
  - refine (well_stored_other region (O := TrustPolicyException) (O' := ZonePool) _ f _ _ Hw_tpe). by intros [=].
  - intros pk p' zk Hp. rewrite pool_at_del in Hp. case_decide; [done|]. by eapply Ho.
Qed.
Lemma wf_policy_put f p : zones_wf f → zones_wf (policy_write (ap_Key p) (Marshal p) f).
Proof.
  intros Hwf. pose proof Hwf as [Hw_zone Hw_pool Hw_policy Hw_tpe Ho].
  eapply zones_wf_frame; [exact (so_pool _ _ (policy_write_others f _ _))|..|done].
  - refine (well_stored_other region (O := Zone) (O' := AutoProvPolicy) _ f _ _ Hw_zone). by intros [=].
  - refine (well_stored_other region (O := ZonePool) (O' := AutoProvPolicy) _ f _ _ Hw_pool). by intros [=].
  - exact (well_stored_put region (O := AutoProvPolicy) f p Hw_policy).
  - refine (well_stored_other region (O := TrustPolicyException) (O' := AutoProvPolicy) _ f _ _ Hw_tpe). by intros [=].
Qed.
Lemma wf_policy_del f k : zones_wf f → zones_wf (policy_write k "" f).
Proof.
  intros Hwf. pose proof Hwf as [Hw_zone Hw_pool Hw_policy Hw_tpe Ho].
  eapply zones_wf_frame; [exact (so_pool _ _ (policy_write_others f _ _))|..|done].
  - refine (well_stored_other region (O := Zone) (O' := AutoProvPolicy) _ f _ _ Hw_zone). by intros [=].
  - refine (well_stored_other region (O := ZonePool) (O' := AutoProvPolicy) _ f _ _ Hw_pool). by intros [=].
  - exact (well_stored_del region (O := AutoProvPolicy) f k Hw_policy).
  - refine (well_stored_other region (O := TrustPolicyException) (O' := AutoProvPolicy) _ f _ _ Hw_tpe). by intros [=].
Qed.
Lemma wf_tpe_put f t : zones_wf f → zones_wf (tpe_write (tpe_Key t) (Marshal t) f).
Proof.
  intros Hwf. pose proof Hwf as [Hw_zone Hw_pool Hw_policy Hw_tpe Ho].
  eapply zones_wf_frame; [exact (st_pool _ _ (tpe_write_others f _ _))|..|done].
  - refine (well_stored_other region (O := Zone) (O' := TrustPolicyException) _ f _ _ Hw_zone). by intros [=].
  - refine (well_stored_other region (O := ZonePool) (O' := TrustPolicyException) _ f _ _ Hw_pool). by intros [=].
  - refine (well_stored_other region (O := AutoProvPolicy) (O' := TrustPolicyException) _ f _ _ Hw_policy). by intros [=].
  - exact (well_stored_put region (O := TrustPolicyException) f t Hw_tpe).
Qed.
Lemma wf_tpe_del f k : zones_wf f → zones_wf (tpe_write k "" f).
Proof.
  intros Hwf. pose proof Hwf as [Hw_zone Hw_pool Hw_policy Hw_tpe Ho].
  eapply zones_wf_frame; [exact (st_pool _ _ (tpe_write_others f _ _))|..|done].
  - refine (well_stored_other region (O := Zone) (O' := TrustPolicyException) _ f _ _ Hw_zone). by intros [=].
  - refine (well_stored_other region (O := ZonePool) (O' := TrustPolicyException) _ f _ _ Hw_pool). by intros [=].
  - refine (well_stored_other region (O := AutoProvPolicy) (O' := TrustPolicyException) _ f _ _ Hw_policy). by intros [=].
  - exact (well_stored_del region (O := TrustPolicyException) f k Hw_tpe).
Qed.

(** ** Commits that follow the protocol *)

Section Protocol.
Context (guarded : bool).
Abbreviation ok := (commit_ok (t_exists guarded) (t_prepared guarded) t_uses zones_wf).
Abbreviation follows := (protocol (t_exists guarded) (t_prepared guarded) t_uses zones_wf).
Abbreviation deleting := (option (target * (referrer → Prop))).
Abbreviation intact_refs := (refs_ok (t_exists guarded) t_uses).

Lemma intact_refs_ok f : zones_intact f ∧ (guarded → pools_intact f) ↔ intact_refs f.
Proof.
  split.
  - intros [[H1 H2] H3] u t Hu. destruct u, t; simpl in Hu |- *; try done.
    + destruct Hu as (p & Hp & Hin). exact (H1 _ p _ Hp Hin).
    + destruct Hu as (p & Hp & Hin). exact (H2 _ p _ Hp Hin).
    + destruct Hu as [[t Ht] <-]. intros Hg. exact (H3 Hg _ t Ht).
  - intros Hr. split; [split|].
    + intros pk p zk Hp Hin. apply (Hr (RPool pk) (TZone zk)). by exists p.
    + intros pk p zk Hp Hin. apply (Hr (RPolicy pk) (TZone zk)). by exists p.
    + intros Hg tk t Ht. apply (Hr (RTPE tk) (TPool (tk_ZonePoolKey tk))); [|done].
      split; [by exists t|done].
Qed.


Lemma ok_zone_put own f z own' :
  zones_wf f →
  (∀ z0, zone_at f (z_Key z) = Some z0 → z_DeletePrepare z0 = true →
     z_DeletePrepare z = true ∨ ∃ b, own = Some (TZone (z_Key z), b)) →
  (own' = None ∨ own' = Some (TZone (z_Key z), λ _, False) ∧ z_DeletePrepare z = true ∧
     ∀ z0, zone_at f (z_Key z) = Some z0 → z_DeletePrepare z0 = false) →
  ok own f (zone_write (z_Key z) (Marshal z) f) own'.
Proof.
  intros Hwf Hprep Hown. destruct (zone_write_others f (z_Key z) (Marshal z)) as [Hp Hpo Ht].
  split; [by apply wf_zone_put|..].
  - intros u t Hu. left. destruct u, t; simpl in Hu |- *; try done;
      by rewrite ?Hp, ?Hpo, ?Ht in Hu.
  - intros [k|k] Hk; left; simpl in Hk |- *; [|by rewrite Hp].
    rewrite zone_at_put. case_decide; [by eexists|done].
  - intros [k|k] Hk; simpl in Hk |- *; [|left; by rewrite Hp].
    rewrite zone_at_put. destruct Hk as (z0 & Hz0 & Hd). case_decide as Hk.
    + subst k. destruct (Hprep z0 Hz0 Hd) as [?|?]; [left; by exists z|by right].
    + left. by exists z0.
  - intros t b ->. destruct Hown as [?|([= -> ->] & Hd & Hnone)]; [done|]. split.
    + simpl. rewrite zone_at_put, decide_True by done. by exists z.
    + right. split; [tauto|]. simpl. intros (z0 & Hz0 & Hd0). by rewrite (Hnone z0 Hz0) in Hd0.
Qed.
Lemma ok_zone_del f k b :
  zones_wf f → (∀ u, b u) → ok (Some (TZone k, b)) f (zone_write k "" f) None.
Proof.
  intros Hwf Hb. destruct (zone_write_others f k "") as [Hp Hpo Ht].
  split; [by apply wf_zone_del|..].
  - intros u t Hu. left. destruct u, t; simpl in Hu |- *; try done;
      by rewrite ?Hp, ?Hpo, ?Ht in Hu.
  - intros [k'|k'] Hk; simpl in Hk |- *; [|left; by rewrite Hp].
    rewrite zone_at_del. case_decide; [right; subst; by exists b|by left].
  - intros [k'|k'] Hk; simpl in Hk |- *; [|left; by rewrite Hp].
    rewrite zone_at_del. case_decide; [right; subst; by eexists|by left].
  - done.
Qed.

(** A zone a pool or a policy may refer to from now on. *)
Definition usable_zone (f : snapshot) (zk : ZoneKey) : Prop :=
  ∃ z, zone_at f zk = Some z ∧ z_DeletePrepare z = false.
Lemma usable_zone_ok f zk : usable_zone f zk → t_exists guarded (TZone zk) f ∧ ¬ t_prepared guarded (TZone zk) f.
Proof.
  intros (z & Hz & Hd). split; [by exists z|]. intros (z' & Hz' & Hd'). congruence.
Qed.

Lemma ok_pool_put own f p own' :
  zones_wf f → pool_orgs p →
  (∀ zk, zk ∈ zp_Zones p → usable_zone f zk ∨
     ∃ p0, pool_at f (zp_Key p) = Some p0 ∧ zk ∈ zp_Zones p0) →
  (guarded → ∀ p0, pool_at f (zp_Key p) = Some p0 → zp_DeletePrepare p0 = true →
     zp_DeletePrepare p = true ∨ ∃ b, own = Some (TPool (zp_Key p), b)) →
  (own' = None ∨ own' = Some (TPool (zp_Key p), λ _, False) ∧ guarded ∧ zp_DeletePrepare p = true ∧
     ∀ p0, pool_at f (zp_Key p) = Some p0 → zp_DeletePrepare p0 = false) →
  ok own f (pool_write (zp_Key p) (Marshal p) f) own'.
Proof.
  intros Hwf Horgs Hzones Hprep Hown.
  destruct (pool_write_others f (zp_Key p) (Marshal p)) as [Hz Hpo Ht].
  split; [by apply wf_pool_put|..].
  - intros u t Hu. destruct u as [pk| |], t as [zk|]; simpl in Hu |- *; try done;
      rewrite ?Hpo, ?Ht in Hu; try by left.
    rewrite pool_at_put in Hu. case_decide as Hk; [|by left].
    destruct Hu as (p' & [= <-] & Hin). subst pk.
    destruct (Hzones zk Hin) as [?|?]; [right; by apply usable_zone_ok|by left].
  - intros [k|k] Hk; left; simpl in Hk |- *; [by rewrite Hz|].
    intros Hg. rewrite pool_at_put. case_decide; [by eexists|by apply Hk].
  - intros [k|k] Hk; simpl in Hk |- *; [left; by rewrite Hz|].
    rewrite pool_at_put. destruct Hk as (Hg & p0 & Hp0 & Hd). case_decide as Hk.
    + subst k. destruct (Hprep Hg p0 Hp0 Hd) as [?|?]; [left; split; [done|by exists p]|by right].
    + left. split; [done|by exists p0].
  - intros t b ->. destruct Hown as [?|([= -> ->] & Hg & Hd & Hnone)]; [done|]. split.
    + simpl. rewrite pool_at_put, decide_True by done. split; [done|by exists p].
    + right. split; [tauto|]. simpl. intros (_ & p0 & Hp0 & Hd0). by rewrite (Hnone p0 Hp0) in Hd0.
Qed.
(** What a deletion of a pool owns. *)
Definition pool_own (k : ZonePoolKey) (b : referrer → Prop) : deleting :=
  if guarded then Some (TPool k, b) else None.
Lemma ok_pool_del f k b :
  zones_wf f → (∀ u, b u) → ok (pool_own k b) f (pool_write k "" f) None.
Proof.
  unfold pool_own. intros Hwf Hb. destruct (pool_write_others f k "") as [Hz Hpo Ht].
  split; [by apply wf_pool_del|..].
  - intros u t Hu. left. destruct u, t; simpl in Hu |- *; try done;
      rewrite ?Hpo, ?Ht in Hu; try done.
    rewrite pool_at_del in Hu. case_decide; [|done]. by destruct Hu as (? & ? & _).
  - intros [k'|k'] Hk; simpl in Hk |- *; [left; by rewrite Hz|].
    rewrite pool_at_del. destruct guarded; [|by left].
    case_decide; [right; subst; by exists b|by left].
  - intros [k'|k'] Hk; simpl in Hk |- *; [left; by rewrite Hz|]. destruct Hk as [Hg Hk].
    rewrite pool_at_del. destruct guarded; [|done].
    case_decide; [right; subst; by eexists|by left].
  - done.
Qed.

(** Policies and exceptions are no targets. *)
Lemma ok_policy_put own f p :
  zones_wf f →
  (∀ zk, zk ∈ ap_Zones p → usable_zone f zk ∨
     ∃ p0, policy_at f (ap_Key p) = Some p0 ∧ zk ∈ ap_Zones p0) →
  ok own f (policy_write (ap_Key p) (Marshal p) f) None.
Proof.
  intros Hwf Hzones. destruct (policy_write_others f (ap_Key p) (Marshal p)) as [Hz Hp Ht].
  split; [by apply wf_policy_put|..|done].
  - intros u t Hu. destruct u as [|pk|], t as [zk|]; simpl in Hu |- *; try done;
      rewrite ?Hp, ?Ht in Hu; try by left.
    rewrite policy_at_put in Hu. case_decide as Hk; [|by left].
    destruct Hu as (p' & [= <-] & Hin). subst pk.
    destruct (Hzones zk Hin) as [?|?]; [right; by apply usable_zone_ok|by left].
  - intros [k|k] Hk; left; simpl in Hk |- *; by rewrite ?Hz, ?Hp.
  - intros [k|k] Hk; left; simpl in Hk |- *; by rewrite ?Hz, ?Hp.
Qed.
Lemma ok_policy_del own f k : zones_wf f → ok own f (policy_write k "" f) None.
Proof.
  intros Hwf. destruct (policy_write_others f k "") as [Hz Hp Ht].
  split; [by apply wf_policy_del|..|done].
  - intros u t Hu. left. destruct u, t; simpl in Hu |- *; try done;
      rewrite ?Hp, ?Ht in Hu; try done.
    rewrite policy_at_del in Hu. case_decide; [|done]. by destruct Hu as (? & ? & _).
  - intros [k'|k'] Hk; left; simpl in Hk |- *; by rewrite ?Hz, ?Hp.
  - intros [k'|k'] Hk; left; simpl in Hk |- *; by rewrite ?Hz, ?Hp.
Qed.
Lemma ok_tpe_put own f t :
  zones_wf f →
  (∃ t0, tpe_at f (tpe_Key t) = Some t0) ∨
  (∃ p, pool_at f (tk_ZonePoolKey (tpe_Key t)) = Some p ∧ zp_DeletePrepare p = false) →
  ok own f (tpe_write (tpe_Key t) (Marshal t) f) None.
Proof.
  intros Hwf Hpool. destruct (tpe_write_others f (tpe_Key t) (Marshal t)) as [Hz Hp Hpo].
  split; [by apply wf_tpe_put|..|done].
  - intros u t' Hu. destruct u as [| |tk], t' as [|pk]; simpl in Hu |- *; try done;
      rewrite ?Hp, ?Hpo in Hu; try by left.
    rewrite tpe_at_put in Hu. destruct Hu as [Hu <-]. case_decide as Hk; [|left; done].
    subst tk. destruct Hpool as [?|(p & Hp' & Hd)]; [by left|right].
    split; [by exists p|]. intros (_ & p' & Hp0 & Hd'). congruence.
  - intros [k|k] Hk; left; simpl in Hk |- *; by rewrite ?Hz, ?Hp.
  - intros [k|k] Hk; left; simpl in Hk |- *; by rewrite ?Hz, ?Hp.
Qed.
Lemma ok_tpe_del own f k : zones_wf f → ok own f (tpe_write k "" f) None.
Proof.
  intros Hwf. destruct (tpe_write_others f k "") as [Hz Hp Hpo].
  split; [by apply wf_tpe_del|..|done].
  - intros u t' Hu. left. destruct u, t'; simpl in Hu |- *; try done;
      rewrite ?Hp, ?Hpo in Hu; try done.
    rewrite tpe_at_del in Hu. case_decide; [|done]. by destruct Hu as [[? ?] _].
  - intros [k'|k'] Hk; left; simpl in Hk |- *; by rewrite ?Hz, ?Hp.
  - intros [k'|k'] Hk; left; simpl in Hk |- *; by rewrite ?Hz, ?Hp.
Qed.

(** ** Bodies *)

(** What a body must do that a handler owning [own] runs last. *)
Definition body_ok {A} (own : deleting) (m : stm A) : Prop :=
  ∀ f a w, zones_wf f → intact_refs f → knows (t_prepared guarded) t_uses own f →
    stm_pure f ∅ m = (Ok a, w) → w ≠ ∅ → ok own f (after w f) None.
Lemma follows_last {A} own (m : stm A) (g : result A → option error) :
  body_ok own m → follows own (HTxn m (λ r, HDone (g r))).
Proof.
  intros Hm. exists (λ _, None). split; [|done]. intros f a w Hwf Hr Hk Hp Hw.
  split; [|done]. by eapply Hm.
Qed.

(** One step of the run of a body, in a hypothesis. *)
Ltac step H :=
  first [rewrite pure_STMGet in H | rewrite pure_STMHas in H
        | rewrite pure_STMPut in H | rewrite pure_STMDel in H];
  cbn [stm_pure] in H.
Ltac body := intros f a w Hwf Hrefs Hknows Hrun Hne.
(** A put or delete whose run is known. *)
Ltac written H :=
  let Ha := fresh in let Hw := fresh in step H; injection H as Ha Hw; rewrite <- Hw.

Lemma zone_key f k z : zones_wf f → zone_at f k = Some z → z_Key z = k.
Proof.
  intros Hwf Hz. destruct (zw_zone f Hwf k) as (z' & Hz' & Hk); [by eapply obj_at_has|].
  assert (z' = z) as -> by congruence. exact Hk.
Qed.
Lemma pool_key f k p : zones_wf f → pool_at f k = Some p → zp_Key p = k.
Proof.
  intros Hwf Hp. destruct (zw_pool f Hwf k) as (p' & Hp' & Hk); [by eapply obj_at_has|].
  assert (p' = p) as -> by congruence. exact Hk.
Qed.
Lemma policy_key f k p : zones_wf f → policy_at f k = Some p → ap_Key p = k.
Proof.
  intros Hwf Hp. destruct (zw_policy f Hwf k) as (p' & Hp' & Hk); [by eapply obj_at_has|].
  assert (p' = p) as -> by congruence. exact Hk.
Qed.
Lemma tpe_key f k t : zones_wf f → tpe_at f k = Some t → tpe_Key t = k.
Proof.
  intros Hwf Ht. destruct (zw_tpe f Hwf k) as (t' & Ht' & Hk); [by eapply obj_at_has|].
  assert (t' = t) as -> by congruence. exact Hk.
Qed.

Lemma create_zone_ok ulid in_ : body_ok None (create_zone_body region ulid in_).
Proof.
  body. unfold create_zone_body in Hrun. step Hrun. case_bool_decide as Hhas; [done|].
  written Hrun. apply (ok_zone_put None f (zone_set_id (to_lower ulid) in_)); [done| |by left].
  intros z0 Hz0 _. destruct Hhas. by eapply obj_at_has.
Qed.
Lemma update_zone_ok in_ : body_ok None (update_zone_body region in_).
Proof.
  body. unfold update_zone_body in Hrun. step Hrun.
  destruct (obj_at region f (z_Key in_)) as [z|] eqn:Hz; [|done].
  destruct (z_DeletePrepare z) eqn:Hd; [done|].
  destruct (Zone_CopyInFields z in_) as [z' n] eqn:Hc. case_decide; [by simplify_eq/=|].
  written Hrun. apply (ok_zone_put None f z'); [done| |by left].
  pose proof (Zone_CopyInFields_key z in_ (zone_key _ _ _ Hwf Hz)) as Hk.
  rewrite Hc in Hk. simpl in Hk. rewrite Hk. intros z0 Hz0 Hd0. congruence.
Qed.

Lemma checkZonesExist_loop_ok f org zones nf r w :
  stm_pure f ∅ (checkZonesExist_loop region org zones nf) = (r, w) →
  w = ∅ ∧ ∀ zs, r = Ok zs → zs = set_org org <$> zones ∧ nf = [] ∧ ∀ zk, zk ∈ zs → usable_zone f zk.
Proof.
  revert nf r w. induction zones as [|k zones IH]; intros nf r w Hrun.
  { simpl in Hrun. destruct nf; simplify_eq/=; split; try done. intros zs [= <-].
    split_and!; [done|done|]. by intros zk ?%elem_of_nil. }
  cbn [checkZonesExist_loop] in Hrun. step Hrun.
  destruct (obj_at region f (set_org org k)) as [z|] eqn:Hz.
  - destruct (z_DeletePrepare z) eqn:Hd; [by simplify_eq/=|].
    rewrite stm_pure_bind in Hrun.
    destruct (stm_pure f ∅ (checkZonesExist_loop region org zones nf)) as [r' w'] eqn:Hr'.
    destruct (IH _ _ _ Hr') as [-> Hok]. destruct r' as [zs'|e]; simplify_eq/=; split; try done.
    intros zs [= <-]. destruct (Hok zs' eq_refl) as (-> & -> & Hall). split_and!; [done|done|].
    intros zk [->|Hin]%elem_of_cons; [by exists z|by apply Hall].
  - rewrite stm_pure_bind in Hrun.
    destruct (stm_pure f ∅ (checkZonesExist_loop region org zones _)) as [r' w'] eqn:Hr'.
    destruct (IH _ _ _ Hr') as [-> Hok]. destruct r' as [zs'|e]; simplify_eq/=; split; try done.
    intros zs [= <-]. destruct (Hok zs' eq_refl) as (_ & Hnf & _). by destruct nf.
Qed.
Lemma checkZonesExist_ok f p r w :
  stm_pure f ∅ (checkZonesExist region p) = (r, w) →
  w = ∅ ∧ ∀ p', r = Ok p' → p' = pool_set_orgs p ∧ ∀ zk, zk ∈ zp_Zones p' → usable_zone f zk.
Proof.
  unfold checkZonesExist. rewrite stm_pure_bind.
  destruct (stm_pure f ∅ (checkZonesExist_loop _ _ _ _)) as [r' w'] eqn:Hr.
  destruct (checkZonesExist_loop_ok _ _ _ _ _ _ Hr) as [-> Hok].
  destruct r' as [zs|e]; intros ?; simplify_eq/=; split; try done.
  intros p' [= <-]. by destruct (Hok zs eq_refl) as (-> & _ & Hall).
Qed.
Lemma pool_set_orgs_orgs p : pool_orgs (pool_set_orgs p).
Proof. intros zk. simpl. by intros (k & -> & _)%list_elem_of_fmap. Qed.

(** A put of a pool after the check. *)
Lemma ok_checked_pool f p p' :
  zones_wf f → p' = pool_set_orgs p → (∀ zk, zk ∈ zp_Zones p' → usable_zone f zk) →
  (guarded → ∀ p0, pool_at f (zp_Key p) = Some p0 → zp_DeletePrepare p0 = true →
     zp_DeletePrepare p = true) →
  ok None f (pool_write (zp_Key p') (Marshal p') f) None.
Proof.
  intros Hwf -> Hall Hprep. apply ok_pool_put; [done|apply pool_set_orgs_orgs| |..].
  - intros zk Hin. left. by apply Hall.
  - intros Hg p0 Hp0 Hd. left. by apply (Hprep Hg p0).
  - by left.
Qed.

Lemma create_pool_ok t in_ : body_ok None (create_pool_body region t in_).
Proof.
  body. unfold create_pool_body in Hrun. step Hrun. case_bool_decide as Hhas; [done|].
  rewrite stm_pure_bind in Hrun.
  destruct (stm_pure f ∅ (checkZonesExist _ _)) as [r' w'] eqn:Hr.
  destruct (checkZonesExist_ok _ _ _ _ Hr) as [-> Hok]. destruct r' as [p'|]; [|done].
  destruct (Hok p' eq_refl) as [-> Hall]. written Hrun.
  apply (ok_checked_pool f (pool_created t (pool_set_orgs in_))
    (pool_created t (pool_set_orgs (pool_set_orgs in_)))); [done|done|done|].
  intros _ p0 Hp0 _. destruct Hhas. by eapply obj_at_has.
Qed.
Lemma update_pool_ok t in_ tpe :
  (guarded → sets_mark in_ = false) → body_ok None (update_pool_body region t in_ tpe).
Proof.
  intros H6. body. unfold update_pool_body in Hrun. step Hrun.
  destruct (obj_at region f (zp_Key in_)) as [p|] eqn:Hp; [|done].
  destruct (ZonePool_CopyInFields_spec p (pool_set_orgs in_)) as (Hk & Hz & Hd);
    [exact (pool_key _ _ _ Hwf Hp)|].
  destruct (ZonePool_CopyInFields p (pool_set_orgs in_)) as [p1 n]. cbn [fst] in Hk, Hz, Hd.
  cbn [pool_set_orgs pool_set_zones zp_Fields zp_Key] in Hk, Hd.
  destruct (ZonePool_Validate p1); [done|]. case_decide; [by simplify_eq/=|].
  rewrite stm_pure_bind in Hrun.
  destruct (stm_pure f ∅ (checkZonesExist _ _)) as [r' w'] eqn:Hr.
  destruct (checkZonesExist_ok _ _ _ _ Hr) as [-> Hok]. destruct r' as [p'|]; [|done].
  destruct (Hok p' eq_refl) as [-> Hall]. destruct tpe; [done|]. written Hrun.
  apply (ok_checked_pool f (pool_updated t p1) (pool_updated t (pool_set_orgs p1))); [done|done|done|].
  intros Hg p0 Hp0 Hd0. cbn [pool_updated zp_Key zp_DeletePrepare] in Hp0 |- *. rewrite Hk in Hp0.
  specialize (H6 Hg). unfold sets_mark in H6. rewrite H6 in Hd. rewrite Hd. congruence.
Qed.
Lemma add_member_ok in_ : body_ok None (add_member_body region in_).
Proof.
  body. unfold add_member_body in Hrun. step Hrun.
  destruct (obj_at region f (zpm_Key in_)) as [p|] eqn:Hp; [|done].
  cbv zeta in Hrun. case_decide; [done|]. rewrite stm_pure_bind in Hrun.
  destruct (stm_pure f ∅ (checkZonesExist _ _)) as [r' w'] eqn:Hr.
  destruct (checkZonesExist_ok _ _ _ _ Hr) as [-> Hok]. destruct r' as [p'|]; [|done].
  destruct (Hok p' eq_refl) as [-> Hall]. written Hrun.
  set (zone := set_org (zpk_Organization (zpm_Key in_)) (zpm_Zone in_)) in *.
  apply (ok_checked_pool f (pool_set_zones (zp_Zones p ++ [zone]) p)
    (pool_set_orgs (pool_set_zones (zp_Zones p ++ [zone]) p))); [done|done|done|].
  intros _ p0 Hp0 Hd. cbn [pool_set_zones zp_Key zp_DeletePrepare] in Hp0 |- *.
  rewrite (pool_key _ _ _ Hwf Hp) in Hp0. congruence.
Qed.
Lemma elem_of_remove_first {A} `{EqDecision A} (x y : A) l l' :
  remove_first x l = Some l' → y ∈ l' → y ∈ l.
Proof.
  revert l'. induction l as [|z l IH]; intros l'; simpl; [done|]. case_decide.
  - intros [= ->] Hy. by right.
  - intros (l1 & Hl1 & ->)%fmap_Some [->|Hy]%elem_of_cons; [by left|right; by eapply IH].
Qed.
Lemma remove_member_ok in_ : body_ok None (remove_member_body region in_).
Proof.
  body. unfold remove_member_body in Hrun. step Hrun.
  destruct (obj_at region f (zpm_Key in_)) as [p|] eqn:Hp; [|done]. cbv zeta in Hrun.
  destruct (remove_first _ _) as [zs|] eqn:Hzs; [|by simplify_eq/=].
  pose proof (pool_key _ _ _ Hwf Hp) as Hk. written Hrun.
  apply (ok_pool_put None f (pool_set_zones zs p)); [done| | | |by left].
  - intros zk Hin. simpl. rewrite Hk. eapply zw_org; [done|exact Hp|]. by eapply elem_of_remove_first.
  - intros zk Hin. right. exists p. simpl. rewrite Hk. split; [done|]. by eapply elem_of_remove_first.
  - intros _ p0 Hp0 Hd. left. simpl in Hp0 |- *. rewrite Hk in Hp0. congruence.
Qed.

Lemma configureZones_loop_ok f zones dups r w :
  stm_pure f ∅ (configureZones_loop region zones dups) = (r, w) →
  w = ∅ ∧ (is_ok r = true → ∀ zk, zk ∈ zones → usable_zone f zk).
Proof.
  revert dups r w. induction zones as [|k zones IH]; intros dups r w Hrun.
  { simplify_eq/=. split; [done|]. by intros _ zk ?%elem_of_nil. }
  cbn [configureZones_loop] in Hrun. step Hrun.
  destruct (obj_at region f k) as [z|] eqn:Hz; [|by simplify_eq/=].
  destruct (z_DeletePrepare z) eqn:Hd; [by simplify_eq/=|]. case_decide; [by simplify_eq/=|].
  destruct (IH _ _ _ Hrun) as [-> Hok]. split; [done|]. intros Hr zk [->|Hin]%elem_of_cons.
  - by exists z.
  - by apply Hok.
Qed.
(** [configureZones] and then the put of the policy. *)
Lemma ok_configured f p a w own :
  zones_wf f → stm_pure f ∅ (_ ← configureZones region p; STMPut region p) = (Ok a, w) →
  ok own f (after w f) None.
Proof.
  intros Hwf Hrun. rewrite stm_pure_bind in Hrun. unfold configureZones in Hrun.
  destruct (stm_pure f ∅ (configureZones_loop _ _ _)) as [r' w'] eqn:Hr.
  destruct (configureZones_loop_ok _ _ _ _ _ Hr) as [-> Hok]. destruct r'; [|done].
  written Hrun. apply (ok_policy_put own f p); [done|]. intros zk Hin. left. by apply Hok.
Qed.

Lemma create_policy_ok in_ : body_ok None (create_policy_body region in_).
Proof.
  body. unfold create_policy_body in Hrun. step Hrun. case_bool_decide; [done|].
  by eapply ok_configured.
Qed.
Lemma update_policy_ok in_ : body_ok None (update_policy_body region in_).
Proof.
  body. unfold update_policy_body in Hrun. step Hrun.
  destruct (obj_at region f (ap_Key in_)) as [p|] eqn:Hp; [|done].
  destruct (AutoProvPolicy_CopyInFields p in_) as [p1 n].
  destruct (AutoProvPolicy_Validate p1); [done|]. case_decide; [by simplify_eq/=|].
  by eapply ok_configured.
Qed.
Lemma add_policy_zone_ok in_ : body_ok None (add_policy_zone_body region in_).
Proof.
  body. unfold add_policy_zone_body in Hrun. step Hrun.
  destruct (obj_at region f (apz_Key in_)) as [p|] eqn:Hp; [|done]. case_decide; [done|].
  by eapply ok_configured.
Qed.
(** A put of a policy with no other zones than it had. *)
Lemma ok_policy_same own f p p' :
  zones_wf f → policy_at f (ap_Key p') = Some p → (∀ zk, zk ∈ ap_Zones p' → zk ∈ ap_Zones p) →
  ok own f (policy_write (ap_Key p') (Marshal p') f) None.
Proof.
  intros Hwf Hp Hz. apply ok_policy_put; [done|]. intros zk Hin. right. exists p. auto.
Qed.
Lemma remove_policy_zone_ok in_ : body_ok None (remove_policy_zone_body region in_).
Proof.
  body. unfold remove_policy_zone_body in Hrun. step Hrun.
  destruct (obj_at region f (apz_Key in_)) as [p|] eqn:Hp; [|done].
  destruct (remove_first _ _) as [zs|] eqn:Hzs; [|by simplify_eq/=]. written Hrun.
  apply (ok_policy_same None f p (policy_set_zones zs p)); [done| |].
  - simpl. rewrite (policy_key _ _ _ Hwf Hp). exact Hp.
  - intros zk Hin. by eapply elem_of_remove_first.
Qed.
Lemma delete_policy_prepare_ok key : body_ok None (delete_policy_prepare region key).
Proof.
  body. unfold delete_policy_prepare in Hrun. step Hrun.
  destruct (obj_at region f key) as [p|] eqn:Hp; [|done].
  destruct (ap_DeletePrepare p); [done|]. written Hrun.
  apply (ok_policy_same None f p (policy_prepare true p)); [done| |done].
  simpl. rewrite (policy_key _ _ _ Hwf Hp). exact Hp.
Qed.
Lemma delete_policy_undo_ok key : body_ok None (delete_policy_undo_body region key).
Proof.
  body. unfold delete_policy_undo_body in Hrun. step Hrun.
  destruct (obj_at region f key) as [p|] eqn:Hp; [|by simplify_eq/=].
  destruct (ap_DeletePrepare p); [|by simplify_eq/=]. written Hrun.
  apply (ok_policy_same None f p (policy_prepare false p)); [done| |done].
  simpl. rewrite (policy_key _ _ _ Hwf Hp). exact Hp.
Qed.
Lemma follows_DeleteAutoProvPolicy in_ : follows None (DeleteAutoProvPolicy region in_).
Proof.
  assert (∀ key err, follows None (delete_policy_undo region key err)) as Hundo.
  { intros key err. apply follows_last, delete_policy_undo_ok. }
  assert (∀ key, follows None (delete_policy_checked region key)) as Hchecked.
  { intros key c Hc. left. destruct (UsesAutoProvPolicy _ _ _); [apply Hundo|].
    destruct (PolicyKey_ValidateKey key); [apply Hundo|]. exists (λ _, None).
    split; [|split; [done|intros; apply Hundo]]. intros f a w Hwf Hrefs _ Hrun _. split; [|done].
    written Hrun. by apply ok_policy_del. }
  exists (λ _, None). split; [|split; [intros; apply Hchecked|done]].
  intros f a w Hwf Hrefs Hk Hrun Hne. split; [|apply Hchecked].
  by eapply (delete_policy_prepare_ok (ap_Key in_)).
Qed.

Lemma create_tpe_ok in_ : body_ok None (create_tpe_body region AppKey_String TPEKey_String in_).
Proof.
  body. unfold create_tpe_body in Hrun. cbv zeta in Hrun. step Hrun. case_bool_decide; [done|].
  step Hrun. destruct (obj_at region f (tk_AppKey (tpe_Key in_))) as [a'|]; [|done].
  destruct (app_DeletePrepare a'); [done|]. destruct (negb (Trusted a')); [done|].
  step Hrun. destruct (obj_at region f (tk_ZonePoolKey (tpe_Key in_))) as [p|] eqn:Hp; [|done].
  destruct (zp_DeletePrepare p) eqn:Hd; [done|]. written Hrun.
  apply (ok_tpe_put None f in_); [done|]. right. by exists p.
Qed.
Lemma update_tpe_ok in_ : body_ok None (update_tpe_body region ParseCIDR in_).
Proof.
  body. unfold update_tpe_body in Hrun. cbv zeta in Hrun. step Hrun.
  destruct (obj_at region f (tpe_Key in_)) as [t|] eqn:Ht; [|done].
  destruct (_ && _); [done|]. destruct (_ && _); [done|]. destruct (_ && _); [by simplify_eq/=|].
  pose proof (TPE_CopyInFields_key t in_ (tpe_key _ _ _ Hwf Ht)) as Hk.
  destruct (TPE_CopyInFields t in_) as [t' n]. case_decide; [by simplify_eq/=|].
  destruct (TPE_Validate _ _); [done|]. written Hrun.
  apply (ok_tpe_put None f (FixupSecurityRules t')); [done|]. left. exists t.
  simpl in Hk |- *. rewrite Hk. exact Ht.
Qed.
Lemma delete_tpe_ok key : body_ok None (delete_tpe_body region key).
Proof.
  body. unfold delete_tpe_body in Hrun. step Hrun.
  destruct (obj_at region f key) as [t|] eqn:Ht; [|done]. written Hrun. by apply ok_tpe_del.
Qed.

(** ** The two deletes that are guarded *)

Lemma elem_of_cache_range (K O : Type) `{Countable K, !ObjCodec K O, !Stored K O} f k (o : O) :
  obj_at region f k = Some o → GetKeyVal o = k → (k, o) ∈ cache_range region K O f.
Proof.
  intros Ho Hk. apply elem_of_go_range. apply elem_of_list_to_map_1'.
  - intros o' (o2 & [= -> ->] & Ho2)%list_elem_of_fmap. apply elem_of_cached in Ho2. congruence.
  - apply list_elem_of_fmap. exists o. rewrite Hk. split; [done|]. apply elem_of_cached. by rewrite Hk.
Qed.
Lemma policies_unused c key pk :
  zones_wf c → AutoProvPolicy_UsesZone region c key = [] → ¬ t_uses (RPolicy pk) (TZone key) c.
Proof.
  intros Hc Hnil (p & Hp & Hin). apply fmap_nil_inv in Hnil.
  apply (not_elem_of_nil (pk, p)). rewrite <- Hnil. apply list_elem_of_filter. split; [done|].
  apply elem_of_cache_range; [done|]. exact (policy_key _ _ _ Hc Hp).
Qed.
Lemma pools_unused c key pk :
  zones_wf c → ZonePool_UsesZone region c key = [] → ¬ t_uses (RPool pk) (TZone key) c.
Proof.
  intros Hc Hnil (p & Hp & Hin). apply fmap_nil_inv in Hnil.
  apply (not_elem_of_nil (pk, p)). rewrite <- Hnil. apply list_elem_of_filter. split.
  - split; [|done]. symmetry. by apply (zw_org c Hc pk p).
  - apply elem_of_cache_range; [done|]. exact (pool_key _ _ _ Hc Hp).
Qed.
Lemma filter_ZonePoolKey_same k : filter_ZonePoolKey k k = true.
Proof.
  unfold filter_ZonePoolKey, filter_field. by rewrite !bool_decide_true by (by right).
Qed.
Lemma tpes_unused c key tk :
  zones_wf c → TrustPolicyExceptionForZonePoolKeyExists region c key = None →
  ¬ t_uses (RTPE tk) (TPool key) c.
Proof.
  intros Hc Hnone [[t Ht] Hk]. unfold TrustPolicyExceptionForZonePoolKeyExists,
    GetTrustPolicyExceptionForZonePoolKey in Hnone.
  apply fmap_None, last_None, fmap_nil_inv in Hnone.
  pose proof (tpe_key _ _ _ Hc Ht) as Htk.
  apply (not_elem_of_nil (tk, t)). rewrite <- Hnone. apply list_elem_of_filter. split.
  - simpl. rewrite Htk, Hk. apply filter_ZonePoolKey_same.
  - by apply elem_of_cache_range.
Qed.

Lemma delete_zone_undo_ok key b :
  body_ok (Some (TZone key, b)) (delete_zone_undo_body region key).
Proof.
  body. unfold delete_zone_undo_body in Hrun. step Hrun.
  destruct (obj_at region f key) as [z|] eqn:Hz; [|done].
  pose proof (zone_key _ _ _ Hwf Hz) as Hk. written Hrun.
  apply (ok_zone_put _ f (zone_prepare false z)); [done| |by left].
  intros z0 _ _. right. exists b. simpl. by rewrite Hk.
Qed.
Lemma follows_delete_zone_undo key b err :
  follows (Some (TZone key, b)) (delete_zone_undo region key err).
Proof. apply follows_last, delete_zone_undo_ok. Qed.
Lemma delete_zone_ok key b :
  (∀ u, b u) → body_ok (Some (TZone key, b)) (delete_zone_body region key).
Proof.
  intros Hb. body. unfold delete_zone_body in Hrun. step Hrun.
  destruct (obj_at region f key) as [z|] eqn:Hz; [|done].
  destruct (negb (z_DeletePrepare z)); [done|]. written Hrun. by apply ok_zone_del.
Qed.
Lemma follows_delete_zone_checked key :
  follows (Some (TZone key, λ _, False)) (delete_zone_checked region key).
Proof.
  intros c1 Hc1. destruct (AutoProvPolicy_UsesZone region c1 key) eqn:Hpol.
  2: { left. apply follows_delete_zone_undo. }
  right. exists (λ u, match u with RPolicy _ => True | _ => False end).
  split; [intros [|pk|]; try done; intros _; by apply policies_unused|].
  intros c2 Hc2. destruct (CloudletsUsingZone region c2 key).
  2: { left. apply follows_delete_zone_undo. }
  left. intros c3 Hc3. destruct (ZonePool_UsesZone region c3 key) eqn:Hpool.
  2: { left. apply follows_delete_zone_undo. }
  right. exists (λ u, match u with RPolicy _ => False | _ => True end).
  split; [intros [pk| |]; try done; intros _; [by apply pools_unused|tauto]|].
  exists (λ _, None). split; [|split; [done|intros; apply follows_delete_zone_undo]].
  intros f a w Hwf Hrefs Hk Hrun Hne. split; [|done].
  eapply delete_zone_ok; [|done..]. intros []; tauto.
Qed.

Lemma delete_zone_prepare_run f key k w :
  zones_wf f → stm_pure f ∅ (delete_zone_prepare region key) = (Ok k, w) →
  k = key ∧ ok None f (after w f) (Some (TZone key, λ _, False)).
Proof.
  intros Hwf Hrun. unfold delete_zone_prepare in Hrun. step Hrun.
  destruct (obj_at region f key) as [z|] eqn:Hz; [|done]. pose proof (zone_key _ _ _ Hwf Hz) as Hk.
  destruct (z_DeletePrepare z) eqn:Hd; [done|]. rewrite stm_pure_bind, pure_STMPut in Hrun.
  simpl in Hrun. injection Hrun as Hr Hw. split; [congruence|]. rewrite <- Hw.
  rewrite <- Hk. apply (ok_zone_put None f (zone_prepare true z)); [done|by left|].
  right. split; [done|]. split; [done|]. intros z0 Hz0. simpl in Hz0. rewrite Hk in Hz0. congruence.
Qed.
Lemma follows_DeleteZone in_ : follows None (DeleteZone region in_).
Proof.
  exists (λ k, Some (TZone k, λ _, False)). split; [|split; [|done]].
  - intros f k w Hwf _ _ Hrun _. destruct (delete_zone_prepare_run _ _ _ _ Hwf Hrun) as [-> Hok].
    split; [done|apply follows_delete_zone_checked].
  - intros k Hret. apply may_return_inv in Hret as [v Hret].
    destruct (parseGetData v) as [z|]; simpl in Hret.
    + destruct (z_DeletePrepare z); apply may_return_inv in Hret; [by destruct Hret|].
      apply may_return_inv in Hret as [Hw _]. by apply eq_sym, insert_non_empty in Hw.
    + apply may_return_inv in Hret. by destruct Hret.
Qed.

Lemma delete_pool_undo_ok key b :
  body_ok (pool_own key b) (delete_pool_undo_body region key).
Proof.
  body. unfold delete_pool_undo_body in Hrun. step Hrun.
  destruct (obj_at region f key) as [p|] eqn:Hp; [|by simplify_eq/=].
  pose proof (pool_key _ _ _ Hwf Hp) as Hk.
  destruct (zp_DeletePrepare p); [|by simplify_eq/=]. written Hrun.
  apply (ok_pool_put _ f (pool_prepare false p)); [done| | | |by left].
  - intros zk Hin. simpl in Hin |- *. rewrite Hk. by eapply zw_org.
  - intros zk Hin. right. exists p. simpl. by rewrite Hk.
  - intros Hg p0 _ _. right. exists b. unfold pool_own. destruct guarded; [|done]. simpl. by rewrite Hk.
Qed.
Lemma follows_delete_pool_undo key b err :
  follows (pool_own key b) (delete_pool_undo region key err).
Proof. apply follows_last, delete_pool_undo_ok. Qed.
Lemma follows_delete_pool_checked key :
  follows (pool_own key (λ _, False)) (delete_pool_checked region key).
Proof.
  intros c Hc. destruct (TrustPolicyExceptionForZonePoolKeyExists region c key) eqn:Htpe.
  1: { left. apply follows_delete_pool_undo. }
  assert (∀ b, (∀ u, b u) → follows (pool_own key b) (HTxn (delete_pool_body region key) (λ r,
    match r with Err e => delete_pool_undo region key e | Ok _ => HDone None end))) as Hdel.
  { intros b Hb. exists (λ _, None). split; [|split; [done|intros; apply follows_delete_pool_undo]].
    intros f a w Hwf Hrefs Hk Hrun Hne. split; [|done].
    unfold delete_pool_body in Hrun. step Hrun. case_bool_decide; [|done]. written Hrun.
    by apply ok_pool_del. }
  unfold pool_own in Hdel |- *. destruct guarded.
  - right. exists (λ _, True). split; [intros [| |tk] _; simpl; try tauto; by apply tpes_unused|].
    apply Hdel. by right.
  - left. by apply (Hdel (λ _, True)).
Qed.
Lemma follows_DeleteZonePool in_ : follows None (DeleteZonePool region in_).
Proof.
  exists (λ _, pool_own (zp_Key in_) (λ _, False)). split; [|split; [|done]].
  - intros f a w Hwf _ _ Hrun _. split; [|apply follows_delete_pool_checked].
    unfold delete_pool_prepare in Hrun. step Hrun.
    destruct (obj_at region f (zp_Key in_)) as [p|] eqn:Hp; [|done].
    pose proof (pool_key _ _ _ Hwf Hp) as Hk.
    destruct (zp_DeletePrepare p) eqn:Hd; [done|]. written Hrun. rewrite <- Hk.
    apply (ok_pool_put None f (pool_prepare true p)); [done| | |by left|].
    + intros zk Hin. simpl in Hin |- *. rewrite Hk. by eapply zw_org.
    + intros zk Hin. right. exists p. simpl. by rewrite Hk.
    + unfold pool_own. destruct guarded; [right|by left]. split; [done|]. split; [done|].
      split; [done|]. intros p0 Hp0. simpl in Hp0. rewrite Hk in Hp0. congruence.
  - intros k Hret. apply may_return_inv in Hret as [v Hret].
    destruct (parseGetData v) as [p|]; simpl in Hret.
    + destruct (zp_DeletePrepare p); apply may_return_inv in Hret; [by destruct Hret|].
      apply may_return_inv in Hret as [Hw _]. by apply eq_sym, insert_non_empty in Hw.
    + apply may_return_inv in Hret. by destruct Hret.
Qed.

(** ** Every handler follows the protocol *)

Lemma api_follows upd h :
  (guarded → ∀ in_, upd in_ → sets_mark in_ = false) → api upd h → follows None h.
Proof.
  intros Hupd. destruct 1 as [ulid in_|in_|in_|t in_|in_|t in_ H6|in_|in_|in_|in_|in_|in_|in_|in_|in_|in_].
  - unfold CreateZone. destruct (Zone_Validate in_); [done|]. apply follows_last, create_zone_ok.
  - apply follows_DeleteZone.
  - unfold UpdateZone. destruct (Zone_ValidateUpdateFields in_); [done|].
    apply follows_last, update_zone_ok.
  - unfold CreateZonePool. destruct (ZonePool_Validate in_); [done|].
    apply follows_last, create_pool_ok.
  - apply follows_DeleteZonePool.
  - intros c Hc. left. apply follows_last, update_pool_ok. intros Hg. by apply (Hupd Hg).
  - apply follows_last, add_member_ok.
  - apply follows_last, remove_member_ok.
  - unfold CreateAutoProvPolicy. destruct (AutoProvPolicy_Validate in_); [done|].
    case_decide; [done|]. apply follows_last, create_policy_ok.
  - apply follows_last, update_policy_ok.
  - apply follows_DeleteAutoProvPolicy.
  - apply follows_last, add_policy_zone_ok.
  - apply follows_last, remove_policy_zone_ok.
  - unfold CreateTrustPolicyException. destruct (TPE_Validate _ _); [done|].
    apply follows_last, create_tpe_ok.
  - apply follows_last, update_tpe_ok.
  - apply follows_last, delete_tpe_ok.
Qed.

Lemma guarded_refs upd f σ :
  (guarded → ∀ in_, upd in_ → sets_mark in_ = false) →
  zones_wf f → zones_intact f → (guarded → pools_intact f) → sys_reachable (api upd) f σ →
  zones_intact (current σ) ∧ (guarded → pools_intact (current σ)) ∧ zones_wf (current σ).
Proof.
  intros Hupd Hwf Hz Hp Hreach.
  destruct (protocol_refs (t_exists guarded) (t_prepared guarded) t_uses zones_wf (api upd) f σ
    (λ h, api_follows upd h Hupd) Hwf (proj1 (intact_refs_ok f) (conj Hz Hp)) Hreach) as [Hr Hw].
  by apply intact_refs_ok in Hr as [? ?].
Qed.
End Protocol.

(** C2: whatever handlers for zones, pools, policies and exceptions run at the
    same time, with whatever requests, and however their commits and their
    looks at the caches interleave, no zone is deleted that a pool or a policy
    has.  No pool is deleted that a trust policy exception is for, when no
    request of UpdateZonePool writes the pool's DeletePrepare (field 6 of its
    mask): a request that does can clear the mark of a deletion in progress,
    and then the pool of an exception is lost ([pool_mark_cleared]).  [upd] is
    the set of requests of UpdateZonePool that come. *)
Theorem refs_intact (upd : ZonePool → Prop) f σ :
  zones_wf f → zones_intact f → sys_reachable (api upd) f σ →
  zones_intact (current σ) ∧ zones_wf (current σ) ∧
  ((∀ in_, upd in_ → sets_mark in_ = false) → pools_intact f → pools_intact (current σ)).
Proof.
  intros Hwf Hz Hreach.
  destruct (guarded_refs false upd f σ) as (? & _ & ?); try done. split_and!; [done..|].
  intros Hupd Hp. by destruct (guarded_refs true upd f σ) as (_ & Hp' & _); [..|apply Hp'].
Qed.

(** ** One delete on its own *)

Lemma run_body_undo f key z :
  zone_at f key = Some z → z_Key z = key →
  run_body (delete_zone_undo_body region key) f =
  (Ok (), zone_write key (Marshal (zone_prepare false z)) f).
Proof.
  intros Hz Hk. unfold run_body, delete_zone_undo_body. rewrite pure_STMGet.
  destruct (obj_at region f key) as [z'|] eqn:Hz'; [|congruence]. assert (z' = z) as -> by congruence.
  rewrite pure_STMPut, <- Hk. reflexivity.
Qed.
(** The state after the mark. *)
Abbreviation marked key z f := (zone_write key (Marshal (zone_prepare true z)) f).
Lemma zone_at_marked f key z k :
  z_Key z = key → zone_at (marked key z f) k = if decide (k = key) then Some (zone_prepare true z) else zone_at f k.
Proof. intros <-. apply (zone_at_put f (zone_prepare true z)). Qed.
(** The undo puts the zone back as it was before the mark. *)
Lemma undo_restores f key z err :
  zone_at f key = Some z → z_Key z = key → z_DeletePrepare z = false →
  let '(e, f2) := run_alone (delete_zone_undo region key err) (marked key z f) in
  same_but_zones f f2 ∧ e = Some err ∧ ∀ k, zone_at f2 k = zone_at f k.
Proof.
  intros Hz Hk Hd. cbn [delete_zone_undo run_alone].
  rewrite (run_body_undo _ key (zone_prepare true z)); [|by rewrite zone_at_marked, decide_True|done].
  cbn [run_alone]. assert (zone_prepare false (zone_prepare true z) = z) as ->.
  { destruct z; simpl in Hd |- *. by rewrite Hd. }
  split_and!; [|done|].
  - destruct (zone_write_others f key (Marshal (zone_prepare true z))) as [A1 A2 A3].
    destruct (zone_write_others (marked key z f) key (Marshal z)) as [B1 B2 B3].
    split; intros k; [rewrite B1; apply A1|rewrite B2; apply A2|rewrite B3; apply A3].
  - intros k. rewrite <- Hk at 1. rewrite zone_at_put. case_decide as Hkk; [by rewrite Hkk, Hk|].
    rewrite zone_at_marked by done. rewrite decide_False; [done|congruence].
Qed.

(** What DeleteZone leaves, by its result. *)
Definition zone_deleted (f : snapshot) (key : ZoneKey) (err : option error) (f' : snapshot) : Prop :=
  same_but_zones f f' ∧
  match err with
  | Some _ => ∀ k, zone_at f' k = zone_at f k
  | None =>
      (∃ z, zone_at f key = Some z ∧ z_DeletePrepare z = false) ∧
      (∀ pk p, pool_at f pk = Some p → key ∉ zp_Zones p) ∧
      (∀ pk p, policy_at f pk = Some p → key ∉ ap_Zones p) ∧
      ∀ k, zone_at f' k = if decide (k = key) then None else zone_at f k
  end.
Lemma delete_zone_checked_alone f key z :
  zones_wf f → zone_at f key = Some z → z_DeletePrepare z = false →
  let '(err, f') := run_alone (delete_zone_checked region key) (marked key z f) in
  zone_deleted f key err f'.
Proof.
  intros Hwf Hz Hd. pose proof (zone_key _ _ _ Hwf Hz) as Hk.
  assert (∀ err, let '(e, f') := run_alone (delete_zone_undo region key err) (marked key z f) in
    zone_deleted f key e f') as Hu.
  { intros err. pose proof (undo_restores f key z err Hz Hk Hd) as Hu.
    destruct (run_alone _ _) as [e f']. destruct Hu as (? & -> & ?). by split. }
  assert (zones_wf (marked key z f)) as Hwf1.
  { rewrite <- Hk. by apply (wf_zone_put f (zone_prepare true z)). }
  destruct (zone_write_others f key (Marshal (zone_prepare true z))) as [S1 S2 S3].
  cbn [delete_zone_checked run_alone].
  destruct (AutoProvPolicy_UsesZone region _ key) as [|pk l] eqn:Hpol; [|apply Hu].
  cbn [run_alone]. destruct (CloudletsUsingZone region _ key) as [|c l]; [|apply Hu].
  cbn [run_alone]. destruct (ZonePool_UsesZone region _ key) as [|pk l] eqn:Hpool; [|apply Hu].
  cbn [run_alone]. unfold run_body at 1, delete_zone_body. rewrite pure_STMGet.
  rewrite (zone_at_marked f key z key Hk), decide_True by done.
  cbn [zone_prepare z_DeletePrepare negb]. rewrite pure_STMDel. cbn [run_alone].
  destruct (zone_write_others (marked key z f) key "") as [D1 D2 D3]. split; [|split_and!].
  - split; intros k; [rewrite D1; apply S1|rewrite D2; apply S2|rewrite D3; apply S3].
  - by exists z.
  - intros pk p Hp Hin. apply (pools_unused _ key pk Hwf1 Hpool). exists p. by rewrite S1.
  - intros pk p Hp Hin. apply (policies_unused _ key pk Hwf1 Hpol). exists p. by rewrite S2.
  - intros k. rewrite zone_at_del. case_decide; [done|]. rewrite zone_at_marked by done.
    by rewrite decide_False.
Qed.

(** DeleteZone with nothing else running either fails and leaves every
    object as it was (the mark is undone), or deletes just the zone, which was
    not marked and which no pool and no policy had. *)
Theorem DeleteZone_alone f in_ err f' :
  zones_wf f → run_alone (DeleteZone region in_) f = (err, f') →
  zone_deleted f (z_Key in_) err f'.
Proof.
  intros Hwf. cbn [DeleteZone run_alone]. unfold run_body at 1, delete_zone_prepare.
  rewrite pure_STMGet. set (key := z_Key in_).
  destruct (obj_at region f key) as [z|] eqn:Hz; [|intros [= <- <-]; by split].
  destruct (z_DeletePrepare z) eqn:Hd; [intros [= <- <-]; by split|].
  rewrite stm_pure_bind, pure_STMPut. cbn [stm_pure mret stm_ret]. intros Hrun.
  pose proof (delete_zone_checked_alone f key z Hwf Hz Hd) as H.
  change (GetKeyVal (zone_prepare true z)) with (z_Key z) in Hrun.
  rewrite (zone_key _ _ _ Hwf Hz) in Hrun. 
  change (json_encode (zone_prepare true z)) with (Marshal (zone_prepare true z)) in Hrun.
  by rewrite Hrun in H.
Qed.
End Refs.
