(* ===== verification/ZoneRuns.v ===== *)
(** * Runs of the handlers of zones and pools

    The theorems of [ZoneRefs] at concrete requests, with an encoding of
    objects that is computed; and a run that loses a pool that is in use, by a
    request that clears the mark of a deletion. *)

From S2P Require Import ZoneRefs.
Import JsonRuns.
#[local] Open Scope Z_scope.

Module ZoneRuns.
#[local] Existing Instance canonical_range.

Definition no_cidr (s : string) : option error := None.
Definition app_text (k : AppKey) : string := ak_Name k.
Definition tpe_text (k : TPEKey) : string := tk_Name k.
Abbreviation run_api := (zone_api 0 no_cidr app_text tpe_text).

Definition zk : ZoneKey := mkZoneKey "op" "munich" "".
Definition zone0 : Zone := mkZone [] zk "" [] zero_loc "" false zero_ts zero_ts.
Definition pk : ZonePoolKey := mkZonePoolKey "op" "bavaria".
Definition pool0 (fields : list string) : ZonePool :=
  mkZonePool fields pk [mkZoneKey "" "munich" ""] zero_ts zero_ts false.
Definition ak : AppKey := mkAppKey "dev" "game" "1.0".
Definition app0 : App := mkApp ak true false [] "" "kubernetes".
Definition tpe0 : TrustPolicyException :=
  mkTPE [] (mkTPEKey ak pk "exc") STATE_UNKNOWN [mkSecurityRule "tcp" 80 0 "10.0.0.0/8"].
(** A store with the app, which other handlers put there. *)
Definition start : snapshot := {[obj_key 0 (O := App) ak := Marshal app0]}.

(** A decidable form of the invariant for the objects of the runs. *)
Definition zone_there (f : snapshot) : bool := bool_decide (is_Some (obj_at 0 (O := Zone) f zk)).
Definition pool_there (f : snapshot) : bool := bool_decide (is_Some (obj_at 0 (O := ZonePool) f pk)).
Definition tpe_there (f : snapshot) : bool :=
  bool_decide (is_Some (obj_at 0 (O := TrustPolicyException) f (tpe_Key tpe0))).
Definition pool_has_zone (f : snapshot) : bool :=
  match obj_at 0 (O := ZonePool) f pk with Some p => bool_decide (zk ∈ zp_Zones p) | None => false end.
Definition errors (σ : sys) : list (option error) :=
  (λ th, match th.2 with HDone e => e | _ => Some "running" end) <$> threads σ.

(** The zone is marked, the pool takes it, the delete finds the pool and undoes
    the mark; an exception uses the pool, whose delete fails too. *)
Definition schedule : list Stm.choice :=
  [New (CreateZone 0 "ID" zone0); Commit 0;
   New (CreateZonePool 0 zero_ts (pool0 [])); Commit 1;
   New (DeleteZone 0 zone0); Commit 2; Look 2 3; Look 2 3; Look 2 3; Commit 2;
   New (CreateTrustPolicyException 0 no_cidr app_text tpe_text tpe0); Commit 3;
   New (DeleteZonePool 0 (pool0 [])); Commit 4; Look 4 6; Commit 4].
Definition final : option sys := exec schedule (sys_start start).


(** A request that clears the mark comes between the look for exceptions and
    the delete. *)
Definition bad_schedule : list Stm.choice :=
  [New (CreateZone 0 "ID" zone0); Commit 0;
   New (CreateZonePool 0 zero_ts (pool0 [])); Commit 1;
   New (DeleteZonePool 0 (pool0 [])); Commit 2; Look 2 3;
   New (UpdateZonePool 0 zero_ts (pool0 ["6"])); Look 3 3; Commit 3;
   New (CreateTrustPolicyException 0 no_cidr app_text tpe_text tpe0); Commit 4;
   Commit 2].

Definition bad_final : option sys := exec bad_schedule (sys_start start).

(** *** The start *)

Lemma nothing_stored {K O} `{!ObjCodec K O, !Stored K O} k : ¬ has_obj 0 (O := O) ∅ (k : K).
Proof. unfold has_obj, get. rewrite lookup_empty. intros Hk. by apply Hk. Qed.
Lemma start_nothing {K O} `{HC : !ObjCodec K O, HS : !Stored K O} (k : K) :
  obj_type (K := K) (O := O) ≠ "App" → ¬ has_obj 0 (O := O) start k.
Proof.
  intros Hne Hk. apply (nothing_stored (K := K) (O := O) k).
  assert (obj_type (K := K) (O := O) ≠ obj_type (K := AppKey) (O := App)) as Hne' by exact Hne.
  apply (has_obj_other 0 Hne' ∅ k ak (Marshal app0)).
  unfold after. by rewrite (right_id_L ∅ (∪)).
Qed.
(** The handlers a schedule starts. *)
Ltac choices := repeat match goal with
  | |- Forall _ (_ :: _) => apply Forall_cons_2
  | |- Forall _ [] => apply Forall_nil_2
  | |- choice_ok _ (New _) => unfold choice_ok
  | |- choice_ok _ _ => exact I
  end.
Ltac nothing H := exfalso; revert H; apply start_nothing; intros [=].
Lemma start_wf : zones_wf 0 start.
Proof.
  split.
  - intros k Hk. nothing Hk.
  - intros k Hk. nothing Hk.
  - intros k Hk. nothing Hk.
  - intros k Hk. nothing Hk.
  - intros k p z Hp. apply obj_at_has in Hp. nothing Hp.
Qed.
Lemma start_intact : zones_intact 0 start ∧ pools_intact 0 start.
Proof.
  split; [split|].
  - intros k p z Hp. apply obj_at_has in Hp. nothing Hp.
  - intros k p z Hp. apply obj_at_has in Hp. nothing Hp.
  - intros k t Hp. apply obj_at_has in Hp. nothing Hp.
Qed.

(** With requests that write the mark the references to pools are not kept: an
    UpdateZonePool that clears the mark of a pool that is being deleted lets a
    trust policy exception be created for the pool, which is then deleted. *)
Theorem pool_mark_cleared :
  ∃ σ, sys_reachable (run_api (λ _, True)) start σ ∧
    (∃ t, obj_at 0 (O := TrustPolicyException) (current σ) (tpe_Key tpe0) = Some t) ∧
    ¬ pools_intact 0 (current σ).
Proof.
  assert (match bad_final with
    | Some σ => tpe_there (current σ) && negb (pool_there (current σ)) | None => false end = true)
    as Hend by (vm_compute; reflexivity).
  destruct bad_final as [σ|] eqn:Hrun; [|done]. apply andb_true_iff in Hend as [[t Ht]%bool_decide_eq_true Hp%negb_true_iff%bool_decide_eq_false].
  exists σ. split; [|split; [by exists t|]].
  - unfold bad_final in Hrun. eapply exec_reachable; [|exact Hrun].
    unfold bad_schedule. choices; by constructor.
  - intros Htpe. apply Hp. destruct (Htpe _ _ Ht) as [p Hpool]. by exists p.
Qed.

(** A parent field passes the validation of an update though its children may
    not be changed: the field of the location moves the zone. *)
Definition east : coord := exist _ (f64_of_Z 11) I.
Definition move : Zone :=
  mkZone ["5"] zk "" [] (mkLoc zero_coord east zero_coord zero_coord zero_coord zero_coord zero_coord None)
    "" false zero_ts zero_ts.
Lemma parent_field_bypasses :
  Zone_ValidateUpdateFields move = None ∧
  Longitude (z_Location (Zone_CopyInFields zone0 move).1) = east ∧
  Has UpdateZoneFieldsMap "5.2" = false.
Proof. vm_compute. done. Qed.

(** *** Witnesses *)

Lemma refs_intact_witness :
  ∃ σ, final = Some σ ∧ zone_there (current σ) && pool_has_zone (current σ) && tpe_there (current σ) = true ∧
    errors σ !! 2%nat ≠ Some None ∧ zones_intact 0 (current σ) ∧ pools_intact 0 (current σ).
Proof.
  assert (match final with
    | Some σ => zone_there (current σ) && pool_has_zone (current σ) && tpe_there (current σ) &&
                bool_decide (errors σ !! 2%nat ≠ Some None)
    | None => false end = true) as Hend by (vm_compute; reflexivity).
  destruct final as [σ|] eqn:Hrun; [|done]. exists σ. split; [reflexivity|].
  apply andb_true_iff in Hend as [Hend He].
  split; [exact Hend|]. split; [by apply bool_decide_eq_true in He|].
  assert (sys_reachable (run_api (λ in_, sets_mark in_ = false)) start σ) as Hreach.
  { unfold final in Hrun. eapply exec_reachable; [|exact Hrun]. unfold schedule. choices; constructor. }
  destruct (refs_intact 0 no_cidr app_text tpe_text (λ in_, sets_mark in_ = false) start σ
    start_wf (proj1 start_intact) Hreach) as (Hz & _ & Hp).
  split; [exact Hz|]. apply Hp; [done|exact (proj2 start_intact)].
Defined.

Definition with_zone : snapshot :=
  after {[obj_key 0 (O := Zone) (z_Key zone0) := Marshal zone0]} start.
Lemma with_zone_wf : zones_wf 0 with_zone.
Proof. unfold with_zone. exact (wf_zone_put 0 start zone0 start_wf). Qed.
Lemma DeleteZone_alone_witness :
  ∃ f', run_alone (DeleteZone 0 zone0) with_zone = (None, f') ∧ zone_deleted 0 with_zone zk None f'.
Proof.
  assert ((run_alone (DeleteZone 0 zone0) with_zone).1 = None) as Herr by (vm_compute; reflexivity).
  destruct (run_alone (DeleteZone 0 zone0) with_zone) as [err f'] eqn:Hrun.
  cbn [fst] in Herr. subst err. exists f'. split; [reflexivity|].
  exact (DeleteZone_alone 0 with_zone zone0 None f' with_zone_wf Hrun).
Defined.
End ZoneRuns.
