(* ===== verification/DnsLabel.v ===== *)
(** * DNS labels (pkg/controller/dnslabelgen.go, api/edgeproto/dnslabel.go)

    A cloudlet gets a label that is unique in the region, a cluster and an
    instance one that is unique on their cloudlet; the labels make the domain
    names.  A label is chosen and stored in the same transaction body.

    [labels_step] is a step of the region: a body that creates or deletes an
    object with its label, or any change that is not of labels.  [fqdns_unique]:
    no two objects have the same domain name, and none that of a load balancer. *)

From S2P Require Export ZoneObjs.
From S2P Require Import Names.
Import Objstore.
#[local] Open Scope Z_scope.

Record ClusterKey := mkClusterKey { clk_Name : string; clk_Organization : string }.
Record AppInstKey := mkAppInstKey { aik_Name : string; aik_Organization : string }.
Record CloudletObjectDnsLabelKey := mkObjLabelKey { olk_Cloudlet : CloudletKey; olk_Label : string }.

(** pkg/cloudcommon/names.go. *)
Definition RootLBHostname : string := "shared".
Definition DnsCloudletLabelMaxLen : Z := 50.
Definition DnsCloudletObjectLabelMaxLen : Z := 63.
Definition AppFederatedIdMaxLen : Z := 50.

Section Labels.
(** The region and the root domain of the process. *)
Context (region_id : Z) (region appDNSRoot : string) `{JOL : !Json CloudletObjectDnsLabelKey}.

(** ** The stores of labels *)

Definition CloudletDnsLabelDbKey (label : string) : string :=
  DbKeyPrefixString region_id "CloudletDnsLabel" +:+ "/" +:+ label.
Definition CloudletObjectDnsLabelDbKey (key : CloudletKey) (label : string) : string :=
  DbKeyPrefixString region_id "CloudletObjectDnsLabel" +:+ "/" +:+ Marshal (mkObjLabelKey key label).
Definition AppGlobalIdDbKey (id : string) : string :=
  DbKeyPrefixString region_id "AppGlobalId" +:+ "/" +:+ id.

(** [STMHas], [STMPut] and [STMDel], which are the same for the three. *)
Definition key_STMHas (keystr : string) : stm bool :=
  SGet keystr (λ v, SRet (negb (bool_decide (v = "")))).
Definition key_STMPut (keystr label : string) : stm () := SPut keystr label (SRet ()).
Definition key_STMDel (keystr : string) : stm () := SDel keystr (SRet ()).

(** ** Choosing a label *)

Definition reservedCloudletObjectDnsLabels : gset string := {[RootLBHostname]}.
Definition isReservedCloudletObjectDnsLabel (label : string) : bool :=
  bool_decide (label ∈ reservedCloudletObjectDnsLabels).

Definition len (s : string) : Z := Z.of_nat (String.length s).
Definition dnsSanitizeTrunc (name : string) (maxLen : Z) : string :=
  let name := DNSSanitize name in
  if decide (len name ≤ maxLen) then name else str_take (Z.to_nat maxLen) name.

(** [None] is the panic. *)
Definition genNextDnsLabel (label : string) (maxLen counter : Z) : option string :=
  let suffix := if decide (counter > 0) then fmt_d counter else "" in
  if decide (maxLen ≤ len suffix) then None
  else
    let truncBy := len label + len suffix - maxLen in
    let label := if decide (truncBy > 0) then str_take (Z.to_nat (len label - truncBy)) label else label in
    Some (label +:+ suffix).

(** The loop; [taken] is the condition to go on to the next. *)
Fixpoint next_label (taken : string → stm bool) (base : string) (maxLen : Z) (counters : list Z)
    (err : error) : stm string :=
  match counters with
  | [] => SErr err
  | ii :: rest =>
      match genNextDnsLabel base maxLen ii with
      | None => SErr "panic"
      | Some label =>
          t ← taken label;
          if (t : bool) then next_label taken base maxLen rest err else SRet label
      end
  end.
Definition counters : list Z := Z.of_nat <$> seq 0 10.
Definition or_reserved (has : string → stm bool) (label : string) : stm bool :=
  if isReservedCloudletObjectDnsLabel label then SRet true else has label.
Definition dnsLabelError (baseLabel : string) : error :=
  "Unable to compute unique DNS label from base label of " +:+ quote baseLabel +:+
  ", please change key values".

Definition cloudlet_base (key : CloudletKey) : string :=
  dnsSanitizeTrunc (ck_Name key) 40 +:+ "-" +:+ dnsSanitizeTrunc (ck_Organization key) 20.
Definition CloudletApi_setDnsLabel (key : CloudletKey) : stm string :=
  next_label (or_reserved (λ label, key_STMHas (CloudletDnsLabelDbKey label)))
    (cloudlet_base key) DnsCloudletLabelMaxLen counters (dnsLabelError (cloudlet_base key)).

Definition cluster_base (key : ClusterKey) : string :=
  dnsSanitizeTrunc (clk_Name key) 40 +:+ "-" +:+ dnsSanitizeTrunc (clk_Organization key) 20.
Definition ClusterInstApi_setDnsLabel (key : ClusterKey) (ck : CloudletKey) : stm string :=
  next_label (or_reserved (λ label, key_STMHas (CloudletObjectDnsLabelDbKey ck label)))
    (cluster_base key) DnsCloudletObjectLabelMaxLen counters (dnsLabelError (cluster_base key)).

Definition appinst_base (key : AppInstKey) : string :=
  let name := dnsSanitizeTrunc (aik_Name key) 60 in
  let org := dnsSanitizeTrunc (aik_Organization key) 60 in
  let baseLabel := name +:+ "-" +:+ org in
  if decide (len baseLabel > DnsCloudletObjectLabelMaxLen)
  then dnsSanitizeTrunc name 32 +:+ "-" +:+ org else baseLabel.
Definition AppInstApi_setDnsLabel (key : AppInstKey) (ck : CloudletKey) : stm string :=
  next_label (or_reserved (λ label, key_STMHas (CloudletObjectDnsLabelDbKey ck label)))
    (appinst_base key) DnsCloudletObjectLabelMaxLen counters (dnsLabelError (appinst_base key)).

Definition global_base (key : AppKey) : string :=
  let id := dnsSanitizeTrunc region 10 +:+ "-" +:+ dnsSanitizeTrunc (ak_Name key) 30 +:+
            dnsSanitizeTrunc (ak_Version key) 30 +:+ dnsSanitizeTrunc (ak_Organization key) 30 in
  if decide (len id > AppFederatedIdMaxLen) then dnsSanitizeTrunc id AppFederatedIdMaxLen else id.
Definition AppApi_setGlobalId (key : AppKey) : stm string :=
  next_label (λ id, key_STMHas (AppGlobalIdDbKey id)) (global_base key) AppFederatedIdMaxLen counters
    ("Unable to generate unique global id from base label of " +:+ quote (global_base key) +:+
     ", please change key values").

(** ** Domain names *)

Definition getFQDN (label cloudlet_label : string) : string :=
  label +:+ "." +:+ cloudlet_label +:+ "." +:+ HostnameSanitize region +:+ "." +:+ appDNSRoot.
Definition getCloudletRootLBFQDN (cloudlet_label : string) : string :=
  getFQDN RootLBHostname cloudlet_label.
Definition getClusterInstFQDN (label cloudlet_label : string) : string := getFQDN label cloudlet_label.
(** The name of an instance's own.  [getAppInstURI], which may give an instance
    the name of the load balancer or of its cluster instead, or none, is not
    modelled. *)
Definition getAppInstFQDN (label cloudlet_label : string) : string := getFQDN label cloudlet_label.

(** What the bodies that create the objects do with labels. *)
Definition claim_cloudlet (key : CloudletKey) : stm string :=
  label ← CloudletApi_setDnsLabel key;
  _ ← key_STMPut (CloudletDnsLabelDbKey label) label; SRet label.
Definition claim_cluster (key : ClusterKey) (ck : CloudletKey) : stm string :=
  label ← ClusterInstApi_setDnsLabel key ck;
  _ ← key_STMPut (CloudletObjectDnsLabelDbKey ck label) label; SRet label.
Definition claim_appinst (key : AppInstKey) (ck : CloudletKey) : stm string :=
  label ← AppInstApi_setDnsLabel key ck;
  _ ← key_STMPut (CloudletObjectDnsLabelDbKey ck label) label; SRet label.

(** ** What is chosen *)

Section Choice.
Context (f : snapshot) (taken : string → stm bool) (t : string → bool).
Hypothesis taken_pure : ∀ label, stm_pure f ∅ (taken label) = (Ok (t label), ∅).

Lemma next_label_run base maxLen cs err r w :
  Forall (λ ii, is_Some (genNextDnsLabel base maxLen ii)) cs →
  stm_pure f ∅ (next_label taken base maxLen cs err) = (r, w) →
  w = ∅ ∧
  match r with
  | Ok l => t l = false ∧ ∃ ii, ii ∈ cs ∧ genNextDnsLabel base maxLen ii = Some l
  | Err e => e = err ∧ ∀ ii l, ii ∈ cs → genNextDnsLabel base maxLen ii = Some l → t l = true
  end.
Proof.
  induction cs as [|ii cs IH]; intros Hsome; inversion_clear Hsome as [|? ? [l Hl] Hcs]; simpl.
  - intros [= <- <-]. split; [done|]. split; [done|]. by intros ii l ?%elem_of_nil.
  - rewrite Hl, stm_pure_bind, taken_pure. destruct (t l) eqn:Ht.
    + intros Hr. destruct (IH Hcs Hr) as [-> H]. split; [done|]. destruct r as [l'|e].
      * destruct H as (? & jj & Hj & ?). split; [done|]. exists jj. split; [by right|done].
      * destruct H as [-> H]. split; [done|]. intros jj l' [->|Hj]%elem_of_cons Hg; [congruence|].
        by eapply H.
    + intros [= <- <-]. split; [done|]. split; [done|]. exists ii. split; [by left|done].
Qed.
End Choice.

Lemma length_fmt_digit ii : ii ∈ counters → len (if decide (ii > 0) then fmt_d ii else "") ≤ 1 ∧
  str_all dns_char (if decide (ii > 0) then fmt_d ii else "") = true.
Proof.
  unfold counters. intros (n & -> & Hn%elem_of_seq)%list_elem_of_fmap.
  do 10 (destruct n as [|n]; [vm_compute; done|]). lia.
Qed.
Lemma len_app s1 s2 : len (s1 +:+ s2) = len s1 + len s2.
Proof. unfold len. rewrite length_str_app. lia. Qed.

(** No counter panics, and what comes out is short and of allowed characters. *)
Definition label_ok (maxLen : Z) (l : string) : Prop :=
  l ≠ "" ∧ len l ≤ maxLen ∧ str_all dns_char l = true.
Lemma genNextDnsLabel_ok base maxLen ii :
  2 ≤ maxLen → base ≠ "" → str_all dns_char base = true → ii ∈ counters →
  ∃ l, genNextDnsLabel base maxLen ii = Some l ∧ label_ok maxLen l.
Proof.
  intros Hm Hne Hb Hii. destruct (length_fmt_digit ii Hii) as [Hl Hd]. unfold genNextDnsLabel.
  set (suffix := if decide (ii > 0) then _ else _) in *. cbv zeta.
  rewrite decide_False by lia. eexists. split; [done|].
  assert (0 < len base) by (destruct base; [done|unfold len; simpl; lia]).
  assert (0 ≤ len suffix) by (unfold len; lia).
  set (label := if decide _ then _ else base).
  assert (0 < len label ≤ maxLen - len suffix ∧ str_all dns_char label = true) as [Hlab Hc].
  { unfold label. case_decide; [|split; [lia|done]]. split; [|by apply str_take_all].
    unfold len. rewrite length_str_take_lt; unfold len in *; lia. }
  split; [|split].
  - intros He. apply (f_equal len) in He. rewrite len_app in He. unfold len at 3 in He. simpl in He. lia.
  - rewrite len_app. lia.
  - by rewrite str_all_app, Hc, Hd.
Qed.
Lemma dnsSanitizeTrunc_chars name n : is_ascii name → str_all dns_char (dnsSanitizeTrunc name n) = true.
Proof.
  intros Hn. assert (str_all dns_char (DNSSanitize name) = true).
  { rewrite DNSSanitize_filter by done. apply dns_kept_all. }
  unfold dnsSanitizeTrunc. case_decide; [done|by apply str_take_all].
Qed.
Lemma base_chars s1 s2 :
  str_all dns_char s1 = true → str_all dns_char s2 = true → str_all dns_char (s1 +:+ "-" +:+ s2) = true.
Proof. intros H1 H2. by rewrite str_all_app, H1. Qed.

(** The keys that are validated when the objects are created. *)
Definition ascii_names (names : list string) : Prop := Forall is_ascii names.
Definition CloudletKey_valid (key : CloudletKey) : Prop :=
  ascii_names [ck_Name key; ck_Organization key].
Lemma cloudlet_base_chars key :
  ascii_names [ck_Name key; ck_Organization key] → str_all dns_char (cloudlet_base key) = true.
Proof. intros [? [? _]%Forall_cons]%Forall_cons. by apply base_chars; apply dnsSanitizeTrunc_chars. Qed.
Lemma cluster_base_chars key :
  ascii_names [clk_Name key; clk_Organization key] → str_all dns_char (cluster_base key) = true.
Proof. intros [? [? _]%Forall_cons]%Forall_cons. by apply base_chars; apply dnsSanitizeTrunc_chars. Qed.
Lemma appinst_base_chars key :
  ascii_names [aik_Name key; aik_Organization key] → str_all dns_char (appinst_base key) = true.
Proof.
  intros [? [? _]%Forall_cons]%Forall_cons. unfold appinst_base. cbv zeta.
  case_decide; apply base_chars; try by apply dnsSanitizeTrunc_chars.
  apply dnsSanitizeTrunc_chars, dns_char_ascii. by apply dnsSanitizeTrunc_chars.
Qed.

(** A body that chooses a label and stores it. *)
Lemma claim_run f base maxLen err key r w :
  2 ≤ maxLen → base ≠ "" → str_all dns_char base = true →
  stm_pure f ∅ (label ← next_label (or_reserved (λ l, key_STMHas (key l))) base maxLen counters err;
                _ ← key_STMPut (key label) label; SRet label) = (r, w) →
  match r with
  | Ok l => label_ok maxLen l ∧ l ≠ RootLBHostname ∧ get f (key l) = "" ∧ w = {[key l := l]}
  | Err e => e = err ∧ w = ∅ ∧ ∀ ii l, ii ∈ counters → genNextDnsLabel base maxLen ii = Some l →
               l = RootLBHostname ∨ get f (key l) ≠ ""
  end.
Proof.
  intros Hm Hne Hb. rewrite stm_pure_bind.
  assert (∀ l, stm_pure f ∅ (or_reserved (λ l, key_STMHas (key l)) l) =
    (Ok (isReservedCloudletObjectDnsLabel l || negb (bool_decide (get f (key l) = ""))), ∅)) as Htaken.
  { intros l. unfold or_reserved. destruct (isReservedCloudletObjectDnsLabel l); [done|].
    cbn. by rewrite after_empty. }
  assert (∀ l, isReservedCloudletObjectDnsLabel l || negb (bool_decide (get f (key l) = "")) = true ↔
    l = RootLBHostname ∨ get f (key l) ≠ "") as Ht.
  { intros l. unfold isReservedCloudletObjectDnsLabel. rewrite orb_true_iff, negb_true_iff,
      bool_decide_eq_true, bool_decide_eq_false. unfold reservedCloudletObjectDnsLabels.
    by rewrite elem_of_singleton. }
  assert (Forall (λ ii, is_Some (genNextDnsLabel base maxLen ii)) counters) as Hsome.
  { apply Forall_forall. intros ii Hii. destruct (genNextDnsLabel_ok base maxLen ii Hm Hne Hb Hii)
      as (l & -> & _). by eexists. }
  destruct (stm_pure f ∅ (next_label _ _ _ _ _)) as [r1 w1] eqn:Hr.
  destruct (next_label_run f _ _ Htaken _ _ _ _ _ _ Hsome Hr) as [-> Hok].
  destruct r1 as [l|e].
  - cbn. rewrite insert_empty. intros [= <- <-]. destruct Hok as (Hnt & ii & Hii & Hg).
    destruct (genNextDnsLabel_ok base maxLen ii Hm Hne Hb Hii) as (l' & Hg' & Hlab).
    assert (l' = l) as -> by congruence. split; [done|].
    split; [|split; [|done]].
    + intros ->. apply not_true_iff_false in Hnt. apply Hnt, Ht. by left.
    + apply dec_stable. intros Hg0. apply not_true_iff_false in Hnt. apply Hnt, Ht. by right.
  - intros [= <- <-]. destruct Hok as [-> Hok]. split; [done|]. split; [done|].
    intros ii l Hii Hg. by eapply Ht, Hok.
Qed.

(** The failure of the choice: every candidate is reserved or taken. *)
Definition all_taken (f : snapshot) (key : string → string) (base : string) (maxLen : Z) : Prop :=
  ∀ ii l, ii ∈ counters → genNextDnsLabel base maxLen ii = Some l →
    l = RootLBHostname ∨ get f (key l) ≠ "".
Lemma base_ne s1 s2 : s1 +:+ "-" +:+ s2 ≠ "".
Proof. by destruct s1. Qed.
Lemma appinst_base_ne key : appinst_base key ≠ "".
Proof. unfold appinst_base. cbv zeta. case_decide; apply base_ne. Qed.

(** ** The labels of a region *)

(** The store, the cloudlets with their labels, and the clusters and instances:
    each with its cloudlet and its label. *)
Record labels := mkLabels {
  store : snapshot; clouds : gmap CloudletKey string; objs : list (CloudletKey * string) }.
Definition is_label_key (k : string) : Prop :=
  (∃ l, k = CloudletDnsLabelDbKey l) ∨ ∃ ck l, k = CloudletObjectDnsLabelDbKey ck l.

(** Creates have validated the names; an object is created on a cloudlet that is
    there, and a cloudlet is deleted when it has no objects. *)
Inductive labels_step (s : labels) : labels → Prop :=
| step_cloudlet key l f' :
    clouds s !! key = None → CloudletKey_valid key →
    run_body (claim_cloudlet key) (store s) = (Ok l, f') →
    labels_step s (mkLabels f' (<[key := l]> (clouds s)) (objs s))
| step_cluster key ck l f' :
    is_Some (clouds s !! ck) → ascii_names [clk_Name key; clk_Organization key] →
    run_body (claim_cluster key ck) (store s) = (Ok l, f') →
    labels_step s (mkLabels f' (clouds s) ((ck, l) :: objs s))
| step_appinst key ck l f' :
    is_Some (clouds s !! ck) → ascii_names [aik_Name key; aik_Organization key] →
    run_body (claim_appinst key ck) (store s) = (Ok l, f') →
    labels_step s (mkLabels f' (clouds s) ((ck, l) :: objs s))
| step_del_cloudlet key l f' :
    clouds s !! key = Some l → Forall (λ o, o.1 ≠ key) (objs s) →
    run_body (key_STMDel (CloudletDnsLabelDbKey l)) (store s) = (Ok (), f') →
    labels_step s (mkLabels f' (delete key (clouds s)) (objs s))
| step_del_object i ck l f' :
    objs s !! i = Some (ck, l) →
    run_body (key_STMDel (CloudletObjectDnsLabelDbKey ck l)) (store s) = (Ok (), f') →
    labels_step s (mkLabels f' (clouds s) (list_delete i (objs s)))
| step_other f' :
    (∀ k, is_label_key k → get f' k = get (store s) k) →
    labels_step s (mkLabels f' (clouds s) (objs s)).

Lemma get_write f k v k' : get (after {[k := v]} f) k' = if decide (k' = k) then v else get f k'.
Proof.
  rewrite get_after. case_decide as Hk; [subst; by rewrite lookup_singleton_eq|].
  by rewrite lookup_singleton_ne by congruence.
Qed.
Lemma CloudletDnsLabelDbKey_inj l1 l2 : CloudletDnsLabelDbKey l1 = CloudletDnsLabelDbKey l2 → l1 = l2.
Proof. intros H. by apply str_app_inj_r, str_app_inj_r in H. Qed.
Lemma CloudletObjectDnsLabelDbKey_inj c1 l1 c2 l2 :
  CloudletObjectDnsLabelDbKey c1 l1 = CloudletObjectDnsLabelDbKey c2 l2 → (c1, l1) = (c2, l2).
Proof.
  intros H. apply str_app_inj_r, str_app_inj_r in H. apply (f_equal Unmarshal) in H.
  rewrite !Unmarshal_Marshal in H. by injection H as -> ->.
Qed.
Lemma label_keys_ne l1 ck l2 : CloudletDnsLabelDbKey l1 ≠ CloudletObjectDnsLabelDbKey ck l2.
Proof.
  unfold CloudletDnsLabelDbKey, CloudletObjectDnsLabelDbKey, DbKeyPrefixString. rewrite !str_app_assoc.
  intros H. apply str_app_inj_r, str_app_inj_r in H. done.
Qed.

Record labels_inv (s : labels) : Prop := {
  li_cloud key l : clouds s !! key = Some l →
    label_ok DnsCloudletLabelMaxLen l ∧ get (store s) (CloudletDnsLabelDbKey l) ≠ "";
  li_cloud_inj k1 k2 l : clouds s !! k1 = Some l → clouds s !! k2 = Some l → k1 = k2;
  li_obj ck l : (ck, l) ∈ objs s → is_Some (clouds s !! ck) ∧
    label_ok DnsCloudletObjectLabelMaxLen l ∧ l ≠ RootLBHostname ∧
    get (store s) (CloudletObjectDnsLabelDbKey ck l) ≠ "";
  li_obj_nodup : NoDup (objs s);
}.

(** Changes of the store that keep the labels in use. *)
Lemma labels_inv_store s f' :
  (∀ key l, clouds s !! key = Some l → get f' (CloudletDnsLabelDbKey l) ≠ "") →
  (∀ ck l, (ck, l) ∈ objs s → get f' (CloudletObjectDnsLabelDbKey ck l) ≠ "") →
  labels_inv s → labels_inv (mkLabels f' (clouds s) (objs s)).
Proof.
  intros Hc Ho [H1 H2 H3 H4]. split; simpl; [|done| |done].
  - intros key l Hk. split; [by eapply H1|by eapply Hc].
  - intros ck l Hin. destruct (H3 ck l Hin) as (? & ? & ? & _). split_and!; auto.
Qed.
Lemma labels_inv_object s ck l f' :
  labels_inv s → is_Some (clouds s !! ck) → label_ok DnsCloudletObjectLabelMaxLen l →
  l ≠ RootLBHostname → get (store s) (CloudletObjectDnsLabelDbKey ck l) = "" →
  f' = after {[CloudletObjectDnsLabelDbKey ck l := l]} (store s) →
  labels_inv (mkLabels f' (clouds s) ((ck, l) :: objs s)).
Proof.
  intros Hinv Hck Hok Hr Hget ->. pose proof Hinv as [H1 H2 H3 H4].
  assert (labels_inv (mkLabels (after {[CloudletObjectDnsLabelDbKey ck l := l]} (store s))
    (clouds s) (objs s))) as [G1 G2 G3 G4].
  { apply labels_inv_store; [..|done].
    - intros key l' Hk. rewrite get_write, decide_False by apply label_keys_ne. by eapply H1.
    - intros ck' l' Hin. rewrite get_write. case_decide; [apply Hok|by eapply H3]. }
  split; [done|done| |]; simpl in *.
  - intros ck' l' [[= -> ->]|Hin]%elem_of_cons; [|by apply G3].
    split_and!; [done|done|done|]. rewrite get_write, decide_True by done. apply Hok.
  - apply NoDup_cons. split; [|done]. intros Hin. by apply H3 in Hin as (_ & _ & _ & ?).
Qed.

Lemma labels_step_inv s s' : labels_inv s → labels_step s s' → labels_inv s'.
Proof.
  intros Hinv Hstep. pose proof Hinv as [H1 H2 H3 H4].
  destruct Hstep as [key l f' Hnone Hv Hrun|key ck l f' Hck Hv Hrun|key ck l f' Hck Hv Hrun
    |key l f' Hkey Hobjs Hrun|i ck l f' Hi Hrun|f' Hf'];
    try (apply run_body_ok in Hrun as (w & Hrun & ->)).
  - apply claim_run in Hrun as (Hok & Hr & Hget & ->);
      [|done|apply base_ne|by apply cloudlet_base_chars].
    split; simpl; [| | |done].
    + intros k l' [[<- <-]|[Hne Hk]]%lookup_insert_Some.
      * split; [done|]. rewrite get_write, decide_True by done. apply Hok.
      * split; [by eapply H1|]. rewrite get_write. case_decide; [apply Hok|by eapply H1].
    + intros k1 k2 l' [[<- <-]|[Hn1 Hk1]]%lookup_insert_Some [[<- Hl]|[Hn2 Hk2]]%lookup_insert_Some;
        [done| | |by eapply H2].
      * by apply H1 in Hk2 as [_ ?].
      * subst l'. by apply H1 in Hk1 as [_ ?].
    + intros ck l' Hin. destruct (H3 ck l' Hin) as (Hs & ? & ? & ?). split_and!; [|done|done|].
      * by apply lookup_insert_is_Some'; right.
      * rewrite get_write, decide_False; [done|]. apply not_eq_sym, label_keys_ne.
  - apply claim_run in Hrun as (Hok & Hr & Hget & ->);
      [by eapply labels_inv_object|done|apply base_ne|by apply cluster_base_chars].
  - apply claim_run in Hrun as (Hok & Hr & Hget & ->);
      [by eapply labels_inv_object|done|apply appinst_base_ne|by apply appinst_base_chars].
  - cbn in Hrun. injection Hrun as <-. rewrite insert_empty.
    split; simpl; [| | |done].
    + intros k l' [Hne Hk]%lookup_delete_Some. split; [by eapply H1|].
      rewrite get_write, decide_False; [by eapply H1|].
      intros ->%CloudletDnsLabelDbKey_inj. apply Hne. by eapply H2.
    + intros k1 k2 l' [_ ?]%lookup_delete_Some [_ ?]%lookup_delete_Some. by eapply H2.
    + intros ck l' Hin. destruct (H3 ck l' Hin) as (Hs & ? & ? & ?). split_and!; [|done|done|].
      * rewrite lookup_delete_ne; [done|]. rewrite Forall_forall in Hobjs.
        intros <-. by apply (Hobjs _ Hin).
      * rewrite get_write, decide_False; [done|]. apply not_eq_sym, label_keys_ne.
  - cbn in Hrun. injection Hrun as <-. rewrite insert_empty.
    pose proof (delete_Permutation _ _ _ Hi) as Hperm. rewrite Hperm in H4.
    apply NoDup_cons in H4 as [Hnin Hnd].
    split; simpl; [|done| |done].
    + intros k l' Hk. split; [by eapply H1|].
      rewrite get_write, decide_False by apply label_keys_ne. by eapply H1.
    + intros ck' l' Hin. destruct (H3 ck' l') as (Hs & ? & ? & ?).
      { rewrite Hperm. by right. }
      split_and!; [done..|]. rewrite get_write, decide_False; [done|].
      intros [= -> ->]%CloudletObjectDnsLabelDbKey_inj. done.
  - apply labels_inv_store; [..|done].
    + intros key l Hk. rewrite Hf' by (left; by eexists). by eapply H1.
    + intros ck l Hin. rewrite Hf' by (right; by eexists _, _). by eapply H3.
Qed.

Lemma fqdn_inj l1 c1 l2 c2 :
  str_all dns_char l1 = true → str_all dns_char l2 = true →
  str_all dns_char c1 = true → str_all dns_char c2 = true →
  getFQDN l1 c1 = getFQDN l2 c2 → l1 = l2 ∧ c1 = c2.
Proof.
  assert (∀ s, str_all dns_char s = true → str_avoids "." s) as Hdot.
  { intros s. apply str_all_impl. intros c. apply implb_true_iff. revert c. by_chars. }
  assert (∀ s1 r1 s2 r2, str_avoids "." s1 → str_avoids "." s2 →
    s1 +:+ String "." r1 = s2 +:+ String "." r2 → s1 = s2 ∧ r1 = r2) as Hsplit.
  { intros s1 r1 s2 r2 A1 A2 He. pose proof (f_equal (index_byte ".") He) as Hi.
    rewrite !index_byte_app in Hi by done. injection Hi as Hi.
    pose proof (f_equal (str_take (String.length s1)) He) as Ht.
    rewrite str_take_app, Hi, str_take_app in Ht. subst s2. split; [done|].
    apply str_app_inj_r in He. by injection He. }
  intros Hl1 Hl2 Hc1 Hc2 He. apply Hsplit in He as [-> He]; [|by apply Hdot..].
  split; [done|]. by apply Hsplit in He as [-> _]; [|by apply Hdot..].
Qed.

(** C26: at every moment no two clusters or instances of the region have the
    same domain name, and none has that of the load balancer of a cloudlet;
    every label has at most its maximal length and only the characters of a
    DNS label. *)
Theorem fqdns_unique s :
  rtc labels_step (mkLabels ∅ ∅ []) s →
  (∀ i j ck1 l1 c1 ck2 l2 c2,
    objs s !! i = Some (ck1, l1) → clouds s !! ck1 = Some c1 →
    objs s !! j = Some (ck2, l2) → clouds s !! ck2 = Some c2 →
    getAppInstFQDN l1 c1 = getClusterInstFQDN l2 c2 → i = j) ∧
  (∀ ck1 l1 c1 ck2 c2,
    (ck1, l1) ∈ objs s → clouds s !! ck1 = Some c1 → clouds s !! ck2 = Some c2 →
    getAppInstFQDN l1 c1 ≠ getCloudletRootLBFQDN c2) ∧
  (∀ ck l, (ck, l) ∈ objs s → len l ≤ 63 ∧ str_all dns_char l = true) ∧
  (∀ ck l, clouds s !! ck = Some l → len l ≤ 50 ∧ str_all dns_char l = true).
Proof.
  intros Hreach. assert (labels_inv s) as [H1 H2 H3 H4].
  { assert (labels_inv (mkLabels ∅ ∅ [])) as H0.
    { split; simpl; [done|done| |constructor]. by intros ck l ?%elem_of_nil. }
    revert H0. induction Hreach as [|x y z Hxy _ IH]; [done|]. intros Hx.
    by apply IH, (labels_step_inv x). }
  split; [|split; [|split]].
  - intros i j ck1 l1 c1 ck2 l2 c2 Hi Hc1 Hj Hc2 He.
    destruct (H3 ck1 l1) as (_ & (_ & _ & Hd1) & _); [by eapply list_elem_of_lookup_2|].
    destruct (H3 ck2 l2) as (_ & (_ & _ & Hd2) & _); [by eapply list_elem_of_lookup_2|].
    destruct (H1 _ _ Hc1) as [(_ & _ & Hk1) _]. destruct (H1 _ _ Hc2) as [(_ & _ & Hk2) _].
    apply fqdn_inj in He as [-> ->]; [|done..]. assert (ck1 = ck2) as -> by by eapply H2.
    by eapply NoDup_lookup.
  - intros ck1 l1 c1 ck2 c2 Hin Hc1 Hc2 He.
    destruct (H3 ck1 l1 Hin) as (_ & (_ & _ & Hd1) & Hr & _).
    destruct (H1 _ _ Hc1) as [(_ & _ & Hk1) _]. destruct (H1 _ _ Hc2) as [(_ & _ & Hk2) _].
    by apply fqdn_inj in He as [-> _].
  - intros ck l Hin. destruct (H3 ck l Hin) as (_ & (_ & ? & ?) & _). done.
  - intros ck l Hk. destruct (H1 ck l Hk) as [(_ & ? & ?) _]. done.
Qed.
End Labels.

(** A label that is cut can end with a hyphen, which is not a DNS label. *)
Lemma label_trailing_hyphen :
  let key := mkAppInstKey "game-server-frontend-production" "organization-of-the-europe-region-" in
  let l := cluster_base (mkClusterKey (aik_Name key) (aik_Organization key)) in
  last_char l = Some "-"%char ∧ ValidDNSName l ≠ None ∧
  genNextDnsLabel l DnsCloudletObjectLabelMaxLen 0 = Some l ∧
  ValidName (aik_Name key) = true ∧ ValidName (aik_Organization key) = true.
Proof. vm_compute. split_and!; done. Qed.

Module DnsLabelWitness.
#[local] Instance obj_label_json : Json CloudletObjectDnsLabelKey.
Proof.
  refine (@countable_json _ _ (inj_countable' (λ k, (olk_Cloudlet k, olk_Label k))
    (λ '(c, l), mkObjLabelKey c l) _)).
  - solve_decision.
  - by intros [].
Defined.
Definition ck : CloudletKey := mkCloudletKey "Oper" "Munich_1" "".
Definition f1 : snapshot := (run_body (claim_cloudlet 0 ck) ∅).2.
Definition f2 : snapshot := (run_body (claim_appinst 0 (mkAppInstKey "My App" "Dev") ck) f1).2.
Definition f3 : snapshot := (run_body (claim_cluster 0 (mkClusterKey "myapp" "dev") ck) f2).2.
Definition s3 : labels :=
  mkLabels f3 {[ck := "munich-1-oper"]} [(ck, "myapp-dev1"); (ck, "myapp-dev")].

Lemma reach_s3 : rtc (labels_step 0) (mkLabels ∅ ∅ []) s3.
Proof.
  eapply rtc_l; [eapply (step_cloudlet 0 _ ck "munich-1-oper" f1)|].
  { reflexivity. } { repeat constructor; vm_compute; reflexivity. }
  { apply injective_projections; [vm_compute; reflexivity|reflexivity]. }
  eapply rtc_l; [eapply (step_appinst 0 _ (mkAppInstKey "My App" "Dev") ck "myapp-dev" f2)|].
  { by eexists. } { repeat constructor; vm_compute; reflexivity. }
  { apply injective_projections; [vm_compute; reflexivity|reflexivity]. }
  eapply rtc_l; [eapply (step_cluster 0 _ (mkClusterKey "myapp" "dev") ck "myapp-dev1" f3)|apply rtc_refl].
  { by eexists. } { repeat constructor; vm_compute; reflexivity. }
  { apply injective_projections; [vm_compute; reflexivity|reflexivity]. }
Qed.
Lemma fqdns_unique_witness :
  objs s3 = [(ck, "myapp-dev1"); (ck, "myapp-dev")] ∧
  (∀ i j c, objs s3 !! i = Some (ck, c) → objs s3 !! j = Some (ck, c) → i = j).
Proof.
  split; [reflexivity|]. intros i j c Hi Hj.
  assert (clouds s3 !! ck = Some "munich-1-oper") as Hc by (vm_compute; reflexivity).
  exact (proj1 (fqdns_unique 0 "local" "edge.net" s3 reach_s3) i j ck c _ ck c _ Hi Hc Hj Hc eq_refl).
Defined.
End DnsLabelWitness.
