(* ===== verification/Ports.v ===== *)
(** * Ports (util/ports.go, api/edgeproto/objs.go, controller/appinst_api.go)

    Port specifications of apps, the ports of instances, and the public ports
    that the instances behind a shared load balancer get.  The ports in use on
    the load balancer are kept in [RootLbPorts]: for each port a bit for each
    protocol.  The JSON of annotations, logs and the events of instances are left
    out. *)

From S2P Require Export GoStd.
From S2P Require Import Enums.
From stdpp Require Import gmap.
#[local] Open Scope Z_scope.

(** ** Specifications *)

Definition maxTcpPorts : Z := 1000.
Definition maxUdpPorts : Z := 10000.
Definition maxEnvoyUdpPorts : Z := 1000.
Definition minUDPPktSize : Z := 1500.
Definition maxUDPPktSize : Z := 50000.

Record PortSpec := mkPortSpec {
  ps_Proto : string;
  ps_Port : string;
  ps_EndPort : string;
  ps_Tls : bool;
  ps_Nginx : bool;
  ps_MaxPktSize : Z;
  ps_InternalVisOnly : bool;
  ps_ID : string;
  ps_PathPrefix : string;
  ps_ServiceName : string;
}.
#[global] Instance PortSpec_eq_dec : EqDecision PortSpec.
Proof. solve_decision. Defined.
Definition set_Nginx (s : PortSpec) : PortSpec :=
  mkPortSpec (ps_Proto s) (ps_Port s) (ps_EndPort s) (ps_Tls s) true (ps_MaxPktSize s)
    (ps_InternalVisOnly s) (ps_ID s) (ps_PathPrefix s) (ps_ServiceName s).

Section Parse.
Context {GR : GoRange}.

(** [key] or [key=val]; the last of two with the same key counts. *)
Fixpoint parse_annotations (port : string) (kvs : list string) (m : gmap string string)
    : result (gmap string string) :=
  match kvs with
  | [] => Ok m
  | kv :: kvs' =>
      if decide (kv = "") then
        Err ("invalid AccessPorts annotation " +:+ kv +:+ " for port " +:+ port +:+
             ", expected format is either key or key=val")
      else
        match index_byte "="%char kv with
        | None => parse_annotations port kvs' (<[kv := "true"]> m)
        | Some i => parse_annotations port kvs' (<[str_take i kv := str_drop (S i) kv]> m)
        end
  end.
Definition apply_annotation (pp1 : string) (e : string * string) (s : PortSpec) : result PortSpec :=
  let '(key, val) := e in
  if decide (key = "tls") then
    if decide (ps_Proto s ≠ "tcp" ∧ ps_Proto s ≠ "http") then
      Err ("Invalid protocol " +:+ ps_Proto s +:+ ", not available for tls support")
    else Ok (mkPortSpec (ps_Proto s) (ps_Port s) (ps_EndPort s) true (ps_Nginx s) (ps_MaxPktSize s)
               (ps_InternalVisOnly s) (ps_ID s) (ps_PathPrefix s) (ps_ServiceName s))
  else if decide (key = "nginx") then
    if decide (ps_Proto s ≠ "udp") then
      Err ("Invalid annotation " +:+ quote "nginx" +:+ " for " +:+ ps_Proto s +:+ " ports")
    else Ok (set_Nginx s)
  else if decide (key = "maxpktsize") then
    if decide (ps_Proto s ≠ "udp") then
      Err ("Invalid annotation " +:+ quote "maxpktsize" +:+ " for " +:+ ps_Proto s +:+
           " ports, only valid for UDP protocol")
    else
      match ParseInt val 64 with
      | Err _ => Err ("unable to convert pkt size value: " +:+ val)
      | Ok size =>
          if decide (size < minUDPPktSize ∨ size > maxUDPPktSize) then
            Err ("Invalid maxpktsize, should be between range " +:+ fmt_d minUDPPktSize +:+ " to " +:+
                 fmt_d maxUDPPktSize +:+ " (exclusive)")
          else Ok (mkPortSpec (ps_Proto s) (ps_Port s) (ps_EndPort s) (ps_Tls s) (ps_Nginx s) size
                     (ps_InternalVisOnly s) (ps_ID s) (ps_PathPrefix s) (ps_ServiceName s))
      end
  else if decide (key = "intvis") then
    Ok (mkPortSpec (ps_Proto s) (ps_Port s) (ps_EndPort s) (ps_Tls s) (ps_Nginx s) (ps_MaxPktSize s)
          true (ps_ID s) (ps_PathPrefix s) (ps_ServiceName s))
  else if decide (key = "id") then
    Ok (mkPortSpec (ps_Proto s) (ps_Port s) (ps_EndPort s) (ps_Tls s) (ps_Nginx s) (ps_MaxPktSize s)
          (ps_InternalVisOnly s) val (ps_PathPrefix s) (ps_ServiceName s))
  else if decide (key = "pathprefix") then
    if decide (ps_Proto s ≠ "http") then
      Err ("invalid annotation pathprefix on port " +:+ ps_Port s +:+ ", only allowed on http ports")
    else Ok (mkPortSpec (ps_Proto s) (ps_Port s) (ps_EndPort s) (ps_Tls s) (ps_Nginx s) (ps_MaxPktSize s)
               (ps_InternalVisOnly s) (ps_ID s) val (ps_ServiceName s))
  else if decide (key = "svcname") then
    Ok (mkPortSpec (ps_Proto s) (ps_Port s) (ps_EndPort s) (ps_Tls s) (ps_Nginx s) (ps_MaxPktSize s)
          (ps_InternalVisOnly s) (ps_ID s) (ps_PathPrefix s) val)
  else Err ("unrecognized annotation " +:+ key +:+ "=" +:+ val +:+ " for port " +:+ pp1).
Fixpoint apply_annotations (pp1 : string) (l : list (string * string)) (s : PortSpec) : result PortSpec :=
  match l with
  | [] => Ok s
  | e :: l' => s' ← apply_annotation pp1 e s; apply_annotations pp1 l' s'
  end.

(** The first port and the last, 0 when they are the same. *)
Definition parse_range (pp1 : string) : result (Z * Z) :=
  let portrange := GoStd.split "-"%char pp1 in
  baseport ← map_err (λ _, "unable to convert port range base value") (ParseInt (nth 0 portrange "") 32);
  endport ← (if decide (length portrange = 2%nat)
             then map_err (λ _, "unable to convert port range base value") (ParseInt (nth 1 portrange "") 32)
             else Ok baseport);
  if decide ((baseport < 1 ∨ baseport > 65535) ∨ (endport < 1 ∨ endport > 65535)) then
    Err "App ports out of range"
  else if decide (endport < baseport) then Err "App ports out of range"
  else Ok (baseport, if decide (baseport = endport) then 0 else endport).
Definition count_ports (r : Z * Z) : Z := if decide (r.2 ≠ 0) then r.2 - r.1 + 1 else 1.

(** One specification, with the ports it adds to the counts. *)
Definition parse_port (pstr : string) : result (PortSpec * Z) :=
  match GoStd.split ":"%char pstr with
  | pp0 :: pp1 :: kvs =>
      annotations ← parse_annotations pp1 kvs ∅;
      r ← parse_range pp1;
      let proto := to_lower pp0 in
      if decide (proto ≠ "tcp" ∧ proto ≠ "udp" ∧ proto ≠ "http") then
        Err ("Unsupported protocol: " +:+ pp0)
      else
        s ← apply_annotations pp1 (go_range annotations)
              (mkPortSpec proto (fmt_d r.1) (fmt_d r.2) false false 0 false "" "" "");
        Ok (s, count_ports r)
  | _ => Err ("invalid AccessPorts format '" +:+ pstr +:+ "'")
  end.
Fixpoint parse_ports (pstrs : list string) (tcpPortCount udpPortCount : Z) (ports : list PortSpec)
    : result (list PortSpec * Z * Z) :=
  match pstrs with
  | [] => Ok (ports, tcpPortCount, udpPortCount)
  | pstr :: pstrs' =>
      r ← parse_port pstr;
      let '(s, n) := r in
      if decide (ps_Proto s = "tcp") then parse_ports pstrs' (tcpPortCount + n) udpPortCount (ports ++ [s])
      else parse_ports pstrs' tcpPortCount (udpPortCount + n) (ports ++ [s])
  end.
(** The limits on the numbers of ports. *)
Definition check_counts (ports : list PortSpec) (tcp udp : Z) : result (list PortSpec) :=
  if decide (tcp > maxTcpPorts) then
    Err ("Not allowed to specify more than " +:+ fmt_d maxTcpPorts +:+ " tcp ports")
  else if decide (udp > maxUdpPorts) then
    Err ("Not allowed to specify more than " +:+ fmt_d maxUdpPorts +:+ " udp ports")
  else if decide (udp > maxEnvoyUdpPorts) then
    Ok ((λ s, if decide (ps_Proto s = "udp") then set_Nginx s else s) <$> ports)
  else Ok ports.
Definition ParsePorts (accessPorts : string) : result (list PortSpec) :=
  match parse_ports (GoStd.split ","%char accessPorts) 0 0 [] with
  | Err e => Err e
  | Ok (ports, tcp, udp) => check_counts ports tcp udp
  end.
End Parse.

(** ** Ports of instances *)

Inductive LProto := L_PROTO_UNKNOWN | L_PROTO_TCP | L_PROTO_UDP | L_PROTO_HTTP.
#[global] Instance LProto_eq_dec : EqDecision LProto.
Proof. solve_decision. Defined.
Record InstPort := mkInstPort {
  Proto : LProto;
  InternalPort : Z;
  PublicPort : Z;
  EndPort : Z;
  Tls : bool;
  Nginx : bool;
  MaxPktSize : Z;
  InternalVisOnly : bool;
  Id : string;
  PathPrefix : string;
  ServiceName : string;
}.
#[global] Instance InstPort_eq_dec : EqDecision InstPort.
Proof. solve_decision. Defined.
Definition set_Proto (pr : LProto) (p : InstPort) : InstPort :=
  mkInstPort pr (InternalPort p) (PublicPort p) (EndPort p) (Tls p) (Nginx p) (MaxPktSize p)
    (InternalVisOnly p) (Id p) (PathPrefix p) (ServiceName p).
Definition set_PublicPort (n : Z) (p : InstPort) : InstPort :=
  mkInstPort (Proto p) (InternalPort p) n (EndPort p) (Tls p) (Nginx p) (MaxPktSize p)
    (InternalVisOnly p) (Id p) (PathPrefix p) (ServiceName p).

Definition GetLProto (s0 : string) : result LProto :=
  let s := to_lower s0 in
  if decide (s = "tcp") then Ok L_PROTO_TCP
  else if decide (s = "udp") then Ok L_PROTO_UDP
  else if decide (s = "http") then Ok L_PROTO_HTTP
  else Err ("Unsupported protocol: " +:+ s).
Definition LProtoStr (proto : LProto) : result string :=
  match proto with
  | L_PROTO_TCP => Ok "tcp"
  | L_PROTO_UDP => Ok "udp"
  | L_PROTO_HTTP => Ok "http"
  | L_PROTO_UNKNOWN => Err "Invalid proto 0"
  end.
Definition IsHTTP (p : InstPort) : bool := bool_decide (Proto p = L_PROTO_HTTP).
Definition ProtoPortToString (proto : string) (port : Z) : string :=
  to_lower proto +:+ ":" +:+ fmt_d port.
Definition AppInternalPortToString (port : InstPort) : result string :=
  lproto ← LProtoStr (Proto port); Ok (ProtoPortToString lproto (InternalPort port)).

Definition ReservedPlatformPorts : gmap string string :=
  list_to_map [("tcp:22", "Platform inter-node SSH"); ("tcp:20800", "Kubernetes master join server");
               ("udp:53", "dns udp"); ("tcp:53", "dns tcp")].
(** The first port of the range that is reserved. *)
Fixpoint check_reserved (proto : string) (n : nat) (pnum : Z) : option error :=
  match n with
  | O => None
  | S n' =>
      let pstring := to_lower proto +:+ ":" +:+ fmt_d pnum in
      match ReservedPlatformPorts !! pstring with
      | Some desc => Some ("App cannot use port " +:+ pstring +:+ " - reserved for " +:+ desc)
      | None => check_reserved proto n' (pnum + 1)
      end
  end.
Definition to_instport (s : PortSpec) : result InstPort :=
  proto ← GetLProto (ps_Proto s);
  baseport ← map_err (λ _, "unable to convert port range base value") (ParseInt (ps_Port s) 32);
  endport ← map_err (λ _, "unable to convert port range end value") (ParseInt (ps_EndPort s) 32);
  let lastPort := if decide (endport = 0) then baseport else endport in
  match check_reserved (ps_Proto s) (Z.to_nat (lastPort - baseport + 1)) baseport with
  | Some e => Err e
  | None => Ok (mkInstPort proto baseport 0 endport (ps_Tls s) (ps_Nginx s) (ps_MaxPktSize s)
                  (ps_InternalVisOnly s) (ps_ID s) (ps_PathPrefix s) (ps_ServiceName s))
  end.
Fixpoint to_instports (l : list PortSpec) : result (list InstPort) :=
  match l with
  | [] => Ok []
  | s :: l' => p ← to_instport s; ps ← to_instports l'; Ok (p :: ps)
  end.
Definition ParseAppPorts {GR : GoRange} (ports : string) : result (list InstPort) :=
  if decide (ports = "") then Ok []
  else match ParsePorts ports with Err e => Err e | Ok specs => to_instports specs end.

Definition lastPort (p : InstPort) : Z := if decide (EndPort p = 0) then InternalPort p else EndPort p.
(** With an ingress its controller has all HTTP ports; without, they are TCP. *)
Definition DoPortsOverlap (a b : InstPort) (skipHTTP : bool) : bool :=
  if (IsHTTP a || IsHTTP b) && skipHTTP then false
  else
    let aProto := if IsHTTP a then L_PROTO_TCP else Proto a in
    let bProto := if IsHTTP b then L_PROTO_TCP else Proto b in
    if decide (aProto ≠ bProto ∨ InternalPort a > lastPort b ∨ lastPort a < InternalPort b) then false
    else true.

(** ** Public ports *)

Definition getProtocolBitMap (proto : LProto) : result Z :=
  match proto with
  | L_PROTO_HTTP | L_PROTO_TCP => Ok 1
  | L_PROTO_UDP => Ok 2
  | L_PROTO_UNKNOWN => Err "Unknown protocol in use for this app"
  end.
Definition protocolInUse (protocolsToCheck usedProtocols : Z) : bool :=
  bool_decide (Z.land protocolsToCheck usedProtocols ≠ 0).
Definition addProtocol (protos protocolToAdd : Z) : Z := Z.lor protos protocolToAdd.
Definition removeProtocol (protos protocolToRemove : Z) : Z := Z.land protos (Z.lnot protocolToRemove).
Definition RootLBSharedPortBegin : Z := 10000.
Definition ProxyMetricsPort : Z := 65121.

Definition IngressHTTPPort : string := "INGRESS_HTTP_PORT".
Definition IngressHTTPSPort : string := "INGRESS_HTTPS_PORT".
Definition ingress_port (name : string) (dflt : Z) (what : string) (vars : gmap string string) : result Z :=
  match vars !! name with
  | None => Ok dflt
  | Some val =>
      match Atoi val with
      | Err e => Err ("invalid Ingress " +:+ what +:+ " port value " +:+ val +:+ ", " +:+ e)
      | Ok v => if decide (v <= 0 ∨ v > 65535)
                then Err ("ingress " +:+ what +:+ " port value " +:+ fmt_d v +:+ " out of range") else Ok v
      end
  end.
Definition GetIngressHTTPPort (vars : gmap string string) : result Z :=
  ingress_port IngressHTTPPort 80 "HTTP" vars.
Definition GetIngressHTTPSPort (vars : gmap string string) : result Z :=
  ingress_port IngressHTTPSPort 443 "HTTPS" vars.
(** HTTP ports are fronted by the ingress, or become TCP. *)
Definition resolve_http (usesIngress : bool) (env : gmap string string) (p : InstPort) : result InstPort :=
  if negb (IsHTTP p) then Ok p
  else if negb usesIngress then Ok (set_Proto L_PROTO_TCP p)
  else
    publicPort ← (if Tls p then GetIngressHTTPSPort env else GetIngressHTTPPort env);
    Ok (set_PublicPort publicPort p).
Fixpoint resolve_ports (usesIngress : bool) (env : gmap string string) (l : list InstPort)
    : result (list InstPort) :=
  match l with
  | [] => Ok []
  | p :: l' => p' ← resolve_http usesIngress env p; ps ← resolve_ports usesIngress env l'; Ok (p' :: ps)
  end.

(** *** Behind the shared load balancer *)
Abbreviation RootLbPorts := (gmap Z Z).
Definition port_taken (bits : Z) (m : RootLbPorts) (p : Z) : bool :=
  match m !! p with Some used => protocolInUse bits used | None => false end.
(** The first free port of [n] from [p] on, or -1. *)
Fixpoint find_free (bits : Z) (m : RootLbPorts) (n : nat) (p : Z) : Z :=
  match n with
  | O => -1
  | S n' => if port_taken bits m p then find_free bits m n' (p + 1) else p
  end.
(** The internal port if it is free, else the first free one. *)
Definition choose_port (bits iport : Z) (m : RootLbPorts) : Z :=
  let eport := if port_taken bits m iport then -1
               else if decide (iport ≠ 22 ∧ iport ≠ ProxyMetricsPort) then iport else -1 in
  if decide (eport = -1) then find_free bits m (Z.to_nat (65000 - RootLBSharedPortBegin)) RootLBSharedPortBegin
  else eport.
Definition map_port (p : InstPort) (m : RootLbPorts) : result (InstPort * RootLbPorts) :=
  if decide (EndPort p ≠ 0) then Err "Shared IP access with port range not allowed"
  else if IsHTTP p then Ok (p, m)
  else
    match getProtocolBitMap (Proto p) with
    | Err e => Err e
    | Ok bits =>
        let eport := choose_port bits (InternalPort p) m in
        if decide (eport = -1) then Err "no free external ports"
        else Ok (set_PublicPort eport p, <[eport := addProtocol bits (default 0 (m !! eport))]> m)
    end.
Fixpoint map_ports (l : list InstPort) (m : RootLbPorts) : result (list InstPort * RootLbPorts) :=
  match l with
  | [] => Ok ([], m)
  | p :: l' =>
      match map_port p m with
      | Err e => Err e
      | Ok (p', m') =>
          match map_ports l' m' with Err e => Err e | Ok (ps, m'') => Ok (p' :: ps, m'') end
      end
  end.
(** [strict]: RequireAppInstPortConsistency. *)
Definition unmap_port (strict : bool) (p : InstPort) (m : RootLbPorts) : result RootLbPorts :=
  if IsHTTP p then Ok m
  else
    match getProtocolBitMap (Proto p) with
    | Err e => Err e
    | Ok protocol =>
        let protos := default 0 (m !! PublicPort p) in
        if strict && bool_decide (m !! PublicPort p = None) then
          Err ("Port " +:+ fmt_d (PublicPort p) +:+ " not found in cloudlet refs")
        else if strict && negb (protocolInUse protos protocol) then
          Err ("Port " +:+ fmt_d (PublicPort p) +:+ " proto " +:+ fmt_d protocol +:+ " not found in cloudlet refs")
        else
          let left := removeProtocol protos protocol in
          Ok (if decide (left = 0) then delete (PublicPort p) m else <[PublicPort p := left]> m)
    end.
Fixpoint unmap_ports (strict : bool) (l : list InstPort) (m : RootLbPorts) : result RootLbPorts :=
  match l with
  | [] => Ok m
  | p :: l' => m' ← unmap_port strict p m; unmap_ports strict l' m'
  end.

(** ** Which ports are in use *)

(** A slot of the load balancer: a port and whether it is for UDP. *)
Abbreviation slot := (Z * bool)%type.
Definition slot_bit (udp : bool) : Z := if udp then 1 else 0.
Definition has_slot (m : RootLbPorts) (s : slot) : Prop :=
  Z.testbit (default 0 (m !! s.1)) (slot_bit s.2) = true.
Definition udp_of (proto : LProto) : bool := bool_decide (proto = L_PROTO_UDP).
(** The slots of an instance: its ports that are not behind the ingress. *)
Definition slots (ps : list InstPort) : list slot :=
  omap (λ p, if IsHTTP p then None else Some (PublicPort p, udp_of (Proto p))) ps.
Definition lb_wf (m : RootLbPorts) : Prop := ∀ p v, m !! p = Some v → 0 < v < 4.

Lemma bitmap_pow proto bits : getProtocolBitMap proto = Ok bits → bits = 2 ^ slot_bit (udp_of proto).
Proof. by destruct proto; intros [= <-]. Qed.
Lemma inUse_testbit v udp : protocolInUse (2 ^ slot_bit udp) v = Z.testbit v (slot_bit udp).
Proof.
  unfold protocolInUse. assert (0 <= slot_bit udp) as Hb by (by destruct udp).
  destruct (Z.testbit v (slot_bit udp)) eqn:Hv.
  - apply bool_decide_eq_true. intros H0.
    assert (Z.testbit (Z.land (2 ^ slot_bit udp) v) (slot_bit udp) = true) as Ht
      by (by rewrite Z.land_spec, Z.pow2_bits_true, Hv by done).
    by rewrite H0, Z.bits_0 in Ht.
  - apply bool_decide_eq_false. intros H. apply H. apply Z.bits_inj'. intros i Hi.
    rewrite Z.land_spec, Z.bits_0. destruct (decide (i = slot_bit udp)) as [->|Hne].
    + by rewrite Hv, andb_false_r.
    + by rewrite Z.pow2_bits_false.
Qed.
Lemma taken_slot m p udp : port_taken (2 ^ slot_bit udp) m p = Z.testbit (default 0 (m !! p)) (slot_bit udp).
Proof.
  unfold port_taken. destruct (m !! p); simpl; [apply inUse_testbit|]. by rewrite Z.testbit_0_l.
Qed.

(** The search finds the least free port, or there is none. *)
Lemma find_free_spec bits m n p :
  0 <= p →
  (find_free bits m n p = -1 ∧ ∀ q, p <= q < p + Z.of_nat n → port_taken bits m q = true) ∨
  (p <= find_free bits m n p < p + Z.of_nat n ∧ port_taken bits m (find_free bits m n p) = false ∧
   ∀ q, p <= q < find_free bits m n p → port_taken bits m q = true).
Proof.
  revert p. induction n as [|n IH]; intros p Hp; cbn [find_free].
  { left. split; [done|]. intros q ?. lia. }
  destruct (port_taken bits m p) eqn:Ht.
  - destruct (IH (p + 1)) as [[-> Hall]|(Hr & Hf & Hall)]; [lia|left|right].
    + split; [done|]. intros q Hq. destruct (decide (q = p)) as [->|]; [done|]. apply Hall. lia.
    + split; [lia|]. split; [done|]. intros q Hq. destruct (decide (q = p)) as [->|]; [done|]. apply Hall. lia.
  - right. split; [lia|]. split; [done|]. intros q ?. lia.
Qed.
(** The public port of a port behind the shared load balancer: the internal
    port if nothing has it for the protocol and the load balancer does not need
    it; otherwise the least port of 10000 to 64999 that is free for the
    protocol; and none exactly when all of these are taken. *)
Theorem choose_port_correct bits iport m :
  let e := choose_port bits iport m in
  let own := port_taken bits m iport = false ∧ iport ≠ 22 ∧ iport ≠ ProxyMetricsPort ∧ iport ≠ -1 in
  (own → e = iport) ∧
  (¬ own →
   (e = -1 ∧ ∀ q, RootLBSharedPortBegin <= q < 65000 → port_taken bits m q = true) ∨
   (RootLBSharedPortBegin <= e < 65000 ∧ port_taken bits m e = false ∧
    ∀ q, RootLBSharedPortBegin <= q < e → port_taken bits m q = true)).
Proof.
  cbv zeta. unfold choose_port. split.
  - intros (-> & H22 & Hpm & Hm1). rewrite (decide_True (P := iport ≠ 22 ∧ _)) by done.
    by rewrite decide_False.
  - intros Hown. rewrite decide_True.
    + pose proof (find_free_spec bits m (Z.to_nat (65000 - RootLBSharedPortBegin)) RootLBSharedPortBegin) as H.
      rewrite Z2Nat.id in H by (unfold RootLBSharedPortBegin; lia).
      replace (RootLBSharedPortBegin + (65000 - RootLBSharedPortBegin)) with 65000 in H by lia.
      apply H. unfold RootLBSharedPortBegin. lia.
    + destruct (port_taken bits m iport); [done|]. case_decide as Hd; [|done].
      destruct (decide (iport = -1)); [done|]. exfalso. apply Hown. by destruct Hd.
Qed.
Lemma choose_port_free bits iport m :
  choose_port bits iport m ≠ -1 →
  port_taken bits m (choose_port bits iport m) = false ∧
  choose_port bits iport m ≠ 22 ∧ choose_port bits iport m ≠ ProxyMetricsPort.
Proof.
  unfold choose_port. intros Hne. case_decide as Hd.
  - pose proof (find_free_spec bits m (Z.to_nat (65000 - RootLBSharedPortBegin)) RootLBSharedPortBegin) as H.
    rewrite Z2Nat.id in H by (unfold RootLBSharedPortBegin; lia).
    destruct H as [[H _]|(Hr & Hf & _)]; [unfold RootLBSharedPortBegin; lia|done|].
    split; [done|]. revert Hr. generalize (find_free bits m (Z.to_nat (65000 - RootLBSharedPortBegin)) RootLBSharedPortBegin).
    unfold RootLBSharedPortBegin, ProxyMetricsPort. intros e ?. lia.
  - destruct (port_taken bits m iport) eqn:Ht; [done|]. case_decide as H2; [|done]. by destruct H2.
Qed.

(** *** What mapping and releasing do *)

Lemma has_slot_insert m e v s :
  has_slot (<[e := v]> m) s ↔ if decide (s.1 = e) then Z.testbit v (slot_bit s.2) = true else has_slot m s.
Proof.
  unfold has_slot. case_decide as He; [rewrite He, lookup_insert_eq|rewrite lookup_insert_ne]; done.
Qed.
Lemma lb_value_range v : 0 < v < 4 → v = 1 ∨ v = 2 ∨ v = 3.
Proof. lia. Qed.
Lemma default_range m p : lb_wf m → 0 <= default 0 (m !! p) < 4.
Proof. intros Hwf. destruct (m !! p) as [v|] eqn:Hv; simpl; [apply Hwf in Hv|]; lia. Qed.

Lemma map_port_slots p m p' m' :
  lb_wf m → map_port p m = Ok (p', m') →
  lb_wf m' ∧ IsHTTP p' = IsHTTP p ∧
  if IsHTTP p then m' = m
  else
    let s := (PublicPort p', udp_of (Proto p')) in
    ¬ has_slot m s ∧ s.1 ≠ 22 ∧ s.1 ≠ ProxyMetricsPort ∧ ∀ x, has_slot m' x ↔ has_slot m x ∨ x = s.
Proof.
  intros Hwf. unfold map_port. case_decide; [done|]. destruct (IsHTTP p) eqn:Hh.
  { by intros [= <- <-]. }
  destruct (getProtocolBitMap (Proto p)) as [bits|] eqn:Hb; [|done]. apply bitmap_pow in Hb as ->.
  set (udp := udp_of (Proto p)). set (e := choose_port _ _ m). case_decide as He; [done|]. intros [= <- <-].
  destruct (choose_port_free _ _ _ He) as (Hfree & H22 & Hpm). fold e in Hfree, H22, Hpm.
  rewrite taken_slot in Hfree. pose proof (default_range m e Hwf) as Hr. cbn [PublicPort Proto set_PublicPort].
  fold udp. clearbody udp e.
  split; [|split; [done|]].
  - intros q v Hv. apply lookup_insert_Some in Hv as [[_ <-]|[_ Hv]]; [|by eapply Hwf]. unfold addProtocol.
    assert (default 0 (m !! e) = 0 ∨ default 0 (m !! e) = 1 ∨ default 0 (m !! e) = 2 ∨
      default 0 (m !! e) = 3) as [-> | [-> | [-> | ->]]] by lia; destruct udp; split; vm_compute; reflexivity.
  - cbv zeta. split; [unfold has_slot; simpl; congruence|]. split; [done|]. split; [done|].
    intros [q u]. rewrite has_slot_insert. simpl. unfold addProtocol. case_decide as Hq.
    + subst q. rewrite Z.lor_spec, orb_true_iff. unfold has_slot. simpl.
      assert (Z.testbit (2 ^ slot_bit udp) (slot_bit u) = true ↔ u = udp) as ->
        by (destruct udp, u; simpl; split; done).
      split; intros [H1|H1]; [by right; subst|by left|by right|left; congruence].
    + split; [by left|]. intros [?|[= -> ->]]; done.
Qed.
(** What giving back a port leaves, whether the port was recorded or not. *)
Lemma unmap_port_result strict p m m' :
  lb_wf m → unmap_port strict p m = Ok m' →
  lb_wf m' ∧ ∀ x, has_slot m' x ↔ has_slot m x ∧ (IsHTTP p = true ∨ x ≠ (PublicPort p, udp_of (Proto p))).
Proof.
  intros Hwf. unfold unmap_port. destruct (IsHTTP p) eqn:Hh.
  { intros [= <-]. split; [done|]. intros x. split; [intros ?; by split; [|left]|by intros []]. }
  destruct (getProtocolBitMap (Proto p)) as [bits|] eqn:Hb; [|done].
  apply bitmap_pow in Hb as ->. set (udp := udp_of (Proto p)) in *. set (e := PublicPort p) in *. cbv zeta.
  clearbody udp e. set (v := default 0 (m !! e)).
  destruct (strict && _); [done|]. destruct (strict && _); [done|]. intros [= <-].
  assert (Hv : v = 0 ∨ v = 1 ∨ v = 2 ∨ v = 3).
  { unfold v. destruct (m !! e) as [w|] eqn:Hw; [|by left]. right. by apply lb_value_range, (Hwf _ _ Hw). }
  assert (∀ u, Z.testbit (removeProtocol v (2 ^ slot_bit udp)) (slot_bit u) = true ↔
    Z.testbit v (slot_bit u) = true ∧ u ≠ udp) as Hbits.
  { intros u. unfold removeProtocol. rewrite Z.land_spec, Z.lnot_spec by (by destruct u).
    destruct (Z.testbit v (slot_bit u)), udp, u; simpl; naive_solver. }
  assert (0 <= removeProtocol v (2 ^ slot_bit udp) < 4) as Hrange
    by (destruct Hv as [-> | [-> | [-> | ->]]]; destruct udp; split; vm_compute; congruence).
  split.
  - intros q w. case_decide as H0.
    + intros [_ Hw]%lookup_delete_Some. by eapply Hwf.
    + intros [[_ <-]|[_ Hw]]%lookup_insert_Some; [lia|by eapply Hwf].
  - intros [q u]. destruct (decide (q = e)) as [->|Hq].
    + change (has_slot m (e, u)) with (Z.testbit v (slot_bit u) = true).
      assert ((false = true ∨ (e, u) ≠ (e, udp)) ↔ u ≠ udp) as ->
        by (split; [by intros [?|Hn] ->; [|apply Hn]|intros ?; right; congruence]). rewrite <- Hbits.
      case_decide as H0; unfold has_slot; simpl; [rewrite lookup_delete_eq, H0|rewrite lookup_insert_eq]; done.
    + assert (has_slot (if decide (removeProtocol v (2 ^ slot_bit udp) = 0) then delete e m
        else <[e := removeProtocol v (2 ^ slot_bit udp)]> m) (q, u) ↔ has_slot m (q, u)) as ->
        by (case_decide; unfold has_slot; simpl; [rewrite lookup_delete_ne|rewrite lookup_insert_ne]; done).
      split; [intros ?; split; [done|right; congruence]|by intros []].
Qed.
(** A port that is recorded is found. *)
Lemma unmap_port_found strict p m :
  Proto p ≠ L_PROTO_UNKNOWN → (IsHTTP p = false → has_slot m (PublicPort p, udp_of (Proto p))) →
  ∃ m', unmap_port strict p m = Ok m'.
Proof.
  intros Hpr Hslot. unfold unmap_port. destruct (IsHTTP p) eqn:Hh; [by eexists|]. specialize (Hslot eq_refl).
  destruct (getProtocolBitMap (Proto p)) as [bits|] eqn:Hb; [|by destruct (Proto p)].
  apply bitmap_pow in Hb as ->. unfold has_slot in Hslot. simpl in Hslot.
  destruct (m !! PublicPort p) as [v|] eqn:Hv; [|by rewrite Z.testbit_0_l in Hslot]. simpl in Hslot |- *.
  assert (protocolInUse v (2 ^ slot_bit (udp_of (Proto p))) = true) as ->.
  { unfold protocolInUse. rewrite Z.land_comm. fold (protocolInUse (2 ^ slot_bit (udp_of (Proto p))) v). by rewrite inUse_testbit. }
  rewrite !andb_false_r. by eexists.
Qed.

Lemma slots_cons p ps :
  slots (p :: ps) = (if IsHTTP p then [] else [(PublicPort p, udp_of (Proto p))]) ++ slots ps.
Proof. unfold slots. simpl. by destruct (IsHTTP p). Qed.
Definition usable (s : slot) : Prop := s.1 ≠ 22 ∧ s.1 ≠ ProxyMetricsPort.
Lemma map_port_proto p m p' m' : map_port p m = Ok (p', m') → Proto p' = Proto p ∧ Proto p ≠ L_PROTO_UNKNOWN.
Proof.
  unfold map_port. case_decide; [done|]. unfold IsHTTP. case_bool_decide as Hh.
  - intros [= <- <-]. split; [done|]. by rewrite Hh.
  - destruct (Proto p) eqn:Hp; simpl; try done; case_decide; try done; intros [= <- <-]; (split; [exact Hp|done]).
Qed.
Lemma map_ports_slots l m ps m' :
  lb_wf m → map_ports l m = Ok (ps, m') →
  lb_wf m' ∧ NoDup (slots ps) ∧ Forall usable (slots ps) ∧ (∀ s, s ∈ slots ps → ¬ has_slot m s) ∧
  Forall (λ p, Proto p ≠ L_PROTO_UNKNOWN) ps ∧ ∀ x, has_slot m' x ↔ has_slot m x ∨ x ∈ slots ps.
Proof.
  revert m ps m'. induction l as [|p l IH]; intros m ps m' Hwf; cbn [map_ports].
  { intros [= <- <-]. split; [done|]. split; [constructor|]. split; [constructor|].
    split; [by intros s ?%elem_of_nil|]. split; [constructor|].
    intros x. split; [by left|by intros [?|?%elem_of_nil]]. }
  destruct (map_port p m) as [[p' m1]|] eqn:Hp; [|done].
  destruct (map_ports l m1) as [[ps' m2]|] eqn:Hl; [|done]. intros [= <- <-].
  destruct (map_port_proto _ _ _ _ Hp) as [Hpr Hk].
  destruct (map_port_slots _ _ _ _ Hwf Hp) as (Hwf1 & Hh & H1).
  destruct (IH _ _ _ Hwf1 Hl) as (Hwf2 & Hnd & Hus & Hfree & Hpk & Hall).
  rewrite slots_cons, Hh. destruct (IsHTTP p); simpl.
  - subst m1. split_and!; try done. constructor; [by rewrite Hpr|done].
  - destruct H1 as (Hn & H22 & Hpm & Hm1). split_and!; try done.
    + constructor; [|done]. intros Hin. apply (Hfree _ Hin). apply Hm1. by right.
    + by constructor.
    + intros s [->|Hs]%elem_of_cons; [done|]. intros Hm. apply (Hfree s Hs), Hm1. by left.
    + constructor; [by rewrite Hpr|done].
    + intros x. rewrite Hall, Hm1, elem_of_cons. tauto.
Qed.
Lemma unmap_ports_result strict ps m m' :
  lb_wf m → unmap_ports strict ps m = Ok m' → lb_wf m' ∧ ∀ x, has_slot m' x ↔ has_slot m x ∧ x ∉ slots ps.
Proof.
  revert m. induction ps as [|p ps IH]; intros m Hwf; cbn [unmap_ports].
  { intros [= <-]. split; [done|]. intros x. split; [intros ?; split; [done|by intros ?%elem_of_nil]|by intros []]. }
  intros Hu. apply result_bind_ok in Hu as (m1 & Hp & Hu). destruct (unmap_port_result _ _ _ _ Hwf Hp) as [Hwf1 H1].
  destruct (IH m1 Hwf1 Hu) as [Hwf2 H2]. split; [done|]. intros x. rewrite H2, H1, slots_cons.
  destruct (IsHTTP p); simpl; [|rewrite elem_of_cons]; naive_solver.
Qed.
Lemma unmap_ports_found strict ps m :
  lb_wf m → NoDup (slots ps) → Forall (λ p, Proto p ≠ L_PROTO_UNKNOWN) ps →
  (∀ s, s ∈ slots ps → has_slot m s) → ∃ m', unmap_ports strict ps m = Ok m'.
Proof.
  revert m. induction ps as [|p ps IH]; intros m Hwf Hnd Hpk Hin; cbn [unmap_ports]; [by eexists|].
  inversion_clear Hpk as [|? ? Hp Hps]. rewrite slots_cons in Hnd, Hin.
  destruct (unmap_port_found strict p m Hp) as [m1 Hm1].
  { intros Hh. rewrite Hh in Hin. apply Hin. by left. }
  destruct (unmap_port_result _ _ _ _ Hwf Hm1) as [Hwf1 H1]. rewrite Hm1.
  apply list.NoDup_app in Hnd as (_ & Hdis & Hnd'). apply (IH m1 Hwf1 Hnd' Hps).
  intros s Hs. apply H1. split; [apply Hin, elem_of_app; by right|].
  destruct (IsHTTP p) eqn:Hh; [by left|right]. intros ->. apply (Hdis (PublicPort p, udp_of (Proto p))); [by left|done].
Qed.

(** ** Any creates and deletes *)

Section Cloudlet.
Context {K : Type} `{Countable K}.

(** The instances behind the load balancer of a cloudlet, with their ports and
    whether the ports are still recorded: a delete gives them back when it
    starts, and the instance stays until it has ended.  When the delete fails the
    instance can be deleted again, which gives its ports back again, whoever has
    them by then: [lb_again] is what was given back so. *)
Record lb_state := mkLb { lb_insts : gmap K (list InstPort * bool); lb_ports : RootLbPorts; lb_again : gset slot }.
Inductive lb_step (strict : bool) (s : lb_state) : lb_state → Prop :=
(* a create, or the create again of an instance whose delete failed *)
| lb_create k l ps m :
    (∀ ps0, lb_insts s !! k ≠ Some (ps0, true)) → map_ports l (lb_ports s) = Ok (ps, m) →
    lb_step strict s (mkLb (<[k := (ps, true)]> (lb_insts s)) m (lb_again s))
| lb_delete k ps m :
    lb_insts s !! k = Some (ps, true) → unmap_ports strict ps (lb_ports s) = Ok m →
    lb_step strict s (mkLb (<[k := (ps, false)]> (lb_insts s)) m (lb_again s))
(* a delete after one that failed *)
| lb_delete_again k ps m :
    lb_insts s !! k = Some (ps, false) → unmap_ports strict ps (lb_ports s) = Ok m →
    lb_step strict s (mkLb (lb_insts s) m (lb_again s ∪ list_to_set (slots ps)))
| lb_deleted k ps :
    lb_insts s !! k = Some (ps, false) →
    lb_step strict s (mkLb (delete k (lb_insts s)) (lb_ports s) (lb_again s)).
Definition lb_init : lb_state := mkLb ∅ ∅ ∅.

Record lb_inv (s : lb_state) : Prop := {
  li_wf : lb_wf (lb_ports s);
  li_own k ps : lb_insts s !! k = Some (ps, true) →
    NoDup (slots ps) ∧ Forall usable (slots ps) ∧ Forall (λ p, Proto p ≠ L_PROTO_UNKNOWN) ps;
  li_excl k1 k2 ps1 ps2 x : lb_insts s !! k1 = Some (ps1, true) → lb_insts s !! k2 = Some (ps2, true) →
    x ∈ slots ps1 → x ∈ slots ps2 → x ∉ lb_again s → k1 = k2;
  li_slots x : has_slot (lb_ports s) x → ∃ k ps, lb_insts s !! k = Some (ps, true) ∧ x ∈ slots ps;
  li_kept k ps x : lb_insts s !! k = Some (ps, true) → x ∈ slots ps → x ∉ lb_again s → has_slot (lb_ports s) x;
}.
Lemma lb_inv_init : lb_inv lb_init.
Proof.
  split; simpl.
  - intros p v Hv. by rewrite lookup_empty in Hv.
  - intros k ps Hk. by rewrite lookup_empty in Hk.
  - intros k1 k2 ps1 ps2 x Hk. by rewrite lookup_empty in Hk.
  - intros x. unfold has_slot. rewrite lookup_empty. simpl. by rewrite Z.testbit_0_l.
  - intros k ps x Hk. by rewrite lookup_empty in Hk.
Qed.
Lemma lb_inv_create s k l ps m :
  lb_inv s → (∀ ps0, lb_insts s !! k ≠ Some (ps0, true)) → map_ports l (lb_ports s) = Ok (ps, m) →
  lb_inv (mkLb (<[k := (ps, true)]> (lb_insts s)) m (lb_again s)).
Proof.
  intros [Hwf Hown Hexcl Hsl Hkept] Hk Hl.
  destruct (map_ports_slots _ _ _ _ Hwf Hl) as (Hwf' & Hnd & Hus & Hfree & Hpk & Hall). split; simpl; [done| | | |].
  - intros k' ps' [[<- [= <-]]|[_ Hk']]%lookup_insert_Some; [done|by eapply Hown].
  - assert (∀ k' ps' x, lb_insts s !! k' = Some (ps', true) → x ∈ slots ps' → x ∉ lb_again s → x ∈ slots ps → False) as Hno
      by (intros k' ps' x Hk' Hx Ha Hx'; apply (Hfree x Hx'); eauto).
    intros k1 k2 ps1 ps2 x [[<- [= <-]]|[? H1]]%lookup_insert_Some [[<- [= <-]]|[? H2]]%lookup_insert_Some Hx1 Hx2 Ha;
      [done|exfalso; by eapply Hno|exfalso; by eapply Hno|by eapply Hexcl].
  - intros x. rewrite Hall.
    intros [(k' & ps' & Hk' & Hx)%Hsl|Hx]; [exists k', ps'|exists k, ps; by rewrite lookup_insert_eq].
    rewrite lookup_insert_ne; [done|]. intros <-. by eapply Hk.
  - intros k' ps' x [[<- [= <-]]|[_ Hk']]%lookup_insert_Some Hx Ha; apply Hall; [by right|left; eauto].
Qed.
Lemma lb_inv_delete strict s k ps m :
  lb_inv s → lb_insts s !! k = Some (ps, true) → unmap_ports strict ps (lb_ports s) = Ok m →
  lb_inv (mkLb (<[k := (ps, false)]> (lb_insts s)) m (lb_again s)).
Proof.
  intros [Hwf Hown Hexcl Hsl Hkept] Hk Hm.
  destruct (unmap_ports_result strict ps (lb_ports s) m Hwf Hm) as (Hwf' & Hall).
  assert (∀ k' ps', <[k := (ps, false)]> (lb_insts s) !! k' = Some (ps', true) ↔
    k' ≠ k ∧ lb_insts s !! k' = Some (ps', true)) as Hk'
    by (intros k' ps'; rewrite lookup_insert_Some; naive_solver).
  split; simpl; [done| | | |]; setoid_rewrite Hk'.
  - intros k' ps' [_ ?]. by eapply Hown.
  - intros k1 k2 ps1 ps2 x [_ ?] [_ ?]. by eapply Hexcl.
  - intros x. rewrite Hall. intros [(k' & ps' & Hl & Hx)%Hsl Hn]. exists k', ps'. split_and!; [|done|done].
    intros ->. naive_solver.
  - intros k' ps' x [Hne Hl] Hx Ha. apply Hall. split; [eauto|]. intros Hx'. apply Hne. by eapply Hexcl.
Qed.
Lemma lb_inv_again strict s k ps m :
  lb_inv s → lb_insts s !! k = Some (ps, false) → unmap_ports strict ps (lb_ports s) = Ok m →
  lb_inv (mkLb (lb_insts s) m (lb_again s ∪ list_to_set (slots ps))).
Proof.
  intros [Hwf Hown Hexcl Hsl Hkept] Hk Hm.
  destruct (unmap_ports_result strict ps (lb_ports s) m Hwf Hm) as (Hwf' & Hall).
  split; simpl; [done|done| | |].
  - intros k1 k2 ps1 ps2 x H1 H2 Hx1 Hx2 Ha. eapply Hexcl; [done..|]. set_solver.
  - intros x. rewrite Hall. intros [Hx _]. by apply Hsl.
  - intros k' ps' x Hk' Hx Ha. apply Hall. split; [|set_solver]. eapply Hkept; [done..|]. set_solver.
Qed.
Lemma lb_inv_step strict s s' : lb_inv s → lb_step strict s s' → lb_inv s'.
Proof.
  intros I. destruct 1 as [k l ps m Hk Hl|k ps m Hk Hm|k ps m Hk Hm|k ps Hk];
    [by eapply lb_inv_create|by eapply lb_inv_delete|by eapply lb_inv_again|].
  destruct I as [Hwf Hown Hexcl Hsl Hkept].
  assert (∀ k' ps', delete k (lb_insts s) !! k' = Some (ps', true) ↔ lb_insts s !! k' = Some (ps', true)) as Hk'
    by (intros k' ps'; rewrite lookup_delete_Some; naive_solver).
  split; simpl; [done| | | |]; setoid_rewrite Hk'; done.
Qed.

(** C18: after any creates and deletes behind the shared load balancer of a
    cloudlet, deletes of instances whose delete failed among them: no instance
    has two ports that are the same public port for the same protocol, or one of the
    load balancer; only ports of instances are recorded; and for every public port and
    protocol that no such second delete gave back, at most one instance has it,
    it is recorded when an instance has it, and a delete finds such ports, also when that
    is required.  ([double_release]: a second delete takes the port of another
    instance off the record, and a third instance gets it.) *)
Theorem shared_ports_exact strict s :
  rtc (lb_step strict) lb_init s →
  (∀ k ps, lb_insts s !! k = Some (ps, true) →
     NoDup (slots ps) ∧ Forall usable (slots ps) ∧
     ((∀ x, x ∈ slots ps → x ∉ lb_again s) →
      ∃ m, unmap_ports true ps (lb_ports s) = Ok m ∧ ∀ x, has_slot m x ↔ has_slot (lb_ports s) x ∧ x ∉ slots ps)) ∧
  (∀ k1 k2 ps1 ps2 x, lb_insts s !! k1 = Some (ps1, true) → lb_insts s !! k2 = Some (ps2, true) →
     x ∈ slots ps1 → x ∈ slots ps2 → x ∉ lb_again s → k1 = k2) ∧
  (∀ x, has_slot (lb_ports s) x → ∃ k ps, lb_insts s !! k = Some (ps, true) ∧ x ∈ slots ps) ∧
  (∀ k ps x, lb_insts s !! k = Some (ps, true) → x ∈ slots ps → x ∉ lb_again s → has_slot (lb_ports s) x) ∧
  (∀ p v, lb_ports s !! p = Some v → 0 < v < 4).
Proof.
  intros Hr. assert (lb_inv s) as [Hwf Hown Hexcl Hsl Hkept].
  { pose proof lb_inv_init as I. induction Hr as [|s1 s2 s3 Hstep _ IH]; [done|]. by apply IH, (lb_inv_step strict s1). }
  split_and!; [|done..]. intros k ps Hk. destruct (Hown k ps Hk) as (Hnd & Hus & Hpk). split_and!; [done..|]. intros Ha.
  destruct (unmap_ports_found true ps (lb_ports s) Hwf Hnd Hpk) as [m Hm]; [by eauto|].
  exists m. split; [done|]. by apply (unmap_ports_result true ps (lb_ports s)).
Qed.
End Cloudlet.

(** ** What specifications parse to *)

Definition reserved (proto : LProto) (n : Z) : Prop :=
  (proto = L_PROTO_TCP ∧ (n = 22 ∨ n = 20800 ∨ n = 53)) ∨ (proto = L_PROTO_UDP ∧ n = 53).
Record app_port_ok (p : InstPort) : Prop := {
  po_proto : Proto p ≠ L_PROTO_UNKNOWN;
  po_port : 1 <= InternalPort p <= 65535;
  po_end : EndPort p = 0 ∨ InternalPort p < EndPort p <= 65535;
  po_public : PublicPort p = 0;
  po_tls : Tls p = true → Proto p ≠ L_PROTO_UDP;
  po_nginx : Nginx p = true → Proto p = L_PROTO_UDP;
  po_size : MaxPktSize p = 0 ∨ (Proto p = L_PROTO_UDP ∧ minUDPPktSize <= MaxPktSize p <= maxUDPPktSize);
  po_path : PathPrefix p ≠ "" → Proto p = L_PROTO_HTTP;
  po_reserved n : InternalPort p <= n <= lastPort p → ¬ reserved (Proto p) n;
}.
Definition port_count (p : InstPort) : Z := lastPort p - InternalPort p + 1.
Definition count_proto (f : LProto → bool) (l : list InstPort) : Z :=
  foldr (λ p n, (if f (Proto p) then port_count p else 0) + n) 0 l.
Definition is_tcp (proto : LProto) : bool := bool_decide (proto = L_PROTO_TCP).

(** The same of a specification, with its range as numbers. *)
Record spec_ok (s : PortSpec) (r : Z * Z) : Prop := {
  so_proto : ps_Proto s = "tcp" ∨ ps_Proto s = "udp" ∨ ps_Proto s = "http";
  so_port : ps_Port s = fmt_d r.1;
  so_end : ps_EndPort s = fmt_d r.2;
  so_range : 1 <= r.1 <= 65535 ∧ (r.2 = 0 ∨ r.1 < r.2 <= 65535);
  so_tls : ps_Tls s = true → ps_Proto s ≠ "udp";
  so_nginx : ps_Nginx s = true → ps_Proto s = "udp";
  so_size : ps_MaxPktSize s = 0 ∨ (ps_Proto s = "udp" ∧ minUDPPktSize <= ps_MaxPktSize s <= maxUDPPktSize);
  so_path : ps_PathPrefix s ≠ "" → ps_Proto s = "http";
}.
Lemma set_Nginx_ok s r : ps_Proto s = "udp" → spec_ok s r → spec_ok (set_Nginx s) r.
Proof. intros Hp []. by split. Qed.
Lemma apply_annotation_ok pp1 e s s' r :
  apply_annotation pp1 e s = Ok s' → spec_ok s r → spec_ok s' r ∧ ps_Proto s' = ps_Proto s.
Proof.
  destruct e as [key val]. unfold apply_annotation. intros Hs [H1 H2 H3 H4 H5 H6 H7 H8].
  repeat (case_decide; [|]); try done.
  all: try (destruct (ParseInt val 64) as [size|]; [|done]; case_decide; [done|]).
  all: injection Hs as <-; (split; [|done]); split; try done; simpl.
  - intros _ Hu. match goal with Hn : ¬ (_ ∧ _) |- _ => apply Hn end. by rewrite Hu.
  - right. split; [by destruct (decide (ps_Proto s = "udp"))|lia].
Qed.
Lemma apply_annotations_ok pp1 l s s' r :
  apply_annotations pp1 l s = Ok s' → spec_ok s r → spec_ok s' r ∧ ps_Proto s' = ps_Proto s.
Proof.
  revert s. induction l as [|e l IH]; intros s; cbn [apply_annotations]; [by intros [= <-]|].
  destruct (apply_annotation pp1 e s) as [s1|] eqn:He; [|done]. cbn. intros Hl Hok.
  destruct (apply_annotation_ok _ _ _ _ _ He Hok) as [Hok1 <-]. by apply IH.
Qed.
Lemma parse_range_ok pp1 r :
  parse_range pp1 = Ok r → 1 <= r.1 <= 65535 ∧ (r.2 = 0 ∨ r.1 < r.2 <= 65535).
Proof.
  unfold parse_range. cbv zeta. intros (b & _ & (e & _ & H)%result_bind_ok)%result_bind_ok. revert H.
  case_decide; [done|]. case_decide; [done|]. intros [= <-]. simpl. case_decide; lia.
Qed.

Section Valid.
Context {GR : GoRange}.
Lemma parse_port_ok pstr s n :
  parse_port pstr = Ok (s, n) → ∃ r, spec_ok s r ∧ n = count_ports r.
Proof.
  unfold parse_port. destruct (GoStd.split ":"%char pstr) as [|pp0 [|pp1 kvs]]; try done.
  destruct (parse_annotations pp1 kvs ∅) as [m|]; [|done]. cbn.
  destruct (parse_range pp1) as [r|] eqn:Hr; [|done]. cbn. case_decide as Hp; [done|].
  destruct (apply_annotations pp1 (go_range m) _) as [s'|] eqn:Ha; [|done]. cbn. intros [= <- <-].
  exists r. split; [|done]. refine (proj1 (apply_annotations_ok _ _ _ _ r Ha _)).
  split; simpl; try done; [|by apply (parse_range_ok pp1)|by left].
  destruct (decide (to_lower pp0 = "tcp")), (decide (to_lower pp0 = "udp")),
    (decide (to_lower pp0 = "http")); tauto.
Qed.
Definition count_specs (tcp : bool) (l : list (PortSpec * (Z * Z))) : Z :=
  foldr (λ e n, (if decide (bool_decide (ps_Proto e.1 = "tcp") = tcp) then count_ports e.2 else 0) + n) 0 l.
Lemma parse_ports_ok pstrs tcp udp ports ports' tcp' udp' :
  parse_ports pstrs tcp udp ports = Ok (ports', tcp', udp') →
  ∃ l, ports' = ports ++ l.*1 ∧ Forall (λ e, spec_ok e.1 e.2) l ∧
    tcp' = tcp + count_specs true l ∧ udp' = udp + count_specs false l.
Proof.
  revert tcp udp ports. induction pstrs as [|pstr pstrs IH]; intros tcp udp ports; cbn [parse_ports].
  { intros [= <- <- <-]. exists []. simpl. rewrite app_nil_r. split_and!; [done|constructor|lia|lia]. }
  destruct (parse_port pstr) as [[s n]|] eqn:Hp; [|done]. cbn.
  destruct (parse_port_ok _ _ _ Hp) as (r & Hs & ->).
  case_decide as Htcp; intros (l & -> & Hl & -> & ->)%IH; exists ((s, r) :: l); simpl; rewrite <- app_assoc;
    (split; [done|]); (split; [by constructor|]);
    [rewrite bool_decide_eq_true_2 by done|rewrite bool_decide_eq_false_2 by done]; simpl; split; lia.
Qed.
Lemma ParsePorts_ok str ports :
  ParsePorts str = Ok ports →
  ∃ l, ports = l.*1 ∧ Forall (λ e, spec_ok e.1 e.2) l ∧
    count_specs true l <= maxTcpPorts ∧ count_specs false l <= maxUdpPorts ∧
    (maxEnvoyUdpPorts < count_specs false l → ∀ s, s ∈ ports → ps_Proto s = "udp" → ps_Nginx s = true).
Proof.
  unfold ParsePorts. destruct (parse_ports _ 0 0 []) as [[[ports0 tcp] udp]|] eqn:Hp; [|done].
  destruct (parse_ports_ok _ _ _ _ _ _ _ Hp) as (l & -> & Hl & -> & ->). rewrite app_nil_l, !Z.add_0_l.
  unfold check_counts. case_decide; [done|]. case_decide; [done|]. case_decide as Hn; intros [= <-].
  - set (f := λ s, if decide (ps_Proto s = "udp") then set_Nginx s else s).
    exists ((λ e, (f e.1, e.2)) <$> l).
    assert (∀ s, ps_Proto (f s) = ps_Proto s) as Hf by (intros s; unfold f; by case_decide).
    assert (∀ b, count_specs b ((λ e, (f e.1, e.2)) <$> l) = count_specs b l) as Hc.
    { intros b. clear -Hf. unfold count_specs. induction l as [|e l IH]; [done|]. rewrite fmap_cons. cbn [foldr fst snd]. by rewrite Hf, IH. }
    split; [by rewrite <- !list_fmap_compose|]. rewrite !Hc. split; [|split_and!; [lia|lia|]].
    + apply Forall_fmap. eapply Forall_impl; [exact Hl|]. intros [s r] Hs. simpl in *. unfold f.
      case_decide; [by apply set_Nginx_ok|done].
    + intros _ s (s0 & -> & _)%list_elem_of_fmap. rewrite Hf. intros Hu. unfold f. by rewrite decide_True.
  - exists l. split_and!; [done|done|lia|lia|lia].
Qed.
End Valid.

Lemma check_reserved_none proto n pnum k :
  check_reserved proto n pnum = None → pnum <= k < pnum + Z.of_nat n →
  ReservedPlatformPorts !! (to_lower proto +:+ ":" +:+ fmt_d k) = None.
Proof.
  revert pnum. induction n as [|n IH]; intros pnum; cbn [check_reserved]; [lia|].
  destruct (ReservedPlatformPorts !! (to_lower proto +:+ ":" +:+ fmt_d pnum)) eqn:Hr; [by intros ?|]. intros Hc Hk.
  destruct (decide (k = pnum)) as [->|]; [done|]. apply (IH (pnum + 1)); [done|lia].
Qed.
Definition proto_name (proto : LProto) (s : string) : Prop := LProtoStr proto = Ok s.
Lemma GetLProto_ok s proto : s = "tcp" ∨ s = "udp" ∨ s = "http" → GetLProto s = Ok proto → proto_name proto s.
Proof. intros [->|[->| ->]] H; vm_compute in H; injection H as <-; reflexivity. Qed.
Lemma not_reserved proto s k :
  proto_name proto s → ReservedPlatformPorts !! (to_lower s +:+ ":" +:+ fmt_d k) = None → ¬ reserved proto k.
Proof.
  intros Hp Hk [[-> [->|[->| ->]]]|[-> ->]]; injection Hp as <-; revert Hk; vm_compute; discriminate.
Qed.
Lemma to_instport_ok s r p :
  spec_ok s r → to_instport s = Ok p →
  app_port_ok p ∧ port_count p = count_ports r ∧ proto_name (Proto p) (ps_Proto s) ∧ Nginx p = ps_Nginx s.
Proof.
  intros [H1 H2 H3 H4 H5 H6 H7 H8]. unfold to_instport. rewrite H2, H3, !ParseInt_fmt_d by lia.
  intros (proto & Hpr & H)%result_bind_ok. cbn in H. apply (GetLProto_ok _ _ H1) in Hpr.
  destruct (check_reserved _ _ _) eqn:Hres; [done|]. injection H as <-.
  assert (∀ pr s', proto_name pr s' → proto_name proto (ps_Proto s) → ps_Proto s = s' → proto = pr) as Hinj.
  { intros pr s' Hs' Hp' <-. unfold proto_name in *. destruct proto, pr; simpl in *; congruence. }
  split; [|split; [|done]].
  - split; simpl; try done; try lia.
    + intros ->. done.
    + intros Ht ->. injection Hpr as Hu. by apply (H5 Ht).
    + intros Hn. apply (Hinj L_PROTO_UDP "udp"); [done|done|by apply H6].
    + destruct H7 as [?|[Hu ?]]; [by left|right]. split; [by apply (Hinj L_PROTO_UDP "udp")|done].
    + intros Hn. apply (Hinj L_PROTO_HTTP "http"); [done|done|by apply H8].
    + intros k Hk. apply (not_reserved _ (ps_Proto s)); [done|]. eapply check_reserved_none; [exact Hres|].
      unfold lastPort in Hk. simpl in Hk. case_decide; lia.
  - unfold port_count, count_ports, lastPort. simpl. case_decide; case_decide; lia.
Qed.
Lemma to_instports_ok l ps :
  Forall (λ e, spec_ok e.1 e.2) l → to_instports l.*1 = Ok ps →
  Forall app_port_ok ps ∧ count_proto is_tcp ps = count_specs true l ∧
  count_proto (λ pr, negb (is_tcp pr)) ps = count_specs false l ∧
  ∀ p, p ∈ ps → ∃ s, s ∈ l.*1 ∧ proto_name (Proto p) (ps_Proto s) ∧ Nginx p = ps_Nginx s.
Proof.
  revert ps. induction l as [|[s r] l IH]; intros ps Hl.
  { intros [= <-]. split_and!; [constructor|done|done|]. by intros p ?%elem_of_nil. }
  cbn [fmap list_fmap fst to_instports]. inversion_clear Hl as [|? ? Hs Hl']. simpl in Hs.
  intros (p & Hp & H)%result_bind_ok. apply result_bind_ok in H as (ps' & Hps & [= <-]).
  destruct (to_instport_ok _ _ _ Hs Hp) as (Hok & Hc & Hpr & Hng).
  destruct (IH ps' Hl' Hps) as (H1 & H2 & H3 & H4). split; [by constructor|].
  assert (is_tcp (Proto p) = bool_decide (ps_Proto s = "tcp")) as Htcp.
  { revert Hpr. unfold proto_name. destruct (so_proto _ _ Hs) as [->|[->| ->]], (Proto p); by intros [=]. }
  split; [|split].
  - unfold count_proto, count_specs in *. cbn [foldr fst snd]. rewrite H2, Htcp, Hc. f_equal.
    by case_bool_decide.
  - unfold count_proto, count_specs in *. cbn [foldr fst snd]. rewrite H3, Htcp, Hc. f_equal.
    by case_bool_decide.
  - intros q [->|Hq]%elem_of_cons; [exists s; split; [left|done]|].
    destruct (H4 q Hq) as (s' & Hs' & ?). exists s'. split; [by right|done].
Qed.

(** C29: what a specification of ports parses to: ports and ranges between 1 and
    65535, options only on the protocols that have them, no port of a range that
    the platform reserves for its protocol; at most 1000 TCP ports and 10000
    others in all, and above 1000 others every UDP port uses nginx. *)
Theorem ParseAppPorts_valid {GR : GoRange} str ps :
  ParseAppPorts str = Ok ps →
  Forall app_port_ok ps ∧ count_proto is_tcp ps <= maxTcpPorts ∧
  count_proto (λ pr, negb (is_tcp pr)) ps <= maxUdpPorts ∧
  (maxEnvoyUdpPorts < count_proto (λ pr, negb (is_tcp pr)) ps →
   ∀ p, p ∈ ps → Proto p = L_PROTO_UDP → Nginx p = true).
Proof.
  unfold ParseAppPorts. case_decide.
  { intros [= <-]. split_and!; [constructor|done|done|done]. }
  destruct (ParsePorts str) as [specs|] eqn:Hp; [|done]. intros Hps.
  destruct (ParsePorts_ok _ _ Hp) as (l & -> & Hl & H1 & H2 & H3).
  destruct (to_instports_ok _ _ Hl Hps) as (Hok & -> & -> & Hback). split_and!; [done|done|done|].
  intros Hmany p Hin Hudp. destruct (Hback p Hin) as (s & Hs & Hpr & ->). rewrite Hudp in Hpr.
  injection Hpr as Hpr. by apply (H3 Hmany).
Qed.

Lemma fmt_d_is n m : 0 <= n < 2 ^ 31 → 0 <= m < 2 ^ 31 → fmt_d n = fmt_d m → n = m.
Proof.
  intros Hn Hm He. pose proof (ParseInt_fmt_d n 32 Hn) as H1. rewrite He, ParseInt_fmt_d in H1 by done.
  by injection H1.
Qed.
Lemma reserved_lookup proto s n d :
  proto_name proto s → 0 <= n < 2 ^ 31 → ReservedPlatformPorts !! (s +:+ ":" +:+ fmt_d n) = Some d →
  reserved proto n.
Proof.
  intros Hp Hn Hl%elem_of_list_to_map_2. unfold reserved.
  assert (∀ k, 0 <= k < 2 ^ 31 → fmt_d n = fmt_d k → n = k) as Hk by (intros k ?; by apply fmt_d_is).
  repeat (apply elem_of_cons in Hl as [Hl|Hl]; [injection Hl as He _|]); [..|by apply elem_of_nil in Hl];
    destruct proto; try discriminate Hp; injection Hp as <-; try discriminate He;
    injection He as He; [left|left|right|left]; (split; [done|]).
  - left. by apply Hk.
  - right; left. by apply Hk.
  - by apply Hk.
  - right; right. by apply Hk.
Qed.

(** A port reads back as it is printed. *)
Definition plain_port (proto : LProto) (n : Z) : InstPort :=
  mkInstPort proto n 0 0 false false 0 false "" "" "".
Lemma split_port s n :
  str_avoids ":"%char s → GoStd.split ":"%char (s +:+ ":" +:+ fmt_d n) = [s; fmt_d n].
Proof.
  intros Hs. change (s +:+ ":" +:+ fmt_d n) with (s +:+ String ":"%char (fmt_d n)).
  rewrite split_app by done. f_equal. apply split_avoids, fmt_d_avoids; done.
Qed.
Lemma fmt_d_nonneg n : 0 <= n → fmt_d n = pretty (Z.to_N n).
Proof. intros Hn. unfold fmt_d. by destruct n; [..|lia]. Qed.
Lemma parse_range_one n : 1 <= n <= 65535 → parse_range (fmt_d n) = Ok (n, 0).
Proof.
  intros Hn. unfold parse_range. rewrite split_avoids.
  2: { rewrite fmt_d_nonneg by lia. apply digits_avoid; [done|apply pretty_N_digits]. }
  cbn [nth length]. rewrite ParseInt_fmt_d by lia. cbn [map_err mbind result_bind].
  rewrite decide_False by done. cbn [mbind result_bind].
  rewrite decide_False by lia. rewrite decide_False by lia. by rewrite decide_True.
Qed.
(** C38: the name of an internal port, read as a specification, gives that port,
    for every port that the platform does not reserve. *)
Theorem port_roundtrip {GR : GoRange} proto n :
  proto ≠ L_PROTO_UNKNOWN → 1 <= n <= 65535 → ¬ reserved proto n →
  ∃ str, AppInternalPortToString (plain_port proto n) = Ok str ∧
    ParseAppPorts str = Ok [plain_port proto n].
Proof.
  intros Hp Hn Hres. assert (∃ s, LProtoStr proto = Ok s ∧ to_lower s = s ∧ GetLProto s = Ok proto ∧
    str_avoids ":"%char s ∧ str_avoids ","%char s ∧ (s = "tcp" ∨ s = "udp" ∨ s = "http")) as
    (s & Hs & Hlow & Hg & Hav & Hav2 & Hcase).
  { destruct proto; [done|exists "tcp"|exists "udp"|exists "http"];
      (do 5 (split; [reflexivity|])); tauto. }
  exists (ProtoPortToString s n). unfold AppInternalPortToString. cbn [Proto plain_port]. rewrite Hs.
  split; [done|]. unfold ProtoPortToString. rewrite Hlow. unfold ParseAppPorts.
  rewrite decide_False by (destruct Hcase as [->|[->| ->]]; done).
  assert (ParsePorts (s +:+ ":" +:+ fmt_d n) =
    Ok [mkPortSpec s (fmt_d n) (fmt_d 0) false false 0 false "" "" ""]) as ->.
  { unfold ParsePorts. rewrite split_avoids.
    2: { unfold str_avoids in *. rewrite !str_all_app, Hav2. simpl. apply fmt_d_avoids; done. }
    cbn [parse_ports]. unfold parse_port. rewrite split_port by done. cbn [parse_annotations mbind result_bind].
    rewrite parse_range_one by done. cbn [mbind result_bind]. rewrite Hlow, decide_False by (intros (?&?&?); destruct Hcase as [?|[?|?]]; done).
    rewrite go_range_empty. cbn [apply_annotations mbind result_bind fst snd ps_Proto].
    change (count_ports (n, 0)) with 1. case_decide; reflexivity. }
  cbn [to_instports]. unfold to_instport. cbn [ps_Proto ps_Port ps_EndPort]. rewrite Hg.
  rewrite !ParseInt_fmt_d by lia. cbn [map_err mbind result_bind]. rewrite decide_True by done.
  replace (Z.to_nat (n - n + 1)) with 1%nat by lia. cbn [check_reserved]. rewrite Hlow.
  destruct (ReservedPlatformPorts !! (s +:+ ":" +:+ fmt_d n)) as [d|] eqn:Hd; [|reflexivity].
  destruct Hres. eapply reserved_lookup; [exact Hs|lia|exact Hd].
Qed.

(** ** Overlap *)

(** The protocol that a port takes on a load balancer of its own. *)
Definition lb_proto (skipHTTP : bool) (p : InstPort) : option LProto :=
  if IsHTTP p then if skipHTTP then None else Some L_PROTO_TCP else Some (Proto p).
Definition takes (skipHTTP : bool) (p : InstPort) (proto : LProto) (n : Z) : Prop :=
  lb_proto skipHTTP p = Some proto ∧ InternalPort p <= n <= lastPort p.
Lemma overlap_iff a b skip :
  InternalPort a <= lastPort a → InternalPort b <= lastPort b →
  DoPortsOverlap a b skip = true ↔ ∃ proto n, takes skip a proto n ∧ takes skip b proto n.
Proof.
  intros Ha Hb. unfold takes.
  assert (DoPortsOverlap a b skip = match lb_proto skip a, lb_proto skip b with
    | Some x, Some y => if decide (x ≠ y ∨ InternalPort a > lastPort b ∨ lastPort a < InternalPort b)
                        then false else true
    | _, _ => false end) as ->
    by (unfold DoPortsOverlap, lb_proto; by destruct (IsHTTP a), (IsHTTP b), skip).
  destruct (lb_proto skip a) as [x|], (lb_proto skip b) as [y|].
  2-4: split; [done|by intros (? & ? & [[=] _] & [[=] _])].
  case_decide as Hd.
  - split; [done|]. intros (pr & n & [[= ->] Hn1] & [[= ->] Hn2]). destruct Hd as [?|Hd]; [done|lia].
  - split; [|done]. intros _. destruct (decide (x = y)) as [->|Hxy]; [|by destruct Hd; left].
    assert (¬ (InternalPort a > lastPort b ∨ lastPort a < InternalPort b)) as Hr by (intros ?; apply Hd; by right).
    exists y, (Z.max (InternalPort a) (InternalPort b)). split; (split; [done|lia]).
Qed.

(** *** A load balancer of a cluster *)

Section Dedicated.
Context {K : Type} `{EqDecision K}.

(** What the check reads of an instance on the cluster. *)
Record lb_app := mkLbApp {
  la_Name : string;
  la_State : TrackedState;
  la_DedicatedIp : bool;
  la_MappedPorts : list InstPort;
}.
Definition IsDeleteState (state : TrackedState) : bool :=
  bool_decide (state = DELETE_REQUESTED ∨ state = DELETING ∨ state = DELETE_PREPARE ∨ state = DELETE_DONE).
(** The ports of an instance that are in use there. *)
Definition live_ports (self : K) (get : K → option lb_app) (k : K) : option lb_app :=
  if decide (k = self) then None
  else
    match get k with
    | None => None
    | Some obj =>
        if bool_decide (la_State obj = DELETE_ERROR) || IsDeleteState (la_State obj) then None
        else if la_DedicatedIp obj then None else Some obj
    end.
Fixpoint overlap_one (skipHTTP : bool) (name : string) (a : InstPort) (mapped : list InstPort) : option error :=
  match mapped with
  | [] => None
  | b :: mapped' =>
      if DoPortsOverlap a b skipHTTP then
        Some (if decide (EndPort a ≠ InternalPort a ∧ EndPort a ≠ 0) then
                "port range " +:+ fmt_d (InternalPort a) +:+ "-" +:+ fmt_d (EndPort a) +:+
                " overlaps with ports in use on the cluster"
              else "port " +:+ fmt_d (InternalPort a) +:+ " is already in use on the cluster by AppInst " +:+ name)
      else overlap_one skipHTTP name a mapped'
  end.
Fixpoint overlap_ports (skipHTTP : bool) (obj : lb_app) (appPorts : list InstPort) : option error :=
  match appPorts with
  | [] => None
  | a :: l =>
      match overlap_one skipHTTP (la_Name obj) a (la_MappedPorts obj) with
      | Some e => Some e
      | None => overlap_ports skipHTTP obj l
      end
  end.
(** [apps]: the references of the cluster; [get]: the instances. *)
Fixpoint checkPortOverlapDedicatedLB (appPorts : list InstPort) (self : K) (apps : list K)
    (get : K → option lb_app) (skipHTTP : bool) : option error :=
  match apps with
  | [] => None
  | k :: apps' =>
      match live_ports self get k with
      | None => checkPortOverlapDedicatedLB appPorts self apps' get skipHTTP
      | Some obj =>
          match overlap_ports skipHTTP obj appPorts with
          | Some e => Some e
          | None => checkPortOverlapDedicatedLB appPorts self apps' get skipHTTP
          end
      end
  end.

Lemma overlap_one_none skip name a mapped :
  overlap_one skip name a mapped = None ↔ ∀ b, b ∈ mapped → DoPortsOverlap a b skip = false.
Proof.
  induction mapped as [|b l IH]; simpl; [split; [by intros _ b ?%elem_of_nil|done]|].
  destruct (DoPortsOverlap a b skip) eqn:Ho; [|rewrite IH; split].
  - split; [done|]. intros Hall. specialize (Hall b). rewrite Ho in Hall. by discriminate Hall; left.
  - by intros Hall c [->|?]%elem_of_cons; [|apply Hall].
  - intros Hall c ?. apply Hall. by right.
Qed.
Lemma overlap_ports_none skip obj l :
  overlap_ports skip obj l = None ↔
  ∀ a b, a ∈ l → b ∈ la_MappedPorts obj → DoPortsOverlap a b skip = false.
Proof.
  induction l as [|a l IH]; simpl; [split; [by intros _ a b ?%elem_of_nil|done]|].
  pose proof (overlap_one_none skip (la_Name obj) a (la_MappedPorts obj)) as Hone.
  destruct (overlap_one _ _ _ _) as [e|].
  - split; [done|]. intros Hall. apply Hone. intros b ?. apply Hall; [by left|done].
  - rewrite IH. split.
    + intros Hall c b [->|?]%elem_of_cons ?; [by apply Hone|by apply Hall].
    + intros Hall c b ? ?. apply Hall; [by right|done].
Qed.
(** The check of a create behind the load balancer of its cluster passes
    exactly when none of the app's ports takes, with its protocol, a number that
    a live instance of the cluster without an address of its own has. *)
Theorem dedicated_ports_disjoint appPorts self apps get skip :
  (∀ a, a ∈ appPorts → InternalPort a <= lastPort a) →
  (∀ k obj b, live_ports self get k = Some obj → b ∈ la_MappedPorts obj → InternalPort b <= lastPort b) →
  checkPortOverlapDedicatedLB appPorts self apps get skip = None ↔
  ∀ k obj a b proto n, k ∈ apps → live_ports self get k = Some obj → a ∈ appPorts →
    b ∈ la_MappedPorts obj → takes skip a proto n → takes skip b proto n → False.
Proof.
  intros Ha Hb. assert (checkPortOverlapDedicatedLB appPorts self apps get skip = None ↔
    ∀ k obj, k ∈ apps → live_ports self get k = Some obj → overlap_ports skip obj appPorts = None) as ->.
  { clear Ha Hb. induction apps as [|k apps IH]; simpl; [split; [by intros _ k obj ?%elem_of_nil|done]|].
    destruct (live_ports self get k) as [obj|] eqn:Hl.
    - destruct (overlap_ports skip obj appPorts) as [e|] eqn:Ho; [split; [done|]|rewrite IH; split].
      + intros Hall. specialize (Hall k obj). rewrite Ho in Hall. apply Hall; [by left|done].
      + intros Hall k' obj' [->|?]%elem_of_cons ?; [congruence|by eapply Hall].
      + intros Hall k' obj' ? ?. apply (Hall k'); [by right|done].
    - rewrite IH. split; intros Hall k' obj' Hk' ?; [|apply (Hall k'); [by right|done]].
      apply elem_of_cons in Hk' as [->|?]; [congruence|by eapply Hall]. }
  split.
  - intros Hall k obj a b proto n Hk Hl Hain Hbin Hta Htb.
    pose proof (proj1 (overlap_ports_none skip obj appPorts) (Hall k obj Hk Hl) a b Hain Hbin) as Hno.
    assert (DoPortsOverlap a b skip = true) as Hyes by (apply overlap_iff; eauto). congruence.
  - intros Hall k obj Hk Hl. apply overlap_ports_none. intros a b Hain Hbin.
    destruct (DoPortsOverlap a b skip) eqn:Ho; [|done].
    apply overlap_iff in Ho as (proto & n & ? & ?); [|by eauto..]. exfalso. by eapply Hall.
Qed.
End Dedicated.

(** ** Runs *)
Module PortsWitness.
#[local] Existing Instance canonical_range.
Definition spec : string := "tcp:80:tls,udp:100-200:nginx:maxpktsize=1600,HTTP:8080:pathprefix=/x:id=web".
Definition parsed : list InstPort :=
  [mkInstPort L_PROTO_TCP 80 0 0 true false 0 false "" "" "";
   mkInstPort L_PROTO_UDP 100 0 200 false true 1600 false "" "" "";
   mkInstPort L_PROTO_HTTP 8080 0 0 false false 0 false "web" "/x" ""].
Lemma ParseAppPorts_valid_witness : ParseAppPorts spec = Ok parsed ∧ Forall app_port_ok parsed.
Proof.
  assert (ParseAppPorts spec = Ok parsed) as Hp by (vm_compute; reflexivity).
  split; [exact Hp|]. exact (proj1 (ParseAppPorts_valid spec parsed Hp)).
Defined.
Lemma port_roundtrip_witness :
  ∃ str, AppInternalPortToString (plain_port L_PROTO_UDP 1234) = Ok str ∧
    ParseAppPorts str = Ok [plain_port L_PROTO_UDP 1234].
Proof.
  apply (port_roundtrip L_PROTO_UDP 1234); [discriminate|lia|].
  intros [[? _]|[_ ?]]; [discriminate|lia].
Defined.
(** Two instances want TCP port 80; the first is deleted. *)
Definition web : InstPort := plain_port L_PROTO_TCP 80.
Definition ports1 : list InstPort * RootLbPorts := ([set_PublicPort 80 web], {[80 := 1]}).
Definition ports2 : list InstPort * RootLbPorts :=
  ([set_PublicPort 10000 web], <[10000 := 1]> {[80 := 1]}).
Definition lb1 : lb_state (K := nat) := mkLb (<[1%nat := (ports1.1, true)]> ∅) ports1.2 ∅.
Definition lb2 : lb_state (K := nat) := mkLb (<[2%nat := (ports2.1, true)]> (lb_insts lb1)) ports2.2 ∅.
Definition lb3 : lb_state (K := nat) :=
  mkLb (<[1%nat := (ports1.1, false)]> (lb_insts lb2)) (delete 80 ports2.2) ∅.
Lemma lb_run : rtc (lb_step true) lb_init lb3.
Proof.
  apply (rtc_l _ _ lb1).
  { apply (lb_create true lb_init 1%nat [web]); [by intros ps|]. vm_compute. reflexivity. }
  apply (rtc_l _ _ lb2).
  { apply (lb_create true lb1 2%nat [web]); [by intros ps|]. vm_compute. reflexivity. }
  apply (rtc_l _ _ lb3); [|apply rtc_refl].
  apply (lb_delete true lb2 1%nat ports1.1); vm_compute; reflexivity.
Qed.
Lemma shared_ports_exact_witness :
  rtc (lb_step true) lb_init lb3 ∧ has_slot (lb_ports lb3) (10000, false) ∧
  (∀ x, has_slot (lb_ports lb3) x → ∃ k ps, lb_insts lb3 !! k = Some (ps, true) ∧ x ∈ slots ps).
Proof.
  pose proof (shared_ports_exact true lb3 lb_run) as (_ & _ & Hx & _).
  split; [exact lb_run|]. split; [vm_compute; reflexivity|exact Hx].
Defined.
Definition cluster_app (k : nat) : option lb_app :=
  if decide (k = 1%nat) then Some (mkLbApp "a" READY false [plain_port L_PROTO_TCP 80]) else None.
Lemma dedicated_ports_disjoint_witness :
  checkPortOverlapDedicatedLB [plain_port L_PROTO_HTTP 80] 2%nat [1%nat; 2%nat] cluster_app true = None ∧
  ∀ k obj a b proto n, k ∈ [1%nat; 2%nat] → live_ports 2%nat cluster_app k = Some obj →
    a ∈ [plain_port L_PROTO_HTTP 80] → b ∈ la_MappedPorts obj →
    takes true a proto n → takes true b proto n → False.
Proof.
  assert (checkPortOverlapDedicatedLB [plain_port L_PROTO_HTTP 80] 2%nat [1%nat; 2%nat] cluster_app true = None)
    as Hc by (vm_compute; reflexivity).
  split; [exact Hc|]. apply (dedicated_ports_disjoint [plain_port L_PROTO_HTTP 80] 2%nat [1%nat; 2%nat] cluster_app true).
  - intros a ->%list_elem_of_singleton. vm_compute. discriminate.
  - intros k obj b Hk Hb. unfold live_ports, cluster_app in Hk. case_decide; [done|]. case_decide; [|done].
    simpl in Hk. injection Hk as <-. apply list_elem_of_singleton in Hb as ->. vm_compute. discriminate.
  - exact Hc.
Defined.

(** A range with more than two parts is read as its first port. *)
Example range_of_three : ParseAppPorts "tcp:10-19-30" = Ok [plain_port L_PROTO_TCP 10].
Proof. vm_compute. reflexivity. Qed.
(** HTTP port 22 is not reserved, and is TCP port 22 where there is no ingress. *)
Example http_escapes_reserved :
  is_ok (ParseAppPorts "tcp:22") = false ∧
  ∃ p, ParseAppPorts "http:22" = Ok [p] ∧ resolve_http false ∅ p = Ok (plain_port L_PROTO_TCP 22).
Proof. split; [vm_compute; reflexivity|]. eexists. split; vm_compute; reflexivity. Qed.
(** An instance whose ports were given back when its delete started, and whose
    delete failed, is deleted again: the port that another instance got in the
    meantime is given back, and then given to a third. *)
Definition after_double : lb_state (K := nat) :=
  mkLb (<[3%nat := (ports1.1, true)]> (<[2%nat := (ports1.1, true)]> (<[1%nat := (ports1.1, false)]> (lb_insts lb1))))
    ports1.2 (∅ ∪ list_to_set (slots ports1.1)).
Lemma double_release : rtc (lb_step false) lb_init after_double.
Proof.
  set (i1 := <[1%nat := (ports1.1, false)]> (lb_insts lb1)). set (i2 := <[2%nat := (ports1.1, true)]> i1).
  set (again := ∅ ∪ list_to_set (slots ports1.1) : gset slot).
  apply (rtc_l _ _ lb1).
  { apply (lb_create false lb_init 1%nat [web]); [by intros ps|]. vm_compute. reflexivity. }
  apply (rtc_l _ _ (mkLb i1 ∅ ∅)); [apply (lb_delete false lb1 1%nat ports1.1); vm_compute; reflexivity|].
  apply (rtc_l _ _ (mkLb i2 ports1.2 ∅)).
  { apply (lb_create false (mkLb i1 ∅ ∅) 2%nat [web]); [by intros ps|]. vm_compute. reflexivity. }
  apply (rtc_l _ _ (mkLb i2 ∅ again)).
  { apply (lb_delete_again false (mkLb i2 ports1.2 ∅) 1%nat ports1.1); vm_compute; reflexivity. }
  apply rtc_once. apply (lb_create false (mkLb i2 ∅ again) 3%nat [web]); [by intros ps|]. vm_compute. reflexivity.
Qed.
End PortsWitness.
