(* ===== verification/LookupIdx.v ===== *)
(** * Lookup indexes of the caches (generated code of api/edgeproto)

    An index answers which objects refer to a key: the apps of a policy
    ([AppByAutoProvPolicy]), the policies of a zone ([AutoProvPolicyByZoneKey]),
    the instances on a cloudlet ([AppInstLookup2ByCloudletKey]).  The first two
    are the same generated code for two types; it is stated here for any type.
    A set that is ranged over is visited in the order of [elements]: the visits
    commute. *)

From S2P Require Import Prelude.
From stdpp Require Import gmap sets.

Section Index.
Context {L K O : Type} `{Countable L, Countable K}.
(** [GetKeyVal], and the generated code's "func implemented by the user". *)
Context (key : O → K) (lookups : O → gset L).

Abbreviation index := (gmap L (gset K)).
Implicit Types s : index.

Definition addRef (lookup : L) (k : K) (s : index) : index :=
  <[lookup := {[k]} ∪ default ∅ (s !! lookup)]> s.
Definition removeRef (lookup : L) (k : K) (s : index) : index :=
  match s !! lookup with
  | None => s
  | Some ks =>
      let ks' := ks ∖ {[k]} in
      if decide (size ks' = 0) then delete lookup s else <[lookup := ks']> s
  end.

(** The keys in both sets are deleted from both. *)
Definition drop_common (old new : gset L) : gset L * gset L := (old ∖ new, new ∖ old).
(** The result is the set of lookups that changed. *)
Definition Updated (old : option O) (new : O) (s : index) : index * gset L :=
  let oldKeys := match old with Some o => lookups o | None => ∅ end in
  let '(removed, added) := drop_common oldKeys (lookups new) in
  let s1 := match old with
            | Some o => foldr (λ l, removeRef l (key o)) s (elements removed)
            | None => s
            end in
  (foldr (λ l, addRef l (key new)) s1 (elements added), removed ∪ added).
Definition Deleted (old : O) (s : index) : index :=
  foldr (λ l, removeRef l (key old)) s (elements (lookups old)).
Definition Find (lookup : L) (s : index) : list K := elements (default ∅ (s !! lookup)).
Definition HasRef (lookup : L) (s : index) : bool := bool_decide (is_Some (s !! lookup)).

(** ** The index has exactly the references *)

Definition refers s (l : L) (k : K) : Prop := k ∈ (default ∅ (s !! l) : gset K).
Definition no_empty s : Prop := ∀ l ks, s !! l = Some ks → ks ≠ ∅.

Lemma refers_addRef s l k l' k' :
  refers (addRef l k s) l' k' ↔ refers s l' k' ∨ (l' = l ∧ k' = k).
Proof.
  unfold refers, addRef. destruct (decide (l' = l)) as [->|Hl].
  - rewrite lookup_insert_eq. simpl. set_solver.
  - rewrite lookup_insert_ne by done. set_solver.
Qed.
Lemma refers_removeRef s l k l' k' :
  refers (removeRef l k s) l' k' ↔ refers s l' k' ∧ ¬ (l' = l ∧ k' = k).
Proof.
  unfold refers, removeRef. destruct (s !! l) as [ks|] eqn:Hs.
  - case_decide as Hsize.
    + apply size_empty_inv in Hsize. destruct (decide (l' = l)) as [->|Hl].
      * rewrite lookup_delete_eq, Hs. simpl. set_solver.
      * rewrite lookup_delete_ne by done. set_solver.
    + destruct (decide (l' = l)) as [->|Hl].
      * rewrite lookup_insert_eq, Hs. simpl. set_solver.
      * rewrite lookup_insert_ne by done. set_solver.
  - destruct (decide (l' = l)) as [->|Hl]; [rewrite Hs; simpl|]; set_solver.
Qed.
Lemma refers_add_all s ls k l' k' :
  refers (foldr (λ l, addRef l k) s ls) l' k' ↔ refers s l' k' ∨ (l' ∈ ls ∧ k' = k).
Proof.
  induction ls as [|l ls IH]; simpl; [set_solver|]. rewrite refers_addRef, IH, elem_of_cons.
  naive_solver.
Qed.
Lemma refers_remove_all s ls k l' k' :
  refers (foldr (λ l, removeRef l k) s ls) l' k' ↔ refers s l' k' ∧ ¬ (l' ∈ ls ∧ k' = k).
Proof.
  induction ls as [|l ls IH]; simpl; [set_solver|]. rewrite refers_removeRef, IH, elem_of_cons.
  naive_solver.
Qed.
Lemma no_empty_addRef s l k : no_empty s → no_empty (addRef l k s).
Proof.
  intros Hs l' ks Hl. unfold addRef in Hl.
  apply lookup_insert_Some in Hl as [[-> <-]|[_ Hl]]; [set_solver|by eapply Hs].
Qed.
Lemma no_empty_removeRef s l k : no_empty s → no_empty (removeRef l k s).
Proof.
  intros Hs l' ks Hl. unfold removeRef in Hl. destruct (s !! l) as [kl|]; [|by eapply Hs].
  case_decide as Hsize.
  - apply lookup_delete_Some in Hl as [_ Hl]. by eapply Hs.
  - apply lookup_insert_Some in Hl as [[-> <-]|[_ Hl]]; [|by eapply Hs].
    intros He. apply Hsize. by rewrite He, size_empty.
Qed.
Lemma no_empty_foldr (f : L → index → index) s ls :
  (∀ l s, no_empty s → no_empty (f l s)) → no_empty s → no_empty (foldr f s ls).
Proof. intros Hf Hs. induction ls; simpl; auto. Qed.

(** [objs] is the cache that calls the index on each change. *)
Record index_ok (objs : gmap K O) (s : index) : Prop := {
  ok_refers l k : refers s l k ↔ ∃ o, objs !! k = Some o ∧ l ∈ lookups o;
  ok_no_empty : no_empty s;
}.
Lemma index_ok_init : index_ok ∅ ∅.
Proof.
  split.
  - intros l k. unfold refers. rewrite lookup_empty. split; [set_solver|].
    intros (o & Ho & _). by rewrite lookup_empty in Ho.
  - intros l ks Hl. by rewrite lookup_empty in Hl.
Qed.
Lemma Updated_ok objs s old new :
  (∀ k o, objs !! k = Some o → key o = k) → objs !! key new = old →
  index_ok objs s → index_ok (<[key new := new]> objs) (Updated old new s).1.
Proof.
  intros Hkeys Hold [Hs Hne]. unfold Updated, drop_common; simpl. split.
  - intros l k. rewrite refers_add_all, elem_of_elements.
    assert (refers (match old with Some o => foldr (λ l, removeRef l (key o)) s
          (elements (lookups o ∖ lookups new)) | None => s end) l k ↔
        refers s l k ∧ ¬ (k = key new ∧ l ∉ lookups new)) as Hrem.
    { destruct old as [o|].
      - rewrite refers_remove_all, elem_of_elements, (Hkeys _ _ Hold), elem_of_difference, Hs.
        split; [|naive_solver]. intros [(o' & Ho' & Hl) Hn]. split; [eauto|].
        intros [-> Hnew]. apply Hn. split; [|done]. rewrite Hold in Ho'. by simplify_eq.
      - split; [|tauto]. intros Hr. split; [done|]. intros [-> _].
        apply Hs in Hr as (o & Ho & _). by rewrite Hold in Ho. }
    destruct old as [o|]; rewrite Hrem, Hs; destruct (decide (k = key new)) as [->|Hk].
    + rewrite lookup_insert_eq. split; [|intros (? & [= <-] & Hl)].
      * intros [[_ Hn]|[Hl _]]; exists new; split; try done; [|set_solver].
        destruct (decide (l ∈ lookups new)); [done|]. exfalso. by apply Hn.
      * destruct (decide (l ∈ lookups o)); [left|right; set_solver]. split; [eauto|tauto].
    + rewrite lookup_insert_ne by done. split; [|intros Hl; left; by split; [|intros [? _]]].
      intros [[Hl _]|[_ ?]]; done.
    + rewrite lookup_insert_eq. split; [|intros (? & [= <-] & Hl); right; set_solver].
      intros [[(o & Ho & _) _]|[Hl _]]; [by rewrite Hold in Ho|]. exists new. set_solver.
    + rewrite lookup_insert_ne by done. split; [|intros Hl; left; by split; [|intros [? _]]].
      intros [[Hl _]|[_ ?]]; done.
  - apply no_empty_foldr; [intros; by apply no_empty_addRef|]. destruct old; [|done].
    apply no_empty_foldr; [intros; by apply no_empty_removeRef|done].
Qed.
Lemma Updated_changed old new s l :
  l ∈ (Updated old new s).2 ↔
  ¬ (l ∈ lookups new ↔ ∃ o, old = Some o ∧ l ∈ lookups o).
Proof.
  unfold Updated, drop_common; simpl. destruct (decide (l ∈ lookups new)); destruct old as [o|];
    try destruct (decide (l ∈ lookups o)); set_solver.
Qed.
Lemma Deleted_ok objs s o :
  objs !! key o = Some o → index_ok objs s → index_ok (delete (key o) objs) (Deleted o s).
Proof.
  intros Ho [Hs Hne]. unfold Deleted. split.
  - intros l k. rewrite refers_remove_all, elem_of_elements, Hs.
    destruct (decide (k = key o)) as [->|Hk].
    + rewrite lookup_delete_eq, Ho. naive_solver.
    + rewrite lookup_delete_ne by done. naive_solver.
  - apply no_empty_foldr; [intros; by apply no_empty_removeRef|done].
Qed.

(** *** Any sequence of changes *)

Inductive change := Put (o : O) | Del (k : K).
(** The cache calls back with the object it had. *)
Definition change_step (c : change) (st : gmap K O * index) : gmap K O * index :=
  let '(objs, s) := st in
  match c with
  | Put o => (<[key o := o]> objs, (Updated (objs !! key o) o s).1)
  | Del k => (delete k objs, match objs !! k with Some o => Deleted o s | None => s end)
  end.
Definition changes (cs : list change) : gmap K O * index := foldl (λ st c, change_step c st) (∅, ∅) cs.

Lemma changes_ok cs :
  (∀ k o, (changes cs).1 !! k = Some o → key o = k) ∧ index_ok (changes cs).1 (changes cs).2.
Proof.
  unfold changes. induction cs as [|c cs [Hk Hs]] using rev_ind.
  - simpl. split; [intros k o Ho; by rewrite lookup_empty in Ho|apply index_ok_init].
  - rewrite foldl_app. simpl. destruct (foldl _ _ cs) as [objs s]. simpl in *.
    destruct c as [o|k]; simpl.
    + split; [|by apply Updated_ok]. intros k o'. rewrite lookup_insert_Some. naive_solver.
    + split; [intros k' o; rewrite lookup_delete_Some; naive_solver|].
      destruct (objs !! k) as [o|] eqn:Ho.
      * rewrite <- (Hk _ _ Ho). apply Deleted_ok; [by rewrite (Hk _ _ Ho)|done].
      * by rewrite delete_id.
Qed.

(** C28: after any changes of the cache, [Find] gives exactly the objects that have
    the key, each once, and [HasRef] tells whether there is one. *)
Theorem index_exact cs l :
  let '(objs, s) := changes cs in
  NoDup (Find l s) ∧
  (∀ k, k ∈ Find l s ↔ ∃ o, objs !! k = Some o ∧ l ∈ lookups o) ∧
  (HasRef l s = true ↔ ∃ k o, objs !! k = Some o ∧ l ∈ lookups o).
Proof.
  destruct (changes cs) as [objs s] eqn:Hcs. destruct (changes_ok cs) as [_ [Hs Hne]].
  rewrite Hcs in Hs, Hne; simpl in *. unfold Find, HasRef.
  split; [apply NoDup_elements|]. split.
  - intros k. rewrite elem_of_elements. apply Hs.
  - rewrite bool_decide_eq_true. split.
    + intros [ks Hl]. destruct (set_choose_L ks (Hne _ _ Hl)) as [k Hk]. exists k. apply Hs.
      unfold refers. by rewrite Hl.
    + intros (k & Hk). apply Hs in Hk. unfold refers in Hk.
      destruct (s !! l); [by eexists|]. simpl in Hk. set_solver.
Qed.
End Index.

(** ** An index without the old object *)

(** [AppInstLookup2ByCloudletKey]: the object is only its key and the key it
    is looked up by. *)
Section Lookup2.
Context {L K : Type} `{Countable L, Countable K}.
Abbreviation index := (gmap L (gset K)).

Definition Lookup2_Updated (k : K) (lookup : L) (s : index) : index := addRef lookup k s.
Definition Lookup2_Deleted (k : K) (lookup : L) (s : index) : index := removeRef lookup k s.

(** An object that moves to another key is found under both; deleting it
    leaves the old entry. *)
Lemma moved_object_stays (k : K) (l1 l2 : L) (s : index) :
  l1 ≠ l2 →
  k ∈ Find l1 (Lookup2_Deleted k l2 (Lookup2_Updated k l2 (Lookup2_Updated k l1 s))).
Proof.
  intros Hl. unfold Find. rewrite elem_of_elements.
  change (refers (Lookup2_Deleted k l2 (Lookup2_Updated k l2 (Lookup2_Updated k l1 s))) l1 k).
  unfold Lookup2_Deleted, Lookup2_Updated. rewrite refers_removeRef, !refers_addRef. naive_solver.
Qed.
Lemma lookup2_refers (s : index) (k : K) (l l' : L) k' :
  (refers (Lookup2_Updated k l s) l' k' ↔ refers s l' k' ∨ (l' = l ∧ k' = k)) ∧
  (refers (Lookup2_Deleted k l s) l' k' ↔ refers s l' k' ∧ ¬ (l' = l ∧ k' = k)).
Proof. split; [apply refers_addRef|apply refers_removeRef]. Qed.
End Lookup2.
