(* ===== verification/Sha256.v ===== *)
(** * SHA-256 (crypto/sha256 of Go's standard library)

    The digest that names are made from, on 32-bit words as [Z]. *)

From S2P Require Import Prelude GoStd.
#[local] Open Scope Z_scope.

Definition add32 (a b : Z) : Z := (a + b) mod 2 ^ 32.
Definition rotr (n x : Z) : Z := Z.lor (Z.shiftr x n) (Z.shiftl x (32 - n) mod 2 ^ 32).

(** The fractional parts of the cube roots of the first 64 primes, and of the
    square roots of the first 8. *)
Definition _K : list Z :=
  [1116352408; 1899447441; 3049323471; 3921009573; 961987163; 1508970993; 2453635748; 2870763221;
   3624381080; 310598401; 607225278; 1426881987; 1925078388; 2162078206; 2614888103; 3248222580;
   3835390401; 4022224774; 264347078; 604807628; 770255983; 1249150122; 1555081692; 1996064986;
   2554220882; 2821834349; 2952996808; 3210313671; 3336571891; 3584528711; 113926993; 338241895;
   666307205; 773529912; 1294757372; 1396182291; 1695183700; 1986661051; 2177026350; 2456956037;
   2730485921; 2820302411; 3259730800; 3345764771; 3516065817; 3600352804; 4094571909; 275423344;
   430227734; 506948616; 659060556; 883997877; 958139571; 1322822218; 1537002063; 1747873779;
   1955562222; 2024104815; 2227730452; 2361852424; 2428436474; 2756734187; 3204031479; 3329325298].
Definition init_ : list Z :=
  [1779033703; 3144134277; 1013904242; 2773480762; 1359893119; 2600822924; 528734635; 1541459225].

(** A word of the message schedule, from the words before it, the last first. *)
Definition next_w (ws : list Z) : Z :=
  let w i := nth i ws 0 in
  let v1 := w 1%nat in
  let t1 := Z.lxor (Z.lxor (rotr 17 v1) (rotr 19 v1)) (Z.shiftr v1 10) in
  let v2 := w 14%nat in
  let t2 := Z.lxor (Z.lxor (rotr 7 v2) (rotr 18 v2)) (Z.shiftr v2 3) in
  add32 (add32 t1 (w 6%nat)) (add32 t2 (w 15%nat)).
Fixpoint schedule (n : nat) (ws : list Z) : list Z :=
  match n with O => rev ws | S n' => schedule n' (next_w ws :: ws) end.

Definition round (st : list Z) (kw : Z * Z) : list Z :=
  match st with
  | [a; b; c; d; e; f; g; h] =>
      let s1 := Z.lxor (Z.lxor (rotr 6 e) (rotr 11 e)) (rotr 25 e) in
      let ch := Z.lxor (Z.land e f) (Z.land (Z.lxor e (2 ^ 32 - 1)) g) in
      let t1 := add32 (add32 h s1) (add32 ch (add32 kw.1 kw.2)) in
      let s0 := Z.lxor (Z.lxor (rotr 2 a) (rotr 13 a)) (rotr 22 a) in
      let maj := Z.lxor (Z.lxor (Z.land a b) (Z.land a c)) (Z.land b c) in
      [add32 t1 (add32 s0 maj); a; b; c; add32 d t1; e; f; g]
  | _ => st
  end.
Definition block (h : list Z) (words : list Z) : list Z :=
  zip_with add32 h (fold_left round (zip _K (schedule 48 (rev words))) h).

(** The message, a one bit, zeros to 56 modulo 64 bytes, and the length in bits. *)
Fixpoint be_bytes (n : nat) (z : Z) : list Z :=
  match n with O => [] | S n' => Z.shiftr z (8 * Z.of_nat n') mod 256 :: be_bytes n' z end.
Definition padded (s : string) : list Z :=
  let n := String.length s in
  (byte_val <$> Stdlib.Strings.String.list_ascii_of_string s) ++ 128 :: replicate (Z.to_nat ((55 - Z.of_nat n) mod 64)) 0 ++
  be_bytes 8 (8 * Z.of_nat n).
Fixpoint words (bytes : list Z) : list Z :=
  match bytes with
  | a :: b :: c :: d :: rest => (Z.shiftl a 24 + Z.shiftl b 16 + Z.shiftl c 8 + d) :: words rest
  | _ => []
  end.
Fixpoint blocks (fuel : nat) (h : list Z) (ws : list Z) : list Z :=
  match fuel, ws with
  | S fuel', _ :: _ => blocks fuel' (block h (take 16 ws)) (drop 16 ws)
  | _, _ => h
  end.
(** [Sum256], as words. *)
Definition sha256 (s : string) : list Z :=
  let ws := words (padded s) in blocks (length ws) init_ ws.

(** [%x]: eight digits for each word. *)
Definition hex_digit (z : Z) : ascii :=
  byte_chr (if decide (z < 10) then 48 + z else 87 + z).
Definition hex_word (z : Z) : string :=
  Stdlib.Strings.String.string_of_list_ascii ((λ i, hex_digit (Z.shiftr z (4 * i) mod 16)) <$> [7; 6; 5; 4; 3; 2; 1; 0]).
Definition sha256_hex (s : string) : string := String.concat "" (hex_word <$> sha256 s).

Example sha256_abc :
  sha256_hex "abc" = "ba7816bf8f01cfea414140de5dae2223b00361a396177a9cb410ff61f20015ad".
Proof. vm_compute. reflexivity. Qed.
