(* ===== verification/ProvObjs.v ===== *)
(** * Auto-provisioning: its objects (cloudcommon/autoprov_common.go, api/edgeproto)

    Application instances, their references, and when an instance counts as
    online.  Of the records only what auto-provisioning reads. *)

From S2P Require Export ZoneObjs DnsLabel.
From S2P Require Import Names Sha256.
From stdpp Require Import countable.
#[local] Open Scope Z_scope.

(** ** Data *)

#[global] Instance AppInstKey_eq_dec : EqDecision AppInstKey.
Proof. solve_decision. Defined.
#[global] Instance AppInstKey_countable : Countable AppInstKey.
Proof.
  refine (inj_countable' (λ k, (aik_Name k, aik_Organization k))
    (λ '(n, o), mkAppInstKey n o) _). by intros [].
Defined.

#[global] Instance ClusterKey_eq_dec : EqDecision ClusterKey.
Proof. solve_decision. Defined.
#[global] Instance ClusterKey_countable : Countable ClusterKey.
Proof.
  refine (inj_countable' (λ k, (clk_Name k, clk_Organization k))
    (λ '(n, o), mkClusterKey n o) _). by intros [].
Defined.

Record AppInst := mkAppInst {
  ai_Key : AppInstKey;
  ai_AppKey : AppKey;
  ai_CloudletKey : CloudletKey;
  ai_ZoneKey : ZoneKey;
  ai_Liveness : Liveness;
  ai_State : TrackedState;
  ai_HealthCheck : HealthCheck;
}.
Record CloudletInfo := mkCloudletInfo { ci_Key : CloudletKey; ci_State : CloudletState }.
(** The keys of the maps are the JSON of instance keys. *)
Record AppInstRefs := mkAppInstRefs {
  ar_Key : AppKey;
  Insts : gmap string Z;
  DeleteRequestedInsts : gmap string Z;
}.
#[global] Instance AppInst_eq_dec : EqDecision AppInst.
Proof. solve_decision. Defined.

(** cloudcommon/actions.go *)
Module Actions.
Inductive Action := Create | Delete | Update.
#[global] Instance Action_eq_dec : EqDecision Action.
Proof. solve_decision. Defined.
End Actions.
Abbreviation Action := Actions.Action.

Definition AutoProvReasonDemand : string := "demand".
Definition AutoProvReasonMinMax : string := "minmax".
Definition AutoProvReasonOrphaned : string := "orphaned".
Definition AutoProvMinAlreadyMetError : error := "Create to satisfy min already met, ignoring".
Definition AutoProvPrefix : string := "autoprov".

(** ** Online *)

Definition AutoProvCloudletInfoOnline (ci : CloudletInfo) : bool :=
  if decide (ci_State ci = CLOUDLET_STATE_OFFLINE) then false else true.
Definition AutoProvCloudletOnline (c : Cloudlet) : bool :=
  if decide (cl_MaintenanceState c ≠ NORMAL_OPERATION) then false else true.
Definition AutoProvAppInstOnline (inst : AppInst) (ci : CloudletInfo) (c : Cloudlet) : bool :=
  let online := bool_decide (ai_HealthCheck inst = HEALTH_CHECK_UNKNOWN ∨
                             ai_HealthCheck inst = HEALTH_CHECK_OK) in
  online && AutoProvCloudletInfoOnline ci && AutoProvCloudletOnline c.
Definition AutoProvAppInstGoingOnline (inst : AppInst) (ci : CloudletInfo) (c : Cloudlet) : bool :=
  let going := bool_decide (ai_State inst = CREATE_REQUESTED ∨ ai_State inst = CREATING ∨
                            ai_State inst = CREATING_DEPENDENCIES) in
  going && AutoProvCloudletInfoOnline ci && AutoProvCloudletOnline c.
Definition AppInstBeingDeleted (inst : AppInst) : bool :=
  bool_decide (ai_State inst = DELETE_REQUESTED ∨ ai_State inst = DELETING ∨
               ai_State inst = DELETE_DONE ∨ ai_State inst = NOT_PRESENT).

(** The policies of an app, by name. *)
Definition GetAutoProvPolicies (a : App) : gset string :=
  (if decide (app_AutoProvPolicy a ≠ "") then {[app_AutoProvPolicy a]} else ∅) ∪
  list_to_set (AutoProvPolicies a).
Definition GetAutoProvPolicys (a : App) : gset PolicyKey :=
  set_map (mkPolicyKey (ak_Organization (app_Key a))) (GetAutoProvPolicies a).
Definition GetZoneKeys (p : AutoProvPolicy) : gset ZoneKey := list_to_set (ap_Zones p).
Definition Cloudlet_GetZone (c : Cloudlet) : ZoneKey :=
  if decide (cl_Zone c = "") then mkZoneKey "" "" ""
  else mkZoneKey (ck_Organization (cl_Key c)) (cl_Zone c) (ck_FederatedOrganization (cl_Key c)).

(** ** Names of instances *)

Definition getShortHash (str : string) : string :=
  let strsum := sha256_hex str in
  let num := if decide (Z.of_nat (String.length strsum) > 8) then 8%nat else String.length strsum in
  str_take num strsum.
Definition GetZoneKeyHash (key : ZoneKey) : string :=
  getShortHash (zk_Name key +:+ "::" +:+ zk_Organization key).
Definition GetAutoProvAppInstKey (appKey : AppKey) (zoneKey : ZoneKey) : AppInstKey :=
  let name := AutoProvPrefix +:+ "-" +:+ ak_Name appKey +:+ ak_Version appKey +:+ "-" +:+
              GetZoneKeyHash zoneKey in
  mkAppInstKey (DNSSanitize name) (ak_Organization appKey).

(** Two versions of an app get the same instance in a zone, as do two apps
    whose name and version read the same. *)
Lemma autoprov_key_collision :
  let z := mkZoneKey "op" "munich" "" in
  GetAutoProvAppInstKey (mkAppKey "dev" "game" "1.0") z =
  GetAutoProvAppInstKey (mkAppKey "dev" "game" "10") z ∧
  GetAutoProvAppInstKey (mkAppKey "dev" "game1" "0") z =
  GetAutoProvAppInstKey (mkAppKey "dev" "game" "10") z.
Proof. vm_compute. done. Qed.

(** ** What the generated code has *)
Section Codecs.
Context `{!Json AppInstKey, !Json AppKey, !Json CloudletKey, !Json AppInst, !Json CloudletInfo,
  !Json AppInstRefs}.
#[global] Instance AppInst_codec : ObjCodec AppInstKey AppInst := codec ai_Key (mkAppInstKey "" "").
#[global] Instance CloudletInfo_codec : ObjCodec CloudletKey CloudletInfo :=
  codec ci_Key (mkCloudletKey "" "" "").
#[global] Instance AppInstRefs_codec : ObjCodec AppKey AppInstRefs := codec ar_Key (mkAppKey "" "" "").
#[global] Instance AppInst_stored : Stored AppInstKey AppInst := stored ai_Key _ "AppInst" eq_refl.
#[global] Instance CloudletInfo_stored : Stored CloudletKey CloudletInfo :=
  stored ci_Key _ "CloudletInfo" eq_refl.
#[global] Instance AppInstRefs_stored : Stored AppKey AppInstRefs :=
  stored ar_Key _ "AppInstRefs" eq_refl.
End Codecs.

Module ProvJson.
#[export] Instance AppInst_countable : Countable AppInst.
Proof.
  refine (inj_countable' (λ i, (ai_Liveness i, ai_State i, ai_HealthCheck i, ai_ZoneKey i,
      ai_CloudletKey i, ai_AppKey i, ai_Key i))
    (λ '(l, s, h, z, c, a, k), mkAppInst k a c z l s h) _). by intros [].
Defined.
#[export] Instance CloudletInfo_eq_dec : EqDecision CloudletInfo.
Proof. solve_decision. Defined.
#[export] Instance CloudletInfo_countable : Countable CloudletInfo.
Proof.
  refine (inj_countable' (λ c, (ci_State c, ci_Key c)) (λ '(s, k), mkCloudletInfo k s) _).
  by intros [].
Defined.
#[export] Instance AppInstRefs_eq_dec : EqDecision AppInstRefs.
Proof. solve_decision. Defined.
#[export] Instance AppInstRefs_countable : Countable AppInstRefs.
Proof.
  refine (inj_countable' (λ r, (Insts r, DeleteRequestedInsts r, ar_Key r))
    (λ '(i, d, k), mkAppInstRefs k i d) _). by intros [].
Defined.
End ProvJson.
