(* ===== verification/ProvCheck.v ===== *)
(** * The controller's checks of auto-provisioning calls (autoprovpolicy_api.go)

    Calls of the auto-provisioning service carry their reason.  [appInstCheck]
    runs inside the transaction that creates or deletes the instance and refuses
    what no longer fits the reason.  [autoprov_bounds]: no such call oversteps
    the bounds of the policies.  Of the handlers that create and delete
    instances (appinst_api.go) only what they do with instances and references
    is here: [claim_instance], [release_instance]. *)

From S2P Require Export ProvObjs ZoneApi.
#[local] Open Scope Z_scope.

(** The metadata of a call. *)
Definition CallerAutoProv : string := "caller-auto-prov".
Definition AutoProvReason : string := "auto-prov-reason".
Definition AutoProvPolicyName : string := "auto-prov-policy-name".
Abbreviation metadata := (gmap string (list string)).
Definition autoprov_md (reason policyName : string) : option metadata :=
  Some (<[CallerAutoProv := [""]]> (<[AutoProvReason := [reason]]> {[AutoProvPolicyName := [policyName]]})).

Definition set_Liveness (l : Liveness) (i : AppInst) : AppInst :=
  mkAppInst (ai_Key i) (ai_AppKey i) (ai_CloudletKey i) (ai_ZoneKey i) l (ai_State i) (ai_HealthCheck i).
Definition inst_set_State (s : TrackedState) (i : AppInst) : AppInst :=
  mkAppInst (ai_Key i) (ai_AppKey i) (ai_CloudletKey i) (ai_ZoneKey i) (ai_Liveness i) s (ai_HealthCheck i).
Definition set_CloudletKey (ck : CloudletKey) (i : AppInst) : AppInst :=
  mkAppInst (ai_Key i) (ai_AppKey i) ck (ai_ZoneKey i) (ai_Liveness i) (ai_State i) (ai_HealthCheck i).

Section ProvCheck.
Context (region : Z) {GR : GoRange}.
Context `{JIK : !Json AppInstKey, JAK : !Json AppKey, JCK : !Json CloudletKey, JZK : !Json ZoneKey,
  JPK : !Json PolicyKey, JI : !Json AppInst, JCI : !Json CloudletInfo, JC : !Json Cloudlet,
  JR : !Json AppInstRefs, JP : !Json AutoProvPolicy, JA : !Json App}.

(** ** Counting instances *)

Definition parse_inst_key (s : string) : AppInstKey := KeyStringParse (O := AppInst) s.
(** The elements of a set, in an order of [range]. *)
Definition set_range {A} `{Countable A} (s : gset A) : list A := (go_range (gset_to_gmap () s)).*1.
(** The keys that references range over. *)
Definition ref_keys (refs : AppInstRefs) : list AppInstKey :=
  parse_inst_key <$> (go_range (Insts refs)).*1.

Definition autoProvAppInstOnline (key : AppInstKey) : stm bool :=
  inst ← STMGet region (O := AppInst) key;
  match inst with
  | None => SErr (NotFoundError "AppInst" key)
  | Some i =>
      info ← STMGet region (O := CloudletInfo) (ai_CloudletKey i);
      match info with
      | None => SErr (NotFoundError "Cloudlet" (ai_CloudletKey i))
      | Some ci =>
          cloudlet ← STMGet region (O := Cloudlet) (ai_CloudletKey i);
          match cloudlet with
          | None => SErr (NotFoundError "Cloudlet" (ai_CloudletKey i))
          | Some c => SRet (AutoProvAppInstOnline i ci c)
          end
      end
  end.

Abbreviation counts := (gmap ZoneKey Z).
Definition count_at (m : counts) (z : ZoneKey) : Z := default 0 (m !! z).
Fixpoint count_insts (onlineOnly : bool) (keys : list AppInstKey) (m : counts) : stm counts :=
  match keys with
  | [] => SRet m
  | k :: keys' =>
      inst ← STMGet region (O := AppInst) k;
      match inst with
      | None => count_insts onlineOnly keys' m
      | Some i =>
          if AppInstBeingDeleted i then count_insts onlineOnly keys' m
          else
            online ← (if onlineOnly then autoProvAppInstOnline k else SRet true);
            if (online : bool) then
              count_insts onlineOnly keys' (<[ai_ZoneKey i := count_at m (ai_ZoneKey i) + 1]> m)
            else count_insts onlineOnly keys' m
      end
  end.
Definition getAppInstCountsForAutoProv (refs : AppInstRefs) (onlineOnly : bool) : stm counts :=
  count_insts onlineOnly (ref_keys refs) ∅.

(** [count += countsByZone[*zoneKey]] over the zones of a policy. *)
Definition policy_count (m : counts) (zones : list ZoneKey) : Z :=
  fold_left (λ n z, n + count_at m z) zones 0.

(** ** The checks *)

Definition policy_key (a : App) (pname : string) : PolicyKey :=
  mkPolicyKey (ak_Organization (app_Key a)) pname.
Fixpoint check_demand_policies (action : Action) (a : App) (inst : AppInst) (m : counts)
    (names : list string) : stm () :=
  match names with
  | [] => SRet ()
  | pname :: names' =>
      policy ← STMGet region (O := AutoProvPolicy) (policy_key a pname);
      match policy with
      | None => SErr (NotFoundError "AutoProvPolicy" (policy_key a pname))
      | Some p =>
          let count := policy_count m (ap_Zones p) in
          if negb (bool_decide (ai_ZoneKey inst ∈ ap_Zones p)) then
            check_demand_policies action a inst m names'
          else if decide (action = Actions.Create ∧ MaxInstances p > 0 ∧ count >= MaxInstances p) then
            SErr ("Create would exceed max instances " +:+ fmt_u (MaxInstances p) +:+ " of policy " +:+
                  pk_Name (ap_Key p))
          else if decide (action = Actions.Delete ∧ MinActiveInstances p > 0 ∧ count <= MinActiveInstances p) then
            SErr ("Delete would violate min active instances " +:+ fmt_u (MinActiveInstances p) +:+
                  " of policy " +:+ pk_Name (ap_Key p))
          else check_demand_policies action a inst m names'
      end
  end.
Definition checkDemand (action : Action) (a : App) (inst : AppInst) (refs : AppInstRefs) : stm () :=
  let rest onlineOnly :=
    m ← getAppInstCountsForAutoProv refs onlineOnly;
    check_demand_policies action a inst m (set_range (GetAutoProvPolicies a)) in
  if decide (action = Actions.Delete) then
    online ← autoProvAppInstOnline (ai_Key inst);
    if negb online then SRet () else rest true
  else rest false.
Definition checkMinMax (action : Action) (a : App) (inst : AppInst) (refs : AppInstRefs)
    (policyName : string) : stm () :=
  m ← getAppInstCountsForAutoProv refs (bool_decide (action = Actions.Create));
  policy ← STMGet region (O := AutoProvPolicy) (policy_key a policyName);
  match policy with
  | None => SErr (NotFoundError "AutoProvPolicy" (policy_key a policyName))
  | Some p =>
      let count := policy_count m (ap_Zones p) in
      if decide (action = Actions.Create ∧ MinActiveInstances p > 0 ∧ count >= MinActiveInstances p) then
        SErr AutoProvMinAlreadyMetError
      else if decide (action = Actions.Delete ∧ MaxInstances p > 0 ∧ count <= MaxInstances p) then
        SErr "Delete to satisfy max already met, ignoring"
      else SRet ()
  end.
Fixpoint check_orphaned_policies (a : App) (inst : AppInst) (names : list string) : stm () :=
  match names with
  | [] => SRet ()
  | pname :: names' =>
      policy ← STMGet region (O := AutoProvPolicy) (policy_key a pname);
      match policy with
      | None => check_orphaned_policies a inst names'
      | Some p =>
          if decide (ai_ZoneKey inst ∈ ap_Zones p) then
            SErr ("AppInst " +:+ Marshal (ai_Key inst) +:+ " on Zone in policy " +:+ pname +:+
                  " on App, not orphaned")
          else check_orphaned_policies a inst names'
      end
  end.
Definition checkOrphaned (action : Action) (a : App) (inst : AppInst) : stm () :=
  if decide (action ≠ Actions.Delete) then SRet ()
  else check_orphaned_policies a inst (set_range (GetAutoProvPolicies a)).

(** No other instance of the app on the zone, however it came there. *)
Fixpoint check_zone_free (inst : AppInst) (keys : list AppInstKey) : stm () :=
  match keys with
  | [] => SRet ()
  | k :: keys' =>
      ref ← STMGet region (O := AppInst) k;
      match ref with
      | None => check_zone_free inst keys'
      | Some i =>
          if decide (ai_ZoneKey inst = ai_ZoneKey i) then
            SErr ("already an AppInst on Zone " +:+ Marshal (ai_ZoneKey i))
          else check_zone_free inst keys'
      end
  end.

(** The reason and the policy of a call of the service: the first values. *)
Definition md_caller (md : metadata) : option (string * string) :=
  if decide (md !! CallerAutoProv = None) then None
  else
    reason ← md !! AutoProvReason ≫= head;
    pname ← md !! AutoProvPolicyName ≫= head;
    Some (reason, pname).
(** The instance comes back marked. *)
Definition appInstCheck (md : option metadata) (action : Action) (a : App) (inst : AppInst)
    : stm AppInst :=
  match md with
  | None =>
      if has_prefix (aik_Name (ai_Key inst)) (AutoProvPrefix +:+ "-") then
        SErr ("AppInst name prefix " +:+ AutoProvPrefix +:+ "-" +:+
              " is reserved for auto-provisioned instances, please choose a different name")
      else SRet inst
  | Some md =>
      match md_caller md with
      | None => SRet inst
      | Some (reason, policyName) =>
          let inst' := if decide (action = Actions.Create) then set_Liveness LIVENESS_AUTOPROV inst else inst in
          refs ← STMGet region (O := AppInstRefs) (app_Key a);
          let refs := default (mkAppInstRefs (app_Key a) ∅ ∅) refs in
          _ ← (if decide (action = Actions.Create) then check_zone_free inst' (ref_keys refs) else SRet ());
          _ ← (if decide (reason = AutoProvReasonDemand) then checkDemand action a inst' refs
               else if decide (reason = AutoProvReasonMinMax) then
                 checkMinMax action a inst' refs policyName
               else if decide (reason = AutoProvReasonOrphaned) then checkOrphaned action a inst'
               else SRet ());
          SRet inst'
      end
  end.

(** ** References (appinstrefs_api.go) *)

Definition get_refs (key : AppKey) (r : option AppInstRefs) : AppInstRefs :=
  match r with Some refs => refs | None => mkAppInstRefs key ∅ ∅ end.
Definition addRef (appKey : AppKey) (key : AppInstKey) : stm () :=
  r ← STMGet region appKey;
  let refs := get_refs appKey r in
  STMPut region (mkAppInstRefs (ar_Key refs) (<[GetKeyString (O := AppInst) key := 1]> (Insts refs))
    (DeleteRequestedInsts refs)).
Definition removeRef (appKey : AppKey) (key : AppInstKey) : stm () :=
  r ← STMGet region (O := AppInstRefs) appKey;
  match r with
  | None => SRet ()
  | Some refs =>
      STMPut region (mkAppInstRefs (ar_Key refs) (delete (GetKeyString (O := AppInst) key) (Insts refs))
        (delete (GetKeyString (O := AppInst) key) (DeleteRequestedInsts refs)))
  end.
Definition addDeleteRequestedRef (appKey : AppKey) (key : AppInstKey) : stm () :=
  r ← STMGet region appKey;
  let refs := get_refs appKey r in
  STMPut region (mkAppInstRefs (ar_Key refs) (Insts refs)
    (<[GetKeyString (O := AppInst) key := 1]> (DeleteRequestedInsts refs))).
Definition removeDeleteRequestedRef (appKey : AppKey) (key : AppInstKey) : stm () :=
  r ← STMGet region (O := AppInstRefs) appKey;
  match r with
  | None => SRet ()
  | Some refs =>
      STMPut region (mkAppInstRefs (ar_Key refs) (Insts refs)
        (delete (GetKeyString (O := AppInst) key) (DeleteRequestedInsts refs)))
  end.
Definition createRef (key : AppKey) : stm () := STMPut region (mkAppInstRefs key ∅ ∅).
Definition deleteRef (key : AppKey) : stm () := STMDel region (O := AppInstRefs) key.

(** ** What the handlers do *)

(** Of the transaction of createAppInstInternal what it does with the app, the
    instance and the references, on a cloudlet that it chose; the resources, the
    cluster and the flavor are left out.  An instance whose delete failed is
    created again as it was. *)
Definition claim_instance (md : option metadata) (inst : AppInst) (ck : CloudletKey) : stm () :=
  app ← STMGet region (O := App) (ai_AppKey inst);
  match app with
  | None => SErr (NotFoundError "App" (ai_AppKey inst))
  | Some a =>
      if app_DeletePrepare a then SErr (BeingDeletedError "App" (ai_AppKey inst))
      else
        inst' ← appInstCheck md Actions.Create a inst;
        cur ← STMGet region (O := AppInst) (ai_Key inst');
        let put i :=
          _ ← STMPut region (inst_set_State CREATING_DEPENDENCIES (set_CloudletKey ck i));
          addRef (ai_AppKey i) (ai_Key i) in
        match cur with
        | Some i => if decide (ai_State i ≠ DELETE_ERROR) then SErr (ExistsError "AppInst" (ai_Key i))
                    else put i
        | None => put inst'
        end
  end.
(** The same of the transaction of deleteAppInstInternal that marks the instance. *)
Definition release_instance (md : option metadata) (key : AppInstKey) : stm () :=
  cur ← STMGet region (O := AppInst) key;
  match cur with
  | None => SErr (NotFoundError "AppInst" key)
  | Some i =>
      app ← STMGet region (O := App) (ai_AppKey i);
      match app with
      | None => SErr ("For AppInst, " +:+ NotFoundError "App" (ai_AppKey i))
      | Some a =>
          i' ← appInstCheck md Actions.Delete a i;
          _ ← STMPut region (inst_set_State DELETE_REQUESTED i');
          addDeleteRequestedRef (ai_AppKey i') (ai_Key i')
      end
  end.

(** ** What the counts are *)

Abbreviation inst_at := (obj_at region (O := AppInst)).
Abbreviation policy_at := (obj_at region (O := AutoProvPolicy)).
Definition refs_at (f : snapshot) (key : AppKey) : AppInstRefs :=
  default (mkAppInstRefs key ∅ ∅) (obj_at region f key).
Definition online_at (f : snapshot) (k : AppInstKey) : bool :=
  match inst_at f k with
  | Some i =>
      match obj_at region (O := CloudletInfo) f (ai_CloudletKey i),
            obj_at region (O := Cloudlet) f (ai_CloudletKey i) with
      | Some ci, Some c => AutoProvAppInstOnline i ci c
      | _, _ => false
      end
  | None => false
  end.
(** The zone that an instance counts for. *)
Definition counted (f : snapshot) (onlineOnly : bool) (k : AppInstKey) : option ZoneKey :=
  i ← inst_at f k;
  if AppInstBeingDeleted i || (onlineOnly && negb (online_at f k)) then None else Some (ai_ZoneKey i).
Definition counts_for (f : snapshot) (onlineOnly : bool) (zs : list ZoneKey) (k : AppInstKey) : Prop :=
  match counted f onlineOnly k with Some z => z ∈ zs | None => False end.
#[global] Instance counts_for_dec f b zs k : Decision (counts_for f b zs k).
Proof. unfold counts_for. destruct (counted f b k); apply _. Defined.
(** The instances of an app that run in the zones, or that are online there. *)
Definition live (f : snapshot) (onlineOnly : bool) (key : AppKey) (zs : list ZoneKey) : Z :=
  Z.of_nat (length (filter (counts_for f onlineOnly zs) (ref_keys (refs_at f key)))).

Record prov_wf (f : snapshot) : Prop := {
  pw_app : well_stored region (O := App) f;
  pw_inst : well_stored region (O := AppInst) f;
  pw_refs : well_stored region (O := AppInstRefs) f;
  (** references are the JSON of keys *)
  pw_canonical key s : is_Some (Insts (refs_at f key) !! s) →
    GetKeyString (O := AppInst) (parse_inst_key s) = s;
  (** [configureZones] *)
  pw_zones pk p : policy_at f pk = Some p → NoDup (ap_Zones p);
}.

Ltac step H :=
  first [rewrite pure_STMGet in H | rewrite pure_STMHas in H]; cbn [stm_pure] in H.

Lemma online_run f k r w :
  stm_pure f ∅ (autoProvAppInstOnline k) = (r, w) → w = ∅ ∧ ∀ b, r = Ok b → b = online_at f k.
Proof.
  intros Hrun. unfold autoProvAppInstOnline in Hrun. step Hrun. unfold online_at.
  destruct (inst_at f k) as [i|]; [|by simplify_eq/=]. step Hrun.
  destruct (obj_at region f (ai_CloudletKey i)) as [ci|]; [|by simplify_eq/=]. step Hrun.
  destruct (obj_at region f (ai_CloudletKey i)) as [c|]; simplify_eq/=; [|done].
  split; [done|]. by intros b [= <-].
Qed.

(** Reading does not write. *)
Fixpoint reads {A} (m : stm A) : Prop :=
  match m with
  | SGet _ k => ∀ v, reads (k v)
  | SPut _ _ _ | SDel _ _ => False
  | _ => True
  end.
Lemma reads_pure {A} (m : stm A) f w : reads m → (stm_pure f w m).2 = w.
Proof. induction m; simpl; intros Hm; try done. auto. Qed.
Lemma reads_bind {A B} (m : stm A) (k : A → stm B) : reads m → (∀ a, reads (k a)) → reads (m ≫= k).
Proof. intros Hm Hk. induction m; simpl in *; auto. Qed.
Ltac reads_auto := repeat first
  [ done | case_match | apply reads_bind; [|intro] | progress cbn ].

Definition on_zone (f : snapshot) (b : bool) (keys : list AppInstKey) (z : ZoneKey) : Z :=
  Z.of_nat (length (filter (λ k, counted f b k = Some z) keys)).
Lemma on_zone_cons f b k keys z :
  on_zone f b (k :: keys) z = (if decide (counted f b k = Some z) then 1 else 0) + on_zone f b keys z.
Proof. unfold on_zone. rewrite filter_cons. case_decide; simpl; lia. Qed.
Lemma count_at_insert m z z' n :
  count_at (<[z := n]> m) z' = if decide (z = z') then n else count_at m z'.
Proof.
  unfold count_at. case_decide as Hz; [subst; by rewrite lookup_insert_eq|].
  by rewrite lookup_insert_ne.
Qed.
Lemma count_insts_ok f b keys m r w :
  stm_pure f ∅ (count_insts b keys m) = (r, w) →
  w = ∅ ∧ ∀ m', r = Ok m' → ∀ z, count_at m' z = count_at m z + on_zone f b keys z.
Proof.
  revert m r w. induction keys as [|k keys IH]; intros m r w Hrun.
  { simpl in Hrun. simplify_eq/=. split; [done|]. intros m' [= <-] z. unfold on_zone. simpl. lia. }
  cbn [count_insts] in Hrun. step Hrun.
  assert (∀ m0 r0 w0, stm_pure f ∅ (count_insts b keys m0) = (r0, w0) → counted f b k = None →
    (∀ z, count_at m0 z = count_at m z) →
    w0 = ∅ ∧ ∀ m', r0 = Ok m' → ∀ z, count_at m' z = count_at m z + on_zone f b (k :: keys) z) as Hskip.
  { intros m0 r0 w0 Hr0 Hc Hm0. destruct (IH _ _ _ Hr0) as [-> Hok]. split; [done|].
    intros m' -> z. rewrite (Hok m' eq_refl), on_zone_cons, Hc, Hm0. simpl. lia. }
  unfold counted in Hskip. destruct (inst_at f k) as [i|] eqn:Hi; [|exact (Hskip _ _ _ Hrun eq_refl (λ _, eq_refl))].
  destruct (AppInstBeingDeleted i) eqn:Hdel;
    [cbn in Hskip; rewrite Hdel in Hskip; exact (Hskip _ _ _ Hrun eq_refl (λ _, eq_refl))|].
  assert (∀ r0 w0, stm_pure f ∅ (count_insts b keys (<[ai_ZoneKey i := count_at m (ai_ZoneKey i) + 1]> m))
      = (r0, w0) → counted f b k = Some (ai_ZoneKey i) →
    w0 = ∅ ∧ ∀ m', r0 = Ok m' → ∀ z, count_at m' z = count_at m z + on_zone f b (k :: keys) z) as Hadd.
  { intros r0 w0 Hr0 Hc. destruct (IH _ _ _ Hr0) as [-> Hok]. split; [done|].
    intros m' -> z. rewrite (Hok m' eq_refl), on_zone_cons, Hc, count_at_insert.
    destruct (decide (ai_ZoneKey i = z)) as [<-|Hz].
    - rewrite decide_True by done. lia.
    - rewrite decide_False; [lia|]. congruence. }
  unfold counted in Hadd. rewrite Hi in Hadd. cbn in Hadd, Hskip. rewrite Hdel in Hadd, Hskip.
  rewrite stm_pure_bind in Hrun. destruct b.
  - destruct (stm_pure f ∅ (autoProvAppInstOnline k)) as [ro wo] eqn:Ho.
    destruct (online_run _ _ _ _ Ho) as [-> Hb]. destruct ro as [bo|]; [|by simplify_eq/=].
    rewrite (Hb bo eq_refl) in Hrun. destruct (online_at f k);
      [exact (Hadd _ _ Hrun eq_refl)|exact (Hskip _ _ _ Hrun eq_refl (λ _, eq_refl))].
  - exact (Hadd _ _ Hrun eq_refl).
Qed.
Lemma policy_count_acc m zs n : fold_left (λ n z, n + count_at m z) zs n = n + policy_count m zs.
Proof.
  unfold policy_count. revert n. induction zs as [|z zs IH]; intros n; simpl; [lia|].
  rewrite IH, (IH (0 + count_at m z)). lia.
Qed.
Lemma counts_for_cons f b z zs k :
  counts_for f b (z :: zs) k ↔ counted f b k = Some z ∨ counts_for f b zs k.
Proof.
  unfold counts_for. destruct (counted f b k) as [z'|]; [|naive_solver].
  rewrite elem_of_cons. naive_solver.
Qed.
Lemma policy_count_live f b keys m zs :
  NoDup zs → (∀ z, count_at m z = on_zone f b keys z) →
  policy_count m zs = Z.of_nat (length (filter (counts_for f b zs) keys)).
Proof.
  intros Hnd Hm. induction Hnd as [|z zs Hz Hnd IH].
  - unfold policy_count. simpl. rewrite filter_none; [done|]. apply Forall_true. intros k.
    unfold counts_for. destruct (counted f b k); [apply not_elem_of_nil|by intros []].
  - unfold policy_count. simpl. rewrite policy_count_acc, IH, Hm. unfold on_zone. clear IH Hm m Hnd.
    induction keys as [|k keys IH]; [done|]. rewrite !filter_cons.
    pose proof (counts_for_cons f b z zs k) as Hcons.
    destruct (decide (counted f b k = Some z)) as [Hc|Hc].
    + assert (¬ counts_for f b zs k) by (unfold counts_for; by rewrite Hc).
      rewrite (decide_True (P := counts_for f b (z :: zs) k)) by (apply Hcons; by left).
      rewrite (decide_False (P := counts_for f b zs k)) by done. simpl. lia.
    + destruct (decide (counts_for f b zs k)).
      * rewrite (decide_True (P := counts_for f b (z :: zs) k)) by (apply Hcons; by right). simpl. lia.
      * rewrite (decide_False (P := counts_for f b (z :: zs) k)) by tauto. lia.
Qed.
Lemma counts_run f b key r w :
  stm_pure f ∅ (getAppInstCountsForAutoProv (refs_at f key) b) = (r, w) →
  w = ∅ ∧ ∀ m zs, r = Ok m → NoDup zs → policy_count m zs = live f b key zs.
Proof.
  intros Hrun. destruct (count_insts_ok _ _ _ _ _ _ Hrun) as [-> Hm]. split; [done|].
  intros m zs -> Hnd. apply policy_count_live; [done|]. intros z. rewrite (Hm m eq_refl).
  unfold count_at. by rewrite lookup_empty.
Qed.

(** What each check lets through. *)
Definition demand_ok (f : snapshot) (action : Action) (a : App) (inst : AppInst) (p : AutoProvPolicy)
    (count : Z) : Prop :=
  ai_ZoneKey inst ∈ ap_Zones p →
  (action = Actions.Create → MaxInstances p > 0 → count < MaxInstances p) ∧
  (action = Actions.Delete → MinActiveInstances p > 0 → MinActiveInstances p < count).
Lemma demand_policies_ok f action a inst m names w :
  stm_pure f ∅ (check_demand_policies action a inst m names) = (Ok (), w) →
  ∀ pname, pname ∈ names → ∃ p, policy_at f (policy_key a pname) = Some p ∧
    demand_ok f action a inst p (policy_count m (ap_Zones p)).
Proof.
  induction names as [|n names IH]; intros Hrun pname Hin; [by apply elem_of_nil in Hin|].
  cbn [check_demand_policies] in Hrun. step Hrun.
  destruct (policy_at f (policy_key a n)) as [p|] eqn:Hp; [|done].
  assert (demand_ok f action a inst p (policy_count m (ap_Zones p)) ∧
    stm_pure f ∅ (check_demand_policies action a inst m names) = (Ok (), w)) as [Hok Hrest].
  { case_bool_decide as Hz; simpl in Hrun; [|by split].
    case_decide as H1; [done|]. case_decide as H2; [done|]. split; [|done]. intros _.
    split; intros Ha Hb; apply Z.nle_gt; intros Hc; [apply H1|apply H2]; split_and!; (done || lia). }
  apply elem_of_cons in Hin as [->|Hin]; [by exists p|]. by apply IH.
Qed.
Lemma elem_of_set_range {A} `{Countable A} (s : gset A) x : x ∈ set_range s ↔ x ∈ s.
Proof.
  unfold set_range. rewrite list_elem_of_fmap. split.
  - intros ([y []] & -> & Hin). apply elem_of_go_range, lookup_gset_to_gmap_Some in Hin. by destruct Hin.
  - intros Hx. exists (x, ()). split; [done|]. by apply elem_of_go_range, lookup_gset_to_gmap_Some.
Qed.
Lemma checkDemand_ok f action a inst key r w :
  prov_wf f → stm_pure f ∅ (checkDemand action a inst (refs_at f key)) = (r, w) → r = Ok () →
  (action = Actions.Delete ∧ online_at f (ai_Key inst) = false) ∨
  ∀ pname, pname ∈ GetAutoProvPolicies a → ∃ p, policy_at f (policy_key a pname) = Some p ∧
    demand_ok f action a inst p (live f (bool_decide (action = Actions.Delete)) key (ap_Zones p)).
Proof.
  intros Hwf Hrun ->. unfold checkDemand in Hrun.
  assert (∀ b w, stm_pure f ∅ (m ← getAppInstCountsForAutoProv (refs_at f key) b;
      check_demand_policies action a inst m (set_range (GetAutoProvPolicies a))) = (Ok (), w) →
    ∀ pname, pname ∈ GetAutoProvPolicies a → ∃ p, policy_at f (policy_key a pname) = Some p ∧
      demand_ok f action a inst p (live f b key (ap_Zones p))) as Hrest.
  { intros b w' Hr pname Hin. rewrite stm_pure_bind in Hr.
    destruct (stm_pure f ∅ (getAppInstCountsForAutoProv _ b)) as [rc wc] eqn:Hc.
    destruct (counts_run _ _ _ _ _ Hc) as [-> Hm]. destruct rc as [m|]; [|done].
    apply elem_of_set_range in Hin.
    destruct (demand_policies_ok _ _ _ _ _ _ _ Hr pname Hin) as (p & Hp & Hok).
    exists p. split; [done|]. rewrite <- (Hm m (ap_Zones p) eq_refl (pw_zones f Hwf _ _ Hp)). done. }
  case_decide as Hact.
  - rewrite stm_pure_bind in Hrun.
    destruct (stm_pure f ∅ (autoProvAppInstOnline _)) as [ro wo] eqn:Ho.
    destruct (online_run _ _ _ _ Ho) as [-> Hb]. destruct ro as [b|]; [|done].
    rewrite (Hb b eq_refl) in Hrun. destruct (online_at f (ai_Key inst)) eqn:Hon; [right|by left].
    rewrite bool_decide_true by done. eapply Hrest, Hrun.
  - right. rewrite bool_decide_false by done. eapply Hrest, Hrun.
Qed.
Lemma checkMinMax_ok f action a inst key pname p r w :
  prov_wf f → stm_pure f ∅ (checkMinMax action a inst (refs_at f key) pname) = (r, w) → r = Ok () →
  policy_at f (policy_key a pname) = Some p →
  (action = Actions.Create → MinActiveInstances p > 0 →
     live f true key (ap_Zones p) < MinActiveInstances p) ∧
  (action = Actions.Delete → MaxInstances p > 0 → MaxInstances p < live f false key (ap_Zones p)).
Proof.
  intros Hwf Hrun -> Hp. unfold checkMinMax in Hrun. rewrite stm_pure_bind in Hrun.
  destruct (stm_pure f ∅ (getAppInstCountsForAutoProv _ _)) as [rc wc] eqn:Hc.
  destruct (counts_run _ _ _ _ _ Hc) as [-> Hm]. destruct rc as [m|]; [|done].
  step Hrun. rewrite Hp in Hrun.
  rewrite (Hm m (ap_Zones p) eq_refl (pw_zones f Hwf _ _ Hp)) in Hrun.
  case_decide as H1; [done|]. case_decide as H2; [done|]. split.
  - intros -> ?. rewrite bool_decide_true in H1 by done.
    apply Z.nle_gt. intros Hle. apply H1. split_and!; (done || lia).
  - intros -> ?. rewrite bool_decide_false in H2 by done.
    apply Z.nle_gt. intros Hle. apply H2. split_and!; (done || lia).
Qed.

(** ** What the handlers write *)

Definition inst_write (i : AppInst) (f : snapshot) : snapshot :=
  after {[obj_key region (O := AppInst) (ai_Key i) := Marshal i]} f.
Definition refs_write (r : AppInstRefs) (f : snapshot) : snapshot :=
  after {[obj_key region (O := AppInstRefs) (ar_Key r) := Marshal r]} f.

Ltac other_type := by intros [=].
Lemma inst_write_other {K O} `{HC : !ObjCodec K O, HS : !Stored K O} i f (k : K) :
  obj_type (K := K) (O := O) ≠ "AppInst" →
  obj_at region (O := O) (inst_write i f) k = obj_at region (O := O) f k.
Proof. intros Hne. exact (obj_at_other region (K' := AppInstKey) (O' := AppInst) Hne f k _ _). Qed.
Lemma refs_write_other {K O} `{HC : !ObjCodec K O, HS : !Stored K O} r f (k : K) :
  obj_type (K := K) (O := O) ≠ "AppInstRefs" →
  obj_at region (O := O) (refs_write r f) k = obj_at region (O := O) f k.
Proof. intros Hne. exact (obj_at_other region (K' := AppKey) (O' := AppInstRefs) Hne f k _ _). Qed.
Lemma inst_at_write i f k : inst_at (inst_write i f) k = if decide (k = ai_Key i) then Some i else inst_at f k.
Proof. exact (obj_at_put region (O := AppInst) f i k). Qed.
Lemma refs_obj_write r f k :
  obj_at region (O := AppInstRefs) (refs_write r f) k =
  if decide (k = ar_Key r) then Some r else obj_at region f k.
Proof. exact (obj_at_put region (O := AppInstRefs) f r k). Qed.

(** Writing one instance and references changes the counts of no other
    instance, nor the policies. *)
Lemma counted_write f b i r k :
  k ≠ ai_Key i → counted (refs_write r (inst_write i f)) b k = counted f b k.
Proof.
  intros Hk. unfold counted, online_at.
  rewrite refs_write_other, inst_at_write, decide_False by (done || other_type).
  destruct (inst_at f k) as [i'|]; [|done]. cbn.
  rewrite !refs_write_other, !inst_write_other by other_type. done.
Qed.
Lemma policy_write f i r pk : policy_at (refs_write r (inst_write i f)) pk = policy_at f pk.
Proof. by rewrite refs_write_other, inst_write_other by other_type. Qed.
Lemma counts_for_write f b i r zs k :
  k ≠ ai_Key i → counts_for (refs_write r (inst_write i f)) b zs k ↔ counts_for f b zs k.
Proof. intros Hk. unfold counts_for. by rewrite counted_write. Qed.

(** *** References *)

Lemma elem_of_ref_keys refs k :
  k ∈ ref_keys refs ↔ ∃ s, is_Some (Insts refs !! s) ∧ k = parse_inst_key s.
Proof.
  unfold ref_keys. rewrite list_elem_of_fmap. split.
  - intros (s & -> & Hs). apply list_elem_of_fmap in Hs as ([s' v] & -> & Hin).
    apply elem_of_go_range in Hin. exists s'. split; [by eexists|done].
  - intros (s & [v Hv] & ->). exists s. split; [done|]. apply list_elem_of_fmap.
    exists (s, v). split; [done|]. by apply elem_of_go_range.
Qed.
Definition canonical (refs : AppInstRefs) : Prop :=
  ∀ s, is_Some (Insts refs !! s) → GetKeyString (O := AppInst) (parse_inst_key s) = s.
Lemma ref_keys_NoDup refs : canonical refs → NoDup (ref_keys refs).
Proof.
  intros Hc. unfold ref_keys. apply NoDup_fmap_2_strong; [|apply NoDup_go_range].
  assert (∀ s, s ∈ (go_range (Insts refs)).*1 → is_Some (Insts refs !! s)) as Hin.
  { intros s ([s' v] & -> & Hin)%list_elem_of_fmap. apply elem_of_go_range in Hin. by eexists. }
  intros s1 s2 H1%Hin%Hc H2%Hin%Hc He. by rewrite <- H1, <- H2, He.
Qed.
Lemma canonical_add refs k (r' : AppInstRefs) :
  Insts r' = <[GetKeyString (O := AppInst) k := 1]> (Insts refs) → canonical refs → canonical r'.
Proof.
  intros Hr Hc s. rewrite Hr, lookup_insert_is_Some'. intros [<-|Hs]; [|by apply Hc].
  unfold parse_inst_key. by rewrite KeyStringParse_GetKeyString.
Qed.
Lemma ref_keys_add refs r' k0 k :
  Insts r' = <[GetKeyString (O := AppInst) k0 := 1]> (Insts refs) →
  k ∈ ref_keys r' ↔ k = k0 ∨ k ∈ ref_keys refs.
Proof.
  intros Hr. rewrite !elem_of_ref_keys, Hr. split.
  - intros (s & Hs & ->). apply lookup_insert_is_Some' in Hs as [<-|Hs]; [left|right; by exists s].
    unfold parse_inst_key. by rewrite KeyStringParse_GetKeyString.
  - intros [->|(s & Hs & ->)].
    + exists (GetKeyString (O := AppInst) k0). rewrite lookup_insert_is_Some'. split; [by left|].
      unfold parse_inst_key. by rewrite KeyStringParse_GetKeyString.
    + exists s. rewrite lookup_insert_is_Some'. by split; [right|].
Qed.

Lemma count_le (P P' : AppInstKey → Prop) `{!∀ k, Decision (P k), !∀ k, Decision (P' k)} k0 keys keys' :
  NoDup keys → (∀ k, k ∈ keys → P k → k ≠ k0 → k ∈ keys' ∧ P' k) →
  Z.of_nat (length (filter P keys)) <= Z.of_nat (length (filter P' keys')) + 1.
Proof.
  intros Hnd Hsub.
  assert (filter P keys ⊆+ k0 :: filter P' keys') as Hle%submseteq_length; [|simpl in Hle; lia].
  apply NoDup_submseteq; [by apply NoDup_filter|].
  intros k [HP Hk]%list_elem_of_filter. rewrite elem_of_cons, list_elem_of_filter.
  destruct (decide (k = k0)) as [|Hne]; [by left|right]. by destruct (Hsub k Hk HP Hne).
Qed.

(** ** The runs of the handlers *)

Lemma reads_STMGet {K O} `{HC : !ObjCodec K O, HS : !Stored K O} (k : K) :
  reads (STMGet region (O := O) k).
Proof. done. Qed.
Lemma reads_online k : reads (autoProvAppInstOnline k).
Proof.
  apply reads_bind; [done|intros [i|]; [|done]].
  apply reads_bind; [done|intros [ci|]; [|done]]. apply reads_bind; [done|by intros [c|]].
Qed.
Lemma reads_count b keys m : reads (count_insts b keys m).
Proof.
  revert m. induction keys as [|k keys IH]; intros m; [done|].
  apply reads_bind; [done|intros [i|]; [|apply IH]]. destruct (AppInstBeingDeleted i); [apply IH|].
  apply reads_bind; [destruct b; [apply reads_online|done]|]. intros []; apply IH.
Qed.
Lemma reads_demand_policies action a inst m names : reads (check_demand_policies action a inst m names).
Proof.
  induction names as [|n names IH]; [done|]. apply reads_bind; [done|intros [p|]; [cbn zeta|done]].
  destruct (negb _); [exact IH|]. case_decide; [exact I|]. case_decide; [exact I|exact IH].
Qed.
Lemma reads_demand action a inst refs : reads (checkDemand action a inst refs).
Proof.
  unfold checkDemand. case_decide.
  - apply reads_bind; [apply reads_online|intros []; [|done]].
    apply reads_bind; [apply reads_count|intros m; apply reads_demand_policies].
  - apply reads_bind; [apply reads_count|intros m; apply reads_demand_policies].
Qed.
Lemma reads_minmax action a inst refs pname : reads (checkMinMax action a inst refs pname).
Proof.
  apply reads_bind; [apply reads_count|intros m]. apply reads_bind; [done|intros [p|]; [cbn zeta|done]].
  case_decide; [exact I|]. by case_decide.
Qed.
Lemma reads_orphaned action a inst : reads (checkOrphaned action a inst).
Proof.
  unfold checkOrphaned. case_decide; [done|]. induction (set_range _) as [|n names IH]; [done|].
  apply reads_bind; [done|intros [p|]; [|apply IH]]. case_decide; [done|apply IH].
Qed.
Lemma reads_zone_free inst keys : reads (check_zone_free inst keys).
Proof.
  induction keys as [|k keys IH]; [done|]. apply reads_bind; [done|intros [i|]; [|apply IH]].
  case_decide; [done|apply IH].
Qed.
Lemma reads_appInstCheck md action a inst : reads (appInstCheck md action a inst).
Proof.
  unfold appInstCheck. destruct md as [md|]; [|by destruct (has_prefix _ _)].
  destruct (md_caller md) as [[reason pname]|]; [|done]. apply reads_bind; [done|intros refs].
  apply reads_bind; [case_decide; [apply reads_zone_free|done]|intros _].
  apply reads_bind; [|done]. case_decide; [apply reads_demand|].
  case_decide; [apply reads_minmax|]. case_decide; [apply reads_orphaned|done].
Qed.

(** A successful run of a part that only reads. *)
Lemma read_part {A B} f (m : stm A) (k : A → stm B) b w :
  reads m → stm_pure f ∅ (m ≫= k) = (Ok b, w) →
  ∃ a, stm_pure f ∅ m = (Ok a, ∅) ∧ stm_pure f ∅ (k a) = (Ok b, w).
Proof.
  intros Hm Hrun. rewrite stm_pure_bind in Hrun. pose proof (reads_pure m f ∅ Hm) as Hw.
  destruct (stm_pure f ∅ m) as [[a|] w']; simpl in Hw; [|done]. subst w'. by exists a.
Qed.

Definition marked (action : Action) (inst : AppInst) : AppInst :=
  if decide (action = Actions.Create) then set_Liveness LIVENESS_AUTOPROV inst else inst.
Lemma check_zone_free_ok f inst keys :
  stm_pure f ∅ (check_zone_free inst keys) = (Ok (), ∅) →
  ∀ k i, k ∈ keys → inst_at f k = Some i → ai_ZoneKey i ≠ ai_ZoneKey inst.
Proof.
  induction keys as [|k0 keys IH]; intros Hrun k i Hin Hi; [by apply elem_of_nil in Hin|].
  cbn [check_zone_free] in Hrun. step Hrun. apply elem_of_cons in Hin as [->|Hin].
  - rewrite Hi in Hrun. case_decide as Hz; [done|]. by apply not_eq_sym.
  - destruct (inst_at f k0); [case_decide; [done|]|]; by eapply IH.
Qed.
Record checked (f : snapshot) (reason pname : string) (action : Action) (a : App) (inst : AppInst) : Prop := {
  ck_zone : action = Actions.Create →
    ∀ k i, k ∈ ref_keys (refs_at f (app_Key a)) → inst_at f k = Some i → ai_ZoneKey i ≠ ai_ZoneKey inst;
  ck_demand : reason = AutoProvReasonDemand →
    (action = Actions.Delete ∧ online_at f (ai_Key inst) = false) ∨
    ∀ n, n ∈ GetAutoProvPolicies a → ∃ p, policy_at f (policy_key a n) = Some p ∧
      demand_ok f action a inst p (live f (bool_decide (action = Actions.Delete)) (app_Key a) (ap_Zones p));
  ck_minmax : reason = AutoProvReasonMinMax → ∀ p, policy_at f (policy_key a pname) = Some p →
    (action = Actions.Create → MinActiveInstances p > 0 →
       live f true (app_Key a) (ap_Zones p) < MinActiveInstances p) ∧
    (action = Actions.Delete → MaxInstances p > 0 →
       MaxInstances p < live f false (app_Key a) (ap_Zones p));
}.
Lemma appInstCheck_ok f reason pname action a inst inst' :
  prov_wf f →
  stm_pure f ∅ (appInstCheck (autoprov_md reason pname) action a inst) = (Ok inst', ∅) →
  inst' = marked action inst ∧ checked f reason pname action a (marked action inst).
Proof.
  intros Hwf Hrun. unfold appInstCheck, autoprov_md in Hrun.
  assert (md_caller (<[CallerAutoProv := [""]]> (<[AutoProvReason := [reason]]>
    {[AutoProvPolicyName := [pname]]})) = Some (reason, pname)) as Hmd.
  { reflexivity. }
  rewrite Hmd in Hrun. step Hrun. fold (marked action inst) in Hrun.
  change (default _ _) with (refs_at f (app_Key a)) in Hrun.
  apply read_part in Hrun as ([] & Hzone & Hrun); [|destruct (decide (action = Actions.Create)); [apply reads_zone_free|done]].
  apply read_part in Hrun as ([] & Hcheck & Hrun).
  2: { destruct (decide (reason = AutoProvReasonDemand)); [apply reads_demand|].
       destruct (decide (reason = AutoProvReasonMinMax)); [apply reads_minmax|].
       destruct (decide (reason = AutoProvReasonOrphaned)); [apply reads_orphaned|done]. }
  injection Hrun as <-. split; [done|]. split.
  - intros Hact. rewrite decide_True in Hzone by done. exact (check_zone_free_ok _ _ _ Hzone).
  - intros ->. rewrite decide_True in Hcheck by done. exact (checkDemand_ok _ _ _ _ _ _ _ Hwf Hcheck eq_refl).
  - intros -> p Hp. rewrite decide_False, decide_True in Hcheck by done.
    exact (checkMinMax_ok _ _ _ _ _ _ _ _ _ Hwf Hcheck eq_refl Hp).
Qed.

Lemma default_refs f key : prov_wf f → ar_Key (refs_at f key) = key.
Proof.
  intros Hwf. unfold refs_at. destruct (obj_at region f key) as [r|] eqn:Hr; [|done]. simpl.
  destruct (pw_refs f Hwf key) as (r' & Hr' & Hk); [by eapply obj_at_has|].
  rewrite Hr in Hr'. by injection Hr' as <-.
Qed.
Lemma prov_wf_write f i r key :
  prov_wf f → ar_Key r = key → canonical r → prov_wf (refs_write r (inst_write i f)).
Proof.
  intros Hwf Hkey Hr. destruct Hwf as [Happ Hinst Hrefs Hcan Hz]. split.
  - apply (well_stored_other region (K' := AppKey) (O' := AppInstRefs)); [other_type|].
    by apply (well_stored_other region (K' := AppInstKey) (O' := AppInst)); [other_type|].
  - apply (well_stored_other region (K' := AppKey) (O' := AppInstRefs)); [other_type|].
    exact (well_stored_put region f i Hinst).
  - refine (well_stored_put region (inst_write i f) r _).
    by apply (well_stored_other region (K' := AppInstKey) (O' := AppInst)); [other_type|].
  - intros key' s. unfold refs_at. rewrite refs_obj_write. case_decide.
    + apply Hr.
    + rewrite inst_write_other by other_type. apply Hcan.
  - intros pk p. rewrite policy_write. apply Hz.
Qed.

(** What a successful claim or release did: the instance it put, and the
    references. *)
Definition claimed_inst (ck : CloudletKey) (i : AppInst) : AppInst :=
  inst_set_State CREATING_DEPENDENCIES (set_CloudletKey ck i).
Definition added_ref (refs : AppInstRefs) (k : AppInstKey) : AppInstRefs :=
  mkAppInstRefs (ar_Key refs) (<[GetKeyString (O := AppInst) k := 1]> (Insts refs)) (DeleteRequestedInsts refs).
Definition delete_ref (refs : AppInstRefs) (k : AppInstKey) : AppInstRefs :=
  mkAppInstRefs (ar_Key refs) (Insts refs) (<[GetKeyString (O := AppInst) k := 1]> (DeleteRequestedInsts refs)).

Lemma put_and_ref f i (upd : AppInstRefs → AppInstRefs) w :
  (∀ r, ar_Key (upd r) = ar_Key r) →
  stm_pure f ∅ (_ ← STMPut region i; r ← STMGet region (ai_AppKey i);
    STMPut region (upd (get_refs (ai_AppKey i) r))) = (Ok (), w) →
  prov_wf f → after w f = refs_write (upd (refs_at f (ai_AppKey i))) (inst_write i f).
Proof.
  intros Hupd Hrun Hwf.
  rewrite pure_STMPut_after in Hrun. rewrite pure_STMGet_after in Hrun.
  change (after (<[obj_key region (GetKeyVal i) := json_encode i]> ∅) f)
    with (after (<[obj_key region (O := AppInst) (ai_Key i) := Marshal i]> ∅) f) in Hrun.
  rewrite after_insert, after_empty in Hrun. fold (inst_write i f) in Hrun.
  rewrite inst_write_other in Hrun by other_type. injection Hrun as <-.
  rewrite after_insert, after_insert, after_empty. unfold refs_write. f_equal.
Qed.
Lemma claim_inst_run f reason pname inst ck f' :
  prov_wf f → run_body (claim_instance (autoprov_md reason pname) inst ck) f = (Ok (), f') →
  ∃ a i, obj_at region (O := App) f (ai_AppKey inst) = Some a ∧ app_Key a = ai_AppKey inst ∧
    checked f reason pname Actions.Create a (marked Actions.Create inst) ∧
    (inst_at f (ai_Key inst) = None ∧ i = set_Liveness LIVENESS_AUTOPROV inst ∨
     inst_at f (ai_Key inst) = Some i ∧ ai_State i = DELETE_ERROR) ∧ ai_Key i = ai_Key inst ∧
    f' = refs_write (added_ref (refs_at f (ai_AppKey i)) (ai_Key i)) (inst_write (claimed_inst ck i) f).
Proof.
  intros Hwf Hrun. apply run_body_ok in Hrun as (w & Hrun & ->).
  unfold claim_instance in Hrun. step Hrun.
  destruct (obj_at region f (ai_AppKey inst)) as [a|] eqn:Ha; [|done].
  destruct (pw_app f Hwf (ai_AppKey inst)) as (a' & Ha' & Hk); [by eapply obj_at_has|].
  rewrite Ha in Ha'. injection Ha' as <-.
  destruct (app_DeletePrepare a); [done|].
  apply read_part in Hrun as (inst' & Hcheck & Hrun); [|apply reads_appInstCheck].
  apply appInstCheck_ok in Hcheck as [-> Hcheck]; [|done].
  step Hrun. change (ai_Key (marked Actions.Create inst)) with (ai_Key inst) in Hrun.
  assert (∀ i, stm_pure f ∅ (_ ← STMPut region (claimed_inst ck i);
      addRef (ai_AppKey i) (ai_Key i)) = (Ok (), w) →
    after w f = refs_write (added_ref (refs_at f (ai_AppKey i)) (ai_Key i))
                  (inst_write (claimed_inst ck i) f)) as Hput.
  { intros i Hr. exact (put_and_ref f (claimed_inst ck i) (λ r, added_ref r (ai_Key i)) w
                         (λ r, eq_refl) Hr Hwf). }
  exists a. destruct (inst_at f (ai_Key inst)) as [i|] eqn:Hi.
  - case_decide as Hst; [done|].
    destruct (pw_inst f Hwf (ai_Key inst)) as (i' & Hi' & Hik); [by eapply obj_at_has|].
    rewrite Hi in Hi'. injection Hi' as <-. exists i. split_and!; [done|done|done|by right|done|by apply Hput].
  - exists (marked Actions.Create inst). split_and!; [done|done|done|by left|done|by apply Hput].
Qed.
Lemma release_run f reason pname key f' :
  prov_wf f → run_body (release_instance (autoprov_md reason pname) key) f = (Ok (), f') →
  ∃ a i, inst_at f key = Some i ∧ ai_Key i = key ∧
    obj_at region (O := App) f (ai_AppKey i) = Some a ∧ app_Key a = ai_AppKey i ∧
    checked f reason pname Actions.Delete a i ∧
    f' = refs_write (delete_ref (refs_at f (ai_AppKey i)) (ai_Key i))
           (inst_write (inst_set_State DELETE_REQUESTED i) f).
Proof.
  intros Hwf Hrun. apply run_body_ok in Hrun as (w & Hrun & ->).
  unfold release_instance in Hrun. step Hrun. destruct (inst_at f key) as [i|] eqn:Hi; [|done].
  destruct (pw_inst f Hwf key) as (i' & Hi' & Hik); [by eapply obj_at_has|].
  rewrite Hi in Hi'. injection Hi' as <-. change (ai_Key i = key) in Hik.
  step Hrun. destruct (obj_at region f (ai_AppKey i)) as [a|] eqn:Ha; [|done].
  destruct (pw_app f Hwf (ai_AppKey i)) as (a' & Ha' & Hk); [by eapply obj_at_has|].
  rewrite Ha in Ha'. injection Ha' as <-.
  apply read_part in Hrun as (inst' & Hcheck & Hrun); [|apply reads_appInstCheck].
  apply appInstCheck_ok in Hcheck as [-> Hcheck]; [|done].
  exists a, i. split_and!; [done|done|done|done|done|].
  exact (put_and_ref f (inst_set_State DELETE_REQUESTED i) (λ r, delete_ref r (ai_Key i)) w
           (λ r, eq_refl) Hrun Hwf).
Qed.

Lemma refs_at_write f i r key :
  refs_at (refs_write r (inst_write i f)) key = if decide (key = ar_Key r) then r else refs_at f key.
Proof.
  unfold refs_at. rewrite refs_obj_write. case_decide; [done|].
  by rewrite inst_write_other by other_type.
Qed.
Lemma claim_wf f key i : prov_wf f → prov_wf (refs_write (added_ref (refs_at f key) (ai_Key i)) (inst_write i f)).
Proof.
  intros Hwf. eapply prov_wf_write; [done|reflexivity|].
  eapply canonical_add; [reflexivity|]. intros s. apply (pw_canonical f Hwf key).
Qed.
Lemma release_wf f key i k :
  prov_wf f → prov_wf (refs_write (delete_ref (refs_at f key) k) (inst_write i f)).
Proof.
  intros Hwf. eapply prov_wf_write; [done|reflexivity|]. intros s. apply (pw_canonical f Hwf key).
Qed.
Lemma live_claim f key0 i b key zs :
  prov_wf f →
  live (refs_write (added_ref (refs_at f key0) (ai_Key i)) (inst_write i f)) b key zs
  <= live f b key zs + 1.
Proof.
  intros Hwf. pose proof (claim_wf f key0 i Hwf) as Hwf'. unfold live.
  apply count_le with (k0 := ai_Key i).
  - apply ref_keys_NoDup. intros s. apply (pw_canonical _ Hwf').
  - intros k Hk HP Hne. rewrite counts_for_write in HP by done. split; [|done].
    rewrite refs_at_write in Hk. case_decide as Hkey; [|done].
    apply (ref_keys_add (refs_at f key0) _ (ai_Key i)) in Hk as [?|Hk]; [done| |done].
    simpl in Hkey. by rewrite default_refs in Hkey by done; subst.
Qed.
Lemma live_release f key0 i k b key zs :
  prov_wf f → ai_Key i = k →
  live f b key zs <= live (refs_write (delete_ref (refs_at f key0) k) (inst_write i f)) b key zs + 1.
Proof.
  intros Hwf <-. unfold live. apply count_le with (k0 := ai_Key i).
  - apply ref_keys_NoDup. intros s. apply (pw_canonical _ Hwf).
  - intros k Hk HP Hne. rewrite counts_for_write by done. split; [|done].
    rewrite refs_at_write. case_decide as Hkey; [|done].
    simpl in Hkey. rewrite default_refs in Hkey by done. by subst.
Qed.
(** Releasing an instance that is not online changes no count of the online. *)
Lemma live_release_offline f key0 i key zs :
  prov_wf f → inst_at f (ai_Key i) = Some i → online_at f (ai_Key i) = false →
  live (refs_write (delete_ref (refs_at f key0) (ai_Key i))
    (inst_write (inst_set_State DELETE_REQUESTED i) f)) true key zs = live f true key zs.
Proof.
  intros Hwf Hi Hoff. unfold live. do 2 f_equal.
  assert (ref_keys (refs_at (refs_write (delete_ref (refs_at f key0) (ai_Key i))
    (inst_write (inst_set_State DELETE_REQUESTED i) f)) key) = ref_keys (refs_at f key)) as ->.
  { rewrite refs_at_write. case_decide as Hkey; [|done].
    simpl in Hkey. rewrite default_refs in Hkey by done. by subst. }
  apply list_filter_iff. intros k. destruct (decide (k = ai_Key i)) as [->|Hne].
  - unfold counts_for, counted.
    rewrite refs_write_other, inst_at_write, decide_True, Hi by (done || other_type).
    cbn [mbind option_bind]. rewrite Hoff, andb_true_r, orb_true_r.
    change (AppInstBeingDeleted (inst_set_State DELETE_REQUESTED i)) with true. done.
  - exact (counts_for_write f true (inst_set_State DELETE_REQUESTED i) _ zs k Hne).
Qed.

(** What is stored after a claim or a release. *)
Lemma stored_write f i r key :
  inst_at (refs_write r (inst_write i f)) key = if decide (key = ai_Key i) then Some i else inst_at f key.
Proof. by rewrite refs_write_other, inst_at_write by other_type. Qed.
Lemma claim_stored f key i :
  prov_wf f → ai_Key i ∈ ref_keys (refs_at (refs_write (added_ref (refs_at f key) (ai_Key i)) (inst_write i f)) key).
Proof.
  intros Hwf. rewrite refs_at_write. simpl. rewrite default_refs, decide_True by done.
  apply (ref_keys_add (refs_at f key) _ (ai_Key i)); [done|by left].
Qed.
Lemma release_stored f key i k :
  prov_wf f → refs_at (refs_write (delete_ref (refs_at f key) k) (inst_write i f)) key = delete_ref (refs_at f key) k.
Proof. intros Hwf. rewrite refs_at_write. simpl. by rewrite default_refs, decide_True. Qed.

(** C9: what a call of the auto-provisioning service did that was committed, whatever
    was created or deleted since the service looked.  A create: no instance of the
    app was on the zone that it asks for; stored and referenced is, on the cloudlet that
    was chosen, the instance marked as the service's, or, when one with that key was
    there whose deletion had failed, that one as it was (with its liveness).  On demand
    it leaves at most the maximum of each policy of the app that covers
    the zone; to meet the minimum, fewer than the minimum were online, and at most the
    minimum are.  A delete: the instance is in DELETE_REQUESTED, it stays among the
    references and is among those whose deletion is requested.  On demand it leaves the
    minimum of each policy that covers the zone online, or the online count as it was; to meet the maximum, more than
    the maximum were there, and at least the maximum are. *)
Theorem autoprov_bounds f reason pname :
  prov_wf f →
  (∀ inst ck f', run_body (claim_instance (autoprov_md reason pname) inst ck) f = (Ok (), f') →
    prov_wf f' ∧ ∃ a i, obj_at region (O := App) f (ai_AppKey inst) = Some a ∧
    (inst_at f (ai_Key inst) = None ∧ i = set_Liveness LIVENESS_AUTOPROV inst ∨
     inst_at f (ai_Key inst) = Some i ∧ ai_State i = DELETE_ERROR) ∧
    inst_at f' (ai_Key inst) = Some (inst_set_State CREATING_DEPENDENCIES (set_CloudletKey ck i)) ∧
    ai_Key inst ∈ ref_keys (refs_at f' (ai_AppKey i)) ∧
    (∀ k i, k ∈ ref_keys (refs_at f (ai_AppKey inst)) → inst_at f k = Some i →
      ai_ZoneKey i ≠ ai_ZoneKey inst) ∧
    (reason = AutoProvReasonDemand → ∀ n, n ∈ GetAutoProvPolicies a →
      ∃ p, policy_at f (policy_key a n) = Some p ∧
      (ai_ZoneKey inst ∈ ap_Zones p → MaxInstances p > 0 →
        live f' false (ai_AppKey inst) (ap_Zones p) <= MaxInstances p)) ∧
    (reason = AutoProvReasonMinMax → ∀ p, policy_at f (policy_key a pname) = Some p →
      MinActiveInstances p > 0 →
      live f true (ai_AppKey inst) (ap_Zones p) < MinActiveInstances p ∧
      live f' true (ai_AppKey inst) (ap_Zones p) <= MinActiveInstances p)) ∧
  (∀ k f', run_body (release_instance (autoprov_md reason pname) k) f = (Ok (), f') →
    prov_wf f' ∧ ∃ a i, inst_at f k = Some i ∧ obj_at region (O := App) f (ai_AppKey i) = Some a ∧
    inst_at f' k = Some (inst_set_State DELETE_REQUESTED i) ∧
    Insts (refs_at f' (ai_AppKey i)) = Insts (refs_at f (ai_AppKey i)) ∧
    is_Some (DeleteRequestedInsts (refs_at f' (ai_AppKey i)) !! GetKeyString (O := AppInst) k) ∧
    (reason = AutoProvReasonDemand → ∀ n p, n ∈ GetAutoProvPolicies a →
      policy_at f (policy_key a n) = Some p → ai_ZoneKey i ∈ ap_Zones p → MinActiveInstances p > 0 →
      live f' true (ai_AppKey i) (ap_Zones p) = live f true (ai_AppKey i) (ap_Zones p) ∨
      MinActiveInstances p <= live f' true (ai_AppKey i) (ap_Zones p)) ∧
    (reason = AutoProvReasonMinMax → ∀ p, policy_at f (policy_key a pname) = Some p →
      MaxInstances p > 0 →
      MaxInstances p < live f false (ai_AppKey i) (ap_Zones p) ∧
      MaxInstances p <= live f' false (ai_AppKey i) (ap_Zones p))).
Proof.
  intros Hwf. split.
  - intros inst ck f' Hrun.
    apply claim_inst_run in Hrun as (a & i & Ha & Hk & [Hzone Hdem Hmm] & Hfrom & Hik & ->); [|done].
    rewrite Hk in Hzone, Hdem, Hmm.
    split; [exact (claim_wf f _ (claimed_inst ck i) Hwf)|]. exists a, i.
    pose proof (λ b zs, live_claim f (ai_AppKey i) (claimed_inst ck i) b (ai_AppKey inst) zs Hwf) as Hl.
    split_and!; [done|done| | |by apply Hzone| |].
    + rewrite stored_write. change (ai_Key (claimed_inst ck i)) with (ai_Key i). by rewrite decide_True.
    + rewrite <- Hik. exact (claim_stored f (ai_AppKey i) (claimed_inst ck i) Hwf).
    + intros Hr n Hn. destruct (Hdem Hr) as [[? _]|Hd]; [done|].
      destruct (Hd n Hn) as (p & Hp & Hok). exists p. split; [done|]. intros Hz Hmax.
      destruct (Hok Hz) as [Hc _]. specialize (Hc eq_refl Hmax). specialize (Hl false (ap_Zones p)).
      rewrite bool_decide_false in Hc by done. simpl in Hl. lia.
    + intros Hr p Hp Hmin. destruct (Hmm Hr p Hp) as [Hc _]. specialize (Hc eq_refl Hmin).
      specialize (Hl true (ap_Zones p)). simpl in Hl. split; [done|lia].
  - intros k f' Hrun.
    apply release_run in Hrun as (a & i & Hi & Hik & Ha & Hk & [_ Hdem Hmm] & ->); [|done].
    rewrite Hk in Hdem, Hmm. split; [by apply release_wf|]. exists a, i. subst k.
    pose proof (λ b zs, live_release f (ai_AppKey i) (inst_set_State DELETE_REQUESTED i) (ai_Key i) b
      (ai_AppKey i) zs Hwf eq_refl) as Hl.
    split_and!; [done|done| | | | |].
    + rewrite stored_write. by rewrite decide_True.
    + by rewrite release_stored.
    + rewrite release_stored by done. simpl. rewrite lookup_insert_eq. by eexists.
    + intros Hr n p Hn Hp Hz Hmin. destruct (Hdem Hr) as [[_ Hoff]|Hd].
      * left. by apply live_release_offline.
      * right. destruct (Hd n Hn) as (p' & Hp' & Hok).
        assert (p' = p) as -> by congruence. destruct (Hok Hz) as [_ Hc].
        specialize (Hc eq_refl Hmin). specialize (Hl true (ap_Zones p)).
        rewrite bool_decide_true in Hc by done. lia.
    + intros Hr p Hp Hmax. destruct (Hmm Hr p Hp) as [_ Hc]. specialize (Hc eq_refl Hmax).
      specialize (Hl false (ap_Zones p)). split; [done|lia].
Qed.

(** The name prefix is kept for the service only when a call has no metadata
    at all: any other call may use it. *)
Lemma reserved_prefix_bypassed a inst md :
  md !! CallerAutoProv = None → appInstCheck (Some md) Actions.Create a inst = SRet inst.
Proof. intros Hmd. unfold appInstCheck, md_caller. by rewrite Hmd, decide_True. Qed.

Lemma prov_wf_empty : prov_wf ∅.
Proof.
  assert (∀ K O (C : ObjCodec K O) (S : Stored K O), well_stored region (O := O) ∅) as Hws.
  { intros K O C S k Hk. destruct Hk. unfold get. by rewrite lookup_empty. }
  assert (∀ K O (C : ObjCodec K O) (S : Stored K O) k, obj_at region (O := O) ∅ k = None) as Hno.
  { intros K O C S k. unfold obj_at, get. by rewrite lookup_empty. }
  split; try apply Hws.
  - intros key s. unfold refs_at. rewrite Hno. simpl. rewrite lookup_empty. by intros [? [=]].
  - intros pk p. by rewrite Hno.
Qed.
Lemma prov_wf_app f (a : App) :
  prov_wf f → prov_wf (after {[obj_key region (O := App) (app_Key a) := Marshal a]} f).
Proof.
  intros [H1 H2 H3 H4 H5]. split.
  - exact (well_stored_put region f a H1).
  - by apply (well_stored_other region (K' := AppKey) (O' := App)); [other_type|].
  - by apply (well_stored_other region (K' := AppKey) (O' := App)); [other_type|].
  - intros key s. unfold refs_at.
    rewrite (obj_at_other region (K' := AppKey) (O' := App)) by other_type. apply H4.
  - intros pk p. rewrite (obj_at_other region (K' := AppKey) (O' := App)) by other_type. apply H5.
Qed.
Lemma prov_wf_policy f (p : AutoProvPolicy) :
  NoDup (ap_Zones p) → prov_wf f →
  prov_wf (after {[obj_key region (O := AutoProvPolicy) (ap_Key p) := Marshal p]} f).
Proof.
  intros Hnd [H1 H2 H3 H4 H5]. split.
  - by apply (well_stored_other region (K' := PolicyKey) (O' := AutoProvPolicy)); [other_type|].
  - by apply (well_stored_other region (K' := PolicyKey) (O' := AutoProvPolicy)); [other_type|].
  - by apply (well_stored_other region (K' := PolicyKey) (O' := AutoProvPolicy)); [other_type|].
  - intros key s. unfold refs_at.
    rewrite (obj_at_other region (K' := PolicyKey) (O' := AutoProvPolicy)) by other_type. apply H4.
  - intros pk p' Hp.
    assert ((if decide (pk = ap_Key p) then Some p else policy_at f pk) = Some p') as Hput.
    { rewrite <- Hp. exact (eq_sym (obj_at_put region f p pk)). }
    case_decide; [by simplify_eq|]. by eapply H5.
Qed.
End ProvCheck.

(** ** Runs *)
Module ProvCheckWitness.
Import JsonRuns ProvJson.
#[local] Existing Instance canonical_range.

Definition z1 : ZoneKey := mkZoneKey "op" "munich" "".
Definition z2 : ZoneKey := mkZoneKey "op" "berlin" "".
Definition ak : AppKey := mkAppKey "dev" "g" "1".
Definition app : App := mkApp ak false false ["p"] "" "docker".
(** One instance at most, on two zones. *)
Definition policy : AutoProvPolicy :=
  mkAutoProvPolicy [] (mkPolicyKey "dev" "p") 1 1 [z1; z2] 0 1 0 0 false.
Definition f0 : snapshot :=
  after {[obj_key 0 (O := AutoProvPolicy) (ap_Key policy) := Marshal policy]}
    (after {[obj_key 0 (O := App) (app_Key app) := Marshal app]} ∅).
Definition inst_on (z : ZoneKey) (name : string) : AppInst :=
  mkAppInst (mkAppInstKey name "dev") ak (mkCloudletKey "" "" "") z LIVENESS_UNKNOWN
    TRACKED_STATE_UNKNOWN HEALTH_CHECK_UNKNOWN.
Definition claim (z : ZoneKey) (name : string) : stm () :=
  claim_instance 0 (autoprov_md AutoProvReasonDemand "") (inst_on z name) (mkCloudletKey "op" "c" "").
Definition f1 : snapshot := (run_body (claim z1 "i1") f0).2.
Lemma f0_wf : prov_wf 0 f0.
Proof.
  unfold f0. apply (prov_wf_policy 0); [by apply (bool_decide_unpack _)|].
  apply (prov_wf_app 0), (prov_wf_empty 0).
Qed.

(** The first create succeeds and keeps the bound; the second, on the other
    zone, is refused. *)
Lemma autoprov_bounds_witness :
  prov_wf 0 f0 ∧ prov_wf 0 f1 ∧ live 0 f1 false ak [z1; z2] = 1 ∧
  is_ok (run_body (claim z2 "i2") f1).1 = false ∧
  (∃ p, obj_at 0 (O := AutoProvPolicy) f0 (policy_key app "p") = Some p ∧
    (z1 ∈ ap_Zones p → MaxInstances p > 0 → live 0 f1 false ak (ap_Zones p) <= MaxInstances p)).
Proof.
  assert (is_ok (run_body (claim z1 "i1") f0).1 = true) as Hok by (vm_compute; reflexivity).
  assert (run_body (claim z1 "i1") f0 = (Ok (), f1)) as Hrun.
  { unfold f1. destruct (run_body (claim z1 "i1") f0) as [[[]|] f']; [reflexivity|discriminate Hok]. }
  destruct (autoprov_bounds 0 f0 AutoProvReasonDemand "" f0_wf) as [Hc _].
  destruct (Hc _ _ _ Hrun) as (Hwf & a & i & Ha & _ & _ & _ & _ & Hd & _).
  assert (Some a = Some app) as Ha'.
  { rewrite <- Ha. vm_compute. reflexivity. }
  injection Ha' as ->.
  split; [exact f0_wf|]. split; [exact Hwf|]. split; [vm_compute; reflexivity|].
  split; [vm_compute; reflexivity|].
  apply (Hd eq_refl "p"). apply (bool_decide_unpack _). vm_compute. exact I.
Defined.
End ProvCheckWitness.
