(* ===== verification/FreeClust.v ===== *)
(** * Free reservable clusters (api/edgeproto/free_reservable_clusterinsts.go)

    Auto-provisioning and the match engine look for free clusters on a
    cloudlet.  The cache is fed with every cluster and keeps the reservable ones
    that nobody has reserved, by cloudlet; since a delete may know only the key,
    a second map leads from the key to the cloudlet. *)

From S2P Require Export ProvObjs.
From stdpp Require Import countable.

(** Of a cluster, what the cache reads. *)
Record ClusterInst := mkClusterInst {
  cli_Key : ClusterKey;
  cli_CloudletKey : CloudletKey;
  cli_Reservable : bool;
  cli_ReservedBy : string;
  cli_Deployment : string;
}.

Record FreeClusters := mkFreeClusters {
  InstsByCloudlet : gmap CloudletKey (gmap ClusterKey ClusterInst);
  KeyToCloudlet : gmap ClusterKey CloudletKey;
}.
Definition FreeClusters_Init : FreeClusters := mkFreeClusters ∅ ∅.

Definition FC_Update (in_ : ClusterInst) (s : FreeClusters) : FreeClusters :=
  if negb (cli_Reservable in_) then s
  else
    let ck := cli_CloudletKey in_ in
    let cinsts := default ∅ (InstsByCloudlet s !! ck) in
    if decide (cli_ReservedBy in_ ≠ "") then
      mkFreeClusters (<[ck := delete (cli_Key in_) cinsts]> (InstsByCloudlet s))
        (delete (cli_Key in_) (KeyToCloudlet s))
    else
      mkFreeClusters (<[ck := <[cli_Key in_ := in_]> cinsts]> (InstsByCloudlet s))
        (<[cli_Key in_ := ck]> (KeyToCloudlet s)).

(** Only the key of [in_] need be set; the entry that is deleted when the map
    of the cloudlet is empty is that of the cloudlet of [in_]. *)
Definition FC_Delete (in_ : ClusterInst) (s : FreeClusters) : FreeClusters :=
  match KeyToCloudlet s !! cli_Key in_ with
  | None => s
  | Some cloudletKey =>
      match InstsByCloudlet s !! cloudletKey with
      | None => s
      | Some cinsts =>
          let cinsts' := delete (cli_Key in_) cinsts in
          let insts := <[cloudletKey := cinsts']> (InstsByCloudlet s) in
          mkFreeClusters (if decide (size cinsts' = 0) then delete (cli_CloudletKey in_) insts else insts)
            (delete (cli_Key in_) (KeyToCloudlet s))
      end
  end.

(** Deleting from a map while ranging over it is safe in Go. *)
Definition prune_cluster (ck : CloudletKey) (validKeys : gset ClusterKey) (s : FreeClusters)
    (k : ClusterKey) : FreeClusters :=
  if decide (k ∈ validKeys) then s
  else mkFreeClusters (alter (delete k) ck (InstsByCloudlet s)) (delete k (KeyToCloudlet s)).
Definition prune_cloudlet {GR : GoRange} (validKeys : gset ClusterKey) (s : FreeClusters)
    (e : CloudletKey * gmap ClusterKey ClusterInst) : FreeClusters :=
  let s' := fold_left (prune_cluster e.1 validKeys) (go_range e.2).*1 s in
  if decide (size (default ∅ (InstsByCloudlet s' !! e.1)) = 0) then
    mkFreeClusters (delete e.1 (InstsByCloudlet s')) (KeyToCloudlet s')
  else s'.
Definition FC_Prune {GR : GoRange} (validKeys : gset ClusterKey) (s : FreeClusters) : FreeClusters :=
  fold_left (prune_cloudlet validKeys) (go_range (InstsByCloudlet s)) s.

(** cloudcommon/deployment.go *)
Definition DeploymentTypeKubernetes : string := "kubernetes".
Definition DeploymentTypeHelm : string := "helm".
Definition AppInstToClusterDeployment (deployment : string) : string :=
  if decide (deployment = DeploymentTypeHelm) then DeploymentTypeKubernetes else deployment.

Definition GetForCloudlet {GR : GoRange} (key : CloudletKey) (deployment : string)
    (transform : string → string) (s : FreeClusters) : list ClusterInst :=
  let deployment := transform deployment in
  match InstsByCloudlet s !! key with
  | None => []
  | Some cinsts => filter (λ c, cli_Deployment c = deployment) (go_range cinsts).*2
  end.
Definition GetCount {GR : GoRange} (s : FreeClusters) : nat :=
  fold_left (λ n (e : CloudletKey * gmap ClusterKey ClusterInst), n + size e.2)
    (go_range (InstsByCloudlet s)) 0.

(** ** The cache has exactly the free clusters *)

Definition is_free (c : ClusterInst) : Prop := cli_Reservable c = true ∧ cli_ReservedBy c = "".
#[global] Instance is_free_dec c : Decision (is_free c).
Proof. unfold is_free. apply _. Defined.
Definition cached_at (s : FreeClusters) (ck : CloudletKey) : gmap ClusterKey ClusterInst :=
  default ∅ (InstsByCloudlet s !! ck).

(** [objs] are the clusters that the controller has, as far as it told. *)
Record fc_inv (objs : gmap ClusterKey ClusterInst) (s : FreeClusters) : Prop := {
  fc_insts ck k c : cached_at s ck !! k = Some c ↔
    objs !! k = Some c ∧ is_free c ∧ cli_CloudletKey c = ck;
  fc_keys k ck : KeyToCloudlet s !! k = Some ck ↔
    ∃ c, objs !! k = Some c ∧ is_free c ∧ cli_CloudletKey c = ck;
}.

Inductive fc_msg := FUpdate (c : ClusterInst) | FDelete (c : ClusterInst) | FPrune (valid : gset ClusterKey).
Definition fc_handle {GR : GoRange} (m : fc_msg) (s : FreeClusters) : FreeClusters :=
  match m with FUpdate c => FC_Update c s | FDelete c => FC_Delete c s | FPrune v => FC_Prune v s end.
Definition fc_objs (m : fc_msg) (objs : gmap ClusterKey ClusterInst) : gmap ClusterKey ClusterInst :=
  match m with
  | FUpdate c => <[cli_Key c := c]> objs
  | FDelete c => delete (cli_Key c) objs
  | FPrune v => filter (λ e, e.1 ∈ v) objs
  end.
(** A cluster stays on its cloudlet, and reservable if it is; a delete has the
    cloudlet of the cluster, or one without other clusters, as the zero key. *)
Definition fc_stable (m : fc_msg) (objs : gmap ClusterKey ClusterInst) : Prop :=
  match m with
  | FUpdate c => ∀ old, objs !! cli_Key c = Some old →
      cli_CloudletKey old = cli_CloudletKey c ∧ cli_Reservable old = cli_Reservable c
  | FDelete c => ∀ k old, objs !! k = Some old → cli_CloudletKey old = cli_CloudletKey c → k = cli_Key c
      ∨ objs !! cli_Key c = Some c
  | FPrune _ => True
  end.
Inductive fc_reachable {GR : GoRange} : gmap ClusterKey ClusterInst → FreeClusters → Prop :=
| fc_start : fc_reachable ∅ FreeClusters_Init
| fc_msg_in objs s m : fc_reachable objs s → fc_stable m objs → fc_reachable (fc_objs m objs) (fc_handle m s).

Lemma cached_at_insert s ck m kc ck' :
  cached_at (mkFreeClusters (<[ck := m]> (InstsByCloudlet s)) kc) ck' =
  if decide (ck' = ck) then m else cached_at s ck'.
Proof.
  unfold cached_at. simpl. case_decide as Hck; [subst; by rewrite lookup_insert_eq|].
  by rewrite lookup_insert_ne.
Qed.
Lemma fc_inv_update objs s c :
  fc_stable (FUpdate c) objs → fc_inv objs s → fc_inv (<[cli_Key c := c]> objs) (FC_Update c s).
Proof.
  intros Hst [Hi Hk]. simpl in Hst. unfold FC_Update.
  assert (∀ ck k x, k ≠ cli_Key c →
    cached_at s ck !! k = Some x ↔ <[cli_Key c := c]> objs !! k = Some x ∧ is_free x ∧ cli_CloudletKey x = ck)
    as Hother by (intros; rewrite lookup_insert_ne by done; apply Hi).
  assert (∀ k ck, k ≠ cli_Key c → KeyToCloudlet s !! k = Some ck ↔
    ∃ x, <[cli_Key c := c]> objs !! k = Some x ∧ is_free x ∧ cli_CloudletKey x = ck) as Hkother
    by (intros; rewrite lookup_insert_ne by done; apply Hk).
  assert (∀ ck x, cached_at s ck !! cli_Key c = Some x → ck = cli_CloudletKey c ∧ cli_Reservable c = true) as Hold.
  { intros ck x (Ho & [Hr _] & <-)%Hi. destruct (Hst x Ho) as [-> <-]. done. }
  destruct (cli_Reservable c) eqn:Hres; simpl.
  - case_decide as Hby.
    + assert (¬ is_free c) as Hnf by (intros [_ ?]; done). split.
      * intros ck k x. rewrite cached_at_insert. destruct (decide (k = cli_Key c)) as [->|Hne].
        -- rewrite lookup_insert_eq. split; [|naive_solver]. intros Hx. exfalso.
           case_decide as Hck; [by rewrite lookup_delete_eq in Hx|].
           by destruct (Hold _ _ Hx).
        -- rewrite <- Hother by done. case_decide as Hck; [subst|done].
           by rewrite lookup_delete_ne.
      * intros k ck. simpl. destruct (decide (k = cli_Key c)) as [->|Hne].
        -- rewrite lookup_delete_eq, lookup_insert_eq. naive_solver.
        -- rewrite lookup_delete_ne by done. by apply Hkother.
    + assert (is_free c) as Hfr by (split; [done|by destruct (decide (cli_ReservedBy c = ""))]). split.
      * intros ck k x. rewrite cached_at_insert. destruct (decide (k = cli_Key c)) as [->|Hne].
        -- rewrite lookup_insert_eq. case_decide as Hck; [subst; rewrite lookup_insert_eq; naive_solver|].
           split; [|naive_solver]. intros Hx. by destruct (Hold _ _ Hx).
        -- rewrite <- Hother by done. case_decide as Hck; [subst|done].
           by rewrite lookup_insert_ne.
      * intros k ck. simpl. destruct (decide (k = cli_Key c)) as [->|Hne].
        -- rewrite !lookup_insert_eq. naive_solver.
        -- rewrite lookup_insert_ne by done. by apply Hkother.
  - assert (¬ is_free c) as Hnf by (intros [? _]; congruence). split.
    + intros ck k x. destruct (decide (k = cli_Key c)) as [->|Hne]; [|by apply Hother].
      rewrite lookup_insert_eq. split; [|naive_solver]. intros Hx. by destruct (Hold _ _ Hx).
    + intros k ck. destruct (decide (k = cli_Key c)) as [->|Hne]; [|by apply Hkother].
      rewrite lookup_insert_eq, Hk. split; [|naive_solver].
      intros (x & Ho & [Hr _] & _). destruct (Hst x Ho). congruence.
Qed.
Lemma cached_at_drop s ck0 ck :
  cached_at s ck0 = ∅ →
  cached_at (mkFreeClusters (delete ck0 (InstsByCloudlet s)) (KeyToCloudlet s)) ck = cached_at s ck.
Proof.
  intros He. unfold cached_at at 1. simpl. destruct (decide (ck = ck0)) as [->|Hne].
  - by rewrite lookup_delete_eq, He.
  - by rewrite lookup_delete_ne.
Qed.
Lemma fc_inv_drop objs s ck0 :
  cached_at s ck0 = ∅ → fc_inv objs s →
  fc_inv objs (mkFreeClusters (delete ck0 (InstsByCloudlet s)) (KeyToCloudlet s)).
Proof. intros He [Hi Hk]. split; [|done]. intros ck k c. by rewrite cached_at_drop. Qed.
Lemma fc_inv_delete objs s c :
  fc_stable (FDelete c) objs → fc_inv objs s → fc_inv (delete (cli_Key c) objs) (FC_Delete c s).
Proof.
  intros Hst [Hi Hk]. simpl in Hst. unfold FC_Delete.
  destruct (KeyToCloudlet s !! cli_Key c) as [ck0|] eqn:Hkey.
  - pose proof Hkey as (x & Ho & Hf & Hck)%Hk.
    assert (cached_at s ck0 !! cli_Key c = Some x) as Hx by (by apply Hi).
    destruct (InstsByCloudlet s !! ck0) as [cinsts|] eqn:Hc; [|unfold cached_at in Hx; by rewrite Hc in Hx].
    assert (cached_at s ck0 = cinsts) as Hcin by (unfold cached_at; by rewrite Hc).
    set (s1 := mkFreeClusters (<[ck0 := delete (cli_Key c) cinsts]> (InstsByCloudlet s))
                 (delete (cli_Key c) (KeyToCloudlet s))).
    assert (fc_inv (delete (cli_Key c) objs) s1) as Hinv1.
    { split.
      - intros ck k y. unfold s1. rewrite cached_at_insert. destruct (decide (k = cli_Key c)) as [->|Hne].
        + rewrite lookup_delete_eq. split; [|naive_solver]. case_decide; [by rewrite lookup_delete_eq|].
          intros (Ho' & _ & Hck')%Hi. simplify_eq.
        + rewrite lookup_delete_ne, <- Hi by done. case_decide as Hd; [|done].
          by rewrite lookup_delete_ne, Hd, Hcin.
      - intros k ck. simpl. destruct (decide (k = cli_Key c)) as [->|Hne].
        + rewrite !lookup_delete_eq. naive_solver.
        + rewrite !lookup_delete_ne by done. apply Hk. }
    case_decide as Hs; [|done]. apply (fc_inv_drop _ s1); [|done].
    apply map_eq. intros k. rewrite lookup_empty. apply eq_None_not_Some. intros [y Hy].
    apply (fc_insts _ _ Hinv1) in Hy as ([Hne Hy]%lookup_delete_Some & Hfy & Hcy).
    destruct (Hst k y Hy Hcy) as [?|Hoc]; [done|]. rewrite Ho in Hoc. simplify_eq.
    assert (cached_at s (cli_CloudletKey c) !! k = Some y) as Hin by (apply Hi; by rewrite <- Hcy).
    apply map_size_empty_inv in Hs. rewrite <- (lookup_delete_ne _ _ _ Hne), Hs in Hin.
    by rewrite lookup_empty in Hin.
  - split.
    + intros ck k y. rewrite Hi. destruct (decide (k = cli_Key c)) as [->|Hne].
      * rewrite lookup_delete_eq. split; [|naive_solver]. intros (Ho & Hf & Hc).
        assert (KeyToCloudlet s !! cli_Key c = Some ck) by (apply Hk; eauto). congruence.
      * by rewrite lookup_delete_ne.
    + intros k ck. rewrite Hk. destruct (decide (k = cli_Key c)) as [->|Hne].
      * rewrite lookup_delete_eq. split; [|naive_solver]. intros Hx.
        assert (KeyToCloudlet s !! cli_Key c = Some ck) by (by apply Hk). congruence.
      * by rewrite lookup_delete_ne.
Qed.

Section Prune.
Context {GR : GoRange} (v : gset ClusterKey).

Lemma prune_clusters_inv ck ks s :
  let s' := fold_left (prune_cluster ck v) ks s in
  (∀ ck' k c, cached_at s' ck' !! k = Some c ↔
     cached_at s ck' !! k = Some c ∧ ¬ (ck' = ck ∧ k ∈ ks ∧ k ∉ v)) ∧
  (∀ k c, KeyToCloudlet s' !! k = Some c ↔ KeyToCloudlet s !! k = Some c ∧ ¬ (k ∈ ks ∧ k ∉ v)).
Proof.
  revert s. induction ks as [|k0 ks IH]; intros s; simpl; [set_solver|].
  destruct (IH (prune_cluster ck v s k0)) as [IH1 IH2]. clear IH. unfold prune_cluster in *.
  destruct (decide (k0 ∈ v)) as [Hv|Hv].
  - split; intros; rewrite ?IH1, ?IH2, elem_of_cons; naive_solver.
  - simpl in *. split.
    + intros ck' k c. rewrite IH1, elem_of_cons.
      assert (cached_at (mkFreeClusters (alter (delete k0) ck (InstsByCloudlet s))
          (delete k0 (KeyToCloudlet s))) ck' !! k = Some c ↔
        cached_at s ck' !! k = Some c ∧ ¬ (ck' = ck ∧ k = k0)) as ->; [|naive_solver].
      unfold cached_at. simpl. destruct (decide (ck' = ck)) as [->|Hne].
      * rewrite lookup_alter_eq. destruct (InstsByCloudlet s !! ck) as [m|]; simpl.
        -- rewrite lookup_delete_Some. naive_solver.
        -- rewrite lookup_empty. naive_solver.
      * rewrite lookup_alter_ne by done. naive_solver.
    + intros k c. rewrite IH2, elem_of_cons, lookup_delete_Some. naive_solver.
Qed.
Lemma prune_cloudlet_inv s e :
  let s' := prune_cloudlet v s e in
  (∀ ck' k c, cached_at s' ck' !! k = Some c ↔
     cached_at s ck' !! k = Some c ∧ ¬ (ck' = e.1 ∧ is_Some (e.2 !! k) ∧ k ∉ v)) ∧
  (∀ k c, KeyToCloudlet s' !! k = Some c ↔
     KeyToCloudlet s !! k = Some c ∧ ¬ (is_Some (e.2 !! k) ∧ k ∉ v)).
Proof.
  assert (∀ k, k ∈ (go_range e.2).*1 ↔ is_Some (e.2 !! k)) as Hin.
  { intros k. rewrite list_elem_of_fmap. split.
    - intros ([k' x] & -> & Hx%elem_of_go_range). by eexists.
    - intros [x Hx]. exists (k, x). split; [done|]. by apply elem_of_go_range. }
  destruct (prune_clusters_inv e.1 (go_range e.2).*1 s) as [H1 H2]. cbn zeta. unfold prune_cloudlet.
  set (s' := fold_left _ _ s) in *. fold (cached_at s' e.1).
  case_decide as Hs; (split; [intros ck' k c|intros k c]); rewrite <- Hin.
  1: { rewrite cached_at_drop by (by apply map_size_empty_inv). apply H1. }
  all: first [apply H1|apply H2].
Qed.
Lemma prune_all_inv l s :
  let s' := fold_left (prune_cloudlet v) l s in
  (∀ ck' k c, cached_at s' ck' !! k = Some c ↔
     cached_at s ck' !! k = Some c ∧ ¬ (∃ e, e ∈ l ∧ ck' = e.1 ∧ is_Some (e.2 !! k) ∧ k ∉ v)) ∧
  (∀ k c, KeyToCloudlet s' !! k = Some c ↔
     KeyToCloudlet s !! k = Some c ∧ ¬ (∃ e, e ∈ l ∧ is_Some (e.2 !! k) ∧ k ∉ v)).
Proof.
  revert s. induction l as [|e l IH]; intros s; simpl; [set_solver|].
  destruct (IH (prune_cloudlet v s e)) as [IH1 IH2].
  destruct (prune_cloudlet_inv s e) as [H1 H2]. split.
  - intros ck' k c. rewrite IH1, H1. setoid_rewrite elem_of_cons. naive_solver.
  - intros k c. rewrite IH2, H2. setoid_rewrite elem_of_cons. naive_solver.
Qed.
Lemma fc_inv_prune objs s : fc_inv objs s → fc_inv (filter (λ e, e.1 ∈ v) objs) (FC_Prune v s).
Proof.
  intros [Hi Hk]. destruct (prune_all_inv (go_range (InstsByCloudlet s)) s) as [H1 H2].
  assert (∀ ck k c, cached_at s ck !! k = Some c →
    ∃ e, e ∈ go_range (InstsByCloudlet s) ∧ ck = e.1 ∧ is_Some (e.2 !! k)) as Hin.
  { intros ck k c Hc. unfold cached_at in Hc. destruct (InstsByCloudlet s !! ck) as [m|] eqn:Hm;
      [|done]. exists (ck, m). split; [by apply elem_of_go_range|]. split; [done|by eexists]. }
  assert (∀ k c, filter (λ e, e.1 ∈ v) objs !! k = Some c ↔ objs !! k = Some c ∧ k ∈ v) as Hf.
  { intros k c. by rewrite map_lookup_filter_Some. }
  split.
  - intros ck k c. unfold FC_Prune. rewrite H1, Hf, Hi. split.
    + intros ((Ho & Hfr & Hc) & Hn). split_and!; try done. destruct (decide (k ∈ v)); [done|].
      destruct Hn. destruct (Hin ck k c) as (e & ? & ? & ?); [by apply Hi|]. by exists e.
    + intros ((Ho & Hv) & Hfr & Hc). split; [done|]. by intros (e & _ & _ & _ & Hnv).
  - intros k ck. unfold FC_Prune. rewrite H2, Hk. split.
    + intros ((c & Ho & Hfr & Hc) & Hn). exists c. rewrite Hf. split_and!; try done.
      destruct (decide (k ∈ v)); [done|]. destruct Hn.
      destruct (Hin ck k c) as (e & ? & ? & ?); [by apply Hi|]. by exists e.
    + intros (c & (Ho & Hv)%Hf & Hfr & Hc). split; [by exists c|]. by intros (e & _ & _ & Hnv).
Qed.
End Prune.

Section Exact.
Context {GR : GoRange}.

Lemma fc_reachable_inv objs s : fc_reachable objs s → fc_inv objs s.
Proof.
  induction 1 as [|objs s m _ IH Hst].
  - split; intros; [unfold cached_at|]; simpl; rewrite ?lookup_empty; naive_solver.
  - destruct m as [c|c|v]; simpl.
    + by apply fc_inv_update.
    + by apply fc_inv_delete.
    + by apply fc_inv_prune.
Qed.

(** The clusters of all cloudlets. *)
Definition all_cached (s : FreeClusters) : list (ClusterKey * ClusterInst) :=
  flat_map (λ e, map_to_list e.2) (go_range (InstsByCloudlet s)).
Lemma GetCount_all s : GetCount s = length (all_cached s).
Proof.
  unfold GetCount, all_cached. change (length _) with (0 + length (flat_map
    (λ e : CloudletKey * gmap ClusterKey ClusterInst, map_to_list e.2) (go_range (InstsByCloudlet s)))).
  generalize 0. induction (go_range (InstsByCloudlet s)) as [|e l IH]; intros n; simpl; [lia|].
  rewrite IH, length_app, length_map_to_list. lia.
Qed.
Lemma all_cached_free objs s : fc_inv objs s → all_cached s ≡ₚ map_to_list (filter (λ e, is_free e.2) objs).
Proof.
  intros [Hi _].
  assert (∀ e k c, e ∈ go_range (InstsByCloudlet s) → (k, c) ∈ map_to_list e.2 →
    cached_at s e.1 !! k = Some c) as Hin.
  { intros [ck m] k c He%elem_of_go_range Hc%elem_of_map_to_list. unfold cached_at. simpl in *.
    by rewrite He. }
  apply NoDup_Permutation; [|apply NoDup_map_to_list|].
  - unfold all_cached. assert (NoDup (go_range (InstsByCloudlet s)).*1) as Hnd by apply NoDup_go_range.
    induction (go_range (InstsByCloudlet s)) as [|e l IH]; simpl; [constructor|].
    inversion_clear Hnd as [|?? Hne Hnd']. apply list.NoDup_app. split_and!; [apply NoDup_map_to_list| |].
    + intros [k c] Hc Hl. apply list_elem_of_In, in_flat_map in Hl as (e' & He' & Hc').
      apply list_elem_of_In in He', Hc'.
      apply Hin in Hc; [|by left]. apply Hin in Hc'; [|by right].
      apply Hi in Hc as (_ & _ & Hc). apply Hi in Hc' as (_ & _ & Hc'). destruct Hne.
      rewrite <- Hc, Hc'. by apply list_elem_of_fmap_2.
    + apply IH; [|done]. intros e' k c He'. apply Hin. by right.
  - intros [k c]. rewrite elem_of_map_to_list, map_lookup_filter_Some. simpl. unfold all_cached.
    rewrite list_elem_of_In, in_flat_map. split.
    + intros (e & He & Hc). apply list_elem_of_In in He, Hc. apply Hin in Hc; [|done].
      apply Hi in Hc. tauto.
    + intros [Ho Hf]. assert (cached_at s (cli_CloudletKey c) !! k = Some c) as Hc by (by apply Hi).
      unfold cached_at in Hc. destruct (InstsByCloudlet s !! cli_CloudletKey c) as [m|] eqn:Hm; [|done].
      exists (cli_CloudletKey c, m). split; apply list_elem_of_In; [by apply elem_of_go_range|].
      by apply elem_of_map_to_list.
Qed.

(** After any messages that keep clusters on their cloudlets, a look for a
    cloudlet gives exactly its free reservable clusters of the deployment, each
    once, and the count is the number of free clusters: an update, a delete that
    knows only the key and a pruning after a reconnect all keep it so. *)
Theorem free_clusters_exact objs s ck deployment transform :
  fc_reachable objs s →
  (∀ c, c ∈ GetForCloudlet ck deployment transform s ↔
    ∃ k, objs !! k = Some c ∧ cli_Reservable c = true ∧ cli_ReservedBy c = "" ∧
      cli_CloudletKey c = ck ∧ cli_Deployment c = transform deployment) ∧
  length (GetForCloudlet ck deployment transform s) =
    size (filter (λ e, is_free e.2 ∧ cli_CloudletKey e.2 = ck ∧ cli_Deployment e.2 = transform deployment) objs) ∧
  GetCount s = size (filter (λ e, is_free e.2) objs).
Proof.
  intros Hinv%fc_reachable_inv.
  pose proof Hinv as [Hi _].
  assert (GetForCloudlet ck deployment transform s =
    (filter (λ e, cli_Deployment e.2 = transform deployment) (go_range (cached_at s ck))).*2) as Hget.
  { unfold GetForCloudlet, cached_at. destruct (InstsByCloudlet s !! ck) as [m|]; simpl.
    - induction (go_range m) as [|[k c] l IH]; [done|]. cbn [fmap list_fmap snd].
      rewrite !filter_cons. simpl. case_decide; [simpl; by f_equal|done].
    - by rewrite go_range_empty. }
  rewrite Hget. split; [|split].
  - intros c. rewrite list_elem_of_fmap. split.
    + intros ([k c'] & -> & [Hd Hc%elem_of_go_range]%list_elem_of_filter). simpl in *.
      apply Hi in Hc as (Ho & [Hr Hb] & Hck). by exists k.
    + intros (k & Ho & Hr & Hb & Hck & Hd). exists (k, c). split; [done|].
      rewrite list_elem_of_filter, elem_of_go_range, Hi. done.
  - rewrite length_fmap. rewrite <- length_map_to_list. apply Permutation_length, NoDup_Permutation.
    + apply list.NoDup_filter, NoDup_go_range_kv.
    + apply NoDup_map_to_list.
    + intros [k c]. rewrite list_elem_of_filter, elem_of_go_range, elem_of_map_to_list,
        map_lookup_filter_Some, Hi. simpl. tauto.
  - rewrite GetCount_all, (all_cached_free objs s Hinv). apply length_map_to_list.
Qed.
End Exact.

(** ** A run *)
Module FreeClustWitness.
#[local] Existing Instance canonical_range.
Definition ck (n : string) : CloudletKey := mkCloudletKey "op" n "".
Definition cluster (n : string) (c by_ : string) : ClusterInst :=
  mkClusterInst (mkClusterKey n "ops") (ck c) true by_ "kubernetes".
(** Two clusters, one is reserved and freed; the other is deleted by its key. *)
Definition msgs : list fc_msg :=
  [FUpdate (cluster "c1" "x" ""); FUpdate (cluster "c2" "x" ""); FUpdate (cluster "c1" "x" "dev");
   FUpdate (cluster "c1" "x" "");
   FDelete (mkClusterInst (mkClusterKey "c2" "ops") (mkCloudletKey "" "" "") false "" "");
   FPrune {[mkClusterKey "c1" "ops"]}].
Definition final_objs : gmap ClusterKey ClusterInst := fold_left (λ o m, fc_objs m o) msgs ∅.
Definition final : FreeClusters := fold_left (λ s m, fc_handle m s) msgs FreeClusters_Init.
Lemma stable_by_key objs c :
  map_Forall (λ _ old, cli_CloudletKey old ≠ cli_CloudletKey c) objs → fc_stable (FDelete c) objs.
Proof. intros Hall k old Ho Hck. by apply Hall in Ho. Qed.
Lemma final_reachable : fc_reachable final_objs final.
Proof.
  unfold final_objs, final, msgs. cbn [fold_left].
  repeat (apply fc_msg_in;
    [|first [exact I
            | apply stable_by_key; apply (bool_decide_unpack _); vm_compute; exact I
            | intros old Hold; vm_compute in Hold;
              first [discriminate Hold | injection Hold as <-; by split]]]).
  apply fc_start.
Qed.
Lemma free_clusters_exact_witness :
  fc_reachable final_objs final ∧
  GetForCloudlet (ck "x") "helm" AppInstToClusterDeployment final = [cluster "c1" "x" ""] ∧
  GetCount final = size (filter (λ e, is_free e.2) final_objs) ∧
  length (GetForCloudlet (ck "x") "docker" AppInstToClusterDeployment final) = 0.
Proof.
  split; [exact final_reachable|]. split; [vm_compute; reflexivity|]. split.
  - exact (proj2 (proj2 (free_clusters_exact final_objs final (ck "x") "helm" AppInstToClusterDeployment
      final_reachable))).
  - vm_compute. reflexivity.
Defined.
End FreeClustWitness.
