(* ===== verification/ProvAggr.v ===== *)
(** * Deployment on demand (pkg/autoprov/autoprov_aggr.go)

    Once an interval the service reads how often clients asked for an app in a
    zone, and deploys where the demand met a policy for enough consecutive
    intervals.  The rows of the metrics database are an input; an interval in
    which a zone has no row is one without a change. *)

From S2P Require Export ProvObjs.
#[local] Open Scope Z_scope.

(** ** State *)

Record apCloudletStats := mkStats { count : Z; lastCount : Z; stats_intervalNum : Z }.
(** [zoneTrackers]: [deployIntervalsMet] of each zone of the policy. *)
Record apPolicyTracker := mkTracker {
  deployClientCount : Z;
  deployIntervalCount : Z;
  zoneTrackers : gmap ZoneKey Z;
}.
Record apAppStats := mkAppStats {
  policies : gmap string apPolicyTracker;
  zones : gmap ZoneKey apCloudletStats;
}.
Record AutoProvAggr := mkAggr { allStats : gmap AppKey apAppStats; intervalNum : Z }.
Definition NewAutoProvAggr : AutoProvAggr := mkAggr ∅ 0.

Section Aggr.
Context {GR : GoRange}.

(** ** An iteration *)

Record AutoProvCount := mkCount { apc_AppKey : AppKey; apc_ZoneKey : ZoneKey; apc_Count : Z }.
(** The counts of all match engines, summed by app and zone. *)
Definition aggregate (rows : list AutoProvCount) : gmap AppKey (gmap ZoneKey Z) :=
  fold_left (λ stats ap,
    let appStats := default ∅ (stats !! apc_AppKey ap) in
    <[apc_AppKey ap := <[apc_ZoneKey ap :=
        wrap_u 64 (default 0 (appStats !! apc_ZoneKey ap) + apc_Count ap)]> appStats]> stats) rows ∅.

(** [deployIntervalsMet] of a zone, and whether the policy wants to deploy. *)
Definition check_tracker (reset : bool) (incr : Z) (ap : apPolicyTracker) (met : Z) : Z * bool :=
  let met1 := if reset then 0 else met in
  let met2 := if decide (incr >= deployClientCount ap) then wrap_u 32 (met1 + 1) else 0 in
  (met2, bool_decide (met2 >= deployIntervalCount ap)).
Definition check_policy (zkey : ZoneKey) (reset : bool) (incr : Z)
    (st : gmap string apPolicyTracker * bool) (e : string * apPolicyTracker)
    : gmap string apPolicyTracker * bool :=
  let '(ps, doDeploy) := st in
  let '(name, ap) := e in
  match zoneTrackers ap !! zkey with
  | None => st
  | Some met =>
      let '(met', deploy) := check_tracker reset incr ap met in
      (<[name := mkTracker (deployClientCount ap) (deployIntervalCount ap)
                   (<[zkey := met']> (zoneTrackers ap))]> ps, doDeploy || deploy)
  end.
Definition iter_zone (init : bool) (interval : Z) (st : apAppStats * list ZoneKey) (e : ZoneKey * Z)
    : apAppStats * list ZoneKey :=
  let '(s, deploys) := st in
  let '(zkey, c) := e in
  (* if not found, treat last iteration as 0 count *)
  let cstats := default (mkStats 0 0 (wrap_u 64 (interval - 1))) (zones s !! zkey) in
  if init then
    (mkAppStats (policies s) (<[zkey := mkStats c (lastCount cstats) interval]> (zones s)), deploys)
  else
    let reset := negb (bool_decide (wrap_u 64 (interval - 1) = stats_intervalNum cstats)) in
    let '(ps, doDeploy) :=
      fold_left (check_policy zkey reset (wrap_u 64 (c - count cstats))) (go_range (policies s))
        (policies s, false) in
    (mkAppStats ps (<[zkey := mkStats c (count cstats) interval]> (zones s)),
     if doDeploy then deploys ++ [zkey] else deploys).
(** [appCache] is what the cache has; [deploy] starts a call for the app and
    the zone. *)
Definition iter_app (init : bool) (interval : Z) (appCache : gmap AppKey App)
    (st : gmap AppKey apAppStats * list (AppKey * ZoneKey)) (e : AppKey * gmap ZoneKey Z)
    : gmap AppKey apAppStats * list (AppKey * ZoneKey) :=
  let '(all, deploys) := st in
  let '(appKey, zs) := e in
  match all !! appKey, appCache !! appKey with
  | Some s, Some _ =>
      let '(s', ds) := fold_left (iter_zone init interval) (go_range zs) (s, []) in
      (<[appKey := s']> all, deploys ++ ((λ z, (appKey, z)) <$> ds))
  | _, _ => st
  end.
Definition runIter (init : bool) (rows : list AutoProvCount) (appCache : gmap AppKey App)
    (s : AutoProvAggr) : AutoProvAggr * list (AppKey * ZoneKey) :=
  let interval := wrap_u 64 (intervalNum s + 1) in
  let '(all, deploys) :=
    fold_left (iter_app init interval appCache) (go_range (aggregate rows)) (allStats s, []) in
  (mkAggr all (if init then wrap_u 64 (interval - 1) else interval), deploys).

(** ** Changes of apps and policies *)

Definition updatePolicyTracker (ap : apPolicyTracker) (policy : AutoProvPolicy) : apPolicyTracker :=
  mkTracker (DeployClientCount policy) (DeployIntervalCount policy)
    (fold_left (λ m z, <[z := default 0 (zoneTrackers ap !! z)]> m) (ap_Zones policy) ∅).
Definition DeleteApp (appKey : AppKey) (s : AutoProvAggr) : AutoProvAggr :=
  mkAggr (delete appKey (allStats s)) (intervalNum s).
Definition UpdateApp (appKey : AppKey) (appCache : gmap AppKey App)
    (policyCache : gmap PolicyKey AutoProvPolicy) (s : AutoProvAggr) : AutoProvAggr :=
  match appCache !! appKey with
  | None => DeleteApp appKey s
  | Some app =>
      let inAP := GetAutoProvPolicies app in
      if decide (size inAP = 0%nat) then DeleteApp (app_Key app) s
      else
        let appStats := default (mkAppStats ∅ ∅) (allStats s !! app_Key app) in
        (* remove policies *)
        let kept := filter (λ e, e.1 ∈ inAP) (policies appStats) in
        (* add policies *)
        let added := fold_left (λ ps name,
          match ps !! name with
          | Some _ => ps
          | None =>
              match policyCache !! mkPolicyKey (ak_Organization appKey) name with
              | None => ps
              | Some policy => <[name := updatePolicyTracker (mkTracker 0 0 ∅) policy]> ps
              end
          end) (elements inAP) kept in
        mkAggr (<[app_Key app := mkAppStats added (zones appStats)]> (allStats s)) (intervalNum s)
  end.
Definition UpdatePolicy (key : PolicyKey) (policyCache : gmap PolicyKey AutoProvPolicy)
    (s : AutoProvAggr) : AutoProvAggr :=
  match policyCache !! key with
  | None => s
  | Some policy =>
      mkAggr (map_imap (λ appKey st,
        if decide (ak_Organization appKey ≠ pk_Organization (ap_Key policy)) then Some st
        else
          match policies st !! pk_Name (ap_Key policy) with
          | None => Some st
          | Some ap =>
              Some (mkAppStats (<[pk_Name (ap_Key policy) := updatePolicyTracker ap policy]> (policies st))
                (zones st))
          end) (allStats s)) (intervalNum s)
  end.

(** ** One zone of one app *)

(** A fold over entries with different keys, each of which changes only what
    belongs to its key. *)
Lemma fold_slot {K V S T} `{Countable K} (f : S → K * V → S) (slot : S → T) (g : T → V → T) (a : K)
    (m : gmap K V) s :
  (∀ s k v, k ≠ a → slot (f s (k, v)) = slot s) → (∀ s v, slot (f s (a, v)) = g (slot s) v) →
  slot (fold_left f (go_range m) s) = match m !! a with Some v => g (slot s) v | None => slot s end.
Proof.
  intros Hother Hown. rewrite <- (list_to_map_go_range m) at 2.
  pose proof (NoDup_go_range m) as Hnd. revert s Hnd.
  induction (go_range m) as [|[k v] l IH]; intros s Hnd; simpl; [by rewrite lookup_empty|].
  inversion_clear Hnd as [|?? Hk Hnd']. rewrite IH by done.
  destruct (decide (k = a)) as [->|Hne].
  - rewrite not_elem_of_list_to_map_1, lookup_insert_eq by done. apply Hown.
  - rewrite lookup_insert_ne, Hother by done. done.
Qed.

(** What an interval does to the tracker of a zone, and the wish to deploy. *)
Definition track (zkey : ZoneKey) (reset : bool) (incr : Z) (ap : apPolicyTracker) : apPolicyTracker :=
  match zoneTrackers ap !! zkey with
  | None => ap
  | Some met => mkTracker (deployClientCount ap) (deployIntervalCount ap)
                  (<[zkey := (check_tracker reset incr ap met).1]> (zoneTrackers ap))
  end.
Definition wants (zkey : ZoneKey) (reset : bool) (incr : Z) (ap : apPolicyTracker) : Prop :=
  ∃ met, zoneTrackers ap !! zkey = Some met ∧ (check_tracker reset incr ap met).2 = true.
Lemma check_policy_eq zkey reset incr (m : gmap string apPolicyTracker) b n ap :
  check_policy zkey reset incr (m, b) (n, ap) =
  match zoneTrackers ap !! zkey with
  | None => (m, b)
  | Some met => (<[n := track zkey reset incr ap]> m, b || (check_tracker reset incr ap met).2)
  end.
Proof.
  unfold check_policy, track. destruct (zoneTrackers ap !! zkey) as [met|]; [|done].
  by destruct (check_tracker reset incr ap met).
Qed.
Lemma check_policies_fold zkey reset incr l (ps m : gmap string apPolicyTracker) b :
  NoDup l.*1 → (∀ n ap, (n, ap) ∈ l → ps !! n = Some ap) → (∀ n, n ∈ l.*1 → m !! n = ps !! n) →
  let r := fold_left (check_policy zkey reset incr) l (m, b) in
  (∀ n, r.1 !! n = if decide (n ∈ l.*1) then track zkey reset incr <$> ps !! n else m !! n) ∧
  (r.2 = true ↔ b = true ∨ ∃ n ap, (n, ap) ∈ l ∧ wants zkey reset incr ap).
Proof.
  revert m b. induction l as [|[n0 ap0] l IH]; intros m b Hnd Hps Hm;
    cbn [fold_left fmap list_fmap fst].
  { split; [done|]. split; [by left|]. intros [?|(n & ap & Hin & _)]; [done|]. by apply elem_of_nil in Hin. }
  inversion_clear Hnd as [|?? Hn Hnd'].
  assert (ps !! n0 = Some ap0) as Hp0 by (apply Hps; by left).
  assert (∀ n ap, (n, ap) ∈ l → ps !! n = Some ap) as Hps' by (intros n ap Hin; apply Hps; by right).
  assert (∀ (r : gmap string apPolicyTracker) n, (∀ n, n ∈ l.*1 → r !! n = ps !! n) →
    (∀ n, n ≠ n0 → r !! n = m !! n) → r !! n0 = track zkey reset incr <$> ps !! n0 →
    (if decide (n ∈ l.*1) then track zkey reset incr <$> ps !! n else r !! n) =
    (if decide (n ∈ n0 :: l.*1) then track zkey reset incr <$> ps !! n else m !! n)) as Hcase.
  { intros r n Hr Ho H0. destruct (decide (n = n0)) as [->|Hne].
    - rewrite decide_False by done. rewrite decide_True by (by left). done.
    - rewrite Ho by done. destruct (decide (n ∈ l.*1)).
      + rewrite decide_True by (by right). done.
      + rewrite decide_False by (by intros [?|?]%elem_of_cons). done. }
  assert ((∃ n ap, (n, ap) ∈ (n0, ap0) :: l ∧ wants zkey reset incr ap) ↔
    wants zkey reset incr ap0 ∨ ∃ n ap, (n, ap) ∈ l ∧ wants zkey reset incr ap) as Hw.
  { split.
    - intros (n & ap & [[= -> ->]|Hin]%elem_of_cons & Hw); [by left|right; by exists n, ap].
    - intros [Hw|(n & ap & Hin & Hw)]; [exists n0, ap0|exists n, ap]; split; try done; [by left|by right]. }
  rewrite Hw, check_policy_eq. destruct (zoneTrackers ap0 !! zkey) as [met|] eqn:Hz.
  - set (d := (check_tracker reset incr ap0 met).2).
    destruct (IH (<[n0 := track zkey reset incr ap0]> m) (b || d) Hnd' Hps') as [IH1 IH2].
    { intros n Hin. rewrite lookup_insert_ne by (by intros ->). apply Hm. by right. }
    split.
    + intros n. rewrite IH1. apply Hcase.
      * intros n' Hin. rewrite lookup_insert_ne by (by intros ->). apply Hm. by right.
      * intros n' Hne. by rewrite lookup_insert_ne.
      * by rewrite lookup_insert_eq, Hp0.
    + rewrite IH2, orb_true_iff. assert (wants zkey reset incr ap0 ↔ d = true) as ->; [|tauto].
      unfold wants. rewrite Hz. split; [by intros (? & [= <-] & H)|]. intros Hd. by exists met.
  - destruct (IH m b Hnd' Hps') as [IH1 IH2]; [intros n Hin; apply Hm; by right|]. split.
    + intros n. rewrite IH1. apply Hcase; [intros n' Hin; apply Hm; by right|done|].
      rewrite Hm by (by left). rewrite Hp0. simpl. unfold track. by rewrite Hz.
    + rewrite IH2. assert (¬ wants zkey reset incr ap0); [|tauto]. intros (met & Hmet & _). congruence.
Qed.

(** *** Everything about one zone of an app *)

(** Of each policy its client and interval counts, and the tracker of the zone. *)
Abbreviation trackers := (gmap string (Z * Z * option Z)).
Definition tracker_view (z : ZoneKey) (ap : apPolicyTracker) : Z * Z * option Z :=
  (deployClientCount ap, deployIntervalCount ap, zoneTrackers ap !! z).
Record slot := mkSlot { sl_stats : option apCloudletStats; sl_trackers : trackers }.
Definition slot_of (z : ZoneKey) (st : apAppStats) : slot :=
  mkSlot (zones st !! z) (tracker_view z <$> policies st).
Definition slot_at (s : AutoProvAggr) (a : AppKey) (z : ZoneKey) : option slot :=
  slot_of z <$> allStats s !! a.

Definition next_met (reset : bool) (incr clients met : Z) : Z :=
  if decide (incr >= clients) then wrap_u 32 ((if reset then 0 else met) + 1) else 0.
Definition view_track (reset : bool) (incr : Z) (t : Z * Z * option Z) : Z * Z * option Z :=
  let '(clients, intervals, met) := t in (clients, intervals, next_met reset incr clients <$> met).
Definition view_wants (reset : bool) (incr : Z) (_ : string) (t : Z * Z * option Z) : Prop :=
  let '(clients, intervals, met) := t in
  match met with Some m => next_met reset incr clients m >= intervals | None => False end.
#[global] Instance view_wants_dec reset incr n t : Decision (view_wants reset incr n t).
Proof. destruct t as [[? ?] [|]]; apply _. Defined.
(** An interval in which the zone's count is [c]. *)
Definition slot_step (interval c : Z) (sl : slot) : slot * bool :=
  let cs := default (mkStats 0 0 (wrap_u 64 (interval - 1))) (sl_stats sl) in
  let reset := negb (bool_decide (wrap_u 64 (interval - 1) = stats_intervalNum cs)) in
  let incr := wrap_u 64 (c - count cs) in
  (mkSlot (Some (mkStats c (count cs) interval)) (view_track reset incr <$> sl_trackers sl),
   bool_decide (map_Exists (view_wants reset incr) (sl_trackers sl))).

Lemma check_tracker_eq reset incr ap met :
  check_tracker reset incr ap met =
  (next_met reset incr (deployClientCount ap) met,
   bool_decide (next_met reset incr (deployClientCount ap) met >= deployIntervalCount ap)).
Proof. done. Qed.
Lemma tracker_view_track z reset incr ap :
  tracker_view z (track z reset incr ap) = view_track reset incr (tracker_view z ap).
Proof.
  unfold track, tracker_view. destruct (zoneTrackers ap !! z) as [met|] eqn:Hz; simpl; [|by rewrite Hz].
  by rewrite lookup_insert_eq.
Qed.
Lemma tracker_view_other z z' reset incr ap :
  z' ≠ z → tracker_view z (track z' reset incr ap) = tracker_view z ap.
Proof.
  intros Hz. unfold track, tracker_view. destruct (zoneTrackers ap !! z') as [met|]; simpl; [|done].
  by rewrite lookup_insert_ne.
Qed.
Lemma wants_view z reset incr (ps : gmap string apPolicyTracker) :
  (∃ n ap, ps !! n = Some ap ∧ wants z reset incr ap) ↔
  map_Exists (view_wants reset incr) (tracker_view z <$> ps).
Proof.
  unfold map_Exists, wants. split.
  - intros (n & ap & Hn & met & Hm & Hc). exists n, (tracker_view z ap).
    rewrite lookup_fmap, Hn. split; [done|]. unfold tracker_view, view_wants. rewrite Hm.
    rewrite check_tracker_eq in Hc. by apply bool_decide_eq_true in Hc.
  - intros (n & t & Ht & Hw). rewrite lookup_fmap in Ht. destruct (ps !! n) as [ap|] eqn:Hn; [|done].
    injection Ht as <-. exists n, ap. split; [done|]. unfold tracker_view, view_wants in Hw.
    destruct (zoneTrackers ap !! z) as [met|] eqn:Hz; [|done]. exists met. split; [done|].
    rewrite check_tracker_eq. by apply bool_decide_eq_true.
Qed.

(** The effect of a zone's count on the app. *)
Lemma iter_zone_eq interval s ds z c :
  ∃ ps, iter_zone false interval (s, ds) (z, c) =
    (let cs := default (mkStats 0 0 (wrap_u 64 (interval - 1))) (zones s !! z) in
     mkAppStats ps (<[z := mkStats c (count cs) interval]> (zones s)),
     if (slot_step interval c (slot_of z s)).2 then ds ++ [z] else ds) ∧
    let cs := default (mkStats 0 0 (wrap_u 64 (interval - 1))) (zones s !! z) in
    let reset := negb (bool_decide (wrap_u 64 (interval - 1) = stats_intervalNum cs)) in
    ps = track z reset (wrap_u 64 (c - count cs)) <$> policies s.
Proof.
  unfold iter_zone. set (cs := default _ (zones s !! z)). set (reset := negb _).
  set (incr := wrap_u 64 (c - count cs)).
  destruct (check_policies_fold z reset incr (go_range (policies s)) (policies s) (policies s) false)
    as [H1 H2]; [apply NoDup_go_range|by intros n ap Hin%elem_of_go_range|done|].
  destruct (fold_left _ _ _) as [ps d] eqn:Hf. simpl in H1, H2. exists ps. split.
  - cbv zeta. f_equal. unfold slot_step, slot_of. cbn [sl_stats sl_trackers snd]. fold cs reset incr.
    assert (d = bool_decide (map_Exists (view_wants reset incr) (tracker_view z <$> policies s))) as ->;
      [|done].
    apply eq_true_iff_eq. rewrite bool_decide_eq_true, <- wants_view, H2. split.
    + intros [?|(n & ap & Hin%elem_of_go_range & Hw)]; [done|by exists n, ap].
    + intros (n & ap & Hn & Hw). right. exists n, ap. by rewrite elem_of_go_range.
  - cbv zeta. apply map_eq. intros n. rewrite H1, lookup_fmap. case_decide as Hn; [done|].
    destruct (policies s !! n) as [ap|] eqn:Hp; [|done]. destruct Hn.
    apply list_elem_of_fmap. exists (n, ap). by rewrite elem_of_go_range.
Qed.
Lemma iter_zone_own interval s ds z c :
  let r := iter_zone false interval (s, ds) (z, c) in
  (slot_of z r.1, bool_decide (z ∈ r.2)) =
  ((slot_step interval c (slot_of z s)).1,
   bool_decide (z ∈ ds) || (slot_step interval c (slot_of z s)).2).
Proof.
  cbv zeta. destruct (iter_zone_eq interval s ds z c) as (ps & -> & Hps). cbv zeta in Hps.
  cbn [fst snd]. f_equal.
  - unfold slot_of, slot_step at 1. cbn [zones policies sl_stats sl_trackers fst].
    rewrite lookup_insert_eq. f_equal. rewrite Hps, <- !map_fmap_compose.
    apply map_fmap_ext. intros n ap _. apply tracker_view_track.
  - destruct (slot_step _ _ _).2; [rewrite orb_true_r|by rewrite orb_false_r].
    apply bool_decide_true, elem_of_app. right. by left.
Qed.
Lemma iter_zone_other interval s ds z z' c :
  z' ≠ z →
  let r := iter_zone false interval (s, ds) (z', c) in
  (slot_of z r.1, bool_decide (z ∈ r.2)) = (slot_of z s, bool_decide (z ∈ ds)).
Proof.
  intros Hz. cbv zeta. destruct (iter_zone_eq interval s ds z' c) as (ps & -> & Hps). cbv zeta in Hps.
  cbn [fst snd]. f_equal.
  - unfold slot_of. cbn [zones policies]. rewrite lookup_insert_ne by done. f_equal.
    rewrite Hps, <- map_fmap_compose. apply map_fmap_ext. intros n ap _. by apply tracker_view_other.
  - destruct (slot_step _ _ _).2; [|done]. apply bool_decide_ext. rewrite elem_of_app. set_solver.
Qed.
(** One iteration, for an app that the caches have. *)
Lemma runIter_slot rows appCache s a z sl :
  is_Some (appCache !! a) → slot_at s a z = Some sl →
  let r := runIter false rows appCache s in
  intervalNum r.1 = wrap_u 64 (intervalNum s + 1) ∧
  match aggregate rows !! a ≫= (.!! z) with
  | None => slot_at r.1 a z = Some sl ∧ (a, z) ∉ r.2
  | Some c => slot_at r.1 a z = Some (slot_step (wrap_u 64 (intervalNum s + 1)) c sl).1 ∧
      ((a, z) ∈ r.2 ↔ (slot_step (wrap_u 64 (intervalNum s + 1)) c sl).2 = true)
  end.
Proof.
  intros [app Happ] Hsl. cbv zeta. unfold runIter. set (I := wrap_u 64 (intervalNum s + 1)).
  set (appslot := λ st : gmap AppKey apAppStats * list (AppKey * ZoneKey),
    (slot_of z <$> st.1 !! a, bool_decide ((a, z) ∈ st.2))).
  set (g := λ (t : option slot * bool) (zs : gmap ZoneKey Z),
    match t.1, zs !! z with
    | Some sl, Some c => (Some (slot_step I c sl).1, t.2 || (slot_step I c sl).2)
    | _, _ => t
    end).
  pose proof (fold_slot (iter_app false I appCache) appslot g a (aggregate rows) (allStats s, [])) as Hfold.
  destruct (fold_left _ _ _) as [all ds] eqn:Hf. cbn [fst snd intervalNum].
  split; [done|]. unfold slot_at at 1 2. cbn [allStats].
  assert (appslot (all, ds) = match aggregate rows !! a with
    | Some v => g (appslot (allStats s, [])) v | None => appslot (allStats s, []) end) as Heq.
  { apply Hfold; clear Hfold Hf.
    - intros [all' ds'] k v Hk. unfold iter_app. destruct (all' !! k), (appCache !! k); try done.
      destruct (fold_left _ _ _) as [st' zs']. unfold appslot. cbn [fst snd].
      rewrite lookup_insert_ne by done. f_equal. apply bool_decide_ext. rewrite elem_of_app.
      split; [|by left]. intros [?|Hin]; [done|]. apply list_elem_of_fmap in Hin as (z' & [= ? ?] & _).
      by subst.
    - intros [all' ds'] v. unfold iter_app, appslot, g. rewrite Happ. cbn [fst snd].
      destruct (all' !! a) as [st|] eqn:Hst; [|cbn; by rewrite Hst]. cbn [fmap option_fmap option_map].
      pose proof (fold_slot (iter_zone false I)
        (λ st, (slot_of z st.1, bool_decide (z ∈ st.2)))
        (λ t c, ((slot_step I c t.1).1, t.2 || (slot_step I c t.1).2)) z v (st, [])) as Hzone.
      destruct (fold_left _ _ _) as [st' zs']. cbn [fst snd] in *.
      assert (bool_decide ((a, z) ∈ ds' ++ ((λ z0, (a, z0)) <$> zs')) =
        bool_decide ((a, z) ∈ ds') || bool_decide (z ∈ zs')) as ->.
      { rewrite <- bool_decide_or. apply bool_decide_ext. rewrite elem_of_app, list_elem_of_fmap.
        naive_solver. }
      rewrite lookup_insert_eq. cbn [fmap option_fmap option_map].
      specialize (Hzone ltac:(intros [s1 d1] k c Hk; exact (iter_zone_other I s1 d1 z k c Hk))
        ltac:(intros [s1 d1] c; exact (iter_zone_own I s1 d1 z c))).
      destruct (v !! z); apply pair_equal_spec in Hzone as [-> ->]; [done|]. by rewrite orb_false_r. }
  unfold appslot, g, slot_at in *. cbn [fst snd] in Heq. rewrite Hsl in Heq.
  destruct (aggregate rows !! a) as [v|]; cbn [mbind option_bind].
  2: { apply pair_equal_spec in Heq as [-> Hd]. split; [done|]. by apply bool_decide_eq_false in Hd. }
  destruct (v !! z) as [c|]; apply pair_equal_spec in Heq as [-> Hd].
  - split; [done|]. rewrite <- (bool_decide_eq_true ((a, z) ∈ ds)), Hd. done.
  - split; [done|]. by apply bool_decide_eq_false in Hd.
Qed.

(** ** Consecutive intervals *)

(** The history of a zone, the last interval first: its count, if it had one. *)
Definition history := list (option Z).
Fixpoint last_count (h : history) : Z :=
  match h with [] => 0 | Some c :: _ => c | None :: h' => last_count h' end.
(** The number of intervals up to now in each of which the demand was met. *)
Fixpoint streak (clients : Z) (h : history) : Z :=
  match h with
  | Some c :: h' => if decide (wrap_u 64 (c - last_count h') >= clients) then 1 + streak clients h' else 0
  | _ => 0
  end.

(** The iterations of the service, the last first: their rows, and the apps
    that the cache had. *)
Abbreviation iteration := (list AutoProvCount * gmap AppKey App)%type.
Fixpoint run_iters (l : list iteration) (s : AutoProvAggr) : AutoProvAggr * list (AppKey * ZoneKey) :=
  match l with
  | [] => (s, [])
  | (rows, cache) :: l' => runIter false rows cache (run_iters l' s).1
  end.
Definition hist (a : AppKey) (z : ZoneKey) (l : list iteration) : history :=
  (λ it, aggregate it.1 !! a ≫= (.!! z)) <$> l.

Definition present (h : history) : Prop := ∃ c h', h = Some c :: h'.
Definition fresh (h : history) : Prop := Forall (λ c, c = None) h.
#[global] Instance present_dec h : Decision (present h).
Proof. destruct h as [|[c|] h]; [right|left|right]; [| by eexists _, _|]; by intros (? & ? & ?). Defined.
(** The slot of a zone after its history. *)
Record slot_inv (interval : Z) (h : history) (sl0 sl : slot) : Prop := {
  si_stats : match sl_stats sl with
    | None => fresh h
    | Some cs => count cs = last_count h ∧ ¬ fresh h ∧
        (present h → stats_intervalNum cs = interval) ∧
        (¬ present h → 0 <= stats_intervalNum cs < interval)
    end;
  si_trackers n : match sl_trackers sl0 !! n with
    | Some (c, i, Some _) => ∃ m, sl_trackers sl !! n = Some (c, i, Some m) ∧
        (present h ∨ fresh h → m = streak c h)
    | t => sl_trackers sl !! n = t
    end;
}.
Lemma fresh_streak c h : fresh h → streak c h = 0.
Proof. destruct 1; [done|]. by subst. Qed.
Lemma fresh_last h : fresh h → last_count h = 0.
Proof. induction 1; [done|]. by subst. Qed.
Lemma absent_streak c h : ¬ present h → streak c h = 0.
Proof. destruct h as [|[c'|] h]; try done. intros Hn. destruct Hn. by exists c', h. Qed.
Lemma streak_length c h : 0 <= streak c h <= Z.of_nat (length h).
Proof. induction h as [|[c'|] h IH]; simpl; [lia| |lia]. case_decide; lia. Qed.

(** No count: nothing changes. *)
Lemma slot_inv_none interval h sl0 sl :
  0 <= interval → slot_inv interval h sl0 sl → slot_inv (interval + 1) (None :: h) sl0 sl.
Proof.
  intros Hint [Hs Ht]. assert (¬ present (None :: h)) as Hnp by (by intros (? & ? & ?)).
  split.
  - destruct (sl_stats sl) as [cs|]; [|by constructor]. destruct Hs as (Hc & Hf & Hp & Hn).
    split_and!; [done|by intros [_ ?]%Forall_cons|done|]. intros _.
    destruct h as [|[c|] h]; [by destruct Hf; constructor| |].
    + rewrite Hp by (by eexists _, _). lia.
    + assert (¬ present (None :: h)) as Hn' by (by intros (? & ? & ?)). specialize (Hn Hn'). lia.
  - intros n. specialize (Ht n). destruct (sl_trackers sl0 !! n) as [[[c i] [m0|]]|]; try done.
    destruct Ht as (m & Hm & Hst). exists m. split; [done|].
    intros [?|[_ Hf]%Forall_cons]; [done|]. rewrite Hst by (by right). by rewrite fresh_streak.
Qed.
(** A count: the streaks go on or end. *)
Lemma slot_inv_some interval h sl0 sl c :
  0 <= interval → interval + 1 < 2 ^ 64 → Z.of_nat (length h) + 1 < 2 ^ 32 →
  slot_inv interval h sl0 sl →
  let reset := negb (bool_decide (interval =
    stats_intervalNum (default (mkStats 0 0 interval) (sl_stats sl)))) in
  (∀ n cl i m0 m, sl_trackers sl0 !! n = Some (cl, i, Some m0) → sl_trackers sl !! n = Some (cl, i, Some m) →
    next_met reset (wrap_u 64 (c - last_count h)) cl m = streak cl (Some c :: h)) ∧
  count (default (mkStats 0 0 interval) (sl_stats sl)) = last_count h.
Proof.
  intros Hi0 Hi Hlen [Hs Ht] reset.
  assert (reset = false → present h ∨ fresh h) as Hpf.
  { unfold reset. intros Hr%negb_false_iff%bool_decide_eq_true.
    destruct (sl_stats sl) as [cs|]; [|by right]. destruct Hs as (_ & _ & Hp & Hn). left.
    destruct (decide (present h)) as [?|Hnp]; [done|]. specialize (Hn Hnp). simpl in Hr. lia. }
  assert (reset = true → ¬ present h) as Hnp.
  { unfold reset. intros Hr%negb_true_iff%bool_decide_eq_false Hp.
    destruct (sl_stats sl) as [cs|]; [|done]. destruct Hs as (_ & _ & Hp' & _).
    apply Hr. simpl. by rewrite Hp'. }
  split.
  - intros n cl i m0 m H0 Hm. specialize (Ht n). rewrite H0, Hm in Ht.
    destruct Ht as (m' & [= <-] & Hst). unfold next_met. simpl. case_decide; [|done].
    pose proof (streak_length cl h). destruct reset.
    + rewrite absent_streak by auto. done.
    + rewrite Hst by auto. unfold wrap_u. rewrite Z.mod_small; lia.
  - destruct (sl_stats sl) as [cs|]; simpl; [by destruct Hs|]. by rewrite fresh_last.
Qed.
Lemma slot_inv_step interval h sl0 sl c :
  0 <= interval → interval + 1 < 2 ^ 64 → Z.of_nat (length h) + 1 < 2 ^ 32 →
  slot_inv interval h sl0 sl →
  let r := slot_step (interval + 1) c sl in
  slot_inv (interval + 1) (Some c :: h) sl0 r.1 ∧
  (r.2 = true ↔ ∃ n cl i m, sl_trackers sl0 !! n = Some (cl, i, Some m) ∧ streak cl (Some c :: h) >= i).
Proof.
  intros Hi0 Hi Hlen Hinv. pose proof (slot_inv_some interval h sl0 sl c Hi0 Hi Hlen Hinv) as [Hmet Hcount].
  destruct Hinv as [_ Ht]. cbv zeta. unfold slot_step.
  replace (wrap_u 64 (interval + 1 - 1)) with interval
    by (unfold wrap_u; rewrite Z.mod_small; lia).
  cbv zeta in Hmet. set (cs := default _ (sl_stats sl)) in *. rewrite Hcount.
  set (reset := negb _) in *. cbn [fst snd]. split.
  - split; cbn [sl_stats sl_trackers].
    + split_and!; [done|by intros [? _]%Forall_cons|done|]. intros Hn. destruct Hn. by eexists _, _.
    + intros n. specialize (Ht n). rewrite lookup_fmap.
      destruct (sl_trackers sl0 !! n) as [[[cl i] [m0|]]|] eqn:H0.
      * destruct Ht as (m & Hm & _). rewrite Hm. cbn.
        eexists. split; [done|]. intros _. by eapply Hmet.
      * by rewrite Ht.
      * by rewrite Ht.
  - rewrite bool_decide_eq_true. unfold map_Exists. split.
    + intros (n & [[cl i] [m|]] & Hn & Hw); [|done]. specialize (Ht n).
      destruct (sl_trackers sl0 !! n) as [[[cl' i'] [m0|]]|] eqn:H0.
      * destruct Ht as (m' & Hm & _). rewrite Hn in Hm. injection Hm as -> -> ->.
        exists n, cl', i', m0. split; [done|]. simpl in Hw. by erewrite Hmet in Hw.
      * rewrite Hn in Ht. discriminate.
      * rewrite Hn in Ht. discriminate.
    + intros (n & cl & i & m0 & H0 & Hge). specialize (Ht n). rewrite H0 in Ht.
      destruct Ht as (m & Hm & _). exists n, (cl, i, Some m). split; [done|]. simpl.
      by erewrite Hmet.
Qed.

(** Trackers that have counted nothing. *)
Definition started (sl : slot) : Prop :=
  sl_stats sl = None ∧ map_Forall (λ _ t, t.2 = None ∨ t.2 = Some 0) (sl_trackers sl).
Definition app_there (a : AppKey) (l : list iteration) : Prop := Forall (λ it, is_Some (it.2 !! a)) l.
Lemma slot_inv_start interval sl : started sl → slot_inv interval [] sl sl.
Proof.
  intros [Hs Ht]. split; [rewrite Hs; constructor|]. intros n.
  destruct (sl_trackers sl !! n) as [[[c i] [m|]]|] eqn:Hn; [|done|done].
  exists m. split; [done|]. intros _. by destruct (Ht _ _ Hn) as [?|[= ->]].
Qed.
Lemma run_iters_inv s0 a z sl0 l :
  slot_at s0 a z = Some sl0 → started sl0 → app_there a l →
  0 <= intervalNum s0 → intervalNum s0 + Z.of_nat (length l) < 2 ^ 64 → Z.of_nat (length l) < 2 ^ 32 →
  intervalNum (run_iters l s0).1 = intervalNum s0 + Z.of_nat (length l) ∧
  ∃ sl, slot_at (run_iters l s0).1 a z = Some sl ∧
    slot_inv (intervalNum s0 + Z.of_nat (length l)) (hist a z l) sl0 sl.
Proof.
  intros Hsl Hst Hl H0 Hb Hb'. induction l as [|[rows cache] l IH].
  { simpl. rewrite Z.add_0_r. split; [done|]. exists sl0. split; [done|]. by apply slot_inv_start. }
  apply Forall_cons in Hl as [Hc Hl]. cbn [length] in Hb, Hb'.
  destruct (IH Hl) as (Hint & sl & Hsl' & Hinv); [lia|lia|].
  cbn [run_iters]. destruct (runIter_slot rows cache (run_iters l s0).1 a z sl Hc Hsl') as [Hint' Hslot].
  rewrite Hint in Hint', Hslot. unfold wrap_u in Hint', Hslot. rewrite Z.mod_small in Hint' by lia.
  rewrite !(Z.mod_small (_ + 1)) in Hslot by lia.
  replace (intervalNum s0 + Z.of_nat (length ((rows, cache) :: l)))
    with (intervalNum s0 + Z.of_nat (length l) + 1) by (cbn [length]; lia).
  split; [done|]. cbn [hist fmap list_fmap fst].
  destruct (aggregate rows !! a ≫= (.!! z)) as [c|].
  - destruct Hslot as [Hsl'' _]. eexists. split; [exact Hsl''|].
    apply slot_inv_step; [lia..| |done]. rewrite length_fmap. lia.
  - destruct Hslot as [Hsl'' _]. exists sl. split; [done|]. apply slot_inv_none; [lia|done].
Qed.

(** C27: an app is deployed to a zone exactly when, for one of its policies that
    has the zone, the demand met the policy's client count in each of the last
    intervals, as many as the policy asks for and none without a row. *)
Theorem deploys_after_streak s0 a z sl0 rows cache l :
  slot_at s0 a z = Some sl0 → started sl0 → app_there a ((rows, cache) :: l) →
  0 <= intervalNum s0 → intervalNum s0 + Z.of_nat (length l) + 1 < 2 ^ 64 →
  Z.of_nat (length l) + 1 < 2 ^ 32 →
  (a, z) ∈ (run_iters ((rows, cache) :: l) s0).2 ↔
  present (hist a z ((rows, cache) :: l)) ∧
  ∃ name clients intervals m, sl_trackers sl0 !! name = Some (clients, intervals, Some m) ∧
    streak clients (hist a z ((rows, cache) :: l)) >= intervals.
Proof.
  intros Hsl Hst Hl H0 Hb Hb'. apply Forall_cons in Hl as [Hc Hl].
  destruct (run_iters_inv s0 a z sl0 l Hsl Hst Hl H0) as (Hint & sl & Hsl' & Hinv); [lia|lia|].
  cbn [run_iters]. destruct (runIter_slot rows cache (run_iters l s0).1 a z sl Hc Hsl') as [_ Hslot].
  rewrite Hint in Hslot. unfold wrap_u in Hslot. rewrite !(Z.mod_small (_ + 1)) in Hslot by lia.
  cbn [hist fmap list_fmap fst]. fold (hist a z l).
  destruct (aggregate rows !! a ≫= (.!! z)) as [c|].
  - destruct Hslot as [_ ->].
    assert (Z.of_nat (length (hist a z l)) + 1 < 2 ^ 32) as Hlen
      by (unfold hist; rewrite length_fmap; lia).
    assert (0 <= intervalNum s0 + Z.of_nat (length l)) as Hge by lia.
    destruct (slot_inv_step _ (hist a z l) sl0 sl c Hge Hb Hlen Hinv) as [_ ->].
    + split; [|by intros [_ ?]]. intros Hex. split; [by eexists _, _|done].
  - destruct Hslot as [_ Hn]. split; [done|]. by intros [(? & ? & ?) _].
Qed.
End Aggr.

(** ** A run: two intervals with demand deploy, a gap starts again. *)
Module ProvAggrWitness.
#[local] Existing Instance canonical_range.
Definition ak : AppKey := mkAppKey "dev" "game" "1.0".
Definition zk : ZoneKey := mkZoneKey "op" "munich" "".
Definition app : App := mkApp ak false false ["p"] "" "docker".
Definition policy : AutoProvPolicy := mkAutoProvPolicy [] (mkPolicyKey "dev" "p") 10 2 [zk] 0 0 0 0 false.
Definition s0 : AutoProvAggr :=
  UpdateApp ak {[ak := app]} {[mkPolicyKey "dev" "p" := policy]} NewAutoProvAggr.
Definition it (c : option Z) : list AutoProvCount * gmap AppKey App :=
  (match c with Some n => [mkCount ak zk n] | None => [] end, {[ak := app]}).
Definition sl0 : slot := mkSlot None {["p" := (10, 2, Some 0)]}.
Lemma deploys_after_streak_witness :
  (ak, zk) ∈ (run_iters [it (Some 25); it (Some 10)] s0).2 ∧
  (ak, zk) ∉ (run_iters [it (Some 45); it None; it (Some 25)] s0).2.
Proof.
  assert (slot_at s0 ak zk = Some sl0) as Hs by (vm_compute; reflexivity).
  assert (started sl0) as Hst.
  { split; [reflexivity|]. apply (bool_decide_unpack _). vm_compute. exact I. }
  split.
  - apply (deploys_after_streak s0 ak zk sl0 _ _ [it (Some 10)] Hs Hst).
    + apply (bool_decide_unpack _). vm_compute. exact I.
    + apply (bool_decide_unpack _). vm_compute. exact I.
    + vm_compute. reflexivity.
    + vm_compute. reflexivity.
    + split; [by eexists _, _|]. exists "p", 10, 2, 0. split; [reflexivity|].
      apply (bool_decide_unpack _). vm_compute. exact I.
  - apply (bool_decide_unpack _). vm_compute. exact I.
Defined.
End ProvAggrWitness.
