(* ===== verification/AutoProv.v ===== *)
(** * The minimum and the maximum of instances (pkg/autoprov/autoprov_minmax.go,
    autoprov_retry.go)

    [Check] looks at the instances of an app and makes, for each policy, a plan:
    instances to delete, and workers that create instances on a list of zones.
    The service reads its caches one object at a time; a check is modelled for
    caches that do not change while it runs ([CacheData]).  The module [Sites]
    has the workers, which share the list of zones, as a step relation over
    their memory accesses.  [Failover] has the requests to move the apps of a
    cloudlet. *)

From S2P Require Export ProvObjs ProvAggr FreeClust.
From S2P Require Import ZoneApi.
#[local] Open Scope Z_scope.

(** ** State *)

Record CacheData := mkCaches {
  appCache : gmap AppKey App;
  appInstCache : gmap AppInstKey AppInst;
  appInstRefsCache : gmap AppKey AppInstRefs;
  autoProvPolicyCache : gmap PolicyKey AutoProvPolicy;
  cloudletCache : gmap CloudletKey Cloudlet;
  cloudletInfoCache : gmap CloudletKey CloudletInfo;
  frClusterInsts : FreeClusters;
}.

(** *** The tracker of failures *)
Abbreviation RetryTracker := (gset (AppKey * ZoneKey)).

Section AutoProv.
Context {GR : GoRange} {GS : GoSort} `{JIK : !Json AppInstKey, JI : !Json AppInst}.

Definition AlreadyUnderDeletionMsg : string := "busy, already under deletion".
Definition StreamActionAlreadyInProgressMsg : string := "An action is already in progress for the object".
Definition IsAppInstBeingCreatedError (err : error) : bool :=
  if contains err "AppInst key" && contains err "already exists" then true
  else contains err StreamActionAlreadyInProgressMsg.
Definition IsAppInstBeingDeletedError (err : error) : bool :=
  if contains err AlreadyUnderDeletionMsg then true else contains err StreamActionAlreadyInProgressMsg.
Definition ignoreDeployError (inst : AppInst) (err : option error) : bool :=
  match err with
  | None => true
  | Some e =>
      if IsAppInstBeingCreatedError e || IsAppInstBeingDeletedError e then true
      else contains e (ExistsError "AppInst" (ai_Key inst)) || contains e AutoProvMinAlreadyMetError ||
           contains e "AppInst against App which is being deleted"
  end.
Definition registerDeployResult (inst : AppInst) (err : option error) (s : RetryTracker) : RetryTracker :=
  let lookup := (ai_AppKey inst, ai_ZoneKey inst) in
  if ignoreDeployError inst err then s ∖ {[lookup]} else {[lookup]} ∪ s.
(** The failures are forgotten; their apps are checked again. *)
Definition doRetry (s : RetryTracker) : RetryTracker * list AppKey :=
  (∅, (go_range (gset_to_gmap () s)).*1.*1).
Definition hasFailure (appKey : AppKey) (zoneKey : ZoneKey) (s : RetryTracker) : bool :=
  bool_decide ((appKey, zoneKey) ∈ s).

(** ** Looking at the caches *)

Definition appInstOnlineOrGoingOnline (c : CacheData) (key : AppInstKey) : bool :=
  match appInstCache c !! key with
  | None => false
  | Some i =>
      match cloudletInfoCache c !! ai_CloudletKey i, cloudletCache c !! ai_CloudletKey i with
      | Some ci, Some cl => AutoProvAppInstOnline i ci cl || AutoProvAppInstGoingOnline i ci cl
      | _, _ => false
      end
  end.
Definition cloudletOnline (c : CacheData) (key : CloudletKey) : bool :=
  match cloudletInfoCache c !! key, cloudletCache c !! key with
  | Some ci, Some cl => AutoProvCloudletOnline cl && AutoProvCloudletInfoOnline ci
  | _, _ => false
  end.
(** [Show] with the organization and the zone: an empty field of the filter
    matches everything. *)
Definition zone_shows (key : ZoneKey) (cl : Cloudlet) : bool :=
  (bool_decide (zk_Organization key = "") ||
   bool_decide (zk_Organization key = ck_Organization (cl_Key cl))) &&
  (bool_decide (zk_Name key = "") || bool_decide (zk_Name key = cl_Zone cl)).
Definition zoneOnline (c : CacheData) (key : ZoneKey) : bool :=
  existsb (λ e, zone_shows key e.2 && cloudletOnline c (cl_Key e.2)) (go_range (cloudletCache c)).
Definition CloudletsForZone (c : CacheData) (zkey : ZoneKey) : list CloudletKey :=
  (λ e, cl_Key e.2) <$> filter (λ e, Cloudlet_GetZone e.2 = zkey) (go_range (cloudletCache c)).
Definition isAutoProvInst (c : CacheData) (key : AppInstKey) : bool :=
  match appInstCache c !! key with
  | Some i => bool_decide (ai_Liveness i = LIVENESS_AUTOPROV)
  | None => false
  end.

(** ** A policy *)

Record potentialCreateSite := mkSite { site_zoneKey : ZoneKey; hasFree : bool }.
Abbreviation zone_insts := (gmap ZoneKey (gmap AppInstKey CloudletKey)).
Record policy_counts := mkCounts {
  onlineCount : Z;
  totalCount : Z;
  potentialCreate : list potentialCreateSite;
  potentialDelete : list AppInstKey;
}.
Definition count_inst (c : CacheData) (n : policy_counts) (key : AppInstKey) : policy_counts :=
  mkCounts (if appInstOnlineOrGoingOnline c key then onlineCount n + 1 else onlineCount n)
    (totalCount n + 1) (potentialCreate n)
    (if isAutoProvInst c key then potentialDelete n ++ [key] else potentialDelete n).
Definition count_zone (c : CacheData) (failures : RetryTracker) (app : App) (insts : zone_insts)
    (n : policy_counts) (zkey : ZoneKey) : policy_counts :=
  match insts !! zkey with
  | None =>
      if negb (zoneOnline c zkey) then n
      else if hasFailure (app_Key app) zkey failures then n
      else
        let free := existsb (λ ckey, bool_decide (GetForCloudlet ckey (app_Deployment app)
                      AppInstToClusterDeployment (frClusterInsts c) ≠ [])) (CloudletsForZone c zkey) in
        mkCounts (onlineCount n) (totalCount n) (potentialCreate n ++ [mkSite zkey free])
          (potentialDelete n)
  | Some m => fold_left (count_inst c) (go_range m).*1 n
  end.

(** For now the instances at the end of the policy's zones are deleted. *)
Definition chooseDelete (potential : list AppInstKey) (count : Z) : list AppInstKey :=
  if decide (count <= 0) then []
  else
    let n := if decide (count >= Z.of_nat (length potential)) then length potential else Z.to_nat count in
    drop (length potential - n) potential.

(** Prefers zones with a free cluster, then those with the highest demand in
    the last interval. *)
Definition site_incr (aggr : AutoProvAggr) (stats : apAppStats) (zkey : ZoneKey) : Z :=
  match zones stats !! zkey with
  | Some cs => if decide (stats_intervalNum cs = intervalNum aggr)
               then wrap_u 64 (count cs - lastCount cs) else 0
  | None => 0
  end.
Definition site_less (aggr : AutoProvAggr) (appKey : AppKey) (p1 p2 : potentialCreateSite) : bool :=
  if negb (Bool.eqb (hasFree p1) (hasFree p2)) then hasFree p1 && negb (hasFree p2)
  else
    match allStats aggr !! appKey with
    | None => false
    | Some stats =>
        bool_decide (site_incr aggr stats (site_zoneKey p1) > site_incr aggr stats (site_zoneKey p2))
    end.
Definition sortPotentialCreate (aggr : AutoProvAggr) (appKey : AppKey) (potential : list potentialCreateSite)
    : list potentialCreateSite :=
  if decide (length potential <= 1)%nat then potential else go_sort (site_less aggr appKey) potential.

(** The calls that a check of a policy starts: deletes, [workers] goroutines
    over [sites]; and the error that failover requests get. *)
Record plan := mkPlan {
  deletes : list AppInstKey;
  sites : list potentialCreateSite;
  workers : nat;
  not_enough : bool;
}.
Definition policy_of (c : CacheData) (app : App) (pname : string) : option AutoProvPolicy :=
  autoProvPolicyCache c !! mkPolicyKey (ak_Organization (app_Key app)) pname.
Definition make_plan (aggr : AutoProvAggr) (app : App) (p : AutoProvPolicy) (n : policy_counts) : plan :=
  let dels := if decide (MaxInstances p > 0) then
                chooseDelete (potentialDelete n) (totalCount n - MaxInstances p) else [] in
  if decide (MaxInstances p > 0 ∧ totalCount n >= MaxInstances p) then mkPlan dels [] 0 false
  else
    let need := MinActiveInstances p - onlineCount n in
    let sorted := sortPotentialCreate aggr (app_Key app) (potentialCreate n) in
    mkPlan dels sorted (Nat.min (Z.to_nat need) (length sorted))
      (bool_decide (Z.of_nat (length sorted) < need)).
(** [None] when the cache does not have the policy. *)
Definition checkPolicy (c : CacheData) (failures : RetryTracker) (aggr : AutoProvAggr) (app : App)
    (insts : zone_insts) (pname : string) : option plan :=
  p ← policy_of c app pname;
  Some (make_plan aggr app p
    (fold_left (count_zone c failures app insts) (ap_Zones p) (mkCounts 0 0 [] []))).

(** ** An app *)

Definition add_zone_inst (c : CacheData) (m : zone_insts) (keyStr : string) : zone_insts :=
  let key := KeyStringParse (O := AppInst) keyStr in
  match appInstCache c !! key with
  | None => m
  | Some i => <[ai_ZoneKey i := <[key := ai_CloudletKey i]> (default ∅ (m !! ai_ZoneKey i))]> m
  end.
Definition zoneInsts (c : CacheData) (refs : AppInstRefs) : zone_insts :=
  fold_left (add_zone_inst c) (go_range (Insts refs)).*1 ∅.
Definition policyZones (c : CacheData) (app : App) (names : list string) : gset ZoneKey :=
  ⋃ ((λ n, match policy_of c app n with Some p => GetZoneKeys p | None => ∅ end) <$> names).
(** The instances on zones of no policy that the service made. *)
Definition orphans (c : CacheData) (insts : zone_insts) (pz : gset ZoneKey) : list (AppInstKey * ZoneKey) :=
  flat_map (λ e, if decide (e.1 ∈ pz) then []
                 else (λ k, (k, e.1)) <$> filter (λ k, isAutoProvInst c k) (go_range e.2).*1)
    (go_range insts).
(** The plans of the policies, by name, and the orphans to delete; [None] when
    there is nothing to check yet. *)
Definition Check (c : CacheData) (failures : RetryTracker) (aggr : AutoProvAggr) (appKey : AppKey)
    : option (list (string * plan) * list (AppInstKey * ZoneKey)) :=
  match appCache c !! appKey, appInstRefsCache c !! appKey with
  | Some app, Some refs =>
      let insts := zoneInsts c refs in
      let names := (go_range (gset_to_gmap () (GetAutoProvPolicies app))).*1 in
      let plans := omap (λ n, pl ← checkPolicy c failures aggr app insts n; Some (n, pl)) names in
      Some (plans, orphans c insts (policyZones c app names))
  | _, _ => None
  end.

(** ** What the plan is *)

Definition zone_keys (insts : zone_insts) (z : ZoneKey) : list AppInstKey :=
  match insts !! z with Some m => (go_range m).*1 | None => [] end.
(** A zone that can take a new instance. *)
Definition eligible (c : CacheData) (failures : RetryTracker) (app : App) (insts : zone_insts)
    (z : ZoneKey) : Prop :=
  insts !! z = None ∧ zoneOnline c z = true ∧ hasFailure (app_Key app) z failures = false.
#[global] Instance eligible_dec c failures app insts z : Decision (eligible c failures app insts z).
Proof. unfold eligible. apply _. Defined.
Definition site_of (c : CacheData) (app : App) (z : ZoneKey) : potentialCreateSite :=
  mkSite z (existsb (λ ckey, bool_decide (GetForCloudlet ckey (app_Deployment app)
    AppInstToClusterDeployment (frClusterInsts c) ≠ [])) (CloudletsForZone c z)).

Lemma count_insts_fold c keys n :
  fold_left (count_inst c) keys n =
  mkCounts (onlineCount n + Z.of_nat (length (filter (λ k, appInstOnlineOrGoingOnline c k) keys)))
    (totalCount n + Z.of_nat (length keys)) (potentialCreate n)
    (potentialDelete n ++ filter (λ k, isAutoProvInst c k) keys).
Proof.
  revert n. induction keys as [|k keys IH]; intros n; cbn [fold_left].
  - destruct n. simpl. rewrite app_nil_r. f_equal; lia.
  - rewrite IH. unfold count_inst. simpl. rewrite !filter_cons.
    f_equal.
    + destruct (appInstOnlineOrGoingOnline c k); simpl; lia.
    + lia.
    + destruct (isAutoProvInst c k); simpl; [by rewrite <- app_assoc|done].
Qed.
Lemma count_zone_eq c failures app insts n z :
  count_zone c failures app insts n z =
  mkCounts
    (onlineCount n + Z.of_nat (length (filter (λ k, appInstOnlineOrGoingOnline c k) (zone_keys insts z))))
    (totalCount n + Z.of_nat (length (zone_keys insts z)))
    (potentialCreate n ++ if decide (eligible c failures app insts z) then [site_of c app z] else [])
    (potentialDelete n ++ filter (λ k, isAutoProvInst c k) (zone_keys insts z)).
Proof.
  destruct (decide (eligible c failures app insts z)) as [(Hz & Hon & Hf)|He].
  - unfold count_zone, zone_keys. rewrite Hz, Hon, Hf. simpl. rewrite app_nil_r. f_equal; lia.
  - unfold count_zone, zone_keys. destruct (insts !! z) as [m|] eqn:Hz.
    + rewrite count_insts_fold. by rewrite app_nil_r.
    + assert ((if negb (zoneOnline c z) then n else if hasFailure (app_Key app) z failures then n
        else mkCounts (onlineCount n) (totalCount n) (potentialCreate n ++ [site_of c app z])
               (potentialDelete n)) = n) as Hn.
      { destruct (zoneOnline c z) eqn:Hon; simpl; [|done].
        destruct (hasFailure (app_Key app) z failures) eqn:Hf; [done|]. by destruct He. }
      unfold site_of in Hn. rewrite Hn. destruct n. simpl. rewrite !app_nil_r. f_equal; lia.
Qed.
Lemma count_zones_fold c failures app insts zs n :
  let ks := flat_map (zone_keys insts) zs in
  fold_left (count_zone c failures app insts) zs n =
  mkCounts (onlineCount n + Z.of_nat (length (filter (λ k, appInstOnlineOrGoingOnline c k) ks)))
    (totalCount n + Z.of_nat (length ks))
    (potentialCreate n ++ (site_of c app <$> filter (eligible c failures app insts) zs))
    (potentialDelete n ++ filter (λ k, isAutoProvInst c k) ks).
Proof.
  cbv zeta. revert n. induction zs as [|z zs IH]; intros n; cbn [fold_left flat_map].
  - destruct n. simpl. rewrite !app_nil_r. f_equal; lia.
  - rewrite IH, count_zone_eq. cbn [onlineCount totalCount potentialCreate potentialDelete].
    rewrite !filter_app, !length_app, (filter_cons (eligible _ _ _ _)), <- !app_assoc.
    f_equal; [lia|lia|]. do 2 f_equal. case_decide; [done|by rewrite app_nil_l].
Qed.

(** Where the instances of the app are. *)
Definition inst_on (c : CacheData) (refs : AppInstRefs) (zs : list ZoneKey) (k : AppInstKey) : Prop :=
  (∃ s, is_Some (Insts refs !! s) ∧ KeyStringParse (O := AppInst) s = k) ∧
  ∃ i, appInstCache c !! k = Some i ∧ ai_ZoneKey i ∈ zs.
Lemma zone_insts_fold c l m z k :
  (∀ z m', m !! z = Some m' → m' ≠ ∅) →
  let r := fold_left (add_zone_inst c) l m in
  (∀ z m', r !! z = Some m' → m' ≠ ∅) ∧
  (is_Some (default ∅ (r !! z) !! k) ↔ is_Some (default ∅ (m !! z) !! k) ∨
    (k ∈ (λ s, KeyStringParse (O := AppInst) s) <$> l) ∧
    ∃ i, appInstCache c !! k = Some i ∧ ai_ZoneKey i = z).
Proof.
  cbv zeta. revert m. induction l as [|s l IH]; intros m Hm; cbn [fold_left].
  { split; [done|]. simpl. split; [by left|]. intros [?|[?%elem_of_nil _]]; done. }
  assert (∀ z m', add_zone_inst c m s !! z = Some m' → m' ≠ ∅) as Hne.
  { intros z' m'. unfold add_zone_inst. destruct (appInstCache c !! KeyStringParse (O := AppInst) s) as [i|]; [|apply Hm].
    intros [[_ <-]|[_ ?]]%lookup_insert_Some; [apply insert_non_empty|by eapply Hm]. }
  destruct (IH _ Hne) as [IH1 IH2]. split; [done|]. rewrite IH2. cbn [fmap list_fmap].
  rewrite elem_of_cons. unfold add_zone_inst. set (key := KeyStringParse (O := AppInst) s).
  destruct (appInstCache c !! key) as [i|] eqn:Hi.
  - assert (is_Some (default ∅ (<[ai_ZoneKey i := <[key := ai_CloudletKey i]>
        (default ∅ (m !! ai_ZoneKey i))]> m !! z) !! k) ↔
      is_Some (default ∅ (m !! z) !! k) ∨ (k = key ∧ z = ai_ZoneKey i)) as ->.
    { destruct (decide (z = ai_ZoneKey i)) as [->|Hz].
      - rewrite lookup_insert_eq. simpl. rewrite lookup_insert_is_Some'. naive_solver.
      - rewrite lookup_insert_ne by done. naive_solver. }
    split; [|naive_solver]. intros [[?|[-> ->]]|[? ?]]; [by left| |by right; split; [right|]].
    right. split; [by left|]. by exists i.
  - split; [naive_solver|]. intros [?|[[->|?] (i & Hi' & ?)]]; [by left|congruence|right; eauto].
Qed.
Lemma zone_keys_spec c refs z k :
  k ∈ zone_keys (zoneInsts c refs) z ↔ inst_on c refs [z] k.
Proof.
  destruct (zone_insts_fold c (go_range (Insts refs)).*1 ∅ z k) as [_ H];
    [intros z' m'; by rewrite lookup_empty|]. fold (zoneInsts c refs) in H.
  assert (k ∈ zone_keys (zoneInsts c refs) z ↔ is_Some (default ∅ (zoneInsts c refs !! z) !! k)) as ->.
  { unfold zone_keys. destruct (zoneInsts c refs !! z) as [m|]; simpl.
    - rewrite list_elem_of_fmap. split.
      + intros ([k' x] & -> & Hin%elem_of_go_range). by eexists.
      + intros [x Hx]. exists (k, x). split; [done|]. by apply elem_of_go_range.
    - rewrite lookup_empty. split; [by intros ?%elem_of_nil|by intros [? ?]]. }
  rewrite H, lookup_empty. simpl. rewrite lookup_empty. unfold inst_on. rewrite list_elem_of_fmap.
  setoid_rewrite list_elem_of_fmap. setoid_rewrite list_elem_of_singleton. split.
  - intros [[? ?]|[(s & -> & ([s' v] & -> & Hin%elem_of_go_range)) Hi]]; [done|].
    split; [|done]. exists s'. split; [by eexists|done].
  - intros [(s & [v Hv] & <-) Hi]. right. split; [|done]. exists s. split; [done|].
    exists (s, v). split; [done|]. by apply elem_of_go_range.
Qed.
Lemma zoneInsts_none c refs z : zoneInsts c refs !! z = None ↔ ∀ k, ¬ inst_on c refs [z] k.
Proof.
  destruct (zone_insts_fold c (go_range (Insts refs)).*1 ∅ z (mkAppInstKey "" "")) as [Hne _];
    [intros z' m'; by rewrite lookup_empty|]. fold (zoneInsts c refs) in Hne.
  setoid_rewrite <- zone_keys_spec. unfold zone_keys. split.
  - intros -> k. apply not_elem_of_nil.
  - intros Hk. destruct (zoneInsts c refs !! z) as [m|] eqn:Hz; [|done].
    destruct (map_choose m (Hne _ _ Hz)) as (k & x & Hx). destruct (Hk k).
    apply list_elem_of_fmap. exists (k, x). split; [done|]. by apply elem_of_go_range.
Qed.

Lemma policy_keys_spec c refs zs k :
  k ∈ flat_map (zone_keys (zoneInsts c refs)) zs ↔ inst_on c refs zs k.
Proof.
  rewrite list_elem_of_In, in_flat_map. split.
  - intros (z & Hz%list_elem_of_In & Hk). apply list_elem_of_In, zone_keys_spec in Hk.
    destruct Hk as [Hs (i & Hi & Hin%list_elem_of_singleton)]. split; [done|]. exists i. by subst.
  - intros [Hs (i & Hi & Hin)]. exists (ai_ZoneKey i). split; [by apply list_elem_of_In|].
    apply list_elem_of_In, zone_keys_spec. split; [done|]. exists i. split; [done|].
    by apply list_elem_of_singleton.
Qed.
Lemma zone_keys_NoDup insts z : NoDup (zone_keys insts z).
Proof. unfold zone_keys. destruct (insts !! z); [apply NoDup_go_range|constructor]. Qed.
Lemma policy_keys_NoDup c refs zs : NoDup zs → NoDup (flat_map (zone_keys (zoneInsts c refs)) zs).
Proof.
  induction 1 as [|z zs Hz Hnd IH]; simpl; [constructor|]. apply list.NoDup_app.
  split_and!; [apply zone_keys_NoDup| |done]. intros k H1%zone_keys_spec H2%policy_keys_spec.
  destruct H1 as [_ (i & Hi & Hiz%list_elem_of_singleton)], H2 as [_ (i' & Hi' & Hin)].
  assert (i' = i) as -> by congruence. by rewrite Hiz in Hin.
Qed.

(** The order of the sites: free clusters first, then by demand. *)
Definition site_demand (aggr : AutoProvAggr) (appKey : AppKey) (s : potentialCreateSite) : Z :=
  match allStats aggr !! appKey with
  | Some stats => site_incr aggr stats (site_zoneKey s)
  | None => 0
  end.
Definition site_before (aggr : AutoProvAggr) (appKey : AppKey) (s1 s2 : potentialCreateSite) : Prop :=
  (hasFree s1 = true ∧ hasFree s2 = false) ∨
  (hasFree s1 = hasFree s2 ∧ site_demand aggr appKey s1 >= site_demand aggr appKey s2).
Lemma site_less_false aggr appKey s1 s2 :
  site_less aggr appKey s2 s1 = false ↔ site_before aggr appKey s1 s2.
Proof.
  assert (site_less aggr appKey s2 s1 =
    if negb (Bool.eqb (hasFree s2) (hasFree s1)) then hasFree s2 && negb (hasFree s1)
    else bool_decide (site_demand aggr appKey s2 > site_demand aggr appKey s1)) as ->.
  { unfold site_less, site_demand. by destruct (allStats aggr !! appKey). }
  unfold site_before. generalize (site_demand aggr appKey s1) (site_demand aggr appKey s2). intros d1 d2.
  destruct (hasFree s1), (hasFree s2); simpl; rewrite ?bool_decide_eq_false.
  1, 4: split; [intros; right; split; [done|lia]|intros [[? ?]|[_ ?]]; [done|lia]].
  - split; [by left|done].
  - split; [done|]. by intros [[? ?]|[? ?]].
Qed.
Lemma site_before_total aggr appKey s1 s2 :
  site_before aggr appKey s1 s2 ∨ site_before aggr appKey s2 s1.
Proof.
  unfold site_before. destruct (hasFree s1), (hasFree s2); [|by left; left|by right; left|];
    (destruct (decide (site_demand aggr appKey s1 >= site_demand aggr appKey s2));
     [left; right|right; right]; (split; [done|lia])).
Qed.
Lemma sorted_sites aggr appKey l :
  sortPotentialCreate aggr appKey l ≡ₚ l ∧
  StronglySorted (site_before aggr appKey) (sortPotentialCreate aggr appKey l).
Proof.
  unfold sortPotentialCreate. case_decide as Hlen.
  - split; [done|]. destruct l as [|s [|s' l]]; simpl in Hlen; [constructor|repeat constructor|lia].
  - split; [apply go_sort_perm|].
    pose proof (go_sort_sorted (site_less aggr appKey) l) as Hs.
    assert (∀ x y, site_less aggr appKey x y = true → site_less aggr appKey y x = false) as Hasym.
    { intros x y Hxy. apply site_less_false.
      destruct (site_before_total aggr appKey x y) as [?|Hb%site_less_false]; [done|congruence]. }
    assert (∀ x y z, site_less aggr appKey y x = false → site_less aggr appKey z y = false →
      site_less aggr appKey z x = false) as Htrans.
    { intros x y z. rewrite !site_less_false. unfold site_before.
      intros [[? ?]|[? ?]] [[? ?]|[? ?]]; [left|left|left|right]; split; (congruence || lia). }
    specialize (Hs Hasym Htrans). eapply StronglySorted_ind with (P := StronglySorted (site_before aggr appKey));
      [constructor| |exact Hs]. intros s l' _ IH Hall. constructor; [done|].
    eapply Forall_impl; [exact Hall|]. intros s'. apply site_less_false.
Qed.

Lemma chooseDelete_spec l n :
  chooseDelete l n ⊆+ l ∧ Z.of_nat (length (chooseDelete l n)) = Z.max 0 (Z.min n (Z.of_nat (length l))).
Proof.
  unfold chooseDelete. case_decide; [split; [apply submseteq_nil_l|simpl; lia]|].
  split; [apply sublist_submseteq, sublist_drop|]. rewrite length_drop. case_decide; lia.
Qed.

(** C14: what a check of a policy starts, from the app's instances on the
    policy's zones ([ks], each once) and the zones that can take one ([es]): if
    there is a maximum, as many deletes of auto-provisioned instances as are
    above it, so never below it; creates only while the count is below the
    maximum, one worker for each instance that the online ones lack of the
    minimum, bounded by the zones; the zones with a free cluster first, then by
    demand; and failover requests get an error exactly when the zones are too few. *)
Theorem checkPolicy_correct c failures aggr app refs pname p pl :
  policy_of c app pname = Some p → NoDup (ap_Zones p) →
  checkPolicy c failures aggr app (zoneInsts c refs) pname = Some pl →
  ∃ ks es, NoDup ks ∧ (∀ k, k ∈ ks ↔ inst_on c refs (ap_Zones p) k) ∧
    es = filter (eligible c failures app (zoneInsts c refs)) (ap_Zones p) ∧
    let total := Z.of_nat (length ks) in
    let online := Z.of_nat (length (filter (λ k, appInstOnlineOrGoingOnline c k) ks)) in
    let auto := filter (λ k, isAutoProvInst c k) ks in
    let need := MinActiveInstances p - online in
    let full := MaxInstances p > 0 ∧ total >= MaxInstances p in
    deletes pl ⊆+ auto ∧
    Z.of_nat (length (deletes pl)) =
      (if decide (MaxInstances p > 0)
       then Z.max 0 (Z.min (total - MaxInstances p) (Z.of_nat (length auto))) else 0) ∧
    (full → workers pl = 0%nat ∧ not_enough pl = false) ∧
    (¬ full → deletes pl = [] ∧ site_zoneKey <$> sites pl ≡ₚ es ∧
       Forall (λ s, s = site_of c app (site_zoneKey s)) (sites pl) ∧
       StronglySorted (site_before aggr (app_Key app)) (sites pl) ∧
       Z.of_nat (workers pl) = Z.max 0 (Z.min need (Z.of_nat (length es))) ∧
       (not_enough pl = true ↔ Z.of_nat (length es) < need)).
Proof.
  intros Hp Hnd Hc. unfold checkPolicy in Hc. rewrite Hp in Hc. injection Hc as <-.
  rewrite count_zones_fold. cbn [onlineCount totalCount potentialCreate potentialDelete].
  rewrite !Z.add_0_l, !app_nil_l. set (insts := zoneInsts c refs).
  set (ks := flat_map (zone_keys insts) (ap_Zones p)).
  set (es := filter (eligible c failures app insts) (ap_Zones p)).
  exists ks, es. split; [by apply policy_keys_NoDup|]. split; [apply policy_keys_spec|].
  split; [done|]. cbv zeta. set (auto := filter (λ k, isAutoProvInst c k) ks).
  destruct (chooseDelete_spec auto (Z.of_nat (length ks) - MaxInstances p)) as [Hsub Hlen].
  unfold make_plan. cbn [onlineCount totalCount potentialCreate potentialDelete].
  assert (∀ b : bool, (if decide (MaxInstances p > 0) then
      chooseDelete auto (Z.of_nat (length ks) - MaxInstances p) else []) ⊆+ auto ∧
    Z.of_nat (length (if decide (MaxInstances p > 0) then
      chooseDelete auto (Z.of_nat (length ks) - MaxInstances p) else [])) =
    if decide (MaxInstances p > 0) then
      Z.max 0 (Z.min (Z.of_nat (length ks) - MaxInstances p) (Z.of_nat (length auto))) else 0) as Hdel.
  { intros _. case_decide; [done|]. split; [apply submseteq_nil_l|done]. }
  specialize (Hdel true). destruct Hdel as [Hd1 Hd2].
  destruct (decide (MaxInstances p > 0 ∧ Z.of_nat (length ks) >= MaxInstances p)) as [Hfull|Hfull];
    cbn [deletes sites workers not_enough]; (split; [exact Hd1|]); (split; [exact Hd2|]); (split; [done|]);
    [done|].
  intros _. destruct (sorted_sites aggr (app_Key app) (site_of c app <$> es)) as [Hperm Hsorted].
  assert (length (sortPotentialCreate aggr (app_Key app) (site_of c app <$> es)) = length es) as Hl
    by (by rewrite Hperm, length_fmap).
  rewrite Hl. split_and!.
  - case_decide; [|done]. destruct (chooseDelete auto _) eqn:Hch; [done|]. exfalso. simpl in Hlen. lia.
  - rewrite Hperm, <- list_fmap_compose. by rewrite list_fmap_id.
  - rewrite Hperm. apply Forall_fmap, Forall_true. done.
  - done.
  - lia.
  - by rewrite bool_decide_eq_true.
Qed.
End AutoProv.

(** ** The workers of a plan *)

(** Each worker takes zones from the shared list, in its order, until a create
    succeeds or the zones are used up.  The mutex of the list is never locked,
    so the reads and writes of [next] in [getNext] interleave. *)
Module Sites.

Inductive place :=
| PCheck                       (* [s.next < len(s.sites)] *)
| PIndex                       (* [s.sites[s.next]] *)
| PIncRead (site : nat)        (* [s.next++]: reads *)
| PIncWrite (site v : nat)     (* and writes *)
| PCreate (site : nat)         (* calls the controller *)
| PDone (created : bool)
| PPanic.
#[global] Instance place_eq_dec : EqDecision place.
Proof. solve_decision. Defined.
Record potentialCreateSites := mkSites {
  next : nat;
  places : list place;          (* of the workers *)
  tried : list nat;             (* the sites of the calls that ended *)
  created : gset nat;           (* the sites that have an instance now *)
}.
(** One access by a worker at a place, with what it does to the rest. *)
Inductive access (n : nat) : place → nat * list nat * gset nat → place → nat * list nat * gset nat → Prop :=
| a_check nx tr cr : access n PCheck (nx, tr, cr) (if decide (nx < n)%nat then PIndex else PDone false) (nx, tr, cr)
| a_index nx tr cr : access n PIndex (nx, tr, cr) (if decide (nx < n)%nat then PIncRead nx else PPanic) (nx, tr, cr)
| a_read site nx tr cr : access n (PIncRead site) (nx, tr, cr) (PIncWrite site nx) (nx, tr, cr)
| a_write site v nx tr cr : access n (PIncWrite site v) (nx, tr, cr) (PCreate site) (S v, tr, cr)
(* the call succeeds, or fails because there is an instance, which is ignored *)
| a_created site nx tr cr :
    access n (PCreate site) (nx, tr, cr) (PDone true) (nx, tr ++ [site], {[site]} ∪ cr)
| a_failed site nx tr cr :
    site ∉ cr → access n (PCreate site) (nx, tr, cr) PCheck (nx, tr ++ [site], cr).
Inductive step (n : nat) (s : potentialCreateSites) : potentialCreateSites → Prop :=
| s_access l1 p l2 p' nx tr cr :
    places s = l1 ++ p :: l2 → access n p (next s, tried s, created s) p' (nx, tr, cr) →
    step n s (mkSites nx (l1 ++ p' :: l2) tr cr).
Definition init (k : nat) : potentialCreateSites := mkSites 0 (replicate k PCheck) [] ∅.

Definition in_getNext (p : place) : Prop :=
  match p with PIndex | PIncRead _ | PIncWrite _ _ => True | _ => False end.
#[global] Instance in_getNext_dec p : Decision (in_getNext p).
Proof. destruct p; apply _. Defined.
Definition ended (p : place) : Prop := match p with PDone _ => True | _ => False end.

(** *** With calls of getNext that do not overlap *)

(** As if the mutex were held: no worker enters while another is inside. *)
Inductive serial_step (n : nat) (s : potentialCreateSites) : potentialCreateSites → Prop :=
| ss_access l1 p l2 p' nx tr cr :
    places s = l1 ++ p :: l2 → access n p (next s, tried s, created s) p' (nx, tr, cr) →
    (p = PCheck → Forall (λ q, ¬ in_getNext q) (l1 ++ l2)) →
    serial_step n s (mkSites nx (l1 ++ p' :: l2) tr cr).
Lemma serial_is_step n s s' : serial_step n s s' → step n s s'.
Proof. destruct 1; by econstructor. Qed.

Definition holds (p : place) : option nat := match p with PCreate site => Some site | _ => None end.
Record inv (n : nat) (s : potentialCreateSites) : Prop := {
  i_taken : tried s ++ omap holds (places s) ≡ₚ seq 0 (next s);
  i_created : created s ⊆ list_to_set (tried s);
  i_done : length (filter (λ p, p = PDone true) (places s)) = size (created s);
  i_alone : (length (filter in_getNext (places s)) ≤ 1)%nat;
  i_place p : p ∈ places s → match p with
    | PIndex => (next s < n)%nat
    | PIncRead site => site = next s ∧ (next s < n)%nat
    | PIncWrite site v => site = next s ∧ v = next s ∧ (next s < n)%nat
    | PDone false => (n <= next s)%nat
    | PPanic => False
    | _ => True
    end;
}.
Lemma sites_inv_init n k : inv n (init k).
Proof.
  assert (∀ p, p ∈ replicate k PCheck → p = PCheck) as Hp by (by intros p [-> _]%elem_of_replicate).
  split; simpl.
  - clear Hp. induction k; simpl; done.
  - done.
  - rewrite filter_none; [done|]. apply Forall_forall. intros p ->%Hp. done.
  - rewrite filter_none; [simpl; lia|]. apply Forall_forall. intros p ->%Hp. by intros [].
  - by intros p ->%Hp.
Qed.

(** A worker inside is alone. *)
Lemma alone l1 p l2 :
  (length (filter in_getNext (l1 ++ p :: l2)) ≤ 1)%nat → in_getNext p →
  Forall (λ q, ¬ in_getNext q) (l1 ++ l2).
Proof.
  rewrite filter_app. intros Hone Hin. rewrite filter_cons_True in Hone by done.
  rewrite length_app in Hone. cbn [length] in Hone. apply Forall_forall. intros q Hq Hqin.
  assert (q ∈ filter in_getNext l1 ++ filter in_getNext l2) as Hf
    by (rewrite <- filter_app; by apply list_elem_of_filter).
  destruct (filter in_getNext l1), (filter in_getNext l2); simpl in Hone; try lia.
  by apply elem_of_nil in Hf.
Qed.
Lemma alone_length l1 p l2 :
  Forall (λ q, ¬ in_getNext q) (l1 ++ l2) → (length (filter in_getNext (l1 ++ p :: l2)) ≤ 1)%nat.
Proof.
  intros [H1 H2]%Forall_app. rewrite filter_app, filter_cons, !(filter_none in_getNext _) by done.
  case_decide; simpl; lia.
Qed.
(** The condition of [inv] on a place. *)
Definition place_ok (n nx : nat) (p : place) : Prop :=
  match p with
  | PIndex => (nx < n)%nat
  | PIncRead site => site = nx ∧ (nx < n)%nat
  | PIncWrite site v => site = nx ∧ v = nx ∧ (nx < n)%nat
  | PDone false => (n <= nx)%nat
  | PPanic => False
  | _ => True
  end.
Lemma omap_holds l1 p l2 :
  omap holds (l1 ++ p :: l2) ≡ₚ (match holds p with Some x => [x] | None => [] end) ++ omap holds (l1 ++ l2).
Proof.
  rewrite !omap_app. simpl. destruct (holds p) as [x|]; simpl; [|done].
  by rewrite <- Permutation_middle.
Qed.
Lemma count_done l1 p l2 :
  length (filter (λ q, q = PDone true) (l1 ++ p :: l2)) =
  ((if decide (p = PDone true) then 1 else 0) + length (filter (λ q, q = PDone true) (l1 ++ l2)))%nat.
Proof. rewrite !filter_app, !length_app, filter_cons. case_decide; simpl; lia. Qed.

Lemma sites_inv_step n s s' : inv n s → serial_step n s s' → inv n s'.
Proof.
  intros [H1 H2 H3 H4 H5] [l1 p l2 p' nx tr cr Hpl Hacc Hser].
  rewrite Hpl in H1, H3, H4. rewrite omap_holds in H1. rewrite count_done in H3.
  assert (place_ok n (next s) p) as Hp by (apply (H5 p); rewrite Hpl; set_solver).
  assert (∀ q, q ∈ l1 ++ l2 → place_ok n (next s) q) as Hothers
    by (intros q Hq; apply (H5 q); rewrite Hpl; set_solver).
  assert (in_getNext p → Forall (λ q, ¬ in_getNext q) (l1 ++ l2)) as Halone by (by apply alone).
  assert (∀ q', place_ok n nx q' → (nx = next s ∨ nx = S (next s) ∧ in_getNext p) →
    ∀ q, q ∈ l1 ++ q' :: l2 → place_ok n nx q) as Hplaces.
  { intros q' Hq' Hnx q Hq. assert (q = q' ∨ q ∈ l1 ++ l2) as [->|Hin] by set_solver; [done|].
    destruct Hnx as [->|[-> Hin']]; [by apply Hothers|]. specialize (Hothers q Hin).
    pose proof (proj1 (Forall_forall _ _) (Halone Hin') q Hin) as Hq''. simpl in Hq''.
    destruct q as [| | | | |[]|]; simpl in *; try done; try (by destruct Hq''); lia. }
  assert (Forall (λ q, ¬ in_getNext q) (l1 ++ l2) ∨ ¬ in_getNext p' →
    (length (filter in_getNext (l1 ++ p' :: l2)) ≤ 1)%nat) as Hlen.
  { intros [Hall|Hnp]; [by apply alone_length|]. rewrite filter_app, filter_cons_False by done.
    rewrite filter_app, filter_cons, length_app in H4. rewrite length_app.
    case_decide; simpl in H4; lia. }
  assert (∀ x, omap holds (l1 ++ x :: l2) ≡ₚ
    (match holds x with Some y => [y] | None => [] end) ++ omap holds (l1 ++ l2)) as Homap
    by (intros x; apply omap_holds).
  inversion Hacc; subst; clear Hacc; simpl in Hp, H1, H3, Halone.
  - (* check *)
    assert (Forall (λ q, ¬ in_getNext q) (l1 ++ l2)) as Hall by (by apply Hser).
    destruct (decide (next s < n)%nat) as [Hn|Hn].
    + split; simpl; rewrite ?Homap, ?count_done; try done; [apply Hlen; by left|].
      apply Hplaces; [done|by left].
    + split; simpl; rewrite ?Homap, ?count_done; try done; [apply Hlen; by left|].
      apply Hplaces; [simpl; lia|by left].
  - (* index *) destruct (decide (next s < n)%nat) as [Hn|Hn]; [|by destruct Hn]. split; simpl; rewrite ?Homap, ?count_done; try done.
    + apply Hlen. left. by apply Halone.
    + apply Hplaces; [by simpl|by left].
  - (* read *) split; simpl; rewrite ?Homap, ?count_done; try done.
    + apply Hlen. left. by apply Halone.
    + apply Hplaces; [by destruct Hp|by left].
  - (* write *) destruct Hp as (-> & -> & Hn). split; simpl; rewrite ?Homap, ?count_done; try done.
    + change (0%nat :: seq 1 (next s)) with (seq 0 (S (next s))). rewrite seq_S, <- H1. simpl.
      rewrite <- Permutation_middle. apply Permutation_cons_append.
    + apply Hlen. by right; intros [].
    + apply Hplaces; [done|right]. by split.
  - (* created *)
    assert (site ∉ tried s) as Hnt.
    { intros Hin. assert (NoDup (tried s ++ site :: omap holds (l1 ++ l2))) as Hnd
        by (rewrite H1; apply NoDup_seq).
      apply list.NoDup_app in Hnd as (_ & Hd & _). by apply (Hd site Hin); left. }
    assert (site ∉ created s) as Hnc by (intros Hin%H2; set_solver).
    split; simpl; rewrite ?Homap, ?count_done; try done.
    + by rewrite <- app_assoc.
    + rewrite list_to_set_app_L. set_solver.
    + rewrite size_union by set_solver. rewrite size_singleton, decide_True by done. lia.
    + apply Hlen. by right; intros [].
    + apply Hplaces; [done|by left].
  - (* failed *) split; simpl; rewrite ?Homap, ?count_done; try done.
    + by rewrite <- app_assoc.
    + rewrite list_to_set_app_L. set_solver.
    + apply Hlen. by right; intros [].
    + apply Hplaces; [done|by left].
Qed.

(** When all workers have ended, each has made an instance on a zone of its own
    or every zone was tried, each once. *)
Lemma serial_workers n k s :
  rtc (serial_step n) (init k) s → Forall ended (places s) →
  NoDup (tried s) ∧ created s ⊆ list_to_set (tried s) ∧
  (size (created s) = k ∨ tried s ≡ₚ seq 0 (next s) ∧ (n <= next s)%nat).
Proof.
  intros Hrun Hend.
  assert (inv n s ∧ length (places s) = k) as [[H1 H2 H3 _ H5] Hlen].
  { clear Hend. assert (inv n (init k) ∧ length (places (init k)) = k) as Hi.
    { split; [apply sites_inv_init|]. apply length_replicate. }
    induction Hrun as [|s1 s2 s3 Hstep _ IH]; [done|]. apply IH. destruct Hi as [Hi Hl].
    split; [by eapply sites_inv_step|]. rewrite <- Hl. destruct Hstep as [l1 p l2 p' ? ? ? Hpl _ _].
    simpl. rewrite Hpl, !length_app. simpl. lia. }
  assert (omap holds (places s) = []) as Hno.
  { clear -Hend. induction Hend as [|p l Hp _ IH]; simpl; [done|]. by destruct p. }
  rewrite Hno, app_nil_r in H1. split; [rewrite H1; apply NoDup_seq|]. split; [done|].
  destruct (decide (Forall (λ p, p = PDone true) (places s))) as [Hall|Hnot].
  - left. rewrite <- H3, filter_all by done. done.
  - right. split; [done|]. apply not_Forall_Exists, Exists_exists in Hnot as (p & Hin & Hp); [|apply _].
    rewrite Forall_forall in Hend. specialize (Hend p Hin). specialize (H5 p Hin).
    destruct p as [| | | | |[]|]; try done. by destruct Hp.
Qed.

(** The access of worker [i], in a run. *)
Lemma step_at n i nx ws tr cr p p' nx' tr' cr' s :
  ws !! i = Some p → access n p (nx, tr, cr) p' (nx', tr', cr') →
  rtc (step n) (mkSites nx' (<[i := p']> ws) tr' cr') s → rtc (step n) (mkSites nx ws tr cr) s.
Proof.
  intros Hi Hacc. apply rtc_l. pose proof (take_drop_middle ws i p Hi) as Hws.
  rewrite insert_take_drop by (by eapply lookup_lt_Some).
  by apply (s_access n (mkSites nx ws tr cr) (take i ws) p (drop (S i) ws)).
Qed.
Ltac go i a := eapply (step_at _ i); [reflexivity | apply a; try (apply (bool_decide_unpack _); exact I) | cbn].

(** The list is shared without its lock.  Two workers over two zones can
    both take the first: the second call fails because there is an instance,
    which counts as success, so one instance is made though the second zone was
    never tried; and a worker can index the list past its end, which stops the
    process. *)
Theorem getNext_race :
  (∃ s, rtc (step 2) (init 2) s ∧ Forall ended (places s) ∧ created s = {[0%nat]} ∧ 1%nat ∉ tried s) ∧
  (∃ s, rtc (step 2) (init 2) s ∧ PPanic ∈ places s).
Proof.
  split.
  - exists (mkSites 1 [PDone true; PDone true] [0; 0]%nat {[0%nat]}). split; [|split; [repeat constructor|]].
    + (* both take zone 0 before either writes [next] *)
      unfold init. simpl replicate.
      go 0%nat a_check. go 1%nat a_check. go 0%nat a_index. go 1%nat a_index. go 0%nat a_read.
      go 1%nat a_read. go 0%nat a_write. go 1%nat a_write. go 0%nat a_created. go 1%nat a_created.
      replace ({[0%nat]} ∪ ({[0%nat]} ∪ ∅)) with ({[0%nat]} : gset nat) by set_solver. apply rtc_refl.
    + split; [done|]. by apply (bool_decide_unpack _).
  - exists (mkSites 2 [PPanic; PCreate 1] [0%nat] ∅). split; [|by left].
    unfold init. simpl replicate.
    go 0%nat a_check. go 0%nat a_index. go 0%nat a_read. go 0%nat a_write. go 0%nat a_failed.
    go 0%nat a_check. go 1%nat a_check. go 1%nat a_index. go 1%nat a_read. go 1%nat a_write.
    go 0%nat a_index. apply rtc_refl.
Qed.
End Sites.

(** ** A run: one instance over the maximum of one goes; the other policy wants
    two more and has one zone left. *)
Module AutoProvWitness.
Import JsonRuns ProvJson.
#[local] Existing Instances canonical_range stable_sort.
Definition z (n : string) : ZoneKey := mkZoneKey "op" n "".
Definition ck (n : string) : CloudletKey := mkCloudletKey "op" n "".
Definition ak : AppKey := mkAppKey "dev" "g" "1".
Definition app : App := mkApp ak false false ["p"; "q"] "" "docker".
Definition inst (n zn : string) : AppInst :=
  mkAppInst (mkAppInstKey n "dev") ak (ck zn) (z zn) LIVENESS_AUTOPROV READY HEALTH_CHECK_OK.
Definition pol (n : string) (zs : list ZoneKey) (min max : Z) : AutoProvPolicy :=
  mkAutoProvPolicy [] (mkPolicyKey "dev" n) 1 1 zs min max 0 0 false.
Definition p : AutoProvPolicy := pol "p" [z "a"; z "b"] 0 1.
Definition q : AutoProvPolicy := pol "q" [z "a"; z "c"] 3 0.
Definition refs : AppInstRefs :=
  mkAppInstRefs ak {[Marshal (mkAppInstKey "i1" "dev") := 1; Marshal (mkAppInstKey "i2" "dev") := 1]} ∅.
Definition up (n : string) : CloudletInfo := mkCloudletInfo (ck n) CLOUDLET_STATE_READY.
Definition caches : CacheData := mkCaches {[ak := app]}
  {[mkAppInstKey "i1" "dev" := inst "i1" "a"; mkAppInstKey "i2" "dev" := inst "i2" "b"]}
  {[ak := refs]} {[ap_Key p := p; ap_Key q := q]}
  (list_to_map ((λ n, (ck n, mkCloudlet (ck n) n NORMAL_OPERATION)) <$> ["a"; "b"; "c"]))
  (list_to_map ((λ n, (ck n, up n)) <$> ["a"; "b"; "c"])) FreeClusters_Init.
Definition plan_of (name : string) : option plan :=
  checkPolicy caches ∅ NewAutoProvAggr app (zoneInsts caches refs) name.
Lemma checkPolicy_correct_witness :
  (plan_of "p" = Some (mkPlan [mkAppInstKey "i2" "dev"] [] 0 false)) ∧
  (plan_of "q" = Some (mkPlan [] [mkSite (z "c") false] 1 true)) ∧
  ∃ ks, NoDup ks ∧ (∀ k, k ∈ ks ↔ inst_on caches refs (ap_Zones p) k).
Proof.
  assert (plan_of "p" = Some (mkPlan [mkAppInstKey "i2" "dev"] [] 0 false)) as Hp
    by (vm_compute; reflexivity).
  split; [exact Hp|]. split; [vm_compute; reflexivity|].
  assert (policy_of caches app "p" = Some p) as Hpol by (vm_compute; reflexivity).
  assert (NoDup (ap_Zones p)) as Hnd by (apply (bool_decide_unpack _); vm_compute; exact I).
  destruct (checkPolicy_correct caches ∅ NewAutoProvAggr app refs "p" p _ Hpol Hnd Hp)
    as (ks & es & H1 & H2 & _).
  exists ks. split; [exact H1|exact H2].
Defined.
End AutoProvWitness.
