(* ===== verification/Failover.v ===== *)
(** * Failover of the apps of a cloudlet (pkg/autoprov/autoprov_minmax.go)

    When a cloudlet goes into maintenance the controller asks the service to
    move its apps and waits for an answer ([AutoProvInfo]).  The request is kept
    in a table; the checks of its apps take part in it; when the last app has
    been checked and the creates that the checks started have ended, the answer
    is sent.  [step] interleaves the callbacks, the checks, the create workers
    and the goroutines that answer; a critical section of a mutex is one step. *)

From S2P Require Export AutoProv.
From S2P Require LookupIdx.

(** ** Which apps a change concerns *)

Record Indexes := mkIndexes {
  appsByPolicy : gmap PolicyKey (gset AppKey);
  policiesByZone : gmap ZoneKey (gset PolicyKey);
  autoprovInstsByCloudlet : gmap CloudletKey (gset AppInstKey);
}.
Definition cloudletNeedsCheck (c : CacheData) (x : Indexes) (key : CloudletKey) : gset AppKey :=
  match cloudletCache c !! key with
  | None => ∅
  | Some cl =>
      let policies := LookupIdx.Find (Cloudlet_GetZone cl) (policiesByZone x) in
      list_to_set (p ← policies; LookupIdx.Find p (appsByPolicy x)) ∪
      list_to_set (omap (λ k, ai_AppKey <$> appInstCache c !! k)
        (LookupIdx.Find key (autoprovInstsByCloudlet x)))
  end.
Definition isAutoProvApp (c : CacheData) (key : AppKey) : bool :=
  match appCache c !! key with
  | Some a => bool_decide (app_AutoProvPolicy a ≠ "") || bool_decide (0 < length (AutoProvPolicies a))
  | None => false
  end.
(** The apps that the callbacks tell the workers to check. *)
Definition UpdatedPolicy (x : Indexes) (old : option AutoProvPolicy) (new : AutoProvPolicy)
    : Indexes * list AppKey :=
  let x' := mkIndexes (appsByPolicy x)
    (LookupIdx.Updated ap_Key GetZoneKeys old new (policiesByZone x)).1 (autoprovInstsByCloudlet x) in
  (x', LookupIdx.Find (ap_Key new) (appsByPolicy x')).
Definition DeletedPolicy (x : Indexes) (old : AutoProvPolicy) : Indexes :=
  mkIndexes (appsByPolicy x) (LookupIdx.Deleted ap_Key GetZoneKeys old (policiesByZone x))
    (autoprovInstsByCloudlet x).
Definition UpdatedApp (x : Indexes) (old : option App) (new : App) : Indexes * list AppKey :=
  let '(byPolicy, changed) := LookupIdx.Updated app_Key GetAutoProvPolicys old new (appsByPolicy x) in
  (mkIndexes byPolicy (policiesByZone x) (autoprovInstsByCloudlet x),
   if decide (0 < size changed) then [app_Key new] else []).
Definition DeletedApp (x : Indexes) (old : App) : Indexes :=
  mkIndexes (LookupIdx.Deleted app_Key GetAutoProvPolicys old (appsByPolicy x)) (policiesByZone x)
    (autoprovInstsByCloudlet x).
Definition UpdatedCloudletInfo (c : CacheData) (x : Indexes) (old : option CloudletInfo) (new : CloudletInfo)
    : list AppKey :=
  match old with
  | Some o =>
      if Bool.eqb (AutoProvCloudletInfoOnline o) (AutoProvCloudletInfoOnline new) then []
      else elements (cloudletNeedsCheck c x (ci_Key new))
  | None => elements (cloudletNeedsCheck c x (ci_Key new))
  end.
Definition UpdatedAppInst (c : CacheData) (x : Indexes) (old : option AppInst) (new : AppInst)
    : Indexes * list AppKey :=
  if negb (isAutoProvApp c (ai_AppKey new)) then (x, [])
  else
    let x' := mkIndexes (appsByPolicy x) (policiesByZone x)
      (LookupIdx.Lookup2_Updated (ai_Key new) (ai_CloudletKey new) (autoprovInstsByCloudlet x)) in
    match old with
    | None => (x', [ai_AppKey new])
    | Some o =>
        match cloudletInfoCache c !! ai_CloudletKey new, cloudletCache c !! ai_CloudletKey new with
        | Some ci, Some cl =>
            if Bool.eqb (AutoProvAppInstOnline o ci cl) (AutoProvAppInstOnline new ci cl)
            then (x', []) else (x', [ai_AppKey new])
        | _, _ => (x', [])
        end
    end.
Definition DeletedAppInst (c : CacheData) (x : Indexes) (inst : AppInst) : Indexes * list AppKey :=
  if negb (isAutoProvApp c (ai_AppKey inst)) then (x, [])
  else
    (mkIndexes (appsByPolicy x) (policiesByZone x)
      (LookupIdx.Lookup2_Deleted (ai_Key inst) (ai_CloudletKey inst) (autoprovInstsByCloudlet x)),
     [ai_AppKey inst]).
Definition UpdatedAppInstRefs (c : CacheData) (new : AppInstRefs) : list AppKey :=
  if isAutoProvApp c (ar_Key new) then [ar_Key new] else [].

(** With indexes of the caches, what has to be checked for a cloudlet that
    the cache has: the apps that have a policy with the cloudlet's zone, and
    the apps of the auto-provisioned instances that were recorded on it. *)
Theorem cloudletNeedsCheck_exact c x key cl a :
  LookupIdx.index_ok GetAutoProvPolicys (appCache c) (appsByPolicy x) →
  LookupIdx.index_ok GetZoneKeys (autoProvPolicyCache c) (policiesByZone x) →
  cloudletCache c !! key = Some cl →
  a ∈ cloudletNeedsCheck c x key ↔
  (∃ app pk p, appCache c !! a = Some app ∧ pk ∈ GetAutoProvPolicys app ∧
     autoProvPolicyCache c !! pk = Some p ∧ Cloudlet_GetZone cl ∈ ap_Zones p) ∨
  (∃ k i, LookupIdx.refers (autoprovInstsByCloudlet x) key k ∧ appInstCache c !! k = Some i ∧
     ai_AppKey i = a).
Proof.
  intros Happs Hpols Hcl. unfold cloudletNeedsCheck, LookupIdx.Find. rewrite Hcl.
  rewrite elem_of_union, !elem_of_list_to_set, list_elem_of_bind, list_elem_of_omap.
  setoid_rewrite elem_of_elements. apply Morphisms_Prop.or_iff_morphism.
  - split.
    + intros (pk & Ha & Hz). apply (LookupIdx.ok_refers _ _ _ Happs) in Ha as (app & ? & ?).
      apply (LookupIdx.ok_refers _ _ _ Hpols) in Hz as (p & ? & Hz).
      exists app, pk, p. split_and!; try done. by apply elem_of_list_to_set in Hz.
    + intros (app & pk & p & Happ & Hpk & Hp & Hz). exists pk. split.
      * apply (LookupIdx.ok_refers _ _ _ Happs). eauto.
      * apply (LookupIdx.ok_refers _ _ _ Hpols). exists p. split; [done|].
        by apply elem_of_list_to_set.
  - apply exist_proper. intros k. split.
    + intros [Hk (i & Hi & ->)%fmap_Some]. by exists i.
    + intros (i & Hk & Hi & <-). split; [done|]. by rewrite Hi.
Qed.

(** ** State *)

Record AutoProvInfo := mkInfo {
  info_Key : CloudletKey;
  info_MaintenanceState : MaintenanceState;
  Completed : list string;
  info_Errors : list string;
}.
(** [asked] and [checked] are not in the code: the apps that the request ever
    had, and those whose check has ended. *)
Record failoverReq := mkReq {
  info : AutoProvInfo;
  appsToCheck : gset AppKey;
  waitApiCalls : nat;
  asked : gset AppKey;
  checked : gset AppKey;
}.
Inductive check :=
| Running (app : AppKey) (ids : list nat)       (* in [ac.Check], with its requests *)
| Finishing (app : AppKey) (ids : list nat).    (* in the loop over its requests *)
Record MinMaxChecker := mkChecker {
  requests : list failoverReq;                  (* that were ever made: pointers are positions *)
  failoverRequests : gmap CloudletKey nat;
  checks : list check;                          (* calls of [CheckApp] that run *)
  calls : list (list nat);                      (* create workers, with their requests *)
  answering : list nat;                         (* goroutines that wait to answer *)
  answers : list (nat * AutoProvInfo);          (* that they sent *)
  direct : list AutoProvInfo;                   (* sent when there was nothing to check *)
}.
Definition newMinMaxChecker : MinMaxChecker := mkChecker [] ∅ [] [] [] [] [].

(** *** Requests *)
Definition add_apps (apps : gset AppKey) (r : failoverReq) : failoverReq :=
  mkReq (info r) (apps ∪ appsToCheck r) (waitApiCalls r) (apps ∪ asked r) (checked r).
Definition addCompleted (msg : string) (r : failoverReq) : failoverReq :=
  mkReq (mkInfo (info_Key (info r)) (info_MaintenanceState (info r)) (Completed (info r) ++ [msg])
    (info_Errors (info r))) (appsToCheck r) (waitApiCalls r) (asked r) (checked r).
Definition addError (err : string) (r : failoverReq) : failoverReq :=
  mkReq (mkInfo (info_Key (info r)) (info_MaintenanceState (info r)) (Completed (info r))
    (info_Errors (info r) ++ [err])) (appsToCheck r) (waitApiCalls r) (asked r) (checked r).
Definition wait_Add (n : nat) (r : failoverReq) : failoverReq :=
  mkReq (info r) (appsToCheck r) (waitApiCalls r + n) (asked r) (checked r).
Definition wait_Done (r : failoverReq) : failoverReq :=
  mkReq (info r) (appsToCheck r) (waitApiCalls r - 1) (asked r) (checked r).
(** Whether all apps have been processed. *)
Definition appDone (key : AppKey) (r : failoverReq) : failoverReq * bool :=
  if decide (key ∈ appsToCheck r) then
    let apps := appsToCheck r ∖ {[key]} in
    (mkReq (info r) apps (waitApiCalls r) (asked r) ({[key]} ∪ checked r), bool_decide (size apps = 0))
  else (mkReq (info r) (appsToCheck r) (waitApiCalls r) (asked r) ({[key]} ∪ checked r), false).

Definition upd_all (f : failoverReq → failoverReq) (ids : list nat) (l : list failoverReq) : list failoverReq :=
  foldr (λ id l, alter f id l) l ids.
Definition set_requests (l : list failoverReq) (s : MinMaxChecker) : MinMaxChecker :=
  mkChecker l (failoverRequests s) (checks s) (calls s) (answering s) (answers s) (direct s).

Definition done_info (key : CloudletKey) : AutoProvInfo := mkInfo key FAILOVER_DONE [] [].
Definition handleFailoverReq (key : CloudletKey) (ms : MaintenanceState) (apps : gset AppKey)
    (s : MinMaxChecker) : MinMaxChecker :=
  if decide (ms ≠ FAILOVER_REQUESTED) then s
  else if decide (size apps = 0) then
    mkChecker (requests s) (failoverRequests s) (checks s) (calls s) (answering s) (answers s)
      (direct s ++ [done_info key])
  else
    match failoverRequests s !! key with
    | None =>
        mkChecker (requests s ++ [mkReq (mkInfo key NORMAL_OPERATION [] []) apps 0 apps ∅])
          (<[key := length (requests s)]> (failoverRequests s)) (checks s) (calls s) (answering s)
          (answers s) (direct s)
    | Some id => set_requests (alter (add_apps apps) id (requests s)) s
    end.
(** The apps that the cloudlet concerns are asked for only when it goes on or off
    line. *)
Definition UpdatedCloudlet (c : CacheData) (x : Indexes) (old : option Cloudlet) (new : Cloudlet)
    (s : MinMaxChecker) : MinMaxChecker :=
  match old with
  | None => s
  | Some o =>
      if Bool.eqb (AutoProvCloudletOnline o) (AutoProvCloudletOnline new)
      then handleFailoverReq (cl_Key new) (cl_MaintenanceState new) ∅ s
      else handleFailoverReq (cl_Key new) (cl_MaintenanceState new) (cloudletNeedsCheck c x (cl_Key new)) s
  end.

Section Steps.
Context {GR : GoRange}.

(** The requests that need the app. *)
Definition needs_app (app : AppKey) (s : MinMaxChecker) (id : nat) : bool :=
  match requests s !! id with Some r => bool_decide (app ∈ appsToCheck r) | None => false end.
Definition reqs_for (app : AppKey) (s : MinMaxChecker) : list nat :=
  filter (needs_app app s) (go_range (failoverRequests s)).*2.
Definition check_app (c : check) : AppKey := match c with Running a _ | Finishing a _ => a end.
Definition check_ids (c : check) : list nat := match c with Running _ l | Finishing _ l => l end.
Definition answer_state (errs : list string) : MaintenanceState :=
  if decide (length errs = 0) then FAILOVER_DONE else FAILOVER_ERROR.
Definition answer (i : AutoProvInfo) : AutoProvInfo :=
  mkInfo (info_Key i) (answer_state (info_Errors i)) (Completed i) (info_Errors i).

Inductive step (s : MinMaxChecker) : MinMaxChecker → Prop :=
| s_cloudlet c x old new : step s (UpdatedCloudlet c x old new s)
(* one check of an app at a time: [KeyWorkers.one_call_per_key] *)
| s_check app :
    app ∉ check_app <$> checks s →
    step s (mkChecker (requests s) (failoverRequests s) (Running app (reqs_for app s) :: checks s)
      (calls s) (answering s) (answers s) (direct s))
(* a policy: perhaps an error, and workers *)
| s_policy l1 l2 app ids (pl : plan) str :
    checks s = l1 ++ Running app ids :: l2 →
    step s (mkChecker
      (upd_all (wait_Add (workers pl)) ids
        (if not_enough pl then upd_all (addError str) ids (requests s) else requests s))
      (failoverRequests s) (checks s) (replicate (workers pl) ids ++ calls s) (answering s) (answers s)
      (direct s))
| s_checked l1 l2 app ids :
    checks s = l1 ++ Running app ids :: l2 →
    step s (mkChecker (requests s) (failoverRequests s) (l1 ++ Finishing app ids :: l2) (calls s)
      (answering s) (answers s) (direct s))
| s_done l1 l2 app id ids r r' finished :
    checks s = l1 ++ Finishing app (id :: ids) :: l2 →
    requests s !! id = Some r → appDone app r = (r', finished) →
    step s (mkChecker (<[id := r']> (requests s))
      (if finished then delete (info_Key (info r)) (failoverRequests s) else failoverRequests s)
      (l1 ++ Finishing app ids :: l2) (calls s)
      (if finished then id :: answering s else answering s) (answers s) (direct s))
| s_return l1 l2 app :
    checks s = l1 ++ Finishing app [] :: l2 →
    step s (mkChecker (requests s) (failoverRequests s) (l1 ++ l2) (calls s) (answering s) (answers s)
      (direct s))
| s_call_ok ids str : ids ∈ calls s → step s (set_requests (upd_all (addCompleted str) ids (requests s)) s)
| s_call_err ids str : ids ∈ calls s → step s (set_requests (upd_all (addError str) ids (requests s)) s)
| s_call_end l1 ids l2 :
    calls s = l1 ++ ids :: l2 →
    step s (mkChecker (upd_all wait_Done ids (requests s)) (failoverRequests s) (checks s) (l1 ++ l2)
      (answering s) (answers s) (direct s))
| s_answer l1 id l2 r :
    answering s = l1 ++ id :: l2 → requests s !! id = Some r → waitApiCalls r = 0 →
    step s (mkChecker (requests s) (failoverRequests s) (checks s) (calls s) (l1 ++ l2)
      (answers s ++ [(id, answer (info r))]) (direct s)).
Definition reachable (s : MinMaxChecker) : Prop := rtc step newMinMaxChecker s.

(** ** What holds in every state *)

Lemma lookup_upd_all f ids l id :
  NoDup ids →
  upd_all f ids l !! id = if decide (id ∈ ids) then f <$> l !! id else l !! id.
Proof.
  unfold upd_all. induction 1 as [|x ids Hx Hnd IH]; cbn [foldr].
  - by rewrite decide_False by apply not_elem_of_nil.
  - destruct (decide (id = x)) as [->|Hne].
    + rewrite list_lookup_alter_eq, IH, decide_False, decide_True by (done || left). done.
    + rewrite list_lookup_alter_ne, IH by done. apply decide_ext. set_solver.
Qed.

(** The calls that work for a request. *)
Definition calls_of (id : nat) (cs : list (list nat)) : nat := length (filter (λ ids, id ∈ ids) cs).
Lemma calls_of_app id cs1 cs2 : calls_of id (cs1 ++ cs2) = calls_of id cs1 + calls_of id cs2.
Proof. unfold calls_of. by rewrite filter_app, length_app. Qed.
Lemma calls_of_cons id ids cs :
  calls_of id (ids :: cs) = (if decide (id ∈ ids) then 1 else 0) + calls_of id cs.
Proof. unfold calls_of. rewrite filter_cons. by case_decide. Qed.
Lemma calls_of_replicate id n ids :
  calls_of id (replicate n ids) = if decide (id ∈ ids) then n else 0.
Proof.
  induction n as [|n IH]; [by case_decide|]. cbn [replicate]. rewrite calls_of_cons, IH. by case_decide.
Qed.
Lemma calls_of_0 id cs : calls_of id cs = 0 → ∀ ids, ids ∈ cs → id ∉ ids.
Proof.
  unfold calls_of. intros H0%nil_length_inv ids Hin Hid.
  assert (ids ∈ filter (λ ids, id ∈ ids) cs) as Hf by (by apply list_elem_of_filter).
  rewrite H0 in Hf. by apply elem_of_nil in Hf.
Qed.

(** Every app that was asked for is yet to be checked or has been; a request is
    in the table, being answered, or answered. *)
Record req_ok (s : MinMaxChecker) (id : nat) (r : failoverReq) : Prop := {
  ro_apps : asked r ⊆ appsToCheck r ∪ checked r;
  ro_calls : waitApiCalls r = calls_of id (calls s);
  ro_place : (appsToCheck r ≠ ∅ ∧ failoverRequests s !! info_Key (info r) = Some id) ∨
    id ∈ answering s ++ (answers s).*1;
}.
Record inv (s : MinMaxChecker) : Prop := {
  i_req id r : requests s !! id = Some r → req_ok s id r;
  i_table key id : failoverRequests s !! key = Some id →
    ∃ r, requests s !! id = Some r ∧ info_Key (info r) = key ∧ appsToCheck r ≠ ∅;
  i_checks : NoDup (check_app <$> checks s);
  i_held c : c ∈ checks s → NoDup (check_ids c) ∧ ∀ id, id ∈ check_ids c →
    ∃ r, requests s !! id = Some r ∧ check_app c ∈ appsToCheck r;
  i_calls ids : ids ∈ calls s → NoDup ids ∧ ∀ id, id ∈ ids → is_Some (requests s !! id);
  i_once : NoDup (answering s ++ (answers s).*1);
  i_out id : id ∈ answering s ++ (answers s).*1 → ∃ r, requests s !! id = Some r ∧ appsToCheck r = ∅;
  i_answers id i : (id, i) ∈ answers s →
    ∃ r, requests s !! id = Some r ∧ i = answer (info r) ∧ waitApiCalls r = 0;
}.
Lemma failover_inv_init : inv newMinMaxChecker.
Proof. split; simpl; try done; try constructor; by intros; set_solver. Qed.

(** *** Steps that leave the apps of the requests *)

Definition req_sim (r r' : failoverReq) : Prop :=
  info_Key (info r') = info_Key (info r) ∧ appsToCheck r' = appsToCheck r ∧
  asked r' = asked r ∧ checked r' = checked r.
Definition reqs_sim (l l' : list failoverReq) : Prop :=
  ∀ id, option_Forall2 req_sim (l !! id) (l' !! id).
Lemma addCompleted_sim str r : req_sim r (addCompleted str r).
Proof. by repeat split. Qed.
Lemma addError_sim str r : req_sim r (addError str r).
Proof. by repeat split. Qed.
Lemma wait_Add_sim n r : req_sim r (wait_Add n r).
Proof. by repeat split. Qed.
Lemma wait_Done_sim r : req_sim r (wait_Done r).
Proof. by repeat split. Qed.
Lemma reqs_sim_refl l : reqs_sim l l.
Proof. intros id. destruct (l !! id); constructor. by split_and!. Qed.
Lemma upd_sim f ids l : (∀ r, req_sim r (f r)) → NoDup ids → reqs_sim l (upd_all f ids l).
Proof.
  intros Hf Hnd id. rewrite lookup_upd_all by done.
  destruct (decide (id ∈ ids)); destruct (l !! id); constructor; [done|by split_and!].
Qed.
Lemma reqs_sim_trans l1 l2 l3 : reqs_sim l1 l2 → reqs_sim l2 l3 → reqs_sim l1 l3.
Proof.
  intros H1 H2 id. specialize (H1 id). specialize (H2 id).
  destruct H1 as [x y (?&?&?&?)|]; inversion H2 as [? z (?&?&?&?)|]; subst; constructor.
  split_and!; congruence.
Qed.
Lemma reqs_sim_r l l' id r' : reqs_sim l l' → l' !! id = Some r' → ∃ r, l !! id = Some r ∧ req_sim r r'.
Proof. intros H Hr. specialize (H id). rewrite Hr in H. inversion H as [r ? Hs|]; subst. by exists r. Qed.
Lemma reqs_sim_l l l' id r : reqs_sim l l' → l !! id = Some r → ∃ r', l' !! id = Some r' ∧ req_sim r r'.
Proof. intros H Hr. specialize (H id). rewrite Hr in H. inversion H as [? r' Hs|]; subst. by exists r'. Qed.

Lemma inv_frame s s' :
  inv s → reqs_sim (requests s) (requests s') → failoverRequests s' = failoverRequests s →
  answering s' = answering s → answers s' = answers s →
  NoDup (check_app <$> checks s') →
  (∀ c, c ∈ checks s' → ∃ c0, c0 ∈ checks s ∧ check_app c = check_app c0 ∧ check_ids c = check_ids c0) →
  (∀ ids, ids ∈ calls s' → NoDup ids ∧ ∀ id, id ∈ ids → is_Some (requests s !! id)) →
  (∀ id r, requests s' !! id = Some r → waitApiCalls r = calls_of id (calls s')) →
  (∀ id, id ∈ (answers s).*1 → requests s' !! id = requests s !! id) → inv s'.
Proof.
  intros [I1 I2 I3 I4 I5 I6 I7 I8] Hsim Htab Haing Hans Hnd Hheld Hcalls Hwait Hkeep.
  split; rewrite ?Htab, ?Haing, ?Hans; try done.
  - intros id r' Hr'. destruct (reqs_sim_r _ _ _ _ Hsim Hr') as (r & Hr & H1 & H2 & H3 & H4).
    split; rewrite ?Htab, ?Haing, ?Hans, ?H1, ?H2, ?H3, ?H4; [|by apply Hwait|];
      by apply (I1 id r Hr).
  - intros key id Hk. destruct (I2 key id Hk) as (r & Hr & <- & Hne).
    destruct (reqs_sim_l _ _ _ _ Hsim Hr) as (r' & Hr' & H1 & H2 & _). exists r'.
    by rewrite H1, H2.
  - intros c Hc. destruct (Hheld c Hc) as (c0 & Hc0 & -> & ->). destruct (I4 c0 Hc0) as [? Hh].
    split; [done|]. intros id Hid. destruct (Hh id Hid) as (r & Hr & Hin).
    destruct (reqs_sim_l _ _ _ _ Hsim Hr) as (r' & Hr' & _ & H2 & _). exists r'. by rewrite H2.
  - intros ids Hids. destruct (Hcalls ids Hids) as [? Hs]. split; [done|]. intros id Hid.
    destruct (Hs id Hid) as [r Hr]. destruct (reqs_sim_l _ _ _ _ Hsim Hr) as (r' & Hr' & _). by exists r'.
  - intros id Hid. destruct (I7 id Hid) as (r & Hr & Hin).
    destruct (reqs_sim_l _ _ _ _ Hsim Hr) as (r' & Hr' & _ & H2 & _). exists r'. by rewrite H2.
  - intros id i Hid. rewrite Hkeep by (apply list_elem_of_fmap; by exists (id, i)). eauto.
Qed.

(** What an answered request is not in. *)
Lemma answered_free s id :
  inv s → id ∈ (answers s).*1 →
  (∀ c, c ∈ checks s → id ∉ check_ids c) ∧ (∀ ids, ids ∈ calls s → id ∉ ids) ∧
  (∀ key, failoverRequests s !! key ≠ Some id).
Proof.
  intros [I1 I2 I3 I4 I5 I6 I7 I8] Hid.
  destruct (I7 id) as (r & Hr & Hempty); [apply elem_of_app; by right|].
  apply list_elem_of_fmap in Hid as ([id' i] & -> & Hin). simpl in *. split_and!.
  - intros c Hc Hi. destruct (I4 c Hc) as [_ Hh]. destruct (Hh _ Hi) as (r' & Hr' & Hin').
    assert (r' = r) as -> by congruence. rewrite Hempty in Hin'. set_solver.
  - destruct (I8 _ _ Hin) as (r' & Hr' & _ & Hw). apply calls_of_0.
    by rewrite <- (ro_calls _ _ _ (I1 _ _ Hr')).
  - intros key Hk. destruct (I2 _ _ Hk) as (r' & Hr' & _ & Hne).
    assert (r' = r) as -> by congruence. done.
Qed.
Lemma upd_other f ids l id : NoDup ids → id ∉ ids → upd_all f ids l !! id = l !! id.
Proof. intros Hnd Hid. rewrite lookup_upd_all by done. by rewrite decide_False. Qed.
Lemma upd_waits f ids l id r n :
  NoDup ids → (∀ r, waitApiCalls (f r) = n (waitApiCalls r)) → upd_all f ids l !! id = Some r →
  ∃ r0, l !! id = Some r0 ∧ waitApiCalls r = if decide (id ∈ ids) then n (waitApiCalls r0) else waitApiCalls r0.
Proof.
  intros Hnd Hf. rewrite lookup_upd_all by done. case_decide; [|by exists r].
  destruct (l !! id) as [r0|]; [|done]. intros [= <-]. by exists r0.
Qed.

Lemma inv_set f s ids :
  inv s → (∀ r, req_sim r (f r)) → (∀ r, waitApiCalls (f r) = waitApiCalls r) → ids ∈ calls s →
  inv (set_requests (upd_all f ids (requests s)) s).
Proof.
  intros I Hf Hw Hids. destruct (i_calls s I ids Hids) as [Hnd _].
  apply (inv_frame s); try done; simpl.
  - by apply upd_sim.
  - apply (i_checks s I).
  - by intros c Hc; exists c.
  - apply (i_calls s I).
  - intros id r Hr. destruct (upd_waits _ _ _ _ _ (λ n, n) Hnd Hw Hr) as (r0 & Hr0 & ->).
    rewrite <- (ro_calls _ _ _ (i_req s I _ _ Hr0)). by case_decide.
  - intros id Hid. apply upd_other; [done|]. by apply (answered_free s id I Hid).
Qed.
Lemma mid_elem {A} (l : list A) l1 x l2 : l = l1 ++ x :: l2 → x ∈ l.
Proof. intros ->. apply elem_of_app. by right; left. Qed.
Lemma inv_policy s l1 l2 app ids n (b : bool) str :
  inv s → checks s = l1 ++ Running app ids :: l2 →
  inv (mkChecker
    (upd_all (wait_Add n) ids (if b then upd_all (addError str) ids (requests s) else requests s))
    (failoverRequests s) (checks s) (replicate n ids ++ calls s) (answering s) (answers s) (direct s)).
Proof.
  intros I Hc. pose proof (mid_elem _ _ _ _ Hc) as Hin.
  destruct (i_held s I _ Hin) as [Hnd Hh]. cbn [check_ids] in Hnd, Hh.
  set (l := if b then upd_all (addError str) ids (requests s) else requests s).
  assert (reqs_sim (requests s) l) as Hsim
    by (destruct b; [apply upd_sim; [apply addError_sim|done]|apply reqs_sim_refl]).
  assert (∀ id r, l !! id = Some r → waitApiCalls r = calls_of id (calls s)) as Hw.
  { intros id r Hr. destruct b; [|by apply (ro_calls _ _ _ (i_req s I _ _ Hr))].
    destruct (upd_waits (addError str) ids (requests s) id r (λ n, n) Hnd (λ _, eq_refl) Hr) as (r0 & Hr0 & ->).
    rewrite <- (ro_calls _ _ _ (i_req s I _ _ Hr0)). by case_decide. }
  apply (inv_frame s); try done; simpl.
  - eapply reqs_sim_trans; [exact Hsim|]. apply upd_sim; [apply wait_Add_sim|done].
  - apply (i_checks s I).
  - by intros c ?; exists c.
  - intros ids' [[-> _]%elem_of_replicate|Hids]%elem_of_app; [|by apply (i_calls s I)].
    split; [done|]. intros id Hid. destruct (Hh id Hid) as (r & Hr & _). by exists r.
  - intros id r Hr.
    destruct (upd_waits (wait_Add n) ids l id r (λ m, m + n) Hnd (λ _, eq_refl) Hr) as (r0 & Hr0 & ->).
    rewrite calls_of_app, calls_of_replicate, (Hw id r0 Hr0). case_decide; lia.
  - intros id Hid. pose proof (proj1 (answered_free s id I Hid) _ Hin) as Hno. cbn [check_ids] in Hno.
    rewrite upd_other by done. unfold l. destruct b; [by apply upd_other|done].
Qed.
Lemma inv_call_end s l1 ids l2 :
  inv s → calls s = l1 ++ ids :: l2 →
  inv (mkChecker (upd_all wait_Done ids (requests s)) (failoverRequests s) (checks s) (l1 ++ l2)
    (answering s) (answers s) (direct s)).
Proof.
  intros I Hc. pose proof (mid_elem _ _ _ _ Hc) as Hin.
  destruct (i_calls s I _ Hin) as [Hnd _]. apply (inv_frame s); try done; simpl.
  - apply upd_sim; [apply wait_Done_sim|done].
  - apply (i_checks s I).
  - by intros c ?; exists c.
  - intros ids' Hids. apply (i_calls s I). rewrite Hc. set_solver.
  - intros id r Hr.
    destruct (upd_waits wait_Done ids _ id r (λ m, m - 1) Hnd (λ _, eq_refl) Hr) as (r0 & Hr0 & ->).
    rewrite (ro_calls _ _ _ (i_req s I _ _ Hr0)), Hc, !calls_of_app, calls_of_cons. case_decide; lia.
  - intros id Hid. apply upd_other; [done|]. by apply (answered_free s id I Hid).
Qed.

(** *** Checks *)
Lemma inv_checks s cs :
  inv s → NoDup (check_app <$> cs) →
  (∀ c, c ∈ cs → ∃ c0, c0 ∈ checks s ∧ check_app c = check_app c0 ∧ check_ids c = check_ids c0) →
  inv (mkChecker (requests s) (failoverRequests s) cs (calls s) (answering s) (answers s) (direct s)).
Proof.
  intros I Hnd Hc. apply (inv_frame s); try done; simpl; [apply reqs_sim_refl|apply (i_calls s I)|].
  intros id r Hr. apply (ro_calls _ _ _ (i_req s I _ _ Hr)).
Qed.
Lemma inv_checked s l1 l2 app ids :
  inv s → checks s = l1 ++ Running app ids :: l2 →
  inv (mkChecker (requests s) (failoverRequests s) (l1 ++ Finishing app ids :: l2) (calls s)
      (answering s) (answers s) (direct s)).
Proof.
  intros I Hc. apply inv_checks; [done| |].
  - pose proof (i_checks s I) as Hnd. rewrite Hc, fmap_app in Hnd. by rewrite fmap_app.
  - rewrite Hc. intros c [Hin|[->|Hin]%elem_of_cons]%elem_of_app.
    1, 3: exists c; split; [set_solver|done].
    exists (Running app ids). split; [set_solver|done].
Qed.
Lemma inv_return s l1 l2 app :
  inv s → checks s = l1 ++ Finishing app [] :: l2 →
  inv (mkChecker (requests s) (failoverRequests s) (l1 ++ l2) (calls s) (answering s) (answers s)
      (direct s)).
Proof.
  intros I Hc. apply inv_checks; [done| |].
  - pose proof (i_checks s I) as Hnd. rewrite Hc, fmap_app in Hnd. rewrite fmap_app.
    apply list.NoDup_app in Hnd as (H1 & H2 & H3). inversion_clear H3.
    apply list.NoDup_app. split_and!; [done| |done]. intros x Hx Hx'. apply (H2 x Hx). by right.
  - rewrite Hc. intros c Hin. exists c. split; [set_solver|done].
Qed.
Lemma reqs_for_spec s app :
  inv s → NoDup (reqs_for app s) ∧ ∀ id, id ∈ reqs_for app s →
    ∃ r, requests s !! id = Some r ∧ app ∈ appsToCheck r.
Proof.
  intros I. split.
  - apply list.NoDup_filter, NoDup_fmap_2_strong; [|apply (NoDup_fmap_1 fst), NoDup_go_range].
    intros [k1 id] [k2 id2] H1%elem_of_go_range H2%elem_of_go_range Heq. simpl in *. subst id2.
    destruct (i_table s I _ _ H1) as (r1 & Hr1 & <- & _), (i_table s I _ _ H2) as (r2 & Hr2 & <- & _).
    by replace r2 with r1 by congruence.
  - intros id [Hn _]%list_elem_of_filter. unfold needs_app in Hn.
    destruct (requests s !! id) as [r|] eqn:Hr; [|done]. exists r. split; [done|].
    by apply (bool_decide_unpack _).
Qed.
Lemma inv_check s app :
  inv s → app ∉ check_app <$> checks s →
  inv (mkChecker (requests s) (failoverRequests s) (Running app (reqs_for app s) :: checks s)
      (calls s) (answering s) (answers s) (direct s)).
Proof.
  intros I Happ. pose proof I as [I1 I2 I3 I4 I5 I6 I7 I8]. split; try done.
  - intros id r Hr. by destruct (I1 id r Hr).
  - cbn. by constructor.
  - simpl. intros c [->|Hc]%elem_of_cons; [|by apply I4]. by apply reqs_for_spec.
Qed.
Lemma inv_answer s l1 id l2 r :
  inv s → answering s = l1 ++ id :: l2 → requests s !! id = Some r → waitApiCalls r = 0 →
  inv (mkChecker (requests s) (failoverRequests s) (checks s) (calls s) (l1 ++ l2)
      (answers s ++ [(id, answer (info r))]) (direct s)).
Proof.
  intros [I1 I2 I3 I4 I5 I6 I7 I8] Ha Hr Hw.
  assert ((l1 ++ l2) ++ (answers s ++ [(id, answer (info r))]).*1 ≡ₚ answering s ++ (answers s).*1) as Hperm.
  { rewrite Ha, fmap_app, <- !app_assoc. cbn. solve_Permutation. }
  split; simpl; try done.
  - intros id' r' Hr'. destruct (I1 _ _ Hr') as [? ? Hp]. split; try done. simpl. by rewrite Hperm.
  - by rewrite Hperm.
  - intros id'. rewrite Hperm. apply I7.
  - intros id' i [Hin|[= -> ->]%list_elem_of_singleton]%elem_of_app; [by apply I8|].
    by exists r.
Qed.

(** *** Requests *)
Lemma inv_new_request s key apps :
  inv s → failoverRequests s !! key = None → apps ≠ ∅ →
  inv (mkChecker (requests s ++ [mkReq (mkInfo key NORMAL_OPERATION [] []) apps 0 apps ∅])
        (<[key := length (requests s)]> (failoverRequests s)) (checks s) (calls s) (answering s)
        (answers s) (direct s)).
Proof.
  intros [I1 I2 I3 I4 I5 I6 I7 I8] Hk Happs.
  set (r0 := mkReq (mkInfo key NORMAL_OPERATION [] []) apps 0 apps ∅).
  assert (∀ id r, requests s !! id = Some r → (requests s ++ [r0]) !! id = Some r) as Hold
    by (intros id r Hr; by apply lookup_app_l_Some).
  split; simpl; try done.
  - intros id r [Hr|[Hlen Hr]]%lookup_app_Some.
    { destruct (I1 _ _ Hr) as [? ? Hp]. split; try done. simpl. destruct Hp as [[? Ht]|?]; [left|by right].
      split; [done|]. rewrite lookup_insert_ne; [done|]. congruence. }
    apply list_lookup_singleton_Some in Hr as [Hid <-].
    assert (id = length (requests s)) as -> by lia.
    split; simpl; [set_solver| |left; split; [done|by rewrite lookup_insert_eq]].
    unfold calls_of. rewrite filter_none; [done|]. apply Forall_forall. intros ids Hids Hin.
    destruct (proj2 (I5 ids Hids) _ Hin) as [r Hr%lookup_lt_Some]. lia.
  - intros k id [[<- <-]|[Hne Hin]]%lookup_insert_Some.
    + exists r0. split; [|done]. by apply list_lookup_middle.
    + destruct (I2 _ _ Hin) as (r & Hr & ? & ?). eauto.
  - intros c Hc. destruct (I4 c Hc) as [? Hh]. split; [done|]. intros id Hid.
    destruct (Hh id Hid) as (r & Hr & ?). eauto.
  - intros ids Hids. destruct (I5 ids Hids) as [? Hs]. split; [done|]. intros id Hid.
    destruct (Hs id Hid) as [r Hr]. eauto.
  - intros id Hid. destruct (I7 id Hid) as (r & Hr & ?). eauto.
  - intros id i Hin. destruct (I8 id i Hin) as (r & Hr & ?). eauto.
Qed.
(** One request changes: what has to hold of the new one. *)
Lemma inv_one s id r r' tab cs ans :
  inv s → requests s !! id = Some r → waitApiCalls r' = waitApiCalls r → id ∉ (answers s).*1 →
  asked r' ⊆ appsToCheck r' ∪ checked r' →
  (∀ key id', tab !! key = Some id' → failoverRequests s !! key = Some id' ∧
    (id' = id → info_Key (info r') = key ∧ appsToCheck r' ≠ ∅)) →
  NoDup (check_app <$> cs) →
  (∀ c, c ∈ cs → NoDup (check_ids c) ∧ ∃ c0, c0 ∈ checks s ∧ check_app c = check_app c0 ∧
    (∀ x, x ∈ check_ids c → x ∈ check_ids c0) ∧ (id ∈ check_ids c → check_app c ∈ appsToCheck r')) →
  NoDup (ans ++ (answers s).*1) → (∀ x, x ∈ ans → x ∈ answering s ∨ x = id) →
  (id ∈ ans → appsToCheck r' = ∅) →
  (∀ x key, failoverRequests s !! key = Some x → x ≠ id → tab !! key = Some x) →
  (∀ x, x ∈ answering s → x ∈ ans) →
  (appsToCheck r' ≠ ∅ ∧ tab !! info_Key (info r') = Some id) ∨ id ∈ ans →
  inv (mkChecker (<[id := r']> (requests s)) tab cs (calls s) ans (answers s) (direct s)).
Proof.
  intros [I1 I2 I3 I4 I5 I6 I7 I8] Hr Hw Hno Happs Htab Hnd Hcs Hndans Hans Hempty Hkeep Hans' Hplace.
  assert (∀ x rx, requests s !! x = Some rx → x ≠ id → <[id := r']> (requests s) !! x = Some rx) as Hold
    by (intros x rx Hx Hne; by rewrite list_lookup_insert_ne).
  assert (<[id := r']> (requests s) !! id = Some r') as Hnew
    by (apply list_lookup_insert_eq; by eapply lookup_lt_Some).
  split; simpl; try done.
  - intros x rx Hx. destruct (decide (x = id)) as [->|Hne].
    + rewrite Hnew in Hx. injection Hx as <-. destruct (I1 _ _ Hr). split; simpl; [done|congruence|].
      destruct Hplace; [by left|right; apply elem_of_app; by left].
    + rewrite list_lookup_insert_ne in Hx by done. destruct (I1 _ _ Hx) as [? ? Hp]. split; try done.
      simpl. destruct Hp as [[? ?]|[?|?]%elem_of_app]; [left|right|right].
      * split; [done|by apply Hkeep].
      * apply elem_of_app; left; auto.
      * apply elem_of_app; by right.
  - intros key x Hx. destruct (Htab _ _ Hx) as [Hin Hif]. destruct (decide (x = id)) as [->|Hne].
    + exists r'. by destruct (Hif eq_refl).
    + destruct (I2 _ _ Hin) as (rx & ? & ? & ?). eauto.
  - intros c Hc. destruct (Hcs c Hc) as (Hndc & c0 & Hc0 & -> & Hsub & Hif). split; [done|].
    intros x Hx. destruct (decide (x = id)) as [->|Hne]; [exists r'; auto|].
    destruct (I4 c0 Hc0) as [_ Hh]. destruct (Hh x (Hsub x Hx)) as (rx & ? & ?). eauto.
  - intros ids Hids. destruct (I5 ids Hids) as [? Hs]. split; [done|]. intros x Hx.
    destruct (decide (x = id)) as [->|Hne]; [by exists r'|]. destruct (Hs x Hx) as [rx ?]. eauto.
  - intros x Hx. destruct (decide (x = id)) as [->|Hne].
    + exists r'. split; [done|]. apply elem_of_app in Hx as [Hx|Hx]; [by apply Hempty|done].
    + destruct (I7 x) as (rx & ? & ?); [|by eauto]. apply elem_of_app in Hx as [Hx|Hx].
      * apply elem_of_app. left. by destruct (Hans x Hx).
      * apply elem_of_app. by right.
  - intros x i Hx. assert (x ≠ id) as Hne
      by (intros ->; apply Hno, list_elem_of_fmap; by exists (id, i)).
    destruct (I8 x i Hx) as (rx & ? & ?). eauto.
Qed.

Lemma alter_insert (f : failoverReq → failoverReq) id (l : list failoverReq) r :
  l !! id = Some r → alter f id l = <[id := f r]> l.
Proof.
  intros Hr. apply list_eq. intros j. destruct (decide (j = id)) as [->|Hj].
  - rewrite list_lookup_alter_eq, list_lookup_insert_eq, Hr by (by eapply lookup_lt_Some). done.
  - by rewrite list_lookup_alter_ne, list_lookup_insert_ne.
Qed.
Lemma inv_handle s key ms apps : inv s → inv (handleFailoverReq key ms apps s).
Proof.
  intros I. unfold handleFailoverReq. case_decide; [done|]. case_decide as Hsize.
  { destruct I as [I1 I2 I3 I4 I5 I6 I7 I8]. split; simpl; try done.
    intros id r Hr. by destruct (I1 id r Hr). }
  assert (apps ≠ ∅) as Hne by (intros ->; apply Hsize; apply size_empty).
  destruct (failoverRequests s !! key) as [id|] eqn:Hk; [|by apply inv_new_request].
  destruct (i_table s I _ _ Hk) as (r & Hr & Hkey & Happs).
  unfold set_requests. rewrite (alter_insert _ _ _ r) by done.
  apply (inv_one s id r); try done.
  - intros Hin. by apply (answered_free s id I Hin) in Hk.
  - cbn. pose proof (ro_apps _ _ _ (i_req s I _ _ Hr)). set_solver.
  - intros k id' Hin. split; [done|]. intros ->. destruct (i_table s I _ _ Hin) as (r' & Hr' & <- & _).
    assert (r' = r) as -> by congruence. split; [done|]. cbn. set_solver.
  - apply (i_checks s I).
  - intros c Hc. destruct (i_held s I c Hc) as [? Hh]. split; [done|]. exists c.
    split_and!; try done. intros Hid. destruct (Hh id Hid) as (r' & Hr' & ?).
    assert (r' = r) as -> by congruence. cbn. set_solver.
  - apply (i_once s I).
  - intros x ?. by left.
  - intros Hin. destruct (i_out s I id) as (r' & Hr' & He); [apply elem_of_app; by left|].
    by assert (r' = r) as -> by congruence.
  - left. split; [cbn; set_solver|]. cbn. by rewrite Hkey.
Qed.
Lemma inv_cloudlet s c x old new : inv s → inv (UpdatedCloudlet c x old new s).
Proof.
  intros I. unfold UpdatedCloudlet. destruct old as [o|]; [|done].
  destruct (Bool.eqb _ _); by apply inv_handle.
Qed.
Lemma inv_done s l1 l2 app id ids r r' (finished : bool) :
  inv s → checks s = l1 ++ Finishing app (id :: ids) :: l2 →
  requests s !! id = Some r → appDone app r = (r', finished) →
  inv (mkChecker (<[id := r']> (requests s))
      (if finished then delete (info_Key (info r)) (failoverRequests s) else failoverRequests s)
      (l1 ++ Finishing app ids :: l2) (calls s)
      (if finished then id :: answering s else answering s) (answers s) (direct s)).
Proof.
  intros I Hc Hr Hdone. pose proof (mid_elem _ _ _ _ Hc) as Hin.
  destruct (i_held s I _ Hin) as [Hnd Hh]. cbn [check_ids check_app] in Hnd, Hh.
  destruct (Hh id) as (r0 & Hr0 & Happ); [by left|]. assert (r0 = r) as -> by congruence.
  unfold appDone in Hdone. rewrite decide_True in Hdone by done. injection Hdone as <- Hfin.
  set (apps := appsToCheck r ∖ {[app]}).
  assert (finished = true ↔ apps = ∅) as Hf
    by (rewrite <- Hfin, bool_decide_eq_true, size_empty_iff; apply leibniz_equiv_iff).
  assert (id ∉ answering s ++ (answers s).*1) as Hno.
  { intros Hout. destruct (i_out s I id Hout) as (r1 & Hr1 & He).
    assert (r1 = r) as -> by congruence. rewrite He in Happ. set_solver. }
  destruct (ro_place _ _ _ (i_req s I _ _ Hr)) as [Htab|?]; [|done].
  pose proof (i_checks s I) as Hndc. rewrite Hc, fmap_app in Hndc.
  apply (inv_one s id r); try done.
  - set_solver.
  - cbn. pose proof (ro_apps _ _ _ (i_req s I _ _ Hr)).
    intros x [Hx|Hx]%H%elem_of_union; [|set_solver].
    destruct (decide (x = app)) as [->|]; set_solver.
  - intros key id' Hk.
    assert (failoverRequests s !! key = Some id' ∧ (finished = true → key ≠ info_Key (info r))) as [Hk' Hne].
    { destruct finished; [|done]. by apply lookup_delete_Some in Hk as [? ?]. }
    split; [done|]. intros ->. destruct (i_table s I _ _ Hk') as (r1 & Hr1 & <- & _).
    assert (r1 = r) as -> by congruence. split; [done|]. cbn. rewrite <- Hf. intros Ht. by apply Hne.
  - by rewrite fmap_app.
  - intros c [Hcc|[->|Hcc]%elem_of_cons]%elem_of_app.
    1, 3: assert (check_app c ≠ app) as Hca by (apply list.NoDup_app in Hndc as (_ & Hd & Hd2);
      inversion_clear Hd2; intros <-; (eapply Hd; [by apply list_elem_of_fmap_2|by left]) ||
      set_solver); assert (c ∈ checks s) as Hcs by (rewrite Hc; set_solver);
      destruct (i_held s I c Hcs) as [? Hhc]; (split; [done|]); exists c; (split_and!; try done);
      intros Hid; destruct (Hhc id Hid) as (r1 & Hr1 & ?); assert (r1 = r) as -> by congruence;
      cbn; set_solver.
    inversion_clear Hnd. split; [done|]. eexists. split; [exact Hin|]. split_and!; [done|set_solver|done].
  - destruct finished; [|apply (i_once s I)]. cbn. constructor; [done|apply (i_once s I)].
  - intros x Hx. destruct finished; [|by left]. apply elem_of_cons in Hx as [->|?]; [by right|by left].
  - intros Hx. destruct finished; [by apply Hf|]. set_solver.
  - intros x key Hk Hxid. destruct finished; [|done]. rewrite lookup_delete_ne; [done|].
    destruct Htab as [_ Htab]. congruence.
  - intros x Hx. destruct finished; [by right|done].
  - destruct finished; [right; by left|left]. split; [|apply Htab].
    intros He%Hf. done.
Qed.

Lemma failover_inv_step s s' : inv s → step s s' → inv s'.
Proof.
  intros I. destruct 1.
  - by apply inv_cloudlet.
  - by apply inv_check.
  - by apply (inv_policy s l1 l2 app).
  - by eapply inv_checked.
  - by apply (inv_done s l1 l2 app id ids r).
  - by eapply inv_return.
  - apply inv_set; [done|apply addCompleted_sim|done|done].
  - apply inv_set; [done|apply addError_sim|done|done].
  - by eapply inv_call_end.
  - by eapply inv_answer.
Qed.
Lemma inv_reachable s : reachable s → inv s.
Proof.
  unfold reachable. intros Hr. pose proof failover_inv_init as I. induction Hr as [|s1 s2 s3 Hstep _ IH]; [done|].
  by apply IH, (failover_inv_step s1).
Qed.

(** ** Answers *)

(** C10: every request that was made is in the table of its cloudlet with apps
    to check, about to be answered, or answered, and is answered at most once.
    When it has been answered, the check of each app that it ever asked for has
    ended, nothing that could add to it is still running, and the answer is all
    that was reported, FAILOVER_DONE exactly when there was no error. *)
Theorem failover_reply_complete s :
  reachable s →
  NoDup (answers s).*1 ∧
  (∀ id r, requests s !! id = Some r →
    (appsToCheck r ≠ ∅ ∧ failoverRequests s !! info_Key (info r) = Some id) ∨
    id ∈ answering s ∨ id ∈ (answers s).*1) ∧
  ∀ id i, (id, i) ∈ answers s →
    ∃ r, requests s !! id = Some r ∧ asked r ⊆ checked r ∧
      (∀ c, c ∈ checks s → id ∉ check_ids c) ∧ (∀ ids, ids ∈ calls s → id ∉ ids) ∧
      info_Key i = info_Key (info r) ∧ Completed i = Completed (info r) ∧
      info_Errors i = info_Errors (info r) ∧
      info_MaintenanceState i = (if decide (info_Errors i = []) then FAILOVER_DONE else FAILOVER_ERROR).
Proof.
  intros I%inv_reachable. split; [|split].
  - pose proof (i_once s I) as Hnd. by apply list.NoDup_app in Hnd as (_ & _ & ?).
  - intros id r Hr. destruct (ro_place _ _ _ (i_req s I _ _ Hr)) as [?|?%elem_of_app]; tauto.
  - intros id i Hin. destruct (i_answers s I _ _ Hin) as (r & Hr & -> & _). exists r.
    assert (id ∈ (answers s).*1) as Hid
      by (apply list_elem_of_fmap; by exists (id, answer (info r))).
    destruct (answered_free s id I Hid) as (Hc & Hcall & _).
    destruct (i_out s I id) as (r' & Hr' & He); [apply elem_of_app; by right|].
    assert (r' = r) as -> by congruence.
    pose proof (ro_apps _ _ _ (i_req s I _ _ Hr)) as Happs. rewrite He in Happs.
    split_and!; try done; [set_solver|]. cbn. unfold answer_state. apply decide_ext.
    by destruct (info_Errors (info r)).
Qed.
End Steps.

(** *** Runs *)
Module FailoverWitness.
Import AutoProvWitness.
#[local] Existing Instances canonical_range stable_sort.
Definition cl (ms : MaintenanceState) : Cloudlet := mkCloudlet (ck "a") "a" ms.
Definition caches1 : CacheData :=
  mkCaches (LookupIdx.changes app_Key GetAutoProvPolicys [LookupIdx.Put app]).1 ∅ ∅
  (LookupIdx.changes ap_Key GetZoneKeys [LookupIdx.Put p]).1
  {[ck "a" := cl NORMAL_OPERATION]} ∅ FreeClusters_Init.
Definition idx1 : Indexes := mkIndexes (LookupIdx.changes app_Key GetAutoProvPolicys [LookupIdx.Put app]).2
  (LookupIdx.changes ap_Key GetZoneKeys [LookupIdx.Put p]).2 ∅.
Lemma idx_apps : LookupIdx.index_ok GetAutoProvPolicys (appCache caches1) (appsByPolicy idx1).
Proof. apply (LookupIdx.changes_ok app_Key GetAutoProvPolicys [LookupIdx.Put app]). Qed.
Lemma idx_policies : LookupIdx.index_ok GetZoneKeys (autoProvPolicyCache caches1) (policiesByZone idx1).
Proof. apply (LookupIdx.changes_ok ap_Key GetZoneKeys [LookupIdx.Put p]). Qed.
Lemma cloudletNeedsCheck_exact_witness :
  ak ∈ cloudletNeedsCheck caches1 idx1 (ck "a").
Proof.
  assert (cloudletCache caches1 !! ck "a" = Some (cl NORMAL_OPERATION)) as Hcl by (vm_compute; reflexivity).
  pose proof (cloudletNeedsCheck_exact caches1 idx1 (ck "a") _ ak idx_apps idx_policies Hcl) as [_ Hiff].
  apply Hiff. left. exists app, (ap_Key p), p.
  split; [vm_compute; reflexivity|]. split; [apply (bool_decide_unpack _); vm_compute; exact I|].
  split; [vm_compute; reflexivity|]. apply (bool_decide_unpack _); vm_compute; exact I.
Defined.

(** A request for one app; its check starts one create, which succeeds. *)
Definition s1 : MinMaxChecker :=
  UpdatedCloudlet caches1 idx1 (Some (cl NORMAL_OPERATION)) (cl FAILOVER_REQUESTED) newMinMaxChecker.
Definition with_checks (cs : list check) (s : MinMaxChecker) : MinMaxChecker :=
  mkChecker (requests s) (failoverRequests s) cs (calls s) (answering s) (answers s) (direct s).
Definition s2 : MinMaxChecker := with_checks (Running ak (reqs_for ak s1) :: checks s1) s1.
Definition pl : plan := mkPlan [] [mkSite (z "b") false] 1 false.
Definition s3 : MinMaxChecker := mkChecker (upd_all (wait_Add 1) [0] (requests s2)) (failoverRequests s2)
  (checks s2) (replicate 1 [0] ++ calls s2) (answering s2) (answers s2) (direct s2).
Definition s4 : MinMaxChecker := with_checks ([] ++ Finishing ak [0] :: []) s3.
Definition s5 : MinMaxChecker := set_requests (upd_all (addCompleted "Created") [0] (requests s4)) s4.
Definition r5 : failoverReq := default (mkReq (mkInfo (ck "") NORMAL_OPERATION [] []) ∅ 0 ∅ ∅) (requests s5 !! 0).
Definition s6 : MinMaxChecker := mkChecker (<[0 := (appDone ak r5).1]> (requests s5))
  (delete (info_Key (info r5)) (failoverRequests s5)) ([] ++ Finishing ak [] :: []) (calls s5)
  (0 :: answering s5) (answers s5) (direct s5).
Definition s7 : MinMaxChecker := mkChecker (upd_all wait_Done [0] (requests s6)) (failoverRequests s6)
  (checks s6) ([] ++ []) (answering s6) (answers s6) (direct s6).
Definition r7 : failoverReq := default r5 (requests s7 !! 0).
Definition s8 : MinMaxChecker := mkChecker (requests s7) (failoverRequests s7) (checks s7) (calls s7)
  ([] ++ []) (answers s7 ++ [(0, answer (info r7))]) (direct s7).
Lemma s1_s4 : rtc step s1 s4.
Proof.
  apply (rtc_l _ _ s2); [apply s_check; apply (bool_decide_unpack _); vm_compute; exact I|].
  assert (checks s2 = [] ++ Running ak [0] :: []) as H2 by (vm_compute; reflexivity).
  apply (rtc_l _ _ s3); [exact (s_policy s2 [] [] ak [0] pl "" H2)|].
  assert (checks s3 = [] ++ Running ak [0] :: []) as H3 by exact H2.
  apply (rtc_l _ _ s4); [exact (s_checked s3 [] [] ak [0] H3)|]. apply rtc_refl.
Qed.
Lemma s4_s8 : rtc step s4 s8.
Proof.
  assert ([0] ∈ calls s4) as H4 by (apply (bool_decide_unpack _); vm_compute; exact I).
  apply (rtc_l _ _ s5); [exact (s_call_ok s4 [0] "Created" H4)|].
  assert (requests s5 !! 0 = Some r5) as H5 by (vm_compute; reflexivity).
  assert (appDone ak r5 = ((appDone ak r5).1, true)) as Hd by (vm_compute; reflexivity).
  apply (rtc_l _ _ s6); [exact (s_done s5 [] [] ak 0 [] r5 _ true eq_refl H5 Hd)|].
  apply (rtc_l _ _ s7); [exact (s_call_end s6 [] [0] [] eq_refl)|].
  assert (requests s7 !! 0 = Some r7) as H7 by (vm_compute; reflexivity).
  assert (waitApiCalls r7 = 0) as Hw by (vm_compute; reflexivity).
  apply (rtc_l _ _ s8); [exact (s_answer s7 [] 0 [] r7 eq_refl H7 Hw)|]. apply rtc_refl.
Qed.
Lemma failover_reply_complete_witness :
  reachable s8 ∧ answers s8 = [(0, mkInfo (ck "a") FAILOVER_DONE ["Created"] [])] ∧ NoDup (answers s8).*1.
Proof.
  assert (reachable s8) as Hr.
  { apply (rtc_l _ _ s1); [apply s_cloudlet|]. etransitivity; [exact s1_s4|exact s4_s8]. }
  split; [exact Hr|]. split; [vm_compute; reflexivity|].
  exact (proj1 (failover_reply_complete s8 Hr)).
Defined.
(** Another update of the cloudlet while its request is in progress, with no
    change of its online state, is answered FAILOVER_DONE at once. *)
Lemma failover_done_early :
  let s := UpdatedCloudlet caches1 idx1 (Some (cl FAILOVER_REQUESTED)) (cl FAILOVER_REQUESTED) s2 in
  reachable s ∧ direct s = [mkInfo (ck "a") FAILOVER_DONE [] []] ∧
  (appsToCheck <$> requests s) = [{[ak]}] ∧ checks s = [Running ak [0]].
Proof.
  cbv zeta. split.
  - apply (rtc_l _ _ s1); [apply s_cloudlet|].
    apply (rtc_l _ _ s2); [apply s_check; apply (bool_decide_unpack _); vm_compute; exact I|].
    apply rtc_once, s_cloudlet.
  - split_and!; [vm_compute; reflexivity| |vm_compute; reflexivity].
    apply (bool_decide_unpack _). vm_compute. exact I.
Qed.
End FailoverWitness.
