(* ===== verification/Maint.v ===== *)
(** * Maintenance of a cloudlet (controller/cloudlet_api.go,
    cloudletinfo_api.go, autoprovinfo_api.go, crmutil/controller-data.go)

    An update of a cloudlet that starts or ends its maintenance: the controller
    asks auto-provisioning to move the apps away ([Failover]), then the resource
    manager, and waits for their answers.  [exec] is one step of the calls, the
    resource manager, the service or the messages between them; each of
    them sees the cloudlet as it is when it looks, and may miss what was in between.
    When the connection of the service is set up again the cloudlet is sent to it
    once more ([EAutoResent]).  [mt_step P] interleaves the steps that [P] allows.
    [maintenance_acknowledged], [maintenance_ends]: what a call with MAINTENANCE_START
    guarantees that runs alone on a cloudlet at rest and does not leave out the
    resource manager; [exit_retry_stuck]: a failed end of the
    maintenance can be repeated only by a call that does leave it out.

    A wait that ends reads the answer that ended it. *)

From S2P Require Export Prelude GoStd Enums.
From S2P Require Import ZoneObjs.
From S2P Require Failover.

(** ** State *)

(** Where a call of [UpdateCloudlet] is. *)
Inductive place :=
| Check (new : MaintenanceState)       (* the first transaction *)
| SetInit | WaitNormal | SetNormal     (* the end of the maintenance *)
| ResetProv | SetFailover | WaitFailover | UndoFailover
| SetCRM | WaitCRM | UndoCRM | SetMaint
| Failing (err : error)                (* the deferred transaction *)
| Returned (err : option error).
(** A call, and whether it leaves out the resource manager. *)
Record call := mkCall { ignoreCRMState : bool; at_ : place }.
Record mstate := mkM {
  m_maint : MaintenanceState;              (* of the cloudlet, in the store *)
  m_State : TrackedState;
  m_info : MaintenanceState;               (* of its info in the controller *)
  m_prov : Failover.AutoProvInfo;          (* in the cache of the controller *)
  m_crm : MaintenanceState;                (* the cloudlet in the CRM on the edge *)
  m_crm_out : list MaintenanceState;       (* infos that its goroutines send *)
  m_auto : MaintenanceState * TrackedState; (* the cloudlet in the service *)
  m_asked : nat;                           (* requests that the service works on *)
  m_auto_out : list Failover.AutoProvInfo; (* answers that it sends *)
  m_calls : list call;
}.
Definition set_maint (st : MaintenanceState) (s : mstate) : mstate :=
  mkM st (m_State s) (m_info s) (m_prov s) (m_crm s) (m_crm_out s) (m_auto s) (m_asked s) (m_auto_out s) (m_calls s).
Definition set_State (st : TrackedState) (s : mstate) : mstate :=
  mkM (m_maint s) st (m_info s) (m_prov s) (m_crm s) (m_crm_out s) (m_auto s) (m_asked s) (m_auto_out s) (m_calls s).
Definition set_info (st : MaintenanceState) (s : mstate) : mstate :=
  mkM (m_maint s) (m_State s) st (m_prov s) (m_crm s) (m_crm_out s) (m_auto s) (m_asked s) (m_auto_out s) (m_calls s).
Definition set_prov (i : Failover.AutoProvInfo) (s : mstate) : mstate :=
  mkM (m_maint s) (m_State s) (m_info s) i (m_crm s) (m_crm_out s) (m_auto s) (m_asked s) (m_auto_out s) (m_calls s).
Definition set_crm (st : MaintenanceState) (out : list MaintenanceState) (s : mstate) : mstate :=
  mkM (m_maint s) (m_State s) (m_info s) (m_prov s) st out (m_auto s) (m_asked s) (m_auto_out s) (m_calls s).
Definition set_auto (st : MaintenanceState * TrackedState) (asked : nat) (out : list Failover.AutoProvInfo) (s : mstate) :
    mstate :=
  mkM (m_maint s) (m_State s) (m_info s) (m_prov s) (m_crm s) (m_crm_out s) st asked out (m_calls s).
Definition set_calls (l : list call) (s : mstate) : mstate :=
  mkM (m_maint s) (m_State s) (m_info s) (m_prov s) (m_crm s) (m_crm_out s) (m_auto s) (m_asked s) (m_auto_out s) l.

Section Maint.
Context (key : CloudletKey) (CrmOnEdge : bool).

(** ** The resource manager (crmutil/controller-data.go) *)

(** What [CloudletChanged] answers to a change of the maintenance state. *)
Definition nextMaintenanceState (new : MaintenanceState) : option MaintenanceState :=
  match new with
  | CRM_REQUESTED => Some CRM_UNDER_MAINTENANCE
  | NORMAL_OPERATION_INIT => Some NORMAL_OPERATION
  | _ => None
  end.

(** ** Calls (cloudlet_api.go) *)

(** What happens outside in a step: the end of the call to a resource manager
    off the edge, the end of a message to the client, the end of the time. *)
Record outcome := mkOutcome { rpc : option error; sent : option error; timeout : bool }.

Definition setMaintenanceState (state : MaintenanceState) (o : outcome) (s : mstate) : mstate * option error :=
  if decide (m_maint s = state) then (s, None)
  else
    let s := set_maint state s in
    match nextMaintenanceState state with
    | Some next =>
        if CrmOnEdge then (s, None)
        else match rpc o with
        | Some err => (s, Some err)
        | None => (set_info next s, None)
        end
    | None => (s, None)
    end.
(** Sets a state, and goes on or fails. *)
Definition set_then (state : MaintenanceState) (next : place) (o : outcome) (s : mstate) : mstate * place :=
  match setMaintenanceState state o s with
  | (s, Some err) => (s, Failing err)
  | (s, None) => (s, next)
  end.
Definition start_crm (ignore : bool) : place := if ignore then SetMaint else SetCRM.
(** The checks of the first transaction that concern the maintenance, and
    [Cloudlet.Validate]. *)
Definition check_maintenance (ignore : bool) (new old : MaintenanceState) : place :=
  if decide (new ≠ NORMAL_OPERATION ∧ new ≠ MAINTENANCE_START ∧ new ≠ MAINTENANCE_START_NO_FAILOVER) then
    Returned (Some "Invalid maintenance state, only normal operation and maintenance start states are allowed")
  else if decide ((new = MAINTENANCE_START ∨ new = MAINTENANCE_START_NO_FAILOVER) ∧ old ≠ NORMAL_OPERATION) then
    Returned (Some "Cloudlet must be in NormalOperation before starting maintenance")
  else if decide (new = old) then Returned None
  else match new with
  | NORMAL_OPERATION => if ignore then SetNormal else SetInit
  | MAINTENANCE_START => ResetProv
  | _ => start_crm ignore
  end.
(** [waitForMaintenanceState] of both infos. *)
Definition wait_for (what : string) (cur target err : MaintenanceState) (o : outcome) (next : place) : option place :=
  if decide (cur = target ∨ cur = err) then Some next
  else if timeout o then Some (Failing ("timed out waiting for " +:+ what +:+ " maintenance state")) else None.
Definition reset_info : Failover.AutoProvInfo := Failover.mkInfo key NORMAL_OPERATION [] [].

Definition call_step (o : outcome) (ignore : bool) (p : place) (s : mstate) : option (mstate * place) :=
  match p with
  | Check new => Some (s, check_maintenance ignore new (m_maint s))
  | SetInit => Some (set_then NORMAL_OPERATION_INIT WaitNormal o s)
  | WaitNormal =>
      p' ← wait_for "CloudletInfo" (m_info s) NORMAL_OPERATION CRM_ERROR o
             (if decide (m_info s = CRM_ERROR) then Failing "CRM encountered some errors, aborting" else SetNormal);
      Some (s, p')
  | SetNormal => Some (set_then NORMAL_OPERATION (Returned None) o s)
  | ResetProv =>
      match sent o with
      | Some err => Some (s, Failing err)
      | None => Some (set_prov reset_info s, SetFailover)
      end
  | SetFailover => Some (set_then FAILOVER_REQUESTED WaitFailover o s)
  | WaitFailover =>
      p' ← wait_for "AutoProvInfo" (Failover.info_MaintenanceState (m_prov s)) FAILOVER_DONE FAILOVER_ERROR o
             (match sent o, Failover.Completed (m_prov s) ++ Failover.info_Errors (m_prov s) with
              | Some err, _ :: _ => Failing err
              | _, _ =>
                  if decide (0 < length (Failover.info_Errors (m_prov s))) then UndoFailover else start_crm ignore
              end);
      Some (s, p')
  | UndoFailover =>
      Some ((setMaintenanceState NORMAL_OPERATION o s).1,
            Failing "AutoProv failover encountered some errors, aborting maintenance")
  | SetCRM => Some (set_then CRM_REQUESTED WaitCRM o s)
  | WaitCRM =>
      p' ← wait_for "CloudletInfo" (m_info s) CRM_UNDER_MAINTENANCE CRM_ERROR o
             (if decide (m_info s = CRM_ERROR) then UndoCRM else SetMaint);
      Some (s, p')
  | UndoCRM =>
      Some ((setMaintenanceState NORMAL_OPERATION o s).1, Failing "CRM encountered some errors, aborting maintenance")
  | SetMaint => Some (set_then UNDER_MAINTENANCE (Returned None) o s)
  | Failing err => Some (set_State UPDATE_ERROR s, Returned (Some err))
  | Returned _ => None
  end.

(** ** Steps *)

(** What the service makes of the cloudlet ([Failover.UpdatedCloudlet]): a
    request when the cloudlet goes off line, and else an answer at once.  The work
    on a request is in [Failover]; here it ends at any time with any messages. *)
Definition auto_sees (s : mstate) : mstate :=
  let cur := (m_maint s, m_State s) in
  if decide (m_maint s ≠ FAILOVER_REQUESTED) then set_auto cur (m_asked s) (m_auto_out s) s
  else if decide ((m_auto s).1 = NORMAL_OPERATION) then set_auto cur (S (m_asked s)) (m_auto_out s) s
  else set_auto cur (m_asked s) (m_auto_out s ++ [Failover.done_info key]) s.

Inductive event :=
| ECall (j : nat) (o : outcome)                          (* the [j]-th call *)
| ECrmSees | ECrmSends (j : nat)                         (* the CRM on the edge *)
| EAutoSees | EAutoAnswers (completed errors : list string) | EAutoSends (j : nat)
| EAutoResent                                            (* after a new connection *)
| ENew (ignore : bool) (new : MaintenanceState).         (* a new call *)
Definition exec (e : event) (s : mstate) : option mstate :=
  match e with
  | ECall j o =>
      c ← m_calls s !! j;
      '(s', p) ← call_step o (ignoreCRMState c) (at_ c) s;
      Some (set_calls (<[j := mkCall (ignoreCRMState c) p]> (m_calls s)) s')
  | ECrmSees =>
      if decide (CrmOnEdge = true ∧ m_crm s ≠ m_maint s) then
        Some (set_crm (m_maint s) (m_crm_out s ++ option_list (nextMaintenanceState (m_maint s))) s)
      else None
  | ECrmSends j => x ← m_crm_out s !! j; Some (set_info x (set_crm (m_crm s) (delete j (m_crm_out s)) s))
  | EAutoSees => if decide (m_auto s ≠ (m_maint s, m_State s)) then Some (auto_sees s) else None
  | EAutoResent => Some (auto_sees s)
  | EAutoAnswers completed errors =>
      match m_asked s with
      | S n =>
          Some (set_auto (m_auto s) n
            (m_auto_out s ++ [Failover.answer (Failover.mkInfo key NORMAL_OPERATION completed errors)]) s)
      | O => None
      end
  | EAutoSends j => i ← m_auto_out s !! j; Some (set_prov i (set_auto (m_auto s) (m_asked s) (delete j (m_auto_out s)) s))
  | ENew ignore new => Some (set_calls (m_calls s ++ [mkCall ignore (Check new)]) s)
  end.
(** A step that [P] allows. *)
Definition mt_step (P : event → Prop) (s s' : mstate) : Prop := ∃ e, exec e s = Some s' ∧ P e.
(** No new calls; with the outcomes that are allowed, and with or without new
    connections of the service. *)
Definition own_event (ok : outcome → Prop) (resent : bool) (e : event) : Prop :=
  match e with ECall _ o => ok o | ENew _ _ => False | EAutoResent => resent = true | _ => True end.
Definition mt_own (ok : outcome → Prop) (resent : bool) : mstate → mstate → Prop := mt_step (own_event ok resent).
Definition any (o : outcome) : Prop := True.
Definition smooth (o : outcome) : Prop := o = mkOutcome None None false.
(** Every new call asks the resource manager. *)
Definition no_override (e : event) : Prop := match e with ENew ignore _ => ignore = false | _ => True end.
(** A call that runs alone. *)
Definition alone (ignore : bool) (p : place) (s : mstate) : Prop := m_calls s = [mkCall ignore p].
(** Nothing is under way, and all have seen the cloudlet. *)
Record at_rest (st : MaintenanceState) (info : MaintenanceState) (s : mstate) : Prop := {
  ar_maint : m_maint s = st;
  ar_info : m_info s = info;
  ar_crm : m_crm s = st;
  ar_crm_out : m_crm_out s = [];
  ar_auto : m_auto s = (st, m_State s);
  ar_asked : m_asked s = 0;
  ar_auto_out : m_auto_out s = [];
}.

(** ** Every run of the calls that are there comes to an end *)

Definition rank (p : place) : nat :=
  match p with
  | Check _ => 13 | ResetProv => 12 | SetFailover => 11 | WaitFailover => 10 | UndoFailover => 9
  | SetCRM => 8 | WaitCRM => 7 | UndoCRM => 6 | SetMaint => 5
  | SetInit => 4 | WaitNormal => 3 | SetNormal => 2 | Failing _ => 1 | Returned _ => 0
  end.
Definition ranks (l : list call) : nat := sum_list_with (rank ∘ at_) l.
Definition work (s : mstate) : nat :=
  20 * ranks (m_calls s) + (if decide (m_crm s = m_maint s) then 0 else 3) + length (m_crm_out s) +
  (if decide (m_auto s = (m_maint s, m_State s)) then 0 else 6) + 3 * m_asked s + length (m_auto_out s).

Lemma set_then_frame st next o s :
  ∃ s' p, set_then st next o s = (s', p) ∧ (p = next ∨ ∃ err, p = Failing err) ∧
    m_crm s' = m_crm s ∧ m_crm_out s' = m_crm_out s ∧ m_auto s' = m_auto s ∧ m_asked s' = m_asked s ∧
    m_auto_out s' = m_auto_out s ∧ m_calls s' = m_calls s.
Proof.
  unfold set_then, setMaintenanceState. case_decide; [by do 2 eexists; split_and!; auto|].
  destruct (nextMaintenanceState st), CrmOnEdge; [|destruct (rpc o)|..]; do 2 eexists; split_and!; eauto.
Qed.
(** A step of a call goes on, and leaves the messages. *)
Lemma call_step_frame o ign p s s' p' :
  call_step o ign p s = Some (s', p') →
  rank p' < rank p ∧ m_crm s' = m_crm s ∧ m_crm_out s' = m_crm_out s ∧ m_auto s' = m_auto s ∧ m_asked s' = m_asked s ∧
  m_auto_out s' = m_auto_out s ∧ m_calls s' = m_calls s.
Proof.
  assert (∀ st next, rank next < rank p → 1 < rank p → Some (set_then st next o s) = Some (s', p') →
    rank p' < rank p ∧ m_crm s' = m_crm s ∧ m_crm_out s' = m_crm_out s ∧ m_auto s' = m_auto s ∧ m_asked s' = m_asked s ∧
    m_auto_out s' = m_auto_out s ∧ m_calls s' = m_calls s) as Hset.
  { intros st next Hn H1 Hs. destruct (set_then_frame st next o s) as (x & q & Hx & Hq & Hf). rewrite Hx in Hs.
    injection Hs as <- <-. split; [|done]. destruct Hq as [->|[err ->]]; [done|exact H1]. }
  assert (∀ w cur t e next p1, wait_for w cur t e o next = Some p1 → rank next < rank p → 1 < rank p → rank p1 < rank p) as Hwait.
  { intros w cur t e next p1 Hw Hn H1. unfold wait_for in Hw. case_decide; [by injection Hw as <-|].
    destruct (timeout o); [|done]. by injection Hw as <-. }
  destruct p; simpl; intros Hs; try (apply Hset in Hs; [done|simpl; lia..]).
  - injection Hs as <- <-. split; [|done]. unfold check_maintenance, start_crm. repeat case_decide; simpl; try lia.
    destruct new, ign; simpl; lia.
  - destruct (wait_for _ _ _ _ _ _) as [q|] eqn:Hw; [|done]. injection Hs as <- <-. split; [|done].
    apply Hwait in Hw; [done| |simpl; lia]. case_decide; simpl; lia.
  - destruct (sent o); injection Hs as <- <-; (split; [simpl; lia|done]).
  - destruct (wait_for _ _ _ _ _ _) as [q|] eqn:Hw; [|done]. injection Hs as <- <-. split; [|done].
    apply Hwait in Hw; [done| |simpl; lia]. unfold start_crm. repeat case_match; simpl; lia.
  - injection Hs as <- <-. split; [simpl; lia|]. unfold setMaintenanceState. by case_decide.
  - destruct (wait_for _ _ _ _ _ _) as [q|] eqn:Hw; [|done]. injection Hs as <- <-. split; [|done].
    apply Hwait in Hw; [done| |simpl; lia]. case_decide; simpl; lia.
  - injection Hs as <- <-. split; [simpl; lia|]. unfold setMaintenanceState. by case_decide.
  - injection Hs as <- <-. split; [simpl; lia|done].
  - done.
Qed.
Lemma ranks_insert l j c p :
  l !! j = Some c → ranks (<[j := mkCall (ignoreCRMState c) p]> l) + rank (at_ c) = ranks l + rank p.
Proof.
  unfold ranks. revert j. induction l as [|x l IH]; intros [|j] Hj; simplify_eq/=; [lia|].
  specialize (IH j Hj). lia.
Qed.
Lemma mt_own_work ok s s' : mt_own ok false s s' → work s' < work s.
Proof.
  intros (e & He & Hok). destruct e as [j o| |j| |cs es|j| |ig new]; simpl in He; [| | | | | |done..].
  - destruct (m_calls s !! j) as [c|] eqn:Hj; [|done]. simpl in He.
    destruct (call_step o (ignoreCRMState c) (at_ c) s) as [[s1 p]|] eqn:Hc; [|done]. injection He as <-.
    apply call_step_frame in Hc as (Hr & H1 & H2 & H3 & H4 & H5 & _). apply ranks_insert with (p := p) in Hj.
    unfold work. simpl. rewrite H1, H2, H3, H4, H5.
    destruct (decide (m_crm s = m_maint s1)), (decide (m_crm s = m_maint s)),
      (decide (m_auto s = (m_maint s1, m_State s1))), (decide (m_auto s = (m_maint s, m_State s))); lia.
  - case_decide as Hd; [|done]. injection He as <-. unfold work. simpl. rewrite (decide_False (P := m_crm s = m_maint s)) by tauto.
    rewrite decide_True, length_app by done. destruct (nextMaintenanceState (m_maint s)); simpl; lia.
  - destruct (m_crm_out s !! j) as [x|] eqn:Hj; [|done]. injection He as <-. unfold work. simpl.
    rewrite (Permutation_length (delete_Permutation _ _ _ Hj)). simpl. lia.
  - case_decide as Hd; [|done]. injection He as <-. unfold work, auto_sees.
    rewrite (decide_False (P := m_auto s = _)) by done.
    destruct (decide (m_maint s ≠ FAILOVER_REQUESTED)); [|destruct (decide ((m_auto s).1 = NORMAL_OPERATION))]; simpl;
      rewrite (decide_True (P := (m_maint s, m_State s) = _)), ?length_app by done; simpl; lia.
  - destruct (m_asked s) as [|n] eqn:Hn; [done|]. injection He as <-. unfold work. simpl. rewrite Hn, length_app. simpl. lia.
  - destruct (m_auto_out s !! j) as [x|] eqn:Hj; [|done]. injection He as <-. unfold work. simpl.
    rewrite (Permutation_length (delete_Permutation _ _ _ Hj)). simpl. lia.
Qed.
Lemma mt_own_end ok s : sn (mt_own ok false) s.
Proof.
  remember (work s) as n eqn:Hn. revert s Hn. induction (lt_wf n) as [n _ IH]. intros s ->. constructor. intros s' Hs.
  by eapply IH; [eapply mt_own_work|].
Qed.

(** ** The start of the maintenance *)

Section Start.
(** The outcomes allowed; whether the cloudlet is sent to the service again; when
    [calm], messages arrive, no wait runs out and the connection stays. *)
Context (ok : outcome → Prop) (resent calm : bool).
Hypothesis calm_ok : calm = true → ∀ o, ok o → smooth o.
Hypothesis calm_once : calm = true → resent = false.

Definition is_answer (i : Failover.AutoProvInfo) : Prop :=
  ∃ completed errors, i = Failover.answer (Failover.mkInfo key NORMAL_OPERATION completed errors).
(** The service before the request, while it works on it, and after its answer. *)
Definition idle (s : mstate) : Prop := m_asked s = 0 ∧ m_auto_out s = [] ∧ m_auto s = (NORMAL_OPERATION, m_State s).
Definition asking (s : mstate) : Prop :=
  (Failover.info_MaintenanceState (m_prov s) = NORMAL_OPERATION ∧
     (idle s ∨ (m_auto s = (FAILOVER_REQUESTED, m_State s) ∧
        ((m_asked s = 1 ∧ m_auto_out s = []) ∨ (m_asked s = 0 ∧ ∃ i, m_auto_out s = [i] ∧ is_answer i))))) ∨
  (m_auto s = (FAILOVER_REQUESTED, m_State s) ∧ m_asked s = 0 ∧ m_auto_out s = [] ∧ is_answer (m_prov s)).
Definition answered (s : mstate) : Prop :=
  m_asked s = 0 ∧ m_auto_out s = [] ∧ is_answer (m_prov s) ∧ Failover.info_Errors (m_prov s) = [].
Definition failed (s : mstate) : Prop :=
  m_asked s = 0 ∧ m_auto_out s = [] ∧ Failover.info_Errors (m_prov s) ≠ [].
(** The resource manager likewise. *)
Definition crm_idle (s : mstate) : Prop := m_crm_out s = [] ∧ m_info s = NORMAL_OPERATION ∧ m_crm s ≠ CRM_REQUESTED.
Definition crm_done (s : mstate) : Prop :=
  m_crm_out s = [] ∧ m_info s = CRM_UNDER_MAINTENANCE ∧
  (CrmOnEdge = true → m_crm s = CRM_REQUESTED ∨ m_crm s = m_maint s).
Definition crm_asked (s : mstate) : Prop :=
  (CrmOnEdge = true ∧ m_info s = NORMAL_OPERATION ∧
     ((m_crm s ≠ CRM_REQUESTED ∧ m_crm_out s = []) ∨
      (m_crm s = CRM_REQUESTED ∧ m_crm_out s = [CRM_UNDER_MAINTENANCE]))) ∨ crm_done s.
Definition aborted (s : mstate) : Prop :=
  m_maint s ≠ UNDER_MAINTENANCE ∧ (calm = true → m_maint s = NORMAL_OPERATION ∧ failed s).
(** What holds when the call is at a place; of the service only when the
    cloudlet is not sent to it again. *)
Definition once (P : mstate → Prop) (s : mstate) : Prop := resent = false → P s.
Definition good (p : place) (s : mstate) : Prop :=
  match p with
  | Check MAINTENANCE_START | ResetProv => m_maint s = NORMAL_OPERATION ∧ once idle s ∧ crm_idle s
  | SetFailover =>
      m_maint s = NORMAL_OPERATION ∧
      once (λ s, idle s ∧ Failover.info_MaintenanceState (m_prov s) = NORMAL_OPERATION) s ∧ crm_idle s
  | WaitFailover => m_maint s = FAILOVER_REQUESTED ∧ once asking s ∧ crm_idle s
  | UndoFailover =>
      m_maint s = FAILOVER_REQUESTED ∧ once (λ s, m_auto s = (FAILOVER_REQUESTED, m_State s) ∧ failed s) s
  | SetCRM =>
      m_maint s = FAILOVER_REQUESTED ∧ once (λ s, m_auto s = (FAILOVER_REQUESTED, m_State s) ∧ answered s) s ∧ crm_idle s
  | WaitCRM => m_maint s = CRM_REQUESTED ∧ once answered s ∧ crm_asked s
  | SetMaint => m_maint s = CRM_REQUESTED ∧ once answered s ∧ crm_done s
  | Returned None => m_maint s = UNDER_MAINTENANCE ∧ once answered s ∧ crm_done s
  | Failing _ => aborted s
  | Returned (Some _) => aborted s ∧ m_State s = UPDATE_ERROR
  | _ => False
  end.

(** *** Steps of the others *)

Lemma crm_sees_done s :
  m_maint s = CRM_REQUESTED ∨ m_maint s = UNDER_MAINTENANCE → CrmOnEdge = true → m_crm s ≠ m_maint s → crm_done s →
  crm_done (set_crm (m_maint s) (m_crm_out s ++ option_list (nextMaintenanceState (m_maint s))) s).
Proof.
  intros Hm He Hne (Ho & Hi & Hc). destruct (Hc He) as [Hr|Hr]; [|done]. destruct Hm as [Hm|Hm]; [congruence|].
  split_and!; simpl; [by rewrite Hm, Ho|done|by right].
Qed.
Lemma crm_sees_idle s :
  m_maint s = NORMAL_OPERATION ∨ m_maint s = FAILOVER_REQUESTED → crm_idle s →
  crm_idle (set_crm (m_maint s) (m_crm_out s ++ option_list (nextMaintenanceState (m_maint s))) s).
Proof. intros Hm (Ho & Hi & Hc). unfold crm_idle. simpl. by destruct Hm as [Hm|Hm]; rewrite Hm, Ho. Qed.
Lemma good_crm_sees p s s' : good p s → exec ECrmSees s = Some s' → good p s'.
Proof.
  simpl. intros Hg He. case_decide as Hd; [|done]. destruct Hd as [Hedge Hne]. injection He as <-.
  destruct p as [[]| | | | | | | | | | | |err|[err|]]; try done; simpl in *; try (by destruct Hg as (? & ? & ?); auto using crm_sees_idle).
  - destruct Hg as (Hm & Ha & Hc). split_and!; [done|done|].
    destruct Hc as [(_ & Hi & [[Hr Ho]|[Hr Ho]])|Hc]; [|congruence|right; by apply crm_sees_done; auto].
    left. split_and!; [done|done|]. right. simpl. by rewrite Hm, Ho.
  - destruct Hg as (Hm & Ha & Hc). split_and!; [done|done|]. by apply crm_sees_done; auto.
  - destruct Hg as (Hm & Ha & Hc). split_and!; [done|done|]. by apply crm_sees_done; auto.
Qed.
Lemma good_crm_sends p s s' j : good p s → exec (ECrmSends j) s = Some s' → good p s'.
Proof.
  simpl. intros Hg He. destruct (m_crm_out s !! j) as [x|] eqn:Hj; [|done]. injection He as <-.
  assert (m_crm_out s = [] → False) as Hno by (intros E; by rewrite E in Hj).
  destruct p as [[]| | | | | | | | | | | |err|[err|]]; try done; simpl in *; unfold crm_idle, crm_done in *; try tauto.
  destruct Hg as (Hm & Ha & [(Hedge & Hi & [[Hr Ho]|[Hr Ho]])|(Ho & _)]); [tauto| |tauto].
  split_and!; [done|done|]. right. rewrite Ho in Hj. destruct j as [|j]; [|done]. injection Hj as <-.
  unfold crm_done. simpl. rewrite Ho. simpl. auto.
Qed.
Lemma aborted_auto_sees s : aborted s → aborted (auto_sees s).
Proof.
  intros [Hm Hg]. unfold aborted, auto_sees. destruct (decide (m_maint s ≠ FAILOVER_REQUESTED)) as [Hf|Hf]; [done|].
  split; [by case_decide|]. intros Hcalm. destruct (Hg Hcalm) as [E _]. destruct Hf. by rewrite E.
Qed.
(** What is not said of the service stays. *)
Lemma auto_sees_frame s :
  m_maint (auto_sees s) = m_maint s ∧ m_State (auto_sees s) = m_State s ∧ m_info (auto_sees s) = m_info s ∧
  m_crm (auto_sees s) = m_crm s ∧ m_crm_out (auto_sees s) = m_crm_out s ∧ m_prov (auto_sees s) = m_prov s.
Proof. unfold auto_sees. by repeat case_decide. Qed.
Lemma auto_sees_off s :
  m_maint s ≠ FAILOVER_REQUESTED → auto_sees s = set_auto (m_maint s, m_State s) (m_asked s) (m_auto_out s) s.
Proof. intros Hne. unfold auto_sees. by rewrite decide_True. Qed.
Lemma good_auto_sees p s :
  (resent = false → m_auto s ≠ (m_maint s, m_State s)) → good p s → good p (auto_sees s).
Proof.
  intros Hd Hg. destruct (auto_sees_frame s) as (E1 & E2 & E3 & E4 & E5 & E6).
  destruct p as [[]| | | | | | | | | | | |err|[err|]]; try done; simpl in *; unfold crm_idle, crm_asked, crm_done in *;
    rewrite ?E1, ?E2, ?E3, ?E4, ?E5; try (by apply aborted_auto_sees).
  - destruct Hg as (Hm & Ha & Hc). split_and!; [done|intros Hr|apply Hc..]. destruct (Ha Hr) as (_ & _ & Hau).
    destruct (Hd Hr). congruence.
  - destruct Hg as (Hm & Ha & Hc). split_and!; [done|intros Hr|apply Hc..]. destruct (Ha Hr) as (_ & _ & Hau).
    destruct (Hd Hr). congruence.
  - destruct Hg as (Hm & Ha & Hc). split_and!; [done|intros Hr|apply Hc..]. destruct (Ha Hr) as [(_ & _ & Hau) _].
    destruct (Hd Hr). congruence.
  - destruct Hg as (Hm & Ha & Hc). split_and!; [done|intros Hr|apply Hc..]. specialize (Hd Hr).
    destruct (Ha Hr) as [[Hp [(H1 & H2 & H3)|[Hau _]]]|[Hau _]]; try congruence.
    unfold auto_sees. rewrite decide_False by tauto. rewrite decide_True by (by rewrite H3).
    left. split; [done|]. right. simpl. rewrite Hm, H1, H2. auto.
  - destruct Hg as (Hm & Ha). split; [done|intros Hr]. destruct (Ha Hr) as [Hau _]. destruct (Hd Hr). congruence.
  - destruct Hg as (Hm & Ha & Hc). split_and!; [done|intros Hr|apply Hc..]. destruct (Ha Hr) as [Hau _].
    destruct (Hd Hr). congruence.
  - destruct Hg as (Hm & Ha & Hc). by rewrite auto_sees_off by (by rewrite Hm).
  - destruct Hg as (Hm & Ha & Hc). by rewrite auto_sees_off by (by rewrite Hm).
  - split; [apply aborted_auto_sees|]; apply Hg.
  - destruct Hg as (Hm & Ha & Hc). by rewrite auto_sees_off by (by rewrite Hm).
Qed.
(** A step of the service that touches only what is said of it. *)
Definition service_only (s s' : mstate) : Prop :=
  m_maint s' = m_maint s ∧ m_State s' = m_State s ∧ m_info s' = m_info s ∧ m_crm s' = m_crm s ∧ m_crm_out s' = m_crm_out s.
(** It can come only while the call waits for the answer. *)
Lemma good_service p s s' :
  service_only s s' → (asking s → asking s') → m_asked s ≠ 0 ∨ m_auto_out s ≠ [] → good p s → good p s'.
Proof.
  intros (E1 & E2 & E3 & E4 & E5) Hask Hbusy Hg.
  assert (∀ P : Prop, m_asked s = 0 ∧ m_auto_out s = [] → P) as Hno by (intros P [? ?]; tauto).
  destruct p as [[]| | | | | | | | | | | |err|[err|]]; try done; simpl in *; unfold aborted, crm_idle, crm_asked, crm_done in *;
    rewrite ?E1, ?E2, ?E3, ?E4, ?E5.
  - destruct Hg as (Hm & Ha & Hc). split_and!; [done|intros Hr|apply Hc..]. destruct (Ha Hr) as (? & ? & _). by apply Hno.
  - destruct Hg as (Hm & Ha & Hc). split_and!; [done|intros Hr|apply Hc..]. destruct (Ha Hr) as (? & ? & _). by apply Hno.
  - destruct Hg as (Hm & Ha & Hc). split_and!; [done|intros Hr|apply Hc..]. destruct (Ha Hr) as [(? & ? & _) _]. by apply Hno.
  - destruct Hg as (Hm & Ha & Hc). split_and!; [done|intros Hr; auto|apply Hc..].
  - destruct Hg as (Hm & Ha). split; [done|intros Hr]. destruct (Ha Hr) as (_ & ? & ? & _). by apply Hno.
  - destruct Hg as (Hm & Ha & Hc). split_and!; [done|intros Hr|apply Hc..]. destruct (Ha Hr) as (_ & ? & ? & _). by apply Hno.
  - destruct Hg as (Hm & Ha & Hc). split_and!; [done|intros Hr|done]. destruct (Ha Hr) as (? & ? & _). by apply Hno.
  - destruct Hg as (Hm & Ha & Hc). split_and!; [done|intros Hr|apply Hc..]. destruct (Ha Hr) as (? & ? & _). by apply Hno.
  - destruct Hg as [Hm Hg]. split; [done|]. intros Hcalm. destruct (Hg Hcalm) as (_ & ? & ? & _). by apply Hno.
  - destruct Hg as [[Hm Hg] HS]. split; [|done]. split; [done|]. intros Hcalm. destruct (Hg Hcalm) as (_ & ? & ? & _). by apply Hno.
  - destruct Hg as (Hm & Ha & Hc). split_and!; [done|intros Hr|apply Hc..]. destruct (Ha Hr) as (? & ? & _). by apply Hno.
Qed.
Lemma good_auto_answers p s s' cs es : good p s → exec (EAutoAnswers cs es) s = Some s' → good p s'.
Proof.
  simpl. intros Hg He. destruct (m_asked s) as [|n] eqn:Hn; [done|]. injection He as <-.
  apply (good_service p s); [by split_and!| |left; congruence|done].
  intros [[Hp [(H1 & _)|[Ha [[H1 Ho]|[H1 _]]]]]|(_ & H1 & _)]; try congruence.
  left. split; [done|]. right. split; [done|]. right. simpl. split; [congruence|]. eexists. rewrite Ho. split; [done|].
  by do 2 eexists.
Qed.
Lemma good_auto_sends p s s' j : good p s → exec (EAutoSends j) s = Some s' → good p s'.
Proof.
  simpl. intros Hg He. destruct (m_auto_out s !! j) as [i|] eqn:Hj; [|done]. injection He as <-.
  apply (good_service p s); [by split_and!| |right; intros E; by rewrite E in Hj|done].
  intros [[Hp [(_ & H1 & _)|[Ha [[_ H1]|[H1 (x & Ho & Hx)]]]]]|(_ & _ & H1 & _)]; try (by rewrite H1 in Hj).
  right. rewrite Ho in Hj. destruct j as [|j]; [|done]. injection Hj as <-. simpl. rewrite Ho. auto.
Qed.

(** *** Steps of the call *)

Lemma set_then_plain st next o s :
  m_maint s ≠ st → nextMaintenanceState st = None → set_then st next o s = (set_maint st s, next).
Proof. intros Hne Hn. unfold set_then, setMaintenanceState. by rewrite decide_False, Hn. Qed.
Lemma aborted_calm st s : st ≠ UNDER_MAINTENANCE → m_maint s = st → calm = false → aborted s.
Proof. intros Hne Hm Hc. split; [congruence|]. by rewrite Hc. Qed.
Lemma wait_for_cases w cur t e o next p :
  wait_for w cur t e o next = Some p → ((cur = t ∨ cur = e) ∧ p = next) ∨ (timeout o = true ∧ ∃ err, p = Failing err).
Proof.
  unfold wait_for. case_decide; [intros [= <-]; by left|]. destruct (timeout o); [|done]. intros [= <-]. right. eauto.
Qed.
Lemma not_calm o : ok o → o ≠ mkOutcome None None false → calm = false.
Proof. intros Ho Hne. destruct calm; [|done]. by destruct Hne; apply calm_ok. Qed.
Lemma answered_prov s : asking s → Failover.info_MaintenanceState (m_prov s) ≠ NORMAL_OPERATION →
  m_auto s = (FAILOVER_REQUESTED, m_State s) ∧ m_asked s = 0 ∧ m_auto_out s = [] ∧ is_answer (m_prov s).
Proof. unfold asking. tauto. Qed.

Lemma good_wait_failover o s s' p :
  good WaitFailover s → ok o → call_step o false WaitFailover s = Some (s', p) → good p s'.
Proof.
  intros (Hm & Ha & Hc) Ho He. simpl in He. destruct (wait_for _ _ _ _ _ _) as [q|] eqn:Hw; [|done]. injection He as <- <-.
  apply wait_for_cases in Hw as [[Hst ->]|[Ht [err ->]]].
  - assert (resent = false → m_auto s = (FAILOVER_REQUESTED, m_State s) ∧ m_asked s = 0 ∧ m_auto_out s = [] ∧ is_answer (m_prov s))
      as Hau by (intros Hr; apply answered_prov; [by apply Ha|by destruct Hst as [-> | ->]]).
    assert (sent o = None ∨ calm = false) as Hs.
    { destruct (sent o) eqn:E; [|by left]. right. apply (not_calm o Ho). by intros ->. }
    assert (good (if decide (0 < length (Failover.info_Errors (m_prov s))) then UndoFailover else SetCRM) s) as Hn.
    { case_decide as Hl; simpl; (split; [done|]).
      - intros Hr. destruct (Hau Hr) as (? & ? & ? & _). split; [done|]. split_and!; [done..|].
        intros E. rewrite E in Hl. simpl in Hl. lia.
      - split; [|done]. intros Hr. destruct (Hau Hr) as (? & ? & ? & ?). split; [done|]. split_and!; [done..|].
        destruct (Failover.info_Errors _); [done|simpl in Hl; lia]. }
    destruct (sent o) as [err|]; [|exact Hn]. destruct Hs as [|Hs]; [done|].
    destruct (Failover.Completed (m_prov s) ++ Failover.info_Errors (m_prov s)); [exact Hn|]. by apply (aborted_calm FAILOVER_REQUESTED).
  - apply (aborted_calm FAILOVER_REQUESTED); [done..|]. apply (not_calm o Ho). by intros ->.
Qed.
Lemma good_set_crm o s s' p : good SetCRM s → ok o → call_step o false SetCRM s = Some (s', p) → good p s'.
Proof.
  intros (Hm & Ha & Hc & Hi & Hr) Ho He. simpl in He. unfold set_then, setMaintenanceState in He.
  rewrite decide_False in He by (by rewrite Hm). simpl in He. destruct CrmOnEdge eqn:Hedge.
  - injection He as <- <-. split_and!; [done|intros Hre; by apply Ha|]. left. split_and!; [done|done|]. left. auto.
  - destruct (rpc o) eqn:E; injection He as <- <-.
    + apply (aborted_calm CRM_REQUESTED); [done..|]. apply (not_calm o Ho). by intros ->.
    + split_and!; [done|intros Hre; by apply Ha|]. right. split_and!; try done. by rewrite Hedge.
Qed.
Lemma good_wait_crm o s s' p : good WaitCRM s → ok o → call_step o false WaitCRM s = Some (s', p) → good p s'.
Proof.
  intros (Hm & Ha & Hc) Ho He. simpl in He. destruct (wait_for _ _ _ _ _ _) as [q|] eqn:Hw; [|done]. injection He as <- <-.
  apply wait_for_cases in Hw as [[Hst ->]|[Ht [err ->]]].
  - destruct Hc as [(_ & Hi & _)|Hc]; [destruct Hst; congruence|]. pose proof Hc as (_ & Hi & _). rewrite Hi. by split_and!.
  - apply (aborted_calm CRM_REQUESTED); [done..|]. apply (not_calm o Ho). by intros ->.
Qed.
Lemma good_call o p s s' p' : good p s → ok o → call_step o false p s = Some (s', p') → good p' s'.
Proof.
  intros Hg Ho He. destruct p as [new| | | | | | | | | | | |err|[err|]]; try done.
  - destruct new; try done. destruct Hg as (Hm & Hi & Hc). injection He as <- <-. unfold check_maintenance.
    by rewrite Hm, decide_False, decide_False, decide_False by naive_solver.
  - destruct Hg as (Hm & Hi & Hc). simpl in He. destruct (sent o) eqn:E; injection He as <- <-.
    + apply (aborted_calm NORMAL_OPERATION); [done..|]. apply (not_calm o Ho). by intros ->.
    + split_and!; [done|intros Hr|done]. split; [by apply Hi|done].
  - destruct Hg as (Hm & Hi & Hc). simpl in He. rewrite set_then_plain in He by (done || by rewrite Hm).
    injection He as <- <-. split_and!; [done|intros Hr|done]. destruct (Hi Hr). left. auto.
  - by eapply good_wait_failover.
  - destruct Hg as (Hm & Hf). simpl in He. unfold setMaintenanceState in He. rewrite decide_False in He by (by rewrite Hm).
    injection He as <- <-. split; [done|]. intros Hcalm. split; [done|]. by apply Hf, calm_once.
  - by eapply good_set_crm.
  - by eapply good_wait_crm.
  - destruct Hg as (Hm & Ha & Ho' & Hi & Hc). simpl in He. rewrite set_then_plain in He by (done || by rewrite Hm).
    injection He as <- <-. split_and!; [done|done|]. split_and!; [done|done|]. intros Hedge. left.
    destruct (Hc Hedge) as [|E]; [done|]. simpl. congruence.
  - injection He as <- <-. split; [exact Hg|done].
Qed.

Lemma good_own_step s s' p : alone false p s → good p s → mt_own ok resent s s' → ∃ p', alone false p' s' ∧ good p' s'.
Proof.
  intros Hal Hg (e & He & Hok). unfold alone in *. destruct e as [j o| |j| |cs es|j| |ig new]; [| | | | | | |done].
  - simpl in He. rewrite Hal in He. destruct j as [|j]; [|done]. simpl in He.
    destruct (call_step o false p s) as [[s1 p1]|] eqn:Hc; [|done]. injection He as <-. exists p1. split; [done|].
    change (good p1 s1). by eapply good_call.
  - exists p. split; [|by eapply good_crm_sees]. simpl in He. case_decide; [|done]. by injection He as <-.
  - exists p. split; [|by eapply good_crm_sends]. simpl in He. destruct (m_crm_out s !! j); [|done]. by injection He as <-.
  - exists p. simpl in He. case_decide; [|done]. injection He as <-. split; [|by apply good_auto_sees].
    unfold auto_sees. by repeat case_decide.
  - exists p. split; [|by eapply good_auto_answers]. simpl in He. destruct (m_asked s); [done|]. by injection He as <-.
  - exists p. split; [|by eapply good_auto_sends]. simpl in He. destruct (m_auto_out s !! j); [|done]. by injection He as <-.
  - exists p. injection He as <-. simpl in Hok. split; [|apply good_auto_sees; [congruence|done]].
    unfold auto_sees. by repeat case_decide.
Qed.
Lemma good_run s0 s :
  at_rest NORMAL_OPERATION NORMAL_OPERATION s0 → alone false (Check MAINTENANCE_START) s0 → rtc (mt_own ok resent) s0 s →
  ∃ p, alone false p s ∧ good p s.
Proof.
  intros Hr Hal Hrun. assert (∃ p, alone false p s0 ∧ good p s0) as Hs0.
  { exists (Check MAINTENANCE_START). split; [done|]. destruct Hr as [H1 H2 H3 H4 H5 H6 H7]. split_and!; [done| |].
    - intros _. by split_and!.
    - split_and!; [done|done|]. by rewrite H3. }
  clear Hr Hal. induction Hrun as [|s1 s2 s3 Hstep _ IH]; [done|]. destruct Hs0 as (p & Hal & Hg).
  apply IH. by eapply good_own_step.
Qed.

(** A call that has not returned goes on, or waits for a step of the others. *)
Lemma good_progress p s :
  alone false p s → good p s → resent = false → (∀ o, smooth o → ok o) → (∀ r, p ≠ Returned r) →
  ∃ s', mt_own ok resent s s'.
Proof.
  intros Hal Hg Hre Hsm Hp. set (o := mkOutcome None None false). assert (ok o) as Ho by (by apply Hsm).
  assert (∀ x, call_step o false p s = Some x → ∃ s', mt_own ok resent s s') as Hcall.
  { intros [s1 q] Hc. eexists. exists (ECall 0 o). split; [|exact Ho]. simpl. rewrite Hal. simpl. by rewrite Hc. }
  assert (∀ w cur t e next, cur = t ∨ cur = e → wait_for w cur t e o next = Some next) as Hwait.
  { intros w cur t e next Hc. unfold wait_for. by rewrite decide_True. }
  assert (∀ e s', exec e s = Some s' → match e with ECall _ _ | ENew _ _ | EAutoResent => False | _ => True end → ∃ s', mt_own ok resent s s') as Henv.
  { intros e s' He Hn. exists s', e. split; [done|]. by destruct e. }
  destruct p as [new| | | | | | | | | | | |err|r]; try done; try (by eapply Hcall; simpl; eauto); [| | by destruct (Hp r)].
  - destruct Hg as (Hm & Ha & _).
    destruct (Ha Hre) as [[Hpr [(H1 & H2 & H3)|[Hau [[H1 Ho']|[H1 (x & Ho' & Hx)]]]]]|(_ & _ & _ & (cs & es & Hi))].
    + eapply (Henv EAutoSees); [|done]. simpl. rewrite decide_True; [done|]. rewrite H3, Hm. congruence.
    + eapply (Henv (EAutoAnswers [] [])); [|done]. simpl. by rewrite H1.
    + eapply (Henv (EAutoSends 0)); [|done]. simpl. by rewrite Ho'.
    + eapply Hcall. simpl. rewrite Hwait; [done|]. rewrite Hi. simpl. unfold Failover.answer_state. case_decide; auto.
  - destruct Hg as (Hm & _ & [(Hedge & Hi & [[Hr Ho']|[Hr Ho']])|(_ & Hi & _)]).
    + eapply (Henv ECrmSees); [|done]. simpl. rewrite decide_True; [done|]. split; [done|congruence].
    + eapply (Henv (ECrmSends 0)); [|done]. simpl. by rewrite Ho'.
    + eapply Hcall. simpl. rewrite Hwait; [done|]. by left.
Qed.
End Start.

(** C6: a call with MAINTENANCE_START that does not leave out the resource manager
    (no CRM override), on a cloudlet at rest, while no other call changes it: whenever the
    cloudlet is UNDER_MAINTENANCE, in whatever order the controller, the service and the
    resource manager run, and whatever calls to the resource manager, messages to the
    client and waits fail, the resource manager has confirmed and the call has
    returned success; and, when the cloudlet was not sent to the service again by a
    new connection ([EAutoResent]), auto-provisioning has answered this request without an
    error and works on none.  ([resent_answered_early]: when it was sent again, the
    service may have answered while it still moves the apps.) *)
Theorem maintenance_acknowledged (resent : bool) (s0 s : mstate) :
  at_rest NORMAL_OPERATION NORMAL_OPERATION s0 → alone false (Check MAINTENANCE_START) s0 →
  rtc (mt_own any resent) s0 s → m_maint s = UNDER_MAINTENANCE →
  alone false (Returned None) s ∧ m_info s = CRM_UNDER_MAINTENANCE ∧
  (resent = false → m_asked s = 0 ∧ m_auto_out s = [] ∧
     ∃ completed, m_prov s = Failover.mkInfo key FAILOVER_DONE completed []).
Proof.
  intros Hr Hal Hrun Hm.
  destruct (good_run any resent false ltac:(done) ltac:(done) s0 s Hr Hal Hrun) as (p & Hp & Hg).
  assert (p = Returned None ∧ (resent = false → answered s) ∧ crm_done s) as (-> & Ha & (_ & Hinfo & _)).
  { destruct p as [[]| | | | | | | | | | | |err|[err|]]; try done; simpl in Hg;
      try (by destruct Hg as [E _]; congruence); [by destruct Hg as [[E _] _]|by destruct Hg as (? & ? & ?)]. }
  split_and!; [done..|]. intros Hre. destruct (Ha Hre) as (H1 & H2 & (cs & es & Hi) & He).
  split_and!; [done..|]. exists cs. rewrite Hi in *. simpl in He. by subst es.
Qed.

(** C16: such a call returns: every run of it comes to an end, and when messages
    arrive and the answers come in time, every run that cannot go on ends with the
    cloudlet in maintenance and success, or, exactly when
    auto-provisioning reported errors, with an error and the cloudlet back in normal
    operation (but with the state of a failed update).  The service keeps its
    connection. *)
Theorem maintenance_ends (s0 : mstate) :
  at_rest NORMAL_OPERATION NORMAL_OPERATION s0 → alone false (Check MAINTENANCE_START) s0 →
  sn (mt_own any false) s0 ∧
  ∀ s, rtc (mt_own smooth false) s0 s → nf (mt_own smooth false) s →
    (alone false (Returned None) s ∧ m_maint s = UNDER_MAINTENANCE ∧ Failover.info_Errors (m_prov s) = []) ∨
    (∃ err, alone false (Returned (Some err)) s ∧ m_maint s = NORMAL_OPERATION ∧ m_State s = UPDATE_ERROR ∧
      Failover.info_Errors (m_prov s) ≠ []).
Proof.
  intros Hr Hal. split; [apply mt_own_end|]. intros s Hrun Hnf.
  destruct (good_run smooth false true ltac:(done) ltac:(done) s0 s Hr Hal Hrun) as (p & Hp & Hg).
  assert (∃ r, p = Returned r) as [r ->].
  { destruct p as [| | | | | | | | | | | | |r]; [..|by exists r]; destruct Hnf;
      (eapply (good_progress smooth false true); [exact Hp|exact Hg|done|by intros|by intros]). }
  destruct r as [err|].
  - right. destruct Hg as [[_ Ha] HS]. destruct (Ha eq_refl) as [Hm (_ & _ & He)]. by exists err.
  - left. destruct Hg as (Hm & Ha & _). by destruct (Ha eq_refl) as (_ & _ & _ & He).
Qed.

(** ** The end of the maintenance *)

Definition stuck_place (p : place) : Prop :=
  match p with Check _ | SetInit | WaitNormal | Failing _ | Returned (Some _) => True | _ => False end.
Record stuck (s : mstate) : Prop := {
  sk_maint : m_maint s = NORMAL_OPERATION_INIT;
  sk_info : m_info s = CRM_UNDER_MAINTENANCE;
  sk_out : m_crm_out s = [];
  sk_calls : Forall (λ c, ignoreCRMState c = false ∧ stuck_place (at_ c)) (m_calls s);
}.
Lemma stuck_call o p s s' p' :
  stuck s → stuck_place p → call_step o false p s = Some (s', p') →
  stuck_place p' ∧ m_maint s' = m_maint s ∧ m_info s' = m_info s ∧ m_crm_out s' = m_crm_out s ∧ m_calls s' = m_calls s.
Proof.
  intros [Hm Hi Ho _] Hp He. destruct p as [new| | | | | | | | | | | |err|[err|]]; try done; simpl in He.
  - injection He as <- <-. split; [|done]. rewrite Hm. unfold check_maintenance. repeat case_decide; try done;
      destruct new; naive_solver.
  - unfold set_then, setMaintenanceState in He. rewrite decide_True in He by done. by injection He as <- <-.
  - destruct (wait_for _ _ _ _ _ _) as [q|] eqn:Hw; [|done]. injection He as <- <-. split; [|done].
    apply wait_for_cases in Hw as [[Hc _]|[_ [err ->]]]; [destruct Hc; congruence|done].
  - by injection He as <- <-.
Qed.
Lemma stuck_step s s' : CrmOnEdge = false → stuck s → mt_step no_override s s' → stuck s'.
Proof.
  intros Hedge Hs (e & He & Hown). pose proof Hs as [H1 H2 H3 H4].
  destruct e as [j o| |j| |cs es|j| |ig new]; simpl in He, Hown.
  - destruct (m_calls s !! j) as [[ig p]|] eqn:Hj; [|done]. simpl in He.
    pose proof (Forall_lookup_1 _ _ _ _ H4 Hj) as [Hig Hp]. simpl in Hig, Hp. subst ig.
    destruct (call_step o false p s) as [[s1 q]|] eqn:Hc; [|done]. injection He as <-.
    apply (stuck_call o p s) in Hc as (Hq & E1 & E2 & E3 & _); [|done..].
    split; simpl; [congruence..|]. by apply Forall_insert.
  - rewrite decide_False in He by (rewrite Hedge; naive_solver). done.
  - by rewrite H3 in He.
  - case_decide; [|done]. injection He as <-. rewrite auto_sees_off by (by rewrite H1). by split.
  - destruct (m_asked s); [done|]. injection He as <-. by split.
  - destruct (m_auto_out s !! j); [|done]. injection He as <-. by split.
  - injection He as <-. rewrite auto_sees_off by (by rewrite H1). by split.
  - injection He as <-. subst ig. split; simpl; try done. apply Forall_app. split; [done|]. by constructor.
Qed.
(** A call that leaves out the resource manager. *)
Lemma override_ends s :
  m_maint s = NORMAL_OPERATION_INIT → ∃ s', rtc (mt_step (λ _, True)) s s' ∧ m_maint s' = NORMAL_OPERATION ∧
    last (m_calls s') = Some (mkCall true (Returned None)).
Proof.
  intros Hm. set (n := length (m_calls s)). set (o := mkOutcome None None false).
  set (s1 := set_calls (m_calls s ++ [mkCall true (Check NORMAL_OPERATION)]) s).
  set (s2 := set_calls (m_calls s ++ [mkCall true SetNormal]) s).
  set (s3 := set_calls (m_calls s ++ [mkCall true (Returned None)]) (set_maint NORMAL_OPERATION s)).
  assert (∀ p, (m_calls s ++ [mkCall true p]) !! n = Some (mkCall true p)) as Hat.
  { intros p. by rewrite lookup_app_r, Nat.sub_diag. }
  assert (∀ p q, <[n := mkCall true q]> (m_calls s ++ [mkCall true p]) = m_calls s ++ [mkCall true q]) as Hins.
  { intros p q. unfold n. rewrite <- (Nat.add_0_r (length _)). by rewrite insert_app_r. }
  exists s3. split; [|split; [done|apply last_snoc]].
  apply rtc_l with s1; [by exists (ENew true NORMAL_OPERATION)|].
  apply rtc_l with s2; [|apply rtc_once].
  - exists (ECall n o). split; [|done]. simpl. rewrite Hat. simpl. by rewrite Hm, Hins.
  - exists (ECall n o). split; [|done]. simpl. rewrite Hat. simpl. unfold set_then, setMaintenanceState. simpl.
    rewrite decide_False by (by rewrite Hm). simpl. by rewrite Hins.
Qed.

(** C39: off the edge, when the call to the resource manager that ends a
    maintenance fails, no later call that asks the resource manager ends the
    maintenance: as the state of the cloudlet is set
    already, such calls do not reach the resource manager, and none of them ever
    succeeds, to end it or to start it again; the cloudlet stays in
    NORMAL_OPERATION_INIT, where nothing is placed on it.  The way out is a call
    that leaves the resource manager out (a CRM override): it sets normal operation and
    returns success, the resource manager not asked. *)
Theorem exit_retry_stuck (s s' : mstate) :
  CrmOnEdge = false → m_maint s = NORMAL_OPERATION_INIT → m_info s = CRM_UNDER_MAINTENANCE → m_crm_out s = [] →
  m_calls s = [] → rtc (mt_step no_override) s s' →
  m_maint s' = NORMAL_OPERATION_INIT ∧ m_info s' = CRM_UNDER_MAINTENANCE ∧
  (∀ c, c ∈ m_calls s' → at_ c ≠ Returned None) ∧
  ∃ s'', rtc (mt_step (λ _, True)) s' s'' ∧ m_maint s'' = NORMAL_OPERATION ∧
    last (m_calls s'') = Some (mkCall true (Returned None)).
Proof.
  intros Hedge Hm Hi Ho Hc Hrun. assert (stuck s) as Hs by (split; [done..|by rewrite Hc]).
  assert (stuck s') as [Hm' Hi' _ Hall].
  { clear Hm Hi Ho Hc. induction Hrun as [|s1 s2 s3 Hst _ IH]; [done|]. apply IH. by eapply stuck_step. }
  split_and!; [done..| |by apply override_ends].
  intros c Hin E. rewrite Forall_forall in Hall. apply Hall in Hin as [_ Hp]. by rewrite E in Hp.
Qed.
End Maint.

(** ** Concrete runs *)

Module MaintWitness.
#[local] Ltac exec_run := match goal with |- ?a = ?b => vm_cast_no_check (@eq_refl _ b) end.
Definition k0 : CloudletKey := mkCloudletKey "org" "site" "".
Definition rest (st info : MaintenanceState) (calls : list call) : mstate :=
  mkM st READY info (reset_info k0) st [] (st, READY) 0 [] calls.
Definition good_outcome : outcome := mkOutcome None None false.
Definition late : outcome := mkOutcome None None true.
Fixpoint run (edge : bool) (es : list event) (s : mstate) : option mstate :=
  match es with [] => Some s | e :: es' => s' ← exec k0 edge e s; run edge es' s' end.
Lemma run_mt_step edge P es s s' : Forall P es → run edge es s = Some s' → rtc (mt_step k0 edge P) s s'.
Proof.
  intros Hok. revert s. induction Hok as [|e es He _ IH]; intros s Hr; simpl in Hr; [injection Hr as ->; constructor|].
  destruct (exec k0 edge e s) as [s1|] eqn:E; [|done]. apply rtc_l with s1; [by exists e|by apply IH].
Qed.

Definition start0 : mstate := rest NORMAL_OPERATION NORMAL_OPERATION [mkCall false (Check MAINTENANCE_START)].
Definition step0 : event := ECall 0 good_outcome.
(** The controller, the service and the CRM in turn. *)
Definition events0 : list event :=
  [step0; step0; step0; EAutoSees; EAutoAnswers ["moved app"] []; ECrmSees; EAutoSends 0; step0; step0; ECrmSees;
   EAutoSees; ECrmSends 0; step0; step0].
Definition end0 : mstate := Eval vm_compute in default start0 (run true events0 start0).
Lemma rest0 : at_rest NORMAL_OPERATION NORMAL_OPERATION start0.
Proof. by split. Qed.
Lemma maintenance_acknowledged_witness :
  m_maint end0 = UNDER_MAINTENANCE ∧ ∃ completed, m_prov end0 = Failover.mkInfo k0 FAILOVER_DONE completed [].
Proof.
  assert (m_maint end0 = UNDER_MAINTENANCE) as Hm by exec_run. split; [exact Hm|].
  apply (maintenance_acknowledged k0 true false start0 end0 rest0 eq_refl); [|exact Hm|reflexivity].
  apply (run_mt_step true _ events0); [|exec_run]. unfold events0, step0. by repeat constructor.
Defined.
Definition events1 : list event :=
  [step0; step0; step0; EAutoSees; EAutoAnswers [] ["no cloudlet"]; EAutoSends 0; step0; step0; step0; EAutoSees].
Definition end1 : mstate := Eval vm_compute in default start0 (run true events1 start0).
Lemma at_rest_end1 : nf (mt_own k0 true smooth false) end1.
Proof.
  intros (s' & e & He & Hok).
  assert (end1 = mkM NORMAL_OPERATION UPDATE_ERROR NORMAL_OPERATION (Failover.mkInfo k0 FAILOVER_ERROR [] ["no cloudlet"])
    NORMAL_OPERATION [] (NORMAL_OPERATION, UPDATE_ERROR) 0 []
    [mkCall false (Returned (Some "AutoProv failover encountered some errors, aborting maintenance"))]) as E by exec_run.
  rewrite E in He. destruct e as [[|j] o| |[|j]| |cs es|[|j]| |ig new]; try discriminate He; done.
Qed.
(** An aborted maintenance leaves the state of a failed update. *)
Lemma maintenance_ends_witness :
  sn (mt_own k0 true any false) start0 ∧ m_maint end1 = NORMAL_OPERATION ∧ m_State end1 = UPDATE_ERROR.
Proof.
  destruct (maintenance_ends k0 true start0 rest0 eq_refl) as [Hsn Hend]. split; [exact Hsn|].
  destruct (Hend end1) as [(H1 & _)|(err & _ & H1 & H2 & _)].
  - apply (run_mt_step true _ events1); [|exec_run]. unfold events1, step0. by repeat constructor.
  - apply at_rest_end1.
  - unfold alone in H1. vm_compute in H1. discriminate H1.
  - split; [exact H1|exact H2].
Defined.

(** The end of a maintenance fails to reach the resource manager, and a second
    call waits in vain. *)
Definition unreachable : outcome := mkOutcome (Some "connection refused") None false.
Definition exit0 : mstate := rest UNDER_MAINTENANCE CRM_UNDER_MAINTENANCE [mkCall false (Check NORMAL_OPERATION)].
Definition failed0 : mstate := Eval vm_compute in default exit0 (run false [step0; ECall 0 unreachable; step0] exit0).
Definition idle0 : mstate := Eval vm_compute in set_calls [] failed0.
Definition again : list event := [ENew false NORMAL_OPERATION; step0; step0; ECall 0 late; step0].
Definition second0 : mstate := Eval vm_compute in default idle0 (run false again idle0).
Lemma exit_retry_stuck_witness :
  m_calls failed0 = [mkCall false (Returned (Some "connection refused"))] ∧
  m_calls second0 = [mkCall false (Returned (Some "timed out waiting for CloudletInfo maintenance state"))] ∧
  m_maint second0 = NORMAL_OPERATION_INIT.
Proof.
  split; [exec_run|]. split; [exec_run|].
  apply (exit_retry_stuck k0 false idle0 second0); [exec_run..|].
  apply (run_mt_step false _ again); [|exec_run]. unfold again, step0. by repeat constructor.
Defined.

(** A call that ends the maintenance while another starts it: it returns
    success, and the cloudlet goes into maintenance all the same. *)
Example ended_but_in_maintenance :
  let s := rest NORMAL_OPERATION NORMAL_OPERATION
             [mkCall false (Check MAINTENANCE_START); mkCall false (Check NORMAL_OPERATION)] in
  let second := ECall 1 good_outcome in
  ∃ s', run true [step0; step0; step0; EAutoSees; second; second; second; second; EAutoAnswers [] []; EAutoSends 0; step0;
                  step0; ECrmSees; ECrmSends 0; step0; step0] s = Some s' ∧
    m_calls s' = [mkCall false (Returned None); mkCall false (Returned None)] ∧ m_maint s' = UNDER_MAINTENANCE.
Proof. eexists. split; [vm_compute; reflexivity|]. by vm_compute. Qed.
(** The connection of the service is set up again while it moves the apps: it gets
    the cloudlet once more and answers at once that the failover is done. *)
Example resent_answered_early :
  ∃ s', run true [step0; step0; step0; EAutoSees; EAutoResent; EAutoSends 0; step0; step0; ECrmSees; ECrmSends 0; step0;
                  step0] start0 = Some s' ∧
    m_maint s' = UNDER_MAINTENANCE ∧ m_asked s' = 1.
Proof. eexists. split; [vm_compute; reflexivity|]. by vm_compute. Qed.
(** After a start that ran out of time the service answers that the failover is
    done, as the state of the cloudlet changes; the next start takes it for its
    own answer, while the service still moves the apps. *)
Example answered_without_failover :
  let s := start0 in
  ∃ s', run true [step0; step0; step0; EAutoSees; ECall 0 late; step0; EAutoSees;        (* the first, and its time out *)
                  ENew false NORMAL_OPERATION; ECall 1 good_outcome; ECall 1 good_outcome;  (* back to normal operation *)
                  ECall 1 good_outcome; ECall 1 good_outcome; EAutoSees;
                  ENew false MAINTENANCE_START; ECall 2 good_outcome; ECall 2 good_outcome; EAutoSends 0;
                  ECall 2 good_outcome; EAutoSees; ECall 2 good_outcome; ECall 2 good_outcome; ECrmSees; ECrmSends 0;
                  ECall 2 good_outcome; ECall 2 good_outcome] s = Some s' ∧
    m_maint s' = UNDER_MAINTENANCE ∧ m_asked s' = 2.
Proof. eexists. split; [vm_compute; reflexivity|]. by vm_compute. Qed.
End MaintWitness.
