(* ===== verification/TPEChange.v ===== *)
(** * Applying trust policy exceptions (controller/trustpolicyexception_changes.go)

    Most changes of an object that an exception depends on start a goroutine for
    each instance of the exception on an application instance; [runTPEChange]
    makes one of them the owner of the instance's state in the store, which
    applies the exception again until nobody has asked for another run.  [step]
    interleaves the goroutines that there are for one instance, of all
    controllers: a transaction is one step (they are serializable,
    [KVStore.stm_serializable]), a call of the platform is one.  With an edge
    resource manager the new [RunCount] in the store is the call.  Changes that
    start no goroutine (a new exception, the deletion of one that is not active,
    another zone of a cloudlet, other zones of a pool) are steps of their own. *)

From S2P Require Export ProvObjs.
#[local] Open Scope Z_scope.

(** ** State *)

(** A ULID is a number here; [Owner] is [None] for the empty string. *)
Record TPEInstanceState := mkTPEInst {
  Owner : option nat;
  RunRequested : bool;
  RunCount : Z;
  TpeEnable : bool;
  DisableReason : string;
  ti_Error : string;
  StartedAt : Z;                   (* in nanoseconds *)
}.
Definition new_state : TPEInstanceState := mkTPEInst None false 0 false "" "" 0.
(** What a run reads of the other objects. *)
Record tpe_cloudlet := mkTPECloudlet {
  tc_Cloudlet : Cloudlet; tc_TrustPolicy : string; tc_CrmOnEdge : bool }.
Record tpe_world := mkWorld {
  w_cloudlet : option tpe_cloudlet;
  w_zonePool : option ZonePool;
  w_appInst : option AppInst;
  w_clusterInst : option IpAccess;
  w_tpe : option TrustPolicyException;
}.

Definition isTPEInstanceEnabled (appInstState : TrackedState) (tpeState : TPEState)
    (clusterInstIPAccess : IpAccess) (cloudletTrustPolicy : string) (zoneKey : ZoneKey)
    (zonePoolMembers : list ZoneKey) : bool * string :=
  if decide (appInstState ≠ READY) then (false, "appInst state not ready")
  else if decide (tpeState ≠ STATE_ACTIVE) then (false, "trust policy exception state is not active")
  else if decide (clusterInstIPAccess ≠ IP_ACCESS_DEDICATED) then
    (false, "clusterInst IP Access is not dedicated")
  else if decide (cloudletTrustPolicy = "") then (false, "cloudlet has no trust policy")
  else if negb (bool_decide (zoneKey ∈ zonePoolMembers)) then
    (false, "zone not in trust policy exception zone pool")
  else (true, "").
(** [None]: there is a reason to delete the state. *)
Definition verdict (w : tpe_world) : option (bool * string * bool) :=
  match w_cloudlet w, w_zonePool w, w_appInst w, w_clusterInst w, w_tpe w with
  | Some c, Some p, Some i, Some ip, Some t =>
      let '(enable, reason) := isTPEInstanceEnabled (ai_State i) (tpe_State t) ip (tc_TrustPolicy c)
        (Cloudlet_GetZone (tc_Cloudlet c)) (zp_Zones p) in
      Some (enable, reason, tc_CrmOnEdge c)
  | _, _, _, _, _ => None
  end.

(** ** Which instances a change concerns *)

Module Trigger.
(** What the caches hold; an instance is with its cluster. *)
Record caches := mkCaches {
  c_apps : list AppKey;
  c_cloudlets : list Cloudlet;
  c_appInsts : list (AppInst * ClusterKey);
  c_tpes : list TrustPolicyException;
  c_zonePools : list ZonePool;
}.
Record TPEInstanceKey := mkTPEInstanceKey {
  tik_TpeKey : TPEKey; tik_AppInstKey : AppInstKey; tik_ClusterKey : ClusterKey; tik_CloudletKey : CloudletKey }.

(** [Matches] with the filter option: [m.Matches(&o)] is [matches o m], an empty field of [o] matches. *)
Definition str_matches (o m : string) : bool := bool_decide (o = "" ∨ o = m).
Definition AppKey_matches (o m : AppKey) : bool :=
  str_matches (ak_Organization o) (ak_Organization m) && str_matches (ak_Name o) (ak_Name m) &&
  str_matches (ak_Version o) (ak_Version m).
Definition CloudletKey_matches (o m : CloudletKey) : bool :=
  str_matches (ck_Organization o) (ck_Organization m) && str_matches (ck_Name o) (ck_Name m) &&
  str_matches (ck_FederatedOrganization o) (ck_FederatedOrganization m).
Definition ZoneKey_matches (o m : ZoneKey) : bool :=
  str_matches (zk_Organization o) (zk_Organization m) && str_matches (zk_Name o) (zk_Name m) &&
  str_matches (zk_FederatedOrganization o) (zk_FederatedOrganization m).
Definition ZonePoolKey_matches (o m : ZonePoolKey) : bool :=
  str_matches (zpk_Organization o) (zpk_Organization m) && str_matches (zpk_Name o) (zpk_Name m).
Definition GetForZonePool (cs : caches) (key : ZonePoolKey) : list TrustPolicyException :=
  filter (λ t, ZonePoolKey_matches key (tk_ZonePoolKey (tpe_Key t))) (c_tpes cs).
Definition GetForApp (cs : caches) (key : AppKey) : list TrustPolicyException :=
  filter (λ t, AppKey_matches key (tk_AppKey (tpe_Key t))) (c_tpes cs).
Definition GetPoolsForZoneKey (cs : caches) (zk : ZoneKey) : list ZonePoolKey :=
  zp_Key <$> filter (λ p, str_matches (zk_Organization zk) (zpk_Organization (zp_Key p)) &&
    existsb (ZoneKey_matches zk) (zp_Zones p)) (c_zonePools cs).

(** The goroutines that a change starts. *)
Definition applyTPEForAppInst (tpeKey : TPEKey) (appInstKey : AppInstKey) (clusterKey : ClusterKey)
    (cloudletKey : CloudletKey) : list TPEInstanceKey :=
  [mkTPEInstanceKey tpeKey appInstKey clusterKey cloudletKey].
Definition applyTPEForCloudlet (cs : caches) (tpeKey : TPEKey) (cloudletKey : CloudletKey) : list TPEInstanceKey :=
  '(i, clusterKey) ← filter (λ x, CloudletKey_matches cloudletKey (ai_CloudletKey x.1) &&
      AppKey_matches (tk_AppKey tpeKey) (ai_AppKey x.1)) (c_appInsts cs);
  applyTPEForAppInst tpeKey (ai_Key i) clusterKey cloudletKey.
Definition ZoneKey_IsSet (z : ZoneKey) : bool :=
  bool_decide (zk_Name z ≠ "" ∨ zk_Organization z ≠ "" ∨ zk_FederatedOrganization z ≠ "").
Definition applyTPEForZone (cs : caches) (tpeKey : TPEKey) (zoneKey : ZoneKey) : list TPEInstanceKey :=
  c ← filter (λ c, CloudletKey_matches
        (mkCloudletKey (zk_Organization zoneKey) "" (zk_FederatedOrganization zoneKey)) (cl_Key c) &&
      ZoneKey_IsSet (Cloudlet_GetZone c) && bool_decide (Cloudlet_GetZone c = zoneKey)) (c_cloudlets cs);
  applyTPEForCloudlet cs tpeKey (cl_Key c).
Definition applyAllTPEsForZoneInPool (cs : caches) (zoneKey : ZoneKey) (pool : ZonePoolKey) : list TPEInstanceKey :=
  t ← GetForZonePool cs pool; applyTPEForZone cs (tpe_Key t) zoneKey.
Definition applyTPE (cs : caches) (key : TPEKey) : list TPEInstanceKey :=
  match list_find (λ p, zp_Key p = tk_ZonePoolKey key) (c_zonePools cs) with
  | None => []
  | Some (_, p) => z ← zp_Zones p; applyTPEForZone cs key z
  end.
Definition applyAllTPEsForCloudletInPool (cs : caches) (cloudletKey : CloudletKey) (pool : ZonePoolKey) :
    list TPEInstanceKey :=
  t ← GetForZonePool cs pool; applyTPEForCloudlet cs (tpe_Key t) cloudletKey.
Definition applyAllTPEsForCloudlet (cs : caches) (cloudletKey : CloudletKey) : list TPEInstanceKey :=
  match list_find (λ c, cl_Key c = cloudletKey) (c_cloudlets cs) with
  | None => []
  | Some (_, c) =>
      let zoneKey := Cloudlet_GetZone c in
      if ZoneKey_IsSet zoneKey then
        pool ← GetPoolsForZoneKey cs zoneKey; applyAllTPEsForCloudletInPool cs cloudletKey pool
      else []
  end.
Definition applyAllTPEsForAppInst (cs : caches) (i : AppInst) (clusterKey : ClusterKey) : list TPEInstanceKey :=
  if decide (ai_AppKey i ∈ c_apps cs) then
    t ← GetForApp cs (ai_AppKey i);
    applyTPEForAppInst (tpe_Key t) (ai_Key i) clusterKey (ai_CloudletKey i)
  else [].

(** An instance of the exception [t], in the sense of the caches: an instance of its
    app on a cloudlet in a zone of its pool. *)
Record instance_of (cs : caches) (t : TrustPolicyException) (i : AppInst) (clk : ClusterKey) (c : Cloudlet)
    (p : ZonePool) : Prop := {
  io_tpe : t ∈ c_tpes cs;
  io_inst : (i, clk) ∈ c_appInsts cs;
  io_app : ai_AppKey i = tk_AppKey (tpe_Key t);
  io_known : ai_AppKey i ∈ c_apps cs;
  io_cloudlet : c ∈ c_cloudlets cs;
  io_on : ai_CloudletKey i = cl_Key c;
  io_zone : cl_Zone c ≠ "";
  io_pool : p ∈ c_zonePools cs;
  io_poolKey : zp_Key p = tk_ZonePoolKey (tpe_Key t);
  io_org : zpk_Organization (zp_Key p) = ck_Organization (cl_Key c);
  io_member : Cloudlet_GetZone c ∈ zp_Zones p;
}.
(** The keys of the caches are keys. *)
Definition keyed (cs : caches) : Prop :=
  NoDup (cl_Key <$> c_cloudlets cs) ∧ NoDup (zp_Key <$> c_zonePools cs).

Lemma str_matches_refl s : str_matches s s = true.
Proof. apply bool_decide_eq_true. by right. Qed.
Lemma CloudletKey_matches_refl k : CloudletKey_matches k k = true.
Proof. unfold CloudletKey_matches. by rewrite !str_matches_refl. Qed.
Lemma AppKey_matches_refl k : AppKey_matches k k = true.
Proof. unfold AppKey_matches. by rewrite !str_matches_refl. Qed.
Lemma ZoneKey_matches_refl k : ZoneKey_matches k k = true.
Proof. unfold ZoneKey_matches. by rewrite !str_matches_refl. Qed.
Lemma ZonePoolKey_matches_refl k : ZonePoolKey_matches k k = true.
Proof. unfold ZonePoolKey_matches. by rewrite !str_matches_refl. Qed.
Lemma find_key {A K} `{EqDecision K} (key : A → K) (l : list A) (x : A) :
  NoDup (key <$> l) → x ∈ l → ∃ n, list_find (λ y, key y = key x) l = Some (n, x).
Proof.
  intros Hnd Hx. destruct (list_find_elem_of (λ y, key y = key x) l x Hx eq_refl) as [[n y] Hf].
  exists n. rewrite Hf. do 2 f_equal. apply list_find_Some in Hf as (Hn & Hk & _).
  apply list_elem_of_lookup in Hx as [m Hm].
  assert (n = m) as ->; [|congruence].
  eapply (NoDup_lookup (key <$> l)); [done| |]; rewrite list_lookup_fmap.
  - by rewrite Hn.
  - by rewrite Hm, Hk.
Qed.
Section Instance.
Context (cs : caches) (t : TrustPolicyException) (i : AppInst) (clk : ClusterKey) (c : Cloudlet) (p : ZonePool).
Context (H : instance_of cs t i clk c p).
#[local] Abbreviation target := (mkTPEInstanceKey (tpe_Key t) (ai_Key i) clk (cl_Key c)).
Lemma zone_of_cloudlet :
  Cloudlet_GetZone c = mkZoneKey (ck_Organization (cl_Key c)) (cl_Zone c) (ck_FederatedOrganization (cl_Key c)).
Proof. unfold Cloudlet_GetZone. destruct H. by rewrite decide_False. Qed.
Lemma zone_is_set : ZoneKey_IsSet (Cloudlet_GetZone c) = true.
Proof. rewrite zone_of_cloudlet. apply bool_decide_eq_true. left. apply H. Qed.
Lemma for_cloudlet : target ∈ applyTPEForCloudlet cs (tpe_Key t) (cl_Key c).
Proof.
  destruct H. apply list_elem_of_bind. exists (i, clk). split; [by left|].
  apply list_elem_of_filter. split; [|done]. simpl. by rewrite io_on0, io_app0, CloudletKey_matches_refl, AppKey_matches_refl.
Qed.
Lemma for_zone : target ∈ applyTPEForZone cs (tpe_Key t) (Cloudlet_GetZone c).
Proof.
  apply list_elem_of_bind. exists c. split; [apply for_cloudlet|]. apply list_elem_of_filter. split; [|apply H].
  rewrite zone_is_set, bool_decide_true, zone_of_cloudlet by done. unfold CloudletKey_matches. simpl.
  by rewrite !str_matches_refl.
Qed.
Lemma for_pool : t ∈ GetForZonePool cs (zp_Key p).
Proof.
  destruct H. apply list_elem_of_filter. split; [|done]. by rewrite io_poolKey0, ZonePoolKey_matches_refl.
Qed.
Lemma for_zone_pool : zp_Key p ∈ GetPoolsForZoneKey cs (Cloudlet_GetZone c).
Proof.
  pose proof zone_of_cloudlet as Hz. destruct H. apply list_elem_of_fmap. exists p. split; [done|].
  apply list_elem_of_filter. split; [|done]. rewrite io_org0, Hz at 1. simpl. rewrite str_matches_refl.
  rewrite (proj2 (existsb_exists _ _)); [done|]. exists (Cloudlet_GetZone c).
  split; [by apply list_elem_of_In|apply ZoneKey_matches_refl].
Qed.
End Instance.

(** A change reaches the instances it concerns: for an instance of the
    exception's app on a cloudlet in a zone of its pool a goroutine is started when
    the exception changes, when the zone joins or leaves the pool, when the
    cloudlet changes and when the application instance does. *)
Theorem changes_reach_instances (cs : caches) (t : TrustPolicyException) (i : AppInst) (clk : ClusterKey)
    (c : Cloudlet) (p : ZonePool) (Hkeyed : keyed cs) (Hinst : instance_of cs t i clk c p) :
  let target := mkTPEInstanceKey (tpe_Key t) (ai_Key i) clk (cl_Key c) in
  target ∈ applyTPE cs (tpe_Key t) ∧ target ∈ applyAllTPEsForZoneInPool cs (Cloudlet_GetZone c) (zp_Key p) ∧
  target ∈ applyAllTPEsForCloudlet cs (cl_Key c) ∧ target ∈ applyAllTPEsForAppInst cs i clk.
Proof.
  intros target. pose proof Hinst as []. split_and!.
  - unfold applyTPE. rewrite <- io_poolKey0.
    destruct (find_key zp_Key _ _ (proj2 Hkeyed) io_pool0) as [n ->]. simpl. apply list_elem_of_bind.
    exists (Cloudlet_GetZone c). split; [by eapply for_zone|done].
  - apply list_elem_of_bind. exists t. split; [by eapply for_zone|by eapply for_pool].
  - unfold applyAllTPEsForCloudlet. destruct (find_key cl_Key _ _ (proj1 Hkeyed) io_cloudlet0) as [n ->]. simpl.
    erewrite zone_is_set by done. apply list_elem_of_bind. exists (zp_Key p). split; [|by eapply for_zone_pool].
    apply list_elem_of_bind. exists t. split; [by eapply for_cloudlet|by eapply for_pool].
  - unfold applyAllTPEsForAppInst. rewrite decide_True by done. apply list_elem_of_bind. exists t.
    split; [by rewrite io_on0; left|]. apply list_elem_of_filter. split; [|done].
    by rewrite io_app0, AppKey_matches_refl.
Qed.
End Trigger.

(** ** Transactions *)

Definition hour : Z := 3600 * 10 ^ 9.
(** Whether another thread has been running for too long. *)
Definition stale (now : Z) (st : TPEInstanceState) : bool := bool_decide (StartedAt st + hour < now).
(** The first transaction; the flag tells whether the thread is the owner. *)
Definition register (threadID : nat) (now : Z) (inst : option TPEInstanceState) : TPEInstanceState * bool :=
  let st := default new_state inst in
  let take := (mkTPEInst (Some threadID) true (RunCount st) (TpeEnable st) (DisableReason st) (ti_Error st)
                 (StartedAt st), true) in
  match Owner st with
  | Some _ =>
      if stale now st then take
      else (mkTPEInst (Owner st) true (RunCount st) (TpeEnable st) (DisableReason st) (ti_Error st)
              (StartedAt st), false)
  | None => take
  end.
Inductive loop_result := LNotFound | LDone | LApply (st : TPEInstanceState) (crmOnEdge : bool).
Definition wrap_i32 (z : Z) : Z := (z + 2 ^ 31) mod 2 ^ 32 - 2 ^ 31.
(** The transaction of the loop. *)
Definition loop_body (threadID : nat) (now : Z) (applyErr : option error) (w : tpe_world)
    (inst : option TPEInstanceState) : option TPEInstanceState * loop_result :=
  match inst with
  | None => (None, LNotFound)
  | Some st =>
      if decide (Owner st ≠ Some threadID) then (inst, LDone)
      else if negb (RunRequested st) then
        (Some (mkTPEInst None false 0 (TpeEnable st) (DisableReason st)
           (match applyErr with Some e => e | None => ti_Error st end) (StartedAt st)), LDone)
      else
        match verdict w with
        | None => (None, LDone)
        | Some (enable, disableReason, crmOnEdge) =>
            let st' := mkTPEInst (Owner st) false (wrap_i32 (RunCount st + 1)) enable disableReason
                         (ti_Error st) now in
            (Some st', LApply st' crmOnEdge)
        end
  end.

(** ** Threads *)

Inductive place :=
| AtRegister
| AtLoop (applyErr : option error)
| Applying (st : TPEInstanceState) (crmOnEdge : bool).
Record tpe_state := mkTPEState {
  inst : option TPEInstanceState;
  world : tpe_world;
  now : Z;
  threads : list (nat * place);
  nextID : nat;
  applied : list bool;               (* the calls made, whether they enable *)
}.
Definition tpe_init (w : tpe_world) : tpe_state := mkTPEState None w 0 [] 0 [].

(** A step of a thread: what becomes of the state and of the thread, and the
    call it makes. *)
Inductive thread_step (t : nat) (w : tpe_world) (nw : Z) (i : option TPEInstanceState) :
    place → option TPEInstanceState → option place → list bool → Prop :=
| ts_register :
    thread_step t w nw i AtRegister (Some (register t nw i).1)
      (if (register t nw i).2 then Some (AtLoop None) else None) []
| ts_loop e :
    thread_step t w nw i (AtLoop e) (loop_body t nw e w i).1
      (match (loop_body t nw e w i).2 with LApply st crm => Some (Applying st crm) | _ => None end) []
| ts_edge st :
    thread_step t w nw i (Applying st true) i (Some (AtLoop None)) [TpeEnable st]
| ts_call st e :
    thread_step t w nw i (Applying st false) i (Some (AtLoop e)) [TpeEnable st].
Definition keep (t : nat) (p : option place) : list (nat * place) :=
  match p with Some p => [(t, p)] | None => [] end.

Inductive run_step (s : tpe_state) : tpe_state → Prop :=
| rs_thread l1 t p l2 i p' calls :
    threads s = l1 ++ (t, p) :: l2 → thread_step t (world s) (now s) (inst s) p i p' calls →
    run_step s (mkTPEState i (world s) (now s) (l1 ++ keep t p' ++ l2) (nextID s) (applied s ++ calls)).
(** A goroutine is started, after an object may have changed. *)
Definition started (w : tpe_world) (s : tpe_state) : tpe_state :=
  mkTPEState (inst s) w (now s) ((nextID s, AtRegister) :: threads s) (S (nextID s)) (applied s).
(** [faults]: a transaction or a call may fail before it has an effect, or the
    controller may stop; the thread is gone.  [timely]: no call takes more than
    an hour.  [silent]: the changes of objects that start no goroutine, or only
    later ([s_change] with the same objects). *)
Inductive step (silent : tpe_world → tpe_world → Prop) (faults timely : bool) (s : tpe_state) :
    tpe_state → Prop :=
| s_run s' : run_step s s' → step silent faults timely s s'
| s_change w : step silent faults timely s (started w s)
| s_silent w :
    silent (world s) w →
    step silent faults timely s (mkTPEState (inst s) w (now s) (threads s) (nextID s) (applied s))
| s_time d :
    0 < d →
    (timely = true → ∀ t st crm, (t, Applying st crm) ∈ threads s → now s + d <= StartedAt st + hour) →
    step silent faults timely s (mkTPEState (inst s) (world s) (now s + d) (threads s) (nextID s) (applied s))
| s_fail l1 t p l2 :
    faults = true → threads s = l1 ++ (t, p) :: l2 →
    step silent faults timely s (mkTPEState (inst s) (world s) (now s) (l1 ++ l2) (nextID s) (applied s)).
Abbreviation any_change := (λ _ _ : tpe_world, True).
(** From a state with an object missing, with any silent changes. *)
Definition tpe_reachable (faults timely : bool) (s : tpe_state) : Prop :=
  ∃ w, verdict w = None ∧ rtc (step any_change faults timely) (tpe_init w) s.
(** The verdicts are the same, but for how the platform is called. *)
Definition same_verdict (w w' : tpe_world) : Prop := fst <$> verdict w = fst <$> verdict w'.

(** ** What holds *)

Definition running (p : place) : Prop := p ≠ AtRegister.
(** What is recorded is what the objects say. *)
Definition recorded (w : tpe_world) (i : option TPEInstanceState) : Prop :=
  match verdict w with
  | None => i = None
  | Some (e, reason, _) => ∃ st, i = Some st ∧ TpeEnable st = e ∧ DisableReason st = reason
  end.
Definition ids_ok (s : tpe_state) : Prop :=
  NoDup (threads s).*1 ∧ Forall (λ e, e.1 < nextID s)%nat (threads s).
Definition owner_alive (s : tpe_state) : Prop :=
  ∀ st t, inst s = Some st → Owner st = Some t → ∃ p, (t, p) ∈ threads s ∧ running p.
Definition rerun_pending (s : tpe_state) : Prop :=
  (∃ t, (t, AtRegister) ∈ threads s) ∨ ∃ st, inst s = Some st ∧ RunRequested st = true.
Record tpe_inv (s : tpe_state) : Prop := {
  ti_ids : ids_ok s;
  ti_owner : owner_alive s;
  ti_request st : inst s = Some st → RunRequested st = true → Owner st ≠ None;
}.
(** What is recorded is up to date, or is going to be. *)
Definition up_to_date (s : tpe_state) : Prop := recorded (world s) (inst s) ∨ rerun_pending s.

Lemma ids_thread s l1 t p l2 i w nw p' a :
  ids_ok s → threads s = l1 ++ (t, p) :: l2 →
  ids_ok (mkTPEState i w nw (l1 ++ keep t p' ++ l2) (nextID s) a).
Proof.
  intros [Hnd Hlt] Hth. unfold ids_ok. simpl. rewrite Hth in Hnd, Hlt.
  apply Forall_app in Hlt as [Hlt1 Hlt2]. inversion_clear Hlt2.
  rewrite fmap_app in Hnd. simpl in Hnd. destruct p' as [p'|]; simpl.
  - rewrite fmap_app. simpl. split; [done|]. apply Forall_app. split; [done|]. by constructor.
  - rewrite fmap_app. split; [|by apply Forall_app].
    apply list.NoDup_app in Hnd as (H1 & H2 & H3). inversion_clear H3.
    apply list.NoDup_app. split_and!; [done| |done]. intros x Hx Hx'. apply (H2 x Hx). by right.
Qed.
Lemma ids_change s w : ids_ok s → ids_ok (started w s).
Proof.
  intros [Hnd Hlt]. split; simpl.
  - constructor; [|done]. intros ([u q] & Hu & Hin)%list_elem_of_fmap. simpl in Hu. subst u.
    rewrite Forall_forall in Hlt. specialize (Hlt _ Hin). simpl in Hlt. lia.
  - constructor; [simpl; lia|]. eapply Forall_impl; [exact Hlt|]. simpl. intros; lia.
Qed.
Lemma ids_unique s t p p' : ids_ok s → (t, p) ∈ threads s → (t, p') ∈ threads s → p = p'.
Proof.
  intros [Hnd _] H1 H2. apply list_elem_of_lookup in H1 as [i Hi], H2 as [j Hj].
  assert ((threads s).*1 !! i = Some t) as Hi' by (by rewrite list_lookup_fmap, Hi).
  assert ((threads s).*1 !! j = Some t) as Hj' by (by rewrite list_lookup_fmap, Hj).
  pose proof (NoDup_lookup _ _ _ _ Hnd Hi' Hj'). congruence.
Qed.
Lemma other_thread s l1 t p l2 u q m :
  ids_ok s → threads s = l1 ++ (t, p) :: l2 → (u, q) ∈ threads s → u ≠ t → (u, q) ∈ l1 ++ m ++ l2.
Proof.
  intros _ Hth Hin Hne. rewrite Hth in Hin. rewrite !elem_of_app in *. rewrite elem_of_cons in Hin.
  naive_solver.
Qed.

(** *** What the transactions do *)

Lemma register_cases t nw i :
  RunRequested (register t nw i).1 = true ∧ TpeEnable (register t nw i).1 = TpeEnable (default new_state i) ∧
  (((register t nw i).2 = true ∧ Owner (register t nw i).1 = Some t ∧
    ∀ st o, i = Some st → Owner st = Some o → stale nw st = true) ∨
   ((register t nw i).2 = false ∧ ∃ st o, i = Some st ∧ Owner st = Some o ∧
      Owner (register t nw i).1 = Some o ∧ StartedAt (register t nw i).1 = StartedAt st)).
Proof.
  unfold register. destruct i as [st|]; simpl.
  - destruct (Owner st) as [o|] eqn:Ho; [destruct (stale nw st) eqn:Hst|]; simpl; (split; [done|]); (split; [done|]).
    + left. split_and!; [done|done|]. by intros ? ? [= <-].
    + right. split; [done|]. exists st, o. by rewrite Ho.
    + left. split_and!; [done|done|]. intros ? ? [= <-]. congruence.
  - split; [done|]. split; [done|]. left. split_and!; [done|done|]. by intros ? ? [=].
Qed.
Inductive loop_case (t : nat) (nw : Z) (w : tpe_world) (i : option TPEInstanceState) :
    option TPEInstanceState → loop_result → Prop :=
| lc_gone : i = None → loop_case t nw w i None LNotFound
| lc_other st : i = Some st → Owner st ≠ Some t → loop_case t nw w i (Some st) LDone
| lc_done st st' :
    i = Some st → Owner st = Some t → RunRequested st = false → Owner st' = None → RunRequested st' = false →
    TpeEnable st' = TpeEnable st → DisableReason st' = DisableReason st → loop_case t nw w i (Some st') LDone
| lc_delete st :
    i = Some st → Owner st = Some t → RunRequested st = true → verdict w = None → loop_case t nw w i None LDone
| lc_apply st st' crm :
    i = Some st → Owner st = Some t → RunRequested st = true → Owner st' = Some t → RunRequested st' = false →
    StartedAt st' = nw → recorded w (Some st') → loop_case t nw w i (Some st') (LApply st' crm).
Lemma loop_cases t nw e w i : loop_case t nw w i (loop_body t nw e w i).1 (loop_body t nw e w i).2.
Proof.
  unfold loop_body. destruct i as [st|]; [|by apply lc_gone]. case_decide as Ho; [by apply (lc_other _ _ _ _ st)|].
  destruct (RunRequested st) eqn:Hr; simpl; [|by eapply lc_done].
  destruct (verdict w) as [[[en re] crm]|] eqn:Hv; simpl; [|by eapply lc_delete].
  eapply lc_apply; try done. unfold recorded. rewrite Hv. by eexists.
Qed.
(** The state and the place after a step of a thread. *)
Inductive step_case (t : nat) (nw : Z) (w : tpe_world) (i : option TPEInstanceState) :
    place → option TPEInstanceState → option place → list bool → Prop :=
| sc_register st own : st = (register t nw i).1 → own = (register t nw i).2 →
    step_case t nw w i AtRegister (Some st) (if own then Some (AtLoop None) else None) []
| sc_loop e i' r :
    loop_case t nw w i i' r →
    step_case t nw w i (AtLoop e) i' (match r with LApply st crm => Some (Applying st crm) | _ => None end) []
| sc_call st crm e : step_case t nw w i (Applying st crm) i (Some (AtLoop e)) [TpeEnable st].
Lemma step_cases t nw w i p i' p' calls : thread_step t w nw i p i' p' calls → step_case t nw w i p i' p' calls.
Proof.
  destruct 1 as [|e|st|st e]; [by apply sc_register|apply sc_loop, loop_cases|apply sc_call|apply sc_call].
Qed.

(** *** Without faults *)

Section Thread.
Context (s : tpe_state) (l1 l2 : list (nat * place)) (t : nat) (p : place) (p' : option place)
  (i : option TPEInstanceState) (calls : list bool).
Context (Hids : ids_ok s) (Hth : threads s = l1 ++ (t, p) :: l2)
  (Hstep : step_case t (now s) (world s) (inst s) p i p' calls).

#[local] Lemma thread_self q : (t, q) ∈ threads s → q = p.
Proof. intros Hq. eapply ids_unique; [exact Hids|exact Hq|]. rewrite Hth. set_solver. Qed.
#[local] Lemma thread_other u q : (u, q) ∈ threads s → u ≠ t → (u, q) ∈ l1 ++ keep t p' ++ l2.
Proof. intros Hq Hu. eapply (other_thread s); [exact Hids|exact Hth|exact Hq|exact Hu]. Qed.
#[local] Lemma thread_new q : p' = Some q → (t, q) ∈ l1 ++ keep t p' ++ l2.
Proof. intros ->. set_solver. Qed.

Lemma owner_thread :
  owner_alive s → ∀ st u, i = Some st → Owner st = Some u → ∃ q, (u, q) ∈ l1 ++ keep t p' ++ l2 ∧ running q.
Proof.
  intros Hown st u Hi Hu. pose proof thread_self as Hself. pose proof thread_other as Hother.
  pose proof thread_new as Hnew. subst i.
  assert (∀ st0, inst s = Some st0 → Owner st0 = Some u →
    (u ≠ t ∨ ∃ q, p' = Some q ∧ running q) → ∃ q, (u, q) ∈ l1 ++ keep t p' ++ l2 ∧ running q) as Hkeep.
  { intros st0 Hs Ho Hor. destruct (Hown st0 u Hs Ho) as (q & Hq & Hr). destruct (decide (u = t)) as [->|Hut].
    - destruct Hor as [|(q' & -> & Hq')]; [done|]. exists q'. split; [by apply Hnew|done].
    - exists q. split; [by apply Hother|done]. }
  inversion Hstep as [st' own Hst Howner| e i' r Hcase|st' crm e]; subst.
  - destruct (register_cases t (now s) (inst s)) as (_ & _ & [(Htrue & Ho & _)|(Hfalse & st0 & o & Hs & Ho0 & Ho & _)]).
    + rewrite Ho in Hu. injection Hu as <-. exists (AtLoop None). split; [|done]. apply Hnew. by rewrite Htrue.
    + assert (o = u) as -> by congruence. apply (Hkeep st0 Hs Ho0). left. intros ->.
      destruct (Hown st0 t Hs Ho0) as (q & Hq & Hr). apply Hself in Hq as ->. done.
  - inversion Hcase; subst; try congruence.
    + apply (Hkeep st); [done|done|]. left. congruence.
    + apply (Hkeep st0); [done|congruence|]. right. eexists. split; [done|done].
  - apply (Hkeep st); [done|done|]. right. eexists. split; [done|done].
Qed.
Lemma request_thread :
  (∀ st, inst s = Some st → RunRequested st = true → Owner st ≠ None) →
  ∀ st, i = Some st → RunRequested st = true → Owner st ≠ None.
Proof.
  intros Hreq st -> Hr. inversion Hstep as [st' own Hst Howner| e i' r Hcase|st' crm e]; subst; [| |by apply Hreq].
  - destruct (register_cases t (now s) (inst s)) as (_ & _ & [(_ & Ho & _)|(_ & ? & ? & _ & _ & Ho & _)]); by rewrite Ho.
  - inversion Hcase; subst; try congruence. by apply Hreq.
Qed.
Lemma recorded_thread a :
  up_to_date s → up_to_date (mkTPEState i (world s) (now s) (l1 ++ keep t p' ++ l2) (nextID s) a).
Proof.
  unfold up_to_date. intros Hrec. unfold rerun_pending in *. cbn [world inst threads].
  pose proof thread_self as Hself. pose proof thread_other as Hother.
  assert (p ≠ AtRegister → ∀ u, (u, AtRegister) ∈ threads s → (u, AtRegister) ∈ l1 ++ keep t p' ++ l2) as Hregs.
  { intros Hp u Hu. apply Hother; [done|]. intros ->. by apply Hself in Hu. }
  inversion Hstep as [st' own Hst Howner| e i' r Hcase|st' crm e]; subst.
  - right. right. eexists. split; [done|]. apply register_cases.
  - destruct Hrec as [Hrec|[[u Hu]|(st & Hs & Hr)]].
    + left. inversion Hcase; subst; try congruence; try done.
      * revert Hrec. unfold recorded. destruct (verdict (world s)) as [[[en re] crm]|]; [|congruence].
        intros (st1 & ? & ? & ?). eexists. split; [done|]. split; congruence.
      * unfold recorded. by destruct (verdict (world s)).
    + right. left. exists u. by apply Hregs.
    + inversion Hcase; subst; try congruence.
      * right. right. eexists. split; [done|congruence].
      * left. unfold recorded. by destruct (verdict (world s)).
      * by left.
  - destruct Hrec as [?|[[u Hu]|?]]; [by left|right; left|right; by right]. exists u. by apply Hregs.
Qed.
End Thread.

Lemma tpe_inv_run s s' : tpe_inv s → run_step s s' → tpe_inv s'.
Proof.
  intros [Hids Hown Hreq] [l1 t p l2 i p' calls Hth Hstep%step_cases]. split.
  - by eapply ids_thread.
  - intros st u Hi Hu. by eapply (owner_thread s l1 l2).
  - intros st Hi. by eapply (request_thread s).
Qed.
Lemma tpe_inv_init w : tpe_inv (tpe_init w).
Proof. split; simpl; [by split; constructor|done|done]. Qed.
Lemma tpe_inv_step silent timely s s' : tpe_inv s → step silent false timely s s' → tpe_inv s'.
Proof.
  intros I. destruct 1 as [s' Hr|w|w Hw|d Hd Ht|l1 t p l2 Hf]; [by eapply tpe_inv_run| | | |done].
  - destruct I as [Hids Hown Hreq]. split; simpl; [by apply ids_change| |done].
    intros st u Hi Hu. destruct (Hown st u Hi Hu) as (q & Hq & Hr). exists q. split; [by right|done].
  - by destruct I as [Hids Hown Hreq]; split.
  - by destruct I as [Hids Hown Hreq]; split.
Qed.
Lemma tpe_inv_reachable timely s : tpe_reachable false timely s → tpe_inv s.
Proof.
  intros (w & _ & Hsteps). pose proof (tpe_inv_init w) as Hinit. revert Hinit.
  induction Hsteps as [|s1 s2 s3 H1 _ IH]; [done|]. intros I. by eapply IH, tpe_inv_step.
Qed.
Lemma step_mono (silent silent' : tpe_world → tpe_world → Prop) faults timely s s' :
  (∀ w w', silent w w' → silent' w w') → step silent faults timely s s' → step silent' faults timely s s'.
Proof. intros Hs. destruct 1; [by apply s_run|apply s_change|apply s_silent; by apply Hs|by apply s_time|by eapply s_fail]. Qed.

(** A goroutine that is started brings the record up to date, and silent changes
    that keep the verdict leave it so. *)
Lemma started_up_to_date w s : up_to_date (started w s).
Proof. right. left. exists (nextID s). by left. Qed.
Lemma recorded_same w w' i : same_verdict w w' → recorded w i → recorded w' i.
Proof.
  unfold same_verdict, recorded.
  destruct (verdict w) as [[[e r] c]|], (verdict w') as [[[e' r'] c']|]; simpl; intros Hs; try done. by simplify_eq.
Qed.
Lemma up_to_date_step timely s s' :
  tpe_inv s → up_to_date s → step same_verdict false timely s s' → up_to_date s'.
Proof.
  intros I Hup. destruct 1 as [s' [l1 t p l2 i p' calls Hth Hstep%step_cases]|w|w Hw|d Hd Ht|l1 t p l2 Hf].
  - destruct I as [Hids Hown Hreq]. by eapply (recorded_thread s).
  - apply started_up_to_date.
  - destruct Hup as [Hr|Hp]; [left; by eapply recorded_same|by right].
  - exact Hup.
  - done.
Qed.
Lemma up_to_date_run timely s s' :
  tpe_inv s → up_to_date s → rtc (step same_verdict false timely) s s' → up_to_date s'.
Proof.
  intros I Hup Hsteps. induction Hsteps as [|s1 s2 s3 H1 _ IH]; [done|].
  apply IH; [by eapply tpe_inv_step|by eapply up_to_date_step].
Qed.

(** *** One call at a time *)

Definition applying_owner (s : tpe_state) : Prop :=
  ∀ t st crm, (t, Applying st crm) ∈ threads s →
    ∃ st0, inst s = Some st0 ∧ Owner st0 = Some t ∧ TpeEnable st0 = TpeEnable st ∧
      StartedAt st0 = StartedAt st ∧ now s <= StartedAt st + hour.
(** The last call is the one that the recorded state needs. *)
Definition call_made (s : tpe_state) : Prop :=
  ∀ st0, inst s = Some st0 →
    (∃ t st crm, (t, Applying st crm) ∈ threads s) ∨ RunRequested st0 = true ∨
    last (applied s) = Some (TpeEnable st0).
Record call_inv (faults : bool) (s : tpe_state) : Prop := {
  ci_ids : ids_ok s;
  ci_owner : applying_owner s;
  ci_made : faults = false → call_made s;
}.
Lemma in_threads_after l1 l2 t p' u q :
  (u, q) ∈ l1 ++ keep t p' ++ l2 → (u, q) ∈ l1 ++ l2 ∨ (u = t ∧ p' = Some q).
Proof.
  rewrite !elem_of_app. intros [?|[H|?]]; [by left; left| |by left; right].
  destruct p'; simpl in H; [|by inversion H]. apply list_elem_of_singleton in H. right. by simplify_eq.
Qed.
Lemma ids_rest s l1 t p l2 u q :
  ids_ok s → threads s = l1 ++ (t, p) :: l2 → (u, q) ∈ l1 ++ l2 → (u, q) ∈ threads s ∧ u ≠ t.
Proof.
  intros [Hnd _] Hth Hin. rewrite Hth in Hnd |- *. split.
  { rewrite elem_of_app in *. rewrite elem_of_cons. naive_solver. }
  intros ->. rewrite fmap_app in Hnd. simpl in Hnd. apply list.NoDup_app in Hnd as (_ & H2 & H3).
  inversion_clear H3 as [|? ? Hni]. apply elem_of_app in Hin as [Hin|Hin].
  - apply (H2 t); [apply list_elem_of_fmap; by exists (t, q)|left].
  - apply Hni, list_elem_of_fmap. by exists (t, q).
Qed.
Lemma applying_run s s' : ids_ok s → applying_owner s → run_step s s' → applying_owner s'.
Proof.
  intros Hids Happ [l1 t p l2 i p' calls Hth Hstep%step_cases] u st crm Hin. simpl in *.
  apply in_threads_after in Hin as [Hin|[-> Hp']].
  - destruct (ids_rest _ _ _ _ _ _ _ Hids Hth Hin) as [Hin' Hut].
    destruct (Happ u st crm Hin') as (st0 & Hs & Ho & He & Ha & Ht).
    inversion Hstep as [st' own Hst Howner| e i' r Hcase|st' crm' e]; subst.
    + eexists. split; [done|]. destruct (register_cases t (now s) (inst s)) as (_ & En & Hc).
      rewrite Hs in En, Hc |- *. simpl in En.
      destruct Hc as [(_ & _ & Hstale)|(_ & st1 & o & [= <-] & Ho1 & Ho2 & Hsa)].
      * specialize (Hstale st0 u eq_refl Ho). unfold stale in Hstale. apply bool_decide_eq_true in Hstale. lia.
      * split_and!; congruence.
    + exists st0. inversion Hcase; subst; split_and!; congruence.
    + by exists st0.
  - inversion Hstep as [st' own Hst Howner| e i' r Hcase|st' crm' e]; subst.
    + by destruct (register _ _ _).2.
    + inversion Hcase as [|st0|st0 st1|st0|st0 st1 crm1]; subst; try discriminate.
      simplify_eq. exists st. split_and!; try done. unfold hour. lia.
    + discriminate.
Qed.
Lemma call_made_run s s' :
  ids_ok s → applying_owner s → call_made s → run_step s s' → call_made s'.
Proof.
  intros Hids Happ Hmade [l1 t p l2 i p' calls Hth Hstep%step_cases] st0 Hi. simpl in *. subst i.
  inversion Hstep as [st' own Hst Howner| e i' r Hcase|st' crm' e]; subst.
  - right. left. apply register_cases.
  - rewrite app_nil_r. inversion Hcase as [|st1|st1 st2|st1|st1 st2 crm1]; subst.
    + destruct (Hmade st0 ltac:(done)) as [(u & st & crm & Hu)|Hr]; [|by right].
      left. exists u, st, crm. eapply (other_thread s); [done|done|done|]. intros ->.
      destruct (Happ t st crm Hu) as (st3 & ? & ? & _). congruence.
    + destruct (Hmade st1 ltac:(done)) as [(u & st & crm & Hu)|[Hr|Hr]]; [|congruence|right; right; congruence].
      exfalso. destruct (Happ u st crm Hu) as (st3 & ? & ? & _). assert (u = t) as -> by congruence.
      assert (Applying st crm = AtLoop e); [|done]. eapply ids_unique; [done|done|]. rewrite Hth. set_solver.
    + left. exists t, st0, crm1. simpl. set_solver.
  - right. right. rewrite last_snoc.
    destruct (Happ t st' crm') as (st3 & ? & ? & ? & _); [rewrite Hth; set_solver|]. congruence.
Qed.
Lemma call_inv_step silent faults s s' :
  call_inv faults s → step silent faults true s s' → call_inv faults s'.
Proof.
  intros [Hids Happ Hmade] Hstep. destruct Hstep as [s' Hr|w|w Hw|d Hd Ht|l1 t p l2 Hf Hth].
  - split; [|by eapply applying_run|intros Hf; by eapply call_made_run; eauto].
    destruct Hr. by eapply ids_thread.
  - split; simpl.
    + by apply ids_change.
    + intros t st crm Hin. apply (Happ t st crm). by apply elem_of_cons in Hin as [[=]|].
    + intros Hf st0 Hi. destruct (Hmade Hf st0 Hi) as [(t & st & crm & Hin)|?]; [|by right].
      left. exists t, st, crm. by right.
  - by split.
  - split; [done| |done]. intros t st crm Hin. destruct (Happ t st crm Hin) as (st0 & ? & ? & ? & ? & _).
    exists st0. split_and!; try done. by eapply Ht.
  - split; [exact (ids_thread s l1 t p l2 (inst s) (world s) (now s) None (applied s) Hids Hth)| |congruence].
    intros u st crm Hin. by apply (ids_rest s _ _ _ _ _ _ Hids Hth) in Hin as [?%Happ _].
Qed.
Lemma call_inv_reachable faults s : tpe_reachable faults true s → call_inv faults s.
Proof.
  intros (w & Hw & Hsteps).
  assert (call_inv faults (tpe_init w)) as Hinit.
  { split; [by split; constructor|intros t st crm Hin; by inversion Hin|done]. }
  revert Hinit. induction Hsteps as [|s1 s2 s3 H1 _ IH]; [done|]. intros I. by eapply IH, call_inv_step.
Qed.

(** *** How much there is to do *)

Definition weight (p : place) : nat :=
  match p with AtRegister => 6 | AtLoop _ => 1 | Applying _ _ => 2 end.
Definition requested (i : option TPEInstanceState) : nat :=
  match i with Some st => if RunRequested st then 4 else 0 | None => 0 end.
Definition work (s : tpe_state) : nat := (sum_list (weight ∘ snd <$> threads s) + requested (inst s))%nat.
Lemma work_run s s' : run_step s s' → (work s' < work s)%nat.
Proof.
  intros [l1 t p l2 i p' calls Hth Hstep%step_cases]. unfold work. cbn [threads inst]. rewrite Hth, !fmap_app.
  rewrite !sum_list_with_app || rewrite !sum_list_app. rewrite fmap_cons. simpl.
  assert (sum_list (weight ∘ snd <$> keep t p') + requested i < weight p + requested (inst s))%nat; [|lia].
  inversion Hstep as [st' own Hst Howner| e i' r Hcase|st' crm' e]; subst; simpl; [| |lia].
  - destruct (register _ _ _).2, (RunRequested _); simpl; lia.
  - inversion Hcase as [|st1|st1 st2|st1|st1 st2 crm1]; subst; simpl;
      repeat match goal with H : inst s = _ |- _ => rewrite H; clear H end; simpl;
      repeat match goal with H : RunRequested _ = _ |- _ => rewrite H; clear H end; lia.
Qed.
Lemma can_run s : threads s ≠ [] → ∃ s', run_step s s'.
Proof.
  destruct (threads s) as [|[t p] l] eqn:Hth; [done|]. intros _.
  assert (∃ i p' calls, thread_step t (world s) (now s) (inst s) p i p' calls) as (i & p' & calls & H).
  { destruct p as [|e|st [|]]; do 3 eexists; [apply ts_register|apply ts_loop|apply ts_edge|apply (ts_call _ _ _ _ _ None)]. }
  eexists. by apply (rs_thread s [] t p l i p' calls).
Qed.
Lemma work_runs n s s' : nsteps run_step n s s' → (n + work s' <= work s)%nat.
Proof. induction 1 as [|n s1 s2 s3 H1 _ IH]; [lia|]. apply work_run in H1. lia. Qed.

(** *** A thread that is gone *)

(** The owner is gone and the goroutines that there are have not registered. *)
Definition orphaned (o : nat) (sa : Z) (e : bool) (a : list bool) (s : tpe_state) : Prop :=
  Forall (λ x, x.2 = AtRegister) (threads s) ∧ applied s = a ∧
  ∃ st, inst s = Some st ∧ Owner st = Some o ∧ StartedAt st = sa ∧ TpeEnable st = e.
Lemma step_now silent faults timely s s' : step silent faults timely s s' → now s <= now s'.
Proof. destruct 1 as [s' []| | | |]; simpl; lia. Qed.
Lemma orphaned_step silent faults timely o sa e a s s' :
  orphaned o sa e a s → now s <= sa + hour → step silent faults timely s s' → orphaned o sa e a s'.
Proof.
  intros (Hall & Ha & st & Hi & Ho & Hs & He) Hnow Hstep.
  destruct Hstep as [s' [l1 t p l2 i p' calls Hth Hstep%step_cases]|w|w Hw|d Hd Ht|l1 t p l2 Hf Hth].
  - rewrite Hth in Hall. apply Forall_app in Hall as [Hall1 Hall2].
    inversion Hall2 as [|? ? Hp Hall2' Heq]; simpl in Hp; subst p.
    inversion Hstep as [st' own Hst Howner| |]; subst. simpl.
    destruct (register_cases t (now s) (inst s)) as (_ & En & Hc). rewrite Hi in *. simpl in En.
    destruct Hc as [(_ & _ & Hstale)|(-> & st1 & o1 & [= <-] & Ho1 & Ho2 & Hsa)].
    + specialize (Hstale st o eq_refl Ho). apply bool_decide_eq_true in Hstale. lia.
    + split; [by apply Forall_app|]. simpl. rewrite app_nil_r. split; [done|].
      eexists. split; [done|]. split_and!; congruence.
  - split; [by constructor|]. split; [done|]. by exists st.
  - split; [done|]. split; [done|]. by exists st.
  - split; [done|]. split; [done|]. by exists st.
  - rewrite Hth in Hall. apply Forall_app in Hall as [Hall1 Hall2]. inversion_clear Hall2.
    split; [by apply Forall_app|]. split; [done|]. by exists st.
Qed.

(** ** The properties *)

(** C19: take any state that the goroutines of the controllers and the changes of
    objects lead to, let a goroutine be started, and let things go on with any
    changes that start one, and of those that start none with such as do not
    change what the objects say of the exception.  Then, when no transaction,
    call or controller fails and no call takes more than an hour, whenever no
    goroutine is left, what is recorded for the instance is what the objects
    say, however all this interleaved: nothing when an object is gone, else
    whether the exception applies and why not, with no owner and no request left
    over, and the last call that was made is the one that this needs.  A change
    that starts no goroutine and matters is not applied before the next one that
    does ([silent_change_stays]). *)
Theorem tpe_converges (s0 : tpe_state) (w : tpe_world) (s : tpe_state)
    (Hreach0 : tpe_reachable false true s0)
    (Hsteps : rtc (step same_verdict false true) (started w s0) s) (Hidle : threads s = []) :
  match verdict (world s) with
  | None => inst s = None
  | Some (enable, reason, _) =>
      ∃ st, inst s = Some st ∧ Owner st = None ∧ RunRequested st = false ∧
        TpeEnable st = enable ∧ DisableReason st = reason ∧ last (applied s) = Some enable
  end.
Proof.
  assert (tpe_reachable false true s) as Hreach.
  { destruct Hreach0 as (w0 & Hw0 & H0). exists w0. split; [done|].
    etrans; [eapply rtc_r; [exact H0|apply (s_change _ _ _ _ w)]|].
    eapply rtc_subrel; [|exact Hsteps]. intros x y. by apply step_mono. }
  assert (up_to_date s) as Hrec.
  { eapply up_to_date_run; [|apply (started_up_to_date w s0)|exact Hsteps].
    eapply (tpe_inv_step any_change true s0); [exact (tpe_inv_reachable _ _ Hreach0)|apply s_change]. }
  destruct (tpe_inv_reachable _ _ Hreach) as [_ Hown Hreq].
  destruct (call_inv_reachable _ _ Hreach) as [_ _ Hmade]. specialize (Hmade eq_refl).
  assert (∀ st, inst s = Some st → Owner st = None) as Hno.
  { intros st Hi. destruct (Owner st) as [t|] eqn:Ho; [|done].
    destruct (Hown st t Hi Ho) as (p & Hp & _). rewrite Hidle in Hp. by inversion Hp. }
  assert (∀ st, inst s = Some st → RunRequested st = false) as Hnr.
  { intros st Hi. destruct (RunRequested st) eqn:Hr; [|done]. by destruct (Hreq st Hi Hr (Hno st Hi)). }
  destruct Hrec as [Hrec|[(t & Ht)|(st & Hi & Hr)]].
  - revert Hrec. unfold recorded. destruct (verdict (world s)) as [[[e reason] crm]|]; [|done].
    intros (st & Hi & He & Hre). exists st. split_and!; try done; [by apply Hno|by apply Hnr|].
    destruct (Hmade st Hi) as [(t & st1 & crm1 & Ht)|[Hr|Hl]]; [|by rewrite (Hnr st Hi) in Hr|congruence].
    rewrite Hidle in Ht. by inversion Ht.
  - rewrite Hidle in Ht. by inversion Ht.
  - by rewrite (Hnr st Hi) in Hr.
Qed.

(** C31: as long as no call takes more than an hour by a clock that the
    controllers share, no two goroutines, of the same or of different
    controllers, apply the exception to the application instance at the same
    time, whatever objects change, and also when transactions, calls and
    controllers fail; and the one that applies is the recorded owner and applies
    what is recorded.  What an edge resource manager does after it was notified
    is not part of the call.  A call that takes longer is overlapped by another
    ([slow_call_overlaps]). *)
Theorem tpe_one_call (faults : bool) (s : tpe_state) (t u : nat) (st1 st2 : TPEInstanceState) (c1 c2 : bool)
    (Hreach : tpe_reachable faults true s)
    (H1 : (t, Applying st1 c1) ∈ threads s) (H2 : (u, Applying st2 c2) ∈ threads s) :
  t = u ∧ st1 = st2 ∧ ∃ st, inst s = Some st ∧ Owner st = Some t ∧ TpeEnable st = TpeEnable st1.
Proof.
  destruct (call_inv_reachable _ _ Hreach) as [Hids Happ _].
  destruct (Happ _ _ _ H1) as (st & Hi & Ho & He & _), (Happ _ _ _ H2) as (st' & Hi' & Ho' & _).
  assert (t = u) as <- by congruence. pose proof (ids_unique _ _ _ _ Hids H1 H2) as [= <- <-].
  split_and!; [done|done|]. by exists st.
Qed.

(** The goroutines finish: in every state, with no further change of the
    objects, any goroutine that is left can go on, and however they
    interleave there are at most [work s] transactions and calls. *)
Theorem tpe_finishes (s s' : tpe_state) (n : nat) (Hruns : nsteps run_step n s s') :
  (n <= work s)%nat ∧ (threads s' ≠ [] → ∃ s'', run_step s' s'').
Proof. split; [apply work_runs in Hruns; lia|apply can_run]. Qed.

(** A run that ends with an error of its transaction, of the platform's
    features or of the connection does not give the state up: for an hour after
    its last start no change of the objects is applied and no goroutine calls
    the platform, although each one that registers ends without an error. *)
Theorem failed_owner_blocks (faults timely : bool) (s s' : tpe_state) (st : TPEInstanceState) (o : nat)
    (Hidle : threads s = []) (Hinst : inst s = Some st) (Howner : Owner st = Some o)
    (Hsteps : rtc (step any_change faults timely) s s') (Hhour : now s' <= StartedAt st + hour) :
  applied s' = applied s ∧ ∃ st', inst s' = Some st' ∧ Owner st' = Some o ∧ TpeEnable st' = TpeEnable st.
Proof.
  assert (orphaned o (StartedAt st) (TpeEnable st) (applied s) s') as (_ & Ha & st' & ? & ? & _ & ?); [|eauto].
  revert Hhour. pattern s'. revert s' Hsteps. apply (rtc_ind_r _ s).
  - intros _. split; [by rewrite Hidle|]. split; [done|]. by exists st.
  - intros s1 s2 Hs1 H1 IH Hhour. pose proof (step_now _ _ _ _ _ H1).
    eapply orphaned_step; [apply IH; lia|lia|done].
Qed.

(** ** Runs *)

Module TPEWitness.
(** What happens in a run: the [k]-th goroutine goes on or is gone. *)
Inductive event := Change (w : tpe_world) | Silent (w : tpe_world) | Later (d : Z) | Run (k : nat) (callErr : option error) | Gone (k : nat).
Definition run_thread (t : nat) (w : tpe_world) (nw : Z) (i : option TPEInstanceState) (callErr : option error)
    (p : place) : option TPEInstanceState * option place * list bool :=
  match p with
  | AtRegister =>
      (Some (register t nw i).1, if (register t nw i).2 then Some (AtLoop None) else None, [])
  | AtLoop e =>
      ((loop_body t nw e w i).1,
       match (loop_body t nw e w i).2 with LApply st crm => Some (Applying st crm) | _ => None end, [])
  | Applying st true => (i, Some (AtLoop None), [TpeEnable st])
  | Applying st false => (i, Some (AtLoop callErr), [TpeEnable st])
  end.
Definition in_time (s : tpe_state) (d : Z) : bool :=
  forallb (λ x, match x.2 with Applying st _ => bool_decide (now s + d <= StartedAt st + hour) | _ => true end)
    (threads s).
Definition happen (faults timely : bool) (ev : event) (s : tpe_state) : option tpe_state :=
  match ev with
  | Change w => Some (started w s)
  | Silent w => Some (mkTPEState (inst s) w (now s) (threads s) (nextID s) (applied s))
  | Later d =>
      if bool_decide (0 < d) && (negb timely || in_time s d)
      then Some (mkTPEState (inst s) (world s) (now s + d) (threads s) (nextID s) (applied s)) else None
  | Run k ce =>
      match threads s !! k with
      | None => None
      | Some (t, p) =>
          let r := run_thread t (world s) (now s) (inst s) ce p in
          Some (mkTPEState r.1.1 (world s) (now s) (take k (threads s) ++ keep t r.1.2 ++ drop (S k) (threads s))
                  (nextID s) (applied s ++ r.2))
      end
  | Gone k =>
      if faults then
        match threads s !! k with
        | None => None
        | Some _ => Some (mkTPEState (inst s) (world s) (now s) (take k (threads s) ++ drop (S k) (threads s))
                            (nextID s) (applied s))
        end
      else None
  end.
Definition play (faults timely : bool) : list event → tpe_state → option tpe_state :=
  fix go evs s := match evs with [] => Some s | ev :: evs => happen faults timely ev s ≫= go evs end.

Lemma run_thread_sound t w nw i ce p :
  thread_step t w nw i p (run_thread t w nw i ce p).1.1 (run_thread t w nw i ce p).1.2 (run_thread t w nw i ce p).2.
Proof. destruct p as [|e|st [|]]; constructor. Qed.
Definition loud (ev : event) : bool := match ev with Silent _ => false | _ => true end.
Lemma happen_sound (silent : tpe_world → tpe_world → Prop) faults timely ev s s' :
  (∀ w w', silent w w') ∨ loud ev → happen faults timely ev s = Some s' → step silent faults timely s s'.
Proof.
  intros Hsil. destruct ev as [w|w|d|k ce|k]; cbn [happen].
  - intros [= <-]. apply s_change.
  - intros [= <-]. apply s_silent. by destruct Hsil.
  - destruct (bool_decide (0 < d)) eqn:Hd; [|done]. apply bool_decide_eq_true in Hd.
    destruct (negb timely || in_time s d) eqn:Ht; [|done]. intros [= <-]. apply s_time; [done|].
    intros -> t st crm Hin. simpl in Ht. unfold in_time in Ht. rewrite forallb_forall in Ht.
    specialize (Ht (t, Applying st crm)). apply bool_decide_eq_true in Ht; [done|].
    by apply list_elem_of_In.
  - destruct (threads s !! k) as [[t p]|] eqn:Hk; [|done]. intros [= <-]. apply s_run, (rs_thread _ _ _ p).
    + symmetry. by apply take_drop_middle.
    + apply run_thread_sound.
  - destruct faults; [|done]. destruct (threads s !! k) as [[t p]|] eqn:Hk; [|done]. intros [= <-].
    apply (s_fail _ _ _ _ _ t p); [done|]. symmetry. by apply take_drop_middle.
Qed.
Lemma play_sound (silent : tpe_world → tpe_world → Prop) faults timely evs s s' :
  (∀ w w', silent w w') ∨ forallb loud evs → play faults timely evs s = Some s' → rtc (step silent faults timely) s s'.
Proof.
  revert s. induction evs as [|ev evs IH]; intros s Hl; cbn [play]; [by intros [= ->]|].
  intros (s1 & H1 & H2)%bind_Some. simpl in Hl. rewrite andb_True in Hl.
  eapply rtc_l; [eapply happen_sound, H1; tauto|apply IH; tauto].
Qed.
Lemma play_reachable faults timely evs w s :
  verdict w = None → play faults timely evs (tpe_init w) = Some s → tpe_reachable faults timely s.
Proof. intros Hw Hp. exists w. split; [done|]. eapply play_sound, Hp. by left. Qed.

Definition zk : ZoneKey := mkZoneKey "op" "z1" "".
Definition ak : AppKey := mkAppKey "dev" "game" "1.0".
Definition pk : ZonePoolKey := mkZonePoolKey "op" "pool".
Definition cloudlet : tpe_cloudlet :=
  mkTPECloudlet (mkCloudlet (mkCloudletKey "op" "c1" "") "z1" NORMAL_OPERATION) "policy" false.
Definition pool (zs : list ZoneKey) : ZonePool := mkZonePool [] pk zs (mkTimestamp 0 0) (mkTimestamp 0 0) false.
Definition ai (st : TrackedState) : AppInst :=
  mkAppInst (mkAppInstKey "i" "dev") ak (mkCloudletKey "op" "c1" "") zk LIVENESS_STATIC st HEALTH_CHECK_OK.
Definition tpe : TrustPolicyException := mkTPE [] (mkTPEKey ak pk "e") STATE_ACTIVE [].
Definition w0 : tpe_world := mkWorld (Some cloudlet) (Some (pool [zk])) None (Some IP_ACCESS_DEDICATED) (Some tpe).
Definition w1 : tpe_world :=
  mkWorld (Some cloudlet) (Some (pool [zk])) (Some (ai READY)) (Some IP_ACCESS_DEDICATED) (Some tpe).
Definition w2 : tpe_world :=
  mkWorld (Some cloudlet) (Some (pool [])) (Some (ai READY)) (Some IP_ACCESS_DEDICATED) (Some tpe).
Lemma verdict_w0 : verdict w0 = None.
Proof. reflexivity. Qed.

(** The instance becomes ready and, while the platform is being called, its
    zone leaves the pool: the owner runs again. *)
Definition overlap : list event :=
  [Change w1; Run 0 None; Run 0 None; Later hour; Change w2; Run 0 None].
Definition settle : list event := [Run 0 (Some "timeout"); Run 0 None; Run 0 None; Run 0 None].
Definition during : tpe_state := default (tpe_init w0) (play false true overlap (tpe_init w0)).
Definition after : tpe_state := default (tpe_init w0) (play false true (overlap ++ settle) (tpe_init w0)).
Lemma reach_during : tpe_reachable false true during.
Proof. apply (play_reachable _ _ overlap w0); [reflexivity|]. vm_compute. reflexivity. Qed.
Lemma tpe_converges_witness :
  threads after = [] ∧ applied after = [true; false] ∧
  verdict w2 = Some (false, "zone not in trust policy exception zone pool", false) ∧
  ∃ st, inst after = Some st ∧ Owner st = None ∧ RunRequested st = false ∧ TpeEnable st = false ∧
    DisableReason st = "zone not in trust policy exception zone pool" ∧ last (applied after) = Some false.
Proof.
  split; [vm_compute; reflexivity|]. split; [vm_compute; reflexivity|]. split; [vm_compute; reflexivity|].
  assert (rtc (step same_verdict false true) (started w1 (tpe_init w0)) after) as Hsteps.
  { apply (play_sound _ _ _ (skipn 1 (overlap ++ settle))); [by right|]. vm_compute. reflexivity. }
  refine (tpe_converges (tpe_init w0) w1 after _ Hsteps ltac:(vm_compute; reflexivity)).
  exists w0. split; [reflexivity|apply rtc_refl].
Defined.

Definition applying : TPEInstanceState := mkTPEInst (Some 0%nat) false 1 true "" "" 0.
Lemma tpe_one_call_witness :
  (0%nat, Applying applying false) ∈ threads during ∧
  ∃ st, inst during = Some st ∧ Owner st = Some 0%nat ∧ TpeEnable st = true.
Proof.
  assert ((0%nat, Applying applying false) ∈ threads during) as H.
  { apply list_elem_of_lookup. exists 0%nat. vm_compute. reflexivity. }
  split; [exact H|].
  exact (proj2 (proj2 (tpe_one_call false during 0 0 applying applying false false reach_during H H))).
Defined.
(** A call that takes longer than an hour: the next change takes over and a
    second call is made during the first. *)
Example slow_call_overlaps :
  ∃ s st1 st2, tpe_reachable false false s ∧
    threads s = [(1%nat, Applying st2 false); (0%nat, Applying st1 false)] ∧ TpeEnable st1 = true ∧ TpeEnable st2 = false.
Proof.
  set (evs := [Change w1; Run 0 None; Run 0 None; Later (hour + 1); Change w2; Run 0 None; Run 0 None]).
  exists (default (tpe_init w0) (play false false evs (tpe_init w0))). do 2 eexists. split.
  - apply (play_reachable _ _ evs w0); [reflexivity|]. vm_compute. reflexivity.
  - split; [vm_compute; reflexivity|]. split; reflexivity.
Qed.

Lemma tpe_finishes_witness :
  nsteps run_step 1 during (default during (happen false true (Run 0 None) during)) ∧ work during = 6%nat ∧
  (1 <= work during)%nat.
Proof.
  assert (nsteps run_step 1 during (default during (happen false true (Run 0 None) during))) as H.
  { eapply nsteps_once. exact (rs_thread during [] 0 (Applying applying false) [] (inst during) (Some (AtLoop None))
      [true] ltac:(vm_compute; reflexivity) (ts_call 0 _ _ _ applying None)). }
  split; [exact H|]. split; [vm_compute; reflexivity|].
  exact (proj1 (tpe_finishes during _ 1 H)).
Defined.

(** The owner gets an error from the platform's features after it has recorded
    that the exception applies; the removal from the pool is not applied. *)
Definition orphan : tpe_state :=
  default (tpe_init w0) (play true true [Change w1; Run 0 None; Run 0 None; Gone 0] (tpe_init w0)).
Definition blocked : tpe_state :=
  default orphan (play true true [Change w2; Run 0 None; Later hour; Change w2; Run 0 None] orphan).
Lemma failed_owner_blocks_witness :
  threads orphan = [] ∧ world blocked = w2 ∧ threads blocked = [] ∧ applied orphan = [] ∧
  applied blocked = applied orphan ∧
  ∃ st', inst blocked = Some st' ∧ Owner st' = Some 0%nat ∧ TpeEnable st' = true.
Proof.
  split; [vm_compute; reflexivity|]. split; [vm_compute; reflexivity|]. split; [vm_compute; reflexivity|].
  split; [vm_compute; reflexivity|].
  refine (failed_owner_blocks true true orphan blocked applying 0 ltac:(vm_compute; reflexivity)
    ltac:(vm_compute; reflexivity) eq_refl _ _).
  - apply (play_sound _ _ _ [Change w2; Run 0 None; Later hour; Change w2; Run 0 None]); [by left|].
    vm_compute. reflexivity.
  - vm_compute. discriminate.
Defined.

(** The cloudlet of an instance for which the exception applies is moved to
    another zone, which starts no goroutine: the exception still applies, and
    stays so whatever time passes. *)
Definition moved : tpe_world :=
  mkWorld (Some (mkTPECloudlet (mkCloudlet (mkCloudletKey "op" "c1" "") "z2" NORMAL_OPERATION) "policy" false))
    (Some (pool [zk])) (Some (ai READY)) (Some IP_ACCESS_DEDICATED) (Some tpe).
Example silent_change_stays :
  ∃ s st, tpe_reachable false true s ∧ threads s = [] ∧ world s = moved ∧
    verdict moved = Some (false, "zone not in trust policy exception zone pool", false) ∧
    inst s = Some st ∧ TpeEnable st = true ∧ last (applied s) = Some true.
Proof.
  set (evs := [Change w1; Run 0 None; Run 0 None; Run 0 None; Run 0 None; Silent moved; Later (2 * hour)]).
  exists (default (tpe_init w0) (play false true evs (tpe_init w0))). eexists. split.
  - apply (play_reachable _ _ evs w0); [reflexivity|]. vm_compute. reflexivity.
  - split; [vm_compute; reflexivity|]. split; [vm_compute; reflexivity|]. split; [reflexivity|].
    split; [vm_compute; reflexivity|]. split; reflexivity.
Qed.

Definition clk : ClusterKey := mkClusterKey "cl" "dev".
Definition cs : Trigger.caches :=
  Trigger.mkCaches [ak] [tc_Cloudlet cloudlet] [(ai READY, clk)] [tpe] [pool [zk]].
Lemma changes_reach_instances_witness :
  Trigger.applyTPE cs (tpe_Key tpe) = [Trigger.mkTPEInstanceKey (tpe_Key tpe) (ai_Key (ai READY)) clk (cl_Key (tc_Cloudlet cloudlet))] ∧
  Trigger.mkTPEInstanceKey (tpe_Key tpe) (ai_Key (ai READY)) clk (cl_Key (tc_Cloudlet cloudlet)) ∈
    Trigger.applyTPE cs (tpe_Key tpe).
Proof.
  split; [vm_compute; reflexivity|].
  refine (proj1 (Trigger.changes_reach_instances cs tpe (ai READY) clk (tc_Cloudlet cloudlet) (pool [zk]) _ _)).
  - split; apply NoDup_singleton.
  - split; try (apply list_elem_of_singleton; reflexivity); try reflexivity. discriminate.
Defined.
End TPEWitness.
