(* ===== verification/PlaceObjs.v ===== *)
(** * Placement: its objects (api/edgeproto, cloudcommon/deployment.go, names.go)

    Applications, instances and clusters as far as the code that places
    instances reads them, and the small functions of cloudcommon on them.  An
    application carries the part that [ZoneObjs] has of it. *)

From S2P Require Export ResFits ProvObjs.
#[local] Open Scope Z_scope.

(** ** Enumerations and constants *)

Definition DeploymentTypeKubernetes : string := "kubernetes".
Definition DeploymentTypeVM : string := "vm".
Definition DeploymentTypeHelm : string := "helm".
Definition DeploymentTypeDocker : string := "docker".
Definition OrganizationEdgeCloud : string := "edgecloudorg".
Definition OrganizationEdgeCloudOld : string := "openXedge".
Definition OrganizationEdgeCloudOlder : string := "MobiledgeX".
Definition AnnotationFedPartnerAppProviderID : string := "fed-partner-app-provider-id".

Inductive DeleteType := NO_AUTO_DELETE | AUTO_DELETE.
#[global] Instance DeleteType_eq_dec : EqDecision DeleteType.
Proof. solve_decision. Defined.
Inductive AccessType := ACCESS_TYPE_DEFAULT_FOR_DEPLOYMENT | ACCESS_TYPE_DIRECT | ACCESS_TYPE_LOAD_BALANCER.
#[global] Instance AccessType_eq_dec : EqDecision AccessType.
Proof. solve_decision. Defined.
Inductive ImageType :=
| IMAGE_TYPE_UNKNOWN | IMAGE_TYPE_DOCKER | IMAGE_TYPE_QCOW | IMAGE_TYPE_HELM | IMAGE_TYPE_OVF | IMAGE_TYPE_OVA.
#[global] Instance ImageType_eq_dec : EqDecision ImageType.
Proof. solve_decision. Defined.

(** ** Data *)

(** An app that is deployed. *)
Record DApp := mkDApp {
  da_App : App;
  da_DelOpt : DeleteType;
  da_AccessType : AccessType;
  AllowServerless : bool;
  ManagesOwnNamespaces : bool;
  da_ImageType : ImageType;
  RequiredOutboundConnections : list SecurityRule;
}.
(** An instance that is placed. *)
Record DInst := mkDInst {
  di_Key : AppInstKey;
  di_AppKey : AppKey;
  di_ClusterKey : ClusterKey;
  di_CloudletKey : CloudletKey;
  di_State : TrackedState;
  di_KubernetesResources : option KubernetesResources;
  di_NodeResources : option NodeResources;
  di_EnableIpv6 : bool;
  di_IsStandalone : bool;
  di_Annotations : gmap string string;
}.
(** A cluster; its node pools or node are [cu_Resources]. *)
Record Cluster := mkCluster {
  cu_Key : ClusterKey;
  cu_CloudletKey : CloudletKey;
  cu_Deployment : string;
  cu_State : TrackedState;
  cu_IpAccess : IpAccess;
  cu_Reservable : bool;
  cu_ReservedBy : string;
  cu_MultiTenant : bool;
  cu_DeletePrepare : bool;
  cu_EnableIpv6 : bool;
  DisableDynamicAppinstPlacement : bool;
  KubernetesVersion : string;
  MasterNodeFlavor : string;
  NumMasters : Z;
  cu_Resources : ClusterInst;
}.
Record ClusterRefs := mkClusterRefs { cr_Key : ClusterKey; cr_Apps : list AppInstKey }.

Definition da_Key (a : DApp) : AppKey := app_Key (da_App a).
Definition da_Deployment (a : DApp) : string := app_Deployment (da_App a).

(** ** cloudcommon *)

Definition IsEdgeCloudOrg (s : string) : bool :=
  bool_decide (s = OrganizationEdgeCloud ∨ s = OrganizationEdgeCloudOld ∨ s = OrganizationEdgeCloudOlder).
Definition IsSideCarApp (app : DApp) : bool :=
  IsEdgeCloudOrg (ak_Organization (da_Key app)) && bool_decide (da_DelOpt app = AUTO_DELETE).
Definition IsClusterInstReqd (app : DApp) : bool := negb (bool_decide (da_Deployment app = DeploymentTypeVM)).
Definition AppDeploysToKubernetes (deployment : string) : bool :=
  bool_decide (deployment = DeploymentTypeKubernetes ∨ deployment = DeploymentTypeHelm).
Definition AppInstToClusterDeployment (deployment : string) : string :=
  if decide (deployment = DeploymentTypeHelm) then DeploymentTypeKubernetes else deployment.
Definition GetAppInstOwner (i : DInst) : string :=
  match di_Annotations i !! AnnotationFedPartnerAppProviderID with
  | Some id => id
  | None => aik_Organization (di_Key i)
  end.
(** [strings.EqualFold], on ASCII. *)
Definition OrgName_Matches (s o : string) : bool := bool_decide (to_lower s = to_lower o).
(** The order [<] on strings. *)
Definition str_less (a b : string) : bool := negb (bool_decide (String.le b a)).
