(* ===== verification/ClustRes.v ===== *)
(** * Resources in clusters (controller/cluster_resources.go, clusterinst_api.go)

    What the instances of a cluster use, what the cluster has, whether another
    instance fits, the usage that is shown, and the cluster that is made for an
    instance.  [place_keeps_capacity]: what the instances that were placed with
    the check need and what the cluster has, for clusters that the user named and
    others, with sidecars and without. *)

From S2P Require Export ZoneApi PlaceObjs.
From S2P Require Import Udec.
Import Udec.
#[local] Open Scope Z_scope.

(** The caches that the code reads. *)
Record inst_caches := mkInstCaches {
  ic_insts : gmap AppInstKey DInst;
  ic_apps : gmap AppKey DApp;
}.

(** Weights of [calcResourceScore] (cloudlet_resource_check.go). *)
Definition resourceWeights : gmap string Z := {[ResourceVcpus := 1000; ResourceRamMb := 1]}.

Section ClustRes.
Context {GR : GoRange} {GS : GoSort} `{JIK : !Json AppInstKey, JAK : !Json AppKey}.

(** ** Used resources *)

Section Walk.
Context {S : Type} (cs : inst_caches) (newAppInst : option AppInstKey) (cb : DApp → DInst → S → result S).
Fixpoint walkClusterAppInsts (refs : list AppInstKey) (s : S) : result S :=
  match refs with
  | [] => Ok s
  | aikey :: refs' =>
      if decide (newAppInst = Some aikey) then walkClusterAppInsts refs' s
      else
        match ic_insts cs !! aikey with
        | None => Err (NotFoundError "AppInst" aikey)
        | Some appInst =>
            match ic_apps cs !! di_AppKey appInst with
            | None => Err (NotFoundError "App" (di_AppKey appInst))
            | Some app => s' ← cb app appInst s; walkClusterAppInsts refs' s'
            end
        end
  end.
End Walk.

Definition add_kubernetes (app : DApp) (appInst : DInst) (s : ResValMap * ResValMap) :
    result (ResValMap * ResValMap) :=
  match di_KubernetesResources appInst with
  | None => Ok s
  | Some kr =>
      if IsSideCarApp app then Ok s
      else
        cpu ← AddNodePoolResources s.1 (CpuPool kr);
        gpu ← AddNodePoolResources s.2 (GpuPool kr);
        Ok (cpu, gpu)
  end.
Definition calcKubernetesClusterUsedResources (cs : inst_caches) (refs : ClusterRefs)
    (newAppInst : option AppInstKey) : result (ResValMap * ResValMap) :=
  walkClusterAppInsts cs newAppInst add_kubernetes (cr_Apps refs) (∅, ∅).
Definition add_vm (app : DApp) (appInst : DInst) (s : ResValMap) : result ResValMap :=
  match di_NodeResources appInst with
  | None => Ok s
  | Some nr => AddNodeResources s (Some nr) 1
  end.
Definition calcVMClusterUsedResources (cs : inst_caches) (refs : ClusterRefs)
    (newAppInst : option AppInstKey) : result ResValMap :=
  walkClusterAppInsts cs newAppInst add_vm (cr_Apps refs) ∅.

(** ** Whether an instance fits *)

(** [None] is the panic for an instance without Kubernetes resources. *)
Definition fitsAppResources (cs : inst_caches) (ci : Cluster) (refs : ClusterRefs) (app : DApp) (appInst : DInst)
    (flavorLookup : FlavorLookup) (clusterSpecified : bool) :
    option (option KubeResScaleSpec * ResValMap * option error) :=
  let noFreeRes : ResValMap := ∅ in
  if IsSideCarApp app then Some (None, noFreeRes, None)
  else if AppDeploysToKubernetes (da_Deployment app) then
    match calcKubernetesClusterUsedResources cs refs (Some (di_Key appInst)) with
    | Err err => Some (None, noFreeRes, Some err)
    | Ok (cpuUsed, gpuUsed) =>
        kr ← di_KubernetesResources appInst;
        Some (KubernetesResourcesFits (cu_Resources ci) kr cpuUsed gpuUsed flavorLookup clusterSpecified)
    end
  else
    match calcVMClusterUsedResources cs refs (Some (di_Key appInst)) with
    | Err err => Some (None, noFreeRes, Some err)
    | Ok used =>
        Some (None, noFreeRes,
          match NodeResourcesFits (cu_Resources ci) (di_NodeResources appInst) used flavorLookup with
          | Ok _ => None
          | Err err => Some err
          end)
    end.

(** ** What a cluster has *)

(** [None] is the panic for a pool without node resources. *)
Fixpoint total_pools (flavorLookup : FlavorLookup) (pools : list NodePool) (cpuRes gpuRes : ResValMap) :
    option (result (ResValMap * ResValMap)) :=
  match pools with
  | [] => Some (Ok (cpuRes, gpuRes))
  | pool :: pools' =>
      nr ← np_NodeResources pool;
      match GetInfraNodeResources nr flavorLookup with
      | Err err => Some (Err ("pool " +:+ np_Name pool +:+ " " +:+ err))
      | Ok infraRes =>
          match NodeResourcesToResValMap (Some infraRes) with
          | Err err => Some (Err ("pool " +:+ np_Name pool +:+ " resources " +:+ err))
          | Ok infraResCounts =>
              if decide (0 < NodeResourcesGPUCount (np_NodeResources pool)) then
                total_pools flavorLookup pools' cpuRes (AddAllMult gpuRes infraResCounts (np_NumNodes pool))
              else total_pools flavorLookup pools' (AddAllMult cpuRes infraResCounts (np_NumNodes pool)) gpuRes
          end
      end
  end.
Definition calcKubernetesClusterTotalResources (ci : Cluster) (flavorLookup : FlavorLookup) :
    option (result (ResValMap * ResValMap)) :=
  total_pools flavorLookup (ci_NodePools (cu_Resources ci)) ∅ ∅.
Definition calcVMClusterTotalResources (ci : Cluster) (flavorLookup : FlavorLookup) : result ResValMap :=
  match ci_NodeResources (cu_Resources ci) with
  | None => Ok ∅
  | Some nr =>
      nodeRes ← GetInfraNodeResources nr flavorLookup;
      NodeResourcesToResValMap (Some nodeRes)
  end.

(** ** What is shown *)

Definition calcResourceScore (free : ResValMap) : Z :=
  let '(score, numScored) := fold_left (λ sn rw,
    match free !! rw.1 with
    | Some resVal =>
        let freeDecVal := Mult (NewUdec64 (Whole (rv_Value resVal)) (Nanos (rv_Value resVal))) (u32 rw.2) in
        (u64 (sn.1 + Whole freeDecVal), u64 (sn.2 + 1))
    | None => sn
    end) (go_range resourceWeights) (0, 0) in
  if decide (numScored = 0) then 0 else score `div` numScored.

Definition set_max (infraRes : InfraResource) (v m : Z) : InfraResource :=
  mkInfraResource (ir_Name infraRes) v m (QuotaMaxValue infraRes) (ir_Units infraRes) (ir_Type infraRes)
    (ir_AlertThreshold infraRes).
Definition clusterResValToInfra (usedVals totalVals : ResValMap) : list InfraResource :=
  let used := (λ kv,
    let infraRes := AsInfraRes kv.2 in
    match totalVals !! kv.1 with
    | Some total => set_max infraRes (ir_Value infraRes) (Whole (rv_Value total))
    | None => infraRes
    end) <$> go_range usedVals in
  let rest := omap (λ kv,
    if decide (is_Some (usedVals !! kv.1)) then None
    else let infraRes := AsInfraRes kv.2 in Some (set_max infraRes 0 (ir_Value infraRes))) (go_range totalVals) in
  go_sort (λ a b, str_less (ir_Name a) (ir_Name b)) (used ++ rest).

Record ClusterResourceUsage := mkUsage {
  TotalResources : list InfraResource;
  CpuPoolsResources : list InfraResource;
  GpuPoolsResources : list InfraResource;
  ResourceScore : Z;
  CpuPoolsResourceScore : Z;
  GpuPoolsResourceScore : Z;
}.
Definition getClusterResourceUsage (cs : inst_caches) (refs : option ClusterRefs) (ci : Cluster)
    (key : string) (flavorLookup : FlavorLookup) : option (result ClusterResourceUsage) :=
  let refs := default (mkClusterRefs (cu_Key ci) []) refs in
  let used_err (e : error) : error := "failed to get used resources for cluster " +:+ key +:+ ", " +:+ e in
  let total_err (e : error) : error := "failed to get total resources for cluster " +:+ key +:+ ", " +:+ e in
  if decide (cu_Deployment ci = DeploymentTypeKubernetes) then
    match calcKubernetesClusterUsedResources cs refs None with
    | Err e => Some (Err (used_err e))
    | Ok (cpuUsed, gpuUsed) =>
        total ← calcKubernetesClusterTotalResources ci flavorLookup;
        match total with
        | Err e => Some (Err (total_err e))
        | Ok (cpuTotal, gpuTotal) =>
            let cpuFree := (SubFloorAll (Clone cpuTotal) cpuUsed false).1 in
            let gpuFree := (SubFloorAll (Clone gpuTotal) gpuUsed false).1 in
            let used := AddAllMult cpuUsed gpuUsed 1 in
            let all := AddAllMult cpuTotal gpuTotal 1 in
            let free := (SubFloorAll (Clone all) used false).1 in
            Some (Ok (mkUsage (clusterResValToInfra used all) (clusterResValToInfra cpuUsed cpuTotal)
              (clusterResValToInfra gpuUsed gpuTotal) (calcResourceScore free) (calcResourceScore cpuFree)
              (calcResourceScore gpuFree)))
        end
    end
  else
    match calcVMClusterUsedResources cs refs None with
    | Err e => Some (Err (used_err e))
    | Ok used =>
        match calcVMClusterTotalResources ci flavorLookup with
        | Err e => Some (Err (total_err e))
        | Ok total =>
            let free := (SubFloorAll (Clone total) used false).1 in
            Some (Ok (mkUsage (clusterResValToInfra used total) [] [] (calcResourceScore free) 0 0))
        end
    end.

(** ** The cluster made for an instance *)

Definition f64_to_u64 (f : float64) : Z := u64 (f64_trunc_Z f).
(** [uint64(math.Ceil(x / float64(numNodes)))]. *)
Definition per_node (x : float64) (numNodes : Z) : Z := f64_to_u64 (f64_Ceil (f64_div x (f64_of_Z numNodes))).
Definition set_Count (g : GPUResource) (c : Z) : GPUResource :=
  mkGPU (ModelId g) c (Vendor g) (Memory g) (InUse g).

(** The minimum GPUs are shared by the request and the node pool; the loop
    sets the count of the last one of a model ([nrGpusLookup]) or appends
    another one, which only the node pool has. *)
Fixpoint last_gpu (model : string) (mins : list GPUResource) : option GPUResource :=
  match mins with
  | [] => None
  | g :: mins' =>
      match last_gpu model mins' with
      | Some g' => Some g'
      | None => if decide (ModelId g = model) then Some g else None
      end
  end.
Fixpoint set_last (model : string) (c : Z) (mins : list GPUResource) : list GPUResource :=
  match mins with
  | [] => []
  | g :: mins' =>
      match last_gpu model mins' with
      | Some _ => g :: set_last model c mins'
      | None => (if decide (ModelId g = model) then set_Count g c else g) :: mins'
      end
  end.
Definition gpu_per_node (gpu : GPUResource) (numNodes : Z) : Z := u32 (per_node (f64_of_Z (Count gpu)) numNodes).
Definition add_gpu (numNodes : Z) (s : list GPUResource * list GPUResource) (gpu : GPUResource) :
    list GPUResource * list GPUResource :=
  let perNode := gpu_per_node gpu numNodes in
  let append := (s.1, s.2 ++ [mkGPU (ModelId gpu) perNode "" 0 0]) in
  match last_gpu (ModelId gpu) s.1 with
  | Some nrGpu => if decide (Count nrGpu < perNode) then (set_last (ModelId gpu) perNode s.1, s.2) else append
  | None => append
  end.
(** The error of [AddOptResMap] is ignored. *)
Definition opt_per_node (numNodes : Z) (opt : gmap string string) : gmap string string :=
  fold_left (λ m kv,
    <[rv_OptResMapKey kv.2 := rv_OptResMapSpec kv.2 +:+ ":" +:+ fmt_d (per_node (Float (rv_Value kv.2)) numNodes)]> m)
    (go_range (add_opt_partial ∅ (go_range opt) 1)) ∅.
Definition set_MinNodeGpus (t : NodePoolTopology) (g : list GPUResource) : NodePoolTopology :=
  mkTopology (MinNodeVcpus t) (MinNodeMemory t) (MinNodeDisk t) g (MinNodeOptRes t) (MinNumberOfNodes t).
(** The node pool, and the request as it is left. *)
Definition NodePoolFromResources (name : string) (pr : NodePoolResources) : NodePool * NodePoolResources :=
  let t := Topology pr in
  let numNodes := if decide (MinNumberOfNodes t = 0) then 1 else MinNumberOfNodes t in
  let at_least m total := if decide (m = 0) then per_node total numNodes else m in
  let gpus := fold_left (add_gpu numNodes) (TotalGpus pr) (MinNodeGpus t, []) in
  let nr := mkNodeResources (at_least (MinNodeVcpus t) (Float (TotalVcpus pr)))
    (at_least (MinNodeMemory t) (f64_of_Z (TotalMemory pr))) (at_least (MinNodeDisk t) (f64_of_Z (TotalDisk pr)))
    (gpus.1 ++ gpus.2) (opt_per_node numNodes (TotalOptRes pr)) "" 0 in
  (mkNodePool name (u32 numNodes) (Some nr) false,
   mkNodePoolResources (TotalVcpus pr) (TotalMemory pr) (TotalDisk pr) (TotalGpus pr) (TotalOptRes pr)
     (set_MinNodeGpus t gpus.1)).
Definition GetNodePoolsFromReqs (kr : option KubernetesResources) : result (list NodePool) :=
  match kr with
  | None => Err "missing kubernetes resource definition"
  | Some kr =>
      let pool name p := match p with Some p => [(NodePoolFromResources name p).1] | None => [] end in
      Ok (pool "cpupool" (CpuPool kr) ++ pool "gpupool" (GpuPool kr))
  end.
Definition GetNodeResourcesFromReqs (nr : option NodeResources) : result NodeResources :=
  match nr with None => Err "missing node resources definition" | Some nr => Ok nr end.

(** ** What instances add *)

(** The values that node resources add, if they can be read. *)
Definition gpu_vals (gpus : list GPUResource) (c : Z) : list ResVal :=
  (λ g, NewGPURes (ModelId g) (u32 (Count g * c))) <$> gpus.
Fixpoint opt_vals (l : list (string * string)) (c : Z) : result (list ResVal) :=
  match l with
  | [] => Ok []
  | (n, v) :: l' => r ← opt_res_val n v c; rs ← opt_vals l' c; Ok (r :: rs)
  end.
Definition basic_vals (vcpus : Udec64) (ram disk : Z) : list ResVal :=
  [NewDecimalResVal ResourceVcpus "" vcpus; NewDecimalResVal ResourceRamMb ResourceRamUnits (NewUdec64 ram 0);
   NewDecimalResVal ResourceDiskGb ResourceDiskUnits (NewUdec64 disk 0)].
Definition vals_total (vals : list ResVal) (k : string) : Z :=
  foldr (λ v z, (if decide (ResVal_Key v = k) then value (rv_Value v) else 0) + z) 0 vals.

Lemma add_gpus_vals s gpus c : AddGPUs s gpus c = fold_left ResVals.Add (gpu_vals gpus c) s.
Proof. unfold AddGPUs, gpu_vals. revert s. induction gpus as [|g gpus IH]; intros s; simpl; [done|]. apply IH. Qed.
Lemma add_opts_vals l c s :
  add_opt_list s l c = match opt_vals l c with Ok vals => Ok (fold_left ResVals.Add vals s) | Err e => Err e end.
Proof.
  revert s. induction l as [|[n v] l IH]; intros s; simpl; [done|]. unfold AddOptRes.
  destruct (opt_res_val n v c) as [r|e]; simpl; [|done]. rewrite IH. by destruct (opt_vals l c).
Qed.
Lemma fold_Add_spec vals s :
  rmap_wf s → Forall (λ v, wf (rv_Value v)) vals →
  rmap_wf (fold_left ResVals.Add vals s) ∧
  ∀ k, amount (fold_left ResVals.Add vals s) k = (amount s k + vals_total vals k) mod modulus.
Proof.
  intros Hs Hv. revert s Hs. induction Hv as [|v vals Hw _ IH]; intros s Hs; simpl.
  - split; [done|]. intros k. rewrite Z.add_0_r, Z.mod_small; [done|]. by apply amount_range.
  - destruct (Add_spec s v Hs Hw) as [Hw' Ha]. destruct (IH _ Hw') as [Hw'' Ha']. split; [done|].
    intros k. rewrite Ha', Ha. case_decide; [|by rewrite Z.add_0_l].
    rewrite Zplus_mod_idemp_l. f_equal. lia.
Qed.
Lemma vals_total_nonneg vals k : Forall (λ v, wf (rv_Value v)) vals → 0 <= vals_total vals k.
Proof.
  induction 1 as [|v vals Hw _ IH]; simpl; [done|]. pose proof (value_range _ Hw). case_decide; lia.
Qed.
Lemma gpu_vals_wf gpus c : Forall (λ v, wf (rv_Value v)) (gpu_vals gpus c).
Proof.
  apply Forall_fmap, Forall_true. intros g. apply wf_whole.
  pose proof (wrap_u_range 32 (Count g * c) ltac:(lia)). unfold is_u in *. simpl. lia.
Qed.
Lemma opt_vals_wf l c vals : opt_vals l c = Ok vals → Forall (λ v, wf (rv_Value v)) vals.
Proof.
  revert vals. induction l as [|[n v] l IH]; intros vals H; simpl in H; [by simplify_eq|].
  apply result_bind_ok in H as (r & Hr & H). apply result_bind_ok in H as (rs & Hrs & H). simplify_eq.
  constructor; [|by apply IH]. unfold opt_res_val in Hr.
  apply result_bind_ok in Hr as ([[ty al] ct] & _ & Hr). injection Hr as <-. simpl. apply wf_whole. by apply wrap_u_range.
Qed.
Lemma basic_vals_wf v ram disk rest :
  wf v → is_u64 ram → is_u64 disk → Forall (λ v, wf (rv_Value v)) rest →
  Forall (λ v, wf (rv_Value v)) (basic_vals v ram disk ++ rest).
Proof.
  intros Hv Hr Hd Hrest. unfold basic_vals. simpl. rewrite !NewUdec64_spec by done.
  repeat (apply Forall_cons; split; [first [done|by apply wf_whole]|]). done.
Qed.
(** What is added to a map is added to every amount. *)
Definition adds (add : ResValMap → result ResValMap) : Prop :=
  ∀ s s', rmap_wf s → add s = Ok s' →
    ∃ m, add ∅ = Ok m ∧ rmap_wf m ∧ rmap_wf s' ∧ ∀ k, amount s' k = (amount s k + amount m k) mod modulus.
Lemma adds_vals add vals :
  (∀ s, add s = match vals with Ok vals => Ok (fold_left ResVals.Add vals s) | Err e => Err e end) →
  (∀ vs, vals = Ok vs → Forall (λ v, wf (rv_Value v)) vs) → adds add.
Proof.
  intros Hadd Hwf s s' Hs H. rewrite Hadd in H. rewrite Hadd. destruct vals as [vs|e]; [|done]. simplify_eq.
  specialize (Hwf vs eq_refl). destruct (fold_Add_spec vs s Hs Hwf) as [H1 H2].
  destruct (fold_Add_spec vs ∅ rmap_wf_empty Hwf) as [H3 H4]. eexists. split_and!; [done|done|done|].
  intros k. rewrite H2, H4. change (amount ∅ k) with 0. by rewrite Z.add_0_l, Zplus_mod_idemp_r.
Qed.
Lemma node_adds nr c : adds (λ s, AddNodeResources s (Some nr) c).
Proof.
  eapply (adds_vals _ (opts ← opt_vals (go_range (nr_OptResMap nr)) c;
    Ok (basic_vals (NewUdec64 (u64 (nr_Vcpus nr * c)) 0) (u64 (nr_Ram nr * c)) (u64 (nr_Disk nr * c)) ++
        gpu_vals (nr_Gpus nr) c ++ opts))).
  - intros s. unfold AddNodeResources, AddOptResMap. rewrite add_opts_vals, add_gpus_vals.
    destruct (opt_vals _ _); simpl; [|done]. by rewrite fold_left_app.
  - intros vs H. apply result_bind_ok in H as (os & Ho & H). simplify_eq.
    apply basic_vals_wf; [|by apply wrap_u_range..|apply Forall_app; split; [apply gpu_vals_wf|by eapply opt_vals_wf]].
    rewrite NewUdec64_spec; [by apply wf_whole, wrap_u_range|by apply wrap_u_range|done].
Qed.
Lemma pool_adds p : npr_wf p → adds (λ s, AddNodePoolResources s (Some p)).
Proof.
  intros ([Hv1 Hv2] & Hm & Hd).
  eapply (adds_vals _ (opts ← opt_vals (go_range (TotalOptRes p)) 1;
    Ok (basic_vals (NewUdec64 (Whole (TotalVcpus p)) (Nanos (TotalVcpus p))) (TotalMemory p) (TotalDisk p) ++
        gpu_vals (TotalGpus p) 1 ++ opts))).
  - intros s. unfold AddNodePoolResources, AddOptResMap. rewrite add_opts_vals, add_gpus_vals.
    destruct (opt_vals _ _); simpl; [|done]. by rewrite fold_left_app.
  - intros vs H. apply result_bind_ok in H as (os & Ho & H). simplify_eq.
    apply basic_vals_wf; [|done|done|apply Forall_app; split; [apply gpu_vals_wf|by eapply opt_vals_wf]].
    rewrite NewUdec64_spec by done. by split.
Qed.

(** ** What the instances of a cluster need *)

(** The amount that an instance needs, 0 where it has no readable resources. *)
Definition amount_of (m : result ResValMap) (k : string) : Z := match m with Ok m => amount m k | Err _ => 0 end.
Definition vm_need (k : string) (app : DApp) (i : DInst) : Z :=
  match di_NodeResources i with Some nr => amount_of (AddNodeResources ∅ (Some nr) 1) k | None => 0 end.
Definition pool_need (p : option NodePoolResources) (k : string) : Z :=
  match p with Some p => amount_of (AddNodePoolResources ∅ (Some p)) k | None => 0 end.
Definition kube_need (sel : KubernetesResources → option NodePoolResources) (k : string) (app : DApp) (i : DInst) : Z :=
  match di_KubernetesResources i with
  | Some kr => if IsSideCarApp app then 0 else pool_need (sel kr) k
  | None => 0
  end.
Definition need_at (need : DApp → DInst → Z) (cs : inst_caches) (key : AppInstKey) : Z :=
  match ic_insts cs !! key with
  | Some i => match ic_apps cs !! di_AppKey i with Some app => need app i | None => 0 end
  | None => 0
  end.
(** The needs of the instances, all but one. *)
Definition demand (need : AppInstKey → Z) (new : option AppInstKey) (refs : list AppInstKey) : Z :=
  foldr (λ key z, (if decide (new = Some key) then 0 else need key) + z) 0 refs.

Lemma demand_ext f g new refs :
  (∀ key, key ∈ refs → new ≠ Some key → f key = g key) → demand f new refs = demand g new refs.
Proof.
  induction refs as [|key refs IH]; intros Hfg; simpl; [done|]. rewrite IH by set_solver.
  case_decide; [done|]. rewrite Hfg; [done|by left|done].
Qed.
Lemma demand_nonneg f new refs : (∀ key, 0 <= f key) → 0 <= demand f new refs.
Proof. intros Hf. induction refs as [|key refs IH]; simpl; [done|]. specialize (Hf key). case_decide; lia. Qed.
Lemma demand_le f new refs : (∀ key, 0 <= f key) → demand f new refs <= demand f None refs.
Proof. intros Hf. induction refs as [|key refs IH]; simpl; [done|]. specialize (Hf key). case_decide; lia. Qed.
Lemma demand_app f new l1 l2 : demand f new (l1 ++ l2) = demand f new l1 + demand f new l2.
Proof. induction l1 as [|key l1 IH]; simpl; [done|]. rewrite IH. lia. Qed.
Lemma demand_absent f key refs : key ∉ refs → demand f (Some key) refs = demand f None refs.
Proof.
  intros Hni. unfold demand. induction refs as [|key' refs IH]; [done|]. apply not_elem_of_cons in Hni as [Hne Hni].
  cbn [foldr]. rewrite IH by done. by rewrite !decide_False by congruence.
Qed.
Lemma demand_present f key refs :
  NoDup refs → key ∈ refs → demand f None refs = demand f (Some key) refs + f key.
Proof.
  intros Hnd Hin. apply list_elem_of_split in Hin as (l1 & l2 & ->).
  apply list.NoDup_app in Hnd as (_ & H2 & [H3 _]%NoDup_cons).
  rewrite !demand_app, !(demand_absent f key l1); [|intros H; apply (H2 key H); by left].
  unfold demand at 2 4. cbn [foldr]. fold (demand f None l2). fold (demand f (Some key) l2).
  rewrite demand_absent by done. rewrite decide_False, decide_True by done. lia.
Qed.

(** *** What the walk adds *)

Section WalkSpec.
Context {S : Type} (cs : inst_caches) (new : option AppInstKey) (cb : DApp → DInst → S → result S).
Context (ok : S → Prop) (amt : S → Z) (need : DApp → DInst → Z) (good : DInst → Prop).
Hypothesis Hcb : ∀ app i s s', good i → ok s → cb app i s = Ok s' →
  ok s' ∧ amt s' = (amt s + need app i) mod modulus.
Hypothesis Hrange : ∀ s, ok s → 0 <= amt s < modulus.
Hypothesis Hgood : map_Forall (λ _ i, good i) (ic_insts cs).
Lemma walk_spec refs s s' :
  ok s → walkClusterAppInsts cs new cb refs s = Ok s' →
  ok s' ∧ amt s' = (amt s + demand (need_at need cs) new refs) mod modulus.
Proof.
  revert s. induction refs as [|key refs IH]; intros s Hs H; simpl in H |- *.
  { simplify_eq. split; [done|]. rewrite Z.add_0_r, Z.mod_small; [done|]. by apply Hrange. }
  case_decide; [by apply IH|].
  destruct (ic_insts cs !! key) as [i|] eqn:Hi; [|done].
  destruct (ic_apps cs !! di_AppKey i) as [app|] eqn:Ha; [|done].
  apply result_bind_ok in H as (s1 & H1 & H). apply Hcb in H1 as [Hs1 Ham]; [|by eapply Hgood|done].
  apply IH in H as [Hs' Ham']; [|done]. split; [done|].
  unfold need_at at 1. rewrite Hi, Ha, Ham', Ham, Zplus_mod_idemp_l. f_equal. lia.
Qed.
End WalkSpec.

(** The widths of the numbers. *)
Record inst_wf (i : DInst) : Prop := {
  iw_cpu kr p : di_KubernetesResources i = Some kr → CpuPool kr = Some p → request_wf p;
  iw_gpu kr p : di_KubernetesResources i = Some kr → GpuPool kr = Some p → request_wf p;
}.
(** The CPU pool asks for no GPUs and the GPU pool for some.  [Validate] does
    not require the first. *)
Record own_pools (i : DInst) : Prop := {
  op_cpu kr p : di_KubernetesResources i = Some kr → CpuPool kr = Some p →
    NodePoolResourcesGPUCount (Some p) = 0;
  op_gpu kr p : di_KubernetesResources i = Some kr → GpuPool kr = Some p →
    0 < NodePoolResourcesGPUCount (Some p);
}.
Definition insts_wf (cs : inst_caches) : Prop := map_Forall (λ _ i, inst_wf i) (ic_insts cs).

Lemma vm_used cs refs new used k :
  calcVMClusterUsedResources cs refs new = Ok used →
  rmap_wf used ∧ amount used k = demand (need_at (vm_need k) cs) new (cr_Apps refs) mod modulus.
Proof.
  intros H. eapply (walk_spec cs new add_vm rmap_wf (λ s, amount s k) (vm_need k) (λ _, True)) in H;
    [|..|apply rmap_wf_empty].
  - change (amount ∅ k) with 0 in H. by rewrite Z.add_0_l in H.
  - intros app i s s' _ Hs Hcb. unfold add_vm in Hcb. unfold vm_need.
    destruct (di_NodeResources i) as [nr|].
    + apply (node_adds nr 1) in Hcb as (m & Hm & _ & Hs' & Ha); [|done]. rewrite Hm. split; [done|apply Ha].
    + simplify_eq. split; [done|]. rewrite Z.add_0_r, Z.mod_small; [done|]. by apply amount_range.
  - intros s Hs. by apply amount_range.
  - by intros ? ? _.
Qed.
Lemma pool_adds_need s p s' k :
  rmap_wf s → (∀ q, p = Some q → npr_wf q) → AddNodePoolResources s p = Ok s' →
  rmap_wf s' ∧ amount s' k = (amount s k + pool_need p k) mod modulus.
Proof.
  intros Hs Hw H. unfold pool_need. destruct p as [q|].
  - apply (pool_adds q (Hw q eq_refl)) in H as (m & Hm & _ & Hs' & Ha); [|done]. rewrite Hm. split; [done|apply Ha].
  - simpl in H. simplify_eq. split; [done|]. rewrite Z.add_0_r, Z.mod_small; [done|]. by apply amount_range.
Qed.
Lemma kube_used cs refs new cpu gpu k :
  insts_wf cs → calcKubernetesClusterUsedResources cs refs new = Ok (cpu, gpu) →
  (rmap_wf cpu ∧ rmap_wf gpu) ∧
  amount cpu k = demand (need_at (kube_need CpuPool k) cs) new (cr_Apps refs) mod modulus ∧
  amount gpu k = demand (need_at (kube_need GpuPool k) cs) new (cr_Apps refs) mod modulus.
Proof.
  intros Hwf H. unfold calcKubernetesClusterUsedResources in H.
  assert (∀ app i s s', inst_wf i → (rmap_wf s.1 ∧ rmap_wf s.2) → add_kubernetes app i s = Ok s' →
    (rmap_wf s'.1 ∧ rmap_wf s'.2) ∧ amount s'.1 k = (amount s.1 k + kube_need CpuPool k app i) mod modulus ∧
    amount s'.2 k = (amount s.2 k + kube_need GpuPool k app i) mod modulus) as Hcb.
  { intros app i [c g] s' Hi [Hc Hg] Hadd. unfold add_kubernetes in Hadd. unfold kube_need. simpl in *.
    pose proof (amount_range c k Hc). pose proof (amount_range g k Hg).
    destruct (di_KubernetesResources i) as [kr|] eqn:Hkr; [destruct (IsSideCarApp app)|];
      [simplify_eq; simpl; by rewrite !Z.add_0_r, !Z.mod_small| |simplify_eq; simpl; by rewrite !Z.add_0_r, !Z.mod_small].
    apply result_bind_ok in Hadd as (c' & Hc' & Hadd). apply result_bind_ok in Hadd as (g' & Hg' & Hadd). simplify_eq.
    apply (pool_adds_need _ _ _ k) in Hc' as [? ?]; [|done|intros q Hq; by apply (iw_cpu i Hi kr q Hkr Hq)].
    apply (pool_adds_need _ _ _ k) in Hg' as [? ?]; [|done|intros q Hq; by apply (iw_gpu i Hi kr q Hkr Hq)]. done. }
  pose proof (λ amt need H0 H1, walk_spec cs new add_kubernetes (λ s, rmap_wf s.1 ∧ rmap_wf s.2) amt need inst_wf H0 H1
    Hwf (cr_Apps refs) (∅, ∅) (cpu, gpu) (conj rmap_wf_empty rmap_wf_empty) H) as Hw.
  destruct (Hw (λ s, amount s.1 k) (kube_need CpuPool k)) as [Hok Hcpu].
  { intros app i s s' Hi Hs Hadd. destruct (Hcb app i s s' Hi Hs Hadd) as (? & ? & ?). done. }
  { intros s [? ?]. by apply amount_range. }
  destruct (Hw (λ s, amount s.2 k) (kube_need GpuPool k)) as [_ Hgpu].
  { intros app i s s' Hi Hs Hadd. destruct (Hcb app i s s' Hi Hs Hadd) as (? & ? & ?). done. }
  { intros s [? ?]. by apply amount_range. }
  simpl in *. change (amount ∅ k) with 0 in *. rewrite Z.add_0_l in *. done.
Qed.

(** ** What the pools have *)

#[local] Arguments NodeResourcesToResValMap : simpl never.
Definition pool_counts (lookup : FlavorLookup) (pool : NodePool) : option ResValMap :=
  nr ← np_NodeResources pool;
  match GetInfraNodeResources nr lookup with
  | Ok infra => match NodeResourcesToResValMap (Some infra) with Ok m => Some m | Err _ => None end
  | Err _ => None
  end.
Definition has_gpu (pool : NodePool) : bool := bool_decide (0 < NodeResourcesGPUCount (np_NodeResources pool)).
(** What the nodes of the pools with GPUs, or of those without, have. *)
Definition class_pool (lookup : FlavorLookup) (gpu : bool) (pool : NodePool) : option (ResValMap * Z) :=
  if bool_decide (has_gpu pool = gpu) then (λ m, (m, np_NumNodes pool)) <$> pool_counts lookup pool else None.
Definition class_supply (lookup : FlavorLookup) (gpu : bool) (pools : list NodePool) (k : string) : Z :=
  supply (omap (class_pool lookup gpu) pools) k.

Lemma pool_counts_wf lookup pool m : pool_counts lookup pool = Some m → rmap_wf m.
Proof.
  unfold pool_counts. destruct (np_NodeResources pool) as [nr|]; simpl; [|done].
  destruct (GetInfraNodeResources nr lookup) as [infra|]; [|done].
  destruct (NodeResourcesToResValMap (Some infra)) as [m'|] eqn:Hm; [|done]. intros [= <-].
  eapply AddNodeResources_wf, Hm. apply rmap_wf_empty.
Qed.
Lemma check_pool_counts g mins lookup spec pool m :
  check_pool g mins lookup spec pool = Ok (inr m) → pool_counts lookup pool = Some m.
Proof.
  unfold check_pool, pool_counts. destruct (np_NodeResources pool) as [nr|]; [|done]. cbn [mbind option_bind].
  case_decide as H1; [done|]. case_decide as H2; [done|]. intros (infra & Hi & H)%result_bind_ok.
  apply result_bind_ok in H as (c & Hc & H).
  destruct (GetInfraNodeResources nr lookup) as [infra'|]; simplify_eq/=.
  destruct (NodeResourcesToResValMap (Some infra)) as [c'|]; simplify_eq/=.
  by destruct (check_mins _ _ _ _); simplify_eq.
Qed.
Lemma class_supply_cons lookup gpu pool pools k :
  pools_wf (pool :: pools) →
  class_supply lookup gpu pools k <= class_supply lookup gpu (pool :: pools) k ∧
  ∀ m, class_pool lookup gpu pool = Some (m, np_NumNodes pool) →
    class_supply lookup gpu (pool :: pools) k = amount m k * np_NumNodes pool + class_supply lookup gpu pools k.
Proof.
  intros [Hn _]%Forall_cons. unfold class_supply. cbn [omap list_omap].
  destruct (class_pool lookup gpu pool) as [[m n]|] eqn:Hc; [|by split; [|intros ? ?]].
  unfold class_pool in Hc. case_bool_decide; [|done].
  destruct (pool_counts lookup pool) as [m'|] eqn:Hm; [|done]. simplify_eq/=.
  apply pool_counts_wf in Hm. pose proof (amount_range _ k Hm). unfold is_u in Hn.
  split; [nia|by intros ? [= <-]].
Qed.
Lemma class_supply_nonneg lookup gpu pools k : pools_wf pools → 0 <= class_supply lookup gpu pools k.
Proof.
  induction pools as [|pool pools IH]; intros Hp; [done|]. pose proof Hp as [_ Hp']%Forall_cons.
  destruct (class_supply_cons lookup gpu pool pools k Hp) as [Hle _]. specialize (IH Hp'). lia.
Qed.
(** A request counts pools of its own class only. *)
Lemma accepted_class g mins lookup spec (gpu : bool) pools k :
  pools_wf pools → rmap_wf mins → (if gpu then 0 < g else g = 0 ∧ spec = false) →
  supply (accepted (check_pool g mins lookup spec) pools) k <= class_supply lookup gpu pools k.
Proof.
  intros Hp Hm Hg. induction pools as [|pool pools IH]; [done|]. pose proof Hp as [Hn Hp']%Forall_cons.
  destruct (class_supply_cons lookup gpu pool pools k Hp) as [Hle Heq]. specialize (IH Hp').
  rewrite accepted_cons. destruct (check_pool g mins lookup spec pool) as [[r|m]|] eqn:Hc; [lia| |lia].
  rewrite supply_cons, (Heq m); [lia|]. pose proof (check_pool_counts _ _ _ _ _ _ Hc) as Hcounts.
  apply check_pool_ok in Hc as (_ & _ & H1 & H2); [|done]. unfold class_pool. rewrite bool_decide_true, Hcounts; [done|].
  assert (0 <= NodeResourcesGPUCount (np_NodeResources pool)) as Hge.
  { destruct (np_NodeResources pool) as [nr|]; [|done]. simpl. unfold GetGPUCount.
    match goal with |- context [u64 ?z] => pose proof (wrap_u_range 64 z ltac:(lia)) as Hr end. unfold is_u in Hr. lia. }
  unfold has_gpu. destruct gpu.
  - apply bool_decide_eq_true. destruct (H1 Hg); lia.
  - apply bool_decide_eq_false. destruct Hg. by apply H2.
Qed.
Lemma accepted_all g mins lookup spec pools k :
  pools_wf pools →
  supply (accepted (check_pool g mins lookup spec) pools) k <=
  class_supply lookup false pools k + class_supply lookup true pools k.
Proof.
  intros Hp. induction pools as [|pool pools IH]; [done|]. pose proof Hp as [Hn Hp']%Forall_cons.
  destruct (class_supply_cons lookup false pool pools k Hp) as [Hf Hf'].
  destruct (class_supply_cons lookup true pool pools k Hp) as [Ht Ht']. specialize (IH Hp').
  rewrite accepted_cons. destruct (check_pool g mins lookup spec pool) as [[r|m]|] eqn:Hc; [lia| |lia].
  rewrite supply_cons. apply check_pool_counts in Hc.
  assert (class_pool lookup (has_gpu pool) pool = Some (m, np_NumNodes pool)) as Hm.
  { unfold class_pool. by rewrite bool_decide_true, Hc. }
  destruct (has_gpu pool); [rewrite (Ht' m Hm)|rewrite (Hf' m Hm)]; lia.
Qed.
Lemma total_pools_spec lookup pools c g c' g' :
  pools_wf pools → rmap_wf c → rmap_wf g → total_pools lookup pools c g = Some (Ok (c', g')) →
  (rmap_wf c' ∧ rmap_wf g') ∧
  ∀ k, amount c' k = (amount c k + class_supply lookup false pools k) mod modulus ∧
       amount g' k = (amount g k + class_supply lookup true pools k) mod modulus.
Proof.
  revert c g. induction pools as [|pool pools IH]; intros c g Hp Hc Hg H.
  { simpl in H. simplify_eq. split; [done|]. intros k. unfold class_supply, supply. simpl.
    rewrite !Z.add_0_r, !Z.mod_small; [done|by apply amount_range..]. }
  pose proof Hp as [Hn Hp']%Forall_cons. cbn [total_pools] in H.
  assert (∃ m, pool_counts lookup pool = Some m ∧
    total_pools lookup pools (if has_gpu pool then c else AddAllMult c m (np_NumNodes pool))
      (if has_gpu pool then AddAllMult g m (np_NumNodes pool) else g) = Some (Ok (c', g'))) as (m & Hm & Ht).
  { unfold pool_counts. destruct (np_NodeResources pool) as [nr|] eqn:Hnr; simpl in H |- *; [|done].
    destruct (GetInfraNodeResources nr lookup) as [infra|]; [|done].
    destruct (NodeResourcesToResValMap (Some infra)) as [m|]; [|done]. exists m. split; [done|].
    unfold has_gpu. rewrite Hnr. case_bool_decide; [by rewrite decide_True in H|by rewrite decide_False in H]. }
  pose proof (pool_counts_wf _ _ _ Hm) as Hmw.
  destruct (AddAllMult_spec c m (np_NumNodes pool) Hc Hmw Hn) as [Hcw Hca].
  destruct (AddAllMult_spec g m (np_NumNodes pool) Hg Hmw Hn) as [Hgw Hga].
  apply IH in Ht as [Hw Ha]; [|done|by destruct (has_gpu pool)..]. split; [done|]. intros k. specialize (Ha k).
  assert (∀ b, class_supply lookup b (pool :: pools) k =
    (if bool_decide (has_gpu pool = b) then amount m k * np_NumNodes pool else 0) + class_supply lookup b pools k) as Hcs.
  { intros b. unfold class_supply. cbn [omap list_omap]. unfold class_pool at 1. rewrite Hm.
    by case_bool_decide. }
  rewrite !Hcs. destruct Ha as [-> ->].
  destruct (has_gpu pool); rewrite !bool_decide_decide; simpl; rewrite ?Hca, ?Hga, ?Zplus_mod_idemp_l;
    (split; f_equal; lia).
Qed.

(** ** Instances come and go *)

(** [addRef] and [removeRef] of clusterrefs_api.go on the references of a cluster. *)
Definition refs_add (key : AppInstKey) (refs : list AppInstKey) : list AppInstKey :=
  if decide (key ∈ refs) then refs else refs ++ [key].
Fixpoint refs_remove (key : AppInstKey) (refs : list AppInstKey) : list AppInstKey :=
  match refs with
  | [] => []
  | key' :: refs' => if decide (key' = key) then refs' else key' :: refs_remove key refs'
  end.
Record cluster_state := mkClusterState { st_caches : inst_caches; st_refs : list AppInstKey }.
Definition with_inst (i : DInst) (cs : inst_caches) : inst_caches :=
  mkInstCaches (<[di_Key i := i]> (ic_insts cs)) (ic_apps cs).
(** An instance is placed in the cluster after the check, which knows whether
    the user named the cluster ([spec]), or one is removed.  Sidecars are not
    checked; on a cluster of VMs they do count.  [coming] is the set of the
    placements that come. *)
Inductive place_step (coming : bool → DApp → DInst → Prop) (ci : Cluster) (lookup : FlavorLookup)
    (s : cluster_state) : cluster_state → Prop :=
| ps_place spec app i ss free :
    coming spec app i → inst_wf i → ic_apps (st_caches s) !! di_AppKey i = Some app →
    AppInstToClusterDeployment (da_Deployment app) = cu_Deployment ci →
    fitsAppResources (st_caches s) ci (mkClusterRefs (cu_Key ci) (st_refs s)) app i lookup spec =
      Some (ss, free, None) →
    place_step coming ci lookup s
      (mkClusterState (with_inst i (st_caches s)) (refs_add (di_Key i) (st_refs s)))
| ps_remove key :
    place_step coming ci lookup s (mkClusterState
      (mkInstCaches (delete key (ic_insts (st_caches s))) (ic_apps (st_caches s))) (refs_remove key (st_refs s))).

Definition needed (need : string → DApp → DInst → Z) (s : cluster_state) (k : string) : Z :=
  demand (need_at (need k) (st_caches s)) None (st_refs s).
Definition vm_capacity (ci : Cluster) (lookup : FlavorLookup) (k : string) : Z :=
  amount_of (calcVMClusterTotalResources ci lookup) k.
(** What the requests for a kind of pool can get: the nodes of the kind, or
    ([apart] is false) all nodes. *)
Definition kube_capacity (apart : bool) (lookup : FlavorLookup) (gpu : bool) (pools : list NodePool) (k : string) : Z :=
  if apart then class_supply lookup gpu pools k
  else class_supply lookup false pools k + class_supply lookup true pools k.
Definition kept (d cap : Z) : Prop := d <= cap ∧ d < modulus.
Record within (apart no_sidecars : bool) (ci : Cluster) (lookup : FlavorLookup) (s : cluster_state) : Prop := {
  wi_refs : NoDup (st_refs s);
  wi_insts : insts_wf (st_caches s);
  wi_kube k : cu_Deployment ci = DeploymentTypeKubernetes →
    kept (needed (kube_need CpuPool) s k) (kube_capacity apart lookup false (ci_NodePools (cu_Resources ci)) k) ∧
    kept (needed (kube_need GpuPool) s k) (kube_capacity apart lookup true (ci_NodePools (cu_Resources ci)) k);
  wi_vm k : no_sidecars → cu_Deployment ci ≠ DeploymentTypeKubernetes →
    needed vm_need s k <= vm_capacity ci lookup k;
}.

Lemma refs_remove_split key refs :
  NoDup refs → key ∈ refs → ∃ l1 l2, refs = l1 ++ key :: l2 ∧ refs_remove key refs = l1 ++ l2.
Proof.
  induction refs as [|key' refs IH]; intros Hnd Hin; [by inversion Hin|]. simpl. case_decide as Hk.
  - subst key'. by exists [], refs.
  - apply NoDup_cons in Hnd as [_ Hnd]. apply elem_of_cons in Hin as [?|Hin]; [congruence|].
    destruct (IH Hnd Hin) as (l1 & l2 & -> & ->). by exists (key' :: l1), l2.
Qed.
Lemma refs_remove_absent key refs : key ∉ refs → refs_remove key refs = refs.
Proof.
  induction refs as [|key' refs IH]; intros Hni; simpl; [done|]. apply not_elem_of_cons in Hni as [Hne Hni].
  rewrite decide_False by congruence. by rewrite IH.
Qed.
Lemma needed_place (need : string → DApp → DInst → Z) s app i k :
  NoDup (st_refs s) → ic_apps (st_caches s) !! di_AppKey i = Some app →
  needed need (mkClusterState (with_inst i (st_caches s)) (refs_add (di_Key i) (st_refs s))) k =
  demand (need_at (need k) (st_caches s)) (Some (di_Key i)) (st_refs s) + need k app i.
Proof.
  intros Hnd Ha. unfold needed. simpl.
  assert (need_at (need k) (with_inst i (st_caches s)) (di_Key i) = need k app i) as Hat.
  { unfold need_at. simpl. by rewrite lookup_insert_eq, Ha. }
  assert (∀ refs, demand (need_at (need k) (with_inst i (st_caches s))) (Some (di_Key i)) refs =
    demand (need_at (need k) (st_caches s)) (Some (di_Key i)) refs) as Hsame.
  { intros refs. apply demand_ext. intros key _ Hne. unfold need_at. simpl. by rewrite lookup_insert_ne by congruence. }
  unfold refs_add. case_decide as Hin.
  - by rewrite (demand_present _ (di_Key i)), Hsame, Hat.
  - rewrite demand_app, <- Hsame, demand_absent by done. unfold demand at 2. cbn [foldr].
    rewrite decide_False, Hat by done. lia.
Qed.
Lemma needed_remove (need : string → DApp → DInst → Z) s key k :
  (∀ key', 0 <= need_at (need k) (st_caches s) key') → NoDup (st_refs s) →
  needed need (mkClusterState (mkInstCaches (delete key (ic_insts (st_caches s))) (ic_apps (st_caches s)))
    (refs_remove key (st_refs s))) k <= needed need s k.
Proof.
  intros Hat Hnd. unfold needed. simpl.
  assert (∀ refs, key ∉ refs →
    demand (need_at (need k) (mkInstCaches (delete key (ic_insts (st_caches s))) (ic_apps (st_caches s)))) None refs =
    demand (need_at (need k) (st_caches s)) None refs) as Hsame.
  { intros refs Hni. apply demand_ext. intros key' Hin _. unfold need_at. simpl.
    rewrite lookup_delete_ne; [done|]. by intros ->. }
  destruct (decide (key ∈ st_refs s)) as [Hin|Hni]; [|by rewrite refs_remove_absent, Hsame].
  destruct (refs_remove_split key _ Hnd Hin) as (l1 & l2 & Hrefs & ->).
  rewrite Hrefs in Hnd |- *. apply list.NoDup_app in Hnd as (_ & H2 & [H3 _]%NoDup_cons).
  rewrite Hsame; [|rewrite elem_of_app; intros [H|H]; [apply (H2 key H); by left|done]].
  rewrite !demand_app. unfold demand at 4. cbn [foldr]. fold (demand (need_at (need k) (st_caches s)) None l2).
  rewrite decide_False by done. specialize (Hat key). lia.
Qed.
Lemma pool_need_nonneg p k : (∀ q, p = Some q → npr_wf q) → 0 <= pool_need p k.
Proof.
  intros Hw. unfold pool_need, amount_of. destruct p as [q|]; [|done]. destruct (AddNodePoolResources ∅ (Some q)) as [m|] eqn:Hm; [|done].
  apply AddNodePoolResources_wf in Hm; [|apply rmap_wf_empty|by apply Hw]. by apply amount_range.
Qed.
Lemma vm_need_nonneg k app i : 0 <= vm_need k app i.
Proof.
  unfold vm_need, amount_of. destruct (di_NodeResources i) as [nr|]; [|done].
  destruct (AddNodeResources ∅ (Some nr) 1) as [m|] eqn:Hm; [|done].
  apply AddNodeResources_wf in Hm; [|apply rmap_wf_empty]. by apply amount_range.
Qed.
Lemma need_at_nonneg need cs key :
  (∀ app i, ic_insts cs !! key = Some i → 0 <= need app i) → 0 <= need_at need cs key.
Proof.
  intros Hpos. unfold need_at. destruct (ic_insts cs !! key) as [i|]; [|done].
  destruct (ic_apps cs !! di_AppKey i); [by apply Hpos|done].
Qed.
Lemma kube_need_nonneg sel k app i :
  (∀ kr q, di_KubernetesResources i = Some kr → sel kr = Some q → npr_wf q) → 0 <= kube_need sel k app i.
Proof.
  intros Hw. unfold kube_need. destruct (di_KubernetesResources i) as [kr|]; [|done].
  destruct (IsSideCarApp app); [done|]. apply pool_need_nonneg. intros q. by apply Hw.
Qed.
Lemma need_nonneg cs k key :
  insts_wf cs →
  0 <= need_at (kube_need CpuPool k) cs key ∧ 0 <= need_at (kube_need GpuPool k) cs key ∧
  0 <= need_at (vm_need k) cs key.
Proof.
  intros Hwf. split_and!; apply need_at_nonneg; intros app i Hi; [| |apply vm_need_nonneg];
    apply kube_need_nonneg; intros kr q Hkr Hq; specialize (Hwf key i Hi).
  - by destruct (iw_cpu i Hwf kr q Hkr Hq) as [? _].
  - by destruct (iw_gpu i Hwf kr q Hkr Hq) as [? _].
Qed.

(** *** What the check says *)

Lemma pool_fits p used pools lookup spec cap d k :
  request_wf p → pools_wf pools → rmap_wf used →
  (∀ mins, rmap_wf mins →
     supply (accepted (check_pool (NodePoolResourcesGPUCount (Some p)) mins lookup spec) pools) k <= cap) →
  (NodePoolFits p used pools lookup spec).2 = None →
  0 <= d → amount used k = d mod modulus → kept d cap → kept (d + pool_need (Some p) k) cap.
Proof.
  intros Hreq Hp Hu Hacc Hfits Hd Hused [Hle Hlt]. rewrite Z.mod_small in Hused by lia.
  pose proof (NodePoolFits_inv p used pools lookup spec Hreq Hp Hu) as Hinv.
  destruct (NodePoolFits p used pools lookup spec) as [[ss free] err]. simpl in Hfits. subst err.
  destruct Hinv as [(_ & _ & ?)|(mins & rt & total & _ & Hmins & Hrt & Htot & _ & [Hfit _] & _)]; [done|].
  specialize (Hfit eq_refl k). rewrite Hused, Htot in Hfit. specialize (Hacc mins Hmins).
  set (sup := supply _ k) in *. assert (0 <= sup) as Hsup.
  { unfold sup. apply supply_nonneg, Forall_forall. intros [m n] Hin. simpl.
    apply accepted_elem in Hin as (pool & Hin & Hc & ->). apply check_pool_ok in Hc as [? _]; [|done].
    split; [done|]. unfold pools_wf in Hp. rewrite Forall_forall in Hp. specialize (Hp pool Hin). unfold is_u in Hp. lia. }
  assert (0 < modulus) as Hm by done. pose proof (Z.mod_pos_bound sup modulus Hm). pose proof (Z.mod_le sup modulus Hsup Hm).
  unfold NodePoolResourcesToResValMap in Hrt. unfold pool_need, amount_of. rewrite Hrt. unfold kept. lia.
Qed.
(** The nodes that a request of a kind of pool is checked against. *)
Lemma accepted_capacity (apart : bool) p mins lookup spec (gpu : bool) pools k :
  pools_wf pools → rmap_wf mins →
  (apart → spec = false ∧ if gpu then 0 < NodePoolResourcesGPUCount (Some p)
                          else NodePoolResourcesGPUCount (Some p) = 0) →
  supply (accepted (check_pool (NodePoolResourcesGPUCount (Some p)) mins lookup spec) pools) k <=
  kube_capacity apart lookup gpu pools k.
Proof.
  intros Hp Hm Hapart. unfold kube_capacity. destruct apart; [|by apply accepted_all].
  destruct (Hapart I) as [-> Hg]. apply accepted_class; [done..|]. by destruct gpu.
Qed.
Lemma kube_fits ci kr cpuUsed gpuUsed lookup spec ss free :
  KubernetesResourcesFits ci kr cpuUsed gpuUsed lookup spec = (ss, free, None) →
  (∀ p, CpuPool kr = Some p → (NodePoolFits p cpuUsed (ci_NodePools ci) lookup spec).2 = None) ∧
  (∀ p, GpuPool kr = Some p → (NodePoolFits p gpuUsed (ci_NodePools ci) lookup spec).2 = None).
Proof.
  unfold KubernetesResourcesFits. intros H.
  destruct (CpuPool kr) as [cp|]; [destruct (NodePoolFits cp _ _ _ _) as [[s1 f1] e1] eqn:Hc|];
    (destruct (GpuPool kr) as [gp|]; [destruct (NodePoolFits gp _ _ _ _) as [[s2 f2] e2] eqn:Hg|]); simpl in H.
  - destruct e1, e2; simpl in H; try (by destruct s1, s2).
    split; intros p [= <-]; by rewrite ?Hc, ?Hg.
  - destruct e1; simpl in H; [by destruct s1|]. split; [|done]. intros p [= <-]. by rewrite Hc.
  - destruct e2; simpl in H; [by destruct s2|]. split; [done|]. intros p [= <-]. by rewrite Hg.
  - done.
Qed.
Lemma deploys_iff app ci :
  AppInstToClusterDeployment (da_Deployment app) = cu_Deployment ci →
  AppDeploysToKubernetes (da_Deployment app) = bool_decide (cu_Deployment ci = DeploymentTypeKubernetes).
Proof.
  intros <-. unfold AppInstToClusterDeployment, AppDeploysToKubernetes. apply bool_decide_ext.
  case_decide as H; [by split; [|right]|]. split; [by intros [?|?]|by left].
Qed.
Section Capacity.
Context (ci : Cluster) (lookup : FlavorLookup) (apart no_sidecars : bool).
Context (Hpools : pools_wf (ci_NodePools (cu_Resources ci))).
Abbreviation state_within := (within apart no_sidecars ci lookup).

Lemma vm_capacity_range total :
  calcVMClusterTotalResources ci lookup = Ok total →
  rmap_wf total ∧ ∀ k, vm_capacity ci lookup k = amount total k.
Proof.
  intros Ht. unfold vm_capacity. rewrite Ht. split; [|done]. unfold calcVMClusterTotalResources in Ht.
  destruct (ci_NodeResources (cu_Resources ci)) as [nr|]; [|simplify_eq; apply rmap_wf_empty].
  apply result_bind_ok in Ht as (infra & _ & Ht). eapply AddNodeResources_wf, Ht. apply rmap_wf_empty.
Qed.
Lemma vm_capacity_small k : vm_capacity ci lookup k < modulus.
Proof.
  destruct (calcVMClusterTotalResources ci lookup) as [t|e] eqn:Ht.
  - destruct (vm_capacity_range t Ht) as [Hw ->]. by apply amount_range.
  - unfold vm_capacity. by rewrite Ht.
Qed.
(** The check of an instance on a cluster of VMs. *)
Lemma vm_place s app i spec ss free k :
  state_within s → no_sidecars → AppDeploysToKubernetes (da_Deployment app) = false → IsSideCarApp app = false →
  cu_Deployment ci ≠ DeploymentTypeKubernetes →
  fitsAppResources (st_caches s) ci (mkClusterRefs (cu_Key ci) (st_refs s)) app i lookup spec =
    Some (ss, free, None) →
  demand (need_at (vm_need k) (st_caches s)) (Some (di_Key i)) (st_refs s) + vm_need k app i <= vm_capacity ci lookup k.
Proof.
  intros Hin Hnos Hk8s Hside Hdep Hfits. unfold fitsAppResources in Hfits. rewrite Hside, Hk8s in Hfits.
  destruct (calcVMClusterUsedResources _ _ _) as [used|] eqn:Hu; [|done].
  apply (vm_used _ _ _ _ k) in Hu as [Huw Hua]. simpl in Hua.
  pose proof (λ key, proj2 (proj2 (need_nonneg (st_caches s) k key (wi_insts _ _ _ _ _ Hin)))) as Hpos.
  pose proof (demand_nonneg _ (Some (di_Key i)) (st_refs s) Hpos).
  pose proof (demand_le _ (Some (di_Key i)) (st_refs s) Hpos) as Hle.
  pose proof (wi_vm _ _ _ _ _ Hin k Hnos Hdep) as Hvm. unfold needed in Hvm.
  pose proof (vm_capacity_small k) as Hsmall. rewrite Z.mod_small in Hua by lia.
  destruct (NodeResourcesFits _ _ _ _) as [[]|] eqn:Hn; [|done]. unfold NodeResourcesFits in Hn.
  destruct (di_NodeResources i) as [nr|] eqn:Hnr; [|done].
  destruct (ci_NodeResources (cu_Resources ci)) as [cnr|] eqn:Hcnr; [|done].
  destruct (GetInfraNodeResources cnr lookup) as [infra|] eqn:Hi; simpl in Hn; [|done].
  destruct (NodeResourcesToResValMap (Some nr)) as [rv|] eqn:Hr; simpl in Hn; [|done].
  destruct (NodeResourcesToResValMap (Some infra)) as [cv|] eqn:Hc; simpl in Hn; [|done].
  assert (calcVMClusterTotalResources ci lookup = Ok cv) as Ht.
  { unfold calcVMClusterTotalResources. by rewrite Hcnr, Hi. }
  destruct (vm_capacity_range cv Ht) as [Hcw Hcap']. rewrite Hcap' in Hvm, Hsmall |- *.
  destruct (Clone_spec cv Hcw) as [Hclw Hcla].
  destruct (SubFloorAll_spec (Clone cv) used false Hclw Huw) as (Hfw & _ & Hfa).
  assert (rmap_wf rv) as Hrw by (eapply AddNodeResources_wf, Hr; apply rmap_wf_empty).
  pose proof (proj1 (ResValsFits_iff rv _ [] Hrw Hfw) ltac:(by rewrite Hn) k) as Hfit.
  rewrite Hfa, Hcla, Hua in Hfit. assert (vm_need k app i = amount rv k) as ->; [|lia].
  unfold vm_need. rewrite Hnr. unfold NodeResourcesToResValMap in Hr. by rewrite Hr.
Qed.
(** The check of an instance on a Kubernetes cluster. *)
Lemma kube_place s app i spec ss free k :
  state_within s → inst_wf i → (apart → spec = false ∧ own_pools i) →
  AppDeploysToKubernetes (da_Deployment app) = true →
  IsSideCarApp app = false → cu_Deployment ci = DeploymentTypeKubernetes →
  fitsAppResources (st_caches s) ci (mkClusterRefs (cu_Key ci) (st_refs s)) app i lookup spec =
    Some (ss, free, None) →
  kept (demand (need_at (kube_need CpuPool k) (st_caches s)) (Some (di_Key i)) (st_refs s) + kube_need CpuPool k app i)
    (kube_capacity apart lookup false (ci_NodePools (cu_Resources ci)) k) ∧
  kept (demand (need_at (kube_need GpuPool k) (st_caches s)) (Some (di_Key i)) (st_refs s) + kube_need GpuPool k app i)
    (kube_capacity apart lookup true (ci_NodePools (cu_Resources ci)) k).
Proof.
  intros Hin Hiwf Hapart Hk8s Hside Hdep Hfits. unfold fitsAppResources in Hfits. rewrite Hside, Hk8s in Hfits.
  destruct (calcKubernetesClusterUsedResources _ _ _) as [[cpuUsed gpuUsed]|] eqn:Hu; [|done].
  apply (kube_used _ _ _ _ _ k) in Hu as ((Hcw & Hgw) & Hca & Hga); [|apply Hin]. simpl in Hca, Hga.
  destruct (di_KubernetesResources i) as [kr|] eqn:Hkr; simpl in Hfits; [|done].
  assert (KubernetesResourcesFits (cu_Resources ci) kr cpuUsed gpuUsed lookup spec = (ss, free, None)) as Hkf by congruence.
  apply kube_fits in Hkf as [Hcf Hgf].
  pose proof (λ key, need_nonneg (st_caches s) k key (wi_insts _ _ _ _ _ Hin)) as Hpos.
  destruct (wi_kube _ _ _ _ _ Hin k Hdep) as [Hc Hg]. unfold needed in Hc, Hg.
  assert (∀ sel, kube_need sel k app i = pool_need (sel kr) k) as Hneed.
  { intros sel. unfold kube_need. by rewrite Hkr, Hside. }
  rewrite !Hneed. pose proof (λ f, demand_nonneg f (Some (di_Key i)) (st_refs s)) as Hnn.
  pose proof (λ f, demand_le f (Some (di_Key i)) (st_refs s)) as Hle. split.
  - pose proof (Hnn _ (λ key, proj1 (Hpos key))). pose proof (Hle _ (λ key, proj1 (Hpos key))).
    destruct (CpuPool kr) as [p|] eqn:Hp; [|unfold kept, pool_need in *; lia].
    eapply (pool_fits p cpuUsed _ lookup spec); eauto; [by eapply (iw_cpu i)| |unfold kept in *; lia].
    intros mins Hm. apply accepted_capacity; [done..|]. intros Ha.
    destruct (Hapart Ha) as [? Hown]. split; [done|]. by eapply (op_cpu i Hown).
  - pose proof (Hnn _ (λ key, proj1 (proj2 (Hpos key)))). pose proof (Hle _ (λ key, proj1 (proj2 (Hpos key)))).
    destruct (GpuPool kr) as [p|] eqn:Hp; [|unfold kept, pool_need in *; lia].
    eapply (pool_fits p gpuUsed _ lookup spec); eauto; [by eapply (iw_gpu i)| |unfold kept in *; lia].
    intros mins Hm. apply accepted_capacity; [done..|]. intros Ha.
    destruct (Hapart Ha) as [? Hown]. split; [done|]. by eapply (op_gpu i Hown).
Qed.
Lemma refs_add_nodup key refs : NoDup refs → NoDup (refs_add key refs).
Proof.
  intros Hnd. unfold refs_add. case_decide; [done|]. apply list.NoDup_app.
  split_and!; [done| |apply NoDup_singleton]. by intros x Hx ->%list_elem_of_singleton.
Qed.
Lemma refs_remove_nodup key refs : NoDup refs → NoDup (refs_remove key refs).
Proof.
  intros Hnd. destruct (decide (key ∈ refs)) as [Hin|Hni]; [|by rewrite refs_remove_absent].
  destruct (refs_remove_split key refs Hnd Hin) as (l1 & l2 & -> & ->).
  apply list.NoDup_app in Hnd as (H1 & H2 & [_ H3]%NoDup_cons). apply list.NoDup_app. split_and!; [done| |done].
  intros x Hx Hx'. apply (H2 x Hx). by right.
Qed.
Lemma place_within coming s s' :
  (apart → ∀ spec app i, coming spec app i → spec = false ∧ own_pools i) →
  (no_sidecars → ∀ spec app i, coming spec app i → IsSideCarApp app = false) →
  state_within s → place_step coming ci lookup s s' → state_within s'.
Proof.
  intros Hapart Hnos Hin Hstep.
  pose proof (wi_refs _ _ _ _ _ Hin) as Hnd. pose proof (wi_insts _ _ _ _ _ Hin) as Hwf.
  destruct Hstep as [spec app i ss free Hadm Hi Ha Hdep Hfits|key].
  - pose proof (deploys_iff app ci Hdep) as Hk8s. split; simpl.
    + by apply refs_add_nodup.
    + by apply map_Forall_insert_2.
    + intros k Hk. rewrite bool_decide_true in Hk8s by done. rewrite !(needed_place _ s app) by done.
      destruct (IsSideCarApp app) eqn:Hsc; [|by eapply kube_place; eauto].
      destruct (wi_kube _ _ _ _ _ Hin k Hk) as [Hc Hg]. unfold needed in Hc, Hg.
      pose proof (λ key, need_nonneg (st_caches s) k key Hwf) as Hpos.
      pose proof (demand_le _ (Some (di_Key i)) (st_refs s) (λ key, proj1 (Hpos key))).
      pose proof (demand_le _ (Some (di_Key i)) (st_refs s) (λ key, proj1 (proj2 (Hpos key)))).
      assert (∀ sel, kube_need sel k app i = 0) as Hz; [|rewrite !Hz; unfold kept in *; lia].
      intros sel. unfold kube_need. rewrite Hsc. by destruct (di_KubernetesResources i).
    + intros k Hno Hk. rewrite bool_decide_false in Hk8s by done. rewrite (needed_place _ s app) by done.
      eapply vm_place; eauto.
  - pose proof (λ k key, need_nonneg (st_caches s) k key Hwf) as Hpos. split; simpl.
    + by apply refs_remove_nodup.
    + by apply map_Forall_delete.
    + intros k Hk. destruct (wi_kube _ _ _ _ _ Hin k Hk) as [Hc Hg].
      pose proof (needed_remove (kube_need CpuPool) s key k (λ key', proj1 (Hpos k key')) Hnd).
      pose proof (needed_remove (kube_need GpuPool) s key k (λ key', proj1 (proj2 (Hpos k key'))) Hnd).
      unfold kept in *. lia.
    + intros k Hno Hk. pose proof (wi_vm _ _ _ _ _ Hin k Hno Hk).
      pose proof (needed_remove vm_need s key k (λ key', proj2 (proj2 (Hpos k key'))) Hnd). lia.
Qed.
Lemma within_empty apps : state_within (mkClusterState (mkInstCaches ∅ apps) []).
Proof.
  split; [constructor|apply map_Forall_empty| |].
  - intros k _. assert (∀ gpu, 0 <= kube_capacity apart lookup gpu (ci_NodePools (cu_Resources ci)) k) as H.
    { intros gpu. pose proof (λ g, class_supply_nonneg lookup g _ k Hpools) as Hn. unfold kube_capacity.
      pose proof (Hn false). pose proof (Hn true). pose proof (Hn gpu). destruct apart; lia. }
    by split; (split; [apply H|]).
  - intros k _ _. unfold needed. simpl. unfold vm_capacity.
    destruct (calcVMClusterTotalResources ci lookup) as [t|] eqn:Ht; simpl; [|done].
    destruct (vm_capacity_range t Ht) as [Hw _]. by apply amount_range.
Qed.
Lemma runs_within coming apps s :
  (apart → ∀ spec app i, coming spec app i → spec = false ∧ own_pools i) →
  (no_sidecars → ∀ spec app i, coming spec app i → IsSideCarApp app = false) →
  rtc (place_step coming ci lookup) (mkClusterState (mkInstCaches ∅ apps) []) s → state_within s.
Proof.
  intros Ha Hn Hsteps. pose proof (within_empty apps) as H0. revert H0.
  induction Hsteps as [|s1 s2 s3 H1 _ IH]; [done|]. intros H0. by eapply IH, place_within.
Qed.
End Capacity.

(** C11: whatever instances are placed in an empty cluster after the check, one
    after the other, and removed, while its nodes stay the same: on a Kubernetes
    cluster what the CPU pools of the instances need of a
    resource, and what their GPU pools need, are each at most what all nodes
    have.  When no placement is on a cluster that the user named, and CPU pools
    ask for no GPUs and GPU pools for some, the CPU pools are within the nodes
    without GPUs and the GPU pools within those with GPUs, as the usage that is
    shown counts them; otherwise the two together may need more than there is
    ([named_cluster_oversubscribed]).  On a cluster of VMs all instances are
    within its node when none is a sidecar, which is not checked
    ([sidecar_oversubscribes]).  The totals of the cluster are assumed not to
    overflow; [coming] is the set of placements that come. *)
Theorem place_keeps_capacity (coming : bool → DApp → DInst → Prop)
    (ci : Cluster) (lookup : FlavorLookup) (apps : gmap AppKey DApp) (s : cluster_state)
    (Hpools : pools_wf (ci_NodePools (cu_Resources ci)))
    (Hcap : ∀ gpu k, class_supply lookup gpu (ci_NodePools (cu_Resources ci)) k < modulus)
    (Hsteps : rtc (place_step coming ci lookup) (mkClusterState (mkInstCaches ∅ apps) []) s) :
  ∀ k,
    (cu_Deployment ci = DeploymentTypeKubernetes → ∀ cpu gpu,
      calcKubernetesClusterTotalResources ci lookup = Some (Ok (cpu, gpu)) →
      needed (kube_need CpuPool) s k <= amount cpu k + amount gpu k ∧
      needed (kube_need GpuPool) s k <= amount cpu k + amount gpu k ∧
      ((∀ spec app i, coming spec app i → spec = false ∧ own_pools i) →
        needed (kube_need CpuPool) s k <= amount cpu k ∧ needed (kube_need GpuPool) s k <= amount gpu k)) ∧
    (cu_Deployment ci ≠ DeploymentTypeKubernetes →
      (∀ spec app i, coming spec app i → IsSideCarApp app = false) →
      ∀ total, calcVMClusterTotalResources ci lookup = Ok total → needed vm_need s k <= amount total k).
Proof.
  intros k. split.
  - intros Hk cpu gpu Ht.
    apply total_pools_spec in Ht as [_ Ha]; [|done|apply rmap_wf_empty..]. destruct (Ha k) as [-> ->].
    change (amount ∅ k) with 0. rewrite !Z.add_0_l, !Z.mod_small; [|split; [by apply class_supply_nonneg|done]..].
    assert (within false false ci lookup s) as Hall by (eapply runs_within; eauto; done).
    destruct (wi_kube _ _ _ _ _ Hall k Hk) as [[Hc _] [Hg _]]. split_and!; [done..|]. intros Hadm.
    assert (within true false ci lookup s) as Hown by (eapply runs_within; eauto; done).
    by destruct (wi_kube _ _ _ _ _ Hown k Hk) as [[? _] [? _]].
  - intros Hk Hadm total Ht.
    assert (within false true ci lookup s) as Hin by (eapply runs_within; eauto; done).
    pose proof (wi_vm _ _ _ _ _ Hin k I Hk) as Hvm.
    by rewrite (proj2 (vm_capacity_range ci lookup total Ht)) in Hvm.
Qed.
End ClustRes.

(** ** Runs *)

Module ClustResWitness.
Import JsonRuns ProvJson ResFitsWitness.
#[local] Existing Instance canonical_range.

Definition ak : AppKey := mkAppKey "dev" "game" "1".
Definition app : DApp :=
  mkDApp (mkApp ak false false [] "" "helm") NO_AUTO_DELETE ACCESS_TYPE_LOAD_BALANCER false false IMAGE_TYPE_HELM [].
Definition clk : ClusterKey := mkClusterKey "cl" "dev".
Definition ck : CloudletKey := mkCloudletKey "op" "c1" "".
Definition cluster (pools : list NodePool) : Cluster :=
  mkCluster clk ck "kubernetes" READY IP_ACCESS_DEDICATED false "" false false false false "" "" 1
    (mkClusterInst pools None).
Definition inst (name : string) (cpu gpu : option NodePoolResources) : DInst :=
  mkDInst (mkAppInstKey name "dev") ak clk ck READY (Some (mkKubernetesResources cpu gpu "")) None false false ∅.
Definition apps : gmap AppKey DApp := {[ak := app]}.
Definition s0 : cluster_state := mkClusterState (mkInstCaches ∅ apps) [].
Definition i1 : DInst := inst "i1" (Some req6) None.
Definition s1 : cluster_state := mkClusterState (with_inst i1 (st_caches s0)) [di_Key i1].
Definition checked (s : cluster_state) (pools : list NodePool) (i : DInst) (spec : bool) : option (option error) :=
  snd <$> fitsAppResources (st_caches s) (cluster pools) (mkClusterRefs clk (st_refs s)) app i ∅ spec.

Lemma small gpu k : class_supply ∅ gpu (ci_NodePools (cu_Resources (cluster [pool2]))) k < modulus.
Proof.
  destruct gpu; [done|]. change (class_supply ∅ false _ k) with (amount node4_map k * 2 + 0).
  pose proof (node4_map_bound k). unfold modulus. lia.
Qed.
Lemma inst_ok name : inst_wf (inst name (Some req6) None).
Proof.
  split; intros kr p [= <-]; simpl; [intros [= <-]|done]. apply req6_wf.
Qed.
Lemma inst_own name : own_pools (inst name (Some req6) None).
Proof. split; intros kr p [= <-]; simpl; [intros [= <-]; vm_compute; reflexivity|done]. Qed.
(** 6.5 of 8 vCPUs are placed; another instance of that size is refused. *)
Lemma place_keeps_capacity_witness :
  checked s1 [pool2] (inst "i2" (Some req6) None) false ≠ Some None ∧
  needed (kube_need CpuPool) s1 ResourceVcpus = 6500000000 ∧
  ∀ cpu gpu, calcKubernetesClusterTotalResources (cluster [pool2]) ∅ = Some (Ok (cpu, gpu)) →
    needed (kube_need CpuPool) s1 ResourceVcpus <= amount cpu ResourceVcpus.
Proof.
  split; [vm_compute; discriminate|]. split; [vm_compute; reflexivity|]. intros cpu gpu Ht.
  pose (coming := λ (spec : bool) (_ : DApp) (i : DInst), spec = false ∧ own_pools i).
  refine (proj1 (proj2 (proj2 (proj1 (place_keeps_capacity coming (cluster [pool2]) ∅ apps s1 pool2_wf small _
    ResourceVcpus) eq_refl cpu gpu Ht)) (λ _ _ _ H, H))).
  eapply rtc_l; [|apply rtc_refl].
  refine (ps_place coming (cluster [pool2]) ∅ s0 false app i1 None _ (conj eq_refl (inst_own "i1")) (inst_ok "i1") _ _ _);
    [vm_compute; reflexivity|vm_compute; reflexivity|vm_compute; reflexivity].
Defined.

(** On a cluster that the user names, a request without GPUs may use nodes with
    GPUs, and the two kinds are counted apart: two instances that need 6.5 vCPUs
    each are both accepted on 8. *)
Definition gpu_pool : NodePool :=
  mkNodePool "g" 2 (Some (mkNodeResources 4 8192 0 [mkGPU "t4" 1 "" 0 0] ∅ "" 0)) false.
Definition gpu_req : NodePoolResources :=
  mkNodePoolResources (mkUdec 6 500000000) 1024 0 [mkGPU "t4" 2 "" 0 0] ∅ (mkTopology 2 0 0 [] ∅ 1).
Example named_cluster_oversubscribed :
  checked s0 [gpu_pool] i1 true = Some None ∧
  checked s1 [gpu_pool] (inst "i2" None (Some gpu_req)) true = Some None ∧
  checked s0 [gpu_pool] i1 false ≠ Some None.
Proof. split; [vm_compute; reflexivity|]. split; [vm_compute; reflexivity|]. vm_compute. discriminate. Qed.

(** A sidecar on a cluster of VMs is not checked but counts: its 64 vCPUs are
    accepted on a node of 4. *)
Definition side_key : AppKey := mkAppKey "edgecloudorg" "agent" "1".
Definition side_app : DApp :=
  mkDApp (mkApp side_key false false [] "" "docker") AUTO_DELETE ACCESS_TYPE_LOAD_BALANCER false false
    IMAGE_TYPE_DOCKER [].
Definition vm_cluster : Cluster :=
  mkCluster clk ck "docker" READY IP_ACCESS_DEDICATED false "" false false false false "" "" 1
    (mkClusterInst [] (Some (mkNodeResources 4 8192 0 [] ∅ "" 0))).
Definition side_inst : DInst :=
  mkDInst (mkAppInstKey "agent" "edgecloudorg") side_key clk ck READY None
    (Some (mkNodeResources 64 8192 0 [] ∅ "" 0)) false false ∅.
Definition side_state : cluster_state := mkClusterState (mkInstCaches ∅ {[side_key := side_app]}) [].
Definition side_placed : cluster_state :=
  mkClusterState (with_inst side_inst (st_caches side_state)) [di_Key side_inst].
Example sidecar_oversubscribes :
  place_step (λ _ _ _, True) vm_cluster ∅ side_state side_placed ∧
  match calcVMClusterTotalResources vm_cluster ∅ with
  | Ok total => bool_decide (amount total ResourceVcpus < needed vm_need side_placed ResourceVcpus)
  | Err _ => false
  end = true.
Proof.
  split; [|vm_compute; reflexivity].
  refine (ps_place (λ _ _ _, True) vm_cluster ∅ side_state false side_app side_inst None ∅ I _ _ _ _);
    [by split|vm_compute; reflexivity..].
Qed.

(** A pool made for a request whose nodes must have two GPUs of a model, and
    that needs two of it: the nodes get four; and a minimum that is too small is
    raised in the request itself. *)
Definition t4 (n : Z) : GPUResource := mkGPU "t4" n "" 0 0.
Definition gpu_request (m total : Z) : NodePoolResources :=
  mkNodePoolResources (mkUdec 4 0) 8192 0 [t4 total] ∅ (mkTopology 0 0 0 [t4 m] ∅ 0).
Example gpus_counted_twice :
  NodeResourcesGPUCount (np_NodeResources (NodePoolFromResources "gpupool" (gpu_request 2 2)).1) = 4 ∧
  MinNodeGpus (Topology (NodePoolFromResources "gpupool" (gpu_request 1 4)).2) = [t4 4].
Proof. split; vm_compute; reflexivity. Qed.
Example node_pool_made :
  np_NodeResources (NodePoolFromResources "cpupool" (mkNodePoolResources (mkUdec 6 500000000) 1000 10 [] ∅
    (mkTopology 0 0 0 [] ∅ 3))).1 = Some (mkNodeResources 3 334 4 [] ∅ "" 0).
Proof. vm_compute. reflexivity. Qed.
End ClustResWitness.
