(* ===== verification/KeyWorkers.v ===== *)
(** * One worker for each key (pkg/util/tasks/keyworkers.go)

    [NeedsWork] starts a goroutine for a key, or tells the running one that
    there is more to do.  Goroutines are interleaved: one step is one critical
    section of the mutex, one pass of the pause, or the end of the work
    function.  A [keyWorker] object is shared by the map and its goroutine, so
    the objects are in a heap by identity, each with the place its goroutine
    is at, and the channel that [NeedsWork] returns is named by the identity.
    What happens is recorded in [trace], the newest first.  The context handed
    to the work function is left out. *)

From S2P Require Export Prelude.

Section Workers.
Context {K : Type} `{Countable K}.

(** ** Data *)

(** Where the goroutine of a worker is: before the pause, between the pause
    and the mutex, in the work function, or past the mutex for the last time. *)
Inductive place := AtPause | AtLock | Working | Leaving.
#[global] Instance place_eq_dec : EqDecision place.
Proof. solve_decision. Defined.
Record keyWorker := mkWorker { key : K; needsWork : bool; at_ : place }.

(** Each event names the key and the worker. *)
Inductive event :=
| Requested (k : K) (w : nat)   (* NeedsWork returned the channel of w *)
| Started (k : K) (w : nat)     (* the work function was called *)
| Ended (k : K) (w : nat)       (* it returned *)
| Closed (k : K) (w : nat).     (* the channel was closed *)
Record KeyWorkers := mkKeyWorkers {
  workers : gmap K nat;
  objs : gmap nat keyWorker;
  next : nat;
  paused : bool;
  trace : list event;
}.

(** ** Operations *)

Definition Init : KeyWorkers := mkKeyWorkers ∅ ∅ 0 false [].

Definition NeedsWork (k : K) (s : KeyWorkers) : KeyWorkers :=
  match workers s !! k with
  | None =>
      mkKeyWorkers (<[k := next s]> (workers s))
        (<[next s := mkWorker k true AtPause]> (objs s)) (S (next s)) (paused s)
        (Requested k (next s) :: trace s)
  | Some w =>
      mkKeyWorkers (workers s) (alter (λ o, mkWorker (key o) true (at_ o)) w (objs s)) (next s)
        (paused s) (Requested k w :: trace s)
  end.
Definition Pause (s : KeyWorkers) : KeyWorkers :=
  mkKeyWorkers (workers s) (objs s) (next s) true (trace s).
Definition Resume (s : KeyWorkers) : KeyWorkers :=
  mkKeyWorkers (workers s) (objs s) (next s) false (trace s).
Definition WorkerCount (s : KeyWorkers) : nat := size (workers s).
(** May [WaitIdle] return? *)
Definition Idle (s : KeyWorkers) : bool := bool_decide (objs s = ∅).

(** One step of the goroutine [w]; [None]: it has to wait, or is gone. *)
Definition runWorker (w : nat) (s : KeyWorkers) : option KeyWorkers :=
  o ← objs s !! w;
  match at_ o with
  | AtPause =>
      if paused s then None
      else Some (mkKeyWorkers (workers s) (<[w := mkWorker (key o) (needsWork o) AtLock]> (objs s))
                   (next s) (paused s) (trace s))
  | AtLock =>
      if needsWork o then
        Some (mkKeyWorkers (workers s) (<[w := mkWorker (key o) false Working]> (objs s))
                (next s) (paused s) (Started (key o) w :: trace s))
      else
        Some (mkKeyWorkers (delete (key o) (workers s))
                (<[w := mkWorker (key o) false Leaving]> (objs s)) (next s) (paused s) (trace s))
  | Working =>
      Some (mkKeyWorkers (workers s) (<[w := mkWorker (key o) (needsWork o) AtPause]> (objs s))
              (next s) (paused s) (Ended (key o) w :: trace s))
  | Leaving =>
      Some (mkKeyWorkers (workers s) (delete w (objs s)) (next s) (paused s)
              (Closed (key o) w :: trace s))
  end.

Inductive step (s : KeyWorkers) : KeyWorkers → Prop :=
| step_needs k : step s (NeedsWork k s)
| step_pause : step s (Pause s)
| step_resume : step s (Resume s)
| step_run w s' : runWorker w s = Some s' → step s s'.
Definition reachable (s : KeyWorkers) : Prop := rtc step Init s.
(** A step of some goroutine. *)
Definition run_step (s s' : KeyWorkers) : Prop := ∃ w, runWorker w s = Some s'.

(** ** Specification *)

(** The work function was called after the last request that satisfies [P]. *)
Fixpoint served (P : K → nat → bool) (tr : list event) : bool :=
  match tr with
  | [] => true
  | Requested k w :: tr' => if P k w then false else served P tr'
  | Started k w :: tr' => if P k w then true else served P tr'
  | _ :: tr' => served P tr'
  end.
Definition of_key (k : K) : K → nat → bool := λ k' _, bool_decide (k' = k).
Definition of_worker (w : nat) : K → nat → bool := λ _ w', bool_decide (w' = w).
(** Calls of the work function for the key that have not returned. *)
Fixpoint working (k : K) (tr : list event) : Z :=
  match tr with
  | [] => 0
  | Started k' _ :: tr' => (if decide (k' = k) then 1 else 0) + working k tr'
  | Ended k' _ :: tr' => (if decide (k' = k) then -1 else 0) + working k tr'
  | _ :: tr' => working k tr'
  end.

(** The work function runs at most once at a time for each key, at every
    moment of the trace. *)
Fixpoint exclusive (tr : list event) : Prop :=
  match tr with
  | [] => True
  | _ :: tr' => (∀ k, (0 ≤ working k tr ≤ 1)%Z) ∧ exclusive tr'
  end.
(** A channel is closed only when the requests that returned it are served. *)
Fixpoint closed_served (tr : list event) : Prop :=
  match tr with
  | [] => True
  | Closed _ w :: tr' => served (of_worker w) tr' = true ∧ closed_served tr'
  | _ :: tr' => closed_served tr'
  end.

Record inv (s : KeyWorkers) : Prop := {
  inv_map : ∀ k w, workers s !! k = Some w →
    ∃ o, objs s !! w = Some o ∧ key o = k ∧ at_ o ≠ Leaving;
  inv_obj : ∀ w o, objs s !! w = Some o →
    if decide (at_ o = Leaving) then needsWork o = false else workers s !! key o = Some w;
  inv_next : ∀ w, is_Some (objs s !! w) → w < next s;
  inv_served : ∀ k, served (of_key k) (trace s) = true ∨
    ∃ w o, objs s !! w = Some o ∧ key o = k ∧ needsWork o = true;
  inv_answered : ∀ w, served (of_worker w) (trace s) = true ∨
    ∃ o, objs s !! w = Some o ∧ needsWork o = true;
  inv_working : ∀ k, working k (trace s) =
    (match workers s !! k ≫= λ w, objs s !! w with
     | Some o => if decide (at_ o = Working) then 1 else 0
     | None => 0
     end)%Z;
  inv_exclusive : exclusive (trace s);
  inv_closed : closed_served (trace s);
}.

(** ** Lemmas *)

Lemma exclusive_cons e tr :
  exclusive tr → (∀ k, (0 ≤ working k (e :: tr) ≤ 1)%Z) → exclusive (e :: tr).
Proof. intros Hex Hw. by split. Qed.

Lemma inv_working_range s k : inv s → (0 ≤ working k (trace s) ≤ 1)%Z.
Proof. intros Hinv. rewrite (inv_working s Hinv). repeat case_match; lia. Qed.

(** A worker that is not leaving is the worker of its key. *)
Lemma inv_here s w o :
  inv s → objs s !! w = Some o → at_ o ≠ Leaving → workers s !! key o = Some w.
Proof.
  intros Hinv Ho Hat. pose proof (inv_obj s Hinv w o Ho) as Hw. by rewrite decide_False in Hw.
Qed.
Lemma working_at s w o :
  inv s → objs s !! w = Some o → at_ o ≠ Leaving →
  working (key o) (trace s) = (if decide (at_ o = Working) then 1 else 0)%Z.
Proof.
  intros Hinv Ho Hat. rewrite (inv_working s Hinv), (inv_here s w o) by done. simpl. by rewrite Ho.
Qed.
Lemma needs_here s w o :
  inv s → objs s !! w = Some o → needsWork o = true → at_ o ≠ Leaving.
Proof.
  intros Hinv Ho Hn Hat. pose proof (inv_obj s Hinv w o Ho) as Hw.
  rewrite decide_True in Hw by done. congruence.
Qed.
Lemma same_key s w w' o o' :
  inv s → objs s !! w = Some o → objs s !! w' = Some o' → at_ o ≠ Leaving → at_ o' ≠ Leaving →
  key o = key o' → w = w'.
Proof.
  intros Hinv Ho Ho' Hat Hat' Hk.
  apply (inv_here s) in Ho, Ho'; [|done..]. rewrite Hk in Ho. congruence.
Qed.
Lemma other_worker s w o k v :
  inv s → objs s !! w = Some o → k ≠ key o → workers s !! k = Some v → v ≠ w.
Proof. intros Hinv Ho Hk Hv ->. apply (inv_map s Hinv) in Hv as (x & Hx & <- & _). congruence. Qed.

(** What an event about another key and worker leaves as it is. *)
Definition about (e : event) : K * nat :=
  match e with Requested k w | Started k w | Ended k w | Closed k w => (k, w) end.
Lemma served_other P e tr : P (about e).1 (about e).2 = false → served P (e :: tr) = served P tr.
Proof. destruct e; simpl; intros HP; by rewrite ?HP. Qed.
Lemma working_other k e tr : (about e).1 ≠ k → working k (e :: tr) = working k tr.
Proof. destruct e; simpl; intros Hk; rewrite ?decide_False by done; done. Qed.
Lemma of_key_ne k k' w : k' ≠ k → of_key k k' w = false.
Proof. intros Hk. by apply bool_decide_eq_false. Qed.
Lemma of_worker_ne w w' k : w' ≠ w → of_worker w k w' = false.
Proof. intros Hw. by apply bool_decide_eq_false. Qed.
Lemma of_key_eq k w : of_key k k w = true.
Proof. by apply bool_decide_eq_true. Qed.
Lemma of_worker_eq w k : of_worker w k w = true.
Proof. by apply bool_decide_eq_true. Qed.

(** Changing a worker in place, with at most one event about it. *)
Lemma inv_change s w o o' evs :
  inv s → objs s !! w = Some o → key o' = key o → at_ o ≠ Leaving → at_ o' ≠ Leaving →
  Forall (λ e, about e = (key o, w)) evs →
  (∀ P, P (key o) w = true → served P (evs ++ trace s) = true) ∨ needsWork o' = true ∨
    (∀ P, served P (evs ++ trace s) = served P (trace s)) ∧ needsWork o' = needsWork o →
  working (key o) (evs ++ trace s) = (if decide (at_ o' = Working) then 1 else 0)%Z →
  exclusive (evs ++ trace s) → closed_served (evs ++ trace s) →
  inv (mkKeyWorkers (workers s) (<[w := o']> (objs s)) (next s) (paused s) (evs ++ trace s)).
Proof.
  intros Hinv Ho Hk Hat Hat' Hev Hsv Hwk Hex Hcl.
  pose proof Hinv as [H1 H2 H3 H4 H4w H5 _ _].
  assert (∀ P, P (key o) w = false → served P (evs ++ trace s) = served P (trace s)) as Hso.
  { intros P HP. clear -Hev HP. induction Hev as [|e evs He _ IH]; [done|].
    cbn [app]. rewrite served_other, IH; [done|]. by rewrite He. }
  assert (∀ k, k ≠ key o → working k (evs ++ trace s) = working k (trace s)) as Hwo.
  { intros k HP. clear -Hev HP. induction Hev as [|e evs He _ IH]; [done|].
    cbn [app]. rewrite working_other, IH; [done|]. rewrite He. by apply not_eq_sym. }
  split; cbn [workers objs next trace]; [| | | | | |done|done].
  - intros k v Hv. destruct (decide (v = w)) as [->|].
    + exists o'. rewrite lookup_insert_eq. split_and!; [done| |done].
      apply H1 in Hv as (x & Hx & <- & _). congruence.
    + rewrite lookup_insert_ne by done. by apply H1.
  - intros v x [[<- <-]|[_ Hx]]%lookup_insert_Some; [|by apply H2].
    rewrite decide_False, Hk by done. by eapply inv_here.
  - intros v [x Hx]. apply H3. apply lookup_insert_Some in Hx as [[<- _]|[_ Hx]]; eauto.
  - intros k. destruct (decide (k = key o)) as [->|Hkk].
    + destruct Hsv as [Hsv|[Hn|[Hsv Hn]]].
      * left. by apply Hsv, of_key_eq.
      * right. exists w, o'. by rewrite lookup_insert_eq.
      * rewrite Hsv. destruct (H4 (key o)) as [?|(v & x & Hx & Hxk & Hxn)]; [by left|]. right.
        destruct (same_key s v w x o) as []; try done; [by eapply needs_here|].
        exists v, o'. rewrite lookup_insert_eq. split_and!; [done..|congruence].
    + rewrite Hso by (apply of_key_ne; congruence).
      destruct (H4 k) as [?|(v & x & Hx & Hxk & Hn)]; [by left|].
      right. exists v, x. rewrite lookup_insert_ne; [done|]. intros ->. congruence.
  - intros v. destruct (decide (v = w)) as [->|Hv].
    + destruct Hsv as [Hsv|[Hn|[Hsv Hn]]].
      * left. by apply Hsv, of_worker_eq.
      * right. exists o'. by rewrite lookup_insert_eq.
      * rewrite Hsv. destruct (H4w w) as [?|(x & Hx & Hxn)]; [by left|]. right. exists o'.
        rewrite lookup_insert_eq. split; [done|congruence].
    + rewrite Hso by (apply of_worker_ne; congruence).
      destruct (H4w v) as [?|(x & Hx & Hn)]; [by left|]. right. exists x.
      by rewrite lookup_insert_ne.
  - intros k. destruct (decide (k = key o)) as [->|Hkk].
    + rewrite Hwk, (inv_here s w o) by done. simpl. by rewrite lookup_insert_eq.
    + rewrite Hwo, H5 by done. destruct (workers s !! k) as [v|] eqn:Hv; [|done].
      simpl. rewrite lookup_insert_ne; [done|]. intros <-. by eapply other_worker.
Qed.

Lemma inv_Init : inv Init.
Proof. split; simpl; try done; [by intros w [? ?]|intros k; by left|intros w; by left]. Qed.

Lemma inv_pause s b :
  inv s → inv (mkKeyWorkers (workers s) (objs s) (next s) b (trace s)).
Proof. intros [? ? ? ? ? ? ? ?]. by split. Qed.

(** The first request for a key. *)
Lemma inv_new s k :
  inv s → workers s !! k = None → exclusive (Requested k (next s) :: trace s) →
  inv (mkKeyWorkers (<[k := next s]> (workers s)) (<[next s := mkWorker k true AtPause]> (objs s))
         (S (next s)) (paused s) (Requested k (next s) :: trace s)).
Proof.
  intros Hinv Hw Hex. pose proof Hinv as [H1 H2 H3 H4 H4w H5 H6 H7].
  assert (∀ v o, objs s !! v = Some o → v ≠ next s) as Hfresh.
  { intros v o Ho ->. by eapply Nat.lt_irrefl, H3. }
  split; cbn [workers objs next trace]; [| | | | | |done|done].
  - intros k' w [[<- <-]|[Hne Hw']]%lookup_insert_Some.
    + exists (mkWorker k true AtPause). by rewrite lookup_insert_eq.
    + destruct (H1 k' w Hw') as (o & Ho & Hk). exists o. rewrite lookup_insert_ne; [done|].
      intros <-. by apply Hfresh in Ho.
  - intros w o [[<- <-]|[Hne Ho]]%lookup_insert_Some; simpl; [by rewrite lookup_insert_eq|].
    pose proof (H2 w o Ho) as Hwo. case_decide; [done|].
    rewrite lookup_insert_ne; [done|]. congruence.
  - intros w [o [[<- _]|[_ Ho]]%lookup_insert_Some]; [lia|].
    apply Nat.lt_lt_succ_r, H3. eauto.
  - intros k'. destruct (decide (k' = k)) as [->|Hk].
    + right. exists (next s), (mkWorker k true AtPause). by rewrite lookup_insert_eq.
    + rewrite served_other by (apply of_key_ne; simpl; congruence).
      destruct (H4 k') as [?|(v & o & Ho & Hko & Hn)]; [by left|]. right. exists v, o.
      rewrite lookup_insert_ne; [done|]. intros <-. by apply Hfresh in Ho.
  - intros v. destruct (decide (v = next s)) as [->|Hv].
    + right. exists (mkWorker k true AtPause). by rewrite lookup_insert_eq.
    + rewrite served_other by (apply of_worker_ne; simpl; congruence).
      destruct (H4w v) as [?|(o & Ho & Hn)]; [by left|]. right. exists o.
      by rewrite lookup_insert_ne.
  - intros k'. simpl. rewrite H5. destruct (decide (k' = k)) as [->|Hk].
    + rewrite Hw, lookup_insert_eq. simpl. by rewrite lookup_insert_eq.
    + rewrite (lookup_insert_ne _ k k') by done.
      destruct (workers s !! k') as [v|] eqn:Hv; [|done]. simpl.
      rewrite lookup_insert_ne; [done|]. intros <-.
      apply H1 in Hv as (o & Ho & _). by apply Hfresh in Ho.
Qed.

Lemma inv_NeedsWork s k : inv s → inv (NeedsWork k s).
Proof.
  intros Hinv. unfold NeedsWork.
  assert (∀ w, exclusive (Requested k w :: trace s)) as Hex.
  { intros w. apply exclusive_cons; [by apply inv_exclusive|]. intros k'. simpl.
    by apply inv_working_range. }
  destruct (workers s !! k) as [w|] eqn:Hw; [|by apply inv_new].
  destruct (inv_map s Hinv k w Hw) as (o & Ho & <- & Hat).
  assert (alter (λ o, mkWorker (key o) true (at_ o)) w (objs s)
          = <[w := mkWorker (key o) true (at_ o)]> (objs s)) as ->.
  { apply map_eq. intros v. destruct (decide (v = w)) as [->|].
    - by rewrite lookup_alter_eq, Ho, lookup_insert_eq.
    - by rewrite lookup_alter_ne, lookup_insert_ne by done. }
  apply (inv_change s w o (mkWorker (key o) true (at_ o)) [Requested (key o) w]); try done.
  - by repeat constructor.
  - right. by left.
  - simpl. by rewrite (working_at s w o).
  - apply Hex.
  - by apply (inv_closed s).
Qed.

(** A worker without more to do is taken out of the map. *)
Lemma inv_leave s w o :
  inv s → objs s !! w = Some o → at_ o = AtLock → needsWork o = false →
  inv (mkKeyWorkers (delete (key o) (workers s)) (<[w := mkWorker (key o) false Leaving]> (objs s))
         (next s) (paused s) (trace s)).
Proof.
  intros Hinv Ho Hat Hn. pose proof Hinv as [H1 H2 H3 H4 H4w H5 H6 H7].
  assert (at_ o ≠ Leaving) as Hnl by congruence.
  split; cbn [workers objs next trace]; [| | | | | |done|done].
  - intros k v [Hk Hv]%lookup_delete_Some. destruct (H1 k v Hv) as (x & Hx & Hxk). exists x.
    rewrite lookup_insert_ne; [done|]. apply not_eq_sym. by eapply other_worker.
  - intros v x [[<- <-]|[Hv Hx]]%lookup_insert_Some; [done|].
    pose proof (H2 v x Hx) as Hvx. case_decide; [done|]. rewrite lookup_delete_ne; [done|].
    intros Hk. by apply Hv, (same_key s w v o x).
  - intros v [x [[<- _]|[_ Hx]]%lookup_insert_Some]; eauto.
  - intros k. destruct (H4 k) as [?|(v & x & Hx & Hxk & ?)]; [by left|]. right. exists v, x.
    rewrite lookup_insert_ne; [done|]. intros <-. congruence.
  - intros v. destruct (H4w v) as [?|(x & Hx & ?)]; [by left|]. right. exists x.
    rewrite lookup_insert_ne; [done|]. intros <-. congruence.
  - intros k. destruct (decide (k = key o)) as [->|Hk].
    + rewrite lookup_delete_eq, (working_at s w o) by done. by rewrite Hat.
    + rewrite lookup_delete_ne, H5 by done. destruct (workers s !! k) as [v|] eqn:Hv; [|done].
      simpl. rewrite lookup_insert_ne; [done|]. apply not_eq_sym. by eapply other_worker.
Qed.

(** A worker that leaves closes its channel. *)
Lemma inv_close s w o :
  inv s → objs s !! w = Some o → at_ o = Leaving →
  inv (mkKeyWorkers (workers s) (delete w (objs s)) (next s) (paused s)
         (Closed (key o) w :: trace s)).
Proof.
  intros Hinv Ho Hat. pose proof Hinv as [H1 H2 H3 H4 H4w H5 H6 H7].
  pose proof (H2 w o Ho) as Hn. rewrite decide_True in Hn by done.
  assert (∀ k v, workers s !! k = Some v → v ≠ w) as Hne.
  { intros k v Hv ->. apply H1 in Hv as (x & Hx & _ & ?). congruence. }
  split; cbn [workers objs next trace].
  - intros k v Hv. destruct (H1 k v Hv) as (x & Hx & Hxk). exists x.
    rewrite lookup_delete_ne; [done|]. apply not_eq_sym. by eapply Hne.
  - intros v x [_ Hx]%lookup_delete_Some. by apply H2.
  - intros v [x [_ Hx]%lookup_delete_Some]. eauto.
  - intros k. simpl. destruct (H4 k) as [?|(v & x & Hx & Hxk & ?)]; [by left|]. right. exists v, x.
    rewrite lookup_delete_ne; [done|]. intros <-. congruence.
  - intros v. simpl. destruct (H4w v) as [?|(x & Hx & ?)]; [by left|]. right. exists x.
    rewrite lookup_delete_ne; [done|]. intros <-. congruence.
  - intros k. simpl. rewrite H5. destruct (workers s !! k) as [v|] eqn:Hv; [|done].
    simpl. rewrite lookup_delete_ne; [done|]. apply not_eq_sym. by eapply Hne.
  - apply exclusive_cons; [done|]. intros k. simpl. by apply inv_working_range.
  - split; [|done]. destruct (H4w w) as [?|(x & Hx & ?)]; [done|congruence].
Qed.

(** An event of the worker keeps the calls exclusive when its own count is. *)
Lemma exclusive_own s e o w :
  inv s → about e = (key o, w) → (0 ≤ working (key o) (e :: trace s) ≤ 1)%Z →
  exclusive (e :: trace s).
Proof.
  intros Hinv He Hw. apply exclusive_cons; [by apply inv_exclusive|]. intros k.
  destruct (decide (k = key o)) as [->|Hk]; [done|].
  rewrite working_other by (rewrite He; simpl; congruence). by apply inv_working_range.
Qed.

Lemma inv_run s w s' : inv s → runWorker w s = Some s' → inv s'.
Proof.
  intros Hinv Hrun. unfold runWorker in Hrun. apply bind_Some in Hrun as (o & Ho & Hrun).
  pose proof (inv_exclusive s Hinv) as H6. pose proof (inv_closed s Hinv) as H7.
  assert (at_ o ≠ Leaving → working (key o) (trace s)
    = (if decide (at_ o = Working) then 1 else 0)%Z) as Hw by (intros; by eapply working_at).
  destruct (at_ o) eqn:Hat; [destruct (paused s) eqn:Hp|destruct (needsWork o) eqn:Hn| |];
    try done; injection Hrun as <-; try rewrite <- Hp.
  - apply (inv_change s w o _ []); try done; [congruence| |by apply Hw].
    do 2 right. done.
  - apply (inv_change s w o _ [Started (key o) w]); try done; simpl; [congruence| | | |].
    + by repeat constructor.
    + left. intros P HP. by rewrite HP.
    + by rewrite decide_True, Hw.
    + apply (exclusive_own s (Started (key o) w) o w); [done..|]. simpl. by rewrite decide_True, Hw.
  - by apply inv_leave.
  - apply (inv_change s w o _ [Ended (key o) w]); try done; simpl; [congruence| | | |].
    + by repeat constructor.
    + do 2 right. done.
    + by rewrite decide_True, Hw.
    + apply (exclusive_own s (Ended (key o) w) o w); [done..|]. simpl. by rewrite decide_True, Hw.
  - by apply inv_close.
Qed.

Lemma reachable_workers s : reachable s → inv s.
Proof.
  unfold reachable. generalize inv_Init. generalize (Init). intros s0 H0 Hr.
  induction Hr as [|x y z Hstep _ IH]; [done|]. apply IH.
  destruct Hstep; [by apply inv_NeedsWork|by apply inv_pause|by apply inv_pause|by eapply inv_run].
Qed.

(** C33: at every moment at most one call of the work function is under way for
    a key, whatever the calls of [NeedsWork], pauses and the scheduling of the
    goroutines; and the channel that [NeedsWork] returned is closed only
    after the work function was called for that request. *)
Theorem one_call_per_key s :
  reachable s → exclusive (trace s) ∧ closed_served (trace s).
Proof. intros [_ _ _ _ _ _ H6 H7]%reachable_workers. done. Qed.

(** ** Termination *)

(** The steps a worker can still make. *)
Definition weight (o : keyWorker) : nat :=
  let more := if needsWork o then 3 else 0 in
  match at_ o with
  | AtPause => 3 + more
  | AtLock => 2 + more
  | Working => 4 + more
  | Leaving => 1
  end.
Definition cost (s : KeyWorkers) : nat := sum_list_with (λ kv, weight kv.2) (map_to_list (objs s)).

Lemma cost_delete (m : gmap nat keyWorker) w o :
  m !! w = Some o →
  sum_list_with (λ kv, weight kv.2) (map_to_list m)
  = weight o + sum_list_with (λ kv, weight kv.2) (map_to_list (delete w m)).
Proof. intros Ho. by rewrite <- (map_to_list_delete m w o Ho). Qed.

Lemma run_cost w s s' : runWorker w s = Some s' → cost s = S (cost s').
Proof.
  unfold runWorker, cost. intros (o & Ho & Hrun)%bind_Some. rewrite (cost_delete _ w o Ho).
  assert (∀ o', sum_list_with (λ kv, weight kv.2) (map_to_list (<[w := o']> (objs s)))
    = weight o' + sum_list_with (λ kv, weight kv.2) (map_to_list (delete w (objs s)))) as Hins.
  { intros o'. rewrite (cost_delete _ w o') by apply lookup_insert_eq.
    by rewrite delete_insert_eq. }
  remember (sum_list_with (λ kv, weight kv.2) (map_to_list (delete w (objs s)))) as rest eqn:Hr.
  destruct (at_ o) eqn:Hat; [destruct (paused s)|destruct (needsWork o) eqn:Hn| |];
    simplify_eq/=; rewrite ?Hins, <- ?Hr; unfold weight; rewrite ?Hat, ?Hn; simpl; lia || done.
Qed.

(** C30: without new requests and pauses the workers stop after finitely many
    steps, at most [cost] of them, and when none can go on they have all left,
    [WaitIdle] returns, and the work function was called for each key after its
    last request: no request is lost. *)
Theorem requests_served s n s' :
  reachable s → paused s = false → nsteps run_step n s s' →
  n ≤ cost s ∧
  ((∀ s'', ¬ run_step s' s'') →
   Idle s' = true ∧ WorkerCount s' = 0 ∧ ∀ k, served (of_key k) (trace s') = true).
Proof.
  intros Hr Hp Hsteps. apply reachable_workers in Hr as Hinv. clear Hr.
  assert (n + cost s' ≤ cost s ∧ inv s' ∧ paused s' = false) as (Hc & Hinv' & Hp').
  { induction Hsteps as [|n x y z (w & Hrun) _ IH]; [done|].
    pose proof (run_cost w x y Hrun) as Hcost.
    destruct IH as (? & ? & ?); [|by eapply inv_run|split_and!; [lia|done..]].
    unfold runWorker in Hrun. apply bind_Some in Hrun as (o & _ & Hrun).
    repeat case_match; by simplify_eq/=. }
  split; [lia|]. intros Hstuck.
  assert (objs s' = ∅) as Hnone.
  { apply map_empty. intros w. apply eq_None_not_Some. intros [o Ho].
    destruct (runWorker w s') as [s''|] eqn:Hrun; [apply (Hstuck s''); by exists w|].
    unfold runWorker in Hrun. rewrite Ho in Hrun. simpl in Hrun. rewrite Hp' in Hrun.
    by repeat case_match. }
  pose proof Hinv' as [H1 H2 H3 H4 _ _ _ _]. split_and!.
  - by apply bool_decide_eq_true.
  - apply map_size_empty_iff, map_empty. intros k. apply eq_None_not_Some. intros [w Hw].
    apply H1 in Hw as (o & Ho & _). by rewrite Hnone, lookup_empty in Ho.
  - intros k. destruct (H4 k) as [?|(w & o & Ho & _)]; [done|].
    by rewrite Hnone, lookup_empty in Ho.
Qed.
End Workers.
Arguments KeyWorkers K {_ _}.

(** ** Runs *)

Module KeyWorkersWitness.

(** The goroutines of [ws] take a step each. *)
Fixpoint run {K} `{Countable K} (ws : list nat) (s : KeyWorkers K) : option (KeyWorkers K) :=
  match ws with [] => Some s | w :: ws' => s' ← runWorker w s; run ws' s' end.
Lemma run_nsteps {K} `{Countable K} ws (s s' : KeyWorkers K) :
  run ws s = Some s' → nsteps run_step (length ws) s s'.
Proof.
  revert s. induction ws as [|w ws IH]; simpl; intros s Hrun; [injection Hrun as <-; constructor|].
  apply bind_Some in Hrun as (x & Hx & Hrun). econstructor; [by exists w|by apply IH].
Qed.
Lemma run_reachable {K} `{Countable K} ws (s s' : KeyWorkers K) :
  reachable s → run ws s = Some s' → reachable s'.
Proof.
  revert s. induction ws as [|w ws IH]; simpl; intros s Hs Hrun; [by injection Hrun as <-|].
  apply bind_Some in Hrun as (x & Hx & Hrun). apply (IH x); [|done].
  eapply rtc_r; [exact Hs|by eapply step_run].
Qed.

(** Two keys; the first is requested again while its work function runs. *)
Definition busy : KeyWorkers nat :=
  default Init (run [0; 0; 1] (NeedsWork 8 (NeedsWork 7 Init))).
Definition again : KeyWorkers nat := NeedsWork 7 busy.
Definition order : list nat := [0; 0; 0; 0; 0; 0; 0; 1; 1; 1; 1; 1].
Definition finished : KeyWorkers nat := default Init (run order again).

Lemma reachable_again : reachable again.
Proof.
  eapply rtc_r; [|apply step_needs]. apply (run_reachable [0; 0; 1] (NeedsWork 8 (NeedsWork 7 Init))).
  - eapply rtc_l; [apply step_needs|]. eapply rtc_l; [apply step_needs|]. constructor.
  - vm_compute. reflexivity.
Qed.

Lemma one_call_per_key_witness :
  reachable again ∧ exclusive (trace again) ∧ closed_served (trace again).
Proof. split; [exact reachable_again|]. apply one_call_per_key. exact reachable_again. Defined.

(** All twelve steps are needed, and no request is lost. *)
Lemma requests_served_witness :
  cost again = 12 ∧ Idle finished = true ∧
  trace finished = [Closed 8 1; Ended 8 1; Started 8 1; Closed 7 0; Ended 7 0; Started 7 0;
                    Ended 7 0; Requested 7 0; Started 7 0; Requested 8 1; Requested 7 0] ∧
  12 ≤ cost again.
Proof.
  split; [vm_compute; reflexivity|]. split; [vm_compute; reflexivity|].
  split; [vm_compute; reflexivity|].
  refine (proj1 (requests_served again 12 finished reachable_again _ _));
    [vm_compute; reflexivity|]. apply (run_nsteps order). vm_compute. reflexivity.
Defined.
End KeyWorkersWitness.
