(* ===== verification/VMSpec.v ===== *)
(** * Choosing an infra flavor for a node (pkg/resspec/vmspec_matcher.go)

    [GetVMSpec] picks the smallest flavor of a cloudlet that meets the
    requested resources, GPUs and optional resources.  Maps that the code
    compares with nil are options here; pointers in lists and maps are values,
    so a nil entry is not represented.  Log calls are left out. *)

From S2P Require Export ResVals.

Local Open Scope Z_scope.

(** ** Data *)

Record OSImage := mkOSImage {
  img_Name : string; img_Tags : string; img_Properties : string; DiskFormat : string }.
Record OSAZone := mkOSAZone { az_Name : string; az_Status : string }.
(** The fields of the cloudlet info that flavor matching reads. *)
Record CloudletInfo := mkCloudletInfo {
  cli_Name : string;
  cli_Flavors : list FlavorInfo;
  AvailabilityZones : list OSAZone;
  OsImages : list OSImage;
}.
Record ResTagTable := mkResTagTable {
  rt_Name : string; rt_Organization : string; Tags : gmap string string; Azone : string }.
(** [TrustPolicy], not set by these functions, is left out. *)
Record VMCreationSpec := mkVMCreationSpec {
  FlavorName : string;
  vs_ExternalVolumeSize : Z;
  AvailabilityZone : string;
  ImageName : string;
  MasterNodeFlavor : string;
  vs_FlavorInfo : option FlavorInfo;
}.
Abbreviation ResTagTables := (gmap string ResTagTable).
Abbreviation counts := (gmap string Z).

(** [m[k] += n] *)
Definition bump (m : counts) (k : string) (n : Z) : counts :=
  <[k := default 0 (m !! k) + n]> m.
(** [%s] and [%q] of a slice of strings. *)
Definition fmt_strs (l : list string) : string := "[" +:+ join " " l +:+ "]".
Definition fmt_quoted (l : list string) : string := "[" +:+ join " " (quote <$> l) +:+ "]".

(** ** Images and zones *)

Definition findImagematch (res : string) (cli : CloudletInfo) : string * bool :=
  match filter (λ img, contains (to_lower (img_Name img)) res = true) (OsImages cli) with
  | img :: _ => (img_Name img, true)
  | [] => ("", false)
  end.
Definition findAZmatch (res : string) (cli : CloudletInfo) : string * bool :=
  match filter (λ az, contains (to_lower (az_Name az)) res = true) (AvailabilityZones cli) with
  | az :: _ => (az_Name az, true)
  | [] => ("", false)
  end.

(** ** Requests and properties of the form [name:count] or [name=count] *)

Definition split_spec (s : string) : option (list string) :=
  if contains s ":" then Some (split ":" s)
  else if contains s "=" then Some (split "=" s)
  else None.

Record request := mkRequest {
  wildcard : bool; reqResType : string; reqResSpec : string; reqcnt : Z }.
Definition parse_request (resname req : string) : result request :=
  let request := default [] (split_spec req) in
  if decide (length request = 1%nat) then
    Err ("invalid optresmap request " +:+ fmt_strs request)
  else
    let '(wildcard, reqResType, reqResSpec, count) :=
      match request with
      | [t; c] => (bool_decide (t = "gpu"), t, "", c)
      | [t; s; c] => (false, t, s, c)
      | _ => (false, "", "", "")
      end in
    match Atoi count with
    | Err _ => Err ("Match fail: resource count " +:+ count +:+ " request "
                    +:+ fmt_strs request +:+ " resource " +:+ resname +:+ " ")
    | Ok n =>
        if decide (n = 0) then
          Err ("No " +:+ resname +:+ " resource count for request " +:+ fmt_strs request)
        else Ok (mkRequest wildcard reqResType reqResSpec n)
    end.

(** The count of a property, its quotes trimmed. *)
Definition trim_count (s : string) : string :=
  trim (λ c, bool_decide (c = "'"%char)) (trim (λ c, bool_decide (c = quote_char)) s).

(** Does a property satisfy the request by a tag? *)
Definition prop_matches (rq : request) (tag_key tag_val flav_key flav_val : string)
    (flavcnt : Z) : bool :=
  if wildcard rq then contains flav_key tag_key && (reqcnt rq <=? flavcnt)
  else bool_decide (reqResType rq = tag_key) && contains flav_key tag_key
       && (contains flav_val tag_val && (reqcnt rq <=? flavcnt))
       && negb (negb (bool_decide (reqResSpec rq = "")) && negb (contains flav_val (reqResSpec rq))).

(** The properties in the order of iteration; [alias] keeps the last property
    that could be split.  [Some r]: the function returns [r]. *)
Fixpoint match_props (rq : request) (flavorName tag_key tag_val : string)
    (alias : list string) (props : list (string * string)) : option (result unit) :=
  match props with
  | [] => None
  | (flav_key, flav_val) :: props' =>
      match default alias (split_spec flav_val) with
      | [a0; a1] =>
          let a1 := trim_count a1 in
          if negb (is_ok (Atoi a1)) && bool_decide (props' = []) then
            Some (Err ("End of flavor prop map Non-numeric count found in os flavor props for "
                       +:+ flavorName))
          else if prop_matches rq tag_key tag_val flav_key flav_val (Atoi_value a1) then
            Some (Ok tt)
          else match_props rq flavorName tag_key tag_val [a0; a1] props'
      | alias => match_props rq flavorName tag_key tag_val alias props'
      end
  end.

Section Match.
Context {GR : GoRange}.

Fixpoint match_tags (rq : request) (flavor : FlavorInfo) (tags : list (string * string))
    : result unit :=
  match tags with
  | [] => Err ("No match found for flavor " +:+ fi_Name flavor)
  | (tag_key, tag_val) :: tags' =>
      match match_props rq (fi_Name flavor) tag_key tag_val [] (go_range (fi_PropMap flavor)) with
      | Some r => r
      | None => match_tags rq flavor tags'
      end
  end.
Definition match_res (resname req : string) (flavor : FlavorInfo) (tbl : ResTagTable)
    : result unit :=
  rq ← parse_request resname req; match_tags rq flavor (go_range (Tags tbl)).

(** The optional resources a flavor offers, and the number of hints for them. *)
Definition prop_hits (props : list (string * string)) (tags : list (string * string)) : nat :=
  length (flat_map (λ p, filter (λ t, contains p.2 t.2 = true) tags) props).
Definition InfraFlavorResources (flavor : FlavorInfo) (tbls : ResTagTables)
    : gset string * Z :=
  fold_left (λ acc rt,
      let hits := prop_hits (go_range (fi_PropMap flavor)) (go_range (Tags rt.2)) in
      if decide (hits = 0%nat) then acc
      else ({[rt.1]} ∪ acc.1, acc.2 + Z.of_nat hits))
    (go_range tbls) (∅, 0).

(** The requested optional resources that have a table and match, or the
    first that does not match. *)
Fixpoint lookup_loop (flavor : FlavorInfo) (tbls : ResTagTables) (reqs : list (string * string))
    (nodeResources : gset string) : gset string + (string * error) :=
  match reqs with
  | [] => inl nodeResources
  | (res, request) :: reqs' =>
      match tbls !! res with
      | None => lookup_loop flavor tbls reqs' nodeResources
      | Some tbl =>
          match match_res res request flavor tbl with
          | Ok _ => lookup_loop flavor tbls reqs' ({[res]} ∪ nodeResources)
          | Err err =>
              inr (res, "no match for optional resource " +:+ request +:+ ", " +:+ err)
          end
      end
  end.
(** The zone and the image, with the counts of skipped flavors. *)
Definition resLookup (optResMap : gmap string string) (flavor : FlavorInfo)
    (cli : CloudletInfo) (tbls : ResTagTables) (skipped : counts) (skippedExtraRes : Z)
    : result (string * string) * counts * Z :=
  match lookup_loop flavor tbls (go_range optResMap) ∅ with
  | inr (res, e) => (Err e, bump skipped res 1, skippedExtraRes)
  | inl nodeResources =>
      if decide (nodeResources ≠ (InfraFlavorResources flavor tbls).1) then
        (Err ("Flavor " +:+ fi_Name flavor
              +:+ " satifies request, yet provides additional resources not requested"),
         skipped, skippedExtraRes + 1)
      else (Ok ((findAZmatch "gpu" cli).1, (findImagematch "gpu" cli).1),
            skipped, skippedExtraRes)
  end.

Definition ValidateGPUResource (optResMap : gmap string string) (cli : CloudletInfo)
    (tbls : ResTagTables) : result unit :=
  match optResMap !! "gpu" with
  | None => Ok tt
  | Some flavorRes =>
      match tbls !! "gpu" with
      | None => Err ("Cloudlet " +:+ cli_Name cli +:+ " doesn't support GPU")
      | Some _ =>
          let request := default [] (split_spec flavorRes) in
          match request with
          | resType :: _ :: _ =>
              if decide (Exists (λ rt, is_Some (Tags rt.2 !! resType)) (go_range tbls))
              then Ok tt
              else Err ("cloudlet " +:+ quote (cli_Name cli)
                        +:+ " doesn't support GPU resource " +:+ quote resType)
          | _ => Err ("Invalid optresmap " +:+ fmt_quoted request +:+ " in node resources")
          end
      end
  end.

(** ** GPUs *)

Definition gpu_provides (gpus : list GPUResource) : counts :=
  fold_left (λ p g, <[ModelId g := u32 (default 0 (p !! ModelId g) + Count g)]> p) gpus ∅.
Fixpoint gpus_loop (reqs : list GPUResource) (provides missing extra : counts)
    : bool * counts * counts :=
  match reqs with
  | [] =>
      if decide (size provides = 0%nat) then (true, missing, extra)
      else (false, missing, fold_left (λ e pc, bump e pc.1 pc.2) (go_range provides) extra)
  | req :: reqs' =>
      let p := default 0 (provides !! ModelId req) in
      if decide (p < Count req) then (false, bump missing (ModelId req) (Count req - p), extra)
      else if decide (Count req < p) then
        (false, missing, bump extra (ModelId req) (p - Count req))
      else gpus_loop reqs' (delete (ModelId req) provides) missing extra
  end.
Definition satisfiesGPUs (reqs gpus : list GPUResource) (missing extra : counts)
    : bool * counts * counts :=
  gpus_loop reqs (gpu_provides gpus) missing extra.

(** ** GetVMSpec *)

Definition flavor_less (a b : FlavorInfo) : bool :=
  if fi_Vcpus a <? fi_Vcpus b then true
  else if fi_Vcpus b <? fi_Vcpus a then false
  else if fi_Ram a <? fi_Ram b then true
  else if fi_Ram b <? fi_Ram a then false
  else fi_Disk a <? fi_Disk b.

(** What the loop over the flavors carries: the counts for the message and
    the external volume's size. *)
Record search := mkSearch {
  skipped : counts; skippedExtra : counts; skippedExtraRes : Z; volume : Z }.

Definition skip (st : search) (res : string) : search :=
  mkSearch (bump (skipped st) res 1) (skippedExtra st) (skippedExtraRes st) (volume st).

(** One flavor: [Some (az, img)] takes it. *)
Definition consider (nodeResources : NodeResources) (optResMap : option (gmap string string))
    (cli : CloudletInfo) (tbls : ResTagTables) (st : search) (flavor : FlavorInfo)
    : search * option (string * string) :=
  if fi_Vcpus flavor <? nr_Vcpus nodeResources then (skip st ResourceVcpus, None)
  else if fi_Ram flavor <? nr_Ram nodeResources then (skip st ResourceRamMb, None)
  else if negb (fi_Disk flavor =? 0) && (fi_Disk flavor <? nr_Disk nodeResources) then
    (skip st ResourceDiskGb, None)
  else
    let vol := if fi_Disk flavor =? 0 then nr_Disk nodeResources else volume st in
    let '(ok, missing, extra) :=
      satisfiesGPUs (nr_Gpus nodeResources) (fi_Gpus flavor) (skipped st) (skippedExtra st) in
    if negb ok then (mkSearch missing extra (skippedExtraRes st) vol, None)
    else match optResMap with
    | Some opt =>
        let '(r, missing, extraRes) :=
          resLookup opt flavor cli tbls missing (skippedExtraRes st) in
        (mkSearch missing extra extraRes vol,
         match r with Ok azimg => Some azimg | Err _ => None end)
    | None =>
        if decide ((InfraFlavorResources flavor tbls).2 ≠ 0) then
          (mkSearch missing extra (skippedExtraRes st + 1) vol, None)
        else (mkSearch missing extra (skippedExtraRes st) vol, Some ("", ""))
    end.

Definition not_suitable (st : search) : error :=
  let reasons := sort_strings
    ((λ rc, fmt_d rc.2 +:+ " with not enough " +:+ rc.1) <$> go_range (skipped st)) in
  let reasons := reasons ++
    (if decide (0 < skippedExtraRes st) then
       [fmt_d (skippedExtraRes st) +:+ " with optional resources not requested"]
     else []) in
  let reasons := reasons ++
    ((λ rc, fmt_d rc.2 +:+ " with " +:+ rc.1 +:+ " not requested") <$> go_range (skippedExtra st)) in
  "no suitable infra flavor found for requested node resources, " +:+ join ", " reasons.

Fixpoint find_flavor (nodeResources : NodeResources) (optResMap : option (gmap string string))
    (cli : CloudletInfo) (tbls : ResTagTables) (st : search) (flavorList : list FlavorInfo)
    : result VMCreationSpec :=
  match flavorList with
  | [] => Err (not_suitable st)
  | flavor :: flavorList' =>
      match consider nodeResources optResMap cli tbls st flavor with
      | (st, Some (az, img)) =>
          Ok (mkVMCreationSpec (fi_Name flavor) (volume st) az img "" (Some flavor))
      | (st, None) => find_flavor nodeResources optResMap cli tbls st flavorList'
      end
  end.

End Match.

Section Spec.
Context {GR : GoRange} {GS : GoSort}.

(** [optResMap] stands for [nodeResources.OptResMap], nil or not. *)
Definition GetVMSpec (nodeResources : NodeResources) (optResMap : option (gmap string string))
    (cli : CloudletInfo) (tbls : option ResTagTables) : result VMCreationSpec :=
  _ ← ValidateGPUResource (default ∅ optResMap) cli (default ∅ tbls);
  if decide (is_Some optResMap ∧ tbls = None) then
    Err ("Optional resource requested, cloudlet " +:+ cli_Name cli +:+ " supports none")
  else
    find_flavor nodeResources optResMap cli (default ∅ tbls) (mkSearch ∅ ∅ 0 0)
      (go_sort flavor_less (cli_Flavors cli)).

Definition GetVMSpecCloudletFlavor (cloudletFlavorName : string) (cli : CloudletInfo)
    : result VMCreationSpec :=
  match filter (λ cf, fi_Name cf = cloudletFlavorName) (cli_Flavors cli) with
  | [] => Err ("Cloudlet flavor " +:+ cloudletFlavorName +:+ " not found on cloudlet")
  | cf :: _ =>
      Ok (mkVMCreationSpec cloudletFlavorName 0 (findAZmatch "gpu" cli).1
            (findImagematch "gpu" cli).1 "" (Some cf))
  end.

End Spec.

(** ** What a suitable flavor is *)

(** A property of the flavor mentions a tag of the table. *)
Definition offers (flavor : FlavorInfo) (tbl : ResTagTable) : Prop :=
  ∃ pk pv tk tv, fi_PropMap flavor !! pk = Some pv ∧ Tags tbl !! tk = Some tv
                 ∧ contains pv tv = true.

Definition gpus_exact (reqs gpus : list GPUResource) : Prop :=
  (satisfiesGPUs (GR := canonical_range) reqs gpus ∅ ∅).1.1 = true.

Definition optional_ok `{GoRange} (optResMap : option (gmap string string)) (tbls : ResTagTables)
    (flavor : FlavorInfo) : Prop :=
  match optResMap with
  | None => ∀ res tbl, tbls !! res = Some tbl → ¬ offers flavor tbl
  | Some opt =>
      (∀ res req tbl, opt !! res = Some req → tbls !! res = Some tbl →
         is_ok (match_res res req flavor tbl) = true)
      ∧ ∀ res tbl, tbls !! res = Some tbl → (is_Some (opt !! res) ↔ offers flavor tbl)
  end.

Record suits `{GoRange} (nodeResources : NodeResources) (optResMap : option (gmap string string))
    (tbls : ResTagTables) (flavor : FlavorInfo) : Prop := {
  suits_vcpus : nr_Vcpus nodeResources ≤ fi_Vcpus flavor;
  suits_ram : nr_Ram nodeResources ≤ fi_Ram flavor;
  suits_disk : fi_Disk flavor = 0 ∨ nr_Disk nodeResources ≤ fi_Disk flavor;
  suits_gpus : gpus_exact (nr_Gpus nodeResources) (fi_Gpus flavor);
  suits_optional : optional_ok optResMap tbls flavor;
}.

(** ** Lemmas *)

Section Lemmas.
Context {GR : GoRange}.

Lemma prop_hits_pos props tags :
  prop_hits props tags ≠ 0%nat ↔ ∃ p t, p ∈ props ∧ t ∈ tags ∧ contains p.2 t.2 = true.
Proof.
  unfold prop_hits. rewrite length_zero_iff_nil. split.
  - intros Hne. destruct (flat_map _ _) as [|t l] eqn:E; [done|].
    assert (t ∈ t :: l) as Ht by left. rewrite <- E in Ht.
    apply list_elem_of_In, in_flat_map in Ht as (p & Hp & Ht).
    rewrite <- list_elem_of_In in Hp, Ht. apply list_elem_of_filter in Ht as [??]. eauto.
  - intros (p & t & Hp & Ht & Hc) Hnil.
    assert (t ∈ flat_map (λ p, filter (λ t, contains p.2 t.2 = true) tags) props) as Hin.
    { apply list_elem_of_In, in_flat_map. exists p. rewrite <- !list_elem_of_In.
      by rewrite list_elem_of_filter. }
    rewrite Hnil in Hin. by apply not_elem_of_nil in Hin.
Qed.

Lemma offers_hits flavor tbl :
  prop_hits (go_range (fi_PropMap flavor)) (go_range (Tags tbl)) ≠ 0%nat ↔ offers flavor tbl.
Proof.
  rewrite prop_hits_pos. split.
  - intros ([pk pv] & [tk tv] & Hp & Ht & Hc). apply elem_of_go_range in Hp, Ht.
    by exists pk, pv, tk, tv.
  - intros (pk & pv & tk & tv & Hp & Ht & Hc).
    exists (pk, pv), (tk, tv). by rewrite !elem_of_go_range.
Qed.

Lemma InfraFlavorResources_fold flavor l acc :
  let r := fold_left (λ acc rt,
      let hits := prop_hits (go_range (fi_PropMap flavor)) (go_range (Tags rt.2)) in
      if decide (hits = 0%nat) then acc
      else ({[rt.1]} ∪ acc.1, acc.2 + Z.of_nat hits)) l (acc : gset string * Z) in
  (∀ res, res ∈ r.1 ↔ res ∈ acc.1 ∨ ∃ tbl, (res, tbl) ∈ l ∧ offers flavor tbl)
  ∧ acc.2 ≤ r.2 ∧ (r.2 = acc.2 ↔ ∀ res tbl, (res, tbl) ∈ l → ¬ offers flavor tbl).
Proof.
  revert acc. induction l as [|[res tbl] l IH]; intros acc; simpl.
  { split_and!; [set_solver|lia|set_solver]. }
  destruct (decide _) as [H0|H0].
  - assert (¬ offers flavor tbl) as Hno by (intros Hoff%offers_hits; lia).
    destruct (IH acc) as (IH1 & IH2 & IH3). split_and!; [|done|].
    + intros r. rewrite IH1. setoid_rewrite elem_of_cons.
      split; [intros [?|(t & ? & ?)]; eauto|intros [?|(t & [[= -> ->]|?] & ?)]; eauto; done].
    + rewrite IH3. setoid_rewrite elem_of_cons.
      split; [intros Hall r t [[= -> ->]|?]; eauto|intros Hall r t ?; eauto].
  - pose proof (proj1 (offers_hits flavor tbl) H0) as Hoff.
    destruct (IH ({[res]} ∪ acc.1, acc.2 + Z.of_nat (prop_hits (go_range (fi_PropMap flavor)) (go_range (Tags tbl))))) as (IH1 & IH2 & IH3).
    simpl in *. split_and!; [|lia|split; [lia|]].
    { intros r. rewrite IH1, elem_of_union, elem_of_singleton. setoid_rewrite elem_of_cons.
      split; [intros [[->|?]|(t & ? & ?)]; eauto
             |intros [?|(t & [[= -> ->]|?] & ?)]; eauto]. }
    intros Hall. exfalso. apply (Hall res tbl); [set_solver|done].
Qed.

Lemma InfraFlavorResources_elem flavor tbls res :
  res ∈ (InfraFlavorResources flavor tbls).1 ↔ ∃ tbl, tbls !! res = Some tbl ∧ offers flavor tbl.
Proof.
  destruct (InfraFlavorResources_fold flavor (go_range tbls) (∅, 0)) as [H _].
  unfold InfraFlavorResources. rewrite H. setoid_rewrite elem_of_go_range. set_solver.
Qed.

Lemma InfraFlavorResources_count flavor tbls :
  (InfraFlavorResources flavor tbls).2 = 0 ↔ optional_ok None tbls flavor.
Proof.
  destruct (InfraFlavorResources_fold flavor (go_range tbls) (∅, 0)) as (_ & _ & H).
  unfold InfraFlavorResources. rewrite H. by setoid_rewrite elem_of_go_range.
Qed.

Lemma lookup_loop_spec flavor tbls reqs acc :
  match lookup_loop flavor tbls reqs acc with
  | inl found =>
      (∀ res req tbl, (res, req) ∈ reqs → tbls !! res = Some tbl →
         is_ok (match_res res req flavor tbl) = true)
      ∧ ∀ res, res ∈ found ↔
          res ∈ acc ∨ ∃ req, (res, req) ∈ reqs ∧ is_Some (tbls !! res)
  | inr _ => ∃ res req tbl, (res, req) ∈ reqs ∧ tbls !! res = Some tbl
      ∧ is_ok (match_res res req flavor tbl) = false
  end.
Proof.
  revert acc. induction reqs as [|[res req] reqs IH]; intros acc; simpl; [set_solver|].
  destruct (tbls !! res) as [tbl|] eqn:Htbl.
  - destruct (match_res res req flavor tbl) as [[]|e] eqn:Hm.
    + specialize (IH ({[res]} ∪ acc)). destruct (lookup_loop _ _ _ _) as [found|?].
      * destruct IH as [IH1 IH2]. split.
        -- intros res' req' tbl' [[= -> ->]|Hin]%elem_of_cons Ht; [|by eapply IH1].
           simplify_eq. by rewrite Hm.
        -- intros res'. rewrite IH2. setoid_rewrite elem_of_cons. split; [|set_solver].
           intros [[->%elem_of_singleton|?]%elem_of_union|?]; [|set_solver..].
           right. exists req. split; [by left|done].
      * destruct IH as (r & q & t & ? & ? & ?). exists r, q, t. set_solver.
    + exists res, req, tbl. rewrite Hm. set_solver.
  - specialize (IH acc). destruct (lookup_loop _ _ _ _) as [found|?].
    + destruct IH as [IH1 IH2]. split.
      * intros res' req' tbl' [[= -> ->]|Hin]%elem_of_cons Ht; [congruence|by eapply IH1].
      * intros res'. rewrite IH2. setoid_rewrite elem_of_cons. split; [set_solver|].
        intros [?|(q & [[= -> ->]|?] & [? Hs])]; [by left|congruence|]. right. eauto.
    + destruct IH as (r & q & t & ? & ? & ?). exists r, q, t. set_solver.
Qed.

Lemma resLookup_ok opt flavor cli tbls sk extra :
  is_ok (resLookup opt flavor cli tbls sk extra).1.1 = true
  ↔ optional_ok (Some opt) tbls flavor.
Proof.
  unfold resLookup. pose proof (lookup_loop_spec flavor tbls (go_range opt) ∅) as Hl.
  destruct (lookup_loop _ _ _ _) as [found|[r e]]; simpl.
  - destruct Hl as [Hok Hfound]. setoid_rewrite elem_of_go_range in Hok.
    assert (∀ res, res ∈ found ↔ is_Some (opt !! res) ∧ is_Some (tbls !! res)) as Hf.
    { intros res. rewrite Hfound. setoid_rewrite elem_of_go_range. unfold is_Some. set_solver. }
    clear Hfound. case_decide as Hd; simpl; split; try done.
    + intros [_ Hiff]. exfalso. apply Hd. apply set_eq. intros res.
      rewrite Hf, InfraFlavorResources_elem. split.
      * intros [Ho [tbl Ht]]. exists tbl. split; [done|]. by apply (Hiff res).
      * intros (tbl & Ht & Hoff). split; [by apply (Hiff res tbl)|by exists tbl].
    + intros _. split; [done|]. intros res tbl Ht.
      split; intros H.
      * assert (res ∈ found) as Hin by (apply Hf; eauto).
        rewrite Hd, InfraFlavorResources_elem in Hin. by destruct Hin as (? & ? & ?); simplify_eq.
      * assert (res ∈ found) as Hin%Hf.
        { rewrite Hd, InfraFlavorResources_elem. eauto. }
        by destruct Hin.
  - split; [done|]. intros [Hok _]. destruct Hl as (res & req & tbl & Hin & Ht & Hm).
    apply elem_of_go_range in Hin. by rewrite (Hok res req tbl) in Hm.
Qed.

(** The answer about GPUs does not depend on the counts or on the order. *)
Lemma gpus_loop_answer (GR' : GoRange) reqs provides m1 e1 m2 e2 :
  (gpus_loop (GR := GR) reqs provides m1 e1).1.1 = (gpus_loop (GR := GR') reqs provides m2 e2).1.1.
Proof.
  revert provides. induction reqs as [|r reqs IH]; intros provides; simpl; by repeat case_decide.
Qed.

Lemma consider_takes nr opt cli tbls st flavor :
  is_Some (consider nr opt cli tbls st flavor).2 ↔ suits nr opt tbls flavor.
Proof.
  unfold consider.
  destruct (Z.ltb_spec (fi_Vcpus flavor) (nr_Vcpus nr)); simpl;
    [by split; [intros []|intros []; lia]|].
  destruct (Z.ltb_spec (fi_Ram flavor) (nr_Ram nr)); simpl;
    [by split; [intros []|intros []; lia]|].
  destruct (Z.ltb_spec (fi_Disk flavor) (nr_Disk nr)); simpl.
  all: destruct (Z.eqb_spec (fi_Disk flavor) 0); simpl.
  2: by split; [intros []|intros [_ _ [?|?] _ _]; lia].
  all: destruct (satisfiesGPUs _ _ _ _) as [[ok missing] extra] eqn:Hg.
  all: assert (gpus_exact (nr_Gpus nr) (fi_Gpus flavor) ↔ ok = true) as Hex
    by (unfold gpus_exact, satisfiesGPUs in *;
        by rewrite <- (gpus_loop_answer canonical_range _ _ (skipped st) (skippedExtra st)), Hg).
  all: destruct ok; simpl;
    [|by split; [intros []|intros [_ _ _ ?%Hex _]]].
  all: destruct opt as [opt|];
    [ destruct (resLookup _ _ _ _ _ _) as [[r mm] ex] eqn:Hr; simpl;
      pose proof (resLookup_ok opt flavor cli tbls missing (skippedExtraRes st)) as Hok;
      rewrite Hr in Hok; simpl in Hok;
      destruct r; simpl in *;
      [ split; [intros _; constructor; [lia|lia|lia|by apply Hex|by apply Hok]|done]
      | by split; [intros []|intros [_ _ _ _ ?%Hok]] ]
    | case_decide as Hc; rewrite InfraFlavorResources_count in Hc; simpl;
      [ by split; [intros []|intros [_ _ _ _ ?]]
      | split; [intros _; constructor; [lia|lia|lia|by apply Hex|done]|done] ] ].
Qed.

End Lemmas.

Ltac ltb_cases :=
  repeat match goal with
  | |- context [?x <? ?y] => destruct (Z.ltb_spec x y)
  | H : context [?x <? ?y] |- _ => destruct (Z.ltb_spec x y)
  end; done || lia.

Lemma flavor_less_asym a b : flavor_less a b = true → flavor_less b a = false.
Proof.
  unfold flavor_less. intros H. ltb_cases.
Qed.
Lemma flavor_less_trans a b c :
  flavor_less b a = false → flavor_less c b = false → flavor_less c a = false.
Proof.
  unfold flavor_less. intros H1 H2. ltb_cases.
Qed.

(** The order by vcpus, memory and disk, in that order. *)
Definition smaller (a b : FlavorInfo) : Prop :=
  fi_Vcpus a < fi_Vcpus b
  ∨ (fi_Vcpus a = fi_Vcpus b ∧ (fi_Ram a < fi_Ram b
     ∨ (fi_Ram a = fi_Ram b ∧ fi_Disk a < fi_Disk b))).
Lemma flavor_less_smaller a b : flavor_less a b = false → ¬ smaller a b.
Proof. unfold flavor_less, smaller. intros H. ltb_cases. Qed.

Section Closest.
Context {GR : GoRange} {GS : GoSort}.

Lemma consider_volume nr opt cli tbls st flavor :
  suits nr opt tbls flavor → fi_Disk flavor = 0 →
  volume (consider nr opt cli tbls st flavor).1 = nr_Disk nr.
Proof.
  intros Hs H0. pose proof (proj2 (consider_takes nr opt cli tbls st flavor) Hs) as [azimg Hc].
  revert Hc. unfold consider. rewrite H0. simpl.
  repeat (case_match; simpl; try done).
Qed.

Lemma find_flavor_spec nr opt cli tbls st l :
  match find_flavor nr opt cli tbls st l with
  | Ok spec => ∃ l1 flavor l2, l = l1 ++ flavor :: l2
      ∧ Forall (λ fl, ¬ suits nr opt tbls fl) l1 ∧ suits nr opt tbls flavor
      ∧ FlavorName spec = fi_Name flavor ∧ vs_FlavorInfo spec = Some flavor
      ∧ (fi_Disk flavor = 0 → vs_ExternalVolumeSize spec = nr_Disk nr)
  | Err _ => Forall (λ fl, ¬ suits nr opt tbls fl) l
  end.
Proof.
  revert st. induction l as [|flavor l IH]; intros st; simpl; [done|].
  pose proof (consider_takes nr opt cli tbls st flavor) as Htakes.
  pose proof (consider_volume nr opt cli tbls st flavor) as Hvol.
  destruct (consider _ _ _ _ _ _) as [st' [[az img]|]]; simpl in *.
  - exists [], flavor, l. simpl. assert (suits nr opt tbls flavor) by (apply Htakes; eauto).
    split_and!; auto.
  - assert (¬ suits nr opt tbls flavor) as Hno by (rewrite <- Htakes; by intros []).
    specialize (IH st'). destruct (find_flavor _ _ _ _ _ _).
    + destruct IH as (l1 & fl & l2 & -> & H1 & H2). exists (flavor :: l1), fl, l2.
      split_and!; [done|by constructor|apply H2..].
    + by constructor.
Qed.

Lemma sorted_split {A} (R : A → A → Prop) l1 x l2 y :
  StronglySorted R (l1 ++ x :: l2) → y ∈ l2 → R x y.
Proof.
  induction l1; simpl; intros Hs Hin; apply StronglySorted_inv in Hs as [Hs Hall].
  - by eapply Forall_forall in Hall.
  - by apply IHl1.
Qed.

(** C24: [GetVMSpec] returns a flavor that suits the request (vcpus, memory,
    disk or no disk, exactly the GPUs, exactly the optional resources), and no
    flavor of the cloudlet that suits it is smaller, by vcpus, memory and disk;
    a flavor without a disk comes with a volume of the requested size.  An error means that the GPU or
    the optional resources cannot be had at this cloudlet, or that no flavor
    suits. *)
Theorem GetVMSpec_closest nr opt cli tbls :
  let suitable := suits nr opt (default ∅ tbls) in
  match GetVMSpec nr opt cli tbls with
  | Ok spec => ∃ flavor, flavor ∈ cli_Flavors cli ∧ suitable flavor
      ∧ FlavorName spec = fi_Name flavor ∧ vs_FlavorInfo spec = Some flavor
      ∧ (fi_Disk flavor = 0 → vs_ExternalVolumeSize spec = nr_Disk nr)
      ∧ ∀ other, other ∈ cli_Flavors cli → suitable other → ¬ smaller other flavor
  | Err _ => is_ok (ValidateGPUResource (default ∅ opt) cli (default ∅ tbls)) = false
      ∨ (is_Some opt ∧ tbls = None)
      ∨ ∀ flavor, flavor ∈ cli_Flavors cli → ¬ suitable flavor
  end.
Proof.
  intros suitable. unfold GetVMSpec.
  destruct (ValidateGPUResource _ _ _) as [[]|e]; simpl; [|by left].
  case_decide as Hn; [by right; left|].
  pose proof (go_sort_sorted flavor_less (cli_Flavors cli) flavor_less_asym flavor_less_trans) as Hs.
  pose proof (go_sort_perm flavor_less (cli_Flavors cli)) as Hp.
  pose proof (find_flavor_spec nr opt cli (default ∅ tbls) (mkSearch ∅ ∅ 0 0)
    (go_sort flavor_less (cli_Flavors cli))) as Hf.
  destruct (find_flavor _ _ _ _ _ _).
  - destruct Hf as (l1 & fl & l2 & Hl & H1 & H2 & H3 & H4 & H5). exists fl.
    split_and!; [by rewrite <- Hp, Hl; set_solver|done..|].
    intros other Hin Ho. apply flavor_less_smaller.
    rewrite <- Hp, Hl in Hin. rewrite Hl in Hs.
    apply elem_of_app in Hin as [Hin|[->|Hin]%elem_of_cons].
    + rewrite Forall_forall in H1. by destruct (H1 other Hin).
    + destruct (flavor_less fl fl) eqn:E; [by rewrite (flavor_less_asym fl fl E) in E|done].
    + by eapply sorted_split in Hs.
  - right; right. intros fl Hin. rewrite <- Hp in Hin.
    by eapply Forall_forall in Hf.
Qed.

End Closest.

(** ** GPUs *)

(** The number of GPUs of a model, added in 32 bits. *)
Definition gpu_total (model : string) (gpus : list GPUResource) : Z :=
  u32 (foldr (λ g n, Count g + n) 0 (filter (λ g, ModelId g = model) gpus)).

Lemma gpu_provides_lookup gpus model :
  gpu_provides gpus !! model =
  if decide (model ∈ ModelId <$> gpus) then Some (gpu_total model gpus) else None.
Proof.
  unfold gpu_provides, gpu_total. induction gpus as [|g gpus IH] using rev_ind; [done|].
  rewrite fold_left_app, filter_app, foldr_app, fmap_app. simpl.
  destruct (decide (ModelId g = model)) as [<-|Hne].
  - rewrite lookup_insert_eq, IH, filter_cons_True by done. simpl.
    destruct (decide (_ ∈ _ ++ _)) as [_|Hno];
      [|exfalso; apply Hno, elem_of_app; right; by left]. f_equal.
    assert (∀ n, foldr (λ g n, Count g + n) n (filter (λ g0, ModelId g0 = ModelId g) gpus)
      = foldr (λ g n, Count g + n) 0 (filter (λ g0, ModelId g0 = ModelId g) gpus) + n) as Hn.
    { clear IH. induction (filter (λ g0, ModelId g0 = ModelId g) gpus) as [|a l IHl]; intros n; simpl;
        [done|]. rewrite IHl. lia. }
    rewrite (Hn (Count g + 0)). unfold wrap_u. case_decide as Hin; simpl.
    + rewrite Z.add_0_r, Zplus_mod_idemp_l. done.
    + assert (filter (λ g0, ModelId g0 = ModelId g) gpus = []) as ->;
        [|f_equal; simpl; lia].
      apply filter_none, Forall_forall. intros g' Hg' Heq. apply Hin.
      apply list_elem_of_fmap. eauto.
  - rewrite lookup_insert_ne, IH, filter_cons_False by done. simpl.
    repeat case_decide; set_solver.
Qed.

Lemma gpus_loop_spec {GR : GoRange} reqs provides missing extra :
  NoDup (ModelId <$> reqs) →
  (gpus_loop reqs provides missing extra).1.1 = true
  ↔ (∀ r, r ∈ reqs → default 0 (provides !! ModelId r) = Count r)
    ∧ ∀ m, is_Some (provides !! m) → m ∈ ModelId <$> reqs.
Proof.
  revert provides. induction reqs as [|r reqs IH]; intros provides Hnd; simpl.
  - case_decide as Hs; simpl.
    + apply map_size_empty_inv in Hs. subst. setoid_rewrite lookup_empty.
      split; [intros _; split; [set_solver|by intros ? []]|done].
    + split; [done|]. intros [_ Hm]. exfalso. apply Hs, map_size_empty_iff, map_eq.
      intros m. rewrite lookup_empty. apply eq_None_not_Some. intros Hsome.
      by apply Hm, elem_of_nil in Hsome.
  - apply NoDup_cons in Hnd as [Hni Hnd].
    assert (∀ x, x ∈ reqs → ModelId x ≠ ModelId r) as Hne.
    { intros x Hx Heq. apply Hni. apply list_elem_of_fmap. eauto. }
    case_decide; simpl; [split; [done|intros [H' _]; specialize (H' r (list_elem_of_here _ _)); lia]|].
    case_decide; simpl; [split; [done|intros [H' _]; specialize (H' r (list_elem_of_here _ _)); lia]|].
    rewrite IH by done. setoid_rewrite elem_of_cons. split.
    + intros [H1 H2]. split.
      * intros x [->|Hx]; [lia|]. rewrite <- (H1 x Hx), lookup_delete_ne; [done|by apply not_eq_sym, Hne].
      * intros m Hm. destruct (decide (m = ModelId r)) as [->|]; [by left|right].
        apply H2. by rewrite lookup_delete_ne.
    + intros [H1 H2]. split.
      * intros x Hx. rewrite lookup_delete_ne by (by apply not_eq_sym, Hne). auto.
      * intros m [v [Hm ?]%lookup_delete_Some]. destruct (H2 m); [eauto|congruence|done].
Qed.

(** GPUs fit exactly: when no model is requested twice, a flavor satisfies
    the request exactly when it has the requested number of each requested
    model and no GPU of another model. *)
Theorem satisfiesGPUs_exact {GR : GoRange} reqs gpus missing extra :
  NoDup (ModelId <$> reqs) →
  (satisfiesGPUs reqs gpus missing extra).1.1 = true
  ↔ (∀ r, r ∈ reqs → gpu_total (ModelId r) gpus = Count r)
    ∧ ∀ g, g ∈ gpus → ModelId g ∈ ModelId <$> reqs.
Proof.
  intros Hnd. unfold satisfiesGPUs. rewrite gpus_loop_spec by done.
  setoid_rewrite gpu_provides_lookup.
  assert (∀ m, m ∉ ModelId <$> gpus → gpu_total m gpus = 0) as H0.
  { intros m Hm. unfold gpu_total. rewrite filter_none; [done|].
    apply Forall_forall. intros g Hg <-. apply Hm, list_elem_of_fmap. eauto. }
  split; intros [H1 H2]; split.
  - intros r Hr. rewrite <- (H1 r Hr). case_decide; simpl; [done|by rewrite H0].
  - intros g Hg. apply H2. rewrite decide_True by (apply list_elem_of_fmap; eauto). eauto.
  - intros r Hr. rewrite <- (H1 r Hr). case_decide; simpl; [done|by rewrite H0].
  - intros m. case_decide as Hm; [|by intros []]. intros _.
    apply list_elem_of_fmap in Hm as (g & -> & Hg). auto.
Qed.

(** ** Matching one optional resource *)

(** A property with a numeric count, [name:count] or [name=count]. *)
Definition well_formed_prop (pv : string) : bool :=
  match split_spec pv with Some [_; count] => is_ok (Atoi (trim_count count)) | _ => false end.
Definition prop_count (pv : string) : Z :=
  match split_spec pv with Some [_; count] => Atoi_value (trim_count count) | _ => 0 end.

Section Matching.
Context {GR : GoRange}.

Lemma match_props_spec rq name tk tv alias props :
  (∀ pk pv, (pk, pv) ∈ props → well_formed_prop pv = true) →
  match_props rq name tk tv alias props
  = if existsb (λ p, prop_matches rq tk tv p.1 p.2 (prop_count p.2)) props
    then Some (Ok tt) else None.
Proof.
  revert alias. induction props as [|[pk pv] props IH]; intros alias Hwf; simpl; [done|].
  pose proof (Hwf pk pv (list_elem_of_here _ _)) as Hpv. unfold well_formed_prop in Hpv.
  unfold prop_count at 1. destruct (split_spec pv) as [[|n [|c []]]|]; try done; simpl.
  rewrite Hpv. simpl.
  destruct (prop_matches _ _ _ _ _ _); simpl; [done|]. apply IH.
  intros; eapply Hwf; by right.
Qed.

Lemma match_tags_spec rq flavor tags :
  map_Forall (λ _ pv, well_formed_prop pv = true) (fi_PropMap flavor) →
  is_ok (match_tags rq flavor tags) = true
  ↔ ∃ tk tv pk pv, (tk, tv) ∈ tags ∧ fi_PropMap flavor !! pk = Some pv
      ∧ prop_matches rq tk tv pk pv (prop_count pv) = true.
Proof.
  intros Hwf. induction tags as [|[tk tv] tags IH]; simpl; [set_solver|].
  rewrite match_props_spec by (intros pk pv Hin%elem_of_go_range; eauto).
  destruct (existsb _ _) eqn:E; simpl.
  - split; [intros _|done]. apply existsb_exists in E as ([pk pv] & Hin & Hm).
    apply list_elem_of_In, elem_of_go_range in Hin. exists tk, tv, pk, pv. set_solver.
  - rewrite IH. setoid_rewrite elem_of_cons. split.
    + intros (t & v & pk & pv & ? & ? & ?). exists t, v, pk, pv. auto.
    + intros (t & v & pk & pv & [[= -> ->]|?] & Hp & Hm); [|eauto 8].
      exfalso. rewrite (proj2 (existsb_exists _ _)) in E; [done|].
      exists (pk, pv). rewrite <- list_elem_of_In, elem_of_go_range. done.
Qed.

(** When every property of a flavor has a numeric count, a request for an
    optional resource matches exactly when some tag of the resource's table
    and some property satisfy it, in whatever order the maps are visited. *)
Theorem match_correct resname req flavor tbl :
  map_Forall (λ _ pv, well_formed_prop pv = true) (fi_PropMap flavor) →
  is_ok (match_res resname req flavor tbl) = true
  ↔ ∃ rq tk tv pk pv, parse_request resname req = Ok rq
      ∧ Tags tbl !! tk = Some tv ∧ fi_PropMap flavor !! pk = Some pv
      ∧ prop_matches rq tk tv pk pv (prop_count pv) = true.
Proof.
  intros Hwf. unfold match_res. destruct (parse_request _ _) as [rq|e]; simpl; [|naive_solver].
  rewrite match_tags_spec by done. setoid_rewrite elem_of_go_range. naive_solver.
Qed.

End Matching.

(** ** Runs *)

Module VMSpecWitness.

#[local] Instance order_up : GoRange := canonical_range.
Program Definition order_down : GoRange :=
  {| go_range := λ K _ _ V m, reverse (map_to_list m) |}.
Next Obligation. intros. by rewrite reverse_Permutation. Qed.
#[local] Instance sort0 : GoSort := stable_sort.

Definition small : FlavorInfo := mkFlavorInfo "m4.small" 2 4096 40 [] ∅.
Definition large : FlavorInfo := mkFlavorInfo "m4.large" 4 8192 80 [] ∅.
Definition gpu1 : FlavorInfo :=
  mkFlavorInfo "m4.large-gpu" 4 8192 80 [] {["resources" := "VGPU='1'"; "pci" := "gpu:2"]}.
Definition gputbl : ResTagTable :=
  mkResTagTable "gpumap" "op" {["pci" := "gpu"; "resources" := "VGPU"]} "".
Definition cloudlet : CloudletInfo := mkCloudletInfo "site" [gpu1; large; small] [] [].

Example picks_large :
  FlavorName <$> GetVMSpec (mkNodeResources 3 4096 40 [] ∅ "" 0) None cloudlet
    (Some {["gpu" := gputbl]}) = Ok "m4.large".
Proof. vm_compute. reflexivity. Qed.
Example picks_gpu :
  FlavorName <$> GetVMSpec (mkNodeResources 3 4096 40 [] ∅ "" 0)
    (Some {["gpu" := "pci:2"]}) cloudlet (Some {["gpu" := gputbl]}) = Ok "m4.large-gpu".
Proof. vm_compute. reflexivity. Qed.

Lemma satisfiesGPUs_exact_witness :
  let reqs := [mkGPU "t4" 3 "" 0 0] in
  let gpus := [mkGPU "t4" 1 "" 0 0; mkGPU "t4" 2 "" 0 0] in
  (satisfiesGPUs reqs gpus ∅ ∅).1.1 = true
  ↔ (∀ r, r ∈ reqs → gpu_total (ModelId r) gpus = Count r)
    ∧ ∀ g, g ∈ gpus → ModelId g ∈ ModelId <$> reqs.
Proof.
  intros reqs gpus. apply satisfiesGPUs_exact.
  apply (proj1 (bool_decide_eq_true _)). vm_compute. reflexivity.
Defined.

Lemma match_correct_witness :
  is_ok (match_res "gpu" "pci:2" gpu1 gputbl) = true
  ↔ ∃ rq tk tv pk pv, parse_request "gpu" "pci:2" = Ok rq
      ∧ Tags gputbl !! tk = Some tv ∧ fi_PropMap gpu1 !! pk = Some pv
      ∧ prop_matches rq tk tv pk pv (prop_count pv) = true.
Proof.
  apply match_correct.
  apply (proj1 (bool_decide_eq_true _)). vm_compute. reflexivity.
Defined.

(** A flavor with a property that is no count: the answer depends on the
    order in which Go visits the tags. *)
Definition mixed : FlavorInfo :=
  mkFlavorInfo "mixed" 4 8192 80 [] {["trait" := "kind:gold"; "resources" := "VGPU:2"]}.
Definition mixedtbl : ResTagTable :=
  mkResTagTable "gpumap" "op" {["resources" := "VGPU"; "nvidia" := "vgpu"]} "".

(** Whether a flavor with a non-numeric property matches depends on the
    order of iteration over the maps of tags and properties. *)
Theorem match_order_dependent :
  ∃ (GR1 GR2 : GoRange) resname req flavor tbl,
    is_ok (match_res (GR := GR1) resname req flavor tbl) = true
    ∧ is_ok (match_res (GR := GR2) resname req flavor tbl) = false.
Proof.
  exists order_down, canonical_range, "gpu", "resources:2", mixed, mixedtbl.
  split; vm_compute; reflexivity.
Qed.

(** The first flavor considered has no disk of its own but has a GPU. *)
Definition diskless : FlavorInfo := mkFlavorInfo "gpu0" 2 4096 0 [mkGPU "t4" 1 "" 0 0] ∅.

(** A flavor with enough disk can come with an external volume, left over
    from a flavor that was considered and passed over. *)
Theorem stale_volume :
  ∃ nr cli tbls flavor spec,
    GetVMSpec nr None cli tbls = Ok spec ∧ vs_FlavorInfo spec = Some flavor
    ∧ fi_Disk flavor ≠ 0 ∧ nr_Disk nr ≤ fi_Disk flavor ∧ vs_ExternalVolumeSize spec ≠ 0.
Proof.
  exists (mkNodeResources 2 4096 40 [] ∅ "" 0), (mkCloudletInfo "site" [diskless; large] [] []),
    None, large, (mkVMCreationSpec "m4.large" 40 "" "" "" (Some large)).
  split_and!; [vm_compute; reflexivity|reflexivity|simpl; lia..].
Qed.

End VMSpecWitness.
