(* ===== verification/CloudRes.v ===== *)
(** * Resources of cloudlets (controller/cloudlet_resources.go,
    cloudlet_resource_check.go, cloudlet_api.go, clusterinst_api.go)

    What the clusters, the VM instances and the platform use on a cloudlet,
    the limits of its infrastructure and its quotas, and whether a cluster, an
    instance or more nodes of a cluster fit.  [fits_exact] is what the check
    decides; [cluster_update_unchecked]: for the update of a cluster it decides
    nothing.  What a platform adds for its VMs comes from the resource manager
    and is a parameter. *)

From S2P Require Export ClustRes.
From S2P Require VMSpec.
From S2P Require Import Udec.
Import Udec.
#[local] Open Scope Z_scope.

(** ** Constants (cloudcommon/infraresources.go, names.go) *)

Definition ResourceGpus : string := "GPUs".
Definition ResourceExternalIPs : string := "External IPs".
Definition CommonCloudletResources : gmap string string :=
  {[ResourceRamMb := ResourceRamUnits; ResourceVcpus := ""; ResourceDiskGb := ResourceDiskUnits;
    ResourceGpus := ""; ResourceExternalIPs := ""]}.
Inductive NodeType :=
| NodeTypeAppVM | NodeTypeSharedRootLB | NodeTypeDedicatedRootLB | NodeTypePlatformVM | NodeTypePlatformHost
| NodeTypePlatformK8sClusterMaster | NodeTypePlatformK8sClusterPrimaryNode
| NodeTypePlatformK8sClusterSecondaryNode | NodeTypeK8sClusterMaster | NodeTypeK8sClusterNode
| NodeTypeDockerClusterNode.
Definition NodeType_String (n : NodeType) : string :=
  match n with
  | NodeTypeAppVM => "appvm"
  | NodeTypeSharedRootLB => "sharedrootlb"
  | NodeTypeDedicatedRootLB => "dedicatedrootlb"
  | NodeTypePlatformVM => "platformvm"
  | NodeTypePlatformHost => "platformhost"
  | NodeTypePlatformK8sClusterMaster => "platform-k8s-cluster-master"
  | NodeTypePlatformK8sClusterPrimaryNode => "platform-k8s-cluster-primary-node"
  | NodeTypePlatformK8sClusterSecondaryNode => "platform-k8s-cluster-secondary-node"
  | NodeTypeK8sClusterMaster => "k8s-cluster-master"
  | NodeTypeK8sClusterNode => "k8s-cluster-node"
  | NodeTypeDockerClusterNode => "docker-cluster-node"
  end.
Definition IsPlatformNode (nodeTypeStr : string) : bool :=
  bool_decide (nodeTypeStr ∈ NodeType_String <$>
    [NodeTypePlatformVM; NodeTypePlatformHost; NodeTypePlatformK8sClusterMaster;
     NodeTypePlatformK8sClusterPrimaryNode; NodeTypePlatformK8sClusterSecondaryNode]).
Definition IsLBNode (nodeTypeStr : string) : bool :=
  bool_decide (nodeTypeStr = NodeType_String NodeTypeDedicatedRootLB ∨
    nodeTypeStr = NodeType_String NodeTypeSharedRootLB).

Definition DefaultClust : string := "defaultclust".
Definition GetCloudletKeyHash (key : CloudletKey) : string :=
  getShortHash (ck_Name key +:+ "::" +:+ ck_Organization key).
Definition GetDefaultClustKey (cloudletKey : CloudletKey) (ownerOrg : string) : ClusterKey :=
  mkClusterKey (DefaultClust +:+ "-" +:+ GetCloudletKeyHash cloudletKey)
    (if decide (ownerOrg = "") then OrganizationEdgeCloud else ownerOrg).

(** ** Data *)

(** Of the cloudlet, its info, its references and its features, what the
    calculation reads; [None] for a cloudlet without resource tags. *)
Record CalcCloudlet := mkCalcCloudlet {
  cc_Key : CloudletKey;
  ResourceQuotas : list ResourceQuota;
  DefaultResourceAlertThreshold : Z;
  SingleKubernetesClusterOwner : string;
  cc_ResTables : option VMSpec.ResTagTables;
}.
Record VmInfo := mkVmInfo { vi_InfraFlavor : string; vi_Type : string }.
Record CalcInfo := mkCalcInfo {
  cf_Flavors : list FlavorInfo;
  cf_Info : list InfraResource;           (* ResourcesSnapshot.Info *)
  PlatformVms : list VmInfo;              (* ResourcesSnapshot.PlatformVms *)
  cf_NodePools : list NodePool;
}.
Record CloudletRefs := mkCloudletRefs { ClusterInsts : list ClusterKey; VmAppInsts : list AppInstKey }.
Record CalcFeatures := mkCalcFeatures {
  IsSingleKubernetesCluster : bool; KubernetesRequiresWorkerNodes : bool }.
Record VMResource := mkVMResource {
  vr_Key : ClusterKey; VmFlavor : string; vr_Type : string; vr_Count : Z }.
Record CloudletResources := mkCloudletResources {
  nonFlavorVals : ResValMap;
  flavors : gmap string Z;
  lbNodeCount : Z;
  platformNodeCount : Z;
  vms : list VMResource;
  numVms : Z;
}.
Definition NewCloudletResources : CloudletResources := mkCloudletResources ∅ ∅ 0 0 [] 0.
Record CloudletResCalcDeps := mkDeps {
  d_cloudlet : CalcCloudlet;
  d_cloudletInfo : CalcInfo;
  d_cloudletRefs : CloudletRefs;
  d_features : CalcFeatures;
  d_lbFlavor : option FlavorInfo;
}.
(** The caches, or the transaction's view of the store. *)
Record region_view := mkView {
  rv_clusters : gmap ClusterKey Cluster;
  rv_refs : gmap ClusterKey ClusterRefs;
  rv_insts : inst_caches;
}.

Section CloudRes.
Context {GR : GoRange} `{JIK : !Json AppInstKey, JAK : !Json AppKey, JCK : !Json ClusterKey}.

(** ** Collecting what is used (cloudlet_resources.go) *)

Definition AddFlavor (clusterKey : ClusterKey) (flavorName nodeType : string) (count : Z) (s : CloudletResources) :
    CloudletResources :=
  if decide (count = 0) then s
  else
    mkCloudletResources (nonFlavorVals s) (<[flavorName := default 0 (flavors s !! flavorName) + count]> (flavors s))
      (if IsLBNode nodeType then lbNodeCount s + 1 else lbNodeCount s)
      (if IsLBNode nodeType then platformNodeCount s
       else if IsPlatformNode nodeType then platformNodeCount s + 1 else platformNodeCount s)
      (vms s ++ [mkVMResource clusterKey flavorName nodeType count]) (numVms s + count).
Definition set_nonFlavorVals (v : ResValMap) (s : CloudletResources) : CloudletResources :=
  mkCloudletResources v (flavors s) (lbNodeCount s) (platformNodeCount s) (vms s) (numVms s).
(** The callers ignore the error, and what was added before it stays. *)
Definition CR_AddRes (clusterKey : ClusterKey) (nr : option NodeResources) (nodeType : string) (count : Z)
    (s : CloudletResources) : CloudletResources :=
  match nr with
  | None => s
  | Some nr =>
      if decide (count = 0) then s
      else if decide (nr_InfraNodeFlavor nr ≠ "") then AddFlavor clusterKey (nr_InfraNodeFlavor nr) nodeType count s
      else set_nonFlavorVals (AddNodeResources_partial (nonFlavorVals s) nr count) s
  end.
Definition AddPlatformVMs (cloudletInfo : CalcInfo) (s : CloudletResources) : CloudletResources :=
  fold_left (λ s vm,
    if decide (vi_InfraFlavor vm = "") then s
    else AddFlavor (mkClusterKey "" "") (vi_InfraFlavor vm) (vi_Type vm) 1 s) (PlatformVms cloudletInfo) s.
Definition AddClusterInstResources (c : Cluster) (rootLBFlavor : option FlavorInfo) (isManagedK8s : bool)
    (s : CloudletResources) : CloudletResources :=
  let s :=
    if decide (cu_Deployment c = DeploymentTypeDocker) then
      CR_AddRes (cu_Key c) (ci_NodeResources (cu_Resources c)) (NodeType_String NodeTypeDockerClusterNode) 1 s
    else
      let s := AddFlavor (cu_Key c) (MasterNodeFlavor c) (NodeType_String NodeTypeK8sClusterMaster) (NumMasters c) s in
      fold_left (λ s pool,
        CR_AddRes (cu_Key c) (np_NodeResources pool) (NodeType_String NodeTypeK8sClusterNode) (np_NumNodes pool) s)
        (ci_NodePools (cu_Resources c)) s in
  if negb isManagedK8s && bool_decide (cu_IpAccess c = IP_ACCESS_DEDICATED) then
    match rootLBFlavor with
    | None => s
    | Some lb => AddFlavor (cu_Key c) (fi_Name lb) (NodeType_String NodeTypeDedicatedRootLB) 1 s
    end
  else s.
Definition AddVMAppInstResources (app : DApp) (appInst : DInst) (rootLBFlavor : option FlavorInfo)
    (s : CloudletResources) : CloudletResources :=
  let s := CR_AddRes (di_ClusterKey appInst) (di_NodeResources appInst) (NodeType_String NodeTypeAppVM) 1 s in
  match rootLBFlavor with
  | Some lb =>
      if decide (da_AccessType app = ACCESS_TYPE_LOAD_BALANCER) then
        AddFlavor (di_ClusterKey appInst) (fi_Name lb) (NodeType_String NodeTypeDedicatedRootLB) 1 s
      else s
  | None => s
  end.

(** *** All that is used *)

Fixpoint add_clusters (v : region_view) (lb : option FlavorInfo) (managed : bool) (keys : list ClusterKey)
    (s : CloudletResources) : CloudletResources :=
  match keys with
  | [] => s
  | k :: keys' =>
      match rv_clusters v !! k with
      | None => add_clusters v lb managed keys' s
      | Some c => add_clusters v lb managed keys' (AddClusterInstResources c lb managed s)
      end
  end.
(** [%v] of an app key is left to the encoding. *)
Fixpoint add_vm_insts (v : region_view) (lb : option FlavorInfo) (keys : list AppInstKey) (s : CloudletResources) :
    result CloudletResources :=
  match keys with
  | [] => Ok s
  | k :: keys' =>
      match ic_insts (rv_insts v) !! k with
      | None => add_vm_insts v lb keys' s
      | Some i =>
          match ic_apps (rv_insts v) !! di_AppKey i with
          | None => Err ("App not found: " +:+ Marshal (di_AppKey i))
          | Some app => add_vm_insts v lb keys' (AddVMAppInstResources app i lb s)
          end
      end
  end.
Definition getCloudletUsedResources (v : region_view) (deps : CloudletResCalcDeps) : result CloudletResources :=
  let cloudlet := d_cloudlet deps in
  if IsSingleKubernetesCluster (d_features deps) then
    let clusterKey := GetDefaultClustKey (cc_Key cloudlet) (SingleKubernetesClusterOwner cloudlet) in
    match rv_clusters v !! clusterKey with
    | None => Err (NotFoundError "ClusterInst" clusterKey)
    | Some _ =>
        let refs := default (mkClusterRefs clusterKey []) (rv_refs v !! clusterKey) in
        match calcKubernetesClusterUsedResources (rv_insts v) refs None with
        | Err e => Err e
        | Ok (cpuRes, gpuRes) => Ok (mkCloudletResources (AddAllMult cpuRes gpuRes 1) ∅ 0 0 [] 0)
        end
    end
  else
    let s := AddPlatformVMs (d_cloudletInfo deps) NewCloudletResources in
    let s := add_clusters v (d_lbFlavor deps) (KubernetesRequiresWorkerNodes (d_features deps))
               (ClusterInsts (d_cloudletRefs deps)) s in
    add_vm_insts v (d_lbFlavor deps) (VmAppInsts (d_cloudletRefs deps)) s.

(** *** In numbers (cloudlet_api.go, restagtable_api.go) *)

Definition osFlavorResources (flavor : FlavorInfo) (cl : CalcCloudlet) : gset string * Z :=
  if decide (size (fi_PropMap flavor) = 0%nat) then (∅, 0)
  else match cc_ResTables cl with None => (∅, 0) | Some tbls => VMSpec.InfraFlavorResources flavor tbls end.
Definition UsesGpu (flavor : FlavorInfo) (cl : CalcCloudlet) : bool :=
  let '(resources, rescnt) := osFlavorResources flavor cl in
  bool_decide (0 < rescnt ∧ "gpu" ∈ resources).
Definition add_flavor_vals (cl : CalcCloudlet) (counts : gmap string Z) (s : ResValMap) (flavor : FlavorInfo) :
    ResValMap :=
  match counts !! fi_Name flavor with
  | None => s
  | Some count =>
      let num := u64 count in
      let s := AddVcpus s (u64 (fi_Vcpus flavor * num)) 0 in
      let s := AddRam s (u64 (fi_Ram flavor * num)) in
      let s := AddDisk s (u64 (fi_Disk flavor * num)) in
      let s := AddGPUs s (fi_Gpus flavor) (u32 num) in
      if UsesGpu flavor cl then AddRes s ResourceGpus "" num 0 else s
  end.
Definition sumCloudletResources (cloudlet : CalcCloudlet) (cloudletInfo : CalcInfo) (r : CloudletResources) : ResValMap :=
  let s := AddAllMult ∅ (nonFlavorVals r) 1 in
  let s := fold_left (add_flavor_vals cloudlet (flavors r)) (cf_Flavors cloudletInfo) s in
  let externalIPs := lbNodeCount r + platformNodeCount r in
  if decide (externalIPs > 0) then AddRes s ResourceExternalIPs "" (u64 externalIPs) 0 else s.

(** The resources that the platform adds for VMs, with their units. *)
Context (GetClusterAdditionalResources : list VMResource → result (gmap string (string * Z))).
Definition totalCloudletResources (skipAdditional : bool) (cloudlet : CalcCloudlet) (cloudletInfo : CalcInfo)
    (r : CloudletResources) : result ResValMap :=
  let resVals := sumCloudletResources cloudlet cloudletInfo r in
  if skipAdditional then Ok resVals
  else
    res ← GetClusterAdditionalResources (vms r);
    Ok (fold_left (λ s kv, AddRes s kv.1 kv.2.1 kv.2.2 0) (go_range res) resVals).

(** ** Limits (cloudlet_resource_check.go) *)

Record ResLimit := mkResLimit {
  rl_Name : string;
  rl_Units : string;
  rl_InfraMaxValue : Z;
  rl_QuotaMaxValue : Z;
  rl_AlertThreshold : Z;
  rl_ResourceType : string;
}.
Abbreviation ResLimitMap := (gmap string ResLimit).
Definition new_limit (name resourceType units : string) : ResLimit := mkResLimit name units 0 0 0 resourceType.
Definition AddMax (name resourceType units : string) (max : Z) (s : ResLimitMap) : ResLimitMap :=
  let resKey := BuildResKey resourceType name in
  let res := default (new_limit name resourceType units) (s !! resKey) in
  <[resKey := mkResLimit (rl_Name res) (rl_Units res) (u64 (rl_InfraMaxValue res + max)) (rl_QuotaMaxValue res)
                (rl_AlertThreshold res) (rl_ResourceType res)]> s.
Definition AddQuota (name resourceType units : string) (quota alertThreshold : Z) (s : ResLimitMap) : ResLimitMap :=
  let resKey := BuildResKey resourceType name in
  let res := default (new_limit name resourceType units) (s !! resKey) in
  <[resKey := mkResLimit (rl_Name res) (rl_Units res) (rl_InfraMaxValue res) (u64 (rl_QuotaMaxValue res + quota))
                alertThreshold (rl_ResourceType res)]> s.
Definition addResourceLimits (cloudlet : CalcCloudlet) (info : CalcInfo) (limits : ResLimitMap) : ResLimitMap :=
  let limits := fold_left (λ l r,
    if decide (InfraMaxValue r = 0) then l else AddMax (ir_Name r) (ir_Type r) (ir_Units r) (InfraMaxValue r) l)
    (cf_Info info) limits in
  let kresCounts := fold_left (λ m pool,
    match np_NodeResources pool with None => m | Some nr => AddNodeResources_partial m nr (np_NumNodes pool) end)
    (cf_NodePools info) ∅ in
  let limits := fold_left (λ l kv,
    AddMax (rv_Name kv.2) (rv_ResourceType kv.2) (rv_Units kv.2) (Whole (rv_Value kv.2)) l)
    (go_range kresCounts) limits in
  fold_left (λ l q,
    if decide (rq_Value q = 0 ∧ rq_AlertThreshold q = 0) then l
    else
      let units := default "" (CommonCloudletResources !! ResourceQuota_ResKey q) in
      let thresh := if decide (rq_AlertThreshold q > 0) then rq_AlertThreshold q
                    else DefaultResourceAlertThreshold cloudlet in
      AddQuota (rq_Name q) (rq_ResourceType q) units (rq_Value q) thresh l)
    (ResourceQuotas cloudlet) limits.
Definition getResourceLimits (cloudlet : CalcCloudlet) (info : CalcInfo) : ResLimitMap :=
  addResourceLimits cloudlet info ∅.
(** [max] of the check: the quota, else what the infrastructure has. *)
Definition limit_max (l : ResLimit) : Z :=
  if decide (rl_QuotaMaxValue l = 0) then rl_InfraMaxValue l else rl_QuotaMaxValue l.

(** ** The check *)

(** What one resource adds to the warnings and to the errors. *)
Abbreviation report := (list string * list string)%type.
Definition report_app (a b : report) : report := (a.1 ++ b.1, a.2 ++ b.2).
Definition check_quota (usedVals reqdVals : ResValMap) (resName : string) (resInfo : ResLimit) : report :=
  let max := limit_max resInfo in
  if decide (max = 0) then ([], [])
  else
    let usedVal := match usedVals !! resName with Some v => rv_Value v | None => NewUdec64 0 0 end in
    let avail := (Udec.SubFloor (NewUdec64 max 0) usedVal false).1 in
    let w1 :=
      if decide (rl_QuotaMaxValue resInfo > 0 ∧ rl_InfraMaxValue resInfo > 0 ∧
                 rl_QuotaMaxValue resInfo > rl_InfraMaxValue resInfo) then
        ["[quota] invalid quota set for " +:+ resName +:+ ", quota max value " +:+ fmt_u (rl_QuotaMaxValue resInfo) +:+
         " is more than infra max value " +:+ fmt_u (rl_InfraMaxValue resInfo)]
      else [] in
    let w2 :=
      if GreaterThanUint64 usedVal max then
        ["[quota] invalid quota set for " +:+ resName +:+ ", quota max value " +:+ fmt_u max +:+
         " is less than used resource value " +:+ DecString usedVal]
      else [] in
    let w3 :=
      if bool_decide (rl_AlertThreshold resInfo > 0) &&
         f64_ltb (f64_of_Z (rl_AlertThreshold resInfo))
           (f64_div (f64_mul (Float usedVal) (f64_of_Z 100)) (f64_of_Z max)) then
        ["more than " +:+ fmt_d (rl_AlertThreshold resInfo) +:+ "% of " +:+ resName +:+ " (" +:+ DecString usedVal +:+
         rl_Units resInfo +:+ " of " +:+ fmt_u max +:+ rl_Units resInfo +:+ ") is used by the cloudlet"]
      else [] in
    let errs :=
      match reqdVals !! resName with
      | None => []
      | Some resReqd =>
          if GreaterThan (rv_Value resReqd) avail then
            ["required " +:+ resName +:+ " is " +:+ DecString (rv_Value resReqd) +:+ rl_Units resInfo +:+
             " but only " +:+ DecString avail +:+ rl_Units resInfo +:+ " out of " +:+ fmt_u max +:+
             rl_Units resInfo +:+ " is available"]
          else []
      end in
    (w1 ++ w2 ++ w3, errs).
(** What the infrastructure says is used; the last one of a name. *)
Definition infra_used (info : CalcInfo) (resName : string) : Z :=
  match (fold_left (λ m r, <[ir_Name r := r]> m) (cf_Info info) ∅ : gmap string InfraResource) !! resName with
  | Some r => ir_Value r
  | None => 0
  end.
Definition infra_available (info : CalcInfo) (resName : string) (resInfo : ResLimit) : Z :=
  u64 (rl_InfraMaxValue resInfo - infra_used info resName).
Definition check_infra (info : CalcInfo) (reqdVals : ResValMap) (resName : string) (resInfo : ResLimit) : report :=
  if decide (rl_InfraMaxValue resInfo = 0) then ([], [])
  else
    let infraUsed := infra_used info resName in
    let avail := infra_available info resName resInfo in
    let w :=
      if bool_decide (rl_AlertThreshold resInfo > 0) &&
         f64_ltb (f64_of_Z (rl_AlertThreshold resInfo))
           (f64_div (f64_of_Z (u64 (infraUsed * 100))) (f64_of_Z (rl_InfraMaxValue resInfo))) then
        ["more than " +:+ fmt_d (rl_AlertThreshold resInfo) +:+ "% of " +:+ resName +:+ " (" +:+ fmt_u infraUsed +:+
         rl_Units resInfo +:+ " of " +:+ fmt_u (rl_InfraMaxValue resInfo) +:+ rl_Units resInfo +:+
         ") is used on the infra managed by the cloudlet"]
      else [] in
    let errs :=
      match reqdVals !! resName with
      | None => []
      | Some resReqd =>
          if GreaterThanUint64 (rv_Value resReqd) avail then
            ["required " +:+ resName +:+ " is " +:+ DecString (rv_Value resReqd) +:+ rl_Units resInfo +:+
             " but only " +:+ fmt_u avail +:+ rl_Units resInfo +:+ " out of " +:+
             fmt_u (rl_InfraMaxValue resInfo) +:+ rl_Units resInfo +:+ " is available"]
          else []
      end in
    (w, errs).
Definition check_all (check : string → ResLimit → report) (limits : ResLimitMap) : report :=
  fold_left (λ r resName,
    match limits !! resName with Some l => report_app r (check resName l) | None => r end)
    (sort_strings (go_range limits).*1) ([], []).
(** The warnings and the error. *)
Definition fits_limits (info : CalcInfo) (limits : ResLimitMap) (usedVals reqdVals : ResValMap) :
    list string * option error :=
  let q := check_all (check_quota usedVals reqdVals) limits in
  if decide (q.2 ≠ []) then (q.1, Some ("not enough resources available: " +:+ join ", " q.2))
  else
    let i := check_all (check_infra info reqdVals) limits in
    (q.1 ++ i.1,
     if decide (i.2 ≠ []) then Some ("[infra] not enough resources available: " +:+ join ", " i.2) else None).

Section Calc.
Context (v : region_view) (deps : CloudletResCalcDeps) (skipAdditional : bool).
Definition total (r : CloudletResources) : result ResValMap :=
  totalCloudletResources skipAdditional (d_cloudlet deps) (d_cloudletInfo deps) r.
Definition getUsedResVals : result ResValMap := used ← getCloudletUsedResources v deps; total used.
Definition cloudletFitsReqdVals (reqdVals : ResValMap) : list string * option error :=
  match getUsedResVals with
  | Err e => ([], Some e)
  | Ok usedVals =>
      fits_limits (d_cloudletInfo deps) (getResourceLimits (d_cloudlet deps) (d_cloudletInfo deps)) usedVals reqdVals
  end.
Definition CloudletFitsVMApp (app : DApp) (vmAppInst : DInst) : list string * option error :=
  match total (AddVMAppInstResources app vmAppInst (d_lbFlavor deps) NewCloudletResources) with
  | Err e => ([], Some e)
  | Ok reqdVals => cloudletFitsReqdVals reqdVals
  end.
(** For an update the code computes both totals from the new cluster, the second
    even from [reqd] itself. *)
Definition CloudletFitsCluster (c : Cluster) (old : option Cluster) : list string * option error :=
  let isManagedK8s := KubernetesRequiresWorkerNodes (d_features deps) in
  let reqd := AddClusterInstResources c (d_lbFlavor deps) isManagedK8s NewCloudletResources in
  match total reqd with
  | Err e => ([], Some e)
  | Ok reqdVals =>
      match old with
      | None => cloudletFitsReqdVals reqdVals
      | Some _ =>
          match total reqd with
          | Err e => ([], Some e)
          | Ok oldVals => cloudletFitsReqdVals (SubFloorAll reqdVals oldVals false).1
          end
      end
  end.
Definition CloudletFitsScaledSpec (scaleSpec : KubeResScaleSpec) : list string * option error :=
  let add p s := match p with Some p => AddAllMult s (PerNodeResources p) (NumNodesChange p) | None => s end in
  cloudletFitsReqdVals (add (GPUPoolScale scaleSpec) (add (CPUPoolScale scaleSpec) ∅)).
End Calc.

(** ** The score of a cloudlet *)

Definition getMaxResourceVals (infraSnapshot : list InfraResource) (quotas : list ResourceQuota) : gmap string Z :=
  let maxVals := fold_left (λ m r, <[InfraResource_ResKey r := InfraMaxValue r]> m) infraSnapshot ∅ in
  fold_left (λ m q,
    let resKey := ResourceQuota_ResKey q in
    match m !! resKey with
    | Some x => if decide (x > rq_Value q) then <[resKey := rq_Value q]> m else m
    | None => <[resKey := rq_Value q]> m
    end) quotas maxVals.
Definition calcResourceScoreFromUsed (deps : CloudletResCalcDeps) (usedVals : ResValMap) : Z :=
  let maxVals := getMaxResourceVals (cf_Info (d_cloudletInfo deps)) (ResourceQuotas (d_cloudlet deps)) in
  let '(score, numScored) := fold_left (λ sn rw,
    match maxVals !! rw.1 with
    | None => sn
    | Some max =>
        let free := u64 (max * rw.2) in
        let free :=
          match usedVals !! rw.1 with
          | Some usedVal =>
              let usedDecVal := Mult (NewUdec64 (Whole (rv_Value usedVal)) (Nanos (rv_Value usedVal))) (u32 rw.2) in
              if decide (Whole usedDecVal > free) then 0 else u64 (free - Whole usedDecVal)
          | None => free
          end in
        (u64 (sn.1 + free), u64 (sn.2 + 1))
    end) (go_range resourceWeights) (0, 0) in
  if decide (numScored = 0) then 2 ^ 64 - 1 else score `div` numScored.

(** ** Properties *)

(** *** Reports *)

Lemma check_all_errs check limits :
  (check_all check limits).2 = [] ↔ ∀ k l, limits !! k = Some l → (check k l).2 = [].
Proof.
  unfold check_all.
  assert (∀ keys r, (fold_left (λ r resName,
    match limits !! resName with Some l => report_app r (check resName l) | None => r end) keys r).2 = [] ↔
    r.2 = [] ∧ ∀ k l, k ∈ keys → limits !! k = Some l → (check k l).2 = []) as Hfold.
  { induction keys as [|k keys IH]; intros r; simpl; [set_solver|]. rewrite IH.
    destruct (limits !! k) as [l|] eqn:Hl; simpl.
    - split.
      + intros [[Hr Hc]%app_eq_nil Hk]. split; [done|]. intros k' l' [->|Hin]%elem_of_cons Hl'; [congruence|by eapply Hk].
      + intros [Hr Hk]. split; [rewrite Hr; by apply (Hk k l); [left|]|]. intros k' l' Hin. apply Hk. by right.
    - split; intros [Hr Hk]; (split; [done|]); intros k' l' Hin Hl'; [|apply (Hk k' l'); [by right|done]].
      apply elem_of_cons in Hin as [->|Hin]; [congruence|by eapply Hk]. }
  rewrite Hfold. split; [|by intros Hk; split; [|intros k l _; apply Hk]].
  intros [_ Hk] k l Hl. apply (Hk k l); [|done]. unfold sort_strings. rewrite merge_sort_Permutation.
  apply list_elem_of_fmap. exists (k, l). split; [done|]. by apply elem_of_go_range.
Qed.
Lemma fits_limits_None info limits used reqd :
  (fits_limits info limits used reqd).2 = None ↔
  ∀ k l, limits !! k = Some l → (check_quota used reqd k l).2 = [] ∧ (check_infra info reqd k l).2 = [].
Proof.
  unfold fits_limits. case_decide as Hq; simpl.
  - split; [done|]. intros Hall. destruct Hq. apply check_all_errs. intros k l Hl. by apply (Hall k l).
  - rewrite check_all_errs in Hq.
    assert ((if decide ((check_all (check_infra info reqd) limits).2 ≠ []) then
      Some ("[infra] not enough resources available: " +:+ join ", " (check_all (check_infra info reqd) limits).2)
      else None) = None ↔ (check_all (check_infra info reqd) limits).2 = []) as ->.
    { case_decide as Hi; by split. }
    rewrite check_all_errs. naive_solver.
Qed.

(** *** What the check decides *)

Lemma value_whole z : value (mkUdec z 0) = z * 1000000000.
Proof. unfold value. simpl. lia. Qed.
Lemma GreaterThanUint64_value u z :
  wf u → GreaterThanUint64 u z = true ↔ z * 1000000000 < value u.
Proof.
  intros [_ Hn]. unfold GreaterThanUint64, CmpUint64, value. repeat case_decide; simpl; split; intros; try lia; try done.
Qed.
Lemma quota_errs used reqd k l :
  rmap_wf used → rmap_wf reqd → is_u64 (limit_max l) →
  (check_quota used reqd k l).2 = [] ↔
  (limit_max l ≠ 0 → amount reqd k <= Z.max 0 (limit_max l * 1000000000 - amount used k)).
Proof.
  intros Hu Hr Hm. unfold check_quota. case_decide as Hz; simpl; [tauto|].
  set (usedVal := match used !! k with Some v => rv_Value v | None => NewUdec64 0 0 end).
  assert (wf usedVal ∧ value usedVal = amount used k) as [Huw Huv].
  { unfold usedVal, amount. destruct (used !! k) as [v|] eqn:Hk; [|done]. split; [|done].
    exact (proj2 (rmap_wf_lookup used k v Hu Hk)). }
  rewrite NewUdec64_spec by done. pose proof (wf_whole _ Hm) as Hmw.
  destruct (Udec_SubFloor_spec (mkUdec (limit_max l) 0) usedVal false Hmw Huw) as (Haw & Hav & _).
  rewrite value_whole, Huv in Hav. set (avail := (Udec.SubFloor _ usedVal false).1) in *. unfold amount at 1.
  destruct (reqd !! k) as [rv|] eqn:Hk; [|split; [lia|done]].
  pose proof (GreaterThan_value (rv_Value rv) avail (proj2 (rmap_wf_lookup reqd k rv Hr Hk)) Haw) as Hg. rewrite Hav in Hg.
  destruct (GreaterThan (rv_Value rv) avail).
  - split; [done|]. intros Hle. specialize (Hle Hz). apply proj1 in Hg. specialize (Hg eq_refl). lia.
  - split; [|done]. intros _ _. apply Z.nlt_ge. intros Hlt. by apply Hg in Hlt.
Qed.
Lemma infra_errs info reqd k l :
  rmap_wf reqd →
  (check_infra info reqd k l).2 = [] ↔
  (rl_InfraMaxValue l ≠ 0 → amount reqd k <= infra_available info k l * 1000000000).
Proof.
  intros Hr. unfold check_infra. case_decide as Hz; simpl; [tauto|]. unfold amount.
  pose proof (wrap_u_range 64 (rl_InfraMaxValue l - infra_used info k) ltac:(lia)) as Hrange.
  change (u64 _) with (infra_available info k l) in Hrange. unfold is_u in Hrange.
  destruct (reqd !! k) as [rv|] eqn:Hk; [|split; [lia|done]].
  pose proof (GreaterThanUint64_value (rv_Value rv) (infra_available info k l)
    (proj2 (rmap_wf_lookup reqd k rv Hr Hk))) as Hg.
  destruct (GreaterThanUint64 _ _).
  - split; [done|]. intros Hle. specialize (Hle Hz). apply proj1 in Hg. specialize (Hg eq_refl). lia.
  - split; [|done]. intros _ _. apply Z.nlt_ge. intros Hlt. by apply Hg in Hlt.
Qed.

(** *** Amounts stay in range *)

Lemma add_opt_partial_wf s l c : rmap_wf s → rmap_wf (add_opt_partial s l c).
Proof.
  revert s. induction l as [|[n v] l IH]; intros s Hs; simpl; [done|].
  destruct (AddOptRes s n v c) as [s'|] eqn:H; [|done]. apply IH. by eapply AddOptRes_wf.
Qed.
Lemma AddNodeResources_partial_wf s nr c : rmap_wf s → rmap_wf (AddNodeResources_partial s nr c).
Proof.
  intros Hs. unfold AddNodeResources_partial. apply add_opt_partial_wf, AddGPUs_wf.
  unfold AddDisk, AddRam, AddVcpus. do 3 (apply AddRes_wf; [|by apply wrap_u_range|done]). done.
Qed.
Definition cr_wf (s : CloudletResources) : Prop := rmap_wf (nonFlavorVals s).
Lemma AddFlavor_wf k f n c s : cr_wf s → cr_wf (AddFlavor k f n c s).
Proof. intros Hs. unfold AddFlavor. by case_decide. Qed.
Lemma CR_AddRes_wf k nr n c s : cr_wf s → cr_wf (CR_AddRes k nr n c s).
Proof.
  intros Hs. unfold CR_AddRes. destruct nr as [nr|]; [|done]. case_decide; [done|].
  case_decide; [by apply AddFlavor_wf|]. by apply AddNodeResources_partial_wf.
Qed.
Lemma fold_wf {A} (f : CloudletResources → A → CloudletResources) l s :
  (∀ s a, cr_wf s → cr_wf (f s a)) → cr_wf s → cr_wf (fold_left f l s).
Proof. intros Hf. revert s. induction l as [|a l IH]; intros s Hs; simpl; [done|]. by apply IH, Hf. Qed.
Lemma AddClusterInstResources_wf c lb m s : cr_wf s → cr_wf (AddClusterInstResources c lb m s).
Proof.
  intros Hs. unfold AddClusterInstResources.
  assert (∀ s, cr_wf s → cr_wf (if negb m && bool_decide (cu_IpAccess c = IP_ACCESS_DEDICATED) then
    match lb with None => s
    | Some l => AddFlavor (cu_Key c) (fi_Name l) (NodeType_String NodeTypeDedicatedRootLB) 1 s end else s)) as Hlb.
  { intros s' Hs'. destruct (_ && _); [|done]. destruct lb as [l|]; [exact (AddFlavor_wf _ _ _ _ _ Hs')|done]. }
  apply Hlb. destruct (decide (cu_Deployment c = DeploymentTypeDocker)); [exact (CR_AddRes_wf _ _ _ _ _ Hs)|].
  apply fold_wf; [intros s' pool Hs'; exact (CR_AddRes_wf _ _ _ _ _ Hs')|exact (AddFlavor_wf _ _ _ _ _ Hs)].
Qed.
Lemma AddVMAppInstResources_wf app i lb s : cr_wf s → cr_wf (AddVMAppInstResources app i lb s).
Proof.
  intros Hs. unfold AddVMAppInstResources. pose proof (CR_AddRes_wf (di_ClusterKey i) (di_NodeResources i)
    (NodeType_String NodeTypeAppVM) 1 s Hs) as H. destruct lb; [|done]. case_decide; [by apply AddFlavor_wf|done].
Qed.
Lemma add_clusters_wf v lb m keys s : cr_wf s → cr_wf (add_clusters v lb m keys s).
Proof.
  revert s. induction keys as [|k keys IH]; intros s Hs; simpl; [done|].
  destruct (rv_clusters v !! k); apply IH; [by apply AddClusterInstResources_wf|done].
Qed.
Lemma add_vm_insts_wf v lb keys s s' : cr_wf s → add_vm_insts v lb keys s = Ok s' → cr_wf s'.
Proof.
  revert s. induction keys as [|k keys IH]; intros s Hs H; simpl in H; [by simplify_eq|].
  destruct (ic_insts (rv_insts v) !! k) as [i|]; [|by eapply IH].
  destruct (ic_apps (rv_insts v) !! di_AppKey i); [|done]. eapply IH; [|done]. by apply AddVMAppInstResources_wf.
Qed.
Lemma used_wf v deps r : insts_wf (rv_insts v) → getCloudletUsedResources v deps = Ok r → cr_wf r.
Proof.
  intros Hw. unfold getCloudletUsedResources. destruct (IsSingleKubernetesCluster _).
  - destruct (rv_clusters v !! _); [|done].
    destruct (calcKubernetesClusterUsedResources _ _ _) as [[cpu gpu]|] eqn:Hu; [|done]. intros [= <-].
    apply (kube_used _ _ _ _ _ "") in Hu as ((Hc & Hg) & _); [|done]. unfold cr_wf. simpl. by apply AddAllMult_spec.
  - apply add_vm_insts_wf, add_clusters_wf. unfold AddPlatformVMs. apply fold_wf; [|apply rmap_wf_empty].
    intros s vm Hs. case_decide; [done|by apply AddFlavor_wf].
Qed.
Lemma sum_wf cl info r : cr_wf r → rmap_wf (sumCloudletResources cl info r).
Proof.
  intros Hr. unfold sumCloudletResources.
  assert (∀ l s, rmap_wf s → rmap_wf (fold_left (add_flavor_vals cl (flavors r)) l s)) as Hfold.
  { induction l as [|f l IH]; intros s Hs; simpl; [done|]. apply IH. unfold add_flavor_vals.
    destruct (flavors r !! fi_Name f) as [c|]; [|done].
    assert (∀ s, rmap_wf s → rmap_wf (if UsesGpu f cl then AddRes s ResourceGpus "" (u64 c) 0 else s)) as Hg.
    { intros s' Hs'. destruct (UsesGpu f cl); [|done]. apply AddRes_wf; [done|by apply wrap_u_range|done]. }
    apply Hg, AddGPUs_wf. unfold AddDisk, AddRam, AddVcpus. do 3 (apply AddRes_wf; [|by apply wrap_u_range|done]). done. }
  assert (∀ s, rmap_wf s → rmap_wf (if decide (lbNodeCount r + platformNodeCount r > 0) then
    AddRes s ResourceExternalIPs "" (u64 (lbNodeCount r + platformNodeCount r)) 0 else s)) as He.
  { intros s Hs. case_decide; [|done]. apply AddRes_wf; [done|by apply wrap_u_range|done]. }
  apply He, Hfold. apply AddAllMult_spec; [apply rmap_wf_empty|done|done].
Qed.
(** The numbers of the platform are unsigned 64-bit numbers. *)
Definition additional_u64 : Prop :=
  ∀ vms m, GetClusterAdditionalResources vms = Ok m → map_Forall (λ _ v, is_u64 v.2) m.
Lemma total_wf deps skip r m : additional_u64 → cr_wf r → total deps skip r = Ok m → rmap_wf m.
Proof.
  intros Hadd Hr. unfold total, totalCloudletResources. pose proof (sum_wf (d_cloudlet deps) (d_cloudletInfo deps) r Hr) as Hs.
  destruct skip; [by intros [= <-]|]. intros (res & Hres & H)%result_bind_ok. injection H as <-. apply Hadd in Hres.
  assert (∀ l s, Forall (λ kv : string * (string * Z), is_u64 kv.2.2) l → rmap_wf s →
    rmap_wf (fold_left (λ s kv, AddRes s kv.1 kv.2.1 kv.2.2 0) l s)) as Hfold.
  { induction l as [|[k x] l IH]; intros s Hl Hs'; simpl; [done|]. apply Forall_cons in Hl as [Hx Hl]. simpl in Hx.
    apply IH; [done|]. by apply AddRes_wf. }
  apply Hfold; [|done]. apply Forall_forall. intros [k x] Hin. apply elem_of_go_range in Hin. by apply (Hres k).
Qed.
Definition limits_wf (l : ResLimitMap) : Prop :=
  map_Forall (λ _ l, is_u64 (rl_InfraMaxValue l) ∧ is_u64 (rl_QuotaMaxValue l)) l.
Lemma limit_default l k n t u :
  limits_wf l → is_u64 (rl_InfraMaxValue (default (new_limit n t u) (l !! k))) ∧
    is_u64 (rl_QuotaMaxValue (default (new_limit n t u) (l !! k))).
Proof. intros Hl. destruct (l !! k) as [x|] eqn:Hk; [by apply (Hl k)|done]. Qed.
Lemma AddMax_wf n t u m l : limits_wf l → limits_wf (AddMax n t u m l).
Proof.
  intros Hl. apply map_Forall_insert_2; [|done]. simpl. split; [by apply wrap_u_range|].
  by apply limit_default.
Qed.
Lemma AddQuota_wf n t u q a l : limits_wf l → limits_wf (AddQuota n t u q a l).
Proof.
  intros Hl. apply map_Forall_insert_2; [|done]. simpl. split; [by apply limit_default|by apply wrap_u_range].
Qed.
Lemma limits_fold_wf {A} (f : ResLimitMap → A → ResLimitMap) xs l :
  (∀ l a, limits_wf l → limits_wf (f l a)) → limits_wf l → limits_wf (fold_left f xs l).
Proof. intros Hf. revert l. induction xs as [|a xs IH]; intros l Hl; simpl; [done|]. by apply IH, Hf. Qed.
Lemma getResourceLimits_wf cl info : limits_wf (getResourceLimits cl info).
Proof.
  unfold getResourceLimits, addResourceLimits.
  apply limits_fold_wf; [intros l q Hl; case_decide; [done|by apply AddQuota_wf]|].
  apply limits_fold_wf; [intros l kv Hl; by apply AddMax_wf|].
  apply limits_fold_wf; [intros l r Hl; case_decide; [done|by apply AddMax_wf]|]. apply map_Forall_empty.
Qed.
Lemma limit_max_u64 l : is_u64 (rl_InfraMaxValue l) ∧ is_u64 (rl_QuotaMaxValue l) → is_u64 (limit_max l).
Proof. intros [? ?]. unfold limit_max. by case_decide. Qed.

(** ** The properties *)

(** What the infrastructure has left, as the code computes it: the maximum less
    what the report of that name says, and 2^64 more when that is negative. *)
Definition infra_room (info : CalcInfo) (k : string) (l : ResLimit) : Z :=
  rl_InfraMaxValue l - infra_used info k + (if decide (rl_InfraMaxValue l < infra_used info k) then 2 ^ 64 else 0).
(** What is meant: the report of the resource, by its type and name. *)
Definition reported_used (info : CalcInfo) (k : string) : Z :=
  match last (filter (λ r, InfraResource_ResKey r = k) (cf_Info info)) with Some r => ir_Value r | None => 0 end.
(** The reports of a resource can be found by name: no other has its name, and
    its key is its name. *)
Definition by_name (info : CalcInfo) (k : string) : Prop :=
  ∀ r, r ∈ cf_Info info → InfraResource_ResKey r = k ↔ ir_Name r = k.

Lemma infra_used_last info k :
  infra_used info k =
  match last (filter (λ r, ir_Name r = k) (cf_Info info)) with Some r => ir_Value r | None => 0 end.
Proof.
  unfold infra_used. induction (cf_Info info) as [|r l IH] using rev_ind; [done|].
  rewrite fold_left_app, filter_app. cbn [fold_left]. destruct (decide (ir_Name r = k)) as [Hk|Hk].
  - rewrite Hk, lookup_insert_eq. rewrite filter_cons_True by done. by rewrite filter_nil, last_snoc.
  - rewrite lookup_insert_ne by done. rewrite filter_cons_False by done. by rewrite filter_nil, app_nil_r.
Qed.
Lemma by_name_used info k : by_name info k → infra_used info k = reported_used info k.
Proof.
  intros Hk. rewrite infra_used_last. unfold reported_used, by_name in *.
  assert (∀ l, l ⊆ cf_Info info → filter (λ r, ir_Name r = k) l = filter (λ r, InfraResource_ResKey r = k) l) as Hl.
  { induction l as [|r l IH]; intros Hsub; [done|].
    assert (InfraResource_ResKey r = k ↔ ir_Name r = k) as Hr by (apply Hk, Hsub; left).
    assert (l ⊆ cf_Info info) as Hsub' by (intros x Hx; apply Hsub; by right).
    rewrite !filter_cons, (IH Hsub'). repeat case_decide; tauto. }
  by rewrite Hl.
Qed.
Lemma infra_used_u64 info k : Forall (λ r, is_u64 (ir_Value r)) (cf_Info info) → is_u64 (infra_used info k).
Proof.
  intros Hf. rewrite infra_used_last. destruct (last _) as [r|] eqn:Hl; [|done].
  apply last_Some_elem_of, list_elem_of_filter in Hl as [_ Hin]. rewrite Forall_forall in Hf. by apply Hf.
Qed.
Lemma infra_available_room info k l :
  is_u64 (rl_InfraMaxValue l) → is_u64 (infra_used info k) → infra_available info k l = infra_room info k l.
Proof.
  unfold infra_available, infra_room, is_u64, is_u, wrap_u. intros Hm Hu. case_decide.
  - symmetry. apply (Z.mod_unique_pos _ _ (-1)); lia.
  - rewrite Z.mod_small; lia.
Qed.

(** C20: The check of a cloudlet lets a request through exactly when, for every
    resource that has a limit, what is asked for is at most the quota (without a
    quota: what the infrastructure has) less what is used, and at most what the
    infrastructure has left as the code computes it: its maximum less the last
    value reported under the resource's key taken as a name, plus 2^64 when that
    is negative.  For a resource whose reports are found by name and are at most
    the maximum this is the maximum less what is reported; the other two cases
    are mistakes ([infra_underflow_wraps], [infra_used_by_name]).  What is used
    is the sum that the code computes; the hypotheses are the widths of the
    numbers that come from outside. *)
Theorem fits_exact (v : region_view) (deps : CloudletResCalcDeps) (skip : bool) (reqd : ResValMap)
    (Hadd : additional_u64) (Hinsts : insts_wf (rv_insts v)) (Hreqd : rmap_wf reqd)
    (Hinfo : Forall (λ r, is_u64 (ir_Value r)) (cf_Info (d_cloudletInfo deps))) :
  let limits := getResourceLimits (d_cloudlet deps) (d_cloudletInfo deps) in
  ((cloudletFitsReqdVals v deps skip reqd).2 = None ↔
   ∃ used, getUsedResVals v deps skip = Ok used ∧ ∀ k l, limits !! k = Some l →
     (limit_max l ≠ 0 → amount reqd k <= Z.max 0 (limit_max l * 1000000000 - amount used k)) ∧
     (rl_InfraMaxValue l ≠ 0 → amount reqd k <= infra_room (d_cloudletInfo deps) k l * 1000000000)) ∧
  (∀ k l, limits !! k = Some l → by_name (d_cloudletInfo deps) k →
     reported_used (d_cloudletInfo deps) k <= rl_InfraMaxValue l →
     infra_room (d_cloudletInfo deps) k l = rl_InfraMaxValue l - reported_used (d_cloudletInfo deps) k).
Proof.
  intros limits. split.
  2: { intros k l Hl Hk Hle. unfold infra_room. rewrite by_name_used by done. rewrite decide_False; lia. }
  unfold cloudletFitsReqdVals. destruct (getUsedResVals v deps skip) as [used|e] eqn:Hu.
  2: { split; [done|]. by intros (? & ? & _). }
  assert (rmap_wf used) as Huw.
  { apply result_bind_ok in Hu as (r & Hr & Ht). eapply total_wf; [done| |done]. by eapply used_wf. }
  rewrite fits_limits_None. fold limits. pose proof (getResourceLimits_wf (d_cloudlet deps) (d_cloudletInfo deps)) as Hlw.
  assert (∀ k l, limits !! k = Some l →
    ((check_quota used reqd k l).2 = [] ∧ (check_infra (d_cloudletInfo deps) reqd k l).2 = []) ↔
    (limit_max l ≠ 0 → amount reqd k <= Z.max 0 (limit_max l * 1000000000 - amount used k)) ∧
    (rl_InfraMaxValue l ≠ 0 → amount reqd k <= infra_room (d_cloudletInfo deps) k l * 1000000000)) as Hiff.
  { intros k l Hl. rewrite quota_errs, infra_errs by (done || apply limit_max_u64, (Hlw k l Hl)).
    rewrite infra_available_room; [done|apply (Hlw k l Hl)|by apply infra_used_u64]. }
  split.
  - intros Hall. exists used. split; [done|]. intros k l Hl. apply Hiff; [done|by apply Hall].
  - intros (used' & [= <-] & Hall) k l Hl. apply Hiff; [done|by apply Hall].
Qed.

(** The check of an update of a cluster decides nothing: whatever the new and
    the old cluster need and however little is left, it passes, since the old
    total is computed from the request itself. *)
Theorem cluster_update_unchecked (v : region_view) (deps : CloudletResCalcDeps) (skip : bool) (c old : Cluster)
    (used reqd : ResValMap) (Hadd : additional_u64) (Hinsts : insts_wf (rv_insts v))
    (Hused : getUsedResVals v deps skip = Ok used)
    (Hreqd : total deps skip (AddClusterInstResources c (d_lbFlavor deps)
               (KubernetesRequiresWorkerNodes (d_features deps)) NewCloudletResources) = Ok reqd) :
  (CloudletFitsCluster v deps skip c (Some old)).2 = None.
Proof.
  unfold CloudletFitsCluster. rewrite Hreqd. unfold cloudletFitsReqdVals. rewrite Hused.
  assert (rmap_wf reqd) as Hrw.
  { eapply total_wf; [done| |done]. apply AddClusterInstResources_wf, rmap_wf_empty. }
  assert (rmap_wf used) as Huw.
  { apply result_bind_ok in Hused as (r & Hr & Ht). eapply total_wf; [done| |done]. by eapply used_wf. }
  destruct (SubFloorAll_spec reqd reqd false Hrw Hrw) as (Hw & _ & Ha).
  apply fits_limits_None. intros k l Hl. pose proof (getResourceLimits_wf (d_cloudlet deps) (d_cloudletInfo deps) k l Hl).
  split.
  - apply quota_errs; [done|done|by apply limit_max_u64|]. rewrite Ha. lia.
  - apply infra_errs; [done|]. rewrite Ha. intros _.
    pose proof (wrap_u_range 64 (rl_InfraMaxValue l - infra_used (d_cloudletInfo deps) k) ltac:(lia)) as Hr.
    change (wrap_u 64 _) with (infra_available (d_cloudletInfo deps) k l) in Hr. unfold is_u in Hr. lia.
Qed.
End CloudRes.


Module CloudResWitness.
Import JsonRuns ProvJson ClustResWitness.
#[local] Existing Instance canonical_range.

(** A cloudlet with one cluster of two nodes with four vCPUs. *)
Definition no_more (_ : list VMResource) : result (gmap string (string * Z)) := Ok ∅.
Definition cloudlet (quotas : list ResourceQuota) : CalcCloudlet := mkCalcCloudlet ck quotas 80 "" None.
Definition vcpus (used max : Z) : InfraResource := mkInfraResource ResourceVcpus used max 0 "" "" 0.
Definition deps (quotas : list ResourceQuota) (info : list InfraResource) : CloudletResCalcDeps :=
  mkDeps (cloudlet quotas) (mkCalcInfo [] info [] []) (mkCloudletRefs [clk] []) (mkCalcFeatures false true) None.
Definition node4 (n : Z) : NodePool := mkNodePool "p" n (Some (mkNodeResources 4 8192 0 [] ∅ "" 0)) false.
Definition cl (n : Z) : Cluster := cluster [node4 n].
Definition view : region_view := mkView {[clk := cl 2]} ∅ (mkInstCaches ∅ apps).
Definition quota : list ResourceQuota := [mkResourceQuota ResourceVcpus 16 0 ""].
Definition need (n : Z) : ResValMap := AddVcpus ∅ n 0.
Definition fits (d : CloudletResCalcDeps) (n : Z) : bool :=
  match (cloudletFitsReqdVals no_more view d false (need n)).2 with None => true | Some _ => false end.

Lemma no_more_u64 : additional_u64 no_more.
Proof. intros vms m [= <-]. apply map_Forall_empty. Qed.
Lemma no_insts : insts_wf (rv_insts view).
Proof. apply map_Forall_empty. Qed.
Lemma need_wf n : is_u64 n → rmap_wf (need n).
Proof. intros Hn. unfold need, AddVcpus. apply AddRes_wf; [apply rmap_wf_empty|exact Hn|split; [lia|reflexivity]]. Qed.

(** Of a quota of sixteen vCPUs eight are used: eight more fit, nine do not. *)
Lemma fits_exact_witness :
  let d := deps quota [vcpus 8 20] in
  fits d 8 = true ∧ fits d 9 = false ∧
  (∃ used, getUsedResVals no_more view d false = Ok used ∧ ∀ k l,
    getResourceLimits (d_cloudlet d) (d_cloudletInfo d) !! k = Some l →
    (limit_max l ≠ 0 → amount (need 8) k <= Z.max 0 (limit_max l * 1000000000 - amount used k)) ∧
    (rl_InfraMaxValue l ≠ 0 → amount (need 8) k <= infra_room (d_cloudletInfo d) k l * 1000000000)) ∧
  ∀ l, getResourceLimits (d_cloudlet d) (d_cloudletInfo d) !! ResourceVcpus = Some l →
    rl_InfraMaxValue l = 20 → infra_room (d_cloudletInfo d) ResourceVcpus l = 12.
Proof.
  intros d. split; [vm_compute; reflexivity|]. split; [vm_compute; reflexivity|].
  assert (Forall (λ r, is_u64 (ir_Value r)) (cf_Info (d_cloudletInfo d))) as Hinfo.
  { apply Forall_singleton. unfold is_u64. simpl. lia. }
  destruct (fits_exact no_more view d false (need 8) no_more_u64 no_insts
    (need_wf 8 ltac:(unfold is_u64; lia)) Hinfo) as [Hfit Hroom].
  split; [apply Hfit; vm_compute; reflexivity|]. intros l Hl Hmax. rewrite (Hroom ResourceVcpus l Hl).
  - rewrite Hmax. reflexivity.
  - intros r ->%list_elem_of_singleton. by split.
  - rewrite Hmax. vm_compute. discriminate.
Defined.

(** A cluster of two nodes that is scaled to a hundred: a new one is refused,
    the update passes. *)
Lemma cluster_update_unchecked_witness :
  let d := deps quota [vcpus 8 20] in
  (CloudletFitsCluster no_more view d false (cl 100) None).2 ≠ None ∧
  (CloudletFitsCluster no_more view d false (cl 100) (Some (cl 2))).2 = None.
Proof.
  intros d. split; [vm_compute; discriminate|].
  eapply (cluster_update_unchecked no_more view d false (cl 100) (cl 2) _ _ no_more_u64 no_insts);
    vm_compute; reflexivity.
Defined.

(** An infrastructure that reports more used than it has: the difference of the
    unsigned numbers wraps and the check of what is left passes. *)
Example infra_underflow_wraps :
  fits (deps [] [vcpus 21 20]) 12 = true ∧ fits (deps [] [vcpus 20 20]) 12 = false.
Proof. split; vm_compute; reflexivity. Qed.
(** What is used of a GPU is found by its name alone, and the limits are keyed by
    type and name. *)
Definition gpu_info (used : Z) : InfraResource := mkInfraResource "t4" used 4 0 "" "gpu" 0.
Example infra_used_by_name :
  ∃ l, getResourceLimits (cloudlet []) (mkCalcInfo [] [gpu_info 4] [] []) !! BuildResKey "gpu" "t4" = Some l ∧
    rl_InfraMaxValue l = 4 ∧ infra_available (mkCalcInfo [] [gpu_info 4] [] []) (BuildResKey "gpu" "t4") l = 4.
Proof. eexists. split; [vm_compute; reflexivity|split; reflexivity]. Qed.
End CloudResWitness.
