(* ===== verification/TrustRules.v ===== *)
(** * Trust policies (controller/app_api.go, trustpolicyexception_api.go,
    cloudlet_api.go, appinst_api.go)

    Whether the connections that an app requires are allowed on a cloudlet, by
    its trust policy or by an exception, and the checks of all instances when a
    policy or an app changes.  [trust_check_exact]: within one family of
    addresses the check is containment.  [policy_update_safe]: which updates of
    a policy pass, and what that guarantees for the instances on the cloudlets
    that use it. *)

From S2P Require Export GoNet ClustRes.
From S2P Require Import TPEChange ZoneApi.
#[local] Open Scope Z_scope.

(** ** Data *)

Record TrustPolicy := mkTrustPolicy { tp_Key : PolicyKey; tp_OutboundSecurityRules : list SecurityRule }.
(** [None] is a panic, [Some None] no error. *)
Definition check : Type := option (option error).
Definition fail (e : error) : check := Some (Some e).
(** A loop that returns at the first error. *)
Fixpoint check_each {A} (f : A → check) (l : list A) : check :=
  match l with
  | [] => Some None
  | x :: l' => match f x with Some None => check_each f l' | r => r end
  end.

Section Trust.
(** [String] of protobuf messages. *)
Context {GR : GoRange} `{JAK : !Json AppKey}.
Context (AppKey_String : AppKey → string) (PolicyKey_String : PolicyKey → string)
  (CloudletKey_String : CloudletKey → string).

(** ** The rules that apply *)

(** The filter leaves the name, the state and the rules open. *)
Definition GetTrustPolicyExceptionRules (cs : Trigger.caches) (ckey : ZonePoolKey) (appKey : AppKey) :
    list SecurityRule :=
  t ← filter (λ t, Trigger.AppKey_matches appKey (tk_AppKey (tpe_Key t)) &&
               Trigger.ZonePoolKey_matches ckey (tk_ZonePoolKey (tpe_Key t))) (Trigger.c_tpes cs);
  OutboundSecurityRules t.
(** A cloudlet that is not there leaves a nil zone key, whose [IsSet] panics. *)
Definition allowed_rules (cs : Trigger.caches) (ckey : CloudletKey) (appKey : AppKey) (policy : TrustPolicy) :
    option (list SecurityRule) :=
  match list_find (λ c, cl_Key c = ckey) (Trigger.c_cloudlets cs) with
  | None => None
  | Some (_, c) =>
      let zkey := Cloudlet_GetZone c in
      Some ((if Trigger.ZoneKey_IsSet zkey then
               pool ← Trigger.GetPoolsForZoneKey cs zkey; GetTrustPolicyExceptionRules cs pool appKey
             else []) ++ tp_OutboundSecurityRules policy)
  end.

(** ** The check of an app *)

Fixpoint match_rule (r : SecurityRule) (appNet : IPNet) (allowed : list SecurityRule) : option (result bool) :=
  match allowed with
  | [] => Some (Ok false)
  | outboundRule :: allowed' =>
      if decide (to_lower (Protocol r) ≠ to_lower (Protocol outboundRule)) then match_rule r appNet allowed'
      else
        match ParseCIDR (RemoteCidr outboundRule) with
        | Err err => Some (Err ("Invalid remote CIDR in policy: " +:+ RemoteCidr outboundRule +:+ " - " +:+ err))
        | Ok (_, trustPolNet) =>
            match CidrContainsCidr trustPolNet appNet with
            | None => None
            | Some false => match_rule r appNet allowed'
            | Some true =>
                if decide (to_lower (Protocol r) ≠ "icmp" ∧
                    (PortRangeMin r < PortRangeMin outboundRule ∨ PortRangeMax r > PortRangeMax outboundRule)) then
                  match_rule r appNet allowed'
                else Some (Ok true)
            end
        end
  end.
Definition check_connection (appKey : AppKey) (allowed : list SecurityRule) (r : SecurityRule) : check :=
  match ParseCIDR (RemoteCidr r) with
  | Err err => fail ("Invalid remote CIDR in RequiredOutboundConnections: " +:+ RemoteCidr r +:+ " - " +:+ err)
  | Ok (_, appNet) =>
      match match_rule r appNet allowed with
      | None => None
      | Some (Err e) => fail e
      | Some (Ok true) => Some None
      | Some (Ok false) =>
          fail ("No outbound rule in policy or exception to match required connection " +:+ Protocol r +:+ ":" +:+
                RemoteCidr r +:+ ":" +:+ fmt_u (PortRangeMin r) +:+ "-" +:+ fmt_u (PortRangeMax r) +:+ " for App " +:+
                Marshal appKey)
      end
  end.
Definition CheckAppCompatibleWithTrustPolicy (cs : Trigger.caches) (ckey : CloudletKey) (app : DApp)
    (trustPolicy : TrustPolicy) : check :=
  if negb (Trusted (da_App app)) then
    fail ("Non trusted app: " +:+ TrimSpace (AppKey_String (da_Key app)) +:+ " not compatible with trust policy: " +:+
          PolicyKey_String (tp_Key trustPolicy))
  else
    match allowed_rules cs ckey (da_Key app) trustPolicy with
    | None => None
    | Some allowed => check_each (check_connection (da_Key app) allowed) (RequiredOutboundConnections app)
    end.

(** ** The checks of instances *)

(** The cache also has the trust policies of the cloudlets and the policies. *)
Record trust_caches := mkTrustCaches {
  tc_trigger : Trigger.caches;
  tc_insts : inst_caches;
  tc_policy_of : gmap CloudletKey string;     (* the field TrustPolicy of a cloudlet *)
  tc_policies : gmap PolicyKey TrustPolicy;
}.
Definition CheckCloudletAppinstsCompatibleWithTrustPolicy (tc : trust_caches) (ckey : CloudletKey)
    (policy : TrustPolicy) : check :=
  check_each (λ kv,
    if decide (di_CloudletKey kv.2 ≠ ckey) then Some None
    else
      match ic_apps (tc_insts tc) !! di_AppKey kv.2 with
      | None => fail (NotFoundError "App" (di_AppKey kv.2))
      | Some app => CheckAppCompatibleWithTrustPolicy (tc_trigger tc) ckey app policy
      end) (go_range (ic_insts (tc_insts tc))).
(** The copy of a cloudlet's key has no federated organization. *)
Definition ValidateCloudletsUsingTrustPolicy (tc : trust_caches) (trustPolicy : TrustPolicy) : check :=
  check_each (λ kv : CloudletKey * string,
    if decide (ck_Organization kv.1 ≠ pk_Organization (tp_Key trustPolicy) ∨ kv.2 ≠ pk_Name (tp_Key trustPolicy)) then
      Some None
    else
      let k := mkCloudletKey (ck_Organization kv.1) (ck_Name kv.1) "" in
      match CheckCloudletAppinstsCompatibleWithTrustPolicy tc k trustPolicy with
      | Some (Some err) =>
          fail ("AppInst on cloudlet " +:+ TrimSpace (CloudletKey_String k) +:+ " not compatible with trust policy - " +:+ err)
      | r => r
      end) (go_range (tc_policy_of tc)).
Definition VerifyTrustPoliciesForAppInsts (tc : trust_caches) (app : DApp) (appInsts : gmap AppInstKey ()) : check :=
  check_each (λ kv : AppInstKey * (),
    match ic_insts (tc_insts tc) !! kv.1 with
    | None => Some None
    | Some appInst =>
        match tc_policy_of tc !! di_CloudletKey appInst with
        | None => Some None
        | Some name =>
            if decide (name = "") then Some None
            else
              let pkey := mkPolicyKey (ck_Organization (di_CloudletKey appInst)) name in
              match tc_policies tc !! pkey with
              | None => fail ("Unable to find trust policy in cache: " +:+ PolicyKey_String pkey)
              | Some policy => CheckAppCompatibleWithTrustPolicy (tc_trigger tc) (di_CloudletKey appInst) app policy
              end
        end
    end) (go_range appInsts).

(** ** What the check decides *)

Lemma check_each_ok {A} (f : A → check) l : check_each f l = Some None ↔ ∀ x, x ∈ l → f x = Some None.
Proof.
  induction l as [|x l IH]; simpl; [set_solver|]. split.
  - destruct (f x) as [[|]|] eqn:Hx; try done. intros Hl y [->|Hy]%elem_of_cons; [done|by apply IH].
  - intros Hall. rewrite (Hall x) by left. apply IH. intros y Hy. apply Hall. by right.
Qed.
Lemma check_each_total {A} (f : A → check) l : (∀ x, x ∈ l → f x ≠ None) → check_each f l ≠ None.
Proof.
  induction l as [|x l IH]; simpl; [done|]. intros Hall. specialize (Hall x (list_elem_of_here _ _)) as Hx.
  destruct (f x) as [[|]|]; [done| |done]. apply IH. intros y Hy. apply Hall. by right.
Qed.
Definition net_of (r : SecurityRule) : option IPNet :=
  match ParseCIDR (RemoteCidr r) with Ok (_, n) => Some n | Err _ => None end.
(** The rule [o] allows the connection [r]. *)
Definition allows (o r : SecurityRule) : Prop :=
  to_lower (Protocol r) = to_lower (Protocol o) ∧
  (∃ no nr, net_of o = Some no ∧ net_of r = Some nr ∧ ∀ ip, in_net nr ip → in_net no ip) ∧
  (to_lower (Protocol r) = "icmp" ∨ PortRangeMin o <= PortRangeMin r ∧ PortRangeMax r <= PortRangeMax o).
Definition one_family (len : nat) (rules : list SecurityRule) : Prop :=
  ∀ r, r ∈ rules → ∃ n, net_of r = Some n ∧ length (IP n) = len.
Lemma net_of_wf r n : net_of r = Some n → net_wf n.
Proof. unfold net_of. destruct (ParseCIDR _) as [[ip n']|] eqn:H; [|done]. intros [= <-]. by apply ParseCIDR_wf in H as [? _]. Qed.
Lemma match_rule_spec len r nr allowed :
  net_of r = Some nr → length (IP nr) = len → one_family len allowed →
  ∃ b, match_rule r nr allowed = Some (Ok b) ∧ (b = true ↔ ∃ o, o ∈ allowed ∧ allows o r).
Proof.
  intros Hr Hlen. induction allowed as [|o allowed IH]; intros Hfam; simpl; [exists false; set_solver|].
  destruct IH as (b & Hb & Hiff). { intros r' Hr'. apply Hfam. by right. }
  destruct (Hfam o (list_elem_of_here _ _)) as (no & Ho & Hlo).
  assert (¬ allows o r → ∃ b, match_rule r nr allowed = Some (Ok b) ∧ (b = true ↔ ∃ o', o' ∈ o :: allowed ∧ allows o' r)) as Hskip.
  { intros Hna. exists b. split; [done|]. rewrite Hiff. split; intros (o' & Hin & Ha); exists o'; (split; [|done]); [by right|].
    apply elem_of_cons in Hin as [->|?]; [by destruct Hna|done]. }
  case_decide as Hp; [apply Hskip; by intros (? & _)|]. pose proof Ho as Ho'. unfold net_of in Ho'.
  destruct (ParseCIDR (RemoteCidr o)) as [[ip no']|]; [|done]. injection Ho' as ->.
  destruct (CidrContainsCidr_spec no nr) as (c & -> & Hc); [by eapply net_of_wf|by eapply net_of_wf|congruence|].
  destruct c.
  - case_decide as Hports.
    + apply Hskip. intros (_ & _ & [Hi|[? ?]]); [tauto|lia].
    + exists true. split; [done|]. split; [intros _|done]. exists o. split; [left|]. split; [done|]. split.
      * exists no, nr. split; [done|]. split; [done|]. by apply Hc.
      * destruct (decide (to_lower (Protocol r) = "icmp")); [by left|right].
        assert (¬ (PortRangeMin r < PortRangeMin o ∨ PortRangeMax r > PortRangeMax o)) by tauto. lia.
  - apply Hskip. intros (_ & (no' & nr' & Hno & Hnr & Hsub) & _). simplify_eq. by apply Hc in Hsub.
Qed.
Lemma check_connection_spec len k r allowed :
  one_family len [r] → one_family len allowed →
  ∃ res, check_connection k allowed r = Some res ∧ (res = None ↔ ∃ o, o ∈ allowed ∧ allows o r).
Proof.
  intros Hr Ha. destruct (Hr r) as (nr & Hnr & Hl); [by left|].
  destruct (match_rule_spec len r nr allowed Hnr Hl Ha) as (b & Hm & Hiff).
  unfold check_connection. unfold net_of in Hnr. destruct (ParseCIDR (RemoteCidr r)) as [[ip nr']|]; [|done].
  injection Hnr as ->. rewrite Hm. destruct b; eexists; (split; [done|]); rewrite <-Hiff; done.
Qed.
Lemma trust_check_spec cs ckey app policy allowed len :
  allowed_rules cs ckey (da_Key app) policy = Some allowed →
  one_family len (RequiredOutboundConnections app ++ allowed) →
  ∃ res, CheckAppCompatibleWithTrustPolicy cs ckey app policy = Some res ∧
    (res = None ↔ Trusted (da_App app) = true ∧
      ∀ r, r ∈ RequiredOutboundConnections app → ∃ o, o ∈ allowed ∧ allows o r).
Proof.
  intros Hal Hfam. unfold CheckAppCompatibleWithTrustPolicy. rewrite Hal.
  destruct (Trusted (da_App app)); simpl; [|eexists; split; [done|]; naive_solver].
  assert (∀ r, r ∈ RequiredOutboundConnections app → ∃ res, check_connection (da_Key app) allowed r = Some res ∧
    (res = None ↔ ∃ o, o ∈ allowed ∧ allows o r)) as Hone.
  { intros r Hr. apply check_connection_spec with len.
    - intros r' ->%list_elem_of_singleton. apply Hfam, elem_of_app. by left.
    - intros o Ho. apply Hfam, elem_of_app. by right. }
  destruct (check_each (check_connection (da_Key app) allowed) (RequiredOutboundConnections app)) as [res|] eqn:Hc.
  - exists res. split; [done|]. trans (check_each (check_connection (da_Key app) allowed) (RequiredOutboundConnections app) = Some None).
    { rewrite Hc. split; congruence. }
    rewrite check_each_ok. split.
    + intros Hall. split; [done|]. intros r Hr. destruct (Hone r Hr) as (x & Hx & Hiff). rewrite Hall in Hx by done.
      injection Hx as <-. by apply Hiff.
    + intros [_ Hall] r Hr. destruct (Hone r Hr) as (x & Hx & Hiff). rewrite Hx. f_equal. apply Hiff, Hall, Hr.
  - exfalso. revert Hc. apply check_each_total. intros r Hr. destruct (Hone r Hr) as (x & -> & _). done.
Qed.

(** C13: when all the networks are of one family, an app passes the check of a trust
    policy exactly when it is trusted and each connection that it requires is
    allowed by a rule of the policy or of an exception: the same protocol, every
    address of its network, and its ports. *)
Theorem trust_check_exact (cs : Trigger.caches) (ckey : CloudletKey) (app : DApp) (policy : TrustPolicy)
    (allowed : list SecurityRule) (len : nat)
    (Hallowed : allowed_rules cs ckey (da_Key app) policy = Some allowed)
    (Hfamily : one_family len (RequiredOutboundConnections app ++ allowed)) :
  ∃ res, CheckAppCompatibleWithTrustPolicy cs ckey app policy = Some res ∧
    (res = None ↔ Trusted (da_App app) = true ∧
      ∀ r, r ∈ RequiredOutboundConnections app → ∃ o, o ∈ allowed ∧ allows o r).
Proof. by eapply trust_check_spec. Qed.

(** A cloudlet that uses the policy, and the key that its instances are looked
    up by. *)
Definition uses_policy (tc : trust_caches) (policy : TrustPolicy) (ckey : CloudletKey) : Prop :=
  tc_policy_of tc !! ckey = Some (pk_Name (tp_Key policy)) ∧
  ck_Organization ckey = pk_Organization (tp_Key policy).
Definition copy_key (ckey : CloudletKey) : CloudletKey :=
  mkCloudletKey (ck_Organization ckey) (ck_Name ckey) "".
Lemma cloudlet_check_ok tc k policy :
  CheckCloudletAppinstsCompatibleWithTrustPolicy tc k policy = Some None ↔
  ∀ ikey i, ic_insts (tc_insts tc) !! ikey = Some i → di_CloudletKey i = k →
    ∃ app, ic_apps (tc_insts tc) !! di_AppKey i = Some app ∧
      CheckAppCompatibleWithTrustPolicy (tc_trigger tc) k app policy = Some None.
Proof.
  unfold CheckCloudletAppinstsCompatibleWithTrustPolicy. rewrite check_each_ok. split.
  - intros Hall ikey i Hi Hk. specialize (Hall (ikey, i) (proj2 (elem_of_go_range _ _ _) Hi)). simpl in Hall.
    rewrite decide_False in Hall by tauto. destruct (ic_apps (tc_insts tc) !! di_AppKey i) as [app|]; [|done].
    by exists app.
  - intros Hall [ikey i] Hi%elem_of_go_range. simpl. case_decide as Hk; [done|].
    by destruct (Hall ikey i Hi Hk) as (app & -> & ?).
Qed.
Lemma validate_ok tc policy :
  ValidateCloudletsUsingTrustPolicy tc policy = Some None ↔
  ∀ ckey, uses_policy tc policy ckey →
    CheckCloudletAppinstsCompatibleWithTrustPolicy tc (copy_key ckey) policy = Some None.
Proof.
  unfold ValidateCloudletsUsingTrustPolicy. rewrite check_each_ok. split.
  - intros Hall ckey [Hp Ho]. specialize (Hall (ckey, _) (proj2 (elem_of_go_range _ _ _) Hp)). simpl in Hall.
    rewrite decide_False in Hall by tauto. fold (copy_key ckey) in Hall.
    by destruct (CheckCloudletAppinstsCompatibleWithTrustPolicy tc (copy_key ckey) policy) as [[|]|].
  - intros Hall [ckey name] Hp%elem_of_go_range. simpl. case_decide as Hd; [done|].
    apply Decidable.not_or in Hd as [Ho%dec_stable Hn%dec_stable]. fold (copy_key ckey). rewrite Hall; [done|].
    split; [by rewrite <- Hn|done].
Qed.

(** C22: an update of a trust policy passes its check exactly when every instance
    on a cloudlet of the policy belongs to an app that is there and passes the
    check of the new policy; the instances are looked up by a copy of the
    cloudlet's key without the federated organization, so those of a cloudlet
    that has one are not checked ([federated_not_checked]).  Hence, after an
    update that passed, an instance on a cloudlet without one, when all the
    networks of its app, the policy and the exceptions are of one family,
    belongs to a trusted app whose connections the policy or an exception
    allows; for networks of different families the check of an app says less
    ([families_in_rules]). *)
Theorem policy_update_safe (tc : trust_caches) (policy : TrustPolicy) :
  (ValidateCloudletsUsingTrustPolicy tc policy = Some None ↔
   ∀ ckey ikey i, uses_policy tc policy ckey → ic_insts (tc_insts tc) !! ikey = Some i →
     di_CloudletKey i = copy_key ckey →
     ∃ app, ic_apps (tc_insts tc) !! di_AppKey i = Some app ∧
       CheckAppCompatibleWithTrustPolicy (tc_trigger tc) (copy_key ckey) app policy = Some None) ∧
  (ValidateCloudletsUsingTrustPolicy tc policy = Some None →
   ∀ ckey ikey i app allowed len,
     uses_policy tc policy ckey → ck_FederatedOrganization ckey = "" →
     ic_insts (tc_insts tc) !! ikey = Some i → di_CloudletKey i = ckey →
     ic_apps (tc_insts tc) !! di_AppKey i = Some app →
     allowed_rules (tc_trigger tc) ckey (da_Key app) policy = Some allowed →
     one_family len (RequiredOutboundConnections app ++ allowed) →
     Trusted (da_App app) = true ∧ ∀ r, r ∈ RequiredOutboundConnections app → ∃ o, o ∈ allowed ∧ allows o r).
Proof.
  assert (ValidateCloudletsUsingTrustPolicy tc policy = Some None ↔
    ∀ ckey ikey i, uses_policy tc policy ckey → ic_insts (tc_insts tc) !! ikey = Some i →
      di_CloudletKey i = copy_key ckey → ∃ app, ic_apps (tc_insts tc) !! di_AppKey i = Some app ∧
      CheckAppCompatibleWithTrustPolicy (tc_trigger tc) (copy_key ckey) app policy = Some None) as Hiff.
  { rewrite validate_ok. setoid_rewrite cloudlet_check_ok. naive_solver. }
  split; [exact Hiff|]. intros Hok ckey ikey i app allowed len Huses Hfed Hi Hk Happ Hal Hfam.
  assert (copy_key ckey = ckey) as Hcopy by (destruct ckey; simpl in *; by subst).
  destruct (proj1 Hiff Hok ckey ikey i Huses Hi) as (app' & Happ' & Hc); [congruence|].
  rewrite Hcopy in Hc. assert (app' = app) as -> by congruence.
  destruct (trust_check_spec _ _ _ _ _ _ Hal Hfam) as (res & Hres & Hres').
  rewrite Hc in Hres. injection Hres as <-. by apply Hres'.
Qed.
End Trust.

Module TrustWitness.
Import JsonRuns ProvJson ClustResWitness.
#[local] Existing Instance canonical_range.

Definition text {A} (_ : A) : string := "key".
Definition tcp (cidr : string) (from to : Z) : SecurityRule := mkSecurityRule "TCP" from to cidr.
Definition tapp (required : list SecurityRule) : DApp :=
  mkDApp (mkApp ak true false [] "" "helm") NO_AUTO_DELETE ACCESS_TYPE_LOAD_BALANCER false false IMAGE_TYPE_HELM required.
Definition site (fed : string) : CloudletKey := mkCloudletKey "op" "c1" fed.
Definition policy (rules : list SecurityRule) : TrustPolicy := mkTrustPolicy (mkPolicyKey "op" "tp") rules.
(** The cloudlet is in a zone of a pool, for which the app has an exception. *)
Definition pool : ZonePoolKey := mkZonePoolKey "op" "pool".
Definition exception (st : TPEState) : TrustPolicyException :=
  mkTPE [] (mkTPEKey ak pool "ex") st [tcp "192.168.0.0/24" 80 80].
Definition zpool : ZonePool := mkZonePool [] pool [mkZoneKey "op" "z" ""] (mkTimestamp 0 0) (mkTimestamp 0 0) false.
Definition base (fed : string) (st : TPEState) : Trigger.caches :=
  Trigger.mkCaches [ak] [mkCloudlet (site fed) "z" NORMAL_OPERATION] [] [exception st] [zpool].
Definition placed (fed : string) : DInst :=
  mkDInst (mkAppInstKey "i" "dev") ak clk (site fed) READY None None false false ∅.
Definition tcaches (fed : string) (app : DApp) : trust_caches :=
  mkTrustCaches (base fed STATE_ACTIVE) (mkInstCaches {[di_Key (placed fed) := placed fed]} {[ak := app]})
    {[site fed := "tp"]} ∅.
Definition ten : SecurityRule := tcp "10.0.0.0/8" 1 65535.
Definition run (fed : string) (st : TPEState) (required rules : list SecurityRule) : check :=
  CheckAppCompatibleWithTrustPolicy text text (base fed st) (site fed) (tapp required) (policy rules).

Lemma family4 (l : list SecurityRule) :
  forallb (λ r, match net_of r with Some n => (length (IP n) =? 4)%nat | None => false end) l = true → one_family 4 l.
Proof.
  rewrite forallb_forall. intros H r Hr%list_elem_of_In. apply H in Hr. destruct (net_of r) as [n|]; [|done].
  exists n. split; [done|]. by apply Nat.eqb_eq.
Qed.
Lemma trust_check_exact_witness :
  run "" STATE_ACTIVE [tcp "10.1.0.0/16" 443 443; tcp "192.168.0.7/32" 80 80] [ten] = Some None ∧
  run "" STATE_ACTIVE [tcp "11.1.0.0/16" 443 443] [ten] ≠ Some None ∧
  ∃ res, run "" STATE_ACTIVE [tcp "10.1.0.0/16" 443 443] [ten] = Some res ∧
    (res = None ↔ true = true ∧ ∀ r, r ∈ [tcp "10.1.0.0/16" 443 443] →
      ∃ o, o ∈ [tcp "192.168.0.0/24" 80 80; ten] ∧ allows o r).
Proof.
  split; [vm_compute; reflexivity|]. split; [vm_compute; discriminate|].
  refine (trust_check_exact text text text (base "" STATE_ACTIVE) (site "") (tapp [tcp "10.1.0.0/16" 443 443]) (policy [ten])
    _ 4 _ _); [vm_compute; reflexivity|apply family4; vm_compute; reflexivity].
Defined.
Lemma policy_update_safe_witness :
  ValidateCloudletsUsingTrustPolicy text text text (tcaches "" (tapp [tcp "10.1.0.0/16" 443 443])) (policy []) ≠ Some None ∧
  ∀ r, r ∈ [tcp "10.1.0.0/16" 443 443] → ∃ o, o ∈ [tcp "192.168.0.0/24" 80 80; ten] ∧ allows o r.
Proof.
  split; [vm_compute; discriminate|].
  refine (proj2 (proj2 (policy_update_safe text text text (tcaches "" (tapp [tcp "10.1.0.0/16" 443 443])) (policy [ten]))
    _ (site "") (di_Key (placed "")) (placed "") (tapp [tcp "10.1.0.0/16" 443 443]) _ 4%nat _ _ _ _ _ _ _));
    [vm_compute; reflexivity|split; vm_compute; reflexivity|reflexivity|vm_compute; reflexivity|vm_compute; reflexivity
    |vm_compute; reflexivity|vm_compute; reflexivity|apply family4; vm_compute; reflexivity].
Defined.

(** With a federated organization the instances are not found, and an update of
    the policy passes whatever they require. *)
Example federated_not_checked :
  ValidateCloudletsUsingTrustPolicy text text text (tcaches "fed" (tapp [tcp "11.1.0.0/16" 443 443])) (policy []) = Some None.
Proof. vm_compute. reflexivity. Qed.
(** The rules of an exception count before it is approved and after it is rejected. *)
Example exception_state_ignored :
  run "" STATE_REJECTED [tcp "192.168.0.7/32" 80 80] [] = Some None ∧
  run "" STATE_APPROVAL_REQUESTED [tcp "192.168.0.7/32" 80 80] [] = Some None.
Proof. split; vm_compute; reflexivity. Qed.
(** A rule for all IPv4 addresses allows all IPv6 addresses; a rule for all IPv6
    addresses makes the check of an IPv4 connection panic. *)
Example families_in_rules :
  run "" STATE_ACTIVE [tcp "::/0" 80 80] [tcp "0.0.0.0/0" 1 65535] = Some None ∧
  run "" STATE_ACTIVE [tcp "10.0.0.0/8" 80 80] [tcp "::/0" 1 65535] = None.
Proof. split; vm_compute; reflexivity. Qed.
End TrustWitness.
