(* ===== verification/Placement.v ===== *)
(** * Where an instance can be placed (controller/appinst_zone.go,
    clusterinst_zone.go, potential_cloudlet.go)

    The cloudlets that a new instance or a new cluster can be placed on, and the
    existing clusters that an instance can use, in order.  [validated_exact] says
    which clusters pass; [potential_clusters_sound] what the list holds.  The
    version library, the platforms' answers and the texts of protobuf messages
    are parameters. *)

From S2P Require Export CloudRes TrustRules.
From S2P Require VMSpec.
From S2P Require Import TPEChange.
#[local] Open Scope Z_scope.

(** ** Reasons to skip *)

Definition NoSkipReason : string := "".
Definition SiteUnavailable : string := "site is unavailable".
Definition SiteFeaturesMissing : string := "site features are missing".
Definition SiteTrustPolicyMissing : string := "site trust policy is missing".
Definition NoSupportDedicatedIP : string := "platform does not support dedicated IP".
Definition NoSupportIPV6 : string := "platform does not support IPV6".
Definition KubernetesOnly : string := "platform only supports kubernetes".
Definition RequiresTrustedApp : string := "site requires trusted app".
Definition IncompatibleTrustPolicy : string := "app not compatible with site trust policy".
Definition UnsupportedImageType : string := "site does not support app image type".
Definition NoSupportClusterInst : string := "site only supports AppInst creates".
Definition NoSupportSharedVolumes : string := "site does not support shared volumes".
Definition RequiresNodePools : string := "site requires at least one node pool".
Definition NoSupportMultiTenantCluster : string := "site does not support multi-tenant clusters".
Definition NoSupportNetworks : string := "site does not support additional networks".
Definition NoSupportSharedIPAccess : string := "site does not support shared IP access".
Definition NoSupportDedicatedIPAccess : string := "site does not support dedicated IP access".
Definition MTClusterOrgInvalid : string := "invalid organization for multi-tenant cluster".
Definition NoSupportMultipleNodePools : string := "site does not support multiple node pools".
Definition ClusterMissing : string := "cluster missing".
Definition DeploymentMismatch : string := "deployment type mismatch".
Definition AppNotServerless : string := "app is not serverless".
Definition ClusterReserved : string := "cluster reserved".
Definition ClusterOwned : string := "cluster owned by another tenant".
Definition SidecarAppMustTargetCluster : string := "sidecar app must target cluster".
Definition NoDynamicPlacement : string := "cluster has dynamic placement disabled".
Definition K8SVersionFail : string := "k8s version not supported".
Definition ClusterNoIPV6 : string := "cluster does not support IPV6".
Definition NoAppDuplicates : string := "instance of App already present".
Definition StandaloneConflict : string := "standalone App conflict".
Definition ClusterNoResources : string := "not enough resources".
Definition AppManagesOwnNamespace : string := "cluster is multi-tenant but App manages its own namespaces".

Abbreviation SkipReasons := (gset string).
Definition add (reason : string) (s : SkipReasons) : SkipReasons :=
  if decide (reason ≠ NoSkipReason) then {[reason]} ∪ s else s.
Definition addAll (reasons s : SkipReasons) : SkipReasons := foldr add s (elements reasons).
Definition SkipReasons_String (s : SkipReasons) : string := join ", " (sort_strings (elements s)).

(** ** Data *)

(** The features of a platform that placement reads. *)
Record PlatformFeatures := mkFeatures {
  pf_calc : CalcFeatures;
  SupportsAppInstDedicatedIp : bool;
  SupportsIpv6 : bool;
  SupportsKubernetesOnly : bool;
  SupportsImageTypeOvf : bool;
  SupportsImageTypeOva : bool;
  SupportsSharedVolume : bool;
  SupportsMultipleNodePools : bool;
  SupportsMultiTenantCluster : bool;
  SupportsAdditionalNetworks : bool;
  CloudletServicesLocal : bool;
  IsFake : bool;
  IpAllocatedPerService : bool;
  UsesRootLb : bool;
}.
Record PCloudlet := mkPCloudlet {
  pl_calc : CalcCloudlet;
  pl_State : TrackedState;
  pl_MaintenanceState : MaintenanceState;
  pl_DeletePrepare : bool;
  pl_PlatformType : string;
  pl_TrustPolicy : string;
  pl_Zone : ZoneKey;                 (* [GetZone] *)
}.
Record PInfo := mkPInfo {
  pi_State : CloudletState;
  pi_calc : CalcInfo;
  pi_AvailabilityZones : list VMSpec.OSAZone;
  pi_OsImages : list VMSpec.OSImage;
}.
(** An instance to place: with the fields that only placement reads. *)
Record PInst := mkPInst { pi_Inst : DInst; DedicatedIp : bool; pi_ZoneKey : ZoneKey }.
(** A cluster to create. *)
Record PCluster := mkPCluster {
  pc_Cluster : Cluster;
  pc_ZoneKey : ZoneKey;
  SharedVolumeSize : Z;
  Networks : list string;
  CloudletManagedClusterId : string;
  CloudletManagedClusterName : string;
}.
Inductive CRMOverride :=
| NO_OVERRIDE | IGNORE_CRM_ERRORS | IGNORE_CRM | IGNORE_TRANSIENT_STATE | IGNORE_CRM_AND_TRANSIENT_STATE.
#[global] Instance CRMOverride_eq_dec : EqDecision CRMOverride.
Proof. solve_decision. Defined.
Record CallContext := mkCallContext {
  cc_Undo : bool; CRMUndo : bool; Override : CRMOverride; SkipCloudletReadyCheck : bool }.
Definition ignoreCRM (cctx : CallContext) : bool :=
  (cc_Undo cctx && negb (CRMUndo cctx)) || bool_decide (Override cctx = IGNORE_CRM) ||
  bool_decide (Override cctx = IGNORE_CRM_AND_TRANSIENT_STATE).
(** What the caches hold. *)
Record region := mkRegion {
  rg_cloudlets : gmap CloudletKey PCloudlet;
  rg_infos : gmap CloudletKey PInfo;
  rg_features : gmap string PlatformFeatures;
  rg_refs : gmap CloudletKey CloudletRefs;
  rg_zones : gset ZoneKey;
  rg_trust : Trigger.caches;
  rg_policies : gmap PolicyKey TrustPolicy;
  rg_view : region_view;
}.
Inductive ClusterType :=
| ClusterTypeUnknown | ClusterTypeOwned | ClusterTypeOwnedReservable | ClusterTypeFreeReservable
| ClusterTypeMultiTenant.
#[global] Instance ClusterType_eq_dec : EqDecision ClusterType.
Proof. solve_decision. Defined.
Record potentialInstCloudlet := mkPotentialCloudlet {
  pp_cloudlet : PCloudlet;
  pp_info : PInfo;
  pp_features : PlatformFeatures;
  pp_flavorLookup : FlavorLookup;
  pp_deps : CloudletResCalcDeps;
  pp_resourceScore : Z;
}.
Record potentialAppInstCluster := mkPotentialCluster {
  existingCluster : ClusterKey;
  pa_cloudletKey : CloudletKey;
  parentPC : potentialInstCloudlet;
  scaleSpec : option KubeResScaleSpec;
  clusterType : ClusterType;
  clusterSpecified : bool;
  pa_resourceScore : Z;
}.
Definition pl_Key (c : PCloudlet) : CloudletKey := cc_Key (pl_calc c).

(** The results of a validation: what is found, or the reason to skip it, whether
    the reason is shown, and the error; [Panics] for a run-time panic. *)
Inductive validation (A : Type) :=
| Valid (a : A) | Skip (reason : string) (logReason : bool) (e : error) | Panics.
Arguments Valid {_} _.
Arguments Skip {_} _ _ _.
Arguments Panics {_}.

Definition TrackedState_String (s : TrackedState) : string :=
  match s with
  | TRACKED_STATE_UNKNOWN => "TRACKED_STATE_UNKNOWN" | NOT_PRESENT => "NOT_PRESENT"
  | CREATE_REQUESTED => "CREATE_REQUESTED" | CREATING => "CREATING" | CREATE_ERROR => "CREATE_ERROR"
  | READY => "READY" | UPDATE_REQUESTED => "UPDATE_REQUESTED" | UPDATING => "UPDATING"
  | UPDATE_ERROR => "UPDATE_ERROR" | DELETE_REQUESTED => "DELETE_REQUESTED" | DELETING => "DELETING"
  | DELETE_ERROR => "DELETE_ERROR" | DELETE_PREPARE => "DELETE_PREPARE" | CRM_INITOK => "CRM_INITOK"
  | CREATING_DEPENDENCIES => "CREATING_DEPENDENCIES" | DELETE_DONE => "DELETE_DONE"
  end.
Definition CloudletState_name (s : CloudletState) : string :=
  match s with
  | CLOUDLET_STATE_UNKNOWN => "CLOUDLET_STATE_UNKNOWN" | CLOUDLET_STATE_ERRORS => "CLOUDLET_STATE_ERRORS"
  | CLOUDLET_STATE_READY => "CLOUDLET_STATE_READY" | CLOUDLET_STATE_OFFLINE => "CLOUDLET_STATE_OFFLINE"
  | CLOUDLET_STATE_NOT_PRESENT => "CLOUDLET_STATE_NOT_PRESENT" | CLOUDLET_STATE_INIT => "CLOUDLET_STATE_INIT"
  | CLOUDLET_STATE_UPGRADE => "CLOUDLET_STATE_UPGRADE" | CLOUDLET_STATE_NEED_SYNC => "CLOUDLET_STATE_NEED_SYNC"
  end.
Definition ImageType_String (i : ImageType) : string :=
  match i with
  | IMAGE_TYPE_UNKNOWN => "IMAGE_TYPE_UNKNOWN" | IMAGE_TYPE_DOCKER => "IMAGE_TYPE_DOCKER"
  | IMAGE_TYPE_QCOW => "IMAGE_TYPE_QCOW" | IMAGE_TYPE_HELM => "IMAGE_TYPE_HELM"
  | IMAGE_TYPE_OVF => "IMAGE_TYPE_OVF" | IMAGE_TYPE_OVA => "IMAGE_TYPE_OVA"
  end.

Section Placement.
Context {GR : GoRange} {GS : GoSort}
  `{JIK : !Json AppInstKey, JAK : !Json AppKey, JCK : !Json ClusterKey, JLK : !Json CloudletKey, JZK : !Json ZoneKey,
    JPK : !Json PolicyKey}.
(** Package semver. *)
Context {version : Type} (NewVersion : string → result version) (Compare : version → version → Z).
(** The platforms: the flavor of a load balancer and the resources added for VMs. *)
Context (GetRootLbFlavor : CloudletKey → result Flavor)
  (GetClusterAdditionalResources : list VMResource → result (gmap string (string * Z))).
(** [String] of protobuf messages. *)
Context (AppKey_String : AppKey → string) (PolicyKey_String : PolicyKey → string).

(** ** Is a cloudlet ready? (cloudletinfo_api.go) *)

Definition checkCloudletReady (cctx : option CallContext) (cloudlet : PCloudlet) (info : PInfo) (delete : bool) :
    option error :=
  if match cctx with Some c => ignoreCRM c || SkipCloudletReadyCheck c | None => false end then None
  else if delete && (pl_DeletePrepare cloudlet || bool_decide (pl_State cloudlet = DELETE_PREPARE)) then
    Some (BeingDeletedError "Cloudlet" (pl_Key cloudlet))
  else if decide (pl_State cloudlet = UPDATE_REQUESTED ∨ pl_State cloudlet = UPDATING) then
    Some ("cloudlet " +:+ Marshal (pl_Key cloudlet) +:+ " is upgrading")
  else if decide (pl_MaintenanceState cloudlet ≠ NORMAL_OPERATION) then
    Some "cloudlet under maintenance, please try again later"
  else if decide (pl_State cloudlet = UPDATE_ERROR) then
    Some ("cloudlet " +:+ Marshal (pl_Key cloudlet) +:+ " is in failed upgrade state, please upgrade it manually")
  else if decide (pi_State info = CLOUDLET_STATE_READY) then None
  else Some ("cloudlet " +:+ Marshal (pl_Key cloudlet) +:+ " not ready, state is " +:+ CloudletState_name (pi_State info)).

(** ** The resources of a cloudlet (cloudlet_resource_check.go, clusterinst_api.go,
    restagtable_api.go) *)

Definition GetFlavorLookup (i : PInfo) : FlavorLookup :=
  fold_left (λ m f, <[fi_Name f := f]> m) (cf_Flavors (pi_calc i)) ∅.
(** [GetVMSpec] of restagtable_api.go without a cloudlet flavor; the optional
    resources come over gRPC, so there are none rather than an empty map. *)
Definition ResTagTableApi_GetVMSpec (nodeResources : NodeResources) (c : PCloudlet) (i : PInfo) :
    result (option FlavorInfo) :=
  if decide (cf_Flavors (pi_calc i) = []) then
    Ok (Some (mkFlavorInfo "noderesources" (nr_Vcpus nodeResources) (nr_Ram nodeResources) (nr_Disk nodeResources)
                (nr_Gpus nodeResources) ∅))
  else
    let opt := nr_OptResMap nodeResources in
    spec ← VMSpec.GetVMSpec nodeResources (if decide (opt = ∅) then None else Some opt)
      (VMSpec.mkCloudletInfo (ck_Name (pl_Key c)) (cf_Flavors (pi_calc i)) (pi_AvailabilityZones i) (pi_OsImages i))
      (cc_ResTables (pl_calc c));
    Ok (VMSpec.vs_FlavorInfo spec).
Definition GetRootLBFlavorInfo (f : PlatformFeatures) (c : PCloudlet) (i : PInfo) : result (option FlavorInfo) :=
  if negb (UsesRootLb f) then Ok None
  else
    rootlbFlavor ← GetRootLbFlavor (pl_Key c);
    match ResTagTableApi_GetVMSpec (ToNodeResources rootlbFlavor) c i with
    | Err err => Err ("failed to get infra flavor for root LB flavor " +:+ f_Name rootlbFlavor +:+ ": " +:+ err)
    | Ok flavor => Ok flavor
    end.
(** [initResCalc] with the dependencies that it sets and those that [InitDeps]
    reads; also the score. *)
Definition initResCalc (r : region) (f : PlatformFeatures) (c : PCloudlet) (i : PInfo) :
    result (CloudletResCalcDeps * Z) :=
  lb ← GetRootLBFlavorInfo f c i;
  let refs := default (mkCloudletRefs [] []) (rg_refs r !! pl_Key c) in
  let deps := mkDeps (pl_calc c) (pi_calc i) refs (pf_calc f) lb in
  usedVals ← getUsedResVals GetClusterAdditionalResources (rg_view r) deps false;
  Ok (deps, calcResourceScoreFromUsed deps usedVals).

(** ** Cloudlets for an instance (appinst_zone.go) *)

(** The features are a pointer, which may be nil. *)
Definition validateImageTypeForPlatform (imageType : ImageType) (platformType : string)
    (features : option PlatformFeatures) : check :=
  let unsupported := fail ("image type " +:+ ImageType_String imageType +:+ " is not valid for platform type: " +:+ platformType) in
  match imageType, features with
  | IMAGE_TYPE_OVF, None | IMAGE_TYPE_OVA, None => None
  | IMAGE_TYPE_OVF, Some f => if negb (SupportsImageTypeOvf f) then unsupported else Some None
  | IMAGE_TYPE_OVA, Some f => if negb (SupportsImageTypeOva f) then unsupported else Some None
  | _, _ => Some None
  end.
(** The trust policy of the cloudlet. *)
Definition validate_trust (r : region) (app : DApp) (c : PCloudlet) (k : validation potentialInstCloudlet) :
    validation potentialInstCloudlet :=
  if decide (pl_TrustPolicy c = "") then k
  else if negb (Trusted (da_App app)) then
    Skip RequiresTrustedApp true "cloudlet has trust policy but app is not trusted"
  else
    let tpKey := mkPolicyKey (ck_Organization (pl_Key c)) (pl_TrustPolicy c) in
    match rg_policies r !! tpKey with
    | None => Skip SiteTrustPolicyMissing true (NotFoundError "TrustPolicy" tpKey)
    | Some trustPolicy =>
        match CheckAppCompatibleWithTrustPolicy AppKey_String PolicyKey_String (rg_trust r) (pl_Key c) app trustPolicy with
        | None => Panics
        | Some (Some err) => Skip IncompatibleTrustPolicy true err
        | Some None => k
        end
    end.
(** A cloudlet that is one Kubernetes cluster. *)
Definition validate_single (in_ : PInst) (app : DApp) (c : PCloudlet) (f : PlatformFeatures)
    (k : validation potentialInstCloudlet) : validation potentialInstCloudlet :=
  if negb (IsSingleKubernetesCluster (pf_calc f)) then k
  else if negb (AppDeploysToKubernetes (da_Deployment app)) then
    Skip KubernetesOnly true ("app deployment " +:+ da_Deployment app +:+ ", but cloudlet only supports kubernetes")
  else
    let appInstOwner := GetAppInstOwner (pi_Inst in_) in
    let clusterOwner := SingleKubernetesClusterOwner (pl_calc c) in
    if decide (clusterOwner ≠ "" ∧ OrgName_Matches appInstOwner clusterOwner = false) then
      let err := "single kubernetes cluster mismatched owner, appinst owner is " +:+ appInstOwner +:+
                 " but cluster owner is " +:+ clusterOwner in
      if decide (clk_Name (di_ClusterKey (pi_Inst in_)) ≠ "") then Skip MTClusterOrgInvalid true err
      else Skip NoSkipReason true err
    else k.
(** The image type is checked before the features are set. *)
Definition validatePotentialCloudlet (r : region) (cctx : option CallContext) (in_ : PInst) (app : DApp)
    (ckey : CloudletKey) : validation potentialInstCloudlet :=
  match rg_cloudlets r !! ckey with
  | None => Skip SiteUnavailable true (NotFoundError "Cloudlet" ckey)
  | Some c =>
      match rg_infos r !! ckey with
      | None => Skip SiteUnavailable true ("cloudlet info " +:+ Marshal ckey +:+ " not found")
      | Some info =>
          if decide (is_Some (checkCloudletReady cctx c info false)) then Skip SiteUnavailable true "cloudlet not ready"
          else
            match rg_features r !! pl_PlatformType c with
            | None => Skip SiteFeaturesMissing true ("PlatformFeatures key " +:+ pl_PlatformType c +:+ " not found")
            | Some f =>
                if DedicatedIp in_ && negb (SupportsAppInstDedicatedIp f) then
                  Skip NoSupportDedicatedIP true NoSupportDedicatedIP
                else if di_EnableIpv6 (pi_Inst in_) && negb (SupportsIpv6 f) then
                  Skip NoSupportDedicatedIP true NoSupportDedicatedIP
                else
                  validate_trust r app c
                    (validate_single in_ app c f
                      (if SupportsKubernetesOnly f && bool_decide (da_Deployment app ≠ DeploymentTypeKubernetes) then
                         Skip KubernetesOnly true
                           ("app deployment " +:+ da_Deployment app +:+ " but cloudlet only supports kubernetes")
                       else
                         match validateImageTypeForPlatform (da_ImageType app) (pl_PlatformType c) None with
                         | None => Panics
                         | Some (Some err) => Skip UnsupportedImageType true err
                         | Some None =>
                             match initResCalc r f c info with
                             | Err err => Skip SiteUnavailable true err
                             | Ok (deps, score) => Valid (mkPotentialCloudlet c info f (GetFlavorLookup info) deps score)
                             end
                         end))
            end
      end
  end.

Definition key_less (a b : CloudletKey) : bool := str_less (Marshal a) (Marshal b).
Definition CloudletsForZone (r : region) (zkey : ZoneKey) : list CloudletKey :=
  fst <$> filter (λ kv : CloudletKey * PCloudlet, pl_Zone kv.2 = zkey) (go_range (rg_cloudlets r)).
(** The loop over the cloudlets; [None] is a panic. *)
Fixpoint collect_cloudlets (validate : CloudletKey → validation potentialInstCloudlet) (cloudletSpecified : bool)
    (keys : list CloudletKey) (skipReasons : SkipReasons) : option (result (list potentialInstCloudlet * SkipReasons)) :=
  match keys with
  | [] => Some (Ok ([], skipReasons))
  | ckey :: keys' =>
      match validate ckey with
      | Panics => None
      | Skip reason _ err =>
          if cloudletSpecified then Some (Err err)
          else collect_cloudlets validate cloudletSpecified keys' (add reason skipReasons)
      | Valid pc =>
          match collect_cloudlets validate cloudletSpecified keys' skipReasons with
          | Some (Ok (pcs, reasons)) => Some (Ok (pc :: pcs, reasons))
          | r => r
          end
      end
  end.
(** The cloudlets to look at, whether the cluster and the cloudlet are given. *)
Definition instance_candidates (r : region) (in_ : PInst) : result (list CloudletKey * bool * bool) :=
  let i := pi_Inst in_ in
  if decide (clk_Name (di_ClusterKey i) ≠ "") then
    match rv_clusters (rg_view r) !! di_ClusterKey i with
    | None => Err (NotFoundError "ClusterInst" (di_ClusterKey i))
    | Some inCluster => Ok ([cu_CloudletKey inCluster], true, true)
    end
  else if decide (ck_Name (di_CloudletKey i) ≠ "") then Ok ([di_CloudletKey i], false, true)
  else if decide (zk_Name (pi_ZoneKey in_) = "") then Err "zone not specified"
  else if decide (pi_ZoneKey in_ ∉ rg_zones r) then Err (NotFoundError "Zone" (pi_ZoneKey in_))
  else
    let keys := CloudletsForZone r (pi_ZoneKey in_) in
    if decide (keys = []) then Err ("no available edge sites in zone " +:+ zk_Name (pi_ZoneKey in_))
    else Ok (keys, false, false).
Definition AppInst_getPotentialCloudlets (r : region) (cctx : option CallContext) (in_ : PInst) (app : DApp) :
    option (result (list potentialInstCloudlet * SkipReasons)) :=
  match instance_candidates r in_ with
  | Err e => Some (Err e)
  | Ok (keys, specifiedCluster, cloudletSpecified) =>
      match collect_cloudlets (validatePotentialCloudlet r cctx in_ app) cloudletSpecified (go_sort key_less keys) ∅ with
      | Some (Ok ([], skipReasons)) =>
          let reasonsStr := SkipReasons_String skipReasons in
          let reasonsStr :=
            if decide (reasonsStr = "") then ""
            else if cloudletSpecified then ", " +:+ reasonsStr
            else ", some sites were skipped because " +:+ reasonsStr in
          Some (Err (
            if (specifiedCluster : bool) then
              "cannot deploy to cluster " +:+ clk_Name (di_ClusterKey (pi_Inst in_)) +:+ reasonsStr
            else if cloudletSpecified then
              "cannot deploy to cloudlet " +:+ ck_Name (di_CloudletKey (pi_Inst in_)) +:+ reasonsStr
            else "no available edge sites in zone " +:+ zk_Name (pi_ZoneKey in_) +:+ reasonsStr))
      | res => res
      end
  end.

(** ** Cloudlets for a cluster (clusterinst_zone.go) *)

Definition OperatorGCP : string := "gcp".
Definition OperatorAzure : string := "azure".
Definition OperatorAWS : string := "aws".
Definition isIPAllocatedPerService (f : PlatformFeatures) (operator : string) : bool :=
  if IsFake f then bool_decide (operator = OperatorGCP ∨ operator = OperatorAzure ∨ operator = OperatorAWS)
  else IpAllocatedPerService f.
Definition IsCloudletManaged (c : PCluster) : bool :=
  bool_decide (CloudletManagedClusterId c ≠ "" ∨ CloudletManagedClusterName c ≠ "").
(** The conditions on the features, in order. *)
Definition cluster_features (in_ : PCluster) (c : PCloudlet) (f : PlatformFeatures) : option (string * error) :=
  let cl := pc_Cluster in_ in
  let pools := ci_NodePools (cu_Resources cl) in
  let same reason := Some (reason, reason) in
  if IsSingleKubernetesCluster (pf_calc f) then same NoSupportClusterInst
  else if SupportsKubernetesOnly f && bool_decide (cu_Deployment cl ≠ DeploymentTypeKubernetes) then
    Some (KubernetesOnly, "app deployment " +:+ cu_Deployment cl +:+ " but cloudlet only supports kubernetes")
  else if bool_decide (SharedVolumeSize in_ ≠ 0) && negb (SupportsSharedVolume f) then same NoSupportSharedVolumes
  else if cu_EnableIpv6 cl && negb (SupportsIpv6 f) then same NoSupportIPV6
  else if bool_decide (cu_Deployment cl = DeploymentTypeKubernetes) && KubernetesRequiresWorkerNodes (pf_calc f) &&
      bool_decide (pools = []) && negb (IsCloudletManaged in_) then same RequiresNodePools
  else if bool_decide (cu_Deployment cl = DeploymentTypeKubernetes) && negb (SupportsMultipleNodePools f) &&
      bool_decide (1 < length pools)%nat then same NoSupportMultipleNodePools
  else if cu_MultiTenant cl && negb (SupportsMultiTenantCluster f) then same NoSupportMultiTenantCluster
  else if bool_decide (Networks in_ ≠ []) && negb (SupportsAdditionalNetworks f) then same NoSupportNetworks
  else if bool_decide (cu_IpAccess cl = IP_ACCESS_SHARED) &&
      isIPAllocatedPerService f (ck_Organization (pl_Key c)) then same NoSupportSharedIPAccess
  else if bool_decide (cu_IpAccess cl = IP_ACCESS_DEDICATED) && CloudletServicesLocal f && negb (IsFake f) then
    same NoSupportDedicatedIPAccess
  else None.
Definition ClusterInst_validatePotentialCloudlet (r : region) (cctx : option CallContext) (in_ : PCluster)
    (ckey : CloudletKey) : validation potentialInstCloudlet :=
  match rg_cloudlets r !! ckey with
  | None => Skip SiteUnavailable true (NotFoundError "Cloudlet" ckey)
  | Some c =>
      match rg_infos r !! ckey with
      | None => Skip SiteUnavailable true ("cloudlet info " +:+ Marshal ckey +:+ " not found")
      | Some info =>
          if decide (is_Some (checkCloudletReady cctx c info false)) then Skip SiteUnavailable true "cloudlet not ready"
          else
            match rg_features r !! pl_PlatformType c with
            | None => Skip SiteFeaturesMissing true ("PlatformFeatures key " +:+ pl_PlatformType c +:+ " not found")
            | Some f =>
                match cluster_features in_ c f with
                | Some (reason, err) => Skip reason true err
                | None =>
                    match initResCalc r f c info with
                    | Err err => Skip SiteUnavailable true err
                    | Ok (deps, score) => Valid (mkPotentialCloudlet c info f (GetFlavorLookup info) deps score)
                    end
                end
            end
      end
  end.
Definition ClusterInst_getPotentialCloudlets (r : region) (cctx : option CallContext) (in_ : PCluster) :
    option (result (list potentialInstCloudlet)) :=
  let candidates :=
    if decide (ck_Name (cu_CloudletKey (pc_Cluster in_)) ≠ "") then Ok ([cu_CloudletKey (pc_Cluster in_)], true)
    else if decide (zk_Name (pc_ZoneKey in_) = "") then Err "zone not specified"
    else if decide (pc_ZoneKey in_ ∉ rg_zones r) then Err (NotFoundError "Zone" (pc_ZoneKey in_))
    else
      let keys := CloudletsForZone r (pc_ZoneKey in_) in
      if decide (keys = []) then Err ("no available edge sites in zone " +:+ zk_Name (pc_ZoneKey in_))
      else Ok (keys, false) in
  match candidates with
  | Err e => Some (Err e)
  | Ok (keys, cloudletSpecified) =>
      match collect_cloudlets (ClusterInst_validatePotentialCloudlet r cctx in_) cloudletSpecified
              (go_sort key_less keys) ∅ with
      | None => None
      | Some (Err e) => Some (Err e)
      | Some (Ok ([], skipReasons)) =>
          let reasonsStr := SkipReasons_String skipReasons in
          Some (Err (if decide (reasonsStr = "") then "no available edge sites in zone"
                     else "no available edge sites in zone, some sites were skipped because " +:+ reasonsStr))
      | Some (Ok (pcs, _)) => Some (Ok pcs)
      end
  end.

(** ** Clusters for an instance (appinst_zone.go, clusterinst_api.go) *)

Definition checkMinKubernetesVersion (ci : Cluster) (appInst : DInst) : option error :=
  match di_KubernetesResources appInst with
  | None => None
  | Some kr =>
      let minVer := MinKubernetesVersion kr in
      if decide (minVer = "" ∨ KubernetesVersion ci = "") then None
      else
        match NewVersion minVer with
        | Err err => Some ("failed to parse AppInst Kubernetes version " +:+ quote minVer +:+ ", " +:+ err)
        | Ok minSemver =>
            match NewVersion (KubernetesVersion ci) with
            | Err err =>
                Some ("failed to parse cluster Kubernetes version " +:+ quote (KubernetesVersion ci) +:+ ", " +:+ err)
            | Ok ciSemver =>
                if decide (Compare ciSemver minSemver < 0) then
                  Some ("appInst requires a minimum Kubernetes version of " +:+ quote minVer +:+
                        " but cluster has version " +:+ quote (KubernetesVersion ci))
                else None
            end
        end
  end.
(** The type of the cluster for the instance, or why it cannot be used. *)
Definition tenancy (in_ : DInst) (app : DApp) (c : Cluster) (specified : bool) : ClusterType + (string * bool * error) :=
  if cu_MultiTenant c then inl ClusterTypeMultiTenant
  else if cu_Reservable c then
    if decide (cu_ReservedBy c = "") then inl ClusterTypeFreeReservable
    else if IsSideCarApp app || bool_decide (cu_ReservedBy c = aik_Organization (di_Key in_)) then
      inl ClusterTypeOwnedReservable
    else inr (ClusterReserved, false, "cluster reserved by another tenant")
  else if IsSideCarApp app then
    if negb specified then inr (SidecarAppMustTargetCluster, true, "sidecar app must specify target cluster")
    else inl ClusterTypeOwned
  else if OrgName_Matches (GetAppInstOwner in_) (clk_Organization (cu_Key c)) then
    if DisableDynamicAppinstPlacement c && negb specified then
      inr (NoDynamicPlacement, true, "found cluster but dynamic appinst placement is disabled")
    else inl ClusterTypeOwned
  else inr (ClusterOwned, false, "cluster owned by another tenant").
(** The instances that are on the cluster already. *)
Fixpoint conflicts (cs : inst_caches) (in_ : DInst) (app : DApp) (specified : bool) (refs : list AppInstKey) :
    option (string * error) :=
  match refs with
  | [] => None
  | aiKey :: refs' =>
      let continue := conflicts cs in_ app specified refs' in
      if decide (aiKey = di_Key in_) then continue
      else
        match ic_insts cs !! aiKey with
        | None => continue
        | Some refAi =>
            match ic_apps cs !! di_AppKey refAi with
            | None => continue
            | Some refApp =>
                if decide (di_AppKey refAi = da_Key app) then
                  Some (NoAppDuplicates, "cannot deploy another instance of App " +:+ Marshal (da_Key app) +:+ " in the cluster")
                else if IsSideCarApp app || IsSideCarApp refApp then continue
                else if di_IsStandalone in_ && negb specified then
                  Some (StandaloneConflict, "standalone app cannot be deployed to a cluster that already has an app instance")
                else if di_IsStandalone refAi && negb specified then
                  Some (StandaloneConflict, "cluster already in use by standalone app " +:+ Marshal (da_Key refApp))
                else continue
            end
        end
  end.
(** Whether the instance fits, perhaps after scaling: the specification to scale
    with and the free resources. *)
Definition validate_resources (r : region) (pc : potentialInstCloudlet) (in_ : DInst) (app : DApp) (c : Cluster)
    (refs : ClusterRefs) (specified : bool) : validation (option KubeResScaleSpec * ResValMap) :=
  match fitsAppResources (rv_insts (rg_view r)) c refs app in_ (pp_flavorLookup pc) specified with
  | None => Panics
  | Some (ss, free, err) =>
      let ss := if IsSingleKubernetesCluster (pf_calc (pp_features pc)) then None else ss in
      match err, ss with
      | Some err, Some spec =>
          match (CloudletFitsScaledSpec GetClusterAdditionalResources (rg_view r) (pp_deps pc) false spec).2 with
          | Some _ =>
              Skip ClusterNoResources true ("cluster does not have enough resources, and cloudlet does not have enough " +:+
                "resources to scale up cluster, " +:+ err)
          | None =>
              if decide (cu_State c ≠ READY) then
                Skip ClusterNoResources true ("cluster requires scaling but is not in ready state, state is " +:+
                  TrackedState_String (cu_State c))
              else Valid (ss, free)
          end
      | Some err, None => Skip ClusterNoResources true ("not enough resources in cluster, " +:+ err)
      | None, _ => Valid (ss, free)
      end
  end.
Definition validatePotentialCluster (r : region) (in_ : PInst) (app : DApp) (pc : potentialInstCloudlet)
    (key : ClusterKey) (specified : bool) : validation potentialAppInstCluster :=
  let i := pi_Inst in_ in
  match rv_clusters (rg_view r) !! key with
  | None => Skip ClusterMissing false (NotFoundError "ClusterInst" key)
  | Some c =>
      if decide (AppInstToClusterDeployment (da_Deployment app) ≠ cu_Deployment c) then
        Skip DeploymentMismatch false ("cannot deploy " +:+ da_Deployment app +:+ " app to " +:+ cu_Deployment c +:+ " cluster")
      else if cu_MultiTenant c && negb (AllowServerless app) then
        Skip AppNotServerless true "app must be serverless to deploy to multi-tenant cluster"
      else if cu_MultiTenant c && ManagesOwnNamespaces app then
        Skip AppManagesOwnNamespace true "cannot deploy app that manages its own namespaces to a multi-tenant cluster"
      else
        match tenancy i app c specified with
        | inr (reason, logReason, err) => Skip reason logReason err
        | inl clusterType =>
            match checkMinKubernetesVersion c i with
            | Some err => Skip K8SVersionFail true ("k8s version check failed, " +:+ err)
            | None =>
                if di_EnableIpv6 i && negb (cu_EnableIpv6 c) then
                  Skip ClusterNoIPV6 true "app requested IPV6 but cluster does not support it"
                else
                  let refs := default (mkClusterRefs (cu_Key c) []) (rv_refs (rg_view r) !! cu_Key c) in
                  match (if cu_MultiTenant c then None
                         else conflicts (rv_insts (rg_view r)) i app specified (cr_Apps refs)) with
                  | Some (reason, err) => Skip reason true err
                  | None =>
                      match validate_resources r pc i app c refs specified with
                      | Panics => Panics
                      | Skip reason logReason err => Skip reason logReason err
                      | Valid (ss, free) =>
                          Valid (mkPotentialCluster key (pl_Key (pp_cloudlet pc)) pc ss clusterType specified
                                   (calcResourceScore free))
                      end
                  end
            end
        end
  end.

(** *** The order of clusters *)

Definition getPotentialClusterPref (pc : potentialAppInstCluster) : Z :=
  match clusterType pc with
  | ClusterTypeOwned => 1
  | ClusterTypeOwnedReservable => 2
  | ClusterTypeMultiTenant => 3
  | ClusterTypeFreeReservable => 4
  | ClusterTypeUnknown => 99
  end.
Definition Cloudlets_Less (a b : potentialInstCloudlet) : bool :=
  if decide (pp_resourceScore a = pp_resourceScore b) then key_less (pl_Key (pp_cloudlet a)) (pl_Key (pp_cloudlet b))
  else bool_decide (pp_resourceScore a > pp_resourceScore b).
Definition Clusters_Less (a b : potentialAppInstCluster) : bool :=
  if decide (scaleSpec a = None ∧ is_Some (scaleSpec b)) then true
  else if decide (getPotentialClusterPref a ≠ getPotentialClusterPref b) then
    bool_decide (getPotentialClusterPref a < getPotentialClusterPref b)
  else
    match scaleSpec a, scaleSpec b with
    | None, None =>
        if decide (pa_resourceScore a = pa_resourceScore b) then
          str_less (Marshal (existingCluster a)) (Marshal (existingCluster b))
        else bool_decide (pa_resourceScore a > pa_resourceScore b)
    | Some _, Some _ => Cloudlets_Less (parentPC a) (parentPC b)
    | _, _ => false
    end.

(** *** The clusters of a zone *)

Fixpoint getPotentialCloudletClusters (r : region) (in_ : PInst) (app : DApp) (pc : potentialInstCloudlet)
    (candidates : list ClusterKey) (skipReasons : SkipReasons) : option (list potentialAppInstCluster * SkipReasons) :=
  match candidates with
  | [] => Some ([], skipReasons)
  | key :: candidates' =>
      match validatePotentialCluster r in_ app pc key false with
      | Panics => None
      | Skip reason logReason _ =>
          getPotentialCloudletClusters r in_ app pc candidates'
            (if logReason then add reason skipReasons else skipReasons)
      | Valid clust =>
          '(clusts, reasons) ← getPotentialCloudletClusters r in_ app pc candidates' skipReasons;
          Some (clust :: clusts, reasons)
      end
  end.
Fixpoint clusters_of_cloudlets (r : region) (in_ : PInst) (app : DApp) (pcs : list potentialInstCloudlet)
    (skipReasons : SkipReasons) : option (list potentialAppInstCluster * SkipReasons) :=
  match pcs with
  | [] => Some ([], skipReasons)
  | pc :: pcs' =>
      match rg_refs r !! pl_Key (pp_cloudlet pc) with
      | None => clusters_of_cloudlets r in_ app pcs' skipReasons
      | Some refs =>
          '(clusts, srs) ← getPotentialCloudletClusters r in_ app pc (ClusterInsts refs) ∅;
          '(clusts', reasons) ← clusters_of_cloudlets r in_ app pcs' (addAll srs skipReasons);
          Some (clusts ++ clusts', reasons)
      end
  end.
Definition MaxPotentialClusters : nat := 5.
(** [None] is a panic, also for a given cluster without potential cloudlet. *)
Definition getPotentialClusters (r : region) (in_ : PInst) (app : DApp) (pcs : list potentialInstCloudlet) :
    option (result (list potentialAppInstCluster * SkipReasons)) :=
  let key := di_ClusterKey (pi_Inst in_) in
  if decide (clk_Name key ≠ "") then
    match pcs with
    | [] => None
    | pc :: _ =>
        match validatePotentialCluster r in_ app pc key true with
        | Panics => None
        | Skip _ _ err => Some (Err err)
        | Valid clust => Some (Ok ([clust], ∅))
        end
    end
  else
    '(clusts, reasons) ← clusters_of_cloudlets r in_ app pcs ∅;
    Some (Ok (take MaxPotentialClusters (go_sort Clusters_Less clusts), reasons)).

(** ** What passes *)

(** The tenant of the instance may use the cluster. *)
Record may_use (in_ : DInst) (app : DApp) (c : Cluster) (specified : bool) : Prop := {
  mu_multi : cu_MultiTenant c = true → AllowServerless app = true ∧ ManagesOwnNamespaces app = false;
  mu_reserved : cu_MultiTenant c = false → cu_Reservable c = true →
    cu_ReservedBy c = "" ∨ IsSideCarApp app = true ∨ cu_ReservedBy c = aik_Organization (di_Key in_);
  mu_owned : cu_MultiTenant c = false → cu_Reservable c = false →
    (IsSideCarApp app = true ∧ specified = true) ∨
    (IsSideCarApp app = false ∧ OrgName_Matches (GetAppInstOwner in_) (clk_Organization (cu_Key c)) = true ∧
     (DisableDynamicAppinstPlacement c = true → specified = true));
}.
(** The other instances on the cluster are of other apps, and without a standalone
    one unless the cluster is given. *)
Definition no_conflict (cs : inst_caches) (in_ : DInst) (app : DApp) (specified : bool) (refs : list AppInstKey) : Prop :=
  ∀ k refAi refApp, k ∈ refs → k ≠ di_Key in_ → ic_insts cs !! k = Some refAi → ic_apps cs !! di_AppKey refAi = Some refApp →
    di_AppKey refAi ≠ da_Key app ∧
    (IsSideCarApp app = false → IsSideCarApp refApp = false → specified = false →
      di_IsStandalone in_ = false ∧ di_IsStandalone refAi = false).
(** The instance fits, or does after nodes are added for which the cloudlet has room. *)
Definition has_room (r : region) (pc : potentialInstCloudlet) (in_ : DInst) (app : DApp) (c : Cluster)
    (refs : ClusterRefs) (specified : bool) : Prop :=
  ∃ ss free err, fitsAppResources (rv_insts (rg_view r)) c refs app in_ (pp_flavorLookup pc) specified = Some (ss, free, err) ∧
    (err = None ∨ IsSingleKubernetesCluster (pf_calc (pp_features pc)) = false ∧ cu_State c = READY ∧
      ∃ spec, ss = Some spec ∧
        (CloudletFitsScaledSpec GetClusterAdditionalResources (rg_view r) (pp_deps pc) false spec).2 = None).
Definition refs_of (r : region) (c : Cluster) : ClusterRefs :=
  default (mkClusterRefs (cu_Key c) []) (rv_refs (rg_view r) !! cu_Key c).
Record eligible (r : region) (in_ : PInst) (app : DApp) (pc : potentialInstCloudlet) (c : Cluster) (specified : bool) :
    Prop := {
  el_deployment : AppInstToClusterDeployment (da_Deployment app) = cu_Deployment c;
  el_tenant : may_use (pi_Inst in_) app c specified;
  el_version : checkMinKubernetesVersion c (pi_Inst in_) = None;
  el_ipv6 : di_EnableIpv6 (pi_Inst in_) = true → cu_EnableIpv6 c = true;
  el_conflict : cu_MultiTenant c = false →
    no_conflict (rv_insts (rg_view r)) (pi_Inst in_) app specified (cr_Apps (refs_of r c));
  el_room : has_room r pc (pi_Inst in_) app c (refs_of r c) specified;
}.

Lemma conflicts_None cs in_ app specified refs :
  conflicts cs in_ app specified refs = None ↔ no_conflict cs in_ app specified refs.
Proof.
  unfold no_conflict. induction refs as [|k refs IH]; simpl; [split; [set_solver|done]|].
  assert ((∀ k' refAi refApp, k' ∈ k :: refs → k' ≠ di_Key in_ → ic_insts cs !! k' = Some refAi →
      ic_apps cs !! di_AppKey refAi = Some refApp → di_AppKey refAi ≠ da_Key app ∧
      (IsSideCarApp app = false → IsSideCarApp refApp = false → specified = false →
        di_IsStandalone in_ = false ∧ di_IsStandalone refAi = false)) ↔
    (k ≠ di_Key in_ → ∀ refAi refApp, ic_insts cs !! k = Some refAi → ic_apps cs !! di_AppKey refAi = Some refApp →
      di_AppKey refAi ≠ da_Key app ∧
      (IsSideCarApp app = false → IsSideCarApp refApp = false → specified = false →
        di_IsStandalone in_ = false ∧ di_IsStandalone refAi = false)) ∧
    conflicts cs in_ app specified refs = None) as ->.
  { rewrite IH. split.
    - intros H. split; [intros Hk refAi refApp; apply H; [left|done]|]. intros k' refAi refApp Hk'. apply H. by right.
    - intros [H1 H2] k' refAi refApp [->|Hk']%elem_of_cons Hne; [by apply H1|by apply H2]. }
  case_decide; [tauto|]. destruct (ic_insts cs !! k) as [refAi|]; [|naive_solver].
  destruct (ic_apps cs !! di_AppKey refAi) as [refApp|] eqn:Ha; [|naive_solver].
  assert (∀ P : Prop, (k ≠ di_Key in_ → ∀ a b, Some refAi = Some a → ic_apps cs !! di_AppKey a = Some b →
      di_AppKey a ≠ da_Key app ∧ (IsSideCarApp app = false → IsSideCarApp b = false → specified = false →
        di_IsStandalone in_ = false ∧ di_IsStandalone a = false)) ∧ P ↔
    (di_AppKey refAi ≠ da_Key app ∧ (IsSideCarApp app = false → IsSideCarApp refApp = false → specified = false →
        di_IsStandalone in_ = false ∧ di_IsStandalone refAi = false)) ∧ P) as ->.
  { intros P. split; intros [Hx HP]; (split; [|done]); [by apply Hx|]. intros _ a b [= <-] Hb. rewrite Ha in Hb. by injection Hb as <-. }
  case_decide; [split; [done|tauto]|].
  destruct (IsSideCarApp app || IsSideCarApp refApp) eqn:Hs.
  { split; [intros Hc|tauto]. split; [|done]. split; [done|]. intros H1 H2. by rewrite H1, H2 in Hs. }
  apply orb_false_elim in Hs as [Hs1 Hs2]. rewrite Hs1, Hs2.
  destruct specified, (di_IsStandalone in_), (di_IsStandalone refAi); simpl; split; try done; intros Hc;
    try (split; [by split|done]); try (by apply Hc); by destruct Hc as [[_ Hc] _]; destruct Hc.
Qed.
Lemma tenancy_ok in_ app c specified :
  cu_MultiTenant c && negb (AllowServerless app) = false → cu_MultiTenant c && ManagesOwnNamespaces app = false →
  (∃ t, tenancy in_ app c specified = inl t) ↔ may_use in_ app c specified.
Proof.
  intros H1 H2. unfold tenancy. destruct (cu_MultiTenant c) eqn:Hm; simpl in *.
  { split; [|eauto]. intros _. apply negb_false_iff in H1. split; [done|congruence|congruence]. }
  destruct (cu_Reservable c) eqn:Hr.
  { case_decide; [split; [intros _; split; [congruence|auto|congruence]|eauto]|].
    destruct (IsSideCarApp app || bool_decide (cu_ReservedBy c = aik_Organization (di_Key in_))) eqn:Ho.
    - split; [intros _|eauto]. apply orb_prop in Ho as [?|?%bool_decide_eq_true]; split; auto; congruence.
    - apply orb_false_elim in Ho as [Hs Hb%bool_decide_eq_false]. split; [by intros [? ?]|]. intros [_ Hres _].
      destruct Hres as [?|[?|?]]; try done; congruence. }
  destruct (IsSideCarApp app) eqn:Hs.
  { destruct specified; simpl; split; try (by intros [? ?]); [intros _; split; auto; congruence|eauto|].
    intros [_ _ Hown]. destruct Hown as [[_ ?]|[? _]]; congruence. }
  destruct (OrgName_Matches _ _) eqn:Ho.
  - destruct (DisableDynamicAppinstPlacement c && negb specified) eqn:Hd.
    + apply andb_prop in Hd as [Hd Hsp%negb_true_iff]. split; [by intros [? ?]|]. intros [_ _ Hown].
      destruct Hown as [[? _]|(_ & _ & Hx)]; try congruence. rewrite Hx in Hsp; done.
    + split; [intros _|eauto]. split; try congruence. intros _ _. right. split; [done|]. split; [done|]. intros Hx.
      rewrite Hx in Hd. by destruct specified.
  - split; [by intros [? ?]|]. intros [_ _ Hown]. destruct Hown as [[? _]|(_ & ? & _)]; congruence.
Qed.
Lemma validate_resources_ok r pc in_ app c refs specified :
  (∃ x, validate_resources r pc in_ app c refs specified = Valid x) ↔ has_room r pc in_ app c refs specified.
Proof.
  unfold validate_resources, has_room. destruct (fitsAppResources _ _ _ _ _ _ _) as [[[ss free] err]|];
    [|split; [by intros [? ?]|by intros (? & ? & ? & ? & _)]].
  trans (err = None ∨ IsSingleKubernetesCluster (pf_calc (pp_features pc)) = false ∧ cu_State c = READY ∧
      ∃ spec, ss = Some spec ∧
        (CloudletFitsScaledSpec GetClusterAdditionalResources (rg_view r) (pp_deps pc) false spec).2 = None);
    [|split; [intros H; by exists ss, free, err|by intros (? & ? & ? & [= <- <- <-] & H)]].
  destruct err as [e|]; [|split; [by left|eauto]].
  destruct (IsSingleKubernetesCluster _); [split; [by intros [? ?]|by intros [?|[? _]]]|].
  destruct ss as [spec|]; [|split; [by intros [? ?]|by intros [?|(_ & _ & ? & ? & _)]]].
  destruct (CloudletFitsScaledSpec _ _ _ _ _).2 eqn:Hc.
  - split; [by intros [? ?]|]. intros [?|(_ & _ & ? & [= <-] & ?)]; [done|congruence].
  - case_decide; split; try (by intros [? ?]); [by intros [?|(_ & ? & _)]|intros _; right|eauto].
    split; [done|]. split; [done|]. by exists spec.
Qed.
Lemma validate_valid r in_ app pc key specified :
  (∃ clust, validatePotentialCluster r in_ app pc key specified = Valid clust) ↔
  ∃ c, rv_clusters (rg_view r) !! key = Some c ∧ eligible r in_ app pc c specified.
Proof.
  unfold validatePotentialCluster. destruct (rv_clusters (rg_view r) !! key) as [c|];
    [|split; [by intros [? ?]|by intros (? & ? & _)]].
  trans (eligible r in_ app pc c specified); [|split; [eauto|by intros (? & [= <-] & ?)]].
  case_decide as Hd; [split; [by intros [? ?]|by intros []]|].
  destruct (cu_MultiTenant c && negb (AllowServerless app)) eqn:H1.
  { split; [by intros [? ?]|]. intros [_ [Hm _ _] _ _ _ _]. apply andb_prop in H1 as [H1 H1'%negb_true_iff].
    destruct (Hm H1). congruence. }
  destruct (cu_MultiTenant c && ManagesOwnNamespaces app) eqn:H2.
  { split; [by intros [? ?]|]. intros [_ [Hm _ _] _ _ _ _]. apply andb_prop in H2 as [H2 H2'].
    destruct (Hm H2). congruence. }
  pose proof (tenancy_ok (pi_Inst in_) app c specified H1 H2) as Ht.
  destruct (tenancy (pi_Inst in_) app c specified) as [t|[[reason l] e]];
    [|split; [by intros [? ?]|intros [_ Hu _ _ _ _]; by apply Ht in Hu as [? ?]]].
  assert (may_use (pi_Inst in_) app c specified) as Hu by (apply Ht; eauto).
  destruct (checkMinKubernetesVersion c (pi_Inst in_)) eqn:Hv; [split; [by intros [? ?]|intros []; congruence]|].
  destruct (di_EnableIpv6 (pi_Inst in_) && negb (cu_EnableIpv6 c)) eqn:H6.
  { apply andb_prop in H6 as [H6 H6'%negb_true_iff]. split; [by intros [? ?]|]. intros []. specialize (el_ipv7 H6). congruence. }
  assert (di_EnableIpv6 (pi_Inst in_) = true → cu_EnableIpv6 c = true) as H6'.
  { intros Hx. rewrite Hx in H6. by destruct (cu_EnableIpv6 c). }
  change (default _ (rv_refs (rg_view r) !! cu_Key c)) with (refs_of r c).
  pose proof (conflicts_None (rv_insts (rg_view r)) (pi_Inst in_) app specified (cr_Apps (refs_of r c))) as Hc.
  pose proof (validate_resources_ok r pc (pi_Inst in_) app c (refs_of r c) specified) as Hr.
  destruct (if cu_MultiTenant c then None else conflicts _ _ _ _ _) as [[reason e]|] eqn:Hx.
  { split; [by intros [? ?]|]. intros []. destruct (cu_MultiTenant c); [done|]. rewrite (proj2 Hc) in Hx; naive_solver. }
  assert (cu_MultiTenant c = false → no_conflict (rv_insts (rg_view r)) (pi_Inst in_) app specified (cr_Apps (refs_of r c))) as Hc'.
  { intros Hm. rewrite Hm in Hx. by apply Hc. }
  destruct (validate_resources _ _ _ _ _ _ _) as [[ss free]|reason l e|].
  - split; [intros _|eauto]. split; try done. apply Hr. eauto.
  - split; [by intros [? ?]|]. intros []. by apply Hr in el_room0 as [? ?].
  - split; [by intros [? ?]|]. intros []. by apply Hr in el_room0 as [? ?].
Qed.
Lemma validate_fields r in_ app pc key specified x :
  validatePotentialCluster r in_ app pc key specified = Valid x → existingCluster x = key ∧ parentPC x = pc.
Proof.
  unfold validatePotentialCluster. destruct (rv_clusters (rg_view r) !! key) as [c|]; [|done].
  case_decide; [done|]. do 2 (destruct (_ && _); [done|]). destruct (tenancy _ _ _ _) as [t|[[? ?] ?]]; [|done].
  destruct (checkMinKubernetesVersion _ _); [done|]. destruct (_ && _); [done|].
  destruct (if cu_MultiTenant c then _ else _) as [[? ?]|]; [done|].
  destruct (validate_resources _ _ _ _ _ _ _) as [[ss free]| |]; [by intros [= <-]|done|done].
Qed.

(** ** The lists *)

Lemma cloudlet_clusters_spec r in_ app pc keys s clusts reasons x :
  getPotentialCloudletClusters r in_ app pc keys s = Some (clusts, reasons) →
  x ∈ clusts ↔ ∃ key, key ∈ keys ∧ validatePotentialCluster r in_ app pc key false = Valid x.
Proof.
  revert s clusts reasons. induction keys as [|key keys IH]; intros s clusts reasons H; cbn -[validatePotentialCluster] in H.
  { injection H as <- <-. set_solver. }
  assert (∀ P : ClusterKey → Prop, (∃ k, k ∈ key :: keys ∧ P k) ↔ P key ∨ ∃ k, k ∈ keys ∧ P k) as ->.
  { intros P. split; [intros (k & [->|?]%elem_of_cons & ?); eauto|]. intros [?|(k & ? & ?)]; [exists key|exists k]; split; try done;
      [left|by right]. }
  destruct (validatePotentialCluster r in_ app pc key false) as [a|reason l e|] eqn:Hv; [| |done].
  - destruct (getPotentialCloudletClusters r in_ app pc keys s) as [[cs rs]|] eqn:Hg; [|done]. injection H as <- <-.
    rewrite elem_of_cons, (IH _ _ _ Hg). split; (intros [?|?]; [left; congruence|by right]).
  - rewrite (IH _ _ _ H). split; [by right|]. by intros [?|?].
Qed.
Definition offered (r : region) (in_ : PInst) (app : DApp) (pcs : list potentialInstCloudlet)
    (x : potentialAppInstCluster) : Prop :=
  ∃ pc refs key, pc ∈ pcs ∧ rg_refs r !! pl_Key (pp_cloudlet pc) = Some refs ∧ key ∈ ClusterInsts refs ∧
    validatePotentialCluster r in_ app pc key false = Valid x.
Lemma clusters_of_cloudlets_spec r in_ app pcs s clusts reasons x :
  clusters_of_cloudlets r in_ app pcs s = Some (clusts, reasons) → x ∈ clusts ↔ offered r in_ app pcs x.
Proof.
  revert s clusts reasons. induction pcs as [|pc pcs IH]; intros s clusts reasons H; cbn -[getPotentialCloudletClusters] in H.
  { injection H as <- <-. unfold offered. set_solver. }
  assert (offered r in_ app (pc :: pcs) x ↔ (∃ refs key, rg_refs r !! pl_Key (pp_cloudlet pc) = Some refs ∧
      key ∈ ClusterInsts refs ∧ validatePotentialCluster r in_ app pc key false = Valid x) ∨ offered r in_ app pcs x) as ->.
  { unfold offered. split.
    - intros (pc' & refs & key & [->|Hin]%elem_of_cons & Hr & Hk & Hv); [left; eauto|right; eauto 10].
    - intros [(refs & key & Hr & Hk & Hv)|(pc' & refs & key & Hin & Hr & Hk & Hv)];
        [exists pc, refs, key|exists pc', refs, key]; (split; [|done]); [left|by right]. }
  destruct (rg_refs r !! pl_Key (pp_cloudlet pc)) as [refs|].
  - destruct (getPotentialCloudletClusters r in_ app pc (ClusterInsts refs) ∅) as [[cs rs]|] eqn:Hg; [|done].
    simpl in H. destruct (clusters_of_cloudlets r in_ app pcs (addAll rs s)) as [[cs' rs']|] eqn:Hc; [|done]. injection H as <- <-.
    rewrite elem_of_app, (IH _ _ _ Hc), (cloudlet_clusters_spec _ _ _ _ _ _ _ _ _ Hg).
    split; (intros [Hx|Hx]; [left|by right]); [destruct Hx as (k & ? & ?); eauto|destruct Hx as (rf & k & [= <-] & ? & ?); eauto].
  - rewrite (IH _ _ _ H). split; [by right|]. by intros [(? & ? & ? & _)|?].
Qed.

(** *** What is not told *)

Definition hidden_reasons : list string := [ClusterMissing; DeploymentMismatch; ClusterReserved; ClusterOwned].
Lemma conflict_reason cs in_ app specified refs reason e :
  conflicts cs in_ app specified refs = Some (reason, e) → reason = NoAppDuplicates ∨ reason = StandaloneConflict.
Proof.
  revert e. induction refs as [|k refs IH]; intros e; simpl; [done|]. case_decide; [apply IH|].
  destruct (ic_insts _ !! k) as [a|]; [|apply IH]. destruct (ic_apps _ !! di_AppKey a); [|apply IH].
  case_decide; [intros [= <- _]; by left|]. destruct (_ || _); [apply IH|].
  do 2 (destruct (_ && _); [intros [= <- _]; by right|]). apply IH.
Qed.
Lemma tenancy_reason in_ app c specified reason e :
  tenancy in_ app c specified = inr (reason, true, e) → reason = SidecarAppMustTargetCluster ∨ reason = NoDynamicPlacement.
Proof.
  unfold tenancy. destruct (cu_MultiTenant c); [done|]. destruct (cu_Reservable c).
  { case_decide; [done|]. by destruct (_ || _). }
  destruct (IsSideCarApp app); [destruct (negb specified); [intros [= <- _]; by left|done]|].
  destruct (OrgName_Matches _ _); [destruct (_ && _); [intros [= <- _]; by right|done]|done].
Qed.
Lemma resource_reason r pc in_ app c refs specified reason l e :
  validate_resources r pc in_ app c refs specified = Skip reason l e → reason = ClusterNoResources.
Proof.
  unfold validate_resources. destruct (fitsAppResources _ _ _ _ _ _ _) as [[[ss free] [err|]]|]; [|done|done].
  destruct (if IsSingleKubernetesCluster _ then None else ss) as [spec|]; [|by intros [= <- _]].
  destruct (CloudletFitsScaledSpec _ _ _ _ _).2; [by intros [= <- _]|]. case_decide; [by intros [= <- _]|done].
Qed.
Lemma shown_reason r in_ app pc key specified reason e :
  validatePotentialCluster r in_ app pc key specified = Skip reason true e → reason ∉ hidden_reasons.
Proof.
  intros H. enough (reason ∈ [AppNotServerless; AppManagesOwnNamespace; SidecarAppMustTargetCluster; NoDynamicPlacement;
    K8SVersionFail; ClusterNoIPV6; NoAppDuplicates; StandaloneConflict; ClusterNoResources]) as Hin.
  { clear H. intros Hh. apply (bool_decide_spec (reason ∈ hidden_reasons)) in Hh. revert Hh.
    repeat (apply elem_of_cons in Hin as [->|Hin]; [vm_compute; done|]). by apply not_elem_of_nil in Hin. }
  revert H. unfold validatePotentialCluster. destruct (rv_clusters (rg_view r) !! key) as [c|]; [|done].
  case_decide; [done|]. do 2 (destruct (_ && _); [intros [= <- _]; set_solver|]).
  destruct (tenancy _ _ _ _) as [t|[[? ?] ?]] eqn:Ht.
  2: { intros [= -> -> ->]. apply tenancy_reason in Ht as [->| ->]; set_solver. }
  destruct (checkMinKubernetesVersion _ _); [intros [= <- _]; set_solver|]. destruct (_ && _); [intros [= <- _]; set_solver|].
  destruct (if cu_MultiTenant c then _ else _) as [[? ?]|] eqn:Hx.
  { intros [= -> _]. destruct (cu_MultiTenant c); [done|]. apply conflict_reason in Hx as [->| ->]; set_solver. }
  destruct (validate_resources _ _ _ _ _ _ _) as [[ss free]|reason' l' e'|] eqn:Hr; [done| |done].
  intros [= -> -> ->]. apply resource_reason in Hr as ->. set_solver.
Qed.
Lemma elem_of_add reason reason' s : reason ∈ add reason' s → reason = reason' ∨ reason ∈ s.
Proof. unfold add. case_decide; [|by right]. rewrite elem_of_union, elem_of_singleton. done. Qed.
Lemma cloudlet_reasons r in_ app pc keys s clusts reasons :
  getPotentialCloudletClusters r in_ app pc keys s = Some (clusts, reasons) →
  (∀ x, x ∈ s → x ∉ hidden_reasons) → ∀ x, x ∈ reasons → x ∉ hidden_reasons.
Proof.
  revert s clusts reasons. induction keys as [|key keys IH]; intros s clusts reasons H Hs; cbn -[validatePotentialCluster] in H.
  { by injection H as <- <-. }
  destruct (validatePotentialCluster r in_ app pc key false) as [a|reason l e|] eqn:Hv; [| |done].
  - destruct (getPotentialCloudletClusters r in_ app pc keys s) as [[cs rs]|] eqn:Hg; [|done]. injection H as <- <-. by eapply IH.
  - eapply IH; [done|]. destruct l; [|done]. intros x [->|Hx]%elem_of_add; [by eapply shown_reason|by apply Hs].
Qed.
Lemma all_reasons r in_ app pcs s clusts reasons :
  clusters_of_cloudlets r in_ app pcs s = Some (clusts, reasons) →
  (∀ x, x ∈ s → x ∉ hidden_reasons) → ∀ x, x ∈ reasons → x ∉ hidden_reasons.
Proof.
  revert s clusts reasons. induction pcs as [|pc pcs IH]; intros s clusts reasons H Hs; cbn -[getPotentialCloudletClusters] in H.
  { by injection H as <- <-. }
  destruct (rg_refs r !! pl_Key (pp_cloudlet pc)) as [refs|]; [|by eapply IH].
  destruct (getPotentialCloudletClusters r in_ app pc (ClusterInsts refs) ∅) as [[cs rs]|] eqn:Hg; [|done].
  simpl in H. destruct (clusters_of_cloudlets r in_ app pcs (addAll rs s)) as [[cs' rs']|] eqn:Hc; [|done]. injection H as <- <-.
  eapply IH; [done|]. unfold addAll.
  assert (∀ x, x ∈ elements rs → x ∉ hidden_reasons) as Hrs.
  { intros x Hx%elem_of_elements. eapply cloudlet_reasons; [done| |done]. set_solver. }
  revert Hrs. generalize (elements rs). clear -Hs. induction l as [|y l IH]; intros Hl x Hx; simpl in Hx; [by apply Hs|].
  apply elem_of_add in Hx as [->|Hx]; [apply Hl; by left|]. apply IH; [|done]. intros z Hz. apply Hl. by right.
Qed.

(** *** Cloudlets *)

(** What holds of a cloudlet on which an instance may be placed. *)
Record site_ok (r : region) (cctx : option CallContext) (in_ : PInst) (app : DApp) (ckey : CloudletKey)
    (pc : potentialInstCloudlet) : Prop := {
  so_found : rg_cloudlets r !! ckey = Some (pp_cloudlet pc) ∧ rg_infos r !! ckey = Some (pp_info pc) ∧
    rg_features r !! pl_PlatformType (pp_cloudlet pc) = Some (pp_features pc);
  so_ready : (∀ c, cctx = Some c → ignoreCRM c = false ∧ SkipCloudletReadyCheck c = false) →
    pl_MaintenanceState (pp_cloudlet pc) = NORMAL_OPERATION ∧ pi_State (pp_info pc) = CLOUDLET_STATE_READY ∧
    pl_State (pp_cloudlet pc) ∉ [UPDATE_REQUESTED; UPDATING; UPDATE_ERROR];
  so_ip : (DedicatedIp in_ = true → SupportsAppInstDedicatedIp (pp_features pc) = true) ∧
    (di_EnableIpv6 (pi_Inst in_) = true → SupportsIpv6 (pp_features pc) = true);
  so_trust : pl_TrustPolicy (pp_cloudlet pc) ≠ "" → Trusted (da_App app) = true ∧
    ∃ policy, rg_policies r !! mkPolicyKey (ck_Organization (pl_Key (pp_cloudlet pc))) (pl_TrustPolicy (pp_cloudlet pc)) = Some policy ∧
      CheckAppCompatibleWithTrustPolicy AppKey_String PolicyKey_String (rg_trust r) (pl_Key (pp_cloudlet pc)) app policy = Some None;
  so_single : IsSingleKubernetesCluster (pf_calc (pp_features pc)) = true →
    AppDeploysToKubernetes (da_Deployment app) = true ∧
    (SingleKubernetesClusterOwner (pl_calc (pp_cloudlet pc)) = "" ∨
     OrgName_Matches (GetAppInstOwner (pi_Inst in_)) (SingleKubernetesClusterOwner (pl_calc (pp_cloudlet pc))) = true);
  so_kubernetes : SupportsKubernetesOnly (pp_features pc) = true → da_Deployment app = DeploymentTypeKubernetes;
  so_image : da_ImageType app ≠ IMAGE_TYPE_OVF ∧ da_ImageType app ≠ IMAGE_TYPE_OVA;
}.
Lemma ready_None cctx c i :
  checkCloudletReady cctx c i false = None →
  (∀ x, cctx = Some x → ignoreCRM x = false ∧ SkipCloudletReadyCheck x = false) →
  pl_MaintenanceState c = NORMAL_OPERATION ∧ pi_State i = CLOUDLET_STATE_READY ∧
  pl_State c ∉ [UPDATE_REQUESTED; UPDATING; UPDATE_ERROR].
Proof.
  intros H Hx. unfold checkCloudletReady in H.
  assert (match cctx with Some c => ignoreCRM c || SkipCloudletReadyCheck c | None => false end = false) as Hc.
  { destruct cctx as [x|]; [|done]. destruct (Hx x eq_refl) as [-> ->]. done. }
  rewrite Hc in H. simpl in H. case_decide; [done|]. case_decide; [done|]. case_decide; [done|]. case_decide; [|done].
  split; [done|]. split; [done|]. rewrite !elem_of_cons, elem_of_nil. tauto.
Qed.
Lemma validate_trust_valid r app c k pc :
  validate_trust r app c k = Valid pc → k = Valid pc ∧ (pl_TrustPolicy c ≠ "" → Trusted (da_App app) = true ∧
    ∃ policy, rg_policies r !! mkPolicyKey (ck_Organization (pl_Key c)) (pl_TrustPolicy c) = Some policy ∧
      CheckAppCompatibleWithTrustPolicy AppKey_String PolicyKey_String (rg_trust r) (pl_Key c) app policy = Some None).
Proof.
  unfold validate_trust. case_decide; [by intros ->|]. destruct (Trusted (da_App app)); [simpl|done].
  destruct (rg_policies r !! _) as [policy|]; [|done].
  destruct (CheckAppCompatibleWithTrustPolicy _ _ _ _ _ _) as [[|]|] eqn:Hc; [done| |done]. intros ->. split; [done|]. eauto.
Qed.
Lemma validate_single_valid in_ app c f k pc :
  validate_single in_ app c f k = Valid pc → k = Valid pc ∧ (IsSingleKubernetesCluster (pf_calc f) = true →
    AppDeploysToKubernetes (da_Deployment app) = true ∧ (SingleKubernetesClusterOwner (pl_calc c) = "" ∨
      OrgName_Matches (GetAppInstOwner (pi_Inst in_)) (SingleKubernetesClusterOwner (pl_calc c)) = true)).
Proof.
  unfold validate_single. destruct (IsSingleKubernetesCluster _); simpl; [|by intros ->].
  destruct (AppDeploysToKubernetes _); simpl; [|done]. case_decide as Hm; [by case_decide|]. intros ->.
  split; [done|]. intros _. split; [done|]. destruct (decide (SingleKubernetesClusterOwner (pl_calc c) = "")); [by left|right].
  destruct (OrgName_Matches _ _); [done|]. by destruct Hm.
Qed.
Lemma site_valid r cctx in_ app ckey pc :
  validatePotentialCloudlet r cctx in_ app ckey = Valid pc → site_ok r cctx in_ app ckey pc.
Proof.
  unfold validatePotentialCloudlet. destruct (rg_cloudlets r !! ckey) as [c|] eqn:Hc; [|done].
  destruct (rg_infos r !! ckey) as [i|] eqn:Hi; [|done]. destruct (checkCloudletReady cctx c i false) eqn:Hr; [done|]. simpl.
  destruct (rg_features r !! pl_PlatformType c) as [f|] eqn:Hf; [|done].
  destruct (DedicatedIp in_ && negb (SupportsAppInstDedicatedIp f)) eqn:Hd; [done|].
  destruct (di_EnableIpv6 (pi_Inst in_) && negb (SupportsIpv6 f)) eqn:H6; [done|].
  intros [[H Hsingle]%validate_single_valid Htrust]%validate_trust_valid.
  destruct (SupportsKubernetesOnly f && bool_decide (da_Deployment app ≠ DeploymentTypeKubernetes)) eqn:Hk; [done|].
  destruct (validateImageTypeForPlatform _ _ _) as [[|]|] eqn:Hm; [done| |done].
  destruct (initResCalc r f c i) as [[deps score]|]; [|done]. injection H as <-.
  split; simpl; [done|by apply ready_None| |done|done| |].
  - split; [destruct (DedicatedIp in_)|destruct (di_EnableIpv6 (pi_Inst in_))]; intros [=]; simpl in *;
      [by destruct (SupportsAppInstDedicatedIp f)|by destruct (SupportsIpv6 f)].
  - intros Hs. rewrite Hs in Hk. simpl in Hk. apply bool_decide_eq_false in Hk. by destruct (decide (da_Deployment app = DeploymentTypeKubernetes)).
  - by destruct (da_ImageType app).
Qed.
Lemma collect_cloudlets_spec validate specified keys s pcs reasons pc :
  collect_cloudlets validate specified keys s = Some (Ok (pcs, reasons)) → pc ∈ pcs →
  ∃ ckey, ckey ∈ keys ∧ validate ckey = Valid pc.
Proof.
  revert s pcs reasons. induction keys as [|k keys IH]; intros s pcs reasons H Hin; simpl in H.
  { injection H as <- <-. by apply not_elem_of_nil in Hin. }
  destruct (validate k) as [a|reason l e|] eqn:Hv; [| |done].
  - destruct (collect_cloudlets validate specified keys s) as [[[cs rs]|]|] eqn:Hc; try done. injection H as <- <-.
    apply elem_of_cons in Hin as [->|Hin]; [exists k; split; [left|done]|].
    destruct (IH _ _ _ Hc Hin) as (k' & ? & ?). exists k'. split; [by right|done].
  - destruct specified; [done|]. destruct (IH _ _ _ H Hin) as (k' & ? & ?). exists k'. split; [by right|done].
Qed.

(** Every cloudlet offered for an instance is the one of its cluster, the one it
    names or one of its zone, and may take it: it is ready unless the caller
    overrides that, has the features, the app passes its trust policy, and the
    owner of a cloudlet that is a single cluster matches. *)
Theorem potential_cloudlets_sound (r : region) (cctx : option CallContext) (in_ : PInst) (app : DApp)
    (pcs : list potentialInstCloudlet) (reasons : SkipReasons)
    (Hres : AppInst_getPotentialCloudlets r cctx in_ app = Some (Ok (pcs, reasons))) :
  ∃ keys g s, instance_candidates r in_ = Ok (keys, g, s) ∧ pcs ≠ [] ∧
    ∀ pc, pc ∈ pcs → ∃ ckey, ckey ∈ keys ∧ site_ok r cctx in_ app ckey pc.
Proof.
  unfold AppInst_getPotentialCloudlets in Hres. destruct (instance_candidates r in_) as [[[keys g] s]|] eqn:Hk; [|done].
  exists keys, g, s. split; [done|].
  destruct (collect_cloudlets _ s (go_sort key_less keys) ∅) as [[[[|p ps] rs]|]|] eqn:Hc; try done. injection Hres as <- <-.
  split; [done|]. intros pc Hin. destruct (collect_cloudlets_spec _ _ _ _ _ _ _ Hc Hin) as (ckey & Hkey & Hv).
  exists ckey. split; [by rewrite go_sort_perm in Hkey|by apply site_valid].
Qed.

(** *** Clusters *)

(** C21: a cluster passes exactly when it deploys the app, the tenant may use it, its
    version and addresses suit, no instance on it conflicts, and the instance fits
    or does after nodes are added for which its cloudlet has room. *)
Theorem validated_exact (r : region) (in_ : PInst) (app : DApp) (pc : potentialInstCloudlet) (key : ClusterKey)
    (specified : bool) :
  (∃ clust, validatePotentialCluster r in_ app pc key specified = Valid clust) ↔
  ∃ c, rv_clusters (rg_view r) !! key = Some c ∧ eligible r in_ app pc c specified.
Proof. apply validate_valid. Qed.

(** C12: without a given cluster the list has at most five clusters, each one of a
    cloudlet that is offered and eligible for the instance; with fewer than five it
    has all of them; and the reasons reported do not tell that a cluster is there
    which belongs to or is reserved by another tenant. *)
Theorem potential_clusters_sound (r : region) (in_ : PInst) (app : DApp) (pcs : list potentialInstCloudlet)
    (clusts : list potentialAppInstCluster) (reasons : SkipReasons)
    (Hname : clk_Name (di_ClusterKey (pi_Inst in_)) = "")
    (Hres : getPotentialClusters r in_ app pcs = Some (Ok (clusts, reasons))) :
  (length clusts <= 5)%nat ∧
  (∀ x, x ∈ clusts → ∃ refs c, parentPC x ∈ pcs ∧ rg_refs r !! pl_Key (pp_cloudlet (parentPC x)) = Some refs ∧
    existingCluster x ∈ ClusterInsts refs ∧ rv_clusters (rg_view r) !! existingCluster x = Some c ∧
    eligible r in_ app (parentPC x) c false) ∧
  ((length clusts < 5)%nat → ∀ pc refs key c, pc ∈ pcs → rg_refs r !! pl_Key (pp_cloudlet pc) = Some refs →
    key ∈ ClusterInsts refs → rv_clusters (rg_view r) !! key = Some c → eligible r in_ app pc c false →
    ∃ x, x ∈ clusts ∧ existingCluster x = key ∧ parentPC x = pc) ∧
  ∀ reason, reason ∈ reasons → reason ∉ hidden_reasons.
Proof.
  unfold getPotentialClusters in Hres. rewrite decide_False in Hres by auto.
  destruct (clusters_of_cloudlets r in_ app pcs ∅) as [[cs rs]|] eqn:Hc; [|done]. simpl in Hres. injection Hres as <- <-.
  set (l := go_sort Clusters_Less cs). assert (∀ x, x ∈ l ↔ offered r in_ app pcs x) as Hl.
  { intros x. unfold l. rewrite go_sort_perm. by eapply clusters_of_cloudlets_spec. }
  split; [rewrite length_take; unfold MaxPotentialClusters; lia|]. split; [|split].
  - intros x Hx. apply (subseteq_take MaxPotentialClusters), Hl in Hx as (pc & refs & key & Hpc & Hr & Hk & Hv).
    destruct (validate_fields _ _ _ _ _ _ _ Hv) as [-> ->].
    destruct (proj1 (validate_valid r in_ app pc key false) (ex_intro _ x Hv)) as (c & ? & ?). by exists refs, c.
  - intros Hlen pc refs key c Hpc Hr Hk Hcl He.
    destruct (proj2 (validate_valid r in_ app pc key false) (ex_intro _ c (conj Hcl He))) as [x Hv].
    exists x. split; [|by eapply validate_fields]. rewrite length_take in Hlen. rewrite take_ge by (unfold MaxPotentialClusters in *; lia).
    apply Hl. by exists pc, refs, key.
  - eapply all_reasons; [done|]. set_solver.
Qed.
End Placement.

Module PlacementWitness.
Import JsonRuns ProvJson ClustResWitness CloudResWitness.
#[local] Existing Instances canonical_range stable_sort.

(** Versions are numbers; a region with one cloudlet and one cluster. *)
Definition semver (s : string) : result Z := Atoi s.
Definition no_lb (_ : CloudletKey) : result Flavor := Err "no load balancer".
Definition text {A} (_ : A) : string := "key".
Definition zone : ZoneKey := mkZoneKey "op" "z" "".
Definition fs : PlatformFeatures :=
  mkFeatures (mkCalcFeatures false true) true false false false false false true true false false false false false.
Definition pcl : PCloudlet := mkPCloudlet (cloudlet quota) READY NORMAL_OPERATION false "fake" "" zone.
Definition info (st : CloudletState) : PInfo := mkPInfo st (mkCalcInfo [] [vcpus 8 20] [] []) [] [].
Definition world (st : CloudletState) (clusters : list Cluster) (insts : list DInst) : region :=
  mkRegion {[ck := pcl]} {[ck := info st]} {["fake" := fs]} {[ck := mkCloudletRefs (cu_Key <$> clusters) []]} {[zone]}
    (Trigger.mkCaches [] [] [] [] []) ∅
    (mkView (list_to_map ((λ c, (cu_Key c, c)) <$> clusters))
       (list_to_map ((λ c, (cu_Key c, mkClusterRefs (cu_Key c) (di_Key <$> insts))) <$> clusters))
       (mkInstCaches (list_to_map ((λ i, (di_Key i, i)) <$> insts)) apps)).
(** A cluster reserved by an organization, with eight vCPUs. *)
Definition reserved (name org : string) (nodes : Z) : Cluster :=
  mkCluster (mkClusterKey name "op") ck "kubernetes" READY IP_ACCESS_DEDICATED true org false false false false "" "" 1
    (mkClusterInst [node4 nodes] None).
Definition new_inst : PInst :=
  mkPInst (mkDInst (mkAppInstKey "i9" "dev") (mkAppKey "dev" "other" "1") (mkClusterKey "" "") (mkCloudletKey "" "" "") NOT_PRESENT
    (Some (mkKubernetesResources (Some ResFitsWitness.req6) None "")) None false false ∅) false zone.
Definition new_app (i : ImageType) : DApp :=
  mkDApp (mkApp (mkAppKey "dev" "other" "1") false false [] "" "helm") NO_AUTO_DELETE ACCESS_TYPE_LOAD_BALANCER false false i [].
Definition sites (r : region) (i : ImageType) : option (result (list potentialInstCloudlet * SkipReasons)) :=
  AppInst_getPotentialCloudlets no_lb no_more text text r None new_inst (new_app i).
Definition choose (r : region) : option (result (list (ClusterKey * ClusterType) * list string)) :=
  match sites r IMAGE_TYPE_HELM with
  | Some (Ok (pcs, _)) =>
      match getPotentialClusters semver Z.sub no_more r new_inst (new_app IMAGE_TYPE_HELM) pcs with
      | Some (Ok (l, reasons)) => Some (Ok ((λ x, (existingCluster x, clusterType x)) <$> l, elements reasons))
      | Some (Err e) => Some (Err e)
      | None => None
      end
  | Some (Err e) => Some (Err e)
  | None => None
  end.
Definition found (r : region) : list potentialInstCloudlet :=
  match sites r IMAGE_TYPE_HELM with Some (Ok (pcs, _)) => pcs | _ => [] end.
Definition chosen (r : region) : list potentialAppInstCluster :=
  match getPotentialClusters semver Z.sub no_more r new_inst (new_app IMAGE_TYPE_HELM) (found r) with
  | Some (Ok (l, _)) => l
  | _ => []
  end.

Lemma potential_cloudlets_sound_witness :
  ∃ keys g s, instance_candidates (world CLOUDLET_STATE_READY [] []) new_inst = Ok (keys, g, s) ∧
    found (world CLOUDLET_STATE_READY [] []) ≠ [] ∧
    ∀ pc, pc ∈ found (world CLOUDLET_STATE_READY [] []) → ∃ ckey, ckey ∈ keys ∧
      site_ok text text (world CLOUDLET_STATE_READY [] []) None new_inst (new_app IMAGE_TYPE_HELM) ckey pc.
Proof.
  refine (potential_cloudlets_sound no_lb no_more text text (world CLOUDLET_STATE_READY [] []) None new_inst
    (new_app IMAGE_TYPE_HELM) (found (world CLOUDLET_STATE_READY [] [])) ∅ _). vm_compute. reflexivity.
Defined.
(** A cluster that the organization has reserved and a free one; the one that
    another organization has reserved is left out, and no reason tells of it. *)
Definition three : region := world CLOUDLET_STATE_READY [reserved "a" "dev" 2; reserved "b" "other" 2; reserved "c" "" 2] [].
Lemma potential_clusters_sound_witness :
  choose three = Some (Ok ([(mkClusterKey "a" "op", ClusterTypeOwnedReservable);
                            (mkClusterKey "c" "op", ClusterTypeFreeReservable)], [])) ∧
  (length (chosen three) <= 5)%nat ∧
  ∀ x, x ∈ chosen three → ∃ refs c, parentPC x ∈ found three ∧ rg_refs three !! pl_Key (pp_cloudlet (parentPC x)) = Some refs ∧
    existingCluster x ∈ ClusterInsts refs ∧ rv_clusters (rg_view three) !! existingCluster x = Some c ∧
    eligible semver Z.sub no_more three new_inst (new_app IMAGE_TYPE_HELM) (parentPC x) c false.
Proof.
  split; [vm_compute; reflexivity|].
  assert (getPotentialClusters semver Z.sub no_more three new_inst (new_app IMAGE_TYPE_HELM) (found three) =
    Some (Ok (chosen three, ∅))) as H by (vm_compute; reflexivity).
  split.
  - exact (proj1 (potential_clusters_sound semver Z.sub no_more three new_inst _ _ _ _ eq_refl H)).
  - exact (proj1 (proj2 (potential_clusters_sound semver Z.sub no_more three new_inst _ _ _ _ eq_refl H))).
Defined.

(** A cluster that needs more nodes is as good as it is small: of the two orders
    each cluster comes before the other. *)
Definition pc0 : potentialInstCloudlet := mkPotentialCloudlet pcl (info CLOUDLET_STATE_READY) fs ∅ (deps quota []) 0.
Definition cand (name : string) (ss : option KubeResScaleSpec) (t : ClusterType) : potentialAppInstCluster :=
  mkPotentialCluster (mkClusterKey name "op") ck pc0 ss t false 0.
Example less_not_asymmetric :
  let scaled := cand "a" (Some (mkKubeResScaleSpec None None)) ClusterTypeOwned in
  let ready := cand "b" None ClusterTypeFreeReservable in
  Clusters_Less scaled ready = true ∧ Clusters_Less ready scaled = true.
Proof. split; vm_compute; reflexivity. Qed.
(** An app with an OVF image: the features are still nil when they are read. *)
Example ovf_panics :
  sites (world CLOUDLET_STATE_READY [] []) IMAGE_TYPE_OVF = None ∧
  sites (world CLOUDLET_STATE_INIT [] []) IMAGE_TYPE_OVF =
    Some (Err "no available edge sites in zone z, some sites were skipped because site is unavailable").
Proof. split; vm_compute; reflexivity. Qed.
End PlacementWitness.
