(* ===== verification/Reserve.v ===== *)
(** * Reserving clusters for instances (controller/appinst_api.go,
    appinst_zone.go, clusterrefs_api.go)

    The transactions of the creation and deletion of an instance, as far as they
    choose a cluster, reserve it for the organization of the instance and keep
    the references of clusters.  A transaction is a function on the three stores
    (they are serializable, [KVStore.stm_serializable]); [rs_step] is a run of
    the controllers.  [one_tenant]: as long as the undo of failed creations
    clears no reservation that is in use, the instances on a reservable cluster
    that are not being deleted, sidecars apart, belong to one organization.
    [failed_create_unreserves]: the undo does not look whether it is. *)

From S2P Require Export Placement.
#[local] Open Scope Z_scope.

Record rstate := mkRState {
  rs_clusters : gmap ClusterKey Cluster;
  rs_refs : gmap ClusterKey ClusterRefs;
  rs_insts : gmap AppInstKey DInst;
  rs_ids : gmap CloudletKey Z;               (* ReservedAutoClusterIds of the cloudlet references *)
}.
Definition put_cluster (c : Cluster) (s : rstate) : rstate :=
  mkRState (<[cu_Key c := c]> (rs_clusters s)) (rs_refs s) (rs_insts s) (rs_ids s).
Definition put_refs (r : ClusterRefs) (s : rstate) : rstate :=
  mkRState (rs_clusters s) (<[cr_Key r := r]> (rs_refs s)) (rs_insts s) (rs_ids s).
Definition del_refs (k : ClusterKey) (s : rstate) : rstate :=
  mkRState (rs_clusters s) (delete k (rs_refs s)) (rs_insts s) (rs_ids s).
Definition put_inst (i : DInst) (s : rstate) : rstate :=
  mkRState (rs_clusters s) (rs_refs s) (<[di_Key i := i]> (rs_insts s)) (rs_ids s).
Definition del_inst (k : AppInstKey) (s : rstate) : rstate :=
  mkRState (rs_clusters s) (rs_refs s) (delete k (rs_insts s)) (rs_ids s).
Definition put_ids (k : CloudletKey) (ids : Z) (s : rstate) : rstate :=
  mkRState (rs_clusters s) (rs_refs s) (rs_insts s) (<[k := ids]> (rs_ids s)).
Definition set_ReservedBy (org : string) (c : Cluster) : Cluster :=
  mkCluster (cu_Key c) (cu_CloudletKey c) (cu_Deployment c) (cu_State c) (cu_IpAccess c) (cu_Reservable c) org
    (cu_MultiTenant c) (cu_DeletePrepare c) (cu_EnableIpv6 c) (DisableDynamicAppinstPlacement c) (KubernetesVersion c)
    (MasterNodeFlavor c) (NumMasters c) (cu_Resources c).
Definition set_place (ck : ClusterKey) (lk : CloudletKey) (ipv6 : bool) (i : DInst) : DInst :=
  mkDInst (di_Key i) (di_AppKey i) ck lk (di_State i) (di_KubernetesResources i) (di_NodeResources i) ipv6
    (di_IsStandalone i) (di_Annotations i).
Definition set_State (st : TrackedState) (i : DInst) : DInst :=
  mkDInst (di_Key i) (di_AppKey i) (di_ClusterKey i) (di_CloudletKey i) st (di_KubernetesResources i)
    (di_NodeResources i) (di_EnableIpv6 i) (di_IsStandalone i) (di_Annotations i).

Section Reserve.
Context {GR : GoRange} {GS : GoSort}
  `{JIK : !Json AppInstKey, JAK : !Json AppKey, JCK : !Json ClusterKey}.
(** The applications; they stay what they are. *)
Context (apps : gmap AppKey DApp).

(** ** References (clusterrefs_api.go) *)

Definition addRef (appInst : DInst) (s : rstate) : rstate :=
  let key := di_ClusterKey appInst in
  let refs := default (mkClusterRefs key []) (rs_refs s !! key) in
  if decide (di_Key appInst ∈ cr_Apps refs) then s
  else put_refs (mkClusterRefs (cr_Key refs) (cr_Apps refs ++ [di_Key appInst])) s.
Definition removeRef (appInst : DInst) (s : rstate) : rstate :=
  let key := di_ClusterKey appInst in
  match rs_refs s !! key with
  | None => s
  | Some refs =>
      if decide (di_Key appInst ∉ cr_Apps refs) then s
      else
        let refs' := refs_remove (di_Key appInst) (cr_Apps refs) in
        if decide (refs' = []) then del_refs key s else put_refs (mkClusterRefs (cr_Key refs) refs') s
  end.
Definition canReleaseReservation (appInst : DInst) (s : rstate) : bool :=
  match rs_refs s !! di_ClusterKey appInst with
  | None => true
  | Some refs =>
      forallb (λ aikey, bool_decide (aikey = di_Key appInst) ||
        bool_decide (aik_Organization aikey ≠ aik_Organization (di_Key appInst))) (cr_Apps refs)
  end.

(** ** Using a cluster (appinst_api.go, appinst_zone.go) *)

Definition useReservableClusterInst (in_ : DInst) (app : DApp) (sidecarApp : bool) (c : Cluster) (s : rstate) :
    result (rstate * Cluster) :=
  if negb (cu_Reservable c) then Err "ClusterInst not reservable"
  else if sidecarApp then Ok (s, c)
  else if decide (cu_ReservedBy c ≠ "" ∧ cu_ReservedBy c ≠ aik_Organization (di_Key in_)) then
    Err "ClusterInst already reserved"
  else if decide (AppInstToClusterDeployment (da_Deployment app) ≠ cu_Deployment c) then
    Err "deployment type mismatch between App and reservable ClusterInst"
  else if di_EnableIpv6 in_ && negb (cu_EnableIpv6 c) then
    Err "AppInst requests for IPv6 but cluster does not have it enabled"
  else
    let c := set_ReservedBy (aik_Organization (di_Key in_)) c in
    Ok (put_cluster c s, c).
(** The branch for sidecars is empty in the code. *)
Definition useMultiTenantClusterInst (in_ : DInst) (app : DApp) (c : Cluster) : option error :=
  if negb (cu_MultiTenant c) then Some "ClusterInst not multi-tenant"
  else if negb (AllowServerless app) then
    Some ("App must allow serverless deployment to deploy to multi-tenant cluster " +:+ clk_Name (cu_Key c))
  else if decide (da_Deployment app ≠ DeploymentTypeKubernetes) then
    Some "Deployment type must be kubernetes for multi-tenant ClusterInst"
  else if di_EnableIpv6 in_ && negb (cu_EnableIpv6 c) then
    Some "AppInst requests for IPv6 but cluster does not have it enabled"
  else None.
Definition usePotentialCluster (in_ : DInst) (app : DApp) (sidecarApp : bool) (key : ClusterKey) (s : rstate) :
    result (rstate * Cluster) :=
  match rs_clusters s !! key with
  | None => Err (NotFoundError "ClusterInst" key)
  | Some c =>
      if cu_DeletePrepare c then Err (BeingDeletedError "ClusterInst" key)
      else if cu_MultiTenant c then
        match useMultiTenantClusterInst in_ app c with Some err => Err err | None => Ok (s, c) end
      else if cu_Reservable c then useReservableClusterInst in_ app sidecarApp c s
      else if negb sidecarApp && negb (OrgName_Matches (GetAppInstOwner in_) (clk_Organization (cu_Key c))) then
        Err ("developer organization mismatch between AppInst: " +:+ GetAppInstOwner in_ +:+ " and ClusterInst: " +:+
             clk_Organization (cu_Key c))
      else Ok (s, c)
  end.
(** The instances on the cluster come from the caches [cs]. *)
Definition potentialClusterResourceCheck (cs : inst_caches) (in_ : DInst) (app : DApp) (c : Cluster)
    (flavorLookup : FlavorLookup) (specified : bool) (s : rstate) : check :=
  let refs := default (mkClusterRefs (cu_Key c) []) (rs_refs s !! cu_Key c) in
  match fitsAppResources cs c refs app in_ flavorLookup specified with
  | None => None
  | Some (_, _, Some err) => fail ("not enough resources in cluster " +:+ Marshal (cu_Key c) +:+ ", " +:+ err)
  | Some (_, _, None) => Some None
  end.

(** ** Choosing a cluster *)

(** The loop of the creation; what a cluster that is passed over has put in the
    transaction stays there. *)
Fixpoint try_clusters (cs : inst_caches) (in_ : DInst) (app : DApp) (specified : bool)
    (pcs : list potentialAppInstCluster) (s : rstate) :
    option (result (rstate * option (potentialAppInstCluster * Cluster))) :=
  match pcs with
  | [] => Some (Ok (s, None))
  | pc :: pcs' =>
      match usePotentialCluster in_ app (IsSideCarApp app) (existingCluster pc) s with
      | Err err => if clusterSpecified pc then Some (Err err) else try_clusters cs in_ app specified pcs' s
      | Ok (s, c) =>
          match scaleSpec pc with
          | Some _ => Some (Ok (s, Some (pc, c)))
          | None =>
              match potentialClusterResourceCheck cs in_ app c (pp_flavorLookup (parentPC pc)) specified s with
              | None => None
              | Some None => Some (Ok (s, Some (pc, c)))
              | Some (Some err) => if clusterSpecified pc then Some (Err err) else try_clusters cs in_ app specified pcs' s
              end
          end
      end
  end.
Definition MaxAutoClusters : nat := 64.
Definition ReservableClusterPrefix : string := "reservable".
Definition BuildReservableClusterName (id : nat) (cloudletKey : CloudletKey) : string :=
  ReservableClusterPrefix +:+ fmt_d (Z.of_nat id) +:+ "-" +:+ GetCloudletKeyHash cloudletKey.
Definition free_id (ids : Z) : option nat :=
  snd <$> list_find (λ id, Z.testbit ids (Z.of_nat id) = false) (seq 0 MaxAutoClusters).
(** Another instance of the app on the cluster. *)
Definition same_app (in_ : DInst) (s : rstate) : bool :=
  match rs_refs s !! di_ClusterKey in_ with
  | None => false
  | Some refs =>
      existsb (λ aiKey, bool_decide (aiKey ≠ di_Key in_) &&
        match rs_insts s !! aiKey with Some ai => bool_decide (di_AppKey ai = di_AppKey in_) | None => false end)
        (cr_Apps refs)
  end.
(** What the creation remembers: the instance as stored, the reserved cluster and
    the id of the new one. *)
Record created := mkCreated { cd_inst : DInst; reservedCluster : option ClusterKey; reservedAutoClusterId : option nat }.

(** ** The transactions *)

(** Whether the caller names a cluster. *)
Definition cluster_specified (in_ : DInst) : result bool :=
  let ck := di_ClusterKey in_ in
  if decide (clk_Name ck ≠ "" ∨ clk_Organization ck ≠ "") then
    if decide (clk_Organization ck = "") then Err "cluster organization must also be specified with cluster name"
    else if decide (clk_Name ck = "") then Err "cluster name must also be specified with cluster organization"
    else Ok true
  else Ok false.
(** The instance that is stored may be replaced: in an undo, when the caller
    overrides transient states, and after a failed deletion. *)
Definition may_replace (replace : bool) (stored : option DInst) : bool :=
  match stored with Some i => replace || bool_decide (di_State i = DELETE_ERROR) | None => true end.
(** The instance goes to the cluster that was chosen. *)
Definition use_chosen (pc : potentialAppInstCluster) (c : Cluster) (in_ : DInst) : created :=
  mkCreated (set_place (existingCluster pc) (pa_cloudletKey pc) (cu_EnableIpv6 c) in_)
    (if negb (cu_MultiTenant c) && cu_Reservable c then Some (cu_Key c) else None) None.
(** ... or to a new one; [platformSupportsIPV6] is never set. *)
Definition new_cluster (lk : CloudletKey) (in_ : DInst) (s : rstate) : result (rstate * created) :=
  let ids := default 0 (rs_ids s !! lk) in
  match free_id ids with
  | None => Err "Requested new reservable autocluster but maximum number reached"
  | Some id =>
      let key := mkClusterKey (BuildReservableClusterName id lk) OrganizationEdgeCloud in
      Ok (put_ids lk (Z.setbit ids (Z.of_nat id)) s, mkCreated (set_place key lk false in_) None (Some id))
  end.
Definition finish_create (r : created) (s : rstate) : result (rstate * created) :=
  if same_app (cd_inst r) s then
    Err ("cannot deploy another instance of App " +:+ Marshal (di_AppKey (cd_inst r)) +:+ " to the target cluster")
  else
    let i := set_State CREATING_DEPENDENCIES (cd_inst r) in
    Ok (addRef i (put_inst i s), mkCreated i (reservedCluster r) (reservedAutoClusterId r)).
(** The creation of an instance of an app that needs a cluster, given the potential
    clusters and the cloudlet for a new cluster; without the checks of the other
    fields of the instance, of the cloudlet and of the policies, which only refuse. *)
Definition create_txn (cs : inst_caches) (replace : bool) (in_ : DInst) (pcs : list potentialAppInstCluster)
    (cloudlet : option CloudletKey) (s : rstate) : option (result (rstate * created)) :=
  match cluster_specified in_, apps !! di_AppKey in_ with
  | Err e, _ => Some (Err e)
  | _, None => Some (Err (NotFoundError "App" (di_AppKey in_)))
  | Ok specified, Some app =>
      if app_DeletePrepare (da_App app) then Some (Err (BeingDeletedError "App" (di_AppKey in_)))
      else if IsSideCarApp app && negb specified then
        Some (Err "Sidecar AppInst (AutoDelete App) must specify the Cluster name and organization to deploy to")
      else if negb (may_replace replace (rs_insts s !! di_Key in_)) then Some (Err (ExistsError "AppInst" (di_Key in_)))
      else
        let in_ := default in_ (rs_insts s !! di_Key in_) in
        match try_clusters cs in_ app specified pcs s with
        | None => None
        | Some (Err e) => Some (Err e)
        | Some (Ok (s, Some (pc, c))) => Some (finish_create (use_chosen pc c in_) s)
        | Some (Ok (s, None)) =>
            match (if decide (ck_Name (di_CloudletKey in_) = "") then cloudlet else Some (di_CloudletKey in_)) with
            | None => Some (Err "no resources available for deployment")
            | Some lk =>
                Some (match new_cluster lk in_ s with Err e => Err e | Ok (s, r) => finish_create r s end)
            end
        end
  end.
(** The undo of a creation that failed after its first transaction. *)
Definition undo_txn (r : created) (s : rstate) : rstate :=
  let in_ := cd_inst r in
  let s :=
    match rs_insts s !! di_Key in_ with
    | Some curr =>
        if decide (di_State curr = CREATING_DEPENDENCIES) then removeRef in_ (del_inst (di_Key in_) s) else s
    | None => s
    end in
  let s :=
    match reservedAutoClusterId r, rs_ids s !! di_CloudletKey in_ with
    | Some id, Some ids => put_ids (di_CloudletKey in_) (Z.clearbit ids (Z.of_nat id)) s
    | _, _ => s
    end in
  match reservedCluster r with
  | None => s
  | Some key =>
      match rs_clusters s !! key with
      | Some c => put_cluster (set_ReservedBy "" c) s
      | None => s
      end
  end.
(** The deletion of an instance; [ignoreCRM]: without waiting for the platform. *)
Definition delete_txn (ignoreCRM : bool) (key : AppInstKey) (s : rstate) : result rstate :=
  match rs_insts s !! key with
  | None => Err (NotFoundError "AppInst" key)
  | Some in_ =>
      match rs_clusters s !! di_ClusterKey in_ with
      | None => Err ("For AppInst, " +:+ NotFoundError "ClusterInst" (di_ClusterKey in_))
      | Some c =>
          let s :=
            if bool_decide (cu_ReservedBy c ≠ "") && bool_decide (cu_ReservedBy c = aik_Organization (di_Key in_)) &&
               canReleaseReservation in_ s then put_cluster (set_ReservedBy "" c) s
            else s in
          Ok (if ignoreCRM then removeRef in_ (del_inst key s) else put_inst (set_State DELETE_REQUESTED in_) s)
      end
  end.
(** [DeleteFromInfo]: the platform has deleted the instance. *)
Definition DeleteFromInfo (key : AppInstKey) (s : rstate) : rstate :=
  match rs_insts s !! key with
  | None => s
  | Some inst =>
      if decide (di_State inst ≠ DELETING ∧ di_State inst ≠ DELETE_REQUESTED ∧ di_State inst ≠ DELETE_DONE) then s
      else removeRef inst (del_inst key s)
  end.

(** ** Runs *)

(** An instance that is not being deleted, of an app that is not a sidecar. *)
Definition live (i : DInst) : Prop :=
  di_State i ∉ [DELETE_REQUESTED; DELETING; DELETE_ERROR; DELETE_PREPARE; DELETE_DONE; NOT_PRESENT].
Definition tenant (i : DInst) : Prop := ∀ app, apps !! di_AppKey i = Some app → IsSideCarApp app = false.
Definition refs_at (s : rstate) (ck : ClusterKey) : list AppInstKey :=
  match rs_refs s !! ck with Some r => cr_Apps r | None => [] end.
(** The live instances of tenants on the cluster [ck] belong to [org]. *)
Definition all_of (org : string) (ck : ClusterKey) (s : rstate) : Prop :=
  ∀ k i, rs_insts s !! k = Some i → di_ClusterKey i = ck → tenant i → live i → aik_Organization k = org.
Definition shared_by_none (ck : ClusterKey) (s : rstate) : Prop :=
  ∀ k i, rs_insts s !! k = Some i → di_ClusterKey i = ck → tenant i → ¬ live i.

(** A step of the controllers or of the platforms.  A creation over an instance
    that is there is for the same app; a new cluster may have
    instances of its organization, as a cluster created for an instance has; an
    instance that is being deleted comes back only by a new creation.  A failed
    creation clears a reservation only when no instance needs it. *)
Inductive rs_step (s : rstate) : rstate → Prop :=
| st_create cs replace in_ pcs cloudlet s' r :
    aik_Organization (di_Key in_) ≠ "" →
    (∀ i, rs_insts s !! di_Key in_ = Some i → di_AppKey i = di_AppKey in_) →
    create_txn cs replace in_ pcs cloudlet s = Some (Ok (s', r)) →
    (reservedAutoClusterId r ≠ None → rs_clusters s !! di_ClusterKey (cd_inst r) = None) →
    rs_step s s'
| st_undo r :
    (∀ key, reservedCluster r = Some key → shared_by_none key (undo_txn r s)) → rs_step s (undo_txn r s)
| st_delete ignoreCRM key s' : delete_txn ignoreCRM key s = Ok s' → rs_step s s'
| st_deleted key : rs_step s (DeleteFromInfo key s)
| st_state k i st :
    rs_insts s !! k = Some i → (live (set_State st i) → live i) → rs_step s (put_inst (set_State st i) s)
| st_new_cluster c :
    rs_clusters s !! cu_Key c = None → all_of (cu_ReservedBy c) (cu_Key c) s → rs_step s (put_cluster c s)
| st_update_cluster c c' :
    rs_clusters s !! cu_Key c = Some c → cu_Key c' = cu_Key c → cu_Reservable c' = cu_Reservable c →
    cu_MultiTenant c' = cu_MultiTenant c → cu_ReservedBy c' = cu_ReservedBy c → rs_step s (put_cluster c' s)
| st_del_cluster k :
    rs_step s (mkRState (delete k (rs_clusters s)) (rs_refs s) (rs_insts s) (rs_ids s)).

(** ** The invariant *)

Definition one_org (c : Cluster) (s : rstate) : Prop :=
  cu_Reservable c = true → cu_MultiTenant c = false → all_of (cu_ReservedBy c) (cu_Key c) s.
Record rs_inv (s : rstate) : Prop := {
  ri_cluster k c : rs_clusters s !! k = Some c → cu_Key c = k;
  ri_ref k r : rs_refs s !! k = Some r → cr_Key r = k;
  ri_inst k i : rs_insts s !! k = Some i → di_Key i = k ∧ aik_Organization k ≠ "";
  ri_refs k i : rs_insts s !! k = Some i → k ∈ refs_at s (di_ClusterKey i);
  ri_tenant k c : rs_clusters s !! k = Some c → one_org c s;
}.

Lemma elem_of_refs_remove k key refs : k ≠ key → k ∈ refs_remove key refs ↔ k ∈ refs.
Proof.
  intros Hne. induction refs as [|key' refs IH]; simpl; [done|]. case_decide as Hk.
  - subst. rewrite elem_of_cons. split; [by right|by intros [?|?]].
  - by rewrite !elem_of_cons, IH.
Qed.
Lemma addRef_keep i s :
  rs_clusters (addRef i s) = rs_clusters s ∧ rs_insts (addRef i s) = rs_insts s.
Proof. unfold addRef. by case_decide. Qed.
Lemma addRef_refs i s k ck :
  (∀ k r, rs_refs s !! k = Some r → cr_Key r = k) →
  (∀ k r, rs_refs (addRef i s) !! k = Some r → cr_Key r = k) ∧
  (k ∈ refs_at (addRef i s) ck ↔ k ∈ refs_at s ck ∨ ck = di_ClusterKey i ∧ k = di_Key i).
Proof.
  intros Hkey. unfold addRef, refs_at.
  assert (cr_Key (default (mkClusterRefs (di_ClusterKey i) []) (rs_refs s !! di_ClusterKey i)) = di_ClusterKey i) as Hck.
  { destruct (rs_refs s !! di_ClusterKey i) as [r|] eqn:Hr; [by apply Hkey|done]. }
  case_decide as Hin.
  - split; [done|]. split; [by left|]. intros [?|[-> ->]]; [done|]. by destruct (rs_refs s !! di_ClusterKey i).
  - simpl. rewrite Hck. split.
    + intros k' r. destruct (decide (k' = di_ClusterKey i)) as [->|]; [rewrite lookup_insert_eq; by intros [= <-]|].
      rewrite lookup_insert_ne by done. apply Hkey.
    + destruct (decide (ck = di_ClusterKey i)) as [->|]; [|rewrite lookup_insert_ne by done; tauto].
      rewrite lookup_insert_eq. simpl. rewrite elem_of_app, list_elem_of_singleton.
      destruct (rs_refs s !! di_ClusterKey i); simpl; tauto.
Qed.
Lemma removeRef_keep i s :
  rs_clusters (removeRef i s) = rs_clusters s ∧ rs_insts (removeRef i s) = rs_insts s.
Proof. unfold removeRef. destruct (rs_refs s !! _); [|done]. case_decide; [done|]. by case_decide. Qed.
Lemma removeRef_refs i s k ck :
  (∀ k r, rs_refs s !! k = Some r → cr_Key r = k) →
  (∀ k r, rs_refs (removeRef i s) !! k = Some r → cr_Key r = k) ∧
  (k ≠ di_Key i → k ∈ refs_at s ck → k ∈ refs_at (removeRef i s) ck).
Proof.
  intros Hkey. unfold removeRef. destruct (rs_refs s !! di_ClusterKey i) as [refs|] eqn:Hr; [|done].
  case_decide; [done|]. rewrite (Hkey _ _ Hr). case_decide as He; simpl.
  - split; [intros k' r [_ ?]%lookup_delete_Some; by apply Hkey|]. intros Hne Hk. unfold refs_at in *. simpl.
    destruct (decide (ck = di_ClusterKey i)) as [->|]; [|by rewrite lookup_delete_ne].
    rewrite Hr in Hk. apply (elem_of_refs_remove _ _ _ Hne) in Hk. rewrite He in Hk. by apply not_elem_of_nil in Hk.
  - split.
    + intros k' r. destruct (decide (k' = di_ClusterKey i)) as [->|]; [rewrite lookup_insert_eq; by intros [= <-]|].
      rewrite lookup_insert_ne by done. apply Hkey.
    + intros Hne Hk. unfold refs_at in *. simpl.
      destruct (decide (ck = di_ClusterKey i)) as [->|]; [|by rewrite lookup_insert_ne]. rewrite lookup_insert_eq. simpl.
      rewrite Hr in Hk. by apply elem_of_refs_remove.
Qed.

(** *** Reserving and choosing *)

(** What choosing leaves alone, and that a chosen cluster is reserved. *)
Definition same_rest (s s' : rstate) : Prop :=
  rs_refs s' = rs_refs s ∧ rs_insts s' = rs_insts s ∧
  ∀ ck, rs_clusters s !! ck = None ↔ rs_clusters s' !! ck = None.
Definition held (in_ : DInst) (app : DApp) (c : Cluster) : Prop :=
  IsSideCarApp app = false → cu_Reservable c = true → cu_MultiTenant c = false →
  cu_ReservedBy c = aik_Organization (di_Key in_).
Lemma put_cluster_inv c s :
  rs_inv s → one_org c s → rs_inv (put_cluster c s).
Proof.
  intros [Hc Hr Hi Hf Ht] Ho. split; simpl; [| exact Hr | exact Hi | exact Hf |].
  - intros k c' [[<- <-]|[_ ?]]%lookup_insert_Some; [done|by apply Hc].
  - intros k c' [[_ <-]|[_ ?]]%lookup_insert_Some; [done|by eapply Ht].
Qed.
Lemma use_inv in_ app key s s' c :
  rs_inv s → usePotentialCluster in_ app (IsSideCarApp app) key s = Ok (s', c) →
  rs_inv s' ∧ same_rest s s' ∧ rs_clusters s' !! key = Some c ∧ held in_ app c.
Proof.
  intros Hinv H. unfold usePotentialCluster in H. destruct (rs_clusters s !! key) as [c0|] eqn:Hc; [|done].
  pose proof (ri_cluster s Hinv key c0 Hc) as Hkey. destruct (cu_DeletePrepare c0); [done|].
  destruct (cu_MultiTenant c0) eqn:Hm.
  { destruct (useMultiTenantClusterInst in_ app c0); [done|]. injection H as <- <-. split; [done|]. split; [done|].
    split; [done|]. intros _ _. congruence. }
  destruct (cu_Reservable c0) eqn:Hres.
  2: { destruct (_ && _); [done|]. injection H as <- <-. split; [done|]. split; [done|]. split; [done|]. intros _. congruence. }
  unfold useReservableClusterInst in H. rewrite Hres in H. simpl in H.
  destruct (IsSideCarApp app) eqn:Hs; [injection H as <- <-; split; [done|]; split; [done|]; split; [done|]; intros ?; congruence|].
  case_decide as Hby; [done|]. case_decide; [done|]. destruct (_ && _); [done|]. injection H as <- <-.
  split; [|split; [|split; [simpl; rewrite Hkey; by rewrite lookup_insert_eq|done]]].
  - apply put_cluster_inv; [done|]. intros _ _ k i Hi Hck Ht Hl. simpl in *.
    pose proof (ri_tenant s Hinv key c0 Hc Hres Hm k i Hi Hck Ht Hl) as Ho. destruct (ri_inst s Hinv k i Hi) as [_ Hne].
    destruct (decide (cu_ReservedBy c0 = "")); [congruence|]. destruct (decide (cu_ReservedBy c0 = aik_Organization (di_Key in_))); [congruence|tauto].
  - split; [done|]. split; [done|]. intros ck. simpl. rewrite Hkey.
    destruct (decide (ck = key)) as [->|]; [by rewrite Hc, lookup_insert_eq|by rewrite lookup_insert_ne].
Qed.
Lemma same_rest_trans s1 s2 s3 : same_rest s1 s2 → same_rest s2 s3 → same_rest s1 s3.
Proof. intros (? & ? & H1) (? & ? & H2). split; [congruence|]. split; [congruence|]. intros ck. by rewrite H1, H2. Qed.
Lemma try_inv cs in_ app specified pcs s s' chosen :
  rs_inv s → try_clusters cs in_ app specified pcs s = Some (Ok (s', chosen)) →
  rs_inv s' ∧ same_rest s s' ∧
  ∀ pc c, chosen = Some (pc, c) → rs_clusters s' !! existingCluster pc = Some c ∧ held in_ app c.
Proof.
  revert s. induction pcs as [|pc pcs IH]; intros s Hinv H; simpl in H; [by injection H as <- <-|].
  destruct (usePotentialCluster in_ app (IsSideCarApp app) (existingCluster pc) s) as [[s1 c]|e] eqn:Hu.
  2: { destruct (clusterSpecified pc); [done|by apply IH]. }
  apply use_inv in Hu as (Hinv1 & Hs1 & Hc & Hh); [|done].
  assert (∀ x, Some (Ok (s1, Some (pc, c))) = Some (Ok x) → x = (s', chosen) → rs_inv s' ∧ same_rest s s' ∧
    ∀ pc c, chosen = Some (pc, c) → rs_clusters s' !! existingCluster pc = Some c ∧ held in_ app c) as Hdone.
  { intros x [= <-] [= <- <-]. split; [done|]. split; [done|]. by intros ? ? [= <- <-]. }
  destruct (scaleSpec pc); [by eapply Hdone; [|by injection H]|].
  destruct (potentialClusterResourceCheck _ _ _ _ _ _ _) as [[e|]|]; [|by eapply Hdone; [|by injection H]|done].
  destruct (clusterSpecified pc); [done|]. apply IH in H as (? & Hs & ?); [|done]. split; [done|].
  split; [by eapply same_rest_trans|done].
Qed.
(** An instance that is put on a cluster that is held for it. *)
Lemma place_inv i s :
  rs_inv s → aik_Organization (di_Key i) ≠ "" →
  (∀ c, rs_clusters s !! di_ClusterKey i = Some c → cu_Reservable c = true → cu_MultiTenant c = false →
    tenant i → aik_Organization (di_Key i) = cu_ReservedBy c) →
  rs_inv (addRef i (put_inst i s)).
Proof.
  intros [Hc Hr Hi Hf Ht] Hne Hown. destruct (addRef_keep i (put_inst i s)) as [Hcl Hin]. simpl in Hcl, Hin.
  assert (∀ k ck, (∀ k r, rs_refs (addRef i (put_inst i s)) !! k = Some r → cr_Key r = k) ∧
    (k ∈ refs_at (addRef i (put_inst i s)) ck ↔ k ∈ refs_at s ck ∨ ck = di_ClusterKey i ∧ k = di_Key i)) as Hrefs.
  { intros k ck. by apply (addRef_refs i (put_inst i s)). }
  split; rewrite ?Hcl, ?Hin.
  - done.
  - apply (Hrefs (di_Key i) (di_ClusterKey i)).
  - intros k i' [[<- <-]|[_ ?]]%lookup_insert_Some; [done|by apply Hi].
  - intros k i' [[<- <-]|[_ ?]]%lookup_insert_Some; apply Hrefs; [by right|left; by apply Hf].
  - intros ck c Hck Hres Hm k i'. rewrite Hin. intros [[<- <-]|[_ Hi']]%lookup_insert_Some Hkey Hten Hl.
    + apply Hown; [|done..]. rewrite <-(Hc _ _ Hck), <-Hkey in Hck. done.
    + by eapply Ht.
Qed.

(** *** Transactions *)

Lemma put_ids_inv k ids s : rs_inv s → rs_inv (put_ids k ids s).
Proof. by intros []. Qed.
Lemma finish_inv r s s' r' :
  rs_inv s → aik_Organization (di_Key (cd_inst r)) ≠ "" →
  (∀ c, rs_clusters s !! di_ClusterKey (cd_inst r) = Some c → cu_Reservable c = true → cu_MultiTenant c = false →
    tenant (cd_inst r) → aik_Organization (di_Key (cd_inst r)) = cu_ReservedBy c) →
  finish_create r s = Ok (s', r') → rs_inv s'.
Proof.
  intros Hinv Hne Hown H. unfold finish_create in H. destruct (same_app (cd_inst r) s); [done|]. injection H as <- <-.
  by apply place_inv.
Qed.
Lemma finish_keeps r s s' r' :
  finish_create r s = Ok (s', r') →
  di_ClusterKey (cd_inst r') = di_ClusterKey (cd_inst r) ∧ reservedAutoClusterId r' = reservedAutoClusterId r.
Proof. unfold finish_create. destruct (same_app (cd_inst r) s); [done|]. by intros [= <- <-]. Qed.
Lemma create_inv cs replace in_ pcs cloudlet s s' r :
  rs_inv s → aik_Organization (di_Key in_) ≠ "" →
  (∀ i, rs_insts s !! di_Key in_ = Some i → di_AppKey i = di_AppKey in_) →
  create_txn cs replace in_ pcs cloudlet s = Some (Ok (s', r)) →
  (reservedAutoClusterId r ≠ None → rs_clusters s !! di_ClusterKey (cd_inst r) = None) → rs_inv s'.
Proof.
  intros Hinv Horg Happ H Hauto. unfold create_txn in H. destruct (cluster_specified in_) as [specified|]; [|done].
  destruct (apps !! di_AppKey in_) as [app|] eqn:Ha; [|done]. destruct (app_DeletePrepare _); [done|].
  destruct (_ && _); [done|]. destruct (negb (may_replace _ _)); [done|].
  set (i0 := default in_ (rs_insts s !! di_Key in_)) in *.
  assert (di_Key i0 = di_Key in_ ∧ di_AppKey i0 = di_AppKey in_) as [Hk0 Ha0].
  { unfold i0. destruct (rs_insts s !! di_Key in_) as [i|] eqn:Hi; [|done]. split; [by apply (ri_inst s Hinv)|by apply Happ]. }
  destruct (try_clusters cs i0 app specified pcs s) as [[[s1 chosen]|]|] eqn:Ht; try done.
  apply try_inv in Ht as (Hinv1 & (Hr1 & Hi1 & Hc1) & Hch); [|done]. destruct chosen as [[pc c]|].
  - destruct (Hch pc c eq_refl) as [Hc Hheld]. apply (finish_inv (use_chosen pc c i0) s1 s' r); [done|simpl; congruence| |congruence].
    simpl. intros c' Hc'. rewrite Hc in Hc'. injection Hc' as <-.
    intros Hres Hm Hten. rewrite (Hheld (Hten app ltac:(simpl; congruence)) Hres Hm). done.
  - destruct (if decide (ck_Name (di_CloudletKey i0) = "") then cloudlet else _) as [lk|]; [|done].
    unfold new_cluster in H. destruct (free_id _) as [id|]; [|done].
    pose proof (finish_keeps _ _ _ _ ltac:(injection H; intros E; exact E)) as [Hplace Hid].
    eapply finish_inv; [by apply put_ids_inv|shelve|shelve|injection H; intros E; exact E]. Unshelve.
    + simpl. congruence.
    + simpl. intros c Hc. exfalso. rewrite Hid, Hplace in Hauto. specialize (Hauto ltac:(done)). apply Hc1 in Hauto.
      simpl in *. congruence.
Qed.
(** A state with an instance less, or one that is being deleted. *)
Lemma remove_inv i s : rs_inv s → rs_inv (removeRef i (del_inst (di_Key i) s)).
Proof.
  intros [Hc Hr Hi Hf Ht]. destruct (removeRef_keep i (del_inst (di_Key i) s)) as [Hcl His]. simpl in Hcl, His.
  assert (∀ k ck, (∀ k r, rs_refs (removeRef i (del_inst (di_Key i) s)) !! k = Some r → cr_Key r = k) ∧
    (k ≠ di_Key i → k ∈ refs_at s ck → k ∈ refs_at (removeRef i (del_inst (di_Key i) s)) ck)) as Hrefs.
  { intros k ck. by apply (removeRef_refs i (del_inst (di_Key i) s)). }
  split; rewrite ?Hcl, ?His; [done|by apply (Hrefs (di_Key i) (di_ClusterKey i))| | |].
  - intros k i' [_ ?]%lookup_delete_Some. by apply Hi.
  - intros k i' [Hne ?]%lookup_delete_Some. apply Hrefs; [congruence|by apply Hf].
  - intros ck c Hck Hres Hm k i'. rewrite His. intros [_ ?]%lookup_delete_Some. by eapply Ht.
Qed.
Lemma state_inv k i st s :
  rs_inv s → rs_insts s !! k = Some i → (live (set_State st i) → live i) → rs_inv (put_inst (set_State st i) s).
Proof.
  intros [Hc Hr Hi Hf Ht] Hin Hlive. destruct (Hi k i Hin) as [Hk Hne]. split; simpl; [done|done| | |].
  - intros k' i' [[<- <-]|[_ ?]]%lookup_insert_Some; [split; [done|by rewrite Hk]|by apply Hi].
  - intros k' i' [[<- <-]|[_ ?]]%lookup_insert_Some; [|by apply Hf]. simpl. rewrite Hk. by apply (Hf k i).
  - intros ck c Hck Hres Hm k' i'. simpl. intros [[<- <-]|[_ Hi']]%lookup_insert_Some Hkey Hten Hl; [|by eapply Ht].
    simpl in *. rewrite Hk. eapply (Ht ck c Hck Hres Hm k i); [done|done|done|by apply Hlive].
Qed.
Lemma unreserve_inv key s :
  rs_inv s → shared_by_none key s →
  rs_inv (match rs_clusters s !! key with Some c => put_cluster (set_ReservedBy "" c) s | None => s end).
Proof.
  intros Hinv Hnone. destruct (rs_clusters s !! key) as [c|] eqn:Hc; [|done]. apply put_cluster_inv; [done|].
  intros _ _ k i Hi Hk Ht Hl. simpl in *. rewrite (ri_cluster s Hinv key c Hc) in Hk. by destruct (Hnone k i Hi Hk Ht).
Qed.
Lemma undo_inv r s :
  rs_inv s → (∀ key, reservedCluster r = Some key → shared_by_none key (undo_txn r s)) → rs_inv (undo_txn r s).
Proof.
  intros Hinv Hnone. unfold undo_txn in *. set (s1 := match rs_insts s !! di_Key (cd_inst r) with Some _ => _ | None => s end) in *.
  assert (rs_inv s1) as Hinv1.
  { unfold s1. destruct (rs_insts s !! di_Key (cd_inst r)); [|done]. case_decide; [by apply remove_inv|done]. }
  set (s2 := match reservedAutoClusterId r with Some _ => _ | None => s1 end) in *.
  assert (rs_inv s2 ∧ rs_insts s2 = rs_insts s1) as [Hinv2 Hi2].
  { unfold s2. destruct (reservedAutoClusterId r); [|done]. destruct (rs_ids s1 !! _); [|done]. split; [by apply put_ids_inv|done]. }
  destruct (reservedCluster r) as [key|]; [|done]. apply unreserve_inv; [done|].
  specialize (Hnone key eq_refl). by destruct (rs_clusters s2 !! key).
Qed.
Lemma delete_inv ignore key s s' : rs_inv s → delete_txn ignore key s = Ok s' → rs_inv s'.
Proof.
  intros Hinv H. unfold delete_txn in H. destruct (rs_insts s !! key) as [i|] eqn:Hi; [|done].
  destruct (ri_inst s Hinv key i Hi) as [Hk _].
  destruct (rs_clusters s !! di_ClusterKey i) as [c|] eqn:Hc; [|done]. injection H as <-.
  pose proof (ri_cluster s Hinv _ _ Hc) as Hck.
  (* the instance is out of the way first *)
  set (gone := λ s, if ignore then removeRef i (del_inst key s) else put_inst (set_State DELETE_REQUESTED i) s).
  assert (rs_inv (gone s)) as Hgone.
  { unfold gone. destruct ignore; [rewrite <-Hk; by apply remove_inv|]. apply state_inv with key; [done|done|].
    intros Hl. destruct Hl. simpl. set_solver. }
  destruct (_ && _) eqn:Hrel; [|done]. apply andb_prop in Hrel as [Hrel Hcan]. apply andb_prop in Hrel as [_ Hby%bool_decide_eq_true].
  assert (gone (put_cluster (set_ReservedBy "" c) s) = put_cluster (set_ReservedBy "" c) (gone s)) as Hcomm.
  { unfold gone. destruct ignore; [|done]. unfold removeRef. simpl. destruct (rs_refs s !! di_ClusterKey i); [|done].
    case_decide; [done|]. by case_decide. }
  change (rs_inv (gone (put_cluster (set_ReservedBy "" c) s))). rewrite Hcomm. apply put_cluster_inv; [done|].
  intros Hres Hm k i' Hi' Hkey Hten Hl. exfalso. simpl in Hres, Hm, Hkey. rewrite Hck in Hkey.
  assert (k ≠ key ∧ rs_insts s !! k = Some i') as [Hne Hin].
  { unfold gone in Hi'. destruct ignore; [rewrite (proj2 (removeRef_keep i _)) in Hi'|]; simpl in Hi'.
    - by apply lookup_delete_Some in Hi' as [? ?].
    - rewrite Hk in Hi'. apply lookup_insert_Some in Hi' as [[<- <-]|[? ?]]; [|done]. destruct Hl. simpl. set_solver. }
  pose proof (ri_tenant s Hinv _ c Hc Hres Hm k i' Hin ltac:(congruence) Hten Hl) as Ho.
  pose proof (ri_refs s Hinv k i' Hin) as Href. rewrite Hkey in Href. unfold refs_at, canReleaseReservation in *.
  destruct (rs_refs s !! di_ClusterKey i) as [refs|]; [|by apply not_elem_of_nil in Href].
  rewrite forallb_forall in Hcan. specialize (Hcan k (proj1 (list_elem_of_In _ _) Href)).
  apply orb_prop in Hcan as [Hx%bool_decide_eq_true|Hx%bool_decide_eq_true]; congruence.
Qed.
Lemma rs_step_inv s s' : rs_inv s → rs_step s s' → rs_inv s'.
Proof.
  intros Hinv []; [by eapply create_inv|by apply undo_inv|by eapply delete_inv| |by eapply state_inv| | |].
  - unfold DeleteFromInfo. destruct (rs_insts s !! key) as [i|] eqn:Hi; [|done]. case_decide; [done|].
    destruct (ri_inst s Hinv key i Hi) as [<- _]. by apply remove_inv.
  - apply put_cluster_inv; [done|]. by intros _ _.
  - apply put_cluster_inv; [done|]. unfold one_org. intros Hr Hm. rewrite H0, H3.
    apply (ri_tenant s Hinv (cu_Key c) c H); congruence.
  - destruct Hinv as [Hc Hr Hi Hf Ht]. split; simpl; [intros k' c [_ ?]%lookup_delete_Some; by apply Hc|done|done|done|].
    intros k' c [_ ?]%lookup_delete_Some. by apply (Ht k' c).
Qed.
Definition no_instances (clusters : gmap ClusterKey Cluster) : rstate := mkRState clusters ∅ ∅ ∅.
Lemma rs_reachable_inv clusters s :
  (∀ k c, clusters !! k = Some c → cu_Key c = k) → rtc rs_step (no_instances clusters) s → rs_inv s.
Proof.
  intros Hk Hrun. assert (rs_inv (no_instances clusters)) as Hinit.
  { split; simpl; [done|by intros k r ?%lookup_empty_Some|by intros k r ?%lookup_empty_Some|by intros k r ?%lookup_empty_Some|].
    intros k c _ _ _ k' i Hi. simpl in Hi. by apply lookup_empty_Some in Hi. }
  induction Hrun as [s|s1 s2 s3 Hstep _ IH]; [done|]. apply IH. by eapply rs_step_inv.
Qed.

(** C4: a reservable cluster is not shared by tenants.  In every run ([rs_step]) in
    which the undo of a failed creation clears only reservations that no instance
    needs ([failed_create_unreserves]), instances have an organization, a creation
    over an instance that is there (after a failed deletion, say) is for the app
    of that instance and otherwise an instance that is being deleted does not
    become live again, the cluster that is made for an instance is new and a
    cluster that is created has no tenants of other organizations on it: any two
    instances on a reservable cluster that is not multi-tenant, which are
    tenants, so of apps that are not sidecars, and which are not being deleted,
    belong to the organization that has reserved it, so to one organization.
    Sidecars come on such a cluster whoever has reserved it, and may be of any
    organization. *)
Theorem one_tenant (clusters : gmap ClusterKey Cluster) (s : rstate) (ck : ClusterKey) (c : Cluster)
    (k1 k2 : AppInstKey) (i1 i2 : DInst)
    (Hkeys : ∀ k c, clusters !! k = Some c → cu_Key c = k) (Hrun : rtc rs_step (no_instances clusters) s)
    (Hc : rs_clusters s !! ck = Some c) (Hreservable : cu_Reservable c = true ∧ cu_MultiTenant c = false)
    (H1 : rs_insts s !! k1 = Some i1 ∧ di_ClusterKey i1 = ck ∧ tenant i1 ∧ live i1)
    (H2 : rs_insts s !! k2 = Some i2 ∧ di_ClusterKey i2 = ck ∧ tenant i2 ∧ live i2) :
  aik_Organization k1 = cu_ReservedBy c ∧ aik_Organization k2 = aik_Organization k1.
Proof.
  pose proof (rs_reachable_inv clusters s Hkeys Hrun) as Hinv. destruct Hreservable as [Hr Hm], H1 as (? & ? & ? & ?), H2 as (? & ? & ? & ?).
  pose proof (ri_cluster s Hinv ck c Hc) as Hck. pose proof (ri_tenant s Hinv ck c Hc Hr Hm) as Hall.
  rewrite Hck in Hall. rewrite (Hall k1 i1), (Hall k2 i2) by done. done.
Qed.

(** C23: the undo of a failed creation clears the reservation of the cluster it had
    chosen whoever has it: if a tenant has an instance there, which stays, another
    organization can then reserve the cluster.  A failed creation of a sidecar is
    enough. *)
Theorem failed_create_unreserves (r : created) (s : rstate) (key : ClusterKey) (c : Cluster) (k : AppInstKey) (i : DInst)
    (other : DInst) (app : DApp)
    (Hreserved : reservedCluster r = Some key) (Hc : rs_clusters s !! key = Some c ∧ cu_Key c = key)
    (Hcluster : cu_Reservable c = true ∧ cu_MultiTenant c = false ∧ cu_DeletePrepare c = false)
    (Hother : IsSideCarApp app = false ∧ AppInstToClusterDeployment (da_Deployment app) = cu_Deployment c ∧
      di_EnableIpv6 other = false)
    (Hinst : rs_insts s !! k = Some i ∧ di_ClusterKey i = key ∧ k ≠ di_Key (cd_inst r)) :
  rs_insts (undo_txn r s) !! k = Some i ∧
  ∃ s' c', usePotentialCluster other app false key (undo_txn r s) = Ok (s', c') ∧
    cu_ReservedBy c' = aik_Organization (di_Key other) ∧ rs_clusters s' !! key = Some c' ∧ rs_insts s' !! k = Some i.
Proof.
  destruct Hc as [Hc Hck], Hcluster as (Hr & Hm & Hd), Hother as (Hs & Hdep & H6), Hinst as (Hi & Hkey & Hne).
  assert (rs_insts (undo_txn r s) !! k = Some i ∧ rs_clusters (undo_txn r s) !! key = Some (set_ReservedBy "" c)) as [Hi' Hc'].
  { unfold undo_txn. set (s1 := match rs_insts s !! di_Key (cd_inst r) with Some _ => _ | None => s end).
    assert (rs_insts s1 !! k = Some i ∧ rs_clusters s1 !! key = Some c) as [Hi1 Hc1].
    { unfold s1. destruct (rs_insts s !! di_Key (cd_inst r)); [|done]. case_decide; [|done].
      destruct (removeRef_keep (cd_inst r) (del_inst (di_Key (cd_inst r)) s)) as [-> ->]. simpl. by rewrite lookup_delete_ne. }
    set (s2 := match reservedAutoClusterId r with Some _ => _ | None => s1 end).
    assert (rs_insts s2 = rs_insts s1 ∧ rs_clusters s2 = rs_clusters s1) as [Hi2 Hc2].
    { unfold s2. destruct (reservedAutoClusterId r); [|done]. by destruct (rs_ids s1 !! _). }
    rewrite Hreserved, Hc2, Hc1. simpl. rewrite Hck, lookup_insert_eq. by rewrite Hi2. }
  split; [done|]. unfold usePotentialCluster. rewrite Hc'. simpl. rewrite Hd, Hm, Hr. unfold useReservableClusterInst. simpl.
  rewrite Hr. simpl. case_decide; [tauto|]. rewrite H6. simpl.
  eexists _, _. split; [done|]. split; [done|]. simpl. by rewrite Hck, lookup_insert_eq.
Qed.
End Reserve.

(** ** Concrete runs *)

Module ReserveWitness.
Import JsonRuns ProvJson ResFitsWitness ClustResWitness CloudResWitness PlacementWitness.
#[local] Existing Instances canonical_range stable_sort.

(** Three games and a sidecar; clusters that can be reserved, with [n] nodes of
    four vCPUs. *)
Definition ak2 : AppKey := mkAppKey "dev" "chess" "1".
Definition ak3 : AppKey := mkAppKey OrganizationEdgeCloud "metrics" "1".
Definition ak4 : AppKey := mkAppKey "dev" "shared" "1".
Definition app_of (a : AppKey) (d : DeleteType) (deployment : string) : DApp :=
  mkDApp (mkApp a false false [] "" deployment) d ACCESS_TYPE_DEFAULT_FOR_DEPLOYMENT true false IMAGE_TYPE_HELM [].
Definition app2 : DApp := app_of ak2 NO_AUTO_DELETE "helm".
Definition the_apps : gmap AppKey DApp :=
  {[ak := app; ak2 := app2; ak3 := app_of ak3 AUTO_DELETE "helm";
    ak4 := app_of ak4 NO_AUTO_DELETE "kubernetes"]}.
Definition key_of (name : string) : ClusterKey := mkClusterKey name "op".
Definition free (name : string) (n : Z) : Cluster := reserved name "" n.
Definition clusters_of (l : list Cluster) : gmap ClusterKey Cluster := list_to_map ((λ c, (cu_Key c, c)) <$> l).
Definition request_at (ck : ClusterKey) (name org : string) (a : AppKey) : DInst :=
  mkDInst (mkAppInstKey name org) a ck (mkCloudletKey "" "" "") NOT_PRESENT
    (Some (mkKubernetesResources (Some req6) None "")) None false false ∅.
Definition request := request_at (mkClusterKey "" "").
Definition site (name : string) : potentialAppInstCluster := cand name None ClusterTypeFreeReservable.
Definition caches (s : rstate) : inst_caches := mkInstCaches (rs_insts s) the_apps.
(** A creation that offers the clusters [l]; a failed one changes nothing. *)
Definition create (i : DInst) (l : list string) (s : rstate) : option (result (rstate * created)) :=
  create_txn the_apps (caches s) false i (site <$> l) None s.
Definition after (x : option (result (rstate * created))) (s : rstate) : rstate :=
  match x with Some (Ok (s', _)) => s' | _ => s end.
Definition memo (x : option (result (rstate * created))) : created :=
  match x with Some (Ok (_, r)) => r | _ => mkCreated (request "" "" ak) None None end.
Definition holder (s : rstate) (name : string) : option string := cu_ReservedBy <$> rs_clusters s !! key_of name.
Definition place_of (s : rstate) (name org : string) : option (string * TrackedState) :=
  (λ i, (clk_Name (di_ClusterKey i), di_State i)) <$> rs_insts s !! mkAppInstKey name org.

(** Two developers and two clusters: the second developer gets the second. *)
Definition both : gmap ClusterKey Cluster := clusters_of [free "a" 4; free "b" 4].
Definition r0 : rstate := no_instances both.
Definition c1 := create (request "i1" "dev" ak) ["a"; "b"] r0.
Definition r1 : rstate := after c1 r0.
Definition c2 := create (request "i2" "dev" ak2) ["a"; "b"] r1.
Definition r2 : rstate := after c2 r1.
Definition c3 := create (request "i3" "other" ak) ["a"; "b"] r2.
Definition r3 : rstate := after c3 r2.
Definition at_a (name : string) (a : AppKey) : DInst :=
  set_State CREATING_DEPENDENCIES (set_place (key_of "a") ck false (request name "dev" a)).
Lemma created_step i l s :
  aik_Organization (di_Key i) ≠ "" → rs_insts s !! di_Key i = None → reservedAutoClusterId (memo (create i l s)) = None →
  create i l s = Some (Ok (after (create i l s) s, memo (create i l s))) → rs_step the_apps s (after (create i l s) s).
Proof.
  intros Ho Hi Hr H. eapply st_create; [exact Ho| |exact H|].
  - intros i' Hi'. congruence.
  - congruence.
Qed.
Lemma tenant_of i app : the_apps !! di_AppKey i = Some app → IsSideCarApp app = false → tenant the_apps i.
Proof. intros Ha Hs app' Ha'. congruence. Qed.
Lemma reachable_r3 : rtc (rs_step the_apps) (no_instances both) r3.
Proof.
  eapply (rtc_l _ _ r1); [|eapply (rtc_l _ _ r2); [|apply rtc_once]]; apply created_step;
    first [discriminate | vm_compute; reflexivity].
Qed.
Lemma one_tenant_witness :
  (holder r3 "a", holder r3 "b", place_of r3 "i3" "other") = (Some "dev", Some "other", Some ("b", CREATING_DEPENDENCIES)) ∧
  aik_Organization (mkAppInstKey "i1" "dev") = "dev" ∧
  aik_Organization (mkAppInstKey "i2" "dev") = aik_Organization (mkAppInstKey "i1" "dev").
Proof.
  split; [vm_compute; reflexivity|].
  refine (one_tenant the_apps both r3 (key_of "a") (set_ReservedBy "dev" (free "a" 4)) (mkAppInstKey "i1" "dev")
    (mkAppInstKey "i2" "dev") (at_a "i1" ak) (at_a "i2" ak2) _ reachable_r3 _ _ _ _).
  - intros k c Hc. apply elem_of_list_to_map_2 in Hc. simpl in Hc.
    apply elem_of_cons in Hc as [[= -> ->]|Hc]; [reflexivity|]. apply list_elem_of_singleton in Hc as [= -> ->]. reflexivity.
  - vm_compute. reflexivity.
  - split; reflexivity.
  - split; [vm_compute; reflexivity|]. split; [reflexivity|]. split; [eapply tenant_of; vm_compute; reflexivity|].
    (apply (bool_decide_unpack _); vm_compute; exact I).
  - split; [vm_compute; reflexivity|]. split; [reflexivity|]. split; [eapply tenant_of; vm_compute; reflexivity|].
    (apply (bool_decide_unpack _); vm_compute; exact I).
Defined.

(** A sidecar on the cluster of the first developer fails to be created. *)
Definition cs1 := create (request_at (key_of "a") "m1" OrganizationEdgeCloud ak3) ["a"] r1.
Definition q1 : rstate := undo_txn (memo cs1) (after cs1 r1).
Definition q2 : rstate := after (create (request "i3" "other" ak2) ["a"] q1) q1.
Lemma failed_create_unreserves_witness :
  (holder r1 "a", holder q1 "a", holder q2 "a", place_of q2 "i1" "dev", place_of q2 "i3" "other") =
    (Some "dev", Some "", Some "other", Some ("a", CREATING_DEPENDENCIES), Some ("a", CREATING_DEPENDENCIES)) ∧
  rs_insts q1 !! mkAppInstKey "i1" "dev" = Some (at_a "i1" ak) ∧
  ∃ s' c', usePotentialCluster (request "i3" "other" ak2) app2 false (key_of "a") q1 = Ok (s', c') ∧
    cu_ReservedBy c' = "other" ∧ rs_clusters s' !! key_of "a" = Some c' ∧
    rs_insts s' !! mkAppInstKey "i1" "dev" = Some (at_a "i1" ak).
Proof.
  split; [vm_compute; reflexivity|].
  refine (failed_create_unreserves (memo cs1) (after cs1 r1) (key_of "a") (set_ReservedBy "dev" (free "a" 4))
    (mkAppInstKey "i1" "dev") (at_a "i1" ak) (request "i3" "other" ak2) app2 _ _ _ _ _).
  - vm_compute. reflexivity.
  - split; [vm_compute; reflexivity|reflexivity].
  - repeat split.
  - repeat split.
  - split; [vm_compute; reflexivity|]. split; [reflexivity|]. vm_compute. discriminate.
Defined.

(** The first cluster is too small; it is reserved in the transaction that goes on
    to the second, and stays reserved with no instance. *)
Definition leaky : rstate := no_instances (clusters_of [free "a" 1; free "b" 4]).
Definition leaked : rstate := after (create (request "i1" "dev" ak) ["a"; "b"] leaky) leaky.
Example passed_over_stays_reserved :
  (holder leaked "a", holder leaked "b", place_of leaked "i1" "dev", refs_at leaked (key_of "a")) =
  (Some "dev", Some "dev", Some ("b", CREATING_DEPENDENCIES), []).
Proof. vm_compute. reflexivity. Qed.
(** The deletion releases the cluster when it starts: the next developer comes on
    it while the instance is still there. *)
Definition deleting : rstate := match delete_txn false (mkAppInstKey "i1" "dev") r1 with Ok s => s | Err _ => r1 end.
Definition early : rstate := after (create (request "i3" "other" ak2) ["a"] deleting) deleting.
Example released_before_it_is_gone :
  (holder deleting "a", holder early "a", place_of early "i1" "dev", place_of early "i3" "other") =
  (Some "", Some "other", Some ("a", DELETE_REQUESTED), Some ("a", CREATING_DEPENDENCIES)).
Proof. vm_compute. reflexivity. Qed.
(** A multi-tenant cluster takes one instance of an app only. *)
Definition multi : Cluster :=
  mkCluster (key_of "m") ck "kubernetes" READY IP_ACCESS_SHARED false "" true false false false "" "" 1
    (mkClusterInst [node4 8] None).
Definition m0 : rstate := no_instances (clusters_of [multi]).
Definition m1 : rstate := after (create (request "i1" "dev" ak4) ["m"] m0) m0.
Definition refused (x : option (result (rstate * created))) : option string :=
  match x with Some (Err e) => Some e | _ => None end.
Example second_instance_refused :
  place_of m1 "i1" "dev" = Some ("m", CREATING_DEPENDENCIES) ∧
  refused (create (request "i2" "dev" ak4) ["m"] m1) =
    Some ("cannot deploy another instance of App " +:+ Marshal ak4 +:+ " to the target cluster").
Proof. split; vm_compute; reflexivity. Qed.
End ReserveWitness.
