(* ===== verification/VMPool.v ===== *)
(** * VM pools (pkg/crm/crm_vmpool.go, pkg/platform/vmpool)

    A cloudlet of the VM pool platform hands out existing VMs.  The CRM keeps
    the pool in memory: updates from the controller change it in two steps
    with a verification over ssh between them, while the platform allocates
    and releases VMs.  Both work under the pool's mutex; the module [Race]
    has one step for each critical section.

    The work on the VMs over ssh is a parameter.  The info cache keeps a copy
    of what is published, so publishing is appending to a list.  Log calls are
    left out. *)

From S2P Require Export VMSpec.
From S2P Require Import Enums.

Local Open Scope Z_scope.

(** ** Data *)

Inductive VMState :=
| VM_FREE | VM_IN_PROGRESS | VM_IN_USE | VM_ADD | VM_REMOVE | VM_UPDATE | VM_FORCE_FREE.
#[global] Instance VMState_eq_dec : EqDecision VMState.
Proof. solve_decision. Defined.

Record VMNetInfo := mkVMNetInfo { ExternalIp : string; InternalIp : string }.
Record VM := mkVM {
  Name : string;
  NetInfo : VMNetInfo;
  GroupName : string;
  State : VMState;
  UpdatedAt : Z;
  InternalName : string;
  vm_Flavor : option FlavorInfo;
}.
Record VMPoolKey := mkVMPoolKey { vk_Organization : string; vk_Name : string }.
#[global] Instance VMPoolKey_eq_dec : EqDecision VMPoolKey.
Proof. solve_decision. Defined.
#[global] Instance VMPoolKey_countable : Countable VMPoolKey.
Proof.
  refine (inj_countable' (λ k, (vk_Organization k, vk_Name k))
    (λ '(o, n), mkVMPoolKey o n) _). by intros [].
Defined.
Record VMPool := mkVMPool { vp_Key : VMPoolKey; Vms : list VM; vp_State : TrackedState }.
Record VMPoolInfo := mkVMPoolInfo {
  vi_Key : VMPoolKey; vi_Vms : list VM; vi_State : TrackedState; Errors : list string }.

Definition set_State (s : VMState) (vm : VM) : VM :=
  mkVM (Name vm) (NetInfo vm) (GroupName vm) s (UpdatedAt vm) (InternalName vm) (vm_Flavor vm).
(** The VM given back: free and without the names of its last use. *)
Definition freed (vm : VM) : VM :=
  mkVM (Name vm) (NetInfo vm) "" VM_FREE (UpdatedAt vm) "" (vm_Flavor vm).

(** ** The CRM: updates of the pool *)

Definition isVMChanged (old new : VM) : bool :=
  bool_decide (ExternalIp (NetInfo new) ≠ ExternalIp (NetInfo old)
               ∨ InternalIp (NetInfo new) ≠ InternalIp (NetInfo old)).

(** The variables of [markUpdateVMs]. *)
Record marks := mkMarks {
  changeVMs : gmap string VM;
  changed : bool;
  newVMs : list VM;
  validateVMs : list VM;
  oldVMs : gmap string VM;
  updateVMs : gmap string VM;
}.

(** One VM of the pool against the incoming pool. *)
Definition mark_one (m : marks) (vm : VM) : result marks :=
  match changeVMs m !! Name vm with
  | None =>
      Ok (mkMarks (changeVMs m) (changed m) (newVMs m ++ [vm]) (validateVMs m) (oldVMs m)
            (updateVMs m))
  | Some cVM =>
      let rest := delete (Name vm) (changeVMs m) in
      match State cVM with
      | VM_ADD => Err ("VM " +:+ Name vm +:+ " already exists")
      | VM_REMOVE =>
          if decide (State vm ≠ VM_FREE) then
            Err ("Unable to delete VM " +:+ Name vm +:+ ", as it is in use")
          else Ok (mkMarks rest true (newVMs m ++ [set_State VM_REMOVE vm]) (validateVMs m)
                     (oldVMs m) (updateVMs m))
      | VM_UPDATE =>
          if isVMChanged vm cVM then
            if decide (State vm ≠ VM_FREE) then
              Err ("Unable to update VM " +:+ Name vm +:+ ", as it is in use")
            else Ok (mkMarks rest true (newVMs m) (validateVMs m ++ [cVM])
                       (<[Name vm := vm]> (oldVMs m)) (<[Name vm := cVM]> (updateVMs m)))
          else Ok (mkMarks rest true (newVMs m) (validateVMs m) (oldVMs m)
                     (<[Name vm := vm]> (updateVMs m)))
      | VM_FORCE_FREE =>
          Ok (mkMarks rest true (newVMs m) (validateVMs m) (oldVMs m)
                (<[Name vm := freed vm]> (updateVMs m)))
      | _ => Ok (mkMarks rest (changed m) (newVMs m ++ [vm]) (validateVMs m) (oldVMs m)
                   (updateVMs m))
      end
  end.
Fixpoint mark_pool (m : marks) (vms : list VM) : result marks :=
  match vms with
  | [] => Ok m
  | vm :: vms' => m' ← mark_one m vm; mark_pool m' vms'
  end.

(** An incoming VM that the pool does not have. *)
Definition mark_new (m : marks) (vm : VM) : marks :=
  let validate := validateVMs m ++ [vm] in
  match State vm with
  | VM_ADD => mkMarks (changeVMs m) true (newVMs m ++ [vm]) validate (oldVMs m) (updateVMs m)
  | VM_UPDATE =>
      mkMarks (changeVMs m) true (newVMs m) validate (oldVMs m) (<[Name vm := vm]> (updateVMs m))
  | VM_FORCE_FREE =>
      mkMarks (changeVMs m) true (newVMs m) validate (oldVMs m)
        (<[Name vm := freed vm]> (updateVMs m))
  | _ => mkMarks (changeVMs m) true (newVMs m) validate (oldVMs m) (updateVMs m)
  end.

(** The pool rebuilt from the updated VMs; those not in the update go. *)
Fixpoint replace_pool (updates : gmap string VM) (acc vms : list VM)
    : result (list VM * gmap string VM) :=
  match vms with
  | [] => Ok (acc, updates)
  | vm :: vms' =>
      match updates !! Name vm with
      | Some uVM => replace_pool (delete (Name vm) updates) (acc ++ [uVM]) vms'
      | None =>
          if decide (State vm ≠ VM_FREE) then
            Err ("Unable to delete VM " +:+ Name vm +:+ ", as it is in use")
          else replace_pool updates acc vms'
      end
  end.

Section CRM.
Context {GR : GoRange}.

(** The new pool, the VMs replaced and the VMs to verify; [Ok None]: nothing
    to update. *)
Definition mark_vms (pool incoming : list VM)
    : result (option (list VM * gmap string VM * list VM)) :=
  let changes := fold_left (λ m vm, <[Name vm := vm]> m) incoming ∅ in
  m ← mark_pool (mkMarks changes false [] [] ∅ ∅) pool;
  let m := fold_left (λ m kv, mark_new m kv.2) (go_range (changeVMs m)) m in
  m ← (if decide (size (updateVMs m) = 0%nat) then Ok m
       else
         r ← replace_pool (updateVMs m) [] pool;
         let '(vms, rest) := r in
         Ok (mkMarks (changeVMs m) true (vms ++ (go_range rest).*2) (validateVMs m)
               (oldVMs m) rest));
  Ok (if changed m then Some (newVMs m, oldVMs m, validateVMs m) else None).

(** *** The second step: take the update over, or revert it *)

Definition commit_vm (vm : VM) : option VM :=
  match State vm with
  | VM_ADD | VM_UPDATE => Some (set_State VM_FREE vm)
  | VM_REMOVE => None
  | _ => Some vm
  end.
Definition revert_vm (oldVMs : gmap string VM) (vm : VM) : option VM :=
  match State vm with
  | VM_ADD => None
  | VM_REMOVE => Some (set_State VM_FREE vm)
  | VM_UPDATE => Some (set_State VM_FREE (default vm (oldVMs !! Name vm)))
  | _ => Some vm
  end.
Definition finish_vms (err : option error) (oldVMs : gmap string VM) (pool : list VM) : list VM :=
  match err with
  | Some _ => omap (revert_vm oldVMs) pool
  | None => omap commit_vm pool
  end.

(** *** The handler *)

(** Parameters: the verification of VMs over ssh, and the output of the
    script that reports a VM's memory, vcpus and disk. *)
Context (VerifyVMs : list VM → option error) (ssh_flavor : VM → result string).

(** The CRM's data with the platform's [FlavorList]; of the cloudlet's info
    only the flavors change. *)
Record CRMData := mkCRM {
  pool_Key : VMPoolKey;
  pool_Vms : list VM;
  VMPoolCache : gmap VMPoolKey VMPool;
  (** What was published through [VMPoolInfoCache], the newest last. *)
  published : list VMPoolInfo;
  CloudletInfoCache : option (list FlavorInfo);
  FlavorList : list FlavorInfo;
}.
Definition set_Vms (vms : list VM) (cd : CRMData) : CRMData :=
  mkCRM (pool_Key cd) vms (VMPoolCache cd) (published cd) (CloudletInfoCache cd) (FlavorList cd).
Definition publish (state : TrackedState) (errs : list string) (cd : CRMData) : CRMData :=
  mkCRM (pool_Key cd) (pool_Vms cd) (VMPoolCache cd)
    (published cd ++ [mkVMPoolInfo (pool_Key cd) (pool_Vms cd) state errs])
    (CloudletInfoCache cd) (FlavorList cd).
Definition UpdateVMPoolInfo (state : TrackedState) (errStr : string) (cd : CRMData) : CRMData :=
  publish state (if decide (errStr ≠ "") then [errStr] else []) cd.

Definition flavor_int (what s name : string) : result Z :=
  match Atoi s with
  | Ok v => if decide (v ≤ 0) then
              Err ("invalid " +:+ what +:+ " info " +:+ s +:+ " for " +:+ name +:+ ": <nil>")
            else Ok v
  | Err e => Err ("invalid " +:+ what +:+ " info " +:+ s +:+ " for " +:+ name +:+ ": " +:+ e)
  end.
(** The VM with its flavor, and the flavor under its general name. *)
Definition vm_flavor (vm : VM) : result (VM * FlavorInfo) :=
  if decide (ExternalIp (NetInfo vm) = "" ∧ InternalIp (NetInfo vm) = "") then
    Err ("VM " +:+ Name vm +:+ " is missing network info")
  else
    out ← ssh_flavor vm;
    match split "," out with
    | [ram; cpus; disk] =>
        memMb ← flavor_int "memory" ram (Name vm);
        vcpus ← flavor_int "vcpu" cpus (Name vm);
        diskGb ← flavor_int "disk" disk (Name vm);
        let flavorName := "vcpu/" +:+ fmt_d vcpus +:+ "-ram/" +:+ fmt_d memMb
                          +:+ "-disk/" +:+ fmt_d diskGb in
        Ok (mkVM (Name vm) (NetInfo vm) (GroupName vm) (State vm) (UpdatedAt vm) (InternalName vm)
              (Some (mkFlavorInfo (Name vm +:+ "-flavor") vcpus memMb diskGb [] ∅)),
            mkFlavorInfo flavorName vcpus memMb diskGb [] ∅)
    | _ => Err ("invalid flavor info for " +:+ Name vm +:+ ": " +:+ out)
    end.
Fixpoint flavor_loop (vms updatedVMs : list VM) (flavors : list FlavorInfo)
    : result (list FlavorInfo * list VM) :=
  match vms with
  | [] => Ok (flavors, updatedVMs)
  | vm :: vms' =>
      r ← vm_flavor vm;
      let '(vm, flavInfo) := r in
      flavor_loop vms' (updatedVMs ++ [vm])
        (if decide (fi_Name flavInfo ∈ fi_Name <$> flavors) then flavors
         else flavors ++ [flavInfo])
  end.
(** The flavors and the VMs with theirs, from the VMs as they are read. *)
Definition gather_flavors (vms : list VM) : result (list FlavorInfo * list VM) :=
  if decide (Forall (λ vm, ExternalIp (NetInfo vm) = "") vms) then
    Err "At least one VM should have access to external network"
  else flavor_loop vms [] [].
Definition GetFlavorList (cd : CRMData) : CRMData * result (list FlavorInfo) :=
  match gather_flavors (pool_Vms cd) with
  | Err e => (cd, Err e)
  | Ok (flavors, updatedVMs) =>
      let cd := if decide (updatedVMs ≠ [])
                then publish TRACKED_STATE_UNKNOWN [] (set_Vms updatedVMs cd) else cd in
      (mkCRM (pool_Key cd) (pool_Vms cd) (VMPoolCache cd) (published cd) (CloudletInfoCache cd)
         flavors, Ok flavors)
  end.

Definition markUpdateVMs (vmPool : VMPool) (cd : CRMData)
    : CRMData * option (gmap string VM * list VM) :=
  match mark_vms (pool_Vms cd) (Vms vmPool) with
  | Err e => (UpdateVMPoolInfo UPDATE_ERROR e cd, None)
  | Ok None => (UpdateVMPoolInfo READY "" cd, None)
  | Ok (Some (newVMs, oldVMs, validateVMs)) =>
      (set_Vms newVMs cd, Some (oldVMs, validateVMs))
  end.

Definition refresh_cloudlet_info (cd : CRMData) : CRMData :=
  match CloudletInfoCache cd with
  | None => cd
  | Some _ =>
      match GetFlavorList cd with
      | (cd, Err _) => cd
      | (cd, Ok flavors) =>
          mkCRM (pool_Key cd) (pool_Vms cd) (VMPoolCache cd) (published cd) (Some flavors)
            (FlavorList cd)
      end
  end.
Definition finish_update (err : option error) (oldVMs : gmap string VM) (cd : CRMData) : CRMData :=
  let cd := set_Vms (finish_vms err oldVMs (pool_Vms cd)) cd in
  match err with
  | Some e => UpdateVMPoolInfo UPDATE_ERROR e cd
  | None => UpdateVMPoolInfo READY "" (refresh_cloudlet_info cd)
  end.

Definition UpdateVMPool (key : VMPoolKey) (cd : CRMData) : CRMData :=
  match VMPoolCache cd !! key with
  | None => cd
  | Some vmPool =>
      let cd := UpdateVMPoolInfo UPDATING "" cd in
      match markUpdateVMs vmPool cd with
      | (cd, None) => cd
      | (cd, Some (oldVMs, validateVMs)) =>
          let err := if decide (validateVMs ≠ []) then VerifyVMs validateVMs else None in
          finish_update err oldVMs cd
      end
  end.

(** Does a change of the pool in the cache start an update? *)
Definition VMPoolChanged (active : bool) (old : option VMPool) (new : VMPool) : bool :=
  if negb active then false
  else match old with
  | None => false
  | Some old =>
      if decide (vp_State old = vp_State new) then false
      else bool_decide (vp_State new = UPDATE_REQUESTED)
  end.
End CRM.

(** ** The platform: allocation and release *)

(** [OptResMap] of the flavor, nil or not, is a field of its own. *)
Record VMSpec := mkVMSpec {
  sp_InternalName : string;
  ExternalNetwork : bool;
  InternalNetwork : bool;
  sp_Flavor : Flavor;
  sp_OptResMap : option (gmap string string);
}.

(** The first VM of the flavor and the list without it; [None]: a VM without
    a flavor is dereferenced. *)
Fixpoint take_flavor (pre vmList : list VM) (name : string) : option (option (list VM * string)) :=
  match vmList with
  | [] => Some None
  | newVM :: rest =>
      match vm_Flavor newVM with
      | None => None
      | Some fl =>
          if decide (fi_Name fl ≠ name) then take_flavor (pre ++ [newVM]) rest name
          else Some (Some (pre ++ rest, Name newVM))
      end
  end.

Record groups := mkGroups {
  bothNetVms : list VM; internalNetVms : list VM; externalNetVms : list VM }.
(** The free VMs by network. *)
Definition group_free (pool : list VM) : groups :=
  fold_left (λ g vm,
    if decide (State vm ≠ VM_FREE) then g
    else if decide (ExternalIp (NetInfo vm) ≠ "" ∧ InternalIp (NetInfo vm) ≠ "") then
      mkGroups (bothNetVms g ++ [vm]) (internalNetVms g) (externalNetVms g)
    else if decide (ExternalIp (NetInfo vm) ≠ "") then
      mkGroups (bothNetVms g) (internalNetVms g) (externalNetVms g ++ [vm])
    else if decide (InternalIp (NetInfo vm) ≠ "") then
      mkGroups (bothNetVms g) (internalNetVms g ++ [vm]) (externalNetVms g)
    else g) pool (mkGroups [] [] []).

Section Platform.
Context {GR : GoRange} {GS : GoSort}.

(** [None]: panic. *)
Definition getFlavorBasedVM (vmList : list VM) (vmSpec : VMSpec)
    : option (result (list VM * string)) :=
  let cli := mkCloudletInfo "" (omap vm_Flavor vmList) [] [] in
  match GetVMSpec (ToNodeResources (sp_Flavor vmSpec)) (sp_OptResMap vmSpec) cli None with
  | Err err => Some (Err err)
  | Ok vmFlavorSpec =>
      r ← take_flavor [] vmList (FlavorName vmFlavorSpec);
      Some match r with
           | Some found => Ok found
           | None => Err ("Unable to find a VM with matching flavor " +:+ f_Name (sp_Flavor vmSpec))
           end
  end.

Definition from_both (g : groups) (what : string) (vmSpec : VMSpec)
    : option (result (groups * string)) :=
  if decide (bothNetVms g = []) then Some (Err ("Unable to find a free VM with " +:+ what))
  else
    r ← getFlavorBasedVM (bothNetVms g) vmSpec;
    Some ('(rest, name) ← r; Ok (mkGroups rest (internalNetVms g) (externalNetVms g), name)).
(** The group for the networks of the spec; a VM on both networks serves
    when the group is empty. *)
Definition alloc_one (g : groups) (vmSpec : VMSpec) : option (result (groups * string)) :=
  r ← (if ExternalNetwork vmSpec && InternalNetwork vmSpec then
         from_both g "both external and internal network connectivity" vmSpec
       else if ExternalNetwork vmSpec then
         if decide (externalNetVms g = []) then
           from_both g "external network connectivity" vmSpec
         else
           r ← getFlavorBasedVM (externalNetVms g) vmSpec;
           Some ('(rest, name) ← r; Ok (mkGroups (bothNetVms g) (internalNetVms g) rest, name))
       else
         if decide (internalNetVms g = []) then
           from_both g "internal network connectivity" vmSpec
         else
           r ← getFlavorBasedVM (internalNetVms g) vmSpec;
           Some ('(rest, name) ← r; Ok (mkGroups (bothNetVms g) rest (externalNetVms g), name)));
  Some ('(g, foundVMName) ← r;
        if decide (foundVMName = "") then
          Err "Unable to find a VM from the pool with required spec"
        else Ok (g, foundVMName)).

(** The names of the VMs selected, with the internal names they get. *)
Fixpoint select_vms (g : groups) (selected : gmap string string) (vmSpecs : list VMSpec)
    : option (result (gmap string string)) :=
  match vmSpecs with
  | [] => Some (Ok selected)
  | vmSpec :: vmSpecs' =>
      r ← alloc_one g vmSpec;
      match r with
      | Err e => Some (Err e)
      | Ok (g, name) => select_vms g (<[name := sp_InternalName vmSpec]> selected) vmSpecs'
      end
  end.

(** [now] gives the reading of the clock when a VM is marked. *)
Definition mark_allocated (groupName : string) (now : string → Z)
    (selected : gmap string string) (vm : VM) : VM :=
  match selected !! Name vm with
  | None => vm
  | Some internalName =>
      mkVM (Name vm) (NetInfo vm) groupName VM_IN_PROGRESS (now (Name vm)) internalName
        (vm_Flavor vm)
  end.
(** The VMs whose names are in [selected], by name. *)
Definition marked_vms {V} (selected : gmap string V) (pool : list VM) : gmap string VM :=
  fold_left (λ m vm, <[Name vm := vm]> m) (filter (λ vm, is_Some (selected !! Name vm)) pool) ∅.

(** The new pool and the marked VMs; [None]: panic. *)
Definition markVMsForAllocation (groupName : string) (now : string → Z) (pool : list VM)
    (vmSpecs : list VMSpec) : option (result (list VM * gmap string VM)) :=
  let freeVMCount := length (filter (λ vm, State vm = VM_FREE) pool) in
  if decide (freeVMCount < length vmSpecs)%nat then
    Some (Err ("Failed to meet VM requirement, required VMs = "
               +:+ fmt_d (Z.of_nat (length vmSpecs)) +:+ ", free VMs available = "
               +:+ fmt_d (Z.of_nat freeVMCount)))
  else
    r ← select_vms (group_free pool) ∅ vmSpecs;
    Some (selected ← r;
          let pool := mark_allocated groupName now selected <$> pool in
          Ok (pool, marked_vms selected pool)).
End Platform.

(** The VMs of the group to release, by name. *)
Fixpoint release_names (groupName : string) (vmNames : list string) (freeAll : bool)
    (selected : gmap string unit) (vms : list VM) : result (gmap string unit) :=
  match vms with
  | [] => Ok selected
  | poolVM :: vms' =>
      if decide (groupName ≠ GroupName poolVM) then
        release_names groupName vmNames freeAll selected vms'
      else if decide (State poolVM = VM_IN_PROGRESS) then
        Err ("Unable to release VM " +:+ InternalName poolVM +:+ " as it is busy")
      else if bool_decide (InternalName poolVM ∈ vmNames) || freeAll then
        release_names groupName vmNames freeAll (<[Name poolVM := tt]> selected) vms'
      else release_names groupName vmNames freeAll selected vms'
  end.
Definition mark_released (now : string → Z) (selected : gmap string unit) (vm : VM) : VM :=
  match selected !! Name vm with
  | None => vm
  | Some _ =>
      mkVM (Name vm) (NetInfo vm) (GroupName vm) VM_IN_PROGRESS (now (Name vm)) (InternalName vm)
        (vm_Flavor vm)
  end.
Definition markVMsForRelease (groupName : string) (now : string → Z) (pool : list VM)
    (vmSpecs : list VMSpec) : result (list VM * gmap string VM) :=
  selected ← release_names groupName (sp_InternalName <$> vmSpecs) (bool_decide (vmSpecs = [])) ∅ pool;
  let pool := mark_released now selected <$> pool in
  Ok (pool, marked_vms selected pool).

Definition SaveVMStateInVMPool {V} (vms : gmap string V) (state : VMState) (pool : list VM)
    : list VM :=
  (λ vm, match vms !! Name vm with
         | None => vm
         | Some _ => if decide (state = VM_FREE) then freed vm else set_State state vm
         end) <$> pool.

(** ** The platform: groups of VMs *)

(** What the functions below read of [VMOrchestrationParams]. *)
Record OrchVM := mkOrchVM {
  ov_Name : string;
  ov_Role : string;
  ov_FlavorName : string;
  ov_NetTypes : list string;
}.
Definition RoleVMApplication : string := "vmapp".
Definition NetworkTypeExternalPrimary : string := "external-primary".

Section Orchestrate.
Context {GR : GoRange} {GS : GoSort}.
(** [%v] of the flavor list, and the work on the marked VMs over ssh. *)
Context (fmt_flavors : list FlavorInfo → string).
Context (createVMsInternal deleteVMsInternal : gmap string VM → option error).

Definition vm_spec (FlavorList : list FlavorInfo) (vm : OrchVM) : result VMSpec :=
  match filter (λ fl, fi_Name fl = ov_FlavorName vm) FlavorList with
  | [] => Err ("Unable to find matching flavor " +:+ ov_FlavorName vm +:+ " from list "
               +:+ fmt_flavors FlavorList)
  | fl :: _ =>
      Ok (mkVMSpec (ov_Name vm) (bool_decide (NetworkTypeExternalPrimary ∈ ov_NetTypes vm)) true
            (mkFlavor (ov_FlavorName vm) (fi_Ram fl) (fi_Vcpus fl) (fi_Disk fl) None (fi_PropMap fl))
            (if decide (fi_PropMap fl = ∅) then None else Some (fi_PropMap fl)))
  end.
Fixpoint create_specs (FlavorList : list FlavorInfo) (vms : list OrchVM) : result (list VMSpec) :=
  match vms with
  | [] => Ok []
  | vm :: vms' =>
      if decide (ov_Role vm = RoleVMApplication) then
        Err "VM based applications are not support by PlatformTypeVmPool"
      else
        vmSpec ← vm_spec FlavorList vm;
        specs ← create_specs FlavorList vms';
        Ok (vmSpec :: specs)
  end.

(** The state the marked VMs end in. *)
Definition end_state (ok failed : VMState) (err : option error) : VMState :=
  if err is Some _ then failed else ok.

(** The new pool and the error; [None]: panic. *)
Definition CreateVMs (FlavorList : list FlavorInfo) (groupName : string) (now : string → Z)
    (vms : list OrchVM) (pool : list VM) : option (list VM * option error) :=
  match create_specs FlavorList vms with
  | Err e => Some (pool, Some e)
  | Ok vmSpecs =>
      r ← markVMsForAllocation groupName now pool vmSpecs;
      match r with
      | Err e => Some (pool, Some e)
      | Ok (pool, markedVMs) =>
          let err := createVMsInternal markedVMs in
          Some (SaveVMStateInVMPool markedVMs (end_state VM_IN_USE VM_FREE err) pool, err)
      end
  end.
Definition DeleteVMs (vmGroupName : string) (now : string → Z) (pool : list VM)
    : list VM * option error :=
  match markVMsForRelease vmGroupName now pool [] with
  | Err e => (pool, Some e)
  | Ok (pool, markedVMs) =>
      let err := deleteVMsInternal markedVMs in
      (SaveVMStateInVMPool markedVMs (end_state VM_FREE VM_IN_USE err) pool, err)
  end.

(** The specs of an update: the new VMs or, if there are none, the VMs of the
    group that are gone. *)
Fixpoint new_specs (FlavorList : list FlavorInfo) (existing : list string) (vms : list OrchVM)
    : result (list VMSpec) :=
  match vms with
  | [] => Ok []
  | vm :: vms' =>
      vmSpec ← vm_spec FlavorList vm;
      specs ← new_specs FlavorList existing vms';
      Ok (if decide (ov_Name vm ∈ existing) then specs else vmSpec :: specs)
  end.
Definition gone_specs (existing : list string) (vms : list OrchVM) : list VMSpec :=
  let existingVms : gmap string unit := list_to_map ((λ n, (n, tt)) <$> existing) in
  (λ n, mkVMSpec n false false (mkFlavor "" 0 0 0 None ∅) None)
    <$> filter (λ n, n ∉ ov_Name <$> vms) (go_range existingVms).*1.
Definition UpdateVMs (FlavorList : list FlavorInfo) (groupName : string) (now : string → Z)
    (vms : list OrchVM) (pool : list VM) : option (list VM * option error) :=
  let existing := InternalName <$> filter (λ vm, GroupName vm = groupName) pool in
  match new_specs FlavorList existing vms with
  | Err e => Some (pool, Some e)
  | Ok [] =>
      match gone_specs existing vms with
      | [] => Some (pool, None)
      | vmSpecs =>
          match markVMsForRelease groupName now pool vmSpecs with
          | Err e => Some (pool, Some e)
          | Ok (pool, markedVMs) =>
              let err := deleteVMsInternal markedVMs in
              Some (SaveVMStateInVMPool markedVMs (end_state VM_FREE VM_IN_USE err) pool, err)
          end
      end
  | Ok vmSpecs =>
      r ← markVMsForAllocation groupName now pool vmSpecs;
      match r with
      | Err e => Some (pool, Some e)
      | Ok (pool, markedVMs) =>
          let err := createVMsInternal markedVMs in
          Some (SaveVMStateInVMPool markedVMs (end_state VM_IN_USE VM_FREE err) pool, err)
      end
  end.
End Orchestrate.

(** ** What an update does to each VM *)

(** The incoming pool by name, and its VMs that the pool does not have. *)
Definition by_name (incoming : list VM) : gmap string VM :=
  fold_left (λ m vm, <[Name vm := vm]> m) incoming ∅.
Definition leftover (changes : gmap string VM) (pool : list VM) : gmap string VM :=
  filter (λ kv, kv.1 ∉ Name <$> pool) changes.

Definition change_state (changes : gmap string VM) (vm : VM) : option VMState :=
  State <$> changes !! Name vm.
Definition moved (changes : gmap string VM) (vm : VM) : bool :=
  match changes !! Name vm with Some c => isVMChanged vm c | None => false end.

(** The request for the VM that is refused. *)
Definition refused (changes : gmap string VM) (vm : VM) : Prop :=
  change_state changes vm = Some VM_ADD
  ∨ (change_state changes vm = Some VM_REMOVE ∧ State vm ≠ VM_FREE)
  ∨ (change_state changes vm = Some VM_UPDATE ∧ moved changes vm = true ∧ State vm ≠ VM_FREE).
(** What the VM becomes without, and with, VMs to update. *)
Definition kept (changes : gmap string VM) (vm : VM) : option VM :=
  match change_state changes vm with
  | Some VM_REMOVE => Some (set_State VM_REMOVE vm)
  | Some VM_ADD | Some VM_UPDATE | Some VM_FORCE_FREE => None
  | _ => Some vm
  end.
Definition updated (changes : gmap string VM) (vm : VM) : option VM :=
  match change_state changes vm with
  | Some VM_UPDATE => if moved changes vm then changes !! Name vm else Some vm
  | Some VM_FORCE_FREE => Some (freed vm)
  | _ => None
  end.
Definition new_update (vm : VM) : option VM :=
  match State vm with
  | VM_UPDATE => Some vm
  | VM_FORCE_FREE => Some (freed vm)
  | _ => None
  end.

(** ** Lemmas *)

Lemma by_name_key incoming n vm : by_name incoming !! n = Some vm → Name vm = n ∧ vm ∈ incoming.
Proof.
  unfold by_name. induction incoming as [|x l IH] using rev_ind; [done|].
  rewrite fold_left_app. simpl. intros [[<- <-]|[_ H]]%lookup_insert_Some; [set_solver|].
  apply IH in H. set_solver.
Qed.

Lemma lookup_by_name incoming vm :
  NoDup (Name <$> incoming) → vm ∈ incoming → by_name incoming !! Name vm = Some vm.
Proof.
  unfold by_name. induction incoming as [|x l IH] using rev_ind; [set_solver|].
  rewrite fmap_app, fold_left_app. simpl. intros (Hl & Hd & _)%NoDup_app Hin.
  destruct (decide (Name x = Name vm)) as [Heq|Hne].
  - rewrite <- Heq, lookup_insert_eq. apply elem_of_app in Hin as [Hin|Hin]; [|set_solver].
    exfalso. apply (Hd (Name vm)); [by apply list_elem_of_fmap_2|set_solver].
  - rewrite lookup_insert_ne by done. apply IH; [done|set_solver].
Qed.

(** Names decide the VM. *)
Lemma same_name pool vm vm' :
  NoDup (Name <$> pool) → vm ∈ pool → vm' ∈ pool → Name vm = Name vm' → vm = vm'.
Proof.
  intros Hnd H1 H2 Heq. apply (lookup_by_name pool) in H1, H2; [|done..].
  rewrite Heq in H1. congruence.
Qed.

Lemma names_cons vm pool :
  NoDup (Name <$> vm :: pool) →
  Name vm ∉ Name <$> pool ∧ (∀ x, x ∈ pool → Name vm ≠ Name x) ∧ NoDup (Name <$> pool).
Proof.
  simpl. intros [Hni Hnd]%NoDup_cons. split_and!; [done| |done].
  intros x Hx Heq. apply Hni. rewrite Heq. by apply list_elem_of_fmap_2.
Qed.

Lemma omap_ext_in {A B} (f g : A → option B) (l : list A) :
  (∀ x, x ∈ l → f x = g x) → omap f l = omap g l.
Proof.
  induction l as [|x l IH]; intros H; simpl; [done|].
  rewrite (H x) by left.
  destruct (g x); [f_equal|]; apply IH; intros; apply H; by right.
Qed.

(** Deleting the names of a pool one by one. *)
Lemma delete_names (m : gmap string VM) vm pool n :
  (if decide (n ∈ Name <$> pool) then None else delete (Name vm) m !! n)
  = if decide (n ∈ Name <$> vm :: pool) then None else m !! n.
Proof.
  destruct (decide (n ∈ Name <$> pool)) as [Hin|Hin].
  - by rewrite decide_True by (by right).
  - destruct (decide (n = Name vm)) as [->|Hne].
    + rewrite decide_True by left. apply lookup_delete_eq.
    + rewrite decide_False by (by intros [?|?]%elem_of_cons). by rewrite lookup_delete_ne.
Qed.

(** The loop over the pool: each VM is treated on its own. *)
Record marked (changes : gmap string VM) (pool : list VM) (m m' : marks) : Prop := {
  mk_accepted : ∀ vm, vm ∈ pool → ¬ refused changes vm;
  mk_changes : ∀ n, changeVMs m' !! n = if decide (n ∈ Name <$> pool) then None else changeVMs m !! n;
  mk_new : newVMs m' = newVMs m ++ omap (kept changes) pool;
  mk_updates : ∀ n u, updateVMs m' !! n = Some u ↔
    (∃ vm, vm ∈ pool ∧ Name vm = n ∧ updated changes vm = Some u) ∨ updateVMs m !! n = Some u;
  mk_old : ∀ n o, oldVMs m' !! n = Some o →
    (o ∈ pool ∧ Name o = n ∧ change_state changes o = Some VM_UPDATE ∧ moved changes o = true)
    ∨ oldVMs m !! n = Some o;
}.

Definition is_change (changes : gmap string VM) (vm : VM) : bool :=
  match change_state changes vm with
  | Some (VM_REMOVE | VM_UPDATE | VM_FORCE_FREE) => true
  | _ => false
  end.

Lemma mark_one_spec changes m vm m' :
  changeVMs m !! Name vm = changes !! Name vm → mark_one m vm = Ok m' →
  ¬ refused changes vm
  ∧ changeVMs m' = delete (Name vm) (changeVMs m)
  ∧ newVMs m' = newVMs m ++ option_list (kept changes vm)
  ∧ updateVMs m' = (if updated changes vm is Some u then <[Name vm := u]> (updateVMs m)
                    else updateVMs m)
  ∧ (oldVMs m' = oldVMs m ∨
     (oldVMs m' = <[Name vm := vm]> (oldVMs m)
      ∧ change_state changes vm = Some VM_UPDATE ∧ moved changes vm = true))
  ∧ changed m' = changed m || is_change changes vm.
Proof.
  intros Hc. unfold mark_one, refused, kept, updated, is_change, change_state, moved. rewrite Hc.
  destruct (changes !! Name vm) as [c|] eqn:Hch; simpl.
  2: { intros [= <-]. simpl. rewrite orb_false_r, delete_id by congruence.
       split_and!; auto; naive_solver. }
  destruct (State c) eqn:Hs; simpl; repeat case_match; try case_decide; intros [= <-]; simpl;
    rewrite ?app_nil_r, ?orb_true_r, ?orb_false_r; split_and!; auto;
    try (intros [?|[[? ?]|(? & ? & ?)]]; done).
Qed.

Lemma mark_pool_spec changes m pool m' :
  NoDup (Name <$> pool) →
  (∀ vm, vm ∈ pool → changeVMs m !! Name vm = changes !! Name vm) →
  (∀ vm, vm ∈ pool → updateVMs m !! Name vm = None) →
  mark_pool m pool = Ok m' →
  marked changes pool m m' ∧ changed m' = changed m || existsb (is_change changes) pool.
Proof.
  revert m. induction pool as [|vm pool IH]; simpl; intros m Hnd Hc Hu Hm.
  { injection Hm as <-. rewrite orb_false_r.
    split; [|done]. split; simpl; [set_solver|done|by rewrite app_nil_r|set_solver|by right]. }
  apply result_bind_ok in Hm as (m1 & H1 & Hm).
  apply names_cons in Hnd as (Hni & Hne & Hnd).
  destruct (mark_one_spec changes m vm m1) as (Hr & Hc1 & Hn1 & Hu1 & Ho1 & Hch1);
    [apply Hc; by left|done|].
  destruct (IH m1) as [[Ha Hb Hn Hup Ho] Hch]; [done| | |done|].
  { intros x Hx. rewrite Hc1, lookup_delete_ne by auto. apply Hc. by right. }
  { intros x Hx. rewrite Hu1. case_match; [rewrite lookup_insert_ne by auto|]; apply Hu; by right. }
  split; [|by rewrite Hch, Hch1, orb_assoc].
  split.
  - intros x [->|Hx]%elem_of_cons; auto.
  - intros n. rewrite Hb, Hc1. apply delete_names.
  - rewrite Hn, Hn1, <- app_assoc. f_equal. simpl. by destruct (kept changes vm).
  - intros n u. rewrite Hup, Hu1. setoid_rewrite elem_of_cons.
    assert (updateVMs m !! Name vm = None) as Hnone by (apply Hu; by left).
    destruct (updated changes vm) as [v|] eqn:Hv.
    + rewrite lookup_insert_Some. split.
      * intros [(x & Hx & Hn' & Hu')|[[<- <-]|[_ ?]]]; [left; exists x|left; exists vm|]; auto.
      * intros [(x & [->|Hx] & <- & Hu')|Hu']; [|left; by exists x|].
        -- right. left. split; [done|congruence].
        -- right. right. split; [congruence|done].
    + split.
      * intros [(x & Hx & Hn' & Hu')|?]; [left; exists x|]; auto.
      * intros [(x & [->|Hx] & <- & Hu')|?]; [congruence|left; by exists x|by right].
  - intros n o [(? & ?)|Hold]%Ho; [left; split; [by right|done]|].
    destruct Ho1 as [Ho1|(Ho1 & ? & ?)]; rewrite Ho1 in Hold; [by right|].
    apply lookup_insert_Some in Hold as [[<- <-]|[_ ?]]; [|by right].
    left. split_and!; [by left|done..].
Qed.

Lemma new_update_name vm u : new_update vm = Some u → Name u = Name vm.
Proof. unfold new_update. by destruct (State vm); intros [= <-]. Qed.

Lemma mark_new_spec l m :
  NoDup (Name <$> l) →
  (∀ vm, vm ∈ l → updateVMs m !! Name vm = None) →
  let m' := fold_left mark_new l m in
  newVMs m' = newVMs m ++ filter (λ vm, State vm = VM_ADD) l
  ∧ oldVMs m' = oldVMs m ∧ changeVMs m' = changeVMs m
  ∧ changed m' = changed m || negb (bool_decide (l = []))
  ∧ ∀ n u, updateVMs m' !! n = Some u ↔
      (∃ vm, vm ∈ l ∧ Name vm = n ∧ new_update vm = Some u) ∨ updateVMs m !! n = Some u.
Proof.
  revert m. induction l as [|vm l IH]; intros m Hnd Hu; simpl.
  { rewrite app_nil_r, orb_false_r. split_and!; set_solver. }
  apply names_cons in Hnd as (Hni & Hne & Hnd).
  assert (updateVMs (mark_new m vm) = (if new_update vm is Some u
            then <[Name vm := u]> (updateVMs m) else updateVMs m)
          ∧ newVMs (mark_new m vm) = newVMs m ++ filter (λ vm, State vm = VM_ADD) [vm]
          ∧ oldVMs (mark_new m vm) = oldVMs m ∧ changeVMs (mark_new m vm) = changeVMs m
          ∧ changed (mark_new m vm) = true) as (Hup & Hnew & Hold & Hch & Hcd).
  { unfold mark_new, new_update. rewrite filter_cons. simpl.
    destruct (State vm); simpl; try rewrite app_nil_r; split_and!; done. }
  destruct (IH (mark_new m vm)) as (H1 & H2 & H3 & H4 & H5); [done| |].
  { intros x Hx. rewrite Hup.
    case_match; [rewrite lookup_insert_ne by auto|]; apply Hu; by right. }
  split_and!; [|congruence..| |].
  - rewrite H1, Hnew, <- app_assoc. f_equal. rewrite !filter_cons. by case_decide.
  - rewrite H4, Hcd. by destruct (changed m).
  - intros n u. rewrite H5, Hup. setoid_rewrite elem_of_cons.
    assert (updateVMs m !! Name vm = None) as Hnone by (apply Hu; by left).
    destruct (new_update vm) as [v|] eqn:Hv.
    + rewrite lookup_insert_Some. split.
      * intros [(x & Hx & Hn' & Hu')|[[<- <-]|[_ ?]]]; [left; exists x|left; exists vm|]; auto.
      * intros [(x & [->|Hx] & <- & Hu')|Hu']; [|left; by exists x|].
        -- right. left. split; [done|congruence].
        -- right. right. split; [congruence|done].
    + split.
      * intros [(x & Hx & Hn' & Hu')|?]; [left; exists x|]; auto.
      * intros [(x & [->|Hx] & <- & Hu')|?]; [congruence|left; by exists x|by right].
Qed.

Lemma replace_pool_spec upd acc pool vms rest :
  NoDup (Name <$> pool) → replace_pool upd acc pool = Ok (vms, rest) →
  vms = acc ++ omap (λ vm, upd !! Name vm) pool
  ∧ (∀ n, rest !! n = if decide (n ∈ Name <$> pool) then None else upd !! n)
  ∧ ∀ vm, vm ∈ pool → upd !! Name vm = None → State vm = VM_FREE.
Proof.
  revert upd acc. induction pool as [|vm pool IH]; intros upd acc Hnd; simpl.
  { intros [= <- <-]. rewrite app_nil_r. split_and!; [done| |set_solver]. done. }
  apply names_cons in Hnd as (Hni & Hne & Hnd).
  destruct (upd !! Name vm) as [u|] eqn:Hup.
  - intros (Hv & Hr & Hf)%IH; [|done]. split_and!.
    + rewrite Hv, <- app_assoc. f_equal. simpl. f_equal. apply omap_ext_in.
      intros x Hx. rewrite lookup_delete_ne; auto.
    + intros n. rewrite Hr. apply delete_names.
    + intros x [->|Hx]%elem_of_cons Hx'; [congruence|].
      apply Hf; [done|]. rewrite lookup_delete_ne; auto.
  - case_decide as Hs; [done|]. intros (Hv & Hr & Hf)%IH; [|done]. split_and!.
    + done.
    + intros n. rewrite Hr. etrans; [|apply delete_names]. by rewrite (delete_id upd).
    + intros x [->|Hx]%elem_of_cons Hx'; [done|auto].
Qed.

Section MarkSpec.
Context {GR : GoRange}.

(** The result of [mark_vms] in terms of each VM. *)
Record mark_result (pool incoming new : list VM) (old : gmap string VM) : Prop := {
  mr_accepted : ∀ vm, vm ∈ pool → ¬ refused (by_name incoming) vm;
  mr_old : ∀ n o, old !! n = Some o → o ∈ pool ∧ Name o = n
    ∧ change_state (by_name incoming) o = Some VM_UPDATE ∧ moved (by_name incoming) o = true;
  mr_new : ∃ extra, NoDup (Name <$> extra) ∧
    let added := leftover (by_name incoming) pool in
    ((∀ vm, vm ∈ pool → updated (by_name incoming) vm = None)
     ∧ (∀ n vm, added !! n = Some vm → new_update vm = None)
     ∧ new = omap (kept (by_name incoming)) pool ++ extra
     ∧ ∀ x, x ∈ extra ↔ added !! Name x = Some x ∧ State x = VM_ADD)
    ∨ (((∃ vm, vm ∈ pool ∧ is_Some (updated (by_name incoming) vm))
        ∨ ∃ n vm, added !! n = Some vm ∧ is_Some (new_update vm))
     ∧ (∀ vm, vm ∈ pool → updated (by_name incoming) vm = None → State vm = VM_FREE)
     ∧ new = omap (updated (by_name incoming)) pool ++ extra
     ∧ ∀ x, x ∈ extra ↔ ∃ vm, added !! Name vm = Some vm ∧ new_update vm = Some x);
}.

Lemma values_names (m : gmap string VM) :
  (∀ n vm, m !! n = Some vm → Name vm = n) → Name <$> (go_range m).*2 = (go_range m).*1.
Proof.
  intros Hk. assert (∀ n vm, (n, vm) ∈ go_range m → Name vm = n) as Hk'
    by (intros n vm; rewrite elem_of_go_range; apply Hk).
  revert Hk'. induction (go_range m) as [|[n vm] l IH]; intros Hk'; simpl; [done|].
  rewrite (Hk' n vm) by left. f_equal. apply IH. intros; apply Hk'; by right.
Qed.
Lemma values_elem (m : gmap string VM) vm :
  (∀ n vm, m !! n = Some vm → Name vm = n) →
  vm ∈ (go_range m).*2 ↔ m !! Name vm = Some vm.
Proof.
  intros Hk. rewrite list_elem_of_fmap. split.
  - intros ([n x] & -> & Hin). apply elem_of_go_range in Hin. simpl. by rewrite (Hk n x).
  - intros Hm. exists (Name vm, vm). by rewrite elem_of_go_range.
Qed.

Lemma leftover_key incoming pool n vm :
  leftover (by_name incoming) pool !! n = Some vm → Name vm = n ∧ n ∉ Name <$> pool.
Proof. intros [H ?]%map_lookup_filter_Some. by apply by_name_key in H as [-> _]. Qed.

Lemma mark_pool_leftover incoming pool m m' :
  changeVMs m = by_name incoming → marked (by_name incoming) pool m m' →
  changeVMs m' = leftover (by_name incoming) pool.
Proof.
  intros Hm [_ Hc _ _ _]. apply map_eq. intros n. rewrite Hc, Hm. unfold leftover.
  destruct (decide (n ∈ Name <$> pool)) as [Hin|Hin].
  - symmetry. apply map_lookup_filter_None. right. intros x _ Hx. by apply Hx.
  - destruct (by_name incoming !! n) as [x|] eqn:Hx; symmetry.
    + by apply map_lookup_filter_Some.
    + apply map_lookup_filter_None. by left.
Qed.

(** The first two loops of [markUpdateVMs]. *)
Lemma mark_loops pool incoming m1 :
  NoDup (Name <$> pool) →
  mark_pool (mkMarks (by_name incoming) false [] [] ∅ ∅) pool = Ok m1 →
  let added := leftover (by_name incoming) pool in
  let m2 := fold_left (λ m kv, mark_new m kv.2) (go_range (changeVMs m1)) m1 in
  (∀ vm, vm ∈ pool → ¬ refused (by_name incoming) vm)
  ∧ (∀ n o, oldVMs m2 !! n = Some o → o ∈ pool ∧ Name o = n
      ∧ change_state (by_name incoming) o = Some VM_UPDATE ∧ moved (by_name incoming) o = true)
  ∧ newVMs m2 = omap (kept (by_name incoming)) pool
                ++ filter (λ vm, State vm = VM_ADD) (go_range added).*2
  ∧ changed m2 = existsb (is_change (by_name incoming)) pool
                 || negb (bool_decide ((go_range added).*2 = []))
  ∧ ∀ n u, updateVMs m2 !! n = Some u ↔
      (∃ vm, vm ∈ pool ∧ Name vm = n ∧ updated (by_name incoming) vm = Some u)
      ∨ ∃ vm, added !! n = Some vm ∧ new_update vm = Some u.
Proof.
  intros Hnd H1 added. apply (mark_pool_spec (by_name incoming)) in H1 as [Hm Hch]; [|done..].
  pose proof (mark_pool_leftover incoming pool (mkMarks (by_name incoming) false [] [] ∅ ∅)
    m1 eq_refl Hm) as Hadded.
  destruct Hm as [Ha _ Hn Hup Hold]. simpl in *. rewrite Hadded. fold added.
  assert (∀ n vm, added !! n = Some vm → Name vm = n) as Hkey
    by (intros n vm [? _]%leftover_key; done).
  assert (fold_left (λ m kv, mark_new m kv.2) (go_range added) m1
          = fold_left mark_new (go_range added).*2 m1) as ->.
  { clear. generalize m1. induction (go_range added); simpl; auto. }
  destruct (mark_new_spec (go_range added).*2 m1) as (Hn2 & Ho2 & _ & Hc2 & Hu2).
  { rewrite values_names by done. apply NoDup_go_range. }
  { intros vm Hin. apply values_elem in Hin; [|done]. apply leftover_key in Hin as [_ Hno].
    apply eq_None_not_Some. intros [u [(x & Hx & Hxn & _)|Hu]%Hup]; [|done].
    apply Hno. rewrite <- Hxn. by apply list_elem_of_fmap_2. }
  split_and!; [done| |by rewrite Hn2, Hn|by rewrite Hc2, Hch|].
  - intros n o Ho. rewrite Ho2 in Ho. by apply Hold in Ho as [?|?].
  - intros n u. rewrite Hu2, Hup. split.
    + intros [(vm & Hin & Hvn & Hv)|[?|Hv]]; [|by left|done].
      right. exists vm. apply values_elem in Hin; [|done]. by rewrite Hvn in Hin.
    + intros [?|(vm & Hin & Hv)]; [by right; left|]. left. exists vm.
      pose proof (Hkey n vm Hin) as <-. by rewrite values_elem.
Qed.

Lemma mark_vms_spec pool incoming new old val :
  NoDup (Name <$> pool) → mark_vms pool incoming = Ok (Some (new, old, val)) →
  mark_result pool incoming new old.
Proof.
  intros Hnd Hmark. unfold mark_vms in Hmark. fold (by_name incoming) in Hmark.
  apply result_bind_ok in Hmark as (m1 & H1 & Hmark).
  destruct (mark_loops pool incoming m1) as (Ha & Hold & Hnew & _ & Hup); [done..|].
  set (m2 := fold_left _ _ _) in *. set (added := leftover _ _) in *.
  assert (∀ n vm, added !! n = Some vm → Name vm = n) as Hkey
    by (intros n vm [? _]%leftover_key; done).
  apply result_bind_ok in Hmark as (m3 & H3 & Hmark).
  destruct (changed m3); [|done]. injection Hmark as <- <- <-.
  case_decide as Hs.
  - injection H3 as <-. apply map_size_empty_inv in Hs.
    assert (∀ n u, updateVMs m2 !! n ≠ Some u) as Hno by (intros; by rewrite Hs, lookup_empty).
    split; [done|done|]. eexists. split; [|left; split_and!; [| |exact Hnew|]].
    + eapply sublist_NoDup; [|apply fmap_sublist, sublist_filter].
      rewrite values_names by done. apply NoDup_go_range.
    + intros vm Hin. destruct (updated _ _) as [u|] eqn:Hu; [exfalso|done].
      apply (Hno (Name vm) u), Hup. eauto.
    + intros n vm Hin. destruct (new_update vm) as [u|] eqn:Hu; [exfalso|done].
      apply (Hno n u), Hup. eauto.
    + intros x. rewrite list_elem_of_filter, values_elem by done. tauto.
  - apply result_bind_ok in H3 as ([vms rest] & H3 & [= <-]). simpl.
    apply replace_pool_spec in H3 as (Hv & Hr & Hf); [|done].
    assert (∀ vm, vm ∈ pool → updateVMs m2 !! Name vm = updated (by_name incoming) vm) as Hpu.
    { intros vm Hin. apply option_eq. intros u. rewrite Hup. split.
      - intros [(x & Hx & Hxn & Hu)|(x & Hx & _)].
        + by rewrite (same_name pool vm x).
        + apply leftover_key in Hx as [_ Hno]. destruct Hno. by apply list_elem_of_fmap_2.
      - intros Hu. left. eauto. }
    assert (∀ n u, rest !! n = Some u ↔ ∃ vm, added !! n = Some vm ∧ new_update vm = Some u)
      as Hrest.
    { intros n u. rewrite Hr. case_decide as Hin.
      - split; [done|]. intros (vm & [_ Hno]%leftover_key & _). done.
      - rewrite Hup. split; [|by right]. intros [(vm & Hvm & <- & _)|?]; [|done].
        exfalso. apply Hin. by apply list_elem_of_fmap_2. }
    assert (∀ n u, rest !! n = Some u → Name u = n) as Hrkey.
    { intros n u (vm & Hvm%Hkey & Hu%new_update_name)%Hrest. congruence. }
    split; [done|done|]. exists (go_range rest).*2. split; [|right; split_and!].
    + rewrite values_names by done. apply NoDup_go_range.
    + destruct (map_choose (updateVMs m2)) as (n & u & Hu);
        [by intros He; rewrite He in Hs|].
      apply Hup in Hu as [(vm & ? & _ & ?)|(vm & ? & ?)]; [left|right]; unfold is_Some; eauto.
    + intros vm Hin Hu. apply Hf; [done|]. by rewrite Hpu.
    + rewrite Hv. simpl. f_equal. by apply omap_ext_in.
    + intros x. rewrite values_elem, Hrest by done. split; intros (vm & Hvm & Hx); exists vm.
      * pose proof (new_update_name vm x Hx) as Hn. by rewrite <- Hn.
      * pose proof (new_update_name vm x Hx) as Hn. by rewrite Hn.
Qed.
End MarkSpec.

(** ** The two steps of an update keep what is in use *)

Definition busy (vm : VM) : Prop := State vm = VM_IN_USE ∨ State vm = VM_IN_PROGRESS.
(** No VM is in the middle of an update. *)
Definition settled (pool : list VM) : Prop :=
  ∀ vm, vm ∈ pool → State vm ≠ VM_ADD ∧ State vm ≠ VM_REMOVE ∧ State vm ≠ VM_UPDATE.
(** The incoming pool frees the VM by force. *)
Definition forced (incoming : list VM) (vm : VM) : Prop :=
  change_state (by_name incoming) vm = Some VM_FORCE_FREE.

Lemma updated_name incoming vm u :
  updated (by_name incoming) vm = Some u → Name u = Name vm.
Proof.
  unfold updated. destruct (change_state _ _) as [[]|]; try done; [|by intros [= <-]].
  case_match; [|by intros [= <-]]. by intros [? _]%by_name_key.
Qed.
Lemma kept_name changes vm u : kept changes vm = Some u → Name u = Name vm.
Proof. unfold kept. by destruct (change_state _ _) as [[]|]; intros [= <-]. Qed.

Lemma NoDup_omap_names (f : VM → option VM) pool :
  (∀ vm u, vm ∈ pool → f vm = Some u → Name u = Name vm) →
  NoDup (Name <$> pool) → NoDup (Name <$> omap f pool).
Proof.
  intros Hf Hnd. induction pool as [|vm pool IH]; [done|].
  apply names_cons in Hnd as (_ & Hne & Hnd).
  assert (NoDup (Name <$> omap f pool)) as Hrec by (apply IH; [|done]; set_solver).
  cbn. destruct (f vm) as [u|] eqn:Hu; [|done]. cbn. apply NoDup_cons. split; [|done].
  rewrite (Hf vm u) by (done || by left).
  intros (y & Hy & Hin)%list_elem_of_fmap. apply list_elem_of_omap in Hin as (x & Hx & Hxy).
  apply (Hne x Hx). rewrite Hy. apply (Hf x y); [by right|done].
Qed.

Lemma mark_result_names {GR : GoRange} pool incoming new old :
  NoDup (Name <$> pool) → mark_result pool incoming new old → NoDup (Name <$> new).
Proof.
  intros Hnd [_ _ (extra & Hne & Hnew)].
  assert (∀ f l, (∀ vm u, vm ∈ pool → f vm = Some u → Name u = Name vm) →
    l = omap f pool ++ extra → (∀ x, x ∈ extra → Name x ∉ Name <$> pool) →
    NoDup (Name <$> l)) as Happ.
  { intros f l Hf -> Hex. rewrite fmap_app. apply NoDup_app.
    split_and!; [by apply NoDup_omap_names| |done].
    intros n (u & -> & (vm & Hvm & Hu)%list_elem_of_omap)%list_elem_of_fmap
      (x & Hxn & Hx)%list_elem_of_fmap.
    apply (Hex x Hx). rewrite <- Hxn, (Hf vm u) by done. by apply list_elem_of_fmap_2. }
  destruct Hnew as [(_ & _ & -> & Hx)|(_ & _ & -> & Hx)]; (eapply Happ; [|done|]).
  - intros vm u _. apply kept_name.
  - intros x [Hin _]%Hx. by apply leftover_key in Hin as [_ ?].
  - intros vm u _. apply updated_name.
  - intros x (vm & Hin & Hu%new_update_name)%Hx. rewrite Hu.
    by apply leftover_key in Hin as [_ ?].
Qed.

Lemma mark_result_used pool incoming new old vm :
  mark_result pool incoming new old →
  vm ∈ pool → State vm ≠ VM_FREE → ¬ forced incoming vm → vm ∈ new.
Proof.
  intros [Ha _ (extra & _ & Hnew)] Hin Hs Hf. pose proof (Ha vm Hin) as Hr.
  assert (∀ s, change_state (by_name incoming) vm = Some s →
    s ≠ VM_ADD ∧ s ≠ VM_REMOVE ∧ s ≠ VM_FORCE_FREE
    ∧ (s = VM_UPDATE → updated (by_name incoming) vm = Some vm)) as Hc.
  { intros s Hc. unfold refused, forced, updated in *. rewrite Hc in *.
    split_and!; try (intros ->; auto 6; fail).
    intros ->. destruct (moved _ _); [|done]. destruct Hr. auto. }
  unfold kept, updated in *.
  destruct Hnew as [(Hu & _ & -> & _)|(_ & Hu & -> & _)]; apply elem_of_app; left;
    apply list_elem_of_omap; exists vm; (split; [done|]); specialize (Hu vm Hin);
    destruct (change_state (by_name incoming) vm) as [s|]; try done.
  - destruct (Hc s eq_refl) as (? & ? & ? & Hupd).
    destruct s; try done. by rewrite Hupd in Hu.
  - destruct (Hc s eq_refl) as (? & ? & ? & Hupd).
    destruct s; try done; try (by destruct Hs; apply Hu). by apply Hupd.
  - by destruct Hs; apply Hu.
Qed.

Lemma finish_names err old pool :
  (∀ n o, old !! n = Some o → Name o = n) →
  NoDup (Name <$> pool) → NoDup (Name <$> finish_vms err old pool).
Proof.
  intros Hold Hnd. destruct err; apply NoDup_omap_names; try done; intros vm u _.
  - unfold revert_vm. destruct (State vm); intros [= <-]; try done.
    destruct (old !! Name vm) as [o|] eqn:Ho; [|done]. simpl. by apply Hold.
  - unfold commit_vm. by destruct (State vm); intros [= <-].
Qed.
Lemma finish_busy err old pool vm : vm ∈ pool → busy vm → vm ∈ finish_vms err old pool.
Proof.
  intros Hin Hb. destruct err; apply list_elem_of_omap; exists vm; split; try done;
    unfold revert_vm, commit_vm; by destruct Hb as [-> | ->].
Qed.
Lemma finish_settled err old pool : settled (finish_vms err old pool).
Proof.
  intros vm Hin. destruct err; apply list_elem_of_omap in Hin as (x & _ & Hx);
    unfold revert_vm, commit_vm in Hx; destruct (State x) eqn:Hs; simplify_eq/=;
    rewrite ?Hs; done.
Qed.

(** ** The handler *)

Section Handler.
Context {GR : GoRange} (VerifyVMs : list VM → option error) (ssh_flavor : VM → result string).

(** The VM up to its flavor. *)
Definition same_vm (a b : VM) : Prop :=
  Name a = Name b ∧ NetInfo a = NetInfo b ∧ GroupName a = GroupName b ∧ State a = State b
  ∧ InternalName a = InternalName b ∧ UpdatedAt a = UpdatedAt b.

Lemma same_vms_refl l : Forall2 same_vm l l.
Proof. induction l; by constructor. Qed.

Lemma flavor_loop_same vms acc flavors r :
  flavor_loop ssh_flavor vms acc flavors = Ok r →
  ∃ vms', r.2 = acc ++ vms' ∧ Forall2 same_vm vms vms'.
Proof.
  revert acc flavors. induction vms as [|vm vms IH]; intros acc flavors; simpl.
  { intros [= <-]. exists []. by rewrite app_nil_r. }
  intros ([vm' fl] & Hvm & Hl)%result_bind_ok. apply IH in Hl as (vms' & -> & Hall).
  exists (vm' :: vms'). rewrite <- app_assoc. split; [done|]. constructor; [|done].
  unfold vm_flavor in Hvm. case_decide; [done|]. inv_result.
  repeat case_match; try done. inv_result. done.
Qed.

Lemma GetFlavorList_same cd :
  let cd' := (GetFlavorList ssh_flavor cd).1 in
  Forall2 same_vm (pool_Vms cd) (pool_Vms cd') ∧ VMPoolCache cd' = VMPoolCache cd.
Proof.
  pose proof (same_vms_refl (pool_Vms cd)).
  unfold GetFlavorList, gather_flavors. case_decide; [done|].
  destruct (flavor_loop _ _ _ _) as [[flavors vms]|e] eqn:Hl; [|done].
  apply flavor_loop_same in Hl as (vms' & Hv & Hall). simpl in Hv. subst vms.
  case_decide; simpl; [done|]. assert (vms' = []) as -> by (by destruct vms').
  by apply Forall2_nil_inv_r in Hall as ->.
Qed.

Lemma same_vms_names l l' : Forall2 same_vm l l' → Name <$> l' = Name <$> l.
Proof. induction 1 as [|x y l l' (Hn & _) _ IH]; csimpl; [done|]. congruence. Qed.

Lemma refresh_same cd :
  let cd' := refresh_cloudlet_info ssh_flavor cd in
  Forall2 same_vm (pool_Vms cd) (pool_Vms cd').
Proof.
  unfold refresh_cloudlet_info. pose proof (GetFlavorList_same cd) as [Hs _].
  destruct (CloudletInfoCache cd); [|apply same_vms_refl].
  by destruct (GetFlavorList ssh_flavor cd) as [cd' []].
Qed.

(** The pool after the second step: what [finish_vms] leaves, up to flavors,
    and it is what the controller is told. *)
Lemma finish_update_pool err old cd :
  let cd' := finish_update ssh_flavor err old cd in
  Forall2 same_vm (finish_vms err old (pool_Vms cd)) (pool_Vms cd')
  ∧ ∃ info, last (published cd') = Some info ∧ vi_Vms info = pool_Vms cd'
      ∧ vi_State info = (if err is Some _ then UPDATE_ERROR else READY).
Proof.
  destruct err as [e|]; unfold finish_update, UpdateVMPoolInfo, publish; cbn [pool_Vms published].
  - split; [apply same_vms_refl|]. eexists. by rewrite last_snoc.
  - pose proof (refresh_same (set_Vms (finish_vms None old (pool_Vms cd)) cd)) as Hs.
    split; [done|]. eexists. by rewrite last_snoc.
Qed.

(** C7: an update of the pool by the controller keeps the names of the VMs
    unique and leaves no VM in the middle of an update, and a VM that is in
    use keeps its place, networks, group and name unless the update frees it
    by force, whether the update is refused, its VMs cannot be verified or it
    succeeds.  The controller is always told the end of the update: the last
    state published is READY or UPDATE_ERROR, with the pool as it is. *)
Theorem UpdateVMPool_safe key cd vmPool :
  VMPoolCache cd !! key = Some vmPool →
  NoDup (Name <$> pool_Vms cd) → settled (pool_Vms cd) →
  let cd' := UpdateVMPool VerifyVMs ssh_flavor key cd in
  NoDup (Name <$> pool_Vms cd') ∧ settled (pool_Vms cd')
  ∧ (∀ vm, vm ∈ pool_Vms cd → busy vm → ¬ forced (Vms vmPool) vm →
       ∃ vm', vm' ∈ pool_Vms cd' ∧ same_vm vm vm')
  ∧ ∃ info, last (published cd') = Some info ∧ vi_Vms info = pool_Vms cd'
      ∧ (vi_State info = READY ∨ vi_State info = UPDATE_ERROR).
Proof.
  intros Hk Hnd Hset. unfold UpdateVMPool, markUpdateVMs. rewrite Hk. cbn [pool_Vms].
  destruct (mark_vms _ _) as [[[[new old] val]|]|e] eqn:Hm.
  - apply mark_vms_spec in Hm as Hm; [|done].
    pose proof (mark_result_names _ _ _ _ Hnd Hm) as Hndn.
    set (err := if decide (val ≠ []) then VerifyVMs val else None).
    destruct (finish_update_pool err old (set_Vms new (UpdateVMPoolInfo UPDATING "" cd)))
      as [Hs (info & Hl & Hv & Hst)]. cbn [pool_Vms set_Vms] in Hs.
    assert (NoDup (Name <$> finish_vms err old new)) as Hndf.
    { apply finish_names; [|done]. intros n o Ho. by apply Hm in Ho as (_ & ? & _). }
    split_and!.
    + by rewrite (same_vms_names _ _ Hs).
    + intros x Hx. apply list_elem_of_lookup in Hx as [i Hi].
      destruct (Forall2_lookup_r _ _ _ _ _ Hs Hi) as (y & Hy & _ & _ & _ & <- & _).
      apply (finish_settled err old new). by eapply list_elem_of_lookup_2.
    + intros vm Hin Hb Hf.
      assert (vm ∈ finish_vms err old new) as Hin'.
      { apply finish_busy; [|done]. eapply mark_result_used; [done|done| |done].
        by destruct Hb as [-> | ->]. }
      apply list_elem_of_lookup in Hin' as [i Hi].
      destruct (Forall2_lookup_l _ _ _ _ _ Hs Hi) as (y & Hy & Hsame).
      exists y. split; [by eapply list_elem_of_lookup_2|done].
    + exists info. split_and!; [done|done|]. rewrite Hst. destruct err; auto.
  - split_and!; [done|done| |].
    + intros vm ? _ _. by exists vm.
    + eexists. cbn. rewrite last_snoc. eauto.
  - split_and!; [done|done| |].
    + intros vm ? _ _. by exists vm.
    + eexists. cbn. rewrite last_snoc. eauto.
Qed.
End Handler.

(** ** Replacing the pool, and failed updates *)

Section Replace.
Context {GR : GoRange}.

Lemma mark_one_ok changes m vm :
  changeVMs m !! Name vm = changes !! Name vm → ¬ refused changes vm →
  ∃ m', mark_one m vm = Ok m'.
Proof.
  unfold refused, change_state, moved, mark_one. intros -> Hr.
  destruct (changes !! Name vm) as [c|]; [|eauto]. simpl in Hr.
  destruct (State c); eauto; repeat case_match; try case_decide; eauto;
    destruct Hr; auto 6.
Qed.
Lemma mark_pool_ok changes m pool :
  NoDup (Name <$> pool) →
  (∀ vm, vm ∈ pool → changeVMs m !! Name vm = changes !! Name vm) →
  (∀ vm, vm ∈ pool → ¬ refused changes vm) → ∃ m', mark_pool m pool = Ok m'.
Proof.
  revert m. induction pool as [|vm pool IH]; intros m Hnd Hc Hr; simpl; [eauto|].
  apply names_cons in Hnd as (_ & Hne & Hnd).
  destruct (mark_one_ok changes m vm) as [m1 H1]; [by apply Hc; left|by apply Hr; left|].
  rewrite H1. simpl. apply IH; [done| |intros; apply Hr; by right].
  intros x Hx. apply (mark_one_spec changes) in H1 as (_ & -> & _); [|apply Hc; by left].
  rewrite lookup_delete_ne by auto. apply Hc. by right.
Qed.
Lemma replace_pool_ok upd acc pool :
  NoDup (Name <$> pool) →
  (∀ vm, vm ∈ pool → upd !! Name vm = None → State vm = VM_FREE) →
  ∃ r, replace_pool upd acc pool = Ok r.
Proof.
  revert upd acc. induction pool as [|vm pool IH]; intros upd acc Hnd Hf; simpl; [eauto|].
  apply names_cons in Hnd as (_ & Hne & Hnd). destruct (upd !! Name vm) as [u|] eqn:Hu.
  - apply IH; [done|]. intros x Hx. rewrite lookup_delete_ne by auto. apply Hf. by right.
  - rewrite decide_False by (intros Hs; by apply Hs, Hf; [left|]).
    apply IH; [done|]. intros; apply Hf; [by right|done].
Qed.

Lemma mark_vms_ok pool incoming :
  NoDup (Name <$> pool) →
  (∀ vm, vm ∈ pool → ¬ refused (by_name incoming) vm) →
  (∀ vm, vm ∈ pool → updated (by_name incoming) vm = None → State vm = VM_FREE) →
  ∃ r, mark_vms pool incoming = Ok r.
Proof.
  intros Hnd Hr Hf. unfold mark_vms. fold (by_name incoming).
  destruct (mark_pool_ok (by_name incoming) (mkMarks (by_name incoming) false [] [] ∅ ∅) pool)
    as [m1 H1]; [done..|].
  rewrite H1. simpl. destruct (mark_loops pool incoming m1) as (_ & _ & _ & _ & Hup); [done..|].
  set (m2 := fold_left _ _ _) in *. case_decide; simpl; [eauto|].
  destruct (replace_pool_ok (updateVMs m2) [] pool) as [[vms rest] Hrep]; [done| |].
  - intros vm Hin Hno. apply Hf; [done|]. destruct (updated _ _) as [u|] eqn:Hu; [|done].
    assert (updateVMs m2 !! Name vm = Some u) by (apply Hup; left; eauto). congruence.
  - rewrite Hrep. simpl. eauto.
Qed.

(** Nothing to update: no VM is named by the update. *)
Lemma mark_vms_none pool incoming :
  NoDup (Name <$> pool) → mark_vms pool incoming = Ok None →
  (∀ vm, vm ∈ pool → is_change (by_name incoming) vm = false)
  ∧ leftover (by_name incoming) pool = ∅.
Proof.
  intros Hnd Hmark. unfold mark_vms in Hmark. fold (by_name incoming) in Hmark.
  apply result_bind_ok in Hmark as (m1 & H1 & Hmark).
  destruct (mark_loops pool incoming m1) as (_ & _ & _ & Hch & _); [done..|].
  set (m2 := fold_left _ _ _) in *. apply result_bind_ok in Hmark as (m3 & H3 & Hmark).
  destruct (changed m3) eqn:H3c; [done|]. case_decide.
  - injection H3 as <-. rewrite Hch in H3c. apply orb_false_elim in H3c as [Hex Hl].
    split.
    + intros vm Hin. destruct (is_change _ vm) eqn:E; [|done].
      rewrite (proj2 (existsb_exists _ _)) in Hex; [done|].
      exists vm. by rewrite <- list_elem_of_In.
    + apply negb_false_iff, bool_decide_eq_true, fmap_nil_inv in Hl.
      rewrite <- (list_to_map_go_range (leftover _ _)), Hl. done.
  - by apply result_bind_ok in H3 as ([? ?] & _ & [= <-]).
Qed.

Section Update.
Context (pool incoming : list VM).
Context (Hpool : NoDup (Name <$> pool)) (Hincoming : NoDup (Name <$> incoming)).

Lemma change_state_in vm c :
  c ∈ incoming → Name c = Name vm →
  by_name incoming !! Name vm = Some c
  ∧ change_state (by_name incoming) vm = Some (State c)
  ∧ moved (by_name incoming) vm = isVMChanged vm c.
Proof.
  intros Hc Hn. pose proof (lookup_by_name incoming c Hincoming Hc) as Hl. rewrite Hn in Hl.
  unfold change_state, moved. by rewrite Hl.
Qed.
Lemma change_state_some vm s :
  change_state (by_name incoming) vm = Some s →
  ∃ c, c ∈ incoming ∧ Name c = Name vm ∧ State c = s.
Proof.
  unfold change_state. intros (c & <- & Hc)%fmap_Some_1 || intros (c & Hc & ->)%fmap_Some_1.
  apply by_name_key in Hc as [??]. eauto.
Qed.

Context (Hall : ∀ c, c ∈ incoming → State c = VM_UPDATE).

Lemma isVMChanged_false a b : isVMChanged a b = false ↔ NetInfo b = NetInfo a.
Proof.
  unfold isVMChanged. rewrite bool_decide_eq_false. destruct (NetInfo a), (NetInfo b); simpl.
  split; [|intros [= -> ->]; tauto]. intros H. f_equal; apply dec_stable; tauto.
Qed.
Lemma isVMChanged_true a b : isVMChanged a b = true ↔ NetInfo b ≠ NetInfo a.
Proof. rewrite <- isVMChanged_false. by destruct (isVMChanged a b). Qed.

(** The VMs in use are in the incoming pool, with their networks. *)
Definition in_use_kept : Prop :=
  ∀ vm, vm ∈ pool → State vm ≠ VM_FREE →
  ∃ c, c ∈ incoming ∧ Name c = Name vm ∧ NetInfo c = NetInfo vm.

Lemma update_updated vm u :
  updated (by_name incoming) vm = Some u ↔
  ∃ c, c ∈ incoming ∧ Name c = Name vm ∧ u = if isVMChanged vm c then c else vm.
Proof.
  split.
  - unfold updated. intros Hu.
    destruct (change_state (by_name incoming) vm) as [s|] eqn:Hs; [|done].
    apply change_state_some in Hs as (c & Hc & Hn & Hst).
    destruct (change_state_in vm c) as (Hl & _ & Hm); [done..|].
    rewrite Hall in Hst by done. subst s. exists c. rewrite Hm, Hl in Hu.
    split_and!; [done..|]. by case_match; injection Hu.
  - intros (c & Hc & Hn & ->). destruct (change_state_in vm c) as (Hl & Hs & Hm); [done..|].
    unfold updated. rewrite Hs, (Hall c), Hm by done. by case_match.
Qed.

Lemma update_accepted :
  in_use_kept ↔ (∀ vm, vm ∈ pool → ¬ refused (by_name incoming) vm)
    ∧ ∀ vm, vm ∈ pool → updated (by_name incoming) vm = None → State vm = VM_FREE.
Proof.
  split.
  - intros Hk. split.
    + intros vm Hin Hr. unfold refused in Hr.
      destruct Hr as [H|[[H _]|(H & Hm & Hs)]];
        apply change_state_some in H as Hc; destruct Hc as (c & Hc & Hn & Hst);
        rewrite Hall in Hst by done; try done.
      destruct (Hk vm Hin Hs) as (c' & Hc' & Hn' & Hch%isVMChanged_false).
      destruct (change_state_in vm c') as (_ & _ & Hm'); [done..|]. congruence.
    + intros vm Hin Hu. apply dec_stable. intros Hs.
      destruct (Hk vm Hin Hs) as (c & Hc & Hn & Hch%isVMChanged_false).
      assert (updated (by_name incoming) vm = Some vm) as Hu'; [|congruence].
      apply update_updated. exists c. by rewrite Hch.
  - intros [Hr Hf] vm Hin Hs.
    destruct (updated (by_name incoming) vm) as [u|] eqn:Hu; [|by apply Hf in Hin].
    apply update_updated in Hu as (c & Hc & Hn & _). exists c. split_and!; [done..|].
    apply isVMChanged_false. destruct (isVMChanged vm c) eqn:Hch; [|done]. exfalso. apply (Hr vm Hin).
    destruct (change_state_in vm c) as (_ & Hst & Hm); [done..|].
    right. right. by rewrite Hst, Hall, Hm.
Qed.

Lemma nonempty_in : incoming ≠ [] → ∃ c, c ∈ incoming.
Proof. clear. destruct incoming as [|c l]; [done|]. exists c. by left. Qed.

Lemma leftover_in c :
  leftover (by_name incoming) pool !! Name c = Some c
  ↔ c ∈ incoming ∧ Name c ∉ Name <$> pool.
Proof.
  unfold leftover. rewrite map_lookup_filter_Some. split.
  - intros [[_ Hc]%by_name_key ?]. done.
  - intros [Hc ?]. split; [|done]. by apply lookup_by_name.
Qed.
Lemma new_update_all c : c ∈ incoming → new_update c = Some c.
Proof. intros Hc. unfold new_update. by rewrite Hall. Qed.

(** The pool after both steps, for an update of the whole pool. *)
Lemma update_committed extra x :
  settled pool →
  (∀ y, y ∈ extra ↔ ∃ vm, leftover (by_name incoming) pool !! Name vm = Some vm
                          ∧ new_update vm = Some y) →
  x ∈ omap commit_vm (omap (updated (by_name incoming)) pool ++ extra) ↔
  (x ∈ pool ∧ ∃ c, c ∈ incoming ∧ Name c = Name x ∧ NetInfo c = NetInfo x)
  ∨ ∃ c, c ∈ incoming ∧ x = set_State VM_FREE c
      ∧ ∀ vm, vm ∈ pool → Name vm = Name c → NetInfo c ≠ NetInfo vm.
Proof.
  intros Hset Hex.
  assert (∀ c, c ∈ incoming → commit_vm c = Some (set_State VM_FREE c)) as Hcommit
    by (intros c Hc; unfold commit_vm; by rewrite Hall).
  assert (∀ vm, vm ∈ pool → commit_vm vm = Some vm) as Hstay.
  { intros vm Hin. destruct (Hset vm Hin) as (? & ? & ?). unfold commit_vm. by destruct (State vm). }
  rewrite list_elem_of_omap. setoid_rewrite elem_of_app. setoid_rewrite list_elem_of_omap.
  split.
  - intros (u & [(vm & Hin & (c & Hc & Hn & ->)%update_updated)|(c & Hl & Hu)%Hex] & Hx).
    + destruct (isVMChanged vm c) eqn:Hch.
      * right. exists c. rewrite Hcommit in Hx by done. split_and!; [done|congruence|].
        intros vm' Hin' Hn'. apply isVMChanged_true. by rewrite (same_name pool vm' vm) by congruence.
      * left. rewrite Hstay in Hx by done. injection Hx as <-. apply isVMChanged_false in Hch. eauto.
    + right. apply leftover_in in Hl as [Hc Hno]. rewrite new_update_all in Hu by done.
      injection Hu as <-. rewrite Hcommit in Hx by done. exists c. split_and!; [done|congruence|].
      intros vm Hin Hn. destruct Hno. rewrite <- Hn. by apply list_elem_of_fmap_2.
  - intros [(Hin & c & Hc & Hn & Hch%isVMChanged_false)|(c & Hc & -> & Hch)].
    + exists x. rewrite Hstay by done. split; [|done]. left. exists x. split; [done|].
      apply update_updated. exists c. by rewrite Hch.
    + exists c. rewrite Hcommit by done. split; [|done].
      destruct (decide (Name c ∈ Name <$> pool)) as [(vm & Hn & Hin)%list_elem_of_fmap|Hno].
      * left. exists vm. split; [done|]. apply update_updated. exists c.
        by rewrite (proj2 (isVMChanged_true vm c)) by auto.
      * right. apply Hex. exists c. by rewrite leftover_in, new_update_all.
Qed.

(** An update with new VMs for the whole pool is accepted exactly when the
    VMs in use are among them with the same networks; once it is taken over,
    the pool consists of the VMs that are in the new pool with the same
    networks, unchanged, and of the others of the new pool, as free VMs. *)
Theorem update_replaces :
  settled pool → incoming ≠ [] →
  match mark_vms pool incoming with
  | Err _ => ¬ in_use_kept
  | Ok None => False
  | Ok (Some (new, old, _)) => in_use_kept ∧
      ∀ x, x ∈ finish_vms None old new ↔
        (x ∈ pool ∧ ∃ c, c ∈ incoming ∧ Name c = Name x ∧ NetInfo c = NetInfo x)
        ∨ ∃ c, c ∈ incoming ∧ x = set_State VM_FREE c
            ∧ ∀ vm, vm ∈ pool → Name vm = Name c → NetInfo c ≠ NetInfo vm
  end.
Proof.
  intros Hset Hne. destruct (mark_vms pool incoming) as [[[[new old] val]|]|e] eqn:Hm.
  - apply mark_vms_spec in Hm as [Ha _ (extra & _ & [(Hu & Hl & _)|(_ & Hf & -> & Hex)])];
    [exfalso| |done].
    + destruct nonempty_in as [c Hc]; [done|].
      destruct (decide (Name c ∈ Name <$> pool)) as [(vm & Hn & Hin)%list_elem_of_fmap|Hno].
      * specialize (Hu vm Hin).
        assert (updated (by_name incoming) vm = Some (if isVMChanged vm c then c else vm)); [|congruence].
        apply update_updated. by exists c.
      * assert (leftover (by_name incoming) pool !! Name c = Some c) as Hlo by by apply leftover_in.
        apply Hl in Hlo. by rewrite new_update_all in Hlo.
    + split; [by apply update_accepted|]. intros x. by apply update_committed.
  - apply mark_vms_none in Hm as [Hno Hl]; [|done].
    destruct nonempty_in as [c Hc]; [done|].
    destruct (decide (Name c ∈ Name <$> pool)) as [(vm & Hn & Hin)%list_elem_of_fmap|Hnin].
    + specialize (Hno vm Hin). unfold is_change in Hno.
      destruct (change_state_in vm c) as (_ & Hs & _); [done..|].
      by rewrite Hs, Hall in Hno.
    + assert (leftover (by_name incoming) pool !! Name c = Some c) as Hlo.
      { apply map_lookup_filter_Some. split; [by apply lookup_by_name|done]. }
      by rewrite Hl, lookup_empty in Hlo.
  - intros Hk. apply update_accepted in Hk as [Hr Hf].
    destruct (mark_vms_ok pool incoming) as [r Hok]; [done..|]. congruence.
Qed.
End Update.

Lemma omap_inverse {A B} (f : A → option B) (g : B → option A) (l : list A) :
  (∀ x, x ∈ l → ∃ y, f x = Some y ∧ g y = Some x) → omap g (omap f l) = l.
Proof.
  induction l as [|x l IH]; intros H; [done|].
  destruct (H x) as (y & Hy & Hg); [by left|]. cbn. rewrite Hy. cbn. rewrite Hg. f_equal.
  apply IH. intros; apply H; by right.
Qed.
Lemma kept_reverts changes old vm :
  ¬ refused changes vm → updated changes vm = None →
  State vm ≠ VM_ADD ∧ State vm ≠ VM_REMOVE ∧ State vm ≠ VM_UPDATE →
  ∃ y, kept changes vm = Some y ∧ revert_vm old y = Some vm.
Proof.
  intros Hr Hu (H1 & H2 & H3). unfold refused, updated, kept, change_state, moved in *.
  destruct (changes !! Name vm) as [c|]; simpl in *.
  2: { exists vm. split; [done|]. unfold revert_vm. by destruct (State vm). }
  destruct (State c); try done; try (exfalso; by apply Hr; left);
    try (exists vm; split; [done|]; unfold revert_vm; by destruct (State vm)).
  - exists (set_State VM_REMOVE vm). split; [done|]. unfold revert_vm. simpl.
    assert (State vm = VM_FREE) as Hs by (apply dec_stable; intros ?; apply Hr; auto).
    unfold set_State. simpl. rewrite <- Hs. by destruct vm.
  - by case_match.
Qed.

(** When VMs to add cannot be verified, or VMs were to be removed, the
    pool is put back exactly as it was (the update asks for no replacement). *)
Theorem failed_change_reverts pool incoming new old val e :
  NoDup (Name <$> pool) → settled pool →
  (∀ c, c ∈ incoming → State c ≠ VM_UPDATE ∧ State c ≠ VM_FORCE_FREE) →
  mark_vms pool incoming = Ok (Some (new, old, val)) →
  finish_vms (Some e) old new = pool.
Proof.
  intros Hnd Hset Hinc Hm. apply mark_vms_spec in Hm as [Ha _ (extra & _ & Hnew)]; [|done].
  assert (∀ n vm, by_name incoming !! n = Some vm → State vm ≠ VM_UPDATE ∧ State vm ≠ VM_FORCE_FREE)
    as Hst by (intros n vm [_ Hin]%by_name_key; auto).
  assert (∀ vm, updated (by_name incoming) vm = None) as Hno.
  { intros vm. unfold updated, change_state. destruct (by_name incoming !! Name vm) eqn:E; [|done].
    apply Hst in E as [??]. simpl. by destruct (State _). }
  destruct Hnew as [(_ & _ & -> & Hex)|([(vm & _ & [? Hu])|(n & vm & Hl & [? Hu])] & _)].
  - simpl. rewrite omap_app.
    assert (omap (revert_vm old) extra = []) as ->.
    { assert (∀ x, x ∈ extra → State x = VM_ADD) as H by (by intros x [_ ?]%Hex).
      clear Hex. induction extra as [|x l IH]; [done|]. cbn. unfold revert_vm at 1.
      rewrite (H x) by left. apply IH. intros; apply H; by right. }
    rewrite app_nil_r. apply omap_inverse. intros vm Hin. apply kept_reverts; auto.
  - by rewrite Hno in Hu.
  - apply map_lookup_filter_Some in Hl as [Hl _]. apply Hst in Hl as [??].
    unfold new_update in Hu. by destruct (State vm).
Qed.
End Replace.

(** ** Allocation *)

(** The networks and the resources a spec asks of a VM; the VM's flavor goes
    by the name of the smallest flavor that suits. *)
Definition serves `{GoRange} (vmSpec : VMSpec) (vm : VM) : Prop :=
  (ExternalNetwork vmSpec = true → ExternalIp (NetInfo vm) ≠ "")
  ∧ (InternalNetwork vmSpec = true → InternalIp (NetInfo vm) ≠ "")
  ∧ ∃ fl fl', vm_Flavor vm = Some fl' ∧ fi_Name fl' = fi_Name fl
      ∧ suits (ToNodeResources (sp_Flavor vmSpec)) (sp_OptResMap vmSpec) ∅ fl.

Definition all_vms (g : groups) : list VM := bothNetVms g ++ internalNetVms g ++ externalNetVms g.
(** The VMs of the groups are free VMs of the pool on the group's networks. *)
Record groups_ok (pool : list VM) (g : groups) : Prop := {
  go_nodup : NoDup (Name <$> all_vms g);
  go_free : ∀ vm, vm ∈ all_vms g → vm ∈ pool ∧ State vm = VM_FREE;
  go_both : ∀ vm, vm ∈ bothNetVms g → ExternalIp (NetInfo vm) ≠ "" ∧ InternalIp (NetInfo vm) ≠ "";
  go_int : ∀ vm, vm ∈ internalNetVms g → InternalIp (NetInfo vm) ≠ "";
  go_ext : ∀ vm, vm ∈ externalNetVms g → ExternalIp (NetInfo vm) ≠ "";
}.

Lemma take_flavor_spec pre vms name rest n :
  take_flavor pre vms name = Some (Some (rest, n)) →
  ∃ vm l1 l2 fl, vms = l1 ++ vm :: l2 ∧ rest = pre ++ l1 ++ l2 ∧ n = Name vm
    ∧ vm_Flavor vm = Some fl ∧ fi_Name fl = name.
Proof.
  revert pre. induction vms as [|vm vms IH]; intros pre; simpl; [done|].
  destruct (vm_Flavor vm) as [fl|] eqn:Hfl; [|done]. case_decide as Hn.
  - intros (x & l1 & l2 & f & -> & -> & -> & Hf & Hfn)%IH.
    exists x, (vm :: l1), l2, f. by rewrite <- app_assoc.
  - intros [= <- <-]. by exists vm, [], vms, fl.
Qed.

Lemma group_free_ok pool : NoDup (Name <$> pool) → groups_ok pool (group_free pool).
Proof.
  intros Hnd. induction pool as [|vm pool IH] using rev_ind.
  { split; simpl; set_solver. }
  rewrite fmap_app in Hnd. apply NoDup_app in Hnd as (Hnd & Hdisj & _).
  specialize (IH Hnd). unfold group_free. rewrite fold_left_app. simpl.
  fold (group_free pool) in *. generalize dependent (group_free pool). intros g [H1 H2 H3 H4 H5].
  assert (groups_ok (pool ++ [vm]) g) as Hg.
  { split; [done| |done..]. intros x Hx. apply H2 in Hx as [??]. set_solver. }
  assert (∀ g', all_vms g' ≡ₚ vm :: all_vms g → State vm = VM_FREE →
    NoDup (Name <$> all_vms g')
    ∧ ∀ x, x ∈ all_vms g' → x ∈ pool ++ [vm] ∧ State x = VM_FREE) as Hadd.
  { intros g' Hp Hs. rewrite Hp. split.
    - csimpl. apply NoDup_cons. split; [|done].
      intros (x & Hn & Hx)%list_elem_of_fmap. apply H2 in Hx as [Hx _].
      apply (Hdisj (Name x)); [by apply list_elem_of_fmap_2|set_solver].
    - intros x. rewrite Hp. intros [->|Hx]%elem_of_cons; [set_solver|].
      apply H2 in Hx as [??]. set_solver. }
  assert (∀ (P : VM → Prop) l x, (∀ y, y ∈ l → P y) → P vm → x ∈ l ++ [vm] → P x) as Hsnoc.
  { intros P l x Hl Hv [?| ->%list_elem_of_singleton]%elem_of_app; auto. }
  case_decide as Hs; [done|].
  case_decide as Hb; [|case_decide as He; [|case_decide as Hi; [|done]]].
  - destruct (Hadd (mkGroups (bothNetVms g ++ [vm]) (internalNetVms g) (externalNetVms g)))
      as [Ha Hf]; [unfold all_vms; simpl; solve_Permutation|done|].
    split; simpl; try done. intros x.
    apply (Hsnoc (λ y, ExternalIp (NetInfo y) ≠ "" ∧ InternalIp (NetInfo y) ≠ "")); done.
  - destruct (Hadd (mkGroups (bothNetVms g) (internalNetVms g) (externalNetVms g ++ [vm])))
      as [Ha Hf]; [unfold all_vms; simpl; solve_Permutation|done|].
    split; simpl; try done. intros x. apply (Hsnoc (λ y, ExternalIp (NetInfo y) ≠ "")); done.
  - destruct (Hadd (mkGroups (bothNetVms g) (internalNetVms g ++ [vm]) (externalNetVms g)))
      as [Ha Hf]; [unfold all_vms; simpl; solve_Permutation|done|].
    split; simpl; try done. intros x. apply (Hsnoc (λ y, InternalIp (NetInfo y) ≠ "")); done.
Qed.

Section Alloc.
Context {GR : GoRange} {GS : GoSort}.

(** The flavor part of [serves]. *)
Definition flavor_serves (vmSpec : VMSpec) (vm : VM) : Prop :=
  ∃ fl fl', vm_Flavor vm = Some fl' ∧ fi_Name fl' = fi_Name fl
    ∧ suits (ToNodeResources (sp_Flavor vmSpec)) (sp_OptResMap vmSpec) ∅ fl.

Lemma getFlavorBasedVM_spec vms vmSpec rest n :
  getFlavorBasedVM vms vmSpec = Some (Ok (rest, n)) →
  ∃ vm, n = Name vm ∧ vms ≡ₚ vm :: rest ∧ flavor_serves vmSpec vm.
Proof.
  unfold getFlavorBasedVM. destruct (GetVMSpec _ _ _ _) as [spec|e] eqn:Hg; [|done].
  intros ([found|] & Ht & Hr)%bind_Some; simplify_eq/=.
  apply take_flavor_spec in Ht as (vm & l1 & l2 & fl & -> & -> & -> & Hfl & Hn).
  exists vm. split_and!; [done|simpl; by rewrite Permutation_middle|].
  unfold GetVMSpec in Hg. inv_result. case_decide; [done|].
  pose proof (find_flavor_spec (ToNodeResources (sp_Flavor vmSpec)) (sp_OptResMap vmSpec)
    (mkCloudletInfo "" (omap vm_Flavor (l1 ++ vm :: l2)) [] []) ∅ (mkSearch ∅ ∅ 0 0)
    (go_sort flavor_less (omap vm_Flavor (l1 ++ vm :: l2)))) as Hf.
  simpl in Hg. rewrite Hg in Hf. destruct Hf as (_ & f & _ & _ & _ & Hs & Hname & _).
  exists f, fl. split_and!; [done|congruence|done].
Qed.

Lemma groups_ok_less pool g g' vm :
  groups_ok pool g → all_vms g ≡ₚ vm :: all_vms g' →
  (∀ x, x ∈ bothNetVms g' → x ∈ bothNetVms g) →
  (∀ x, x ∈ internalNetVms g' → x ∈ internalNetVms g) →
  (∀ x, x ∈ externalNetVms g' → x ∈ externalNetVms g) → groups_ok pool g'.
Proof.
  intros [H1 H2 H3 H4 H5] Hp Hb Hi He. split; auto.
  - rewrite Hp in H1. by apply NoDup_cons in H1 as [_ ?].
  - intros x Hx. apply H2. rewrite Hp. by right.
Qed.

Lemma alloc_one_spec pool g vmSpec g' n :
  groups_ok pool g → alloc_one g vmSpec = Some (Ok (g', n)) →
  ∃ vm, n = Name vm ∧ all_vms g ≡ₚ vm :: all_vms g' ∧ groups_ok pool g' ∧ serves vmSpec vm.
Proof.
  intros Hg Ha. pose proof Hg as [_ _ H3 H4 H5].
  assert (∀ rest vm l, l ≡ₚ vm :: rest → (vm ∈ l) ∧ ∀ x : VM, x ∈ rest → x ∈ l) as Hsub.
  { intros rest vm l Hp. split; [rewrite Hp; by left|intros x Hx; rewrite Hp; by right]. }
  assert (∀ what r, from_both g what vmSpec = Some (Ok r) →
    ∃ vm, r.2 = Name vm ∧ all_vms g ≡ₚ vm :: all_vms r.1 ∧ groups_ok pool r.1
      ∧ vm ∈ bothNetVms g ∧ flavor_serves vmSpec vm) as Hboth.
  { intros what r. unfold from_both. case_decide; [done|].
    intros (o & Ho & [= Hr])%bind_Some. apply result_bind_ok in Hr as ([rest n'] & -> & [= <-]).
    apply getFlavorBasedVM_spec in Ho as (vm & -> & Hp & Hf). destruct (Hsub _ _ _ Hp) as [Hin Hs].
    assert (all_vms g ≡ₚ vm :: all_vms (mkGroups rest (internalNetVms g) (externalNetVms g)))
      as Hall by (unfold all_vms; simpl; by rewrite Hp).
    exists vm. split_and!; try done. by apply (groups_ok_less pool g _ vm). }
  unfold alloc_one in Ha. apply bind_Some in Ha as (o & Ho & [= Ha]).
  apply result_bind_ok in Ha as ([g1 n1] & -> & Ha). case_decide; [done|]. injection Ha as <- <-.
  destruct (ExternalNetwork vmSpec) eqn:Hext, (InternalNetwork vmSpec) eqn:Hint; simpl in Ho;
    try case_decide;
    try (apply Hboth in Ho as (vm & ? & ? & ? & [? ?]%H3 & ?);
         exists vm; split_and!; [done..|unfold serves; by split_and!]).
  all: apply bind_Some in Ho as (o & Ho & [= Hr]);
    apply result_bind_ok in Hr as ([rest n'] & -> & [= <- <-]);
    apply getFlavorBasedVM_spec in Ho as (vm & -> & Hp & Hf); destruct (Hsub _ _ _ Hp) as [Hin Hs];
    exists vm; unfold serves; rewrite Hext, Hint.
  all: match goal with |- _ ∧ ?P ∧ _ =>
      assert P as Hall by (unfold all_vms; simpl; rewrite Hp; solve_Permutation) end;
    split_and!; [done|done|by apply (groups_ok_less pool g _ vm)|try done; by auto..|done].
Qed.

(** The VMs selected for the specs, in order. *)
Lemma select_vms_spec pool g vmSpecs selected selected' :
  groups_ok pool g → select_vms g selected vmSpecs = Some (Ok selected') →
  ∃ sel, Forall2 serves vmSpecs sel ∧ NoDup (Name <$> sel)
    ∧ (∀ vm, vm ∈ sel → vm ∈ all_vms g)
    ∧ selected' = fold_left (λ m kv, <[kv.1 := kv.2]> m)
                    (zip (Name <$> sel) (sp_InternalName <$> vmSpecs)) selected.
Proof.
  revert g selected. induction vmSpecs as [|vmSpec vmSpecs IH]; intros g selected Hg; simpl.
  { intros [= <-]. exists []. split_and!; [done|constructor|set_solver|done]. }
  intros ([[g1 n]|e] & Ha & Hs)%bind_Some; [|done].
  apply (alloc_one_spec pool) in Ha as (vm & -> & Hp & Hg1 & Hserves); [|done].
  apply IH in Hs as (sel & Hall & Hnd & Hin & ->); [|done].
  exists (vm :: sel). split_and!; [by constructor| | |done].
  - csimpl. apply NoDup_cons. split; [|done]. intros (x & Hn & Hx)%list_elem_of_fmap.
    destruct Hg as [Hnda _ _ _ _]. rewrite Hp in Hnda. apply NoDup_cons in Hnda as [Hni _].
    apply Hni. rewrite Hn. by apply list_elem_of_fmap_2, Hin.
  - intros x [->|Hx]%elem_of_cons; rewrite Hp; [by left|right; auto].
Qed.

Lemma selected_lookup vmSpecs sel n s :
  Forall2 serves vmSpecs sel → NoDup (Name <$> sel) →
  fold_left (λ m kv, <[kv.1 := kv.2]> m) (zip (Name <$> sel) (sp_InternalName <$> vmSpecs))
    (∅ : gmap string string) !! n = Some s ↔
  ∃ i vmSpec vm, vmSpecs !! i = Some vmSpec ∧ sel !! i = Some vm ∧ Name vm = n
    ∧ sp_InternalName vmSpec = s.
Proof.
  intros Hall Hnd. assert (length (Name <$> sel) = length (sp_InternalName <$> vmSpecs)) as Hlen
    by (rewrite !length_fmap; symmetry; by eapply Forall2_length).
  set (l := zip _ _). assert (l.*1 = Name <$> sel) as Hl1 by (by apply fst_zip; lia).
  rewrite list_to_map_fold by (by rewrite Hl1).
  transitivity ((list_to_map l : gmap string string) !! n = Some s);
    [by destruct (list_to_map l !! n)|].
  rewrite <- elem_of_list_to_map by (by rewrite Hl1).
  rewrite list_elem_of_lookup. unfold l. setoid_rewrite lookup_zip_Some.
  setoid_rewrite list_lookup_fmap_Some. split.
  - intros (i & (vm & -> & Hvm) & (vmSpec & -> & Hsp)). by exists i, vmSpec, vm.
  - intros (i & vmSpec & vm & Hsp & Hvm & <- & <-). exists i. split; eauto.
Qed.

(** The VMs that are marked, by name. *)
Lemma marked_vms_lookup {V} (selected : gmap string V) pool n x :
  NoDup (Name <$> pool) →
  marked_vms selected pool !! n = Some x ↔ x ∈ pool ∧ Name x = n ∧ is_Some (selected !! n).
Proof.
  intros Hnd. unfold marked_vms. fold (by_name (filter (λ vm, is_Some (selected !! Name vm)) pool)).
  split.
  - intros [Hn Hin]%by_name_key. apply list_elem_of_filter in Hin as [Hs Hin].
    by rewrite <- Hn.
  - intros (Hin & <- & Hs). apply lookup_by_name.
    + eapply sublist_NoDup; [exact Hnd|]. apply fmap_sublist, sublist_filter.
    + by apply list_elem_of_filter.
Qed.

Lemma release_names_spec groupName vmNames freeAll selected vms :
  match release_names groupName vmNames freeAll selected vms with
  | Ok selected' =>
      (∀ vm, vm ∈ vms → GroupName vm = groupName → State vm ≠ VM_IN_PROGRESS)
      ∧ ∀ n, is_Some (selected' !! n) ↔ is_Some (selected !! n) ∨
          ∃ vm, vm ∈ vms ∧ Name vm = n ∧ GroupName vm = groupName
            ∧ (InternalName vm ∈ vmNames ∨ freeAll = true)
  | Err _ => ∃ vm, vm ∈ vms ∧ GroupName vm = groupName ∧ State vm = VM_IN_PROGRESS
  end.
Proof.
  revert selected. induction vms as [|vm vms IH]; intros selected; simpl.
  { split; [set_solver|]. intros n. split; [by left|]. intros [?|(? & Hin & _)]; set_solver. }
  assert (∀ P : VM → Prop, (∃ x, x ∈ vm :: vms ∧ P x) ↔ P vm ∨ ∃ x, x ∈ vms ∧ P x) as Hcons.
  { intros P. setoid_rewrite elem_of_cons. split.
    - intros (x & [->|?] & ?); eauto.
    - intros [?|(x & ? & ?)]; eauto. }
  case_decide as Hg; [|case_decide as Hs].
  - specialize (IH selected). destruct (release_names _ _ _ _ _); [|by apply Hcons; right].
    destruct IH as [H1 H2]. split; [intros x [->|?]%elem_of_cons; auto; congruence|].
    intros n. rewrite H2, Hcons. split; [naive_solver|].
    intros [?|[(_ & Hg' & _)|?]]; auto. congruence.
  - apply Hcons. by left.
  - destruct (_ || _) eqn:Hsel.
    + specialize (IH (<[Name vm := tt]> selected)).
      destruct (release_names _ _ _ _ _); [|by apply Hcons; right].
      destruct IH as [H1 H2]. split; [intros x [->|?]%elem_of_cons; auto|].
      apply orb_true_iff in Hsel. rewrite bool_decide_eq_true in Hsel.
      intros n. rewrite H2, Hcons, lookup_insert_is_Some. split.
      * intros [[<-|[? ?]]|?]; auto.
      * intros [?|[(<- & _)|?]]; auto. destruct (decide (Name vm = n)); auto.
    + specialize (IH selected). destruct (release_names _ _ _ _ _); [|by apply Hcons; right].
      destruct IH as [H1 H2]. split; [intros x [->|?]%elem_of_cons; auto|].
      apply orb_false_iff in Hsel. rewrite bool_decide_eq_false in Hsel.
      intros n. rewrite H2, Hcons. split; [naive_solver|].
      intros [?|[(_ & _ & [?|?])|?]]; auto; [tauto|]. destruct Hsel. congruence.
Qed.

Lemma mark_released_names now selected (pool : list VM) :
  Name <$> (mark_released now selected <$> pool) = Name <$> pool.
Proof.
  rewrite <- list_fmap_compose. apply list_fmap_ext. intros _ vm _. simpl.
  unfold mark_released. by destruct (selected !! Name vm).
Qed.

Lemma mark_allocated_names groupName now selected (pool : list VM) :
  Name <$> (mark_allocated groupName now selected <$> pool) = Name <$> pool.
Proof.
  rewrite <- list_fmap_compose. apply list_fmap_ext. intros _ vm _. simpl.
  unfold mark_allocated. by destruct (selected !! Name vm).
Qed.

(** An allocation gives each spec a VM of its own that was free, is on
    the networks the spec asks for and whose flavor suits; the VM is put in
    progress under the group, with the spec's name, and is reported; every
    other VM of the pool stays as it is. *)
Theorem markVMsForAllocation_correct groupName now pool vmSpecs pool' marked :
  NoDup (Name <$> pool) →
  markVMsForAllocation groupName now pool vmSpecs = Some (Ok (pool', marked)) →
  ∃ sel, Forall2 serves vmSpecs sel ∧ NoDup (Name <$> sel)
    ∧ (∀ vm, vm ∈ sel → vm ∈ pool ∧ State vm = VM_FREE)
    ∧ Name <$> pool' = Name <$> pool
    ∧ (∀ vm, vm ∈ pool → vm ∉ sel → vm ∈ pool')
    ∧ ∀ n x, marked !! n = Some x ↔
        ∃ i vmSpec vm, vmSpecs !! i = Some vmSpec ∧ sel !! i = Some vm ∧ Name vm = n ∧ x ∈ pool'
          ∧ x = mkVM n (NetInfo vm) groupName VM_IN_PROGRESS (now n) (sp_InternalName vmSpec)
                  (vm_Flavor vm).
Proof.
  intros Hnd. unfold markVMsForAllocation. case_decide; [done|].
  intros (r & Hs & [= Hr])%bind_Some. apply result_bind_ok in Hr as (selected & -> & [= <- <-]).
  apply (select_vms_spec pool) in Hs as (sel & Hall & Hnds & Hin & ->); [|by apply group_free_ok].
  assert (∀ vm, vm ∈ sel → vm ∈ pool ∧ State vm = VM_FREE) as Hfree.
  { intros vm Hvm. apply (go_free pool (group_free pool)); [by apply group_free_ok|auto]. }
  set (selected := fold_left _ _ _). exists sel.
  assert (∀ n s, selected !! n = Some s ↔ ∃ i vmSpec vm, vmSpecs !! i = Some vmSpec
    ∧ sel !! i = Some vm ∧ Name vm = n ∧ sp_InternalName vmSpec = s) as Hsel
    by (intros n s; by apply selected_lookup).
  split_and!; [done..|apply mark_allocated_names| |].
  - intros vm Hvm Hno. apply list_elem_of_fmap. exists vm. split; [|done]. unfold mark_allocated.
    destruct (selected !! Name vm) as [s|] eqn:Hsn; [exfalso|done].
    apply Hsel in Hsn as (i & sp & vm' & _ & Hvm' & Hn & _). apply list_elem_of_lookup_2 in Hvm'.
    apply Hno. by rewrite (same_name pool vm vm') by (done || by apply Hfree).
  - intros n x. rewrite marked_vms_lookup by (by rewrite mark_allocated_names). split.
    + intros (Hx & Hn & [s Hsn]). pose proof Hx as Hx'.
      apply list_elem_of_fmap in Hx as (vm & -> & Hvm).
      assert (Name vm = n) as Hvn.
      { rewrite <- Hn. unfold mark_allocated. by destruct (selected !! Name vm). }
      unfold mark_allocated in *. rewrite Hvn, Hsn in *.
      apply Hsel in Hsn as (i & sp & vm' & Hsp & Hvm' & Hn' & <-).
      assert (vm = vm') as ->; [|by exists i, sp, vm'].
      apply (same_name pool); [done|done| |congruence].
      by apply Hfree, list_elem_of_lookup_2 in Hvm' || (apply Hfree; by eapply list_elem_of_lookup_2).
    + intros (i & sp & vm & Hsp & Hvm & Hn & Hx & ->). split_and!; [done..|].
      exists (sp_InternalName sp). apply Hsel. by exists i, sp, vm.
Qed.

(** Both kinds of marking in terms of the selected names. *)
Lemma alloc_marks groupName now pool vmSpecs pool' marked :
  NoDup (Name <$> pool) →
  markVMsForAllocation groupName now pool vmSpecs = Some (Ok (pool', marked)) →
  ∃ selected, pool' = mark_allocated groupName now selected <$> pool
    ∧ marked = marked_vms selected pool'
    ∧ ∀ vm, vm ∈ pool → is_Some (selected !! Name vm) → State vm = VM_FREE.
Proof.
  intros Hnd. unfold markVMsForAllocation. case_decide; [done|].
  intros (r & Hs & [= Hr])%bind_Some. apply result_bind_ok in Hr as (selected & -> & [= <- <-]).
  pose proof (group_free_ok pool Hnd) as Hg.
  apply (select_vms_spec pool) in Hs as (sel & Hall & Hnds & Hin & ->); [|done].
  eexists. split_and!; [done..|]. intros vm Hvm [s Hsel].
  apply selected_lookup in Hsel as (i & sp & vm' & _ & Hvm' & Hn & _); [|done..].
  apply list_elem_of_lookup_2, Hin in Hvm'. apply (go_free _ _ Hg) in Hvm' as [Hvm' Hs].
  by rewrite (same_name pool vm vm').
Qed.
Lemma marked_vms_in {V} (selected : gmap string V) pool vm :
  NoDup (Name <$> pool) → vm ∈ pool →
  is_Some (marked_vms selected pool !! Name vm) ↔ is_Some (selected !! Name vm).
Proof.
  intros Hnd Hin. split.
  - intros [x Hx]. by apply marked_vms_lookup in Hx as (_ & _ & ?).
  - intros Hs. exists vm. by apply marked_vms_lookup.
Qed.

Definition same_but_time (a b : VM) : Prop :=
  Name a = Name b ∧ NetInfo a = NetInfo b ∧ GroupName a = GroupName b ∧ State a = State b
  ∧ InternalName a = InternalName b ∧ vm_Flavor a = vm_Flavor b.

Lemma Forall2_map_in (R : VM → VM → Prop) h pool :
  (∀ vm, vm ∈ pool → R vm (h vm)) → Forall2 R pool (h <$> pool).
Proof.
  induction pool as [|vm pool IH]; intros H; [constructor|]. csimpl. constructor.
  - apply H. by left.
  - apply IH. intros; apply H; by right.
Qed.

(** The pool once the VMs of a group are created. *)
Definition in_use_by (groupName : string) (now : string → Z) (selected : gmap string string)
    (vm : VM) : VM :=
  match selected !! Name vm with
  | None => vm
  | Some internalName =>
      mkVM (Name vm) (NetInfo vm) groupName VM_IN_USE (now (Name vm)) internalName (vm_Flavor vm)
  end.
Lemma map_ext_pool (f g : VM → VM) (pool : list VM) :
  (∀ vm, vm ∈ pool → f vm = g vm) → f <$> pool = g <$> pool.
Proof. intros H. apply list_fmap_ext. intros i vm Hi. by eapply H, list_elem_of_lookup_2. Qed.

Lemma created_pool groupName now selected pool :
  NoDup (Name <$> pool) →
  let pool' := mark_allocated groupName now selected <$> pool in
  SaveVMStateInVMPool (marked_vms selected pool') VM_IN_USE pool'
  = in_use_by groupName now selected <$> pool.
Proof.
  intros Hnd pool'. unfold SaveVMStateInVMPool. unfold pool' at 2.
  rewrite <- list_fmap_compose. apply map_ext_pool. intros vm Hin. simpl.
  assert (mark_allocated groupName now selected vm ∈ pool') as Hin'
    by by apply list_elem_of_fmap_2.
  apply (marked_vms_in selected) in Hin' as Hm; [|by unfold pool'; rewrite mark_allocated_names].
  revert Hm. unfold mark_allocated, in_use_by.
  destruct (selected !! Name vm) as [s|] eqn:Hs; simpl; rewrite Hs; intros Hm.
  - destruct (proj2 Hm) as [x ->]; [eauto|done].
  - destruct (marked_vms _ _ !! _); [|done]. by destruct (proj1 Hm) as [? ?].
Qed.

Definition given_back (now : string → Z) (selected : gmap string unit) (vm : VM) : VM :=
  match selected !! Name vm with
  | None => vm
  | Some _ => mkVM (Name vm) (NetInfo vm) "" VM_FREE (now (Name vm)) "" (vm_Flavor vm)
  end.
Lemma released_pool now selected pool :
  NoDup (Name <$> pool) →
  let pool' := mark_released now selected <$> pool in
  SaveVMStateInVMPool (marked_vms selected pool') VM_FREE pool' = given_back now selected <$> pool.
Proof.
  intros Hnd pool'. unfold SaveVMStateInVMPool. unfold pool' at 2.
  rewrite <- list_fmap_compose. apply map_ext_pool. intros vm Hin. simpl.
  assert (mark_released now selected vm ∈ pool') as Hin' by by apply list_elem_of_fmap_2.
  apply (marked_vms_in selected) in Hin' as Hm; [|by unfold pool'; rewrite mark_released_names].
  revert Hm. unfold mark_released, given_back.
  destruct (selected !! Name vm) as [s|] eqn:Hs; simpl; rewrite Hs; intros Hm.
  - destruct (proj2 Hm) as [x ->]; [eauto|done].
  - destruct (marked_vms _ _ !! _); [|done]. by destruct (proj1 Hm) as [? ?].
Qed.
Lemma in_use_by_names groupName now selected (pool : list VM) :
  Name <$> (in_use_by groupName now selected <$> pool) = Name <$> pool.
Proof.
  rewrite <- list_fmap_compose. apply list_fmap_ext. intros _ vm _. simpl.
  unfold in_use_by. by destruct (selected !! Name vm).
Qed.

(** Creating the VMs of a new group and deleting the group again gives
    back the pool, but for the times of the last change. *)
Theorem create_delete_roundtrip fmt_flavors createVMsInternal deleteVMsInternal FlavorList
    groupName now now' vms pool pool1 :
  NoDup (Name <$> pool) →
  (∀ vm, vm ∈ pool → GroupName vm ≠ groupName) →
  (∀ vm, vm ∈ pool → State vm = VM_FREE → GroupName vm = "" ∧ InternalName vm = "") →
  (∀ marked, deleteVMsInternal marked = None) →
  CreateVMs fmt_flavors createVMsInternal FlavorList groupName now vms pool = Some (pool1, None) →
  ∃ pool2, DeleteVMs deleteVMsInternal groupName now' pool1 = (pool2, None)
    ∧ Forall2 same_but_time pool pool2.
Proof.
  intros Hnd Hgroup Hclean Hdel Hcreate. unfold CreateVMs in Hcreate.
  destruct (create_specs _ _ _) as [vmSpecs|]; [|done].
  apply bind_Some in Hcreate as ([[pool' marked]|] & Hm & [= <- Herr]).
  rewrite Herr. simpl. apply alloc_marks in Hm as (selected & -> & -> & Hfree); [|done].
  rewrite created_pool by done. set (pool1 := in_use_by _ _ _ <$> pool).
  assert (NoDup (Name <$> pool1)) as Hnd1 by (unfold pool1; by rewrite in_use_by_names).
  unfold DeleteVMs, markVMsForRelease. rewrite bool_decide_true by done.
  pose proof (release_names_spec groupName [] true ∅ pool1) as Hrel.
  simpl. destruct (release_names _ _ _ _ _) as [sel|e]; simpl.
  2: { exfalso. destruct Hrel as (x & (vm & -> & Hin)%list_elem_of_fmap & Hg & Hs).
       unfold in_use_by in *. destruct (selected !! Name vm); [done|]. by apply (Hgroup vm). }
  destruct Hrel as [_ Hsel]. rewrite Hdel. simpl. rewrite released_pool by done.
  eexists. split; [done|]. unfold pool1. rewrite <- list_fmap_compose.
  apply Forall2_map_in. intros vm Hin. simpl.
  assert (is_Some (sel !! Name vm) ↔ is_Some (selected !! Name vm)) as Hs.
  { rewrite Hsel, lookup_empty. split.
    - intros [[]|(x & (y & -> & Hy)%list_elem_of_fmap & Hn & Hg & _)]; [done|].
      unfold in_use_by in *. destruct (selected !! Name y) as [s|] eqn:Hys; simpl in *;
        [rewrite <- Hn, Hys; eauto|by apply Hgroup in Hy].
    - intros [s Hs]. right. exists (in_use_by groupName now selected vm).
      split; [by apply list_elem_of_fmap_2|]. unfold in_use_by. rewrite Hs. auto. }
  unfold given_back, in_use_by. destruct (selected !! Name vm) as [s|] eqn:Hsv; simpl.
  - destruct (proj2 Hs) as [u Hu]; [eauto|]. rewrite Hu.
    pose proof (Hfree vm Hin ltac:(rewrite Hsv; eauto)) as Hst.
    destruct (Hclean vm Hin Hst) as [Hg Hi]. split_and!; done.
  - destruct (sel !! Name vm); [by destruct (proj1 Hs) as [? ?]|]. split_and!; done.
Qed.
End Alloc.

(** ** Updates, operations and flavor refreshes together

    One step is one critical section of the pool's mutex.  An operation on a
    group marks its VMs in one step and saves their state in another, an
    update marks VMs in one and finishes in another; the key workers run one
    update at a time.  A refresh of the flavors reads the pool without the
    mutex and writes it back later.  In a serial run no other step falls
    between the two halves of a refresh. *)

Module Race.
Section Race.
Context {GR : GoRange} {GS : GoSort} (ssh_flavor : VM → result string).

Record state := mkState {
  pool : list VM;
  (** The VMs marked by the operations in flight. *)
  ops : gmap nat (gmap string VM);
  (** The VMs an update in flight replaces. *)
  pending : option (gmap string VM);
  (** The pool as read by a refresh in flight. *)
  snapshot : option (list VM);
  (** The VMs that updates freed by force while they were in progress. *)
  freed : gset string;
}.

(** What an update frees by force, whatever the VM is in progress for. *)
#[local] Instance forced_dec incoming vm : Decision (forced incoming vm).
Proof. unfold forced. apply _. Defined.
Definition forced_names (pool incoming : list VM) : gset string :=
  list_to_set (Name <$> filter (λ vm, State vm = VM_IN_PROGRESS ∧ forced incoming vm) pool).

Inductive step (serial : bool) : state → state → Prop :=
| step_allocate s id groupName now vmSpecs pool' marked :
    (serial = true → snapshot s = None) → ops s !! id = None →
    markVMsForAllocation groupName now (pool s) vmSpecs = Some (Ok (pool', marked)) →
    step serial s (mkState pool' (<[id := marked]> (ops s)) (pending s) (snapshot s) (freed s))
| step_release s id groupName now vmSpecs pool' marked :
    (serial = true → snapshot s = None) → ops s !! id = None →
    markVMsForRelease groupName now (pool s) vmSpecs = Ok (pool', marked) →
    step serial s (mkState pool' (<[id := marked]> (ops s)) (pending s) (snapshot s) (freed s))
| step_save s id marked st :
    (serial = true → snapshot s = None) → ops s !! id = Some marked →
    st = VM_FREE ∨ st = VM_IN_USE →
    step serial s (mkState (SaveVMStateInVMPool marked st (pool s)) (delete id (ops s)) (pending s)
                     (snapshot s) (freed s))
| step_mark s incoming new old val :
    (serial = true → snapshot s = None) → pending s = None →
    mark_vms (pool s) incoming = Ok (Some (new, old, val)) →
    step serial s (mkState new (ops s) (Some old) (snapshot s)
                     (freed s ∪ forced_names (pool s) incoming))
| step_finish s err old :
    (serial = true → snapshot s = None) → pending s = Some old →
    step serial s (mkState (finish_vms err old (pool s)) (ops s) None (snapshot s) (freed s))
| step_read s :
    snapshot s = None →
    step serial s (mkState (pool s) (ops s) (pending s) (Some (pool s)) (freed s))
| step_write s vms flavors vms' :
    snapshot s = Some vms → gather_flavors ssh_flavor vms = Ok (flavors, vms') →
    step serial s (mkState vms' (ops s) (pending s) None (freed s))
| step_fail s vms :
    snapshot s = Some vms → step serial s (mkState (pool s) (ops s) (pending s) None (freed s)).

Definition initial (s : state) : Prop :=
  NoDup (Name <$> pool s) ∧ ops s = ∅ ∧ pending s = None ∧ snapshot s = None ∧ freed s = ∅.
Inductive reachable (serial : bool) : state → Prop :=
| reachable_initial s : initial s → reachable serial s
| reachable_step s s' : reachable serial s → step serial s s' → reachable serial s'.

(** The VM is in progress for the operation that marked it as [x]. *)
Definition owned (x vm : VM) : Prop :=
  Name vm = Name x ∧ State vm = VM_IN_PROGRESS ∧ GroupName vm = GroupName x
  ∧ InternalName vm = InternalName x.

Record inv (s : state) : Prop := {
  inv_names : NoDup (Name <$> pool s);
  inv_named : ∀ id marked n x, ops s !! id = Some marked → marked !! n = Some x → Name x = n;
  inv_owned : ∀ id marked n x, ops s !! id = Some marked → marked !! n = Some x → n ∉ freed s →
    ∃ vm, vm ∈ pool s ∧ owned x vm;
  inv_disjoint : ∀ id1 id2 m1 m2 n, n ∉ freed s → ops s !! id1 = Some m1 → ops s !! id2 = Some m2 →
    is_Some (m1 !! n) → is_Some (m2 !! n) → id1 = id2;
  inv_pending : ∀ old n o, pending s = Some old → old !! n = Some o → Name o = n;
  inv_snapshot : ∀ vms, snapshot s = Some vms → vms = pool s;
}.

(** Marking VMs that no operation has in progress. *)
Lemma inv_mark s id pool' marked :
  inv s → snapshot s = None → NoDup (Name <$> pool') →
  (∀ vm, vm ∈ pool s → State vm = VM_IN_PROGRESS → vm ∈ pool' ∧ marked !! Name vm = None) →
  (∀ n x, marked !! n = Some x → Name x = n ∧ x ∈ pool' ∧ State x = VM_IN_PROGRESS) →
  ops s !! id = None →
  inv (mkState pool' (<[id := marked]> (ops s)) (pending s) (snapshot s) (freed s)).
Proof.
  intros [H1 H0 H2 H3 H4 H5] Hsn Hnd Hkeep Hm Hid.
  assert (∀ id' m' n, ops s !! id' = Some m' → n ∉ freed s → is_Some (m' !! n) → marked !! n = None) as Hfresh.
  { intros id' m' n Ho Hn [x Hx]. destruct (H2 id' m' n x) as (vm & Hin & Hv & Hs & _); [done..|].
    assert (Name vm = n) as <- by (rewrite Hv; by eapply H0). by apply Hkeep. }
  split; cbn [pool ops pending snapshot freed].
  - done.
  - intros id' m n x [[<- <-]|[_ Ho]]%lookup_insert_Some Hx; [by apply Hm|by eapply H0].
  - intros id' m n x [[<- <-]|[_ Ho]]%lookup_insert_Some Hx Hn.
    + destruct (Hm n x Hx) as (? & ? & ?). by exists x.
    + destruct (H2 id' m n x) as (vm & Hin & Hown); [done..|].
      exists vm. split; [|done]. apply Hkeep; [done|]. apply Hown.
  - intros id1 id2 m1 m2 n Hn Ho1 Ho2 Hs1 Hs2.
    apply lookup_insert_Some in Ho1 as [[<- <-]|[? Ho1]];
      apply lookup_insert_Some in Ho2 as [[<- <-]|[? Ho2]]; [done| | |by eapply H3].
    + destruct Hs1 as [x Hx]. by rewrite (Hfresh id2 m2 n) in Hx.
    + destruct Hs2 as [x Hx]. by rewrite (Hfresh id1 m1 n) in Hx.
  - done.
  - intros vms. by rewrite Hsn.
Qed.

(** Steps that keep the VMs in progress, but for those they free by force. *)
Lemma inv_keep s pool' pending' snap' freed' :
  inv s → NoDup (Name <$> pool') → freed s ⊆ freed' →
  (∀ vm, vm ∈ pool s → State vm = VM_IN_PROGRESS → Name vm ∉ freed' → ∃ vm', vm' ∈ pool' ∧ same_vm vm vm') →
  (∀ old n o, pending' = Some old → old !! n = Some o → Name o = n) →
  (∀ vms, snap' = Some vms → vms = pool') →
  inv (mkState pool' (ops s) pending' snap' freed').
Proof.
  intros [H1 H0 H2 H3 H4 H5] Hnd Hsub Hkeep Hp Hsn. split; cbn [pool ops pending snapshot freed]; try done.
  - intros id m n x Ho Hx Hn. destruct (H2 id m n x) as (vm & Hin & Hown); [done..|set_solver|].
    destruct Hown as (Hv & Hs & Hg & Hi). pose proof (H0 _ _ _ _ Ho Hx) as Hxn.
    destruct (Hkeep vm Hin Hs) as (vm' & Hin' & ? & _ & ? & ? & ? & _); [congruence|].
    exists vm'. split; [done|]. unfold owned. split_and!; congruence.
  - intros id1 id2 m1 m2 n Hn. apply H3. set_solver.
Qed.
Lemma same_vm_refl vm : same_vm vm vm.
Proof. by unfold same_vm. Qed.

Lemma inv_select {V} s id (selected : gmap string V) (f : VM → VM) :
  inv s → snapshot s = None → ops s !! id = None →
  (∀ vm, Name (f vm) = Name vm) →
  (∀ vm, selected !! Name vm = None → f vm = vm) →
  (∀ vm, is_Some (selected !! Name vm) → State (f vm) = VM_IN_PROGRESS) →
  (∀ vm, vm ∈ pool s → is_Some (selected !! Name vm) → State vm ≠ VM_IN_PROGRESS) →
  inv (mkState (f <$> pool s) (<[id := marked_vms selected (f <$> pool s)]> (ops s)) (pending s)
         (snapshot s) (freed s)).
Proof.
  intros Hinv Hsn Hid Hname Hf Hst Hfree.
  assert (Name <$> (f <$> pool s) = Name <$> pool s) as Hnames.
  { rewrite <- list_fmap_compose. apply list_fmap_ext. intros; apply Hname. }
  assert (NoDup (Name <$> (f <$> pool s))) as Hnd by (rewrite Hnames; apply Hinv).
  apply inv_mark; try done.
  - intros vm Hin Hs. destruct (selected !! Name vm) as [v|] eqn:Hsel.
    + by destruct (Hfree vm Hin); [eauto|].
    + split; [apply list_elem_of_fmap; exists vm; by rewrite Hf|].
      apply eq_None_not_Some. intros [x Hx].
      apply marked_vms_lookup in Hx as (_ & _ & [v Hv]); [congruence|done].
  - intros n x (Hin & Hn & Hsel)%marked_vms_lookup; [|done]. split_and!; [done..|].
    apply list_elem_of_fmap in Hin as (y & -> & _). apply Hst. by rewrite <- Hname, Hn.
Qed.

Lemma inv_allocate s id groupName now vmSpecs pool' marked :
  inv s → snapshot s = None → ops s !! id = None →
  markVMsForAllocation groupName now (pool s) vmSpecs = Some (Ok (pool', marked)) →
  inv (mkState pool' (<[id := marked]> (ops s)) (pending s) (snapshot s) (freed s)).
Proof.
  intros Hinv Hsn Hid Hm. apply alloc_marks in Hm as (sel & -> & -> & Hfree); [|apply Hinv].
  apply inv_select; [done..| | | |].
  - intros vm. unfold mark_allocated. by destruct (sel !! Name vm).
  - intros vm Hs. unfold mark_allocated. by rewrite Hs.
  - intros vm [v Hs]. unfold mark_allocated. by rewrite Hs.
  - intros vm Hin Hs. by rewrite (Hfree vm).
Qed.

Lemma inv_release s id groupName now vmSpecs pool' marked :
  inv s → snapshot s = None → ops s !! id = None →
  markVMsForRelease groupName now (pool s) vmSpecs = Ok (pool', marked) →
  inv (mkState pool' (<[id := marked]> (ops s)) (pending s) (snapshot s) (freed s)).
Proof.
  intros Hinv Hsn Hid Hm. unfold markVMsForRelease in Hm.
  apply result_bind_ok in Hm as (sel & Hsel & [= <- <-]).
  pose proof (release_names_spec groupName (sp_InternalName <$> vmSpecs)
    (bool_decide (vmSpecs = [])) ∅ (pool s)) as Hr. rewrite Hsel in Hr. destruct Hr as [Hbusy Hr].
  apply inv_select; [done..| | | |].
  - intros vm. unfold mark_released. by destruct (sel !! Name vm).
  - intros vm Hs. unfold mark_released. by rewrite Hs.
  - intros vm [v Hs]. unfold mark_released. by rewrite Hs.
  - intros vm Hin [[? H]|(vm' & Hin' & Hn & Hg & _)]%Hr; [by rewrite lookup_empty in H|].
    rewrite <- (same_name (pool s) vm' vm) by (done || apply Hinv). auto.
Qed.

Lemma inv_save s id marked st :
  inv s → ops s !! id = Some marked → snapshot s = None →
  inv (mkState (SaveVMStateInVMPool marked st (pool s)) (delete id (ops s)) (pending s)
         (snapshot s) (freed s)).
Proof.
  intros [H1 H0 H2 H3 H4 H5] Hid Hsn. split; cbn [pool ops pending snapshot freed].
  - unfold SaveVMStateInVMPool. rewrite <- list_fmap_compose.
    rewrite (list_fmap_ext _ Name); [done|]. intros _ vm _. simpl.
    destruct (marked !! Name vm); [by case_decide|done].
  - intros id' m' n x [_ Ho]%lookup_delete_Some Hx. by eapply H0.
  - intros id' m' n x [Hne Ho]%lookup_delete_Some Hx Hn.
    destruct (H2 id' m' n x) as (vm & Hin & Hown); [done..|].
    exists vm. split; [|done]. apply list_elem_of_fmap. exists vm. split; [|done].
    destruct (marked !! Name vm) as [y|] eqn:Hy; [|done]. destruct Hne.
    destruct Hown as [Hvn _]. assert (Name vm = n) as Hv by (rewrite Hvn; by eapply H0).
    apply (H3 id id' marked m' (Name vm)); eauto; rewrite Hv; eauto.
  - intros id1 id2 m1 m2 n Hn [_ Ho1]%lookup_delete_Some [_ Ho2]%lookup_delete_Some. by eapply H3.
  - done.
  - intros vms. by rewrite Hsn.
Qed.

Lemma inv_step s s' : inv s → step true s s' → inv s'.
Proof.
  intros Hinv Hstep. destruct Hstep as
    [s id g now specs pool' marked Hser Hid Hm|s id g now specs pool' marked Hser Hid Hm
    |s id marked st Hser Hid _|s incoming new old val Hser Hp Hm|s err old Hser Hp
    |s Hsn|s vms flavors vms' Hsn Hg|s vms Hsn]; try specialize (Hser eq_refl).
  - by eapply inv_allocate.
  - by eapply inv_release.
  - by apply inv_save.
  - pose proof Hinv as [Hnd _ _ _ _ _]. apply mark_vms_spec in Hm as Hm; [|done].
    apply inv_keep; [done|by eapply mark_result_names|set_solver| | |].
    + intros vm Hin Hs Hn. exists vm. split; [|apply same_vm_refl].
      eapply mark_result_used; [done|done|by rewrite Hs|]. intros Hf. apply Hn, elem_of_union_r.
      apply elem_of_list_to_set, list_elem_of_fmap. exists vm. split; [done|]. by apply list_elem_of_filter.
    + intros old' n o [= <-] Ho. by apply Hm in Ho as (_ & ? & _).
    + intros vms. by rewrite Hser.
  - apply inv_keep; [done| |done| |done|].
    + apply finish_names; [|apply Hinv]. intros n o. by eapply inv_pending.
    + intros vm Hin Hs _. exists vm. split; [|apply same_vm_refl]. apply finish_busy; [done|by right].
    + intros vms. by rewrite Hser.
  - apply inv_keep; [done|apply Hinv|done| |apply Hinv|by intros vms [= <-]].
    intros vm Hin _ _. exists vm. split; [done|apply same_vm_refl].
  - pose proof (inv_snapshot s Hinv vms Hsn) as ->.
    unfold gather_flavors in Hg. case_decide; [done|].
    apply flavor_loop_same in Hg as (l & Hl & Hall). simpl in Hl. subst l.
    apply inv_keep; [done| |done| |apply Hinv|done].
    + rewrite (same_vms_names _ _ Hall). apply Hinv.
    + intros vm Hin _ _. apply list_elem_of_lookup in Hin as [i Hi].
      destruct (Forall2_lookup_l _ _ _ _ _ Hall Hi) as (y & Hy & Hsame).
      exists y. split; [by eapply list_elem_of_lookup_2|done].
  - apply inv_keep; [done|apply Hinv|done| |apply Hinv|done].
    intros vm Hin _ _. exists vm. split; [done|apply same_vm_refl].
Qed.

Lemma reachable_ok s : reachable true s → inv s.
Proof.
  induction 1 as [s (Hn & Ho & Hp & Hs & _)|s s' _ IH Hstep]; [|by eapply inv_step].
  split; [done|..]; intros *; rewrite ?Ho, ?Hp, ?Hs, ?lookup_empty; done.
Qed.

(** C34: no VM belongs to two operations at a time, unless an update freed it by force
    while an operation had it.  In every state of a serial run, with any updates by the
    controller between the steps of the operations,
    the names in the pool are unique, and for every VM that no update freed by force
    while it was in progress: at most one operation in flight has it, and it is in the
    pool, in progress, with the group and the name it was marked with.  Serial: a
    refresh of the flavors does not interleave with the rest
    ([refresh_loses_allocation]; [force_free_loses_allocation] for the VMs freed by
    force). *)
Theorem operations_own_their_vms s :
  reachable true s →
  NoDup (Name <$> pool s)
  ∧ (∀ id1 id2 m1 m2 n, n ∉ freed s → ops s !! id1 = Some m1 → ops s !! id2 = Some m2 →
       is_Some (m1 !! n) → is_Some (m2 !! n) → id1 = id2)
  ∧ ∀ id marked n x, ops s !! id = Some marked → marked !! n = Some x → n ∉ freed s →
      ∃ vm, vm ∈ pool s ∧ Name vm = n ∧ State vm = VM_IN_PROGRESS ∧ GroupName vm = GroupName x
        ∧ InternalName vm = InternalName x.
Proof.
  intros [H1 H0 H2 H3 _ _]%reachable_ok. split_and!; [done|by intros; eapply H3|].
  intros id marked n x Ho Hx Hn. destruct (H2 id marked n x) as (vm & Hin & Hv & ?); [done..|].
  exists vm. split; [done|]. split; [|done]. rewrite Hv. by eapply H0.
Qed.
End Race.
End Race.

(** ** Runs *)

Module VMPoolWitness.

#[local] Instance range0 : GoRange := canonical_range.
#[local] Instance sort0 : GoSort := stable_sort.

Definition fl0 : FlavorInfo := mkFlavorInfo "vm1-flavor" 2 4096 40 [] ∅.
Definition vm (name ext int : string) (st : VMState) : VM :=
  mkVM name (mkVMNetInfo ext int) "" st 0 "" (Some fl0).
Definition vm1 : VM := vm "vm1" "10.0.0.1" "192.168.0.1" VM_FREE.
Definition vm2 : VM := vm "vm2" "" "192.168.0.2" VM_FREE.
Definition used : VM := mkVM "vm3" (mkVMNetInfo "" "192.168.0.3") "g" VM_IN_USE 0 "node" (Some fl0).
Definition pool0 : list VM := [vm1; vm2; used].
Definition key0 : VMPoolKey := mkVMPoolKey "org" "pool".
Definition ssh0 (v : VM) : result string := Ok "4096,2,40".
Definition now0 (n : string) : Z := 7.
Definition upd (v : VM) : VM := set_State VM_UPDATE v.

(** The pool with vm1 gone, vm2 moved and vm4 new. *)
Definition incoming0 : list VM :=
  [upd (vm "vm2" "" "192.168.0.22" VM_FREE); upd used; upd (vm "vm4" "10.0.0.4" "192.168.0.4" VM_FREE)].
Definition crm0 : CRMData :=
  mkCRM key0 pool0 {[key0 := mkVMPool key0 incoming0 UPDATE_REQUESTED]} [] (Some []) [].

Ltac by_compute := apply (proj1 (bool_decide_eq_true _)); vm_compute; reflexivity.

#[local] Instance settled_dec pool : Decision (settled pool).
Proof.
  refine (cast_if (decide (Forall (λ v, State v ≠ VM_ADD ∧ State v ≠ VM_REMOVE ∧ State v ≠ VM_UPDATE)
    pool))); unfold settled; by rewrite <- Forall_forall.
Defined.

Example update_run :
  let cd := UpdateVMPool (λ _, None) ssh0 key0 crm0 in
  ((λ v, (Name v, State v)) <$> pool_Vms cd, vi_State <$> published cd)
  = ([("vm2", VM_FREE); ("vm3", VM_IN_USE); ("vm4", VM_FREE)],
     [UPDATING; TRACKED_STATE_UNKNOWN; READY]).
Proof. vm_compute. reflexivity. Qed.

Lemma UpdateVMPool_safe_witness :
  let cd' := UpdateVMPool (λ _, None) ssh0 key0 crm0 in
  NoDup (Name <$> pool_Vms cd') ∧ settled (pool_Vms cd')
  ∧ (∀ v, v ∈ pool_Vms crm0 → busy v → ¬ forced incoming0 v →
       ∃ v', v' ∈ pool_Vms cd' ∧ same_vm v v')
  ∧ ∃ info, last (published cd') = Some info ∧ vi_Vms info = pool_Vms cd'
      ∧ (vi_State info = READY ∨ vi_State info = UPDATE_ERROR).
Proof.
  apply (UpdateVMPool_safe (λ _, None) ssh0 key0 crm0 (mkVMPool key0 incoming0 UPDATE_REQUESTED)).
  - vm_compute. reflexivity.
  - by_compute.
  - by_compute.
Defined.

Lemma update_replaces_witness :
  match mark_vms pool0 incoming0 with
  | Err _ => ¬ in_use_kept pool0 incoming0
  | Ok None => False
  | Ok (Some (new, old, _)) => in_use_kept pool0 incoming0 ∧
      ∀ x, x ∈ finish_vms None old new ↔
        (x ∈ pool0 ∧ ∃ c, c ∈ incoming0 ∧ Name c = Name x ∧ NetInfo c = NetInfo x)
        ∨ ∃ c, c ∈ incoming0 ∧ x = set_State VM_FREE c
            ∧ ∀ v, v ∈ pool0 → Name v = Name c → NetInfo c ≠ NetInfo v
  end.
Proof.
  apply update_replaces.
  - by_compute.
  - by_compute.
  - apply Forall_forall. by_compute.
  - by_compute.
  - done.
Defined.

Definition add_vm4 : list VM := pool0 ++ [vm "vm4" "" "192.168.0.4" VM_ADD].
Definition added : list VM * gmap string VM * list VM :=
  match mark_vms pool0 add_vm4 with Ok (Some r) => r | _ => ([], ∅, []) end.
Lemma failed_change_reverts_witness :
  finish_vms (Some "unreachable") added.1.2 added.1.1 = pool0.
Proof.
  apply (failed_change_reverts pool0 add_vm4 added.1.1 added.1.2 added.2 "unreachable").
  - by_compute.
  - by_compute.
  - apply Forall_forall. by_compute.
  - vm_compute. reflexivity.
Defined.

(** The new pool cannot be verified: vm1 is lost and vm4 stays. *)
Definition replaced : list VM * gmap string VM * list VM :=
  match mark_vms pool0 incoming0 with Ok (Some r) => r | _ => ([], ∅, []) end.

(** When the VMs of a new pool cannot be verified, the old pool is not
    put back: a free VM that the update left out is lost, and a VM that could
    not be verified stays in the pool as a free VM. *)
Theorem failed_update_not_reverted :
  ∃ pool incoming new old val lost extra,
    mark_vms pool incoming = Ok (Some (new, old, val))
    ∧ lost ∈ pool ∧ Name lost ∉ Name <$> finish_vms (Some "unreachable") old new
    ∧ extra ∈ val ∧ Name extra ∉ Name <$> pool
    ∧ set_State VM_FREE extra ∈ finish_vms (Some "unreachable") old new.
Proof.
  exists pool0, incoming0, replaced.1.1, replaced.1.2, replaced.2, vm1,
    (upd (vm "vm4" "10.0.0.4" "192.168.0.4" VM_FREE)).
  split; [vm_compute; reflexivity|]. split; [left|].
  split; [|split; [|split]].
  - intros H. revert H. vm_compute. set_solver.
  - vm_compute. set_solver.
  - intros H. revert H. vm_compute. set_solver.
  - vm_compute. set_solver.
Qed.

Definition spec0 : VMSpec := mkVMSpec "node1" true true (mkFlavor "m4" 4096 2 20 None ∅) None.
Definition allocated : list VM * gmap string VM :=
  match markVMsForAllocation "g1" now0 pool0 [spec0] with Some (Ok r) => r | _ => ([], ∅) end.

Lemma markVMsForAllocation_correct_witness :
  ∃ sel, Forall2 serves [spec0] sel ∧ NoDup (Name <$> sel)
    ∧ (∀ v, v ∈ sel → v ∈ pool0 ∧ State v = VM_FREE)
    ∧ Name <$> allocated.1 = Name <$> pool0
    ∧ (∀ v, v ∈ pool0 → v ∉ sel → v ∈ allocated.1)
    ∧ ∀ n x, allocated.2 !! n = Some x ↔
        ∃ i vmSpec v, [spec0] !! i = Some vmSpec ∧ sel !! i = Some v ∧ Name v = n
          ∧ x ∈ allocated.1
          ∧ x = mkVM n (NetInfo v) "g1" VM_IN_PROGRESS (now0 n) (sp_InternalName vmSpec)
                  (vm_Flavor v).
Proof.
  apply (markVMsForAllocation_correct "g1" now0 pool0 [spec0]).
  - by_compute.
  - vm_compute. reflexivity.
Defined.

Definition flavors0 : list FlavorInfo := [mkFlavorInfo "m4" 2 4096 20 [] ∅].
Definition node0 : OrchVM := mkOrchVM "node1" "docker-node" "m4" ["external-primary"].
Definition created : list VM :=
  match CreateVMs (λ _, "") (λ _, None) flavors0 "g1" now0 [node0] pool0 with
  | Some (pool, _) => pool | None => [] end.

Lemma create_delete_roundtrip_witness :
  ∃ pool2, DeleteVMs (λ _, None) "g1" now0 created = (pool2, None)
    ∧ Forall2 same_but_time pool0 pool2.
Proof.
  apply (create_delete_roundtrip (λ _, "") (λ _, None) (λ _, None) flavors0 "g1" now0 now0 [node0]
    pool0 created).
  - by_compute.
  - apply (proj1 (Forall_forall (λ v, GroupName v ≠ "g1") pool0)). by_compute.
  - apply (proj1 (Forall_forall (λ v, State v = VM_FREE → GroupName v = "" ∧ InternalName v = "")
      pool0)). by_compute.
  - done.
  - vm_compute. reflexivity.
Defined.

(** A run: an allocation, an update that meets it half way, and its end. *)
Definition start : Race.state := Race.mkState pool0 ∅ None None ∅.
Definition mid : Race.state := Race.mkState allocated.1 {[0%nat := allocated.2]} None None ∅.

Lemma operations_own_their_vms_witness :
  NoDup (Name <$> Race.pool mid)
  ∧ (∀ id1 id2 m1 m2 n, n ∉ Race.freed mid → Race.ops mid !! id1 = Some m1 → Race.ops mid !! id2 = Some m2 →
       is_Some (m1 !! n) → is_Some (m2 !! n) → id1 = id2)
  ∧ ∀ id marked n x, Race.ops mid !! id = Some marked → marked !! n = Some x → n ∉ Race.freed mid →
      ∃ v, v ∈ Race.pool mid ∧ Name v = n ∧ State v = VM_IN_PROGRESS ∧ GroupName v = GroupName x
        ∧ InternalName v = InternalName x.
Proof.
  apply (Race.operations_own_their_vms ssh0).
  apply (Race.reachable_step ssh0 true start).
  - apply Race.reachable_initial. split_and!; [by_compute|done..].
  - apply (Race.step_allocate ssh0 true start 0 "g1" now0 [spec0]).
    + done.
    + done.
    + vm_compute. reflexivity.
Defined.

(** The pool as it was before the allocation is written back. *)
Definition forgotten : list VM :=
  match gather_flavors ssh0 pool0 with Ok (_, vms) => vms | Err _ => [] end.
Definition forgotten_flavors : list FlavorInfo :=
  match gather_flavors ssh0 pool0 with Ok (fls, _) => fls | Err _ => [] end.
Definition allocated2 : list VM * gmap string VM :=
  match markVMsForAllocation "g2" now0 forgotten [spec0] with Some (Ok r) => r | _ => ([], ∅) end.

Ltac take_step H :=
  let K := fresh in
  pose proof H as K; cbn [Race.pool Race.ops Race.pending Race.snapshot Race.freed] in K; apply K; clear K.

(** Without that restriction a VM is given to two groups: a refresh of
    the flavors that reads the pool before an allocation and writes it back
    after forgets the allocation. *)
Theorem refresh_loses_allocation :
  ∃ s id1 id2 m1 m2 n, Race.reachable ssh0 false s ∧ id1 ≠ id2
    ∧ Race.ops s !! id1 = Some m1 ∧ Race.ops s !! id2 = Some m2
    ∧ is_Some (m1 !! n) ∧ is_Some (m2 !! n).
Proof.
  exists (Race.mkState allocated2.1 (<[1%nat := allocated2.2]> (<[0%nat := allocated.2]> ∅)) None None ∅),
    0%nat, 1%nat, allocated.2, allocated2.2, "vm1".
  split; [|split_and!; [done|reflexivity|reflexivity|vm_compute; eauto|vm_compute; eauto]].
  apply (Race.reachable_step ssh0 false
    (Race.mkState forgotten (<[0%nat := allocated.2]> ∅) None None ∅)).
  2: { take_step (Race.step_allocate ssh0 false
         (Race.mkState forgotten (<[0%nat := allocated.2]> ∅) None None ∅) 1 "g2" now0 [spec0]
         allocated2.1 allocated2.2); [done|done|vm_compute; reflexivity]. }
  apply (Race.reachable_step ssh0 false
    (Race.mkState allocated.1 (<[0%nat := allocated.2]> ∅) None (Some pool0) ∅)).
  2: { take_step (Race.step_write ssh0 false
         (Race.mkState allocated.1 (<[0%nat := allocated.2]> ∅) None (Some pool0) ∅) pool0
         forgotten_flavors forgotten); [done|vm_compute; reflexivity]. }
  apply (Race.reachable_step ssh0 false (Race.mkState pool0 ∅ None (Some pool0) ∅)).
  2: { take_step (Race.step_allocate ssh0 false (Race.mkState pool0 ∅ None (Some pool0) ∅) 0 "g1" now0
         [spec0] allocated.1 allocated.2); [done|done|vm_compute; reflexivity]. }
  apply (Race.reachable_step ssh0 false start); [|by apply (Race.step_read ssh0 false start)].
  apply Race.reachable_initial. split_and!; [by_compute|done..].
Qed.

(** An update that frees by force the VM that an operation just took: the
    next operation takes it too. *)
Definition free_vm1 : list VM := [set_State VM_FORCE_FREE vm1; upd vm2; upd used].
Definition freed1 : list VM * gmap string VM * list VM :=
  match mark_vms allocated.1 free_vm1 with Ok (Some r) => r | _ => ([], ∅, []) end.
Definition retaken : list VM * gmap string VM :=
  match markVMsForAllocation "g2" now0 freed1.1.1 [spec0] with Some (Ok r) => r | _ => ([], ∅) end.
Theorem force_free_loses_allocation :
  ∃ s id1 id2 m1 m2 n, Race.reachable ssh0 true s ∧ id1 ≠ id2
    ∧ Race.ops s !! id1 = Some m1 ∧ Race.ops s !! id2 = Some m2
    ∧ is_Some (m1 !! n) ∧ is_Some (m2 !! n).
Proof.
  set (fr := ∅ ∪ Race.forced_names allocated.1 free_vm1).
  exists (Race.mkState retaken.1 (<[1%nat := retaken.2]> (<[0%nat := allocated.2]> ∅)) (Some freed1.1.2) None fr),
    0%nat, 1%nat, allocated.2, retaken.2, "vm1".
  split; [|split_and!; [done|reflexivity|reflexivity|vm_compute; eauto|vm_compute; eauto]].
  apply (Race.reachable_step ssh0 true
    (Race.mkState freed1.1.1 (<[0%nat := allocated.2]> ∅) (Some freed1.1.2) None fr)).
  2: { take_step (Race.step_allocate ssh0 true
         (Race.mkState freed1.1.1 (<[0%nat := allocated.2]> ∅) (Some freed1.1.2) None fr) 1 "g2" now0 [spec0]
         retaken.1 retaken.2); [done|done|vm_compute; reflexivity]. }
  apply (Race.reachable_step ssh0 true (Race.mkState allocated.1 (<[0%nat := allocated.2]> ∅) None None ∅)).
  2: { take_step (Race.step_mark ssh0 true (Race.mkState allocated.1 (<[0%nat := allocated.2]> ∅) None None ∅)
         free_vm1 freed1.1.1 freed1.1.2 freed1.2); [done|done|vm_compute; reflexivity]. }
  apply (Race.reachable_step ssh0 true start).
  2: { take_step (Race.step_allocate ssh0 true start 0 "g1" now0 [spec0] allocated.1 allocated.2);
         [done|done|vm_compute; reflexivity]. }
  apply Race.reachable_initial. split_and!; [by_compute|done..].
Qed.

(** A free VM whose flavor is not known yet. *)
Definition unknown : VM :=
  mkVM "vm0" (mkVMNetInfo "10.0.0.9" "192.168.0.9") "" VM_FREE 0 "" None.
Example allocation_panics : markVMsForAllocation "g1" now0 (unknown :: pool0) [spec0] = None.
Proof. vm_compute. reflexivity. Qed.
End VMPoolWitness.
