(* ===== verification/VMPoolApi.v ===== *)
(** * VM pools in the controller (controller/vmpool_api.go, vmpoolinfo_api.go,
    edgeproto/objs.go)

    The handlers that keep the pools of VMs: a transaction is a function on the
    store of pools.  A pool that no cloudlet uses is changed at once; for one in
    use the change is written for the CRM ([VMPool.UpdateVMPool]), which
    answers with an info.  [addresses_distinct]: the checks keep the addresses
    of a pool apart, except those of the changes for the CRM.
    [second_member_refused] composes both sides: as the controller takes nothing
    over from the infos, the CRM refuses the second VM that is added.  The
    streams to the caller are a parameter. *)

From S2P Require Export VMPool Fields.
From S2P Require Import Names GoNet Enums.
From S2P Require ZoneObjs ZoneApi Placement.
#[local] Open Scope Z_scope.

(** ** Data *)

Record PoolObj := mkPool {
  po_Fields : list string;
  po_Key : VMPoolKey;
  po_Vms : list VM;
  po_State : TrackedState;
  po_Errors : list string;
  po_CrmOverride : Placement.CRMOverride;
  po_DeletePrepare : bool;
}.
Record VMPoolMember := mkMember { pm_Key : VMPoolKey; pm_Vm : VM; pm_CrmOverride : Placement.CRMOverride }.
(** An info as the controller receives it: the fields that are set, and the info. *)
Record PoolInfo := mkPoolInfo { pi_Fields : list string; pi_Info : VMPoolInfo }.
(** A cloudlet as far as the handlers read it. *)
Record VCloudlet := mkVCloudlet { vc_VmPool : string; CrmOnEdge : bool }.
Notation pools := (gmap VMPoolKey PoolObj).
Definition put (p : PoolObj) (s : pools) : pools := <[po_Key p := p]> s.
Definition set_vms (vms : list VM) (p : PoolObj) : PoolObj :=
  mkPool (po_Fields p) (po_Key p) vms (po_State p) (po_Errors p) (po_CrmOverride p) (po_DeletePrepare p).
Definition set_state (st : TrackedState) (p : PoolObj) : PoolObj :=
  mkPool (po_Fields p) (po_Key p) (po_Vms p) st (po_Errors p) (po_CrmOverride p) (po_DeletePrepare p).
Definition set_errors (errs : list string) (p : PoolObj) : PoolObj :=
  mkPool (po_Fields p) (po_Key p) (po_Vms p) (po_State p) errs (po_CrmOverride p) (po_DeletePrepare p).
Definition set_prepare (b : bool) (p : PoolObj) : PoolObj :=
  mkPool (po_Fields p) (po_Key p) (po_Vms p) (po_State p) (po_Errors p) (po_CrmOverride p) b.

(** *** Validation (objs.go) *)

Definition VM_ValidateName (s : VM) : option error :=
  if decide (Name s = "") then Some "Missing VM name"
  else if negb (ValidName (Name s)) then Some "Invalid VM name" else None.
Definition invalidVMPoolIPs : gset string := {["0.0.0.0"; "127.0.0.1"]}.
(** The message for a loopback internal address shows the external one. *)
Definition VM_Validate (s : VM) : option error :=
  let ext := ExternalIp (NetInfo s) in
  let int := InternalIp (NetInfo s) in
  match VM_ValidateName s with
  | Some err => Some err
  | None =>
      if decide (ext ≠ "" ∧ (ParseIP ext = None ∨ ext ∈ invalidVMPoolIPs)) then Some ("Invalid Address: " +:+ ext)
      else if decide (int = "") then Some ("Missing internal IP for VM: " +:+ Name s)
      else if decide (ParseIP int = None) then Some ("Invalid Address: " +:+ int)
      else if decide (int ∈ invalidVMPoolIPs) then Some ("Invalid Address: " +:+ ext)
      else None
  end.
Definition VMPoolKey_ValidateKey (key : VMPoolKey) : option error :=
  if negb (ValidName (vk_Organization key)) then Some "Invalid organization name"
  else if negb (ValidName (vk_Name key)) then Some "Invalid VM pool name" else None.
Fixpoint validate_vms (externalIPMap internalIPMap : gset string) (vms : list VM) : option error :=
  match vms with
  | [] => None
  | v :: vms' =>
      let ext := ExternalIp (NetInfo v) in
      let int := InternalIp (NetInfo v) in
      match VM_Validate v with
      | Some err => Some err
      | None =>
          if decide (ext ≠ "" ∧ ext ∈ externalIPMap) then Some ("VM with same external IP " +:+ ext +:+ " already exists")
          else if decide (int ≠ "" ∧ int ∈ internalIPMap) then
            Some ("VM with same internal IP " +:+ int +:+ " already exists")
          else if decide (State v ≠ VM_FREE ∧ State v ≠ VM_FORCE_FREE) then
            Some "Invalid VM state, only VmForceFree state is allowed"
          else
            validate_vms (if decide (ext ≠ "") then {[ext]} ∪ externalIPMap else externalIPMap)
              (if decide (int ≠ "") then {[int]} ∪ internalIPMap else internalIPMap) vms'
      end
  end.
(** The values of enumerations are always valid here. *)
Definition VMPool_Validate (s : PoolObj) : option error :=
  match VMPoolKey_ValidateKey (po_Key s) with Some err => Some err | None => validate_vms ∅ ∅ (po_Vms s) end.
Definition VMPoolMember_Validate (s : VMPoolMember) : option error :=
  match VMPoolKey_ValidateKey (pm_Key s) with Some err => Some err | None => VM_Validate (pm_Vm s) end.

(** *** Field masks (generated) *)

Definition VMPoolAllFieldsStringMap : gmap string string := list_to_map
  [("2.1", "Key Organization"); ("2.2", "Key Name"); ("3.1", "Vms Name");
   ("3.2.1", "Vms Net Info External Ip"); ("3.2.2", "Vms Net Info Internal Ip"); ("3.3", "Vms Group Name");
   ("3.4", "Vms State"); ("3.5.1", "Vms Updated At Seconds"); ("3.5.2", "Vms Updated At Nanos");
   ("3.6", "Vms Internal Name"); ("3.7.1", "Vms Flavor Name"); ("3.7.2", "Vms Flavor Vcpus");
   ("3.7.3", "Vms Flavor Ram"); ("3.7.4", "Vms Flavor Disk"); ("3.7.5.1", "Vms Flavor Prop Map Key");
   ("3.7.5.2", "Vms Flavor Prop Map Value"); ("3.7.6.1", "Vms Flavor Gpus Model Id");
   ("3.7.6.2", "Vms Flavor Gpus Count"); ("3.7.6.3", "Vms Flavor Gpus Vendor");
   ("3.7.6.4", "Vms Flavor Gpus Memory"); ("3.7.6.5", "Vms Flavor Gpus In Use"); ("4", "State");
   ("5", "Errors"); ("7", "Crm Override"); ("8", "Delete Prepare")].
Definition UpdateVMPoolFieldsMap : FieldMap := list_to_set
  ["3"; "3.1"; "3.2"; "3.2.1"; "3.2.2"; "3.3"; "3.4"; "3.5"; "3.5.1"; "3.5.2"; "3.6"; "3.7"; "3.7.1"; "3.7.2"; "3.7.3";
   "3.7.4"; "3.7.5"; "3.7.5.1"; "3.7.5.2"; "3.7.6"; "3.7.6.1"; "3.7.6.2"; "3.7.6.3"; "3.7.6.4"; "3.7.6.5"; "7"; "8"].
Definition VMPool_bad_field (field : string) : option string :=
  if ZoneObjs.IsKeyField field then None
  else if Has UpdateVMPoolFieldsMap field then None
  else VMPoolAllFieldsStringMap !! field.
Definition VMPool_ValidateUpdateFields (m : PoolObj) : option error :=
  if decide (po_Fields m = []) then Some "nothing specified to update"
  else
    match omap (M := list) VMPool_bad_field (Fields.Fields (MakeFieldMap (po_Fields m))) with
    | [] => None
    | bad => Some ("specified field(s) " +:+ GoStd.join "," bad +:+ " cannot be modified")
    end.
(** The pool, and the number of fields changed. *)
Definition VMPool_CopyInFields (m src : PoolObj) : PoolObj * nat :=
  let fmap := MakeFieldMap (po_Fields src) in
  let key := HasOrHasChild fmap "2" in
  let '(org, c1) := copy (key && Has fmap "2.1") (vk_Organization (po_Key m)) (vk_Organization (po_Key src)) in
  let '(name, c2) := copy (key && Has fmap "2.2") (vk_Name (po_Key m)) (vk_Name (po_Key src)) in
  let '(vms, c3) := copy_list (HasOrHasChild fmap "3") (po_Vms m) (po_Vms src) in
  let '(st, c4) := copy (Has fmap "4") (po_State m) (po_State src) in
  let '(errs, c5) := copy_list (Has fmap "5") (po_Errors m) (po_Errors src) in
  let '(over, c7) := copy (Has fmap "7") (po_CrmOverride m) (po_CrmOverride src) in
  let '(prep, c8) := copy (Has fmap "8") (po_DeletePrepare m) (po_DeletePrepare src) in
  (mkPool (po_Fields m) (mkVMPoolKey org name) vms st errs over prep, (c1 + c2 + c3 + c4 + c5 + c7 + c8)%nat).

(** ** The context of a call (callcontext.go, clusterinst_api.go, caches.go) *)

(** [SetOverride] on the context of a new call. *)
Definition call_context (o : Placement.CRMOverride) : Placement.CallContext := Placement.mkCallContext false false o false.
Definition IsTransientState (st : TrackedState) : bool :=
  bool_decide (st ∈ [CREATING; CREATING_DEPENDENCIES; CREATE_REQUESTED; UPDATE_REQUESTED; DELETE_REQUESTED; UPDATING;
                     DELETING; DELETE_PREPARE]).
Definition ignoreCRMTransient (cctx : Placement.CallContext) : bool :=
  bool_decide (Placement.Override cctx = Placement.IGNORE_TRANSIENT_STATE) ||
  bool_decide (Placement.Override cctx = Placement.IGNORE_CRM_AND_TRANSIENT_STATE).
Definition ignoreTransient (cctx : Placement.CallContext) (st : TrackedState) : bool :=
  ignoreCRMTransient cctx && IsTransientState st.

Section VMPoolApi.
Context {GR : GoRange} `{JK : !Json VMPoolKey}.
Notation NotFound k := (ZoneApi.NotFoundError "VMPool" k).
Notation BeingDeleted k := (ZoneApi.BeingDeletedError "VMPool" k).

(** ** The cloudlet that uses a pool (cloudlet_api.go) *)

Definition GetCloudletForVMPool (cloudlets : gmap ZoneObjs.CloudletKey VCloudlet) (vmPoolKey : VMPoolKey) :
    option VCloudlet :=
  snd <$> head (filter (λ kc : ZoneObjs.CloudletKey * VCloudlet,
    vmPoolKey = mkVMPoolKey (ZoneObjs.ck_Organization kc.1) (vc_VmPool kc.2)) (go_range cloudlets)).
(** [Some c]: the change is for the CRM of [c]. *)
Definition via_crm (cloudlets : gmap ZoneObjs.CloudletKey VCloudlet) (cctx : Placement.CallContext) (key : VMPoolKey) :
    option VCloudlet :=
  match GetCloudletForVMPool cloudlets key with
  | Some c => if Placement.ignoreCRM cctx then None else Some c
  | None => None
  end.

(** ** Changes for the CRM *)

Definition validateVMNetInfo (vmCur vmNew : VM) : option error :=
  let cur := NetInfo vmCur in
  if decide (ExternalIp cur ≠ "" ∧ ExternalIp cur = ExternalIp (NetInfo vmNew)) then
    Some "VM with same external IP already exists as part of VM pool"
  else if decide (InternalIp cur ≠ "" ∧ InternalIp cur = InternalIp (NetInfo vmNew)) then
    Some "VM with same internal IP already exists as part of VM pool"
  else None.
(** A VM of the pool against the requested VMs. *)
Fixpoint check_updates (vm : VM) (vms : list (string * VM)) : option error :=
  match vms with
  | [] => None
  | (updateVMName, updateVM) :: vms' =>
      let err :=
        if decide (Name vm = updateVMName) then
          if decide (State updateVM = VM_ADD) then Some ("VM " +:+ Name vm +:+ " already exists as part of VM pool") else None
        else if decide (State updateVM = VM_ADD ∨ State updateVM = VM_UPDATE) then validateVMNetInfo vm updateVM
        else None in
      match err with Some err => Some err | None => check_updates vm vms' end
  end.
(** The first loop: the pool with the requests put in, and the requests that
    are left in the caller's map, which an error leaves as it is then. *)
Fixpoint replace_vms (cur : list VM) (vms : gmap string VM) : result (list VM) * gmap string VM :=
  match cur with
  | [] => (Ok [], vms)
  | vm :: cur' =>
      match check_updates vm (go_range vms) with
      | Some err => (Err err, vms)
      | None =>
          let '(vm', vms) := match vms !! Name vm with Some u => (u, delete (Name vm) vms) | None => (vm, vms) end in
          match replace_vms cur' vms with
          | (Ok l, vms) => (Ok (vm' :: l), vms)
          | (Err err, vms) => (Err err, vms)
          end
      end
  end.
(** The second loop. *)
Fixpoint append_vms (cur : list VM) (vms : list (string * VM)) : result (list VM) :=
  match vms with
  | [] => Ok cur
  | (vmName, vm) :: vms' =>
      if decide (State vm = VM_REMOVE) then Err ("VM " +:+ vmName +:+ " does not exist in the pool")
      else append_vms (cur ++ [vm]) vms'
  end.
(** One run of the transaction; the map of the caller goes on to the next. *)
Definition update_body (cctx : Placement.CallContext) (key : VMPoolKey) (vms : gmap string VM) (s : pools) :
    result pools * gmap string VM :=
  match s !! key with
  | None => (Err (NotFound key), vms)
  | Some cur =>
      if bool_decide (po_State cur = UPDATE_REQUESTED) && negb (ignoreTransient cctx (po_State cur)) then
        (Err "Action already in progress, please try again later", vms)
      else
        let '(r, vms) := replace_vms (po_Vms cur) vms in
        (l ← r; l ← append_vms l (go_range vms);
         Ok (put ((if Placement.ignoreCRM cctx then id else set_state UPDATE_REQUESTED) (set_vms l cur)) s), vms)
  end.
(** The transaction: runs on the snapshots [aborted], which do not commit, then
    on [s]. *)
Fixpoint update_txn (cctx : Placement.CallContext) (key : VMPoolKey) (vms : gmap string VM) (aborted : list pools)
    (s : pools) : result pools :=
  match aborted with
  | [] => (update_body cctx key vms s).1
  | a :: aborted' =>
      match update_body cctx key vms a with
      | (Err err, _) => Err err
      | (Ok _, vms) => update_txn cctx key vms aborted' s
      end
  end.
(** [updateVMPoolInternal] up to the wait. *)
Definition updateVMPool_start (cctx : Placement.CallContext) (key : VMPoolKey) (vms : gmap string VM)
    (aborted : list pools) (s : pools) : result pools :=
  if decide (vms = ∅) then Err "no VMs specified" else update_txn cctx key vms aborted s.

(** *** The wait for the CRM (generated) *)

Inductive wait_event :=
| EClosed                      (* the channel of messages is closed *)
| EBad (err : error)           (* a message that cannot be parsed *)
| EInfo (st : TrackedState) (errors : list string)
| ETimeout.
Definition UpdateVMPoolTransitions : gset TrackedState := {[UPDATING]}.
(** [None]: it waits on. *)
Fixpoint wait_loop (CamelName : TrackedState → string) (curState : TrackedState) (evs : list wait_event) :
    option (option error) :=
  match evs with
  | [] => None
  | EClosed :: _ => Some None
  | EBad err :: _ => Some (Some err)
  | EInfo st errors :: evs' =>
      if decide (st = UPDATE_ERROR) then
        let errs := GoStd.join ", " errors in
        Some (Some (if decide (length errors = 1%nat) then errs else "Encountered failures: " +:+ errs))
      else if decide (st = READY) then Some None
      else wait_loop CamelName st evs'
  | ETimeout :: _ =>
      Some (if decide (curState ∈ UpdateVMPoolTransitions) then None
            else Some ("Timed out; expected state " +:+ CamelName READY +:+ " but is " +:+ CamelName curState))
  end.
Definition WaitForVMPoolInfo (CamelName : TrackedState → string) (key : VMPoolKey) (s : pools) (evs : list wait_event) :
    option (option error) :=
  let curState := match s !! key with Some p => po_State p | None => NOT_PRESENT end in
  if decide (curState = READY) then Some None else wait_loop CamelName curState evs.
(** The last transaction; its error is not looked at. *)
Definition reset_txn (key : VMPoolKey) (s : pools) : pools :=
  match s !! key with
  | None => s
  | Some cur => put (set_errors [] (set_state TRACKED_STATE_UNKNOWN cur)) s
  end.
(** The end of [updateVMPoolInternal]: what the stream and the wait returned,
    and the store after the wait. *)
Definition updateVMPool_end (cctx : Placement.CallContext) (cloudlet : VCloudlet) (key : VMPoolKey)
    (stream wait : option error) (s : pools) : pools * option error :=
  if Placement.ignoreCRM cctx then (s, None)
  else match stream with
  | Some err => (s, Some err)
  | None =>
      if CrmOnEdge cloudlet then (reset_txn key s, wait) else (s, Some "vm pool not supported off edge-site")
  end.

(** ** The handlers *)

Definition CreateVMPool (in_ : PoolObj) (s : pools) : result pools :=
  match VMPool_Validate in_ with
  | Some err => Err err
  | None =>
      match s !! po_Key in_ with
      | Some _ => Err (ZoneApi.ExistsError "VMPool" (po_Key in_))
      | None => Ok (put in_ s)
      end
  end.

(** [SetOverride] takes the override out of the object. *)
Definition clear_override (in_ : PoolObj) : PoolObj :=
  mkPool (po_Fields in_) (po_Key in_) (po_Vms in_) (po_State in_) (po_Errors in_) Placement.NO_OVERRIDE (po_DeletePrepare in_).
Definition force_free (vm : VM) : VM := if decide (State vm = VM_FORCE_FREE) then set_State VM_FREE vm else vm.
Definition update_direct (in_ : PoolObj) (s : pools) : result pools :=
  match s !! po_Key in_ with
  | None => Err (NotFound (po_Key in_))
  | Some cur =>
      let '(cur, changed) := VMPool_CopyInFields cur in_ in
      match VMPool_Validate cur with
      | Some err => Err err
      | None =>
          let forced := length (filter (λ vm, State vm = VM_FORCE_FREE) (po_Vms cur)) in
          if decide ((changed + forced)%nat = 0%nat) then Ok s
          else Ok (put (set_state READY (set_vms (force_free <$> po_Vms cur) cur)) s)
      end
  end.
Definition update_request (vms : list VM) : gmap string VM :=
  by_name ((λ vm, if decide (State vm ≠ VM_FORCE_FREE) then set_State VM_UPDATE vm else vm) <$> vms).
(** Up to the wait. *)
Definition UpdateVMPool (cloudlets : gmap ZoneObjs.CloudletKey VCloudlet) (in_ : PoolObj) (aborted : list pools)
    (s : pools) : result pools :=
  match VMPool_ValidateUpdateFields in_ with
  | Some err => Err err
  | None =>
      match VMPool_Validate in_ with
      | Some err => Err err
      | None =>
          let cctx := call_context (po_CrmOverride in_) in
          let in_ := clear_override in_ in
          match via_crm cloudlets cctx (po_Key in_) with
          | Some _ => updateVMPool_start cctx (po_Key in_) (update_request (po_Vms in_)) aborted s
          | None => update_direct in_ s
          end
      end
  end.

(** The loop over the VMs of the pool. *)
Fixpoint check_member (vm : VM) (cur : list VM) : option error :=
  match cur with
  | [] => None
  | c :: cur' =>
      if decide (Name c = Name vm) then Some "VM with same name already exists as part of VM pool"
      else match validateVMNetInfo c vm with Some err => Some err | None => check_member vm cur' end
  end.
Definition add_direct (in_ : VMPoolMember) (s : pools) : result pools :=
  match s !! pm_Key in_ with
  | None => Err (NotFound (pm_Key in_))
  | Some cur =>
      match check_member (pm_Vm in_) (po_Vms cur) with
      | Some err => Err err
      | None => Ok (put (set_state READY (set_vms (po_Vms cur ++ [pm_Vm in_]) cur)) s)
      end
  end.
Definition add_request (vm : VM) : gmap string VM := {[Name vm := set_State VM_ADD vm]}.
Definition AddVMPoolMember (cloudlets : gmap ZoneObjs.CloudletKey VCloudlet) (in_ : VMPoolMember) (aborted : list pools)
    (s : pools) : result pools :=
  match VMPoolMember_Validate in_ with
  | Some err => Err err
  | None =>
      let cctx := call_context (pm_CrmOverride in_) in
      match via_crm cloudlets cctx (pm_Key in_) with
      | Some _ => updateVMPool_start cctx (pm_Key in_) (add_request (pm_Vm in_)) aborted s
      | None => add_direct in_ s
      end
  end.

(** The list without the first VM of the name. *)
Fixpoint remove_vm (n : string) (vms : list VM) : list VM :=
  match vms with [] => [] | vm :: vms' => if decide (Name vm = n) then vms' else vm :: remove_vm n vms' end.
Definition remove_direct (in_ : VMPoolMember) (s : pools) : result pools :=
  match s !! pm_Key in_ with
  | None => Err (NotFound (pm_Key in_))
  | Some cur =>
      if decide (Name (pm_Vm in_) ∈ Name <$> po_Vms cur) then
        Ok (put (set_state READY (set_vms (remove_vm (Name (pm_Vm in_)) (po_Vms cur)) cur)) s)
      else Ok s
  end.
Definition remove_request (vm : VM) : gmap string VM := {[Name vm := set_State VM_REMOVE vm]}.
Definition RemoveVMPoolMember (cloudlets : gmap ZoneObjs.CloudletKey VCloudlet) (in_ : VMPoolMember)
    (aborted : list pools) (s : pools) : result pools :=
  match VMPoolKey_ValidateKey (pm_Key in_) with
  | Some err => Err err
  | None =>
      match VM_ValidateName (pm_Vm in_) with
      | Some err => Err err
      | None =>
          let cctx := call_context (pm_CrmOverride in_) in
          match via_crm cloudlets cctx (pm_Key in_) with
          | Some _ => updateVMPool_start cctx (pm_Key in_) (remove_request (pm_Vm in_)) aborted s
          | None => remove_direct in_ s
          end
      end
  end.

(** The transactions of [DeleteVMPool]. *)
Definition delete_prepare_txn (cctx : Placement.CallContext) (key : VMPoolKey) (s : pools) : result pools :=
  match s !! key with
  | None => Err (NotFound key)
  | Some cur =>
      if negb (ignoreCRMTransient cctx) && po_DeletePrepare cur then Err (BeingDeleted key)
      else Ok (put (set_prepare true cur) s)
  end.
Definition delete_undo_txn (key : VMPoolKey) (s : pools) : pools :=
  match s !! key with
  | Some cur => if po_DeletePrepare cur then put (set_prepare false cur) s else s
  | None => s
  end.
Definition delete_txn (key : VMPoolKey) (s : pools) : result pools :=
  match s !! key with None => Err (NotFound key) | Some _ => Ok (delete key s) end.
(** Between the first transaction and the others: the use of the pool. *)
Definition DeleteVMPool_rest (cloudlets : gmap ZoneObjs.CloudletKey VCloudlet) (key : VMPoolKey) (s : pools) :
    pools * option error :=
  match GetCloudletForVMPool cloudlets key with
  | Some _ => (delete_undo_txn key s, Some "VM pool in use by Cloudlet")
  | None =>
      match delete_txn key s with
      | Ok s' => (s', None)
      | Err err => (delete_undo_txn key s, Some err)
      end
  end.

(** ** Infos of the CRM *)

Definition UpdateFromInfo (in_ : PoolInfo) (s : pools) : pools :=
  let fmap := MakeFieldMap (pi_Fields in_) in
  match s !! vi_Key (pi_Info in_) with
  | None => s
  | Some vmPool =>
      let vmPool := if HasOrHasChild fmap "4" then set_vms (vi_Vms (pi_Info in_)) vmPool else vmPool in
      let vmPool := if Has fmap "5" then set_state (vi_State (pi_Info in_)) vmPool else vmPool in
      let vmPool := if Has fmap "6" then set_errors (Errors (pi_Info in_)) vmPool else vmPool in
      put vmPool s
  end.
(** What the CRM publishes sets no fields, and copies of an info have none. *)
Definition received (info : VMPoolInfo) : PoolInfo := mkPoolInfo [] info.
Definition VMPoolInfoApi_Update (in_ : PoolInfo) (s : pools) : pools := UpdateFromInfo in_ s.
(** The pool of the controller in the cache of the CRM. *)
Definition seen_by_crm (s : pools) (cd : CRMData) : CRMData :=
  mkCRM (pool_Key cd) (pool_Vms cd) ((λ p, mkVMPool (po_Key p) (po_Vms p) (po_State p)) <$> s) (published cd)
    (CloudletInfoCache cd) (FlavorList cd).
End VMPoolApi.

(** ** Runs of the handlers *)

Section Steps.
Context {GR : GoRange} `{JK : !Json VMPoolKey}.

(** A transaction of any handler, but for the updates and removals that are
    written for the CRM; the cloudlets and the runs that do not commit are any. *)
Inductive vp_step : pools → pools → Prop :=
| vp_create in_ s s' : CreateVMPool in_ s = Ok s' → vp_step s s'
| vp_update cloudlets in_ aborted s s' :
    via_crm cloudlets (call_context (po_CrmOverride in_)) (po_Key in_) = None →
    UpdateVMPool cloudlets in_ aborted s = Ok s' → vp_step s s'
| vp_add cloudlets in_ aborted s s' : AddVMPoolMember cloudlets in_ aborted s = Ok s' → vp_step s s'
| vp_remove cloudlets in_ aborted s s' :
    via_crm cloudlets (call_context (pm_CrmOverride in_)) (pm_Key in_) = None →
    RemoveVMPoolMember cloudlets in_ aborted s = Ok s' → vp_step s s'
| vp_end cctx cloudlet key stream wait s : vp_step s (updateVMPool_end cctx cloudlet key stream wait s).1
| vp_prepare cctx key s s' : delete_prepare_txn cctx key s = Ok s' → vp_step s s'
| vp_delete cloudlets key s : vp_step s (DeleteVMPool_rest cloudlets key s).1
| vp_info info s : vp_step s (VMPoolInfoApi_Update (received info) s).

(** *** Addresses *)

Definition addresses (f : VMNetInfo → string) (vms : list VM) : list string :=
  filter (λ a, a ≠ "") (f ∘ NetInfo <$> vms).
Definition valid_vm (vm : VM) : Prop := VM_Validate vm = None.
Record vms_ok (vms : list VM) : Prop := {
  ok_valid : Forall valid_vm vms;
  ok_ext : NoDup (addresses ExternalIp vms);
  ok_int : NoDup (addresses InternalIp vms);
}.
Record pools_ok (s : pools) : Prop := {
  ok_key : ∀ key p, s !! key = Some p → po_Key p = key;
  ok_vms : ∀ key p, s !! key = Some p → vms_ok (po_Vms p);
}.

Lemma addresses_app f l l' : addresses f (l ++ l') = addresses f l ++ addresses f l'.
Proof. unfold addresses. by rewrite fmap_app, filter_app. Qed.
Lemma elem_addresses f vms a : a ∈ addresses f vms ↔ a ≠ "" ∧ ∃ vm, vm ∈ vms ∧ f (NetInfo vm) = a.
Proof. unfold addresses. rewrite list_elem_of_filter, list_elem_of_fmap. simpl. naive_solver. Qed.
Lemma valid_set_State st vm : valid_vm (set_State st vm) ↔ valid_vm vm.
Proof. done. Qed.
Lemma addresses_same f vms vms' : NetInfo <$> vms = NetInfo <$> vms' → addresses f vms = addresses f vms'.
Proof. intros Hn. unfold addresses. by rewrite !list_fmap_compose, Hn. Qed.

Lemma validate_vms_ok e i vms :
  validate_vms e i vms = None →
  vms_ok vms ∧ (∀ a, a ∈ addresses ExternalIp vms → a ∉ e) ∧ (∀ a, a ∈ addresses InternalIp vms → a ∉ i).
Proof.
  revert e i. induction vms as [|v vms IH]; intros e i Hv; simpl in Hv.
  { split; [|split; intros a []%elem_of_nil]. split; constructor. }
  destruct (VM_Validate v) eqn:Hval; [done|]. case_decide as He; [done|]. case_decide as Hi; [done|].
  case_decide; [done|]. apply IH in Hv as ([Hf Hne Hni] & Hde & Hdi).
  assert (∀ f l (m : gset string), ¬ (f (NetInfo v) ≠ "" ∧ f (NetInfo v) ∈ m) → NoDup (addresses f l) →
    (∀ a, a ∈ addresses f l → a ∉ if decide (f (NetInfo v) ≠ "") then {[f (NetInfo v)]} ∪ m else m) →
    NoDup (addresses f (v :: l)) ∧ ∀ a, a ∈ addresses f (v :: l) → a ∉ m) as Hone.
  { clear. intros f l m Hm Hnd Hout. unfold addresses in *. csimpl. rewrite filter_cons. simpl.
    destruct (decide (f (NetInfo v) ≠ "")) as [Hx|Hx]; [|done]. split.
    - apply NoDup_cons. split; [|done]. intros Hin. apply Hout in Hin. set_solver.
    - intros a [->|Hin]%elem_of_cons; [by intros ?; apply Hm|]. apply Hout in Hin. set_solver. }
  destruct (Hone _ _ _ He Hne Hde) as [H1 H2], (Hone _ _ _ Hi Hni Hdi) as [H3 H4].
  split; [|done]. split; [by constructor|done|done].
Qed.
Lemma Validate_ok p : VMPool_Validate p = None → vms_ok (po_Vms p).
Proof. unfold VMPool_Validate. destruct (VMPoolKey_ValidateKey _); [done|]. by intros [? _]%validate_vms_ok. Qed.

(** A VM whose addresses none of the pool has. *)
Lemma vms_ok_snoc vms vm :
  vms_ok vms → valid_vm vm → (∀ c, c ∈ vms → validateVMNetInfo c vm = None) → vms_ok (vms ++ [vm]).
Proof.
  intros [Hf He Hi] Hv Hn.
  assert (∀ f, NoDup (addresses f vms) → (∀ c, c ∈ vms → f (NetInfo c) ≠ "" → f (NetInfo c) ≠ f (NetInfo vm)) →
    NoDup (addresses f (vms ++ [vm]))) as Hone.
  { clear. intros f Hnd Hd. rewrite addresses_app. apply list.NoDup_app. split; [done|]. split.
    - intros a (Ha & c & Hc & Hca)%elem_addresses (_ & c' & ->%list_elem_of_singleton & Hca')%elem_addresses.
      apply (Hd c Hc); congruence.
    - unfold addresses. csimpl. rewrite filter_cons. case_decide; repeat constructor. by intros []%elem_of_nil. }
  unfold validateVMNetInfo in Hn. split.
  - apply Forall_app. split; [done|]. by constructor.
  - apply Hone; [done|]. intros c Hc Hne Heq. specialize (Hn c Hc). by rewrite decide_True in Hn.
  - apply Hone; [done|]. intros c Hc Hne Heq. specialize (Hn c Hc). case_decide; [done|]. by rewrite decide_True in Hn.
Qed.
Lemma vms_ok_same vms vms' :
  NetInfo <$> vms' = NetInfo <$> vms → Forall valid_vm vms' → vms_ok vms → vms_ok vms'.
Proof.
  intros Hn Hf [_ He Hi]. split; [done| |]; by rewrite (addresses_same _ vms' vms).
Qed.
Lemma addresses_sublist f vms vms' : vms' `sublist_of` vms → addresses f vms' `sublist_of` addresses f vms.
Proof.
  unfold addresses. induction 1 as [|v l l' _ IH|v l l' _ IH]; csimpl; [done| |]; rewrite ?filter_cons.
  - case_decide; [by apply sublist_skip|done].
  - case_decide; [by apply sublist_cons|done].
Qed.
Lemma vms_ok_sublist vms vms' : vms' `sublist_of` vms → vms_ok vms → vms_ok vms'.
Proof.
  intros Hs [Hf He Hi]. split.
  - rewrite Forall_forall in *. intros x Hx. apply Hf. by eapply elem_of_sublist.
  - eapply sublist_NoDup; [exact He|]. by apply addresses_sublist.
  - eapply sublist_NoDup; [exact Hi|]. by apply addresses_sublist.
Qed.
Lemma remove_vm_sublist n vms : remove_vm n vms `sublist_of` vms.
Proof.
  induction vms as [|vm vms IH]; simpl; [done|]. case_decide; [by apply sublist_cons|by apply sublist_skip].
Qed.

(** What distinct addresses mean for the VMs. *)
Lemma addresses_apart (f : VMNetInfo → string) (vms : list VM) i j a b :
  NoDup (addresses f vms) → vms !! i = Some a → vms !! j = Some b → i ≠ j → f (NetInfo a) ≠ "" →
  f (NetInfo a) ≠ f (NetInfo b).
Proof.
  revert i j. induction vms as [|v vms IH]; intros i j Hnd Hi Hj Hij Hne Heq; [done|].
  unfold addresses in Hnd. csimpl in Hnd. rewrite filter_cons in Hnd. fold (addresses f vms) in Hnd.
  assert (NoDup (addresses f vms)) as Hnd' by (case_decide; [by apply NoDup_cons in Hnd as [_ ?]|done]).
  assert (∀ k x, vms !! k = Some x → f (NetInfo x) ≠ "" → f (NetInfo v) = f (NetInfo x) → False) as Hv.
  { intros k x Hk Hx Hvx. rewrite decide_True in Hnd by (simpl; congruence). apply NoDup_cons in Hnd as [Hno _]. apply Hno.
    apply elem_addresses. split; [simpl; congruence|]. exists x. split; [by eapply list_elem_of_lookup_2|done]. }
  destruct i as [|i], j as [|j]; simplify_eq/=; [|eapply Hv; eauto; congruence..|].
  - eapply Hv; [exact Hj|congruence|done].
  - apply (IH i j); auto.
Qed.
Lemma valid_internal vm : valid_vm vm → InternalIp (NetInfo vm) ≠ "".
Proof. unfold valid_vm, VM_Validate. by destruct (VM_ValidateName vm); repeat case_decide. Qed.

(** *** The steps keep them *)

Lemma pools_ok_put p s : pools_ok s → vms_ok (po_Vms p) → pools_ok (put p s).
Proof.
  intros [Hk Hv] Hp. unfold put. split; intros key q [[<- <-]|[_ Hq]]%lookup_insert_Some; try done; eauto.
Qed.
Lemma pools_ok_change p q s key :
  pools_ok s → s !! key = Some p → po_Vms q = po_Vms p → pools_ok (put q s).
Proof. intros Hs Hp Hq. apply pools_ok_put; [done|]. rewrite Hq. by eapply (ok_vms s). Qed.

Lemma check_updates_none vm n u l :
  check_updates vm l = None → (n, u) ∈ l → State u = VM_ADD → Name vm ≠ n ∧ validateVMNetInfo vm u = None.
Proof.
  induction l as [|[m x] l IH]; simpl; [by intros ? ?%elem_of_nil|]. intros Hc Hin Hst.
  destruct (if decide (Name vm = m) then _ else _) eqn:He; [done|].
  apply elem_of_cons in Hin as [[= -> ->]|Hin]; [|by apply IH].
  case_decide; [by rewrite decide_True in He|]. rewrite decide_True in He by auto. done.
Qed.
Lemma go_range_one (n : string) (u : VM) : go_range ({[n := u]} : gmap string VM) = [(n, u)].
Proof. apply Permutation_length_1_inv. rewrite <- (map_to_list_singleton n u). symmetry. apply go_range_perm. Qed.

(** The transaction of an addition, after any number of runs. *)
Lemma replace_vms_add vm cur r vms :
  replace_vms cur (add_request vm) = (r, vms) →
  vms = add_request vm ∧ ∀ l, r = Ok l →
    l = cur ∧ ∀ c, c ∈ cur → Name c ≠ Name vm ∧ validateVMNetInfo c vm = None.
Proof.
  revert r vms. induction cur as [|c cur IH]; intros r vms Hr; simpl in Hr.
  { injection Hr as <- <-. split; [done|]. intros l [= <-]. split; [done|]. by intros c ?%elem_of_nil. }
  destruct (check_updates c (go_range (add_request vm))) eqn:Hc; [injection Hr as <- <-; done|].
  unfold add_request in Hc. rewrite go_range_one in Hc.
  apply (check_updates_none c (Name vm) (set_State VM_ADD vm)) in Hc as [Hn Hv]; [|by left|done].
  unfold add_request in Hr at 1. rewrite lookup_singleton_ne in Hr by done.
  destruct (replace_vms cur (add_request vm)) as [r' vms'] eqn:Hr'. destruct (IH r' vms' eq_refl) as [-> Hok].
  destruct r' as [l'|err]; injection Hr as <- <-; (split; [done|]); [|done]. intros l [= <-].
  destruct (Hok l' eq_refl) as [-> Hin]. split; [done|]. intros x [->|Hx]%elem_of_cons; [done|auto].
Qed.
Lemma add_body_ok cctx key vm s r vms :
  update_body cctx key (add_request vm) s = (r, vms) →
  vms = add_request vm ∧ ∀ s', r = Ok s' → ∃ p, s !! key = Some p ∧
    (∀ c, c ∈ po_Vms p → Name c ≠ Name vm ∧ validateVMNetInfo c vm = None) ∧
    s' = put ((if Placement.ignoreCRM cctx then id else set_state UPDATE_REQUESTED)
                (set_vms (po_Vms p ++ [set_State VM_ADD vm]) p)) s.
Proof.
  unfold update_body. destruct (s !! key) as [p|]; [|by intros [= <- <-]].
  destruct (bool_decide _ && _); [by intros [= <- <-]|].
  destruct (replace_vms (po_Vms p) (add_request vm)) as [r' vms'] eqn:Hr. intros [= <- <-].
  apply replace_vms_add in Hr as [-> Hok]. split; [done|]. intros s' Hs'.
  destruct r' as [l|]; [|done]. destruct (Hok l eq_refl) as [-> Hin]. exists p. split; [done|]. split; [done|].
  simpl in Hs'. unfold add_request in Hs'. rewrite go_range_one in Hs'. simpl in Hs'. by injection Hs' as <-.
Qed.
Lemma add_txn_ok cctx key vm aborted s s' :
  update_txn cctx key (add_request vm) aborted s = Ok s' →
  ∃ p, s !! key = Some p ∧ (∀ c, c ∈ po_Vms p → Name c ≠ Name vm ∧ validateVMNetInfo c vm = None) ∧
    s' = put ((if Placement.ignoreCRM cctx then id else set_state UPDATE_REQUESTED)
                (set_vms (po_Vms p ++ [set_State VM_ADD vm]) p)) s.
Proof.
  induction aborted as [|a aborted IH]; simpl; intros Ht;
    destruct (update_body cctx key (add_request vm) _) as [r vms] eqn:Hb.
  - simpl in Ht. by apply add_body_ok in Hb as [_ Hb]; apply Hb.
  - apply add_body_ok in Hb as [-> _]. destruct r; [by apply IH|done].
Qed.

Lemma CopyInFields_key m in_ : po_Key m = po_Key in_ → po_Key (VMPool_CopyInFields m in_).1 = po_Key m.
Proof.
  intros Hk. unfold VMPool_CopyInFields. rewrite <- Hk.
  destruct (po_Key m) as [o n]. simpl. rewrite !copy_same. by repeat case_match; simplify_eq/=.
Qed.
Lemma force_free_ok vms : vms_ok vms → vms_ok (force_free <$> vms).
Proof.
  intros Hv. eapply vms_ok_same; [| |exact Hv].
  - rewrite <- list_fmap_compose. apply list_fmap_ext. intros i x _. unfold force_free. simpl. by case_decide.
  - destruct Hv as [Hf _ _]. rewrite Forall_fmap. eapply Forall_impl; [exact Hf|]. intros x Hx. unfold force_free. simpl.
    by case_decide.
Qed.
Lemma update_direct_ok in_ s s' : pools_ok s → update_direct in_ s = Ok s' → pools_ok s'.
Proof.
  intros Hs Hu. unfold update_direct in Hu. destruct (s !! po_Key in_) as [cur|] eqn:Hc; [|done].
  destruct (VMPool_CopyInFields cur in_) as [q n] eqn:Hq. destruct (VMPool_Validate q) eqn:Hv; [done|].
  case_decide; [by injection Hu as <-|]. injection Hu as <-. apply pools_ok_put; [done|].
  by apply force_free_ok, Validate_ok.
Qed.
Lemma check_member_none vm cur c : check_member vm cur = None → c ∈ cur → Name c ≠ Name vm ∧ validateVMNetInfo c vm = None.
Proof.
  induction cur as [|x cur IH]; simpl; [by intros ? ?%elem_of_nil|]. case_decide; [done|].
  destruct (validateVMNetInfo x vm) eqn:Hx; [done|]. intros Hn [->|Hin]%elem_of_cons; auto.
Qed.
Lemma add_direct_ok in_ s s' : pools_ok s → valid_vm (pm_Vm in_) → add_direct in_ s = Ok s' → pools_ok s'.
Proof.
  intros Hs Hv Ha. unfold add_direct in Ha. destruct (s !! pm_Key in_) as [cur|] eqn:Hc; [|done].
  destruct (check_member _ _) eqn:Hm; [done|]. injection Ha as <-. apply pools_ok_put; [done|].
  apply vms_ok_snoc; [by eapply (ok_vms s)|done|]. intros c Hin. by eapply check_member_none in Hin as [_ ?].
Qed.
Lemma add_request_ok cctx key vm aborted s s' :
  pools_ok s → valid_vm vm → updateVMPool_start cctx key (add_request vm) aborted s = Ok s' → pools_ok s'.
Proof.
  intros Hs Hv Hu. unfold updateVMPool_start in Hu. case_decide; [done|].
  apply add_txn_ok in Hu as (p & Hp & Hin & ->).
  assert (vms_ok (po_Vms p ++ [set_State VM_ADD vm])) as Hok.
  { apply vms_ok_snoc; [by eapply (ok_vms s)|by apply valid_set_State|]. intros c Hc. by apply Hin in Hc as [_ ?]. }
  destruct (Placement.ignoreCRM cctx); by apply pools_ok_put.
Qed.
Lemma undo_ok key s : pools_ok s → pools_ok (delete_undo_txn key s).
Proof.
  intros Hs. unfold delete_undo_txn. destruct (s !! key) as [p|] eqn:Hp; [|done].
  destruct (po_DeletePrepare p); [|done]. by eapply pools_ok_change.
Qed.
Lemma delete_ok (key : VMPoolKey) s : pools_ok s → pools_ok (delete key s).
Proof. intros [Hk Hv]. split; intros k q [_ Hq]%lookup_delete_Some; eauto. Qed.
Lemma info_ok info s : pools_ok s → pools_ok (VMPoolInfoApi_Update (received info) s).
Proof.
  intros Hs. unfold VMPoolInfoApi_Update, UpdateFromInfo. simpl. destruct (s !! vi_Key info) as [p|] eqn:Hp; [|done].
  by eapply pools_ok_change.
Qed.
Lemma vp_step_ok s s' : pools_ok s → vp_step s s' → pools_ok s'.
Proof.
  intros Hs Hst. destruct Hst as [in_ s s' Hc|cl in_ ab s s' Hr Hu|cl in_ ab s s' Ha|cl in_ ab s s' Hr Hm|
    cctx cl key st w s|cctx key s s' Hp|cl key s|info s].
  - unfold CreateVMPool in Hc. destruct (VMPool_Validate in_) eqn:Hv; [done|].
    destruct (s !! po_Key in_); [done|]. injection Hc as <-. apply pools_ok_put; [done|]. by apply Validate_ok.
  - unfold UpdateVMPool in Hu. destruct (VMPool_ValidateUpdateFields in_); [done|].
    destruct (VMPool_Validate in_); [done|]. change (po_Key (clear_override in_)) with (po_Key in_) in Hu.
    rewrite Hr in Hu. by eapply update_direct_ok.
  - unfold AddVMPoolMember in Ha. destruct (VMPoolMember_Validate in_) eqn:Hv; [done|].
    assert (valid_vm (pm_Vm in_)) as Hvm.
    { unfold VMPoolMember_Validate in Hv. by destruct (VMPoolKey_ValidateKey _). }
    destruct (via_crm _ _ _); [by eapply add_request_ok|by eapply add_direct_ok].
  - unfold RemoveVMPoolMember in Hm. destruct (VMPoolKey_ValidateKey _); [done|]. destruct (VM_ValidateName _); [done|].
    rewrite Hr in Hm. unfold remove_direct in Hm. destruct (s !! pm_Key in_) as [p|] eqn:Hp; [|done].
    case_decide; injection Hm as <-; [|done]. apply pools_ok_put; [done|].
    eapply vms_ok_sublist; [apply remove_vm_sublist|]. by eapply (ok_vms s).
  - unfold updateVMPool_end. destruct (Placement.ignoreCRM _); [done|]. destruct st; [done|].
    destruct (CrmOnEdge cl); [|done]. simpl. unfold reset_txn. destruct (s !! key) as [p|] eqn:Hp; [|done].
    by eapply pools_ok_change.
  - unfold delete_prepare_txn in Hp. destruct (s !! key) as [p|] eqn:Hk; [|done].
    destruct (negb _ && _); [done|]. injection Hp as <-. by eapply pools_ok_change.
  - unfold DeleteVMPool_rest, delete_txn. destruct (GetCloudletForVMPool _ _); simpl; [by apply undo_ok|].
    destruct (s !! key); simpl; [by apply delete_ok|by apply undo_ok].
  - by apply info_ok.
Qed.

(** C8: every VM of every pool is valid, and no two VMs of a pool have the same
    external or the same internal address (as they are written), whatever the
    handlers do in any order, with transactions that run again; except for the
    updates and removals that are written for a CRM ([later_address_taken]). *)
Theorem addresses_distinct (s : pools) (key : VMPoolKey) (p : PoolObj) (i j : nat) (a b : VM) :
  rtc vp_step ∅ s → s !! key = Some p → po_Vms p !! i = Some a → po_Vms p !! j = Some b → i ≠ j →
  VM_Validate a = None ∧ InternalIp (NetInfo a) ≠ InternalIp (NetInfo b)
  ∧ (ExternalIp (NetInfo a) ≠ "" → ExternalIp (NetInfo a) ≠ ExternalIp (NetInfo b)).
Proof.
  intros Hr Hp Ha Hb Hij.
  assert (pools_ok s) as Hs.
  { eapply rtc_ind_r; [|intros; by eapply vp_step_ok|exact Hr]. split; intros ? ? ?%lookup_empty_Some; done. }
  destruct (ok_vms s Hs key p Hp) as [Hf He Hi]. rewrite Forall_lookup in Hf.
  pose proof (Hf i a Ha) as Hva. split; [done|]. split.
  - apply (addresses_apart InternalIp (po_Vms p) i j a b); try done. by apply valid_internal.
  - intros Hne. by apply (addresses_apart ExternalIp (po_Vms p) i j a b).
Qed.
End Steps.

(** ** Runs of a transaction that do not commit *)

Section Retry.
Context {GR : GoRange} `{JK : !Json VMPoolKey}.

Lemma replace_vms_none cur : replace_vms cur ∅ = (Ok cur, ∅).
Proof.
  assert (go_range (∅ : gmap string VM) = []) as He.
  { apply Permutation_nil_r. rewrite go_range_perm. by rewrite map_to_list_empty. }
  induction cur as [|vm cur IH]; simpl; [done|]. by rewrite He, lookup_empty, IH.
Qed.
(** A run takes the requests for the VMs of the pool out of the caller's map. *)
Lemma replace_vms_left cur vms l rest :
  replace_vms cur vms = (Ok l, rest) → ∀ n, rest !! n = if decide (n ∈ Name <$> cur) then None else vms !! n.
Proof.
  revert vms l rest. induction cur as [|vm cur IH]; intros vms l rest Hr n; simpl in Hr.
  { by injection Hr as _ <-. }
  destruct (check_updates vm (go_range vms)); [done|].
  assert (∃ vm' l' vms', (vms' = delete (Name vm) vms ∨ vms' = vms ∧ vms !! Name vm = None) ∧
    replace_vms cur vms' = (Ok l', rest) ∧ l = vm' :: l') as (vm' & l' & vms' & Hv & Hr' & _).
  { destruct (vms !! Name vm) as [u|] eqn:Hu.
    - destruct (replace_vms cur (delete (Name vm) vms)) as [[l'|] ?] eqn:E; simplify_eq/=. eauto 10.
    - destruct (replace_vms cur vms) as [[l'|] ?] eqn:E; simplify_eq/=. eauto 10. }
  apply IH with (n := n) in Hr'. rewrite Hr'. csimpl.
  destruct (decide (n = Name vm)) as [->|Hne].
  - rewrite (decide_True (P := Name vm ∈ Name vm :: _)) by left. case_decide; [done|].
    destruct Hv as [->|[-> ?]]; [by rewrite lookup_delete_eq|done].
  - assert (vms' !! n = vms !! n) as -> by (destruct Hv as [->|[-> _]]; [by rewrite lookup_delete_ne|done]).
    repeat case_decide; try done; set_solver.
Qed.

(** The requests that a run leaves: those for VMs that it did not find. *)
Definition not_found (p : PoolObj) (vms : gmap string VM) : gmap string VM :=
  filter (λ kv, kv.1 ∉ Name <$> po_Vms p) vms.
Lemma update_body_left cctx key vms a a' rest p :
  a !! key = Some p → update_body cctx key vms a = (Ok a', rest) → rest = not_found p vms.
Proof.
  intros Ha Hb. unfold update_body in Hb. rewrite Ha in Hb. destruct (bool_decide _ && _); [done|].
  destruct (replace_vms (po_Vms p) vms) as [[l|] r] eqn:Hr; [|done]. injection Hb as _ <-.
  apply map_eq. intros n. rewrite (replace_vms_left _ _ _ _ Hr). unfold not_found. rewrite map_lookup_filter.
  case_decide as Hd; destruct (vms !! n); simpl; try done; case_guard; done.
Qed.
(** An update without requests. *)
Lemma update_body_nothing cctx key s q :
  s !! key = Some q → po_State q ≠ UPDATE_REQUESTED → Placement.ignoreCRM cctx = false →
  (update_body cctx key ∅ s).1 = Ok (put (set_state UPDATE_REQUESTED q) s).
Proof.
  intros Hq Hst Hig. unfold update_body. rewrite Hq, (bool_decide_eq_false_2 _ Hst), Hig. simpl.
  rewrite replace_vms_none. simpl. assert (go_range (∅ : gmap string VM) = []) as ->.
  { apply Permutation_nil_r. rewrite go_range_perm. by rewrite map_to_list_empty. }
  simpl. by destruct q.
Qed.

(** C40: an update loses requests when its transaction has to run again.  After a
    first run that would have succeeded on a pool [p], the run that commits carries out
    only the requests for VMs that [p] does not have (those to add), whatever the pool
    holds by then, and the caller is told nothing of the others.  When all
    requests are for VMs of [p] and the update is written for the CRM, only the state of
    the pool is set, so that the CRM starts an update without any change. *)
Theorem retry_loses_update (cctx : Placement.CallContext) (key : VMPoolKey) (vms rest : gmap string VM)
    (a s a' : pools) (p : PoolObj) :
  vms ≠ ∅ → a !! key = Some p → update_body cctx key vms a = (Ok a', rest) →
  updateVMPool_start cctx key vms [a] s = (update_body cctx key (not_found p vms) s).1 ∧
  (∀ q, not_found p vms = ∅ → s !! key = Some q → po_State q ≠ UPDATE_REQUESTED → Placement.ignoreCRM cctx = false →
     updateVMPool_start cctx key vms [a] s = Ok (put (set_state UPDATE_REQUESTED q) s)).
Proof.
  intros Hne Ha Hb. pose proof (update_body_left _ _ _ _ _ _ _ Ha Hb) as Hrest. subst rest.
  assert (updateVMPool_start cctx key vms [a] s = (update_body cctx key (not_found p vms) s).1) as Hrun.
  { unfold updateVMPool_start. rewrite decide_False by done. simpl. by rewrite Hb. }
  split; [exact Hrun|]. intros q Hnone Hq Hst Hig. rewrite Hrun, Hnone. by apply update_body_nothing.
Qed.
End Retry.

(** ** Together with the CRM *)

Section WithCRM.
Context {GR : GoRange} `{JK : !Json VMPoolKey}.
Context (VerifyVMs : list VM → option error) (ssh_flavor : VM → result string).
Notation crm_update := (VMPool.UpdateVMPool VerifyVMs ssh_flavor).

Definition last_state (cd : CRMData) : option TrackedState := vi_State <$> last (published cd).

Lemma by_name_snoc vms vm : by_name (vms ++ [vm]) = <[Name vm := vm]> (by_name vms).
Proof. unfold by_name. by rewrite fold_left_app. Qed.

(** The end of the handler for each result of [mark_vms]. *)
Lemma crm_update_cases key cd vmPool :
  VMPoolCache cd !! key = Some vmPool →
  let cd' := crm_update key cd in
  match mark_vms (pool_Vms cd) (Vms vmPool) with
  | Err _ => last_state cd' = Some UPDATE_ERROR ∧ pool_Vms cd' = pool_Vms cd
  | Ok None => pool_Vms cd' = pool_Vms cd
  | Ok (Some (new, old, val)) =>
      ∃ err, Name <$> pool_Vms cd' = Name <$> finish_vms err old new ∧
        last_state cd' = Some (if err is Some _ then UPDATE_ERROR else READY)
  end.
Proof.
  intros Hk. unfold VMPool.UpdateVMPool, markUpdateVMs, last_state. rewrite Hk. cbn [pool_Vms].
  destruct (mark_vms _ _) as [[[[new old] val]|]|e].
  - set (err := if decide (val ≠ []) then VerifyVMs val else None). exists err.
    destruct (finish_update_pool ssh_flavor err old (set_Vms new (UpdateVMPoolInfo UPDATING "" cd)))
      as [Hs (info & Hl & _ & Hst)]. split; [by apply same_vms_names in Hs|].
    rewrite Hl. simpl. by rewrite Hst.
  - done.
  - split; [|done]. cbn. by rewrite last_snoc.
Qed.

(** A request to add a VM that the CRM has already. *)
Lemma crm_refuses key cd vmPool vm :
  VMPoolCache cd !! key = Some vmPool → NoDup (Name <$> pool_Vms cd) →
  vm ∈ pool_Vms cd → change_state (by_name (Vms vmPool)) vm = Some VM_ADD →
  last_state (crm_update key cd) = Some UPDATE_ERROR ∧ pool_Vms (crm_update key cd) = pool_Vms cd.
Proof.
  intros Hk Hnd Hin Hc. pose proof (crm_update_cases key cd vmPool Hk) as Hcase. simpl in Hcase.
  destruct (mark_vms _ _) as [[[[new old] val]|]|e] eqn:Hm; [| |done].
  - apply mark_vms_spec in Hm; [|done]. exfalso. apply (mr_accepted _ _ _ _ Hm vm Hin). by left.
  - unfold mark_vms in Hm. apply result_bind_ok in Hm as (m1 & H1 & _).
    apply mark_loops in H1 as (Hr & _); [|done]. exfalso. apply (Hr vm Hin). by left.
Qed.

(** A pool whose VMs are settled but for one that is added: when the CRM is
    ready, it has that VM. *)
Lemma crm_adds key cd vmPool vms m :
  VMPoolCache cd !! key = Some vmPool → NoDup (Name <$> pool_Vms cd) →
  Vms vmPool = vms ++ [set_State VM_ADD m] → (∀ vm, vm ∈ vms → State vm = VM_FREE) →
  last_state (crm_update key cd) = Some READY → Name m ∈ Name <$> pool_Vms (crm_update key cd).
Proof.
  intros Hk Hnd Hv Hfree Hl. pose proof (crm_update_cases key cd vmPool Hk) as Hcase. simpl in Hcase. rewrite Hv in Hcase.
  assert (by_name (vms ++ [set_State VM_ADD m]) !! Name m = Some (set_State VM_ADD m)) as Hm.
  { rewrite by_name_snoc. apply lookup_insert_eq. }
  assert (∀ n x, by_name (vms ++ [set_State VM_ADD m]) !! n = Some x → State x = VM_FREE ∨ State x = VM_ADD) as Hst.
  { intros n x [_ [Hx| ->%list_elem_of_singleton]%elem_of_app]%by_name_key; [left; by apply Hfree|by right]. }
  destruct (decide (Name m ∈ Name <$> pool_Vms cd)) as [(c & Hcn & Hc)%list_elem_of_fmap|Hno].
  { destruct (crm_refuses key cd vmPool c) as [He _]; [done..| |by rewrite He in Hl].
    unfold change_state. by rewrite Hv, <- Hcn, Hm. }
  assert (leftover (by_name (vms ++ [set_State VM_ADD m])) (pool_Vms cd) !! Name m = Some (set_State VM_ADD m)) as Hlo.
  { by apply map_lookup_filter_Some. }
  destruct (mark_vms _ _) as [[[[new old] val]|]|e] eqn:Hmark.
  - apply mark_vms_spec in Hmark; [|done]. destruct (mr_new _ _ _ _ Hmark) as (extra & _ & [Hn|Hn]).
    + destruct Hn as (_ & _ & -> & Hx). destruct Hcase as ([e|] & Hnm & Hst'); [by rewrite Hst' in Hl|].
      rewrite Hnm. apply list_elem_of_fmap. exists (set_State VM_FREE (set_State VM_ADD m)). split; [done|].
      apply list_elem_of_omap. exists (set_State VM_ADD m). split; [|done]. apply elem_of_app. right. by apply Hx.
    + destruct Hn as ([(vm & Hin & u & Hu)|(n & vm & Hin & u & Hu)] & _).
      * unfold updated, change_state in Hu. destruct (by_name _ !! Name vm) as [x|] eqn:Hx; [|done]. simpl in Hu.
        by destruct (Hst _ _ Hx) as [E|E]; rewrite E in Hu.
      * apply map_lookup_filter_Some in Hin as [Hin _]. unfold new_update in Hu.
        by destruct (Hst _ _ Hin) as [E|E]; rewrite E in Hu.
  - apply mark_vms_none in Hmark as [_ He]; [|done]. by rewrite He, lookup_empty in Hlo.
  - destruct Hcase as [He _]. by rewrite He in Hl.
Qed.

Lemma crm_names key cd :
  NoDup (Name <$> pool_Vms cd) → NoDup (Name <$> pool_Vms (crm_update key cd)).
Proof.
  intros Hnd. destruct (VMPoolCache cd !! key) as [vmPool|] eqn:Hk.
  - pose proof (crm_update_cases key cd vmPool Hk) as Hcase. simpl in Hcase.
    destruct (mark_vms _ _) as [[[[new old] val]|]|e] eqn:Hm; [|by rewrite Hcase|by destruct Hcase as [_ ->]].
    destruct Hcase as (err & -> & _). apply mark_vms_spec in Hm; [|done]. apply finish_names.
    + intros n o Ho. by apply (mr_old _ _ _ _ Hm) in Ho as (_ & ? & _).
    + by eapply mark_result_names.
  - unfold VMPool.UpdateVMPool. by rewrite Hk.
Qed.
(** An info of the CRM leaves the pools of the controller as they are. *)
Lemma info_ignored info s :
  (∀ k p, s !! k = Some p → po_Key p = k) → VMPoolInfoApi_Update (received info) s = s.
Proof.
  intros Hk. unfold VMPoolInfoApi_Update, UpdateFromInfo. simpl. destruct (s !! vi_Key info) as [p|] eqn:Hp; [|done].
  change (put p s = s). unfold put. apply insert_id. by rewrite (Hk _ _ Hp).
Qed.
Lemma infos_ignored infos s :
  (∀ k p, s !! k = Some p → po_Key p = k) → foldl (λ s i, VMPoolInfoApi_Update (received i) s) s infos = s.
Proof. intros Hk. induction infos as [|i infos IH]; simpl; [done|]. by rewrite info_ignored. Qed.

(** C17: the second VM that is added to a pool in use by a cloudlet is refused.
    The controller adds the first VM and the CRM takes it over and is READY;
    whatever infos it sends, the controller's pool keeps the VM in the state
    VM_ADD, because no info names the fields to take over.  With the next
    VM the CRM receives the first one again as one to add: it ends in an error
    and its pool stays as it was. *)
Theorem second_member_refused (cctx : Placement.CallContext) (key : VMPoolKey) (m1 m2 : VM) (runs1 runs2 : list pools)
    (infos : list VMPoolInfo) (cloudlet : VCloudlet) (wait : option error) (s s1 s2 : pools) (p : PoolObj) (cd : CRMData) :
  (∀ k q, s !! k = Some q → po_Key q = k) →
  s !! key = Some p → (∀ vm, vm ∈ po_Vms p → State vm = VM_FREE) → NoDup (Name <$> pool_Vms cd) →
  Placement.ignoreCRM cctx = false → CrmOnEdge cloudlet = true →
  updateVMPool_start cctx key (add_request m1) runs1 s = Ok s1 →
  let cd1 := crm_update key (seen_by_crm s1 cd) in
  last_state cd1 = Some READY →
  let s1' := foldl (λ s i, VMPoolInfoApi_Update (received i) s) s1 infos in
  updateVMPool_start cctx key (add_request m2) runs2 (updateVMPool_end cctx cloudlet key None wait s1').1 = Ok s2 →
  let cd2 := crm_update key (seen_by_crm s2 cd1) in
  last_state cd2 = Some UPDATE_ERROR ∧ pool_Vms cd2 = pool_Vms cd1.
Proof.
  intros Hkeys Hp Hfree Hnd Hig Hedge H1 cd1 Hready s1' H2 cd2.
  unfold updateVMPool_start in H1, H2. case_decide; [done|]. case_decide; [done|].
  apply add_txn_ok in H1 as (p1 & Hp1 & _ & Hs1). assert (p1 = p) as -> by congruence. rewrite Hig in Hs1.
  pose proof (Hkeys _ _ Hp) as Hkey.
  set (q1 := set_state UPDATE_REQUESTED (set_vms (po_Vms p ++ [set_State VM_ADD m1]) p)) in *.
  assert (s1 !! key = Some q1) as Hq1.
  { rewrite Hs1. unfold put. change (po_Key q1) with (po_Key p). rewrite Hkey. apply lookup_insert_eq. }
  assert (s1' = s1) as ->.
  { apply infos_ignored. rewrite Hs1. unfold put. intros k q [[<- <-]|[_ Hq]]%lookup_insert_Some; [done|eauto]. }
  unfold updateVMPool_end in H2. rewrite Hig, Hedge in H2. simpl in H2. unfold reset_txn in H2. rewrite Hq1 in H2.
  set (q2 := set_errors [] (set_state TRACKED_STATE_UNKNOWN q1)) in *.
  assert (put q2 s1 !! key = Some q2) as Hq2.
  { unfold put. change (po_Key q2) with (po_Key p). rewrite Hkey. apply lookup_insert_eq. }
  apply add_txn_ok in H2 as (p2 & Hp2 & Hne & Hs2). assert (p2 = q2) as -> by congruence. rewrite Hig in Hs2.
  assert (Name m1 ∈ Name <$> pool_Vms cd1) as Hin.
  { apply (crm_adds key (seen_by_crm s1 cd) (mkVMPool (po_Key q1) (po_Vms q1) (po_State q1)) (po_Vms p) m1); try done.
    simpl. by rewrite lookup_fmap, Hq1. }
  apply list_elem_of_fmap in Hin as (c & Hcn & Hc).
  set (q3 := set_state UPDATE_REQUESTED (set_vms (po_Vms q2 ++ [set_State VM_ADD m2]) q2)) in *.
  assert (s2 !! key = Some q3) as Hq3.
  { assert (po_Key q3 = key) as Hk3 by exact Hkey. rewrite Hs2. unfold put at 1. simpl. rewrite Hkey. apply lookup_insert_eq. }
  apply (crm_refuses key (seen_by_crm s2 cd1) (mkVMPool (po_Key q3) (po_Vms q3) (po_State q3)) c); [| |done|].
  - simpl. by rewrite lookup_fmap, Hq3.
  - apply crm_names. exact Hnd.
  - unfold change_state. simpl. rewrite by_name_snoc, <- Hcn.
    assert (Name m1 ≠ Name m2).
    { apply (Hne (set_State VM_ADD m1)). simpl. apply elem_of_app. right. by left. }
    rewrite lookup_insert_ne by (simpl; congruence). by rewrite by_name_snoc, lookup_insert_eq.
Qed.
End WithCRM.

(** ** Concrete runs *)

Module VMPoolApiWitness.
Import VMPoolWitness.
#[local] Existing Instances canonical_range.
#[local] Instance key_json : Json VMPoolKey := countable_json.

Definition empty_pool (vms : list VM) : PoolObj := mkPool [] key0 vms TRACKED_STATE_UNKNOWN [] Placement.NO_OVERRIDE false.
Definition site : ZoneObjs.CloudletKey := ZoneObjs.mkCloudletKey "org" "site" "".
Definition cl0 : VCloudlet := mkVCloudlet "pool" true.
Definition used_by : gmap ZoneObjs.CloudletKey VCloudlet := {[site := cl0]}.
Definition vm4 : VM := vm "vm4" "10.0.0.4" "192.168.0.4" VM_FREE.
Definition vm5 : VM := vm "vm5" "" "192.168.0.5" VM_FREE.
Definition member (v : VM) : VMPoolMember := mkMember key0 v Placement.NO_OVERRIDE.
Definition s0 : pools := {[key0 := empty_pool [vm1; vm2]]}.
Definition ctx0 : Placement.CallContext := call_context Placement.NO_OVERRIDE.
Definition get (r : result pools) : pools := match r with Ok s => s | Err _ => ∅ end.
Definition s1 : pools := get (AddVMPoolMember ∅ (member vm4) [] s0).
Definition s2 : pools := get (AddVMPoolMember used_by (member vm5) [s1; s0] s1).
Definition pool2 : PoolObj := default (empty_pool []) (s2 !! key0).

#[local] Ltac run := match goal with |- ?a = ?b => vm_cast_no_check (@eq_refl _ b) end.

Lemma addresses_distinct_witness :
  rtc vp_step ∅ s2 ∧ s2 !! key0 = Some pool2 ∧ length (po_Vms pool2) = 4%nat ∧
  InternalIp (NetInfo vm2) ≠ InternalIp (NetInfo (set_State VM_ADD vm5)).
Proof.
  assert (rtc vp_step ∅ s2) as Hr.
  { apply rtc_l with s0; [apply (vp_create (empty_pool [vm1; vm2])); run|].
    apply rtc_l with s1; [apply (vp_add ∅ (member vm4) []); run|].
    apply rtc_once. apply (vp_add used_by (member vm5) [s1; s0]). run. }
  assert (s2 !! key0 = Some pool2) as Hp by run.
  split; [exact Hr|]. split; [exact Hp|]. split; [run|].
  apply (addresses_distinct s2 key0 pool2 1 3 vm2 (set_State VM_ADD vm5) Hr Hp); [run..|lia].
Defined.

(** An update of [vm1] loses its new address when its transaction runs again. *)
Definition moved1 : VM := vm "vm1" "10.0.0.9" "192.168.0.9" VM_FREE.
Definition req1 : gmap string VM := update_request [moved1].
Definition p0 : PoolObj := empty_pool [vm1; vm2].
Definition run1 : result pools * gmap string VM := update_body ctx0 key0 req1 s0.
Definition q1 : PoolObj := empty_pool [vm1; vm2; vm4].
Definition once1 : pools := get (updateVMPool_start ctx0 key0 req1 [] {[key0 := q1]}).
Lemma retry_loses_update_witness :
  updateVMPool_start ctx0 key0 req1 [s0] {[key0 := q1]} = Ok (put (set_state UPDATE_REQUESTED q1) {[key0 := q1]})
  ∧ (∃ s p, updateVMPool_start ctx0 key0 req1 [] {[key0 := q1]} = Ok s ∧ s !! key0 = Some p ∧
       NetInfo <$> head (po_Vms p) = Some (NetInfo moved1)).
Proof.
  split.
  - destruct (retry_loses_update ctx0 key0 req1 run1.2 s0 {[key0 := q1]} (get run1.1) p0) as [_ Hlost];
      [by apply map_non_empty_singleton|run|run|]. apply Hlost; [run|run|done|done].
  - exists once1, (default p0 (once1 !! key0)). split; [run|]. split; run.
Defined.

(** The CRM has the pool [vm1], [vm2]; its checks of VMs succeed. *)
Definition crm_start : CRMData := mkCRM key0 [vm1; vm2] ∅ [] None [].
Definition verify0 (vms : list VM) : option error := None.
Definition added1 : pools := get (updateVMPool_start ctx0 key0 (add_request vm4) [] s0).
Definition crm1 : CRMData := VMPool.UpdateVMPool verify0 ssh0 key0 (seen_by_crm added1 crm_start).
Definition after1 : pools :=
  (updateVMPool_end ctx0 cl0 key0 None None
     (foldl (λ s i, VMPoolInfoApi_Update (received i) s) added1 (published crm1))).1.
Definition added2 : pools := get (updateVMPool_start ctx0 key0 (add_request vm5) [] after1).
Lemma second_member_refused_witness :
  last_state crm1 = Some READY ∧ Name <$> pool_Vms crm1 = ["vm1"; "vm2"; "vm4"] ∧
  last_state (VMPool.UpdateVMPool verify0 ssh0 key0 (seen_by_crm added2 crm1)) = Some UPDATE_ERROR.
Proof.
  assert (last_state crm1 = Some READY) as Hr by run.
  split; [exact Hr|]. split; [run|].
  apply (second_member_refused verify0 ssh0 ctx0 key0 vm4 vm5 [] [] (published crm1) cl0 None s0 added1 added2 p0 crm_start);
    [|run| | |done|done|run|exact Hr|run].
  - intros k q Hq. unfold s0 in Hq. apply lookup_singleton_Some in Hq as [<- <-]. done.
  - intros v Hv. apply elem_of_cons in Hv as [->|Hv]; [done|]. by apply list_elem_of_singleton in Hv as ->.
  - apply (bool_decide_unpack _). vm_compute. exact I.
Defined.

(** An update that is written for the CRM may take the address of a VM
    further down the pool: the request is out of the map by then. *)
Definition to_vm2 : VM := vm "vm1" "" "192.168.0.2" VM_FREE.
Example later_address_taken :
  (s ← UpdateVMPool used_by (mkPool ["3"] key0 [to_vm2] READY [] Placement.NO_OVERRIDE false) [] s0;
   Ok ((λ p, InternalIp ∘ NetInfo <$> po_Vms p) <$> s !! key0)) = Ok (Some ["192.168.0.2"; "192.168.0.2"]).
Proof. vm_compute. reflexivity. Qed.
(** The same address written in another way is accepted. *)
Example same_address_accepted :
  VMPool_Validate (empty_pool [vm "a" "" "fe80::1" VM_FREE; vm "b" "" "fe80:0::1" VM_FREE]) = None.
Proof. vm_compute. reflexivity. Qed.
Example duplicate_names_accepted :
  VMPool_Validate (empty_pool [vm "a" "" "10.0.0.1" VM_FREE; vm "a" "" "10.0.0.2" VM_FREE]) = None.
Proof. vm_compute. reflexivity. Qed.
(** The state of a VM that is added to a pool that is not in use is not checked, and
    then the pool cannot be updated. *)
Example added_in_any_state :
  (s ← AddVMPoolMember ∅ (member (set_State VM_IN_USE vm4)) [] s0;
   UpdateVMPool ∅ (mkPool ["8"] key0 [] READY [] Placement.NO_OVERRIDE false) [] s)
  = Err "Invalid VM state, only VmForceFree state is allowed".
Proof. vm_compute. reflexivity. Qed.
(** The update of a pool that is being deleted can clear the mark. *)
Example prepare_cleared :
  (s ← delete_prepare_txn ctx0 key0 s0;
   s ← UpdateVMPool ∅ (mkPool ["8"] key0 [] READY [] Placement.NO_OVERRIDE false) [] s;
   Ok (po_DeletePrepare <$> s !! key0)) = Ok (Some false).
Proof. vm_compute. reflexivity. Qed.
(** Without a CRM on the edge the request stays, and every other is refused. *)
Example request_stays_off_edge :
  let c := mkVCloudlet "pool" false in
  let s := (updateVMPool_end ctx0 c key0 None None added1).1 in
  (updateVMPool_end ctx0 c key0 None None added1).2 = Some "vm pool not supported off edge-site" ∧
  RemoveVMPoolMember {[site := c]} (member vm1) [] s = Err "Action already in progress, please try again later".
Proof. vm_compute. done. Qed.
End VMPoolApiWitness.
