(* ===== verification/HAMgr.v ===== *)
(** * High availability of a cloudlet's manager (pkg/redundancy/ha_manager.go)

    The primary and the secondary CRM of a cloudlet share a lease in Redis: a
    key with the role of the active one, which expires.  A method is a program
    over the calls it makes ([prog]: the clock, Redis, the watcher's callbacks),
    as the other instance and the outages of Redis act between any two calls.
    [exec] runs a process one call at a time; [step] interleaves the processes,
    the clock, crashes and restarts.  Redis is a parameter, the class [Redis]
    with its documented behaviour [RedisLaws].  Times are nanoseconds. *)

From S2P Require Export Prelude.
#[local] Open Scope Z_scope.

(** ** Redis *)

(** GET, SET with an expiry, and SET NX at a given time. *)
Class Redis := {
  redis : Type;
  rempty : redis;
  rget : redis → Z → string → option string;
  rset : redis → Z → string → string → Z → redis;
  rsetnx : redis → Z → string → string → Z → bool * redis;
}.

(** A value lives until it expires; SET NX sets a key that has none. *)
Class RedisLaws (R : Redis) := {
  rget_empty t k : rget rempty t k = None;
  rget_rset r t t' k v d :
    0 < d → t ≤ t' → rget (rset r t k v d) t' k = if decide (t' < t + d) then Some v else None;
  rsetnx_held r t k v d v' : rget r t k = Some v' → rsetnx r t k v d = (false, r);
  rsetnx_free r t k v d : rget r t k = None → rsetnx r t k v d = (true, rset r t k v d);
}.

(** ** Programs *)

Record HighAvailabilityManager := mkMgr {
  HARole : string;
  nodeGroupKey : string;
  AddrSpecified : bool;
  HAEnabled : bool;
  activeDuration : Z;
  activePollInterval : Z;
  PlatformInstanceActive : bool;
  ActiveTransitionInProgress : bool;
  RedisConnectionFailed : bool;
}.
#[global] Instance HighAvailabilityManager_eq_dec : EqDecision HighAvailabilityManager.
Proof. solve_decision. Defined.

Definition HARolePrimary := "primary".
Definition HARoleSecondary := "secondary".
Definition MaxRedisUnreachableRetries := 3%nat.
Definition MaxRedisWait := 30000000000.

Inductive prog (A : Type) :=
| Ret (a : A)
| Fatal (msg : string)                               (* the process ends *)
| Now (k : Z → prog A)
| Sleep (d : Z) (k : prog A)
| Save (s : HighAvailabilityManager) (k : prog A)    (* the fields others read *)
| Ping (k : result string → prog A)
| Get (key : string) (k : result (option string) → prog A)
| SetNX (key val : string) (d : Z) (k : result bool → prog A)
| Set_ (key val : string) (d : Z) (k : result string → prog A)
| ActiveChangedPreSwitch (role : string) (k : option error → prog A)
| ActiveChangedPostSwitch (role : string) (k : option error → prog A)
| PlatformActiveOnStartup (k : prog A).
Arguments Ret {A}. Arguments Fatal {A}. Arguments Now {A}. Arguments Sleep {A}.
Arguments Save {A}. Arguments Ping {A}. Arguments Get {A}. Arguments SetNX {A}.
Arguments Set_ {A}. Arguments ActiveChangedPreSwitch {A}.
Arguments ActiveChangedPostSwitch {A}. Arguments PlatformActiveOnStartup {A}.

#[global] Instance prog_ret : MRet prog := λ A a, Ret a.
#[global] Instance prog_bind : MBind prog := λ A B f, fix bind p :=
  match p with
  | Ret a => f a
  | Fatal msg => Fatal msg
  | Now k => Now (λ t, bind (k t))
  | Sleep d k => Sleep d (bind k)
  | Save s k => Save s (bind k)
  | Ping k => Ping (λ r, bind (k r))
  | Get key k => Get key (λ r, bind (k r))
  | SetNX key val d k => SetNX key val d (λ r, bind (k r))
  | Set_ key val d k => Set_ key val d (λ r, bind (k r))
  | ActiveChangedPreSwitch role k => ActiveChangedPreSwitch role (λ e, bind (k e))
  | ActiveChangedPostSwitch role k => ActiveChangedPostSwitch role (λ e, bind (k e))
  | PlatformActiveOnStartup k => PlatformActiveOnStartup (bind k)
  end.

(** ** The manager *)

Definition set_active (b : bool) (s : HighAvailabilityManager) :=
  mkMgr (HARole s) (nodeGroupKey s) (AddrSpecified s) (HAEnabled s) (activeDuration s)
    (activePollInterval s) b (ActiveTransitionInProgress s) (RedisConnectionFailed s).
Definition set_transition (b : bool) (s : HighAvailabilityManager) :=
  mkMgr (HARole s) (nodeGroupKey s) (AddrSpecified s) (HAEnabled s) (activeDuration s)
    (activePollInterval s) (PlatformInstanceActive s) b (RedisConnectionFailed s).
Definition set_enabled (b : bool) (s : HighAvailabilityManager) :=
  mkMgr (HARole s) (nodeGroupKey s) (AddrSpecified s) b (activeDuration s)
    (activePollInterval s) (PlatformInstanceActive s) (ActiveTransitionInProgress s)
    (RedisConnectionFailed s).
Definition updateRedisFailed (newRedisFailed : bool) (s : HighAvailabilityManager) :=
  mkMgr (HARole s) (nodeGroupKey s) (AddrSpecified s) (HAEnabled s) (activeDuration s)
    (activePollInterval s) (PlatformInstanceActive s) (ActiveTransitionInProgress s)
    newRedisFailed.

(** Active as far as Redis is concerned. *)
Definition isActive (s : HighAvailabilityManager) : bool :=
  PlatformInstanceActive s || ActiveTransitionInProgress s.
Definition IsActive (s : HighAvailabilityManager) : bool := PlatformInstanceActive s.

Definition pingRedis : prog (result ()) :=
  Ping (λ r, Ret (match r with Ok _ => Ok () | Err e => Err ("Redis Ping Fail - " +:+ e) end)).

(** A ping each 200 ms until one is answered or the timeout is over.  Each
    round takes at least the pause, so 151 rounds last for 30 seconds. *)
Fixpoint IsServerReady_loop (fuel : nat) (start timeout : Z) : prog (result ()) :=
  match fuel with
  | O => Ret (Err "Failed to ping redis - timed out")
  | S fuel' =>
      Ping (λ r,
        match r with
        | Ok _ => Ret (Ok ())
        | Err _ =>
            Now (λ t,
              if decide (timeout ≤ t - start) then Ret (Err "Failed to ping redis - timed out")
              else Sleep 200000000 (IsServerReady_loop fuel' start timeout))
        end)
  end.
Definition IsServerReady (timeout : Z) : prog (result ()) :=
  Now (λ start, IsServerReady_loop 151 start timeout).
Definition connectRedis : prog (result ()) := IsServerReady MaxRedisWait.

Definition CheckActive (s : HighAvailabilityManager) : prog (result bool) :=
  Get (nodeGroupKey s) (λ r,
    match r with
    | Ok None => Ret (Ok false)
    | Err e => Ret (Err e)
    | Ok (Some v) => Ret (Ok (bool_decide (v = HARole s)))
    end).

Definition BumpActiveExpire (s : HighAvailabilityManager) : prog (result ()) :=
  Set_ (nodeGroupKey s) (HARole s) (activeDuration s) (λ r,
    match r with
    | Err e => Ret (Err e)
    | Ok v =>
        Ret (if decide (v = "OK") then Ok ()
             else Err ("BumpActiveExpire returned unexpected value - " +:+ v))
    end).

Definition tryActive (s : HighAvailabilityManager) : prog (result bool) :=
  let seize := SetNX (nodeGroupKey s) (HARole s) (activeDuration s) (λ r, Ret r) in
  if RedisConnectionFailed s then seize
  else if isActive s then Fatal "Platform already active"
  else
    r ← CheckActive s;
    match r with
    | Err e => Ret (Err e)
    | Ok true => _ ← BumpActiveExpire s; Ret (Ok true)
    | Ok false => seize
    end.

(** [GetValue] and [SetValue] are used by the CRM for other keys. *)
Definition SetValue (key value : string) (expiration : Z) : prog (option error) :=
  Set_ key value expiration (λ r, Ret (match r with Ok _ => None | Err e => Some e end)).
Definition GetValue (key : string) : prog (result string) :=
  Get key (λ r,
    Ret (match r with
         | Ok None => Ok ""
         | Err e => Err ("Error getting value from redis: " +:+ e)
         | Ok (Some v) => Ok v
         end)).

(** The result with the state: the deferred call is made at the end. *)
Definition Init (s : HighAvailabilityManager)
    : prog (HighAvailabilityManager * option error) :=
  let finish (s : HighAvailabilityManager) (err : option error) :=
    Save s (if PlatformInstanceActive s then PlatformActiveOnStartup (Ret (s, err))
            else Ret (s, err)) in
  if decide (HARole s ≠ HARolePrimary ∧ HARole s ≠ HARoleSecondary) then
    Ret (s, Some "invalid HA Role type")
  else if negb (AddrSpecified s) then
    finish (set_active true s)
      (Some "HighAvailabilityManagerDisabled Redis Addr for HA not specified")
  else if decide (nodeGroupKey s = "") then finish s (Some "group key node not specified")
  else
    let s := set_enabled true s in
    r ← connectRedis;
    match r with
    | Err e =>
        let s := updateRedisFailed true s in
        if decide (HARole s = HARolePrimary) then finish (set_active true s) None
        else finish s None
    | Ok _ =>
        r ← tryActive s;
        match r with
        | Ok active => finish (set_active active s) None
        | Err e => finish s (Some e)
        end
    end.

(** ** The loop *)

Record vars := mkVars { timeLastBumpActive : Z; timeLastCheckActive : Z }.

Fixpoint tryActive_retry (n : nat) (s : HighAvailabilityManager) (last : result bool)
    : prog (result bool) :=
  match n with
  | O => Ret last
  | S n' =>
      r ← tryActive s;
      match r with
      | Ok b => Ret (Ok b)
      | Err e => Sleep (activePollInterval s) (tryActive_retry n' s (Err e))
      end
  end.
Fixpoint bump_retry (n : nat) (s : HighAvailabilityManager) (v : vars) (last : option error)
    : prog (vars * option error) :=
  match n with
  | O => Ret (v, last)
  | S n' =>
      r ← BumpActiveExpire s;
      match r with
      | Ok _ => Now (λ t, Ret (mkVars t (timeLastCheckActive v), None))
      | Err e => bump_retry n' s v (Some e)
      end
  end.

Definition switchover (s : HighAvailabilityManager) : prog HighAvailabilityManager :=
  let s := set_transition true s in
  Save s (ActiveChangedPreSwitch (HARole s) (λ err,
    match err with
    | Some e => Fatal "ActiveChangedPreSwitch failed"
    | None =>
        let s := set_active true s in
        Save s (
          let s := set_transition false s in
          Save s (ActiveChangedPostSwitch (HARole s) (λ _, Ret s)))
    end)).

(** The pass of an instance that is not active. *)
Definition standby_pass (s : HighAvailabilityManager) (v : vars)
    : prog (HighAvailabilityManager * vars) :=
  if RedisConnectionFailed s && bool_decide (HARole s = HARoleSecondary) then
    r ← pingRedis;
    let s := match r with Ok _ => updateRedisFailed false s | Err _ => s end in
    Sleep (activePollInterval s * 2) (Ret (s, v))
  else
    r ← tryActive_retry MaxRedisUnreachableRetries s (Ok false);
    let s := updateRedisFailed (match r with Ok _ => false | Err _ => true end) s in
    let transitionToActive :=
      match r with Ok b => b | Err _ => bool_decide (HARole s = HARolePrimary) end in
    if transitionToActive then
      Now (λ t,
        s ← switchover s;
        Sleep (activePollInterval s) (Ret (s, mkVars t (timeLastCheckActive v))))
    else Sleep (activePollInterval s) (Ret (s, v)).

(** The lease is extended, after a check that it is still held when a poll was
    missed or none was made for long. *)
Definition keep_active (s : HighAvailabilityManager) (v : vars)
    (elapsedSinceBumpActive elapsedSinceCheckActive : Z)
    : prog (HighAvailabilityManager * vars) :=
  let bump (v : vars) :=
    '(v, err) ← bump_retry MaxRedisUnreachableRetries s v None;
    match err with
    | None => Sleep (activePollInterval s) (Ret (s, v))
    | Some e =>
        let s := updateRedisFailed true s in
        if decide (HARole s = HARolePrimary) then Sleep (activePollInterval s) (Ret (s, v))
        else Fatal "standby going down due to redis error"
    end in
  if decide (activePollInterval s * 2 ≤ elapsedSinceBumpActive
             ∨ activeDuration s < elapsedSinceCheckActive) then
    r ← CheckActive s;
    match r with
    | Ok true => Now (λ t, bump (mkVars (timeLastBumpActive v) t))
    | Ok false => Fatal "secondary unit lost activity due to redis error"
    | Err e =>
        let s := updateRedisFailed true s in
        if decide (HARole s = HARolePrimary) then Sleep (activePollInterval s) (Ret (s, v))
        else Fatal "secondary unit lost activity due to redis error"
    end
  else bump v.

(** The pass of an active instance. *)
Definition active_pass (s : HighAvailabilityManager) (v : vars)
    (elapsedSinceBumpActive elapsedSinceCheckActive : Z)
    : prog (HighAvailabilityManager * vars) :=
  if RedisConnectionFailed s then
    r ← tryActive s;
    match r with
    | Err _ => Sleep (activePollInterval s) (Ret (s, v))
    | Ok false => Fatal "activity lost when redis connection re-established"
    | Ok true =>
        let s := updateRedisFailed false s in
        Now (λ t, Now (λ t', keep_active s v (t' - t) elapsedSinceCheckActive))
    end
  else keep_active s v elapsedSinceBumpActive elapsedSinceCheckActive.

Definition CheckActiveLoop_pass (s : HighAvailabilityManager) (v : vars)
    : prog (HighAvailabilityManager * vars) :=
  Now (λ t, let elapsedSinceBumpActive := t - timeLastBumpActive v in
  Now (λ t, let elapsedSinceCheckActive := t - timeLastCheckActive v in
  if isActive s then active_pass s v elapsedSinceBumpActive elapsedSinceCheckActive
  else standby_pass s v)).

(** ** The CRM (pkg/crm/crm_ha.go, crm.go) *)

Inductive outcome :=
| InitDone (s : HighAvailabilityManager) (haEnabled : result bool)
| Again (s : HighAvailabilityManager) (v : vars).

(** Whether HA is enabled, or the error that ends the process. *)
Definition InitHAManager (s : HighAvailabilityManager) : prog outcome :=
  '(s, err) ← Init s;
  Ret (InitDone s
    (match err with
     | None => Ok true
     | Some e =>
         if decide (e = "HighAvailabilityManagerDisabled Redis Addr for HA not specified")
         then Ok false else Err e
     end)).
Definition next_pass (s : HighAvailabilityManager) (v : vars) : prog outcome :=
  '(s, v) ← CheckActiveLoop_pass s v; Ret (Again s v).
Definition CheckActiveLoop (s : HighAvailabilityManager) : prog outcome :=
  Now (λ _, Now (λ bump, Now (λ check, next_pass s (mkVars bump check)))).

(** ** Processes *)

(** A process: the fields others read, what it still has to do ([None] when it
    is down, or runs without the loop), the time it sleeps until, and whether it
    acquired the lease since it was started. *)
Record node := mkNode {
  pub : HighAvailabilityManager;
  code : option (prog outcome);
  wake : Z;
  held : bool;
}.

(** How a call ends: done and answered, not done, or done without an answer. *)
Inductive answer := Reached | Failed (e : error) | Lost (e : error).

Section System.
Context {R : Redis}.

Definition down (n : node) : node :=
  mkNode (set_transition false (set_active false (pub n))) None 0 false.
Definition goes (n : node) (p : prog outcome) : node := mkNode (pub n) (Some p) (wake n) (held n).

(** The next call of a process; [None]: it sleeps or has none.  The last part
    is the lease it wrote. *)
Definition exec (ans : answer) (now : Z) (r : redis) (n : node)
    : option (node * redis * option Z) :=
  p ← code n;
  if decide (now < wake n) then None else
  match p with
  | Ret (InitDone s (Ok true)) => Some (goes n (CheckActiveLoop s), r, None)
  | Ret (InitDone s (Ok false)) => Some (mkNode (pub n) None (wake n) (held n), r, None)
  | Ret (InitDone s (Err _)) => Some (down n, r, None)
  | Ret (Again s v) => Some (goes n (next_pass s v), r, None)
  | Fatal _ => Some (down n, r, None)
  | Now k => Some (goes n (k now), r, None)
  | Sleep d k => Some (mkNode (pub n) (Some k) (now + d) (held n), r, None)
  | Save s k => Some (mkNode s (Some k) (wake n) (held n), r, None)
  | Ping k =>
      match ans with
      | Reached => Some (goes n (k (Ok "PONG")), r, None)
      | Failed e | Lost e => Some (goes n (k (Err e)), r, None)
      end
  | Get key k =>
      match ans with
      | Reached => Some (goes n (k (Ok (rget r now key))), r, None)
      | Failed e | Lost e => Some (goes n (k (Err e)), r, None)
      end
  | SetNX key val d k =>
      let '(b, r') := rsetnx r now key val d in
      let own := held n || b in
      let lease := if b then Some (now + d) else None in
      match ans with
      | Reached => Some (mkNode (pub n) (Some (k (Ok b))) (wake n) own, r', lease)
      | Failed e => Some (goes n (k (Err e)), r, None)
      | Lost e => Some (mkNode (pub n) (Some (k (Err e))) (wake n) own, r', lease)
      end
  | Set_ key val d k =>
      let r' := rset r now key val d in
      match ans with
      | Reached => Some (mkNode (pub n) (Some (k (Ok "OK"))) (wake n) true, r', Some (now + d))
      | Failed e => Some (goes n (k (Err e)), r, None)
      | Lost e => Some (mkNode (pub n) (Some (k (Err e))) (wake n) true, r', Some (now + d))
      end
  | ActiveChangedPreSwitch _ k | ActiveChangedPostSwitch _ k =>
      match ans with
      | Reached => Some (goes n (k None), r, None)
      | Failed e | Lost e => Some (goes n (k (Some e)), r, None)
      end
  | PlatformActiveOnStartup k => Some (goes n k, r, None)
  end.

(** The processes of the cloudlet by role, and until when the last lease that
    each wrote lasts. *)
Record sys := mkSys { now : Z; rds : redis; nodes : gmap string node; lease : gmap string Z }.

Definition run_node (ans : answer) (role : string) (σ : sys) : option sys :=
  n ← nodes σ !! role;
  '(n', r', l) ← exec ans (now σ) (rds σ) n;
  Some (mkSys (now σ) r' (<[role := n']> (nodes σ))
          (match l with Some e => <[role := e]> (lease σ) | None => lease σ end)).
Definition tick (d : Z) (σ : sys) : sys := mkSys (now σ + d) (rds σ) (nodes σ) (lease σ).
Definition crash (role : string) (σ : sys) : sys :=
  mkSys (now σ) (rds σ) (alter down role (nodes σ)) (lease σ).
Definition started (cfg : string → HighAvailabilityManager) (role : string) (σ : sys) : node :=
  mkNode (cfg role) (Some (InitHAManager (cfg role))) (now σ) false.
Definition start (cfg : string → HighAvailabilityManager) (role : string) (σ : sys) : sys :=
  mkSys (now σ) (rds σ) (<[role := started cfg role σ]> (nodes σ)) (lease σ).

(** The configurations of the roles. *)
Context (cfg : string → HighAvailabilityManager).

Definition init : sys := mkSys 0 rempty ∅ ∅.
(** Any call of a process, with any of the answers in [ok]. *)
Inductive step (ok : answer → Prop) (σ : sys) : sys → Prop :=
| step_run ans role σ' : ok ans → run_node ans role σ = Some σ' → step ok σ σ'
| step_tick d : 0 ≤ d → step ok σ (tick d σ)
| step_crash role : step ok σ (crash role σ)
| step_start role :
    nodes σ !! role = None ∨ (∃ n, nodes σ !! role = Some n ∧ code n = None ∧ pub n = pub (down n)) →
    step ok σ (start cfg role σ).

(** ** Specification *)

Definition active_at (σ : sys) (role : string) : Prop :=
  ∃ n, nodes σ !! role = Some n ∧ isActive (pub n) = true.
Definition about_to_bump (n : node) : bool :=
  match code n with Some (Set_ _ _ _ _) => true | _ => false end.

(** The processes are fast enough: an active one that holds the lease extends
    it before it runs out, and no extension is sent too late. *)
Definition timely (σ : sys) : Prop :=
  ∀ role n, nodes σ !! role = Some n →
    (isActive (pub n) = true ∧ held n = true) ∨ about_to_bump n = true →
    match lease σ !! role with Some e => now σ < e | None => False end.

(** Redis answers every call, and the processes are fast enough. *)
Definition reliable (σ σ' : sys) : Prop := step (λ ans, ans = Reached) σ σ' ∧ timely σ'.

(** The configuration of an instance of an HA cloudlet. *)
Record ha_config (key : string) (dur : Z) : Prop := {
  hc_key : key ≠ "";
  hc_dur : 0 < dur;
  hc_role role : HARole (cfg role) = role;
  hc_node role : nodeGroupKey (cfg role) = key;
  hc_dur_eq role : activeDuration (cfg role) = dur;
  hc_addr role : AddrSpecified (cfg role) = true;
  hc_off role : isActive (cfg role) = false;
  hc_ok role : RedisConnectionFailed (cfg role) = false;
}.

(** What a process may still do in a reliable run. *)
Section Good.
Context (key : string) (dur : Z) (role : string).

Record same_config (s : HighAvailabilityManager) : Prop := {
  sc_role : HARole s = role;
  sc_key : nodeGroupKey s = key;
  sc_dur : activeDuration s = dur;
  sc_addr : AddrSpecified s = true;
  sc_ok : RedisConnectionFailed s = false;
}.
Definition good_state (own : bool) (s : HighAvailabilityManager) : Prop :=
  same_config s ∧ (isActive s = true → own = true).

Fixpoint good {A} (Q : bool → A → Prop) (own : bool) (p : prog A) : Prop :=
  match p with
  | Ret a => Q own a
  | Fatal _ => True
  | Now k => ∀ t, good Q own (k t)
  | Sleep _ k => good Q own k
  | Save s k => good_state own s ∧ good Q own k
  | Ping k => good Q own (k (Ok "PONG"))
  | Get _ k => ∀ o, good Q own (k (Ok o))
  | SetNX key' val d k =>
      (key' = key ∧ val = role ∧ d = dur) ∧ good Q true (k (Ok true)) ∧ good Q own (k (Ok false))
  | Set_ key' val d k => (key' = key ∧ val = role ∧ d = dur) ∧ good Q true (k (Ok "OK"))
  | ActiveChangedPreSwitch _ k | ActiveChangedPostSwitch _ k => good Q own (k None)
  | PlatformActiveOnStartup k => good Q own k
  end.

Definition good_outcome (own : bool) (o : outcome) : Prop :=
  match o with InitDone s _ => good_state own s | Again s _ => good_state own s end.
End Good.
End System.

(** ** Exclusion *)

Section Exclusion.
Context {R : Redis} {RL : RedisLaws R} (cfg : string → HighAvailabilityManager).
Context (key : string) (dur : Z) (Hcfg : ha_config cfg key dur).

Lemma good_bind {A B} role (Q : bool → B → Prop) (f : A → prog B) own p :
  good key dur role (λ own a, good key dur role Q own (f a)) own p →
  good key dur role Q own (p ≫= f).
Proof.
  revert own. induction p; cbn; intros own Hp; try done; destruct_and?; split_and?; eauto.
Qed.
Lemma good_mono {A} role (Q Q' : bool → A → Prop) own p :
  (∀ own a, Q own a → Q' own a) → good key dur role Q own p → good key dur role Q' own p.
Proof. intros HQ. revert own. induction p; cbn; intros own Hp; try done; destruct_and?; split_and?; eauto. Qed.

Lemma good_same role own s :
  same_config key dur role s → isActive s = false → good_state key dur role own s.
Proof. intros Hs Ha. split; [done|congruence]. Qed.
Lemma good_own role own s :
  same_config key dur role s → own = true → good_state key dur role own s.
Proof. intros Hs Ho. done. Qed.

(** The state without the activity flags. *)
Lemma same_active role b s : same_config key dur role s → same_config key dur role (set_active b s).
Proof. by intros []. Qed.
Lemma same_transition role b s :
  same_config key dur role s → same_config key dur role (set_transition b s).
Proof. by intros []. Qed.
Lemma same_enabled role b s :
  same_config key dur role s → same_config key dur role (set_enabled b s).
Proof. by intros []. Qed.
Lemma same_online role s :
  same_config key dur role s → same_config key dur role (updateRedisFailed false s).
Proof. by intros []. Qed.

(** What a call returns when it owns the lease. *)
Definition owned_if (own : bool) (r : result bool) : Prop :=
  match r with Ok true => own = true | Ok false => True | Err _ => False end.

Lemma good_tryActive role own s :
  same_config key dur role s → good key dur role owned_if own (tryActive s).
Proof.
  intros Hs. unfold tryActive. rewrite (sc_ok _ _ _ s Hs).
  destruct (isActive s); [done|]. cbn. intros [v|]; cbn; [case_bool_decide; cbn|]; destruct Hs; done.
Qed.

Lemma good_retry role n own s last :
  same_config key dur role s → owned_if own last →
  good key dur role owned_if own (tryActive_retry n s last).
Proof.
  intros Hs Hl. destruct n as [|n]; cbn; [done|].
  apply good_bind. eapply good_mono, good_tryActive; [|done].
  intros own' [[]|] Ho; done.
Qed.

Lemma good_switchover role s :
  same_config key dur role s →
  good key dur role (good_state key dur role) true (switchover s).
Proof. intros Hs. destruct Hs. cbn. repeat split; done. Qed.

(** The state at the end of a pass. *)
Definition pass_ok role (own : bool) (sv : HighAvailabilityManager * vars) : Prop :=
  good_state key dur role own sv.1.

Lemma good_standby role own s v :
  same_config key dur role s → isActive s = false →
  good key dur role (pass_ok role) own (standby_pass s v).
Proof.
  intros Hs Ha. unfold standby_pass. rewrite (sc_ok _ _ _ s Hs). simpl andb. cbv iota.
  apply good_bind. eapply good_mono, good_retry; [|done..].
  intros own' [[]|] Ho; simpl in Ho; [|by apply good_same, Ha; apply same_online|done].
  intros t. apply good_bind. subst own'. eapply good_mono, good_switchover; [|by apply same_online].
  intros own' s' Hs'. exact Hs'.
Qed.

Lemma good_keep role own s v a b :
  good_state key dur role own s → isActive s = true →
  good key dur role (pass_ok role) own (keep_active s v a b).
Proof.
  intros Hs Ha. pose proof (proj2 Hs Ha) as ->.
  assert (∀ v, good key dur role (pass_ok role) true
    ('(v, err) ← bump_retry MaxRedisUnreachableRetries s v None;
     match err with
     | None => Sleep (activePollInterval s) (Ret (s, v))
     | Some e =>
         let s := updateRedisFailed true s in
         if decide (HARole s = HARolePrimary) then Sleep (activePollInterval s) (Ret (s, v))
         else Fatal "standby going down due to redis error"
     end)) as Hbump.
  { intros w. cbn. destruct Hs as [[] ?]. by repeat split. }
  unfold keep_active. case_decide; [|apply Hbump].
  apply good_bind. cbn [CheckActive good]. intros [u|]; [|done]. cbn [good].
  case_bool_decide; [|done]. intros t. apply Hbump.
Qed.

Lemma good_pass role own s v :
  good_state key dur role own s → good key dur role (pass_ok role) own (CheckActiveLoop_pass s v).
Proof.
  intros Hs t t'. destruct (isActive s) eqn:Ha.
  - unfold active_pass. rewrite (sc_ok _ _ _ s (proj1 Hs)). by apply good_keep.
  - apply good_standby; [apply Hs|done].
Qed.
Lemma good_next_pass role own s v :
  good_state key dur role own s →
  good key dur role (good_outcome key dur role) own (next_pass s v).
Proof.
  intros Hs. apply good_bind. eapply good_mono, good_pass; [|done]. by intros own' [s' v'].
Qed.

Lemma good_Init role :
  good key dur role (good_outcome key dur role) false (InitHAManager (cfg role)).
Proof.
  assert (same_config key dur role (cfg role)) as Hs by (destruct Hcfg; split; auto).
  apply good_bind. unfold Init. case_decide; [by apply good_same, (hc_off _ _ _ Hcfg)|].
  rewrite (hc_addr _ _ _ Hcfg). cbn [negb].
  rewrite decide_False by (rewrite (hc_node _ _ _ Hcfg); apply (hc_key _ _ _ Hcfg)).
  apply good_bind. intros t. cbn [good IsServerReady_loop]. apply good_bind.
  eapply good_mono, good_tryActive; [|by apply same_enabled].
  assert (∀ own b, (b = true → own = true) →
    good_state key dur role own (set_active b (set_enabled true (cfg role)))) as Hfin.
  { intros own b Hb. split; [by apply same_active, same_enabled|].
    pose proof (hc_off _ _ _ Hcfg role) as Hoff. apply orb_false_iff in Hoff as [_ Hoff].
    unfold isActive. simpl. rewrite Hoff, orb_false_r. done. }
  intros own [b|] Ho; [|done]. cbn [good]. split.
  - apply Hfin. by intros ->.
  - destruct b; apply Hfin; done.
Qed.

(** A process in a reliable run. *)
Definition node_ok (role : string) (n : node) : Prop :=
  match code n with
  | Some p => good key dur role (good_outcome key dur role) (held n) p
  | None => True
  end ∧ (isActive (pub n) = true → held n = true).

Lemma exec_ok role now r n n' r' l :
  node_ok role n → exec Reached now r n = Some (n', r', l) →
  node_ok role n' ∧
  (r' = r ∧ l = None ∨
   (about_to_bump n = true ∨ rget r now key = None) ∧
   r' = rset r now key role dur ∧ l = Some (now + dur)).
Proof.
  intros [Hp Hact] Hexec. unfold exec in Hexec. apply bind_Some in Hexec as (p & Hcode & Hexec).
  rewrite Hcode in Hp. case_decide; [done|].
  destruct p as [[s [[]|e]|s v]|m|k|d k|s k|k|k' k|k' val d k|k' val d k|? k|? k|k]; cbn in Hp;
    try (injection Hexec as <- <- <-; split; [|by left]).
  - split; [|done]. intros t1 t2 t3. by apply good_next_pass.
  - by split.
  - by split.
  - split; [|done]. by apply good_next_pass.
  - by split.
  - split; [apply Hp|done].
  - by split.
  - destruct Hp as [Hs Hp]. split; [done|]. apply Hs.
  - by split.
  - split; [apply Hp|done].
  - destruct Hp as ((-> & -> & ->) & Ht & Hf). destruct (rget r now key) as [u|] eqn:Hg.
    + rewrite (rsetnx_held _ _ _ _ _ u) in Hexec by done. injection Hexec as <- <- <-.
      rewrite orb_false_r. split; [by split|by left].
    + rewrite rsetnx_free in Hexec by done. injection Hexec as <- <- <-.
      rewrite orb_true_r. split; [by split|]. right. auto.
  - destruct Hp as ((-> & -> & ->) & Hp). injection Hexec as <- <- <-. split; [by split|].
    right. unfold about_to_bump. rewrite Hcode. auto.
  - by split.
  - by split.
  - by split.
Qed.

(** The last lease of each role is what Redis has until it runs out. *)
Definition lease_ok (σ : sys) : Prop :=
  ∀ role e t, lease σ !! role = Some e → now σ ≤ t < e → rget (rds σ) t key = Some role.
Record excl_inv (σ : sys) : Prop := {
  ei_nodes : ∀ role n, nodes σ !! role = Some n → node_ok role n;
  ei_lease : lease_ok σ;
  ei_timely : timely σ;
}.

Lemma lease_written σ role ns :
  lease_ok σ →
  (rget (rds σ) (now σ) key = None ∨ ∃ e, lease σ !! role = Some e ∧ now σ < e) →
  lease_ok (mkSys (now σ) (rset (rds σ) (now σ) key role dur) ns
              (<[role := now σ + dur]> (lease σ))).
Proof.
  intros HJ Hfree role' e t He Ht. cbn [now rds lease] in *.
  apply lookup_insert_Some in He as [[<- <-]|[Hne He]].
  - rewrite (rget_rset (R := R)); [by rewrite decide_True by lia|apply (hc_dur _ _ _ Hcfg)|lia].
  - exfalso. assert (rget (rds σ) (now σ) key = Some role') as Hr' by (apply (HJ _ e); [done|lia]).
    destruct Hfree as [Hn|(e' & He' & Hlt)]; [congruence|].
    rewrite (HJ role e') in Hr' by (done || lia). congruence.
Qed.

Lemma excl_step σ σ' : excl_inv σ → reliable cfg σ σ' → excl_inv σ'.
Proof.
  intros [Hn HJ Ht] [Hstep Ht']. split; [| |done]; clear Ht'.
  - destruct Hstep as [ans role σ' -> Hrun|d Hd|role|role Hdown]; [|done| |].
    + unfold run_node in Hrun. apply bind_Some in Hrun as (n & Hrole & Hrun).
      apply bind_Some in Hrun as ([[n' r'] l] & Hexec & Hrun). injection Hrun as <-.
      apply (exec_ok role) in Hexec as [Hn' _]; [|by apply Hn].
      cbn [nodes]. intros role' m [[<- <-]|[_ Hm]]%lookup_insert_Some; [done|by apply Hn].
    + cbn [nodes crash]. intros role' m Hm. apply lookup_alter_Some in Hm as [(-> & n & _ & ->)|[_ Hm]]; [|by apply Hn].
      by split.
    + cbn [nodes start]. intros role' m [[<- <-]|[_ Hm]]%lookup_insert_Some; [|by apply Hn].
      split; [apply good_Init|]. unfold started. cbn. by rewrite (hc_off _ _ _ Hcfg).
  - destruct Hstep as [ans role σ' -> Hrun|d Hd|role|role Hdown]; [| |done|done].
    + unfold run_node in Hrun. apply bind_Some in Hrun as (n & Hrole & Hrun).
      apply bind_Some in Hrun as ([[n' r'] l] & Hexec & Hrun). injection Hrun as <-.
      apply (exec_ok role) in Hexec as [_ [[-> ->]|(Hfree & -> & ->)]]; [done| |by apply Hn].
      apply lease_written; [done|]. destruct Hfree as [Hb|Hg]; [right|by left].
      specialize (Ht role n Hrole (or_intror Hb)). case_match; [eauto|done].
    + intros role e t He Hte. cbn [now rds lease tick] in *. apply (HJ role e); [done|lia].
Qed.

(** C25: when Redis answers and the processes extend their lease in time, at
    most one instance of the cloudlet is active, through every interleaving of
    the instances, crashes and restarts. *)
Theorem at_most_one_active σ role role' :
  rtc (reliable cfg) init σ → active_at σ role → active_at σ role' → role = role'.
Proof.
  intros Hrun. assert (excl_inv σ) as [Hn HJ Ht].
  { assert (excl_inv init) as H0.
    { by split; [intros r n Hr|intros r e t He|intros r n Hr]. }
    revert H0. induction Hrun as [|x y z Hxy _ IH]; [done|]. intros Hx.
    by apply IH, (excl_step x). }
  assert (∀ r, active_at σ r → rget (rds σ) (now σ) key = Some r) as Hval.
  { intros r (n & Hr & Ha). pose proof (proj2 (Hn r n Hr) Ha) as Hh.
    specialize (Ht r n Hr (or_introl (conj Ha Hh))). case_match eqn:He; [|done].
    apply (HJ r _ (now σ) He). lia. }
  intros H1%Hval H2%Hval. congruence.
Qed.
End Exclusion.

(** ** Outages and takeover *)

(** What a program may return, whatever the clock and the answers. *)
Inductive returns {A} : prog A → A → Prop :=
| returns_ret a : returns (Ret a) a
| returns_now k t a : returns (k t) a → returns (Now k) a
| returns_sleep d k a : returns k a → returns (Sleep d k) a
| returns_save s k a : returns k a → returns (Save s k) a
| returns_ping k r a : returns (k r) a → returns (Ping k) a
| returns_get key k r a : returns (k r) a → returns (Get key k) a
| returns_setnx key val d k r a : returns (k r) a → returns (SetNX key val d k) a
| returns_set key val d k r a : returns (k r) a → returns (Set_ key val d k) a
| returns_pre role k e a : returns (k e) a → returns (ActiveChangedPreSwitch role k) a
| returns_post role k e a : returns (k e) a → returns (ActiveChangedPostSwitch role k) a
| returns_startup k a : returns k a → returns (PlatformActiveOnStartup k) a.

(** The manager between two passes. *)
Inductive loop_state : HighAvailabilityManager → Prop :=
| loop_init s0 s :
    isActive s0 = false → RedisConnectionFailed s0 = false →
    returns (Init s0) (s, None) → loop_state s
| loop_pass s v s' v' :
    loop_state s → returns (CheckActiveLoop_pass s v) (s', v') → loop_state s'.

(** Redis is out of reach from the time [t] on: every call of it fails, in no
    time. *)
Fixpoint outage_run {A} (e : error) (t : Z) (p : prog A) : result (A * Z) :=
  match p with
  | Ret a => Ok (a, t)
  | Fatal msg => Err msg
  | Now k => outage_run e t (k t)
  | Sleep d k => outage_run e (t + d) k
  | Save _ k | PlatformActiveOnStartup k => outage_run e t k
  | Ping k => outage_run e t (k (Err e))
  | Get _ k => outage_run e t (k (Err e))
  | SetNX _ _ _ k => outage_run e t (k (Err e))
  | Set_ _ _ _ k => outage_run e t (k (Err e))
  | ActiveChangedPreSwitch _ k | ActiveChangedPostSwitch _ k => outage_run e t (k None)
  end.

(** Redis answers every call, in no time. *)
Fixpoint up_run {A} `{R : Redis} (r : redis) (t : Z) (p : prog A) : result (A * redis * Z) :=
  match p with
  | Ret a => Ok (a, r, t)
  | Fatal msg => Err msg
  | Now k => up_run r t (k t)
  | Sleep d k => up_run r (t + d) k
  | Save _ k | PlatformActiveOnStartup k => up_run r t k
  | Ping k => up_run r t (k (Ok "PONG"))
  | Get key k => up_run r t (k (Ok (rget r t key)))
  | SetNX key val d k => let '(b, r') := rsetnx r t key val d in up_run r' t (k (Ok b))
  | Set_ key val d k => up_run (rset r t key val d) t (k (Ok "OK"))
  | ActiveChangedPreSwitch _ k | ActiveChangedPostSwitch _ k => up_run r t (k None)
  end.
Fixpoint up_passes `{R : Redis} (n : nat) (r : redis) (t : Z) (s : HighAvailabilityManager) (v : vars)
    : result (HighAvailabilityManager * vars * redis * Z) :=
  match n with
  | O => Ok (s, v, r, t)
  | S n' =>
      match up_run r t (CheckActiveLoop_pass s v) with
      | Ok ((s', v'), r', t') => up_passes n' r' t' s' v'
      | Err msg => Err msg
      end
  end.

(** A program all of whose results satisfy [Q]. *)
Fixpoint always {A} (Q : A → Prop) (p : prog A) : Prop :=
  match p with
  | Ret a => Q a
  | Fatal _ => True
  | Now k => ∀ t, always Q (k t)
  | Sleep _ k | Save _ k | PlatformActiveOnStartup k => always Q k
  | Ping k => ∀ r, always Q (k r)
  | Get _ k => ∀ r, always Q (k r)
  | SetNX _ _ _ k => ∀ r, always Q (k r)
  | Set_ _ _ _ k => ∀ r, always Q (k r)
  | ActiveChangedPreSwitch _ k | ActiveChangedPostSwitch _ k => ∀ e, always Q (k e)
  end.
Lemma always_returns {A} (Q : A → Prop) p a : always Q p → returns p a → Q a.
Proof. intros Hp Hr. induction Hr; simpl in Hp; auto. Qed.
Lemma always_bind {A B} (Q : B → Prop) (f : A → prog B) p :
  always (λ a, always Q (f a)) p → always Q (p ≫= f).
Proof. induction p; cbn; auto. Qed.
Lemma always_mono {A} (Q Q' : A → Prop) p : (∀ a, Q a → Q' a) → always Q p → always Q' p.
Proof. intros HQ. induction p; cbn; auto. Qed.
Lemma always_True {A} (Q : A → Prop) p : (∀ a, Q a) → always Q p.
Proof. intros HQ. induction p; cbn; auto. Qed.

(** No switch is under way between two passes, and a secondary that cannot
    reach Redis is not active. *)
Record settled (s0 s : HighAvailabilityManager) : Prop := {
  se_role : HARole s = HARole s0;
  se_poll : activePollInterval s = activePollInterval s0;
  se_valid : HARole s = HARolePrimary ∨ HARole s = HARoleSecondary;
  se_quiet : ActiveTransitionInProgress s = false;
  se_fenced : HARole s = HARoleSecondary → RedisConnectionFailed s = true →
    PlatformInstanceActive s = false;
}.

Lemma settled_standby s0 s v :
  settled s0 s → PlatformInstanceActive s = false →
  always (λ sv, settled s0 sv.1) (standby_pass s v).
Proof.
  intros [Hr Hp Hv Hq Hf] Ha. unfold standby_pass.
  destruct (RedisConnectionFailed s && bool_decide (HARole s = HARoleSecondary)) eqn:Hcase.
  { cbn. intros [?|?]; by split. }
  apply always_bind, always_True. intros [b|e].
  - destruct b; [|by split]. intros t. cbn. intros [?|]; [done|]. by split.
  - cbn. destruct (decide (HARole s = HARolePrimary)) as [Hprim|Hprim];
      [rewrite bool_decide_true by done|by rewrite bool_decide_false by done; split].
    + intros t. cbn. intros [?|]; [done|]. split; try done. simpl. rewrite Hprim. by intros.
Qed.

Lemma settled_keep s0 s v a b :
  settled s0 s → RedisConnectionFailed s = false →
  always (λ sv, settled s0 sv.1) (keep_active s v a b).
Proof.
  intros Hs Hok. pose proof Hs as [Hr Hp Hv Hq Hf].
  assert (HARole s = HARolePrimary → settled s0 (updateRedisFailed true s)) as Hprim.
  { intros Hpr. split; try done. simpl. rewrite Hpr. by intros. }
  assert (∀ v, always (λ sv : HighAvailabilityManager * vars, settled s0 sv.1)
    ('(v, err) ← bump_retry MaxRedisUnreachableRetries s v None;
     match err with
     | None => Sleep (activePollInterval s) (Ret (s, v))
     | Some e =>
         let s := updateRedisFailed true s in
         if decide (HARole s = HARolePrimary) then Sleep (activePollInterval s) (Ret (s, v))
         else Fatal "standby going down due to redis error"
     end)) as Hbump.
  { intros w. apply always_bind, always_True. intros [w' [e|]]; [|done].
    cbv zeta. case_decide; [by apply Hprim|done]. }
  unfold keep_active. case_decide; [|apply Hbump]. apply always_bind, always_True.
  intros [[]|e]; [intros t; apply Hbump|done|]. cbv zeta. case_decide; [by apply Hprim|done].
Qed.

Lemma settled_pass s0 s v :
  settled s0 s → always (λ sv, settled s0 sv.1) (CheckActiveLoop_pass s v).
Proof.
  intros Hs t t'. pose proof Hs as [Hr Hp Hv Hq Hf]. unfold isActive. rewrite Hq, orb_false_r.
  destruct (PlatformInstanceActive s) eqn:Ha; [|by apply settled_standby].
  unfold active_pass. destruct (RedisConnectionFailed s) eqn:Hfail; [|by apply settled_keep].
  apply always_bind, always_True. intros [[]|e]; [|done|done]. intros u u'.
  apply settled_keep; [|done]. by split.
Qed.

Lemma settled_Init s :
  isActive s = false → RedisConnectionFailed s = false →
  always (λ se, se.2 = None → settled s se.1) (Init s).
Proof.
  intros [Ha Ht]%orb_false_iff Hok. unfold Init. case_decide as Hrole; [done|].
  assert (HARole s = HARolePrimary ∨ HARole s = HARoleSecondary) as Hv.
  { destruct (decide (HARole s = HARolePrimary)); [by left|]. right.
    apply dec_stable. intros Hn. by apply Hrole. }
  clear Hrole. destruct (AddrSpecified s); [|done]. simpl negb. cbv iota.
  assert (∀ s' e, settled s s' →
    always (λ se : HighAvailabilityManager * option error, se.2 = None → settled s se.1)
      (Save s' (if PlatformInstanceActive s' then PlatformActiveOnStartup (Ret (s', e))
                else Ret (s', e)))) as Hfin.
  { intros s' e Hs'. destruct (PlatformInstanceActive s'); simpl; by intros. }
  cbv zeta. case_decide; [apply Hfin; split; done || congruence|].
  apply always_bind, always_True. intros [[]|e].
  - apply always_bind, always_True. intros [b|e].
    + apply Hfin. split; done || (simpl; congruence).
    + apply Hfin. split; done || (simpl; congruence).
  - case_decide as Hprim; apply Hfin; split; try done. simpl in *. rewrite Hprim. by intros.
Qed.

Lemma loop_settled s : loop_state s → ∃ s0, settled s0 s.
Proof.
  intros Hs. induction Hs as [s0 s Ha Hf Hr|s v s' v' _ [s0 IH] Hr].
  - exists s0. by apply (always_returns _ _ _ (settled_Init s0 Ha Hf) Hr).
  - exists s0. by apply (always_returns _ _ _ (settled_pass s0 s v IH) Hr).
Qed.

Lemma outage_bind {A B} e t (p : prog A) (f : A → prog B) :
  outage_run e t (p ≫= f) =
  match outage_run e t p with Ok (a, t') => outage_run e t' (f a) | Err m => Err m end.
Proof. revert t. induction p; cbn; auto. Qed.
Lemma outage_bump e t n s v last :
  outage_run e t (bump_retry n s v last) =
  Ok (v, match n with O => last | S _ => Some e end, t).
Proof. revert last. induction n as [|n IH]; intros last; cbn; [done|]. rewrite IH. by destruct n. Qed.
Lemma outage_try e t s :
  isActive s = false ∨ RedisConnectionFailed s = true →
  outage_run e t (tryActive s) = Ok (Err e, t).
Proof. unfold tryActive. intros [-> | ->]; [by destruct (RedisConnectionFailed s)|done]. Qed.
Lemma outage_retry e t n s last :
  isActive s = false →
  outage_run e t (tryActive_retry n s last) =
  Ok (match n with O => last | S _ => Err e end, t + Z.of_nat n * activePollInterval s).
Proof.
  intros Ha. revert t last. induction n as [|n IH]; intros t last; [cbn; f_equal; f_equal; lia|].
  cbn [tryActive_retry]. rewrite outage_bind, outage_try by auto. cbn [outage_run]. rewrite IH. f_equal. f_equal; [by destruct n|lia].
Qed.

(** When Redis is out of reach, one pass later the primary is active,
    whether or not it was, a secondary that was active has ended its process
    and one that was not stays inactive; a primary needs four poll intervals
    at most. *)
Theorem outage_leaves_primary s v e t :
  loop_state s → 0 ≤ activePollInterval s →
  (HARole s = HARolePrimary →
   ∃ s' v' t', outage_run e t (CheckActiveLoop_pass s v) = Ok ((s', v'), t') ∧
     IsActive s' = true ∧ RedisConnectionFailed s' = true ∧
     t' ≤ t + 4 * activePollInterval s) ∧
  (HARole s = HARoleSecondary → IsActive s = true →
   ∃ msg, outage_run e t (CheckActiveLoop_pass s v) = Err msg) ∧
  (HARole s = HARoleSecondary → IsActive s = false →
   ∃ s' v' t', outage_run e t (CheckActiveLoop_pass s v) = Ok ((s', v'), t') ∧
     isActive s' = false ∧ RedisConnectionFailed s' = true).
Proof.
  intros [s0 [_ _ _ Hq Hf]]%loop_settled Hpoll. unfold IsActive.
  cbn [CheckActiveLoop_pass outage_run]. unfold isActive. rewrite Hq, orb_false_r.
  split_and!; intros Hrole.
  - destruct (PlatformInstanceActive s) eqn:Ha.
    + unfold active_pass. destruct (RedisConnectionFailed s) eqn:Hfail.
      { rewrite outage_bind, outage_try by auto. cbn. eexists s, v, _. split; [done|]. split_and!; [done..|lia]. }
      unfold keep_active. case_decide.
      { cbn. rewrite Hrole. cbn. eexists _, _, _. split; [done|]. split_and!; [done..|lia]. }
      rewrite outage_bind, outage_bump. cbn. rewrite Hrole. cbn.
      eexists _, _, _. split; [done|]. split_and!; [done..|lia].
    + unfold standby_pass. rewrite Hrole, andb_false_r.
      rewrite outage_bind, outage_retry by (unfold isActive; by rewrite Ha, Hq).
      cbn -[Z.add Z.mul]. rewrite Hrole. cbn -[Z.add Z.mul]. eexists _, _, _. split; [done|].
      split_and!; [done..|]. cbn -[Z.add Z.mul]. unfold MaxRedisUnreachableRetries. lia.
  - intros Ha. rewrite Ha. unfold active_pass.
    destruct (RedisConnectionFailed s) eqn:Hfail; [rewrite Hf in Ha; done|].
    unfold keep_active. case_decide.
    { cbn. rewrite Hrole. cbn. by eexists. }
    rewrite outage_bind, outage_bump. cbn. rewrite Hrole. cbn. by eexists.
  - intros Ha. rewrite Ha. unfold standby_pass.
    destruct (RedisConnectionFailed s) eqn:Hfail.
    { rewrite Hrole. cbn. eexists s, v, _. split; [done|]. unfold isActive. by rewrite Ha, Hq. }
    cbn [andb].
    rewrite outage_bind, outage_retry by (unfold isActive; by rewrite Ha, Hq).
    cbn. rewrite Hrole. cbn. eexists _, _, _. split; [done|]. unfold isActive. simpl. by rewrite Ha, Hq.
Qed.

Section Takeover.
Context {R : Redis} {RL : RedisLaws R}.

Lemma up_bind {A B} r t (p : prog A) (f : A → prog B) :
  up_run r t (p ≫= f) =
  match up_run r t p with Ok (a, r', t') => up_run r' t' (f a) | Err m => Err m end.
Proof.
  revert r t. induction p as [| | | | | |? k IH|key val d k IH| | | |]; cbn; auto.
  intros r t. by destruct (rsetnx r t key val d).
Qed.

(** A call of [tryActive] that is answered. *)
Lemma up_try r t s :
  RedisConnectionFailed s = false → isActive s = false →
  up_run r t (tryActive s) =
  match rget r t (nodeGroupKey s) with
  | None => Ok (Ok true, rset r t (nodeGroupKey s) (HARole s) (activeDuration s), t)
  | Some v =>
      if decide (v = HARole s)
      then Ok (Ok true, rset r t (nodeGroupKey s) (HARole s) (activeDuration s), t)
      else Ok (Ok false, r, t)
  end.
Proof.
  intros Hf Ha. unfold tryActive. rewrite Hf, Ha. cbn.
  destruct (rget r t (nodeGroupKey s)) as [v|] eqn:Hg; cbn.
  - case_bool_decide; [by rewrite decide_True|]. rewrite decide_False by done. cbn.
    by rewrite (rsetnx_held _ _ _ _ _ v).
  - by rewrite rsetnx_free.
Qed.

(** A pass of a standby that can reach Redis. *)
Lemma up_standby r t s v :
  RedisConnectionFailed s = false → isActive s = false →
  up_run r t (CheckActiveLoop_pass s v) =
  match rget r t (nodeGroupKey s) with
  | Some v' =>
      if decide (v' = HARole s) then
        Ok (set_transition false (set_active true s), mkVars t (timeLastCheckActive v),
            rset r t (nodeGroupKey s) (HARole s) (activeDuration s), t + activePollInterval s)
      else Ok (s, v, r, t + activePollInterval s)
  | None =>
      Ok (set_transition false (set_active true s), mkVars t (timeLastCheckActive v),
          rset r t (nodeGroupKey s) (HARole s) (activeDuration s), t + activePollInterval s)
  end.
Proof.
  intros Hf Ha. cbn [CheckActiveLoop_pass up_run]. rewrite Ha. unfold standby_pass. rewrite Hf.
  cbn [andb]. rewrite up_bind. cbn [tryActive_retry MaxRedisUnreachableRetries].
  rewrite up_bind, up_try by done.
  assert (updateRedisFailed false s = s) as Hsame by (rewrite <- Hf; by destruct s).
  destruct (rget r t (nodeGroupKey s)) as [v'|]; [case_decide|]; cbn; try by rewrite Hsame.
Qed.

(** C32: a standby that can reach Redis takes over: when the lease of the other
    instance runs out at [e] and nobody extends it, the standby is active and
    has the lease after finitely many passes, the last of which starts less
    than a poll interval after [e], or at once when the lease has run out. *)
Theorem standby_takes_over r t s v e other :
  RedisConnectionFailed s = false → isActive s = false →
  0 < activePollInterval s → 0 < activeDuration s → other ≠ HARole s →
  (∀ t', rget r t' (nodeGroupKey s) = if decide (t' < e) then Some other else None) →
  ∃ n s' v' t', t' < Z.max (t + 1) (e + activePollInterval s) ∧
    up_passes n r t s v =
      Ok (s', v', rset r t' (nodeGroupKey s) (HARole s) (activeDuration s),
          t' + activePollInterval s) ∧
    IsActive s' = true ∧ (n <= 1 + Z.to_nat ((e - t) `div` activePollInterval s + 1))%nat.
Proof.
  intros Hf Ha Hp Hd Hother Hr.
  assert (∀ k t, e - t < Z.of_nat k * activePollInterval s → ∃ n s' v' t',
    t' < Z.max (t + 1) (e + activePollInterval s) ∧
    up_passes n r t s v =
      Ok (s', v', rset r t' (nodeGroupKey s) (HARole s) (activeDuration s),
          t' + activePollInterval s) ∧
    IsActive s' = true ∧ (n <= 1 + k)%nat) as Hk.
  { clear t. induction k as [|k IH]; intros t Ht.
    - exists 1%nat, (set_transition false (set_active true s)), (mkVars t (timeLastCheckActive v)), t.
      cbn [up_passes]. rewrite up_standby, Hr, decide_False by (done || lia).
      split_and!; [lia|done|done|lia].
    - destruct (decide (t < e)) as [Hlt|Hge].
      + destruct (IH (t + activePollInterval s)) as (n & s' & v' & t' & Ht' & Hrun & Hact & Hn);
          [lia|]. exists (S n), s', v', t'. cbn [up_passes].
        rewrite up_standby, Hr, decide_True, decide_False by done.
        split_and!; [lia|done|done|lia].
      + exists 1%nat, (set_transition false (set_active true s)),
          (mkVars t (timeLastCheckActive v)), t. cbn [up_passes].
        rewrite up_standby, Hr, decide_False by done. split_and!; [lia|done|done|lia]. }
  apply Hk. destruct (decide (t <= e)).
  - rewrite Z2Nat.id by (apply Z.add_nonneg_nonneg; [apply Z.div_pos; lia|lia]).
    pose proof (Z.mod_pos_bound (e - t) (activePollInterval s) Hp).
    pose proof (Z.div_mod (e - t) (activePollInterval s)). nia.
  - nia.
Qed.

(** An active instance that lost its connection to Redis ends its process
    when the connection is back before its own lease has run out: SET NX fails
    on its own lease, which is taken for another instance's. *)
Theorem regain_own_lease_fatal r t s v :
  isActive s = true → RedisConnectionFailed s = true →
  rget r t (nodeGroupKey s) = Some (HARole s) →
  up_run r t (CheckActiveLoop_pass s v) = Err "activity lost when redis connection re-established".
Proof.
  intros Ha Hf Hg. cbn [CheckActiveLoop_pass up_run]. rewrite Ha. unfold active_pass.
  rewrite Hf, up_bind. unfold tryActive. rewrite Hf. cbn.
  by rewrite (rsetnx_held _ _ _ _ _ (HARole s)).
Qed.
End Takeover.

(** ** Runs *)

Module HAMgrWitness.

(** Redis as a map of values with the time they expire at. *)
#[export] Instance map_redis : Redis := {|
  redis := gmap string (string * Z);
  rempty := ∅;
  rget r t k := '(v, e) ← r !! k; if decide (t < e) then Some v else None;
  rset r t k v d := <[k := (v, t + d)]> r;
  rsetnx r t k v d :=
    match ('(v', e) ← r !! k; if decide (t < e) then Some v' else None) with
    | Some _ => (false, r)
    | None => (true, <[k := (v, t + d)]> r)
    end;
|}.
#[export] Instance map_redis_laws : RedisLaws map_redis.
Proof.
  split; cbn.
  - done.
  - intros. by rewrite lookup_insert_eq.
  - intros. by case_match.
  - intros. by case_match.
Qed.

Definition key := "nodeType: CRM cloudlet: site".
Definition ms : Z := 1000000.
Definition cfg (role : string) : HighAvailabilityManager :=
  mkMgr role key true false (1000 * ms) (300 * ms) false false false.
Lemma cfg_ok : ha_config cfg key (1000 * ms).
Proof. by split. Qed.

(** A run, with the calls of a process in one go. *)
Inductive cmd := Calls (role : string) (n : nat) | Tick (d : Z) | Crash (role : string) | Start (role : string).
#[export] Instance in_time_dec (o : option Z) (t : Z) :
  Decision (match o with Some e => t < e | None => False end).
Proof. destruct o; apply _. Defined.
Definition is_timely (σ : sys) : bool :=
  bool_decide (map_Forall (λ role n,
    (isActive (pub n) = true ∧ held n = true) ∨ about_to_bump n = true →
    match lease σ !! role with Some e => now σ < e | None => False end) (nodes σ)).
Definition startable (role : string) (σ : sys) : bool :=
  match nodes σ !! role with
  | None => true
  | Some n => match code n with None => bool_decide (pub n = pub (down n)) | Some _ => false end
  end.
Definition checked (σ : sys) : option sys := if is_timely σ then Some σ else None.
Definition one (c : cmd) (σ : sys) : option sys :=
  match c with
  | Calls role _ => run_node Reached role σ
  | Tick d => if decide (0 <= d) then Some (tick d σ) else None
  | Crash role => Some (crash role σ)
  | Start role => if startable role σ then Some (start cfg role σ) else None
  end.
Fixpoint calls (role : string) (n : nat) (σ : sys) : option sys :=
  match n with
  | O => Some σ
  | S n' => σ' ← one (Calls role 1) σ; σ' ← checked σ'; calls role n' σ'
  end.
Fixpoint play (cs : list cmd) (σ : sys) : option sys :=
  match cs with
  | [] => Some σ
  | Calls role n :: cs' => σ' ← calls role n σ; play cs' σ'
  | c :: cs' => σ' ← one c σ; σ' ← checked σ'; play cs' σ'
  end.

Lemma one_reliable c σ σ' σ'' : one c σ = Some σ' → checked σ' = Some σ'' → reliable cfg σ σ''.
Proof.
  intros Hone. unfold checked. destruct (is_timely σ') eqn:Ht; [|done]. intros [= <-]. split.
  - destruct c; simpl in Hone.
    + by eapply step_run.
    + case_decide; [|done]. injection Hone as <-. by apply step_tick.
    + injection Hone as <-. apply step_crash.
    + destruct (startable role σ) eqn:Hs; [|done]. injection Hone as <-. apply step_start.
      unfold startable in Hs. destruct (nodes σ !! role) as [n|]; [|by left]. right. exists n.
      destruct (code n); [done|]. apply bool_decide_eq_true in Hs. done.
  - by apply bool_decide_eq_true in Ht.
Qed.
Lemma calls_reliable role n σ σ' : calls role n σ = Some σ' → rtc (reliable cfg) σ σ'.
Proof.
  revert σ. induction n as [|n IH]; cbn [calls]; intros σ Hc; [by injection Hc as <-|].
  apply bind_Some in Hc as (σ1 & H1 & Hc). apply bind_Some in Hc as (σ2 & H2 & Hc).
  eapply rtc_l; [by eapply one_reliable|by apply IH].
Qed.
Lemma play_reliable cs σ σ' : play cs σ = Some σ' → rtc (reliable cfg) σ σ'.
Proof.
  revert σ. induction cs as [|c cs IH]; cbn [play]; intros σ Hc; [by injection Hc as <-|].
  assert (∀ c, (σ' ← one c σ; σ'' ← checked σ'; play cs σ'') = Some σ' →
    rtc (reliable cfg) σ σ') as Hone.
  { clear c Hc. intros c Hc. apply bind_Some in Hc as (σ1 & H1 & Hc).
    apply bind_Some in Hc as (σ2 & H2 & Hc).
    eapply rtc_l; [by eapply one_reliable|by apply IH]. }
  destruct c; [|by eapply (Hone (Tick _))|by eapply (Hone (Crash _))|by eapply (Hone (Start _))].
  apply bind_Some in Hc as (σ1 & H1 & Hc). etransitivity; [by eapply calls_reliable|by apply IH].
Qed.

(** The primary becomes active and extends its lease; the secondary finds the
    lease taken; the primary dies and the secondary takes over. *)
Definition story : list cmd :=
  [Start "primary"; Calls "primary" 15; Start "secondary"; Calls "secondary" 14;
   Tick (300 * ms); Calls "primary" 6; Calls "secondary" 6; Tick (50 * ms); Crash "primary";
   Tick (1000 * ms); Calls "secondary" 10; Start "primary"; Calls "primary" 14].
Definition final : sys := default init (play story init).
Definition actives (σ : sys) : list string :=
  (filter (λ kv, isActive (pub kv.2) = true) (map_to_list (nodes σ))).*1.

Lemma at_most_one_active_witness :
  actives final = ["secondary"] ∧ active_at final "secondary" ∧
  ∀ role, active_at final role → role = "secondary".
Proof.
  assert (rtc (reliable cfg) init final) as Hrun.
  { apply (play_reliable story). vm_compute. reflexivity. }
  assert (active_at final "secondary") as Hact.
  { destruct (nodes final !! "secondary") as [n|] eqn:Hn; [|vm_compute in Hn; discriminate].
    exists n. split; [done|]. vm_compute in Hn. injection Hn as <-. reflexivity. }
  split; [vm_compute; reflexivity|]. split; [exact Hact|]. intros role Hrole.
  exact (at_most_one_active cfg key (1000 * ms) cfg_ok final role "secondary" Hrun Hrole Hact).
Defined.

(** An active primary and an idle secondary. *)
Definition primary_on : HighAvailabilityManager := set_active true (set_enabled true (cfg "primary")).
Definition secondary_off : HighAvailabilityManager := set_active false (set_enabled true (cfg "secondary")).
Definition vars0 : vars := mkVars 0 0.

Lemma init_returns role b :
  role = "primary" ∨ role = "secondary" →
  returns (Init (cfg role)) (set_active b (set_enabled true (cfg role)), None).
Proof.
  intros Hrole. unfold Init. rewrite decide_False.
  2:{ intros [H1 H2]. destruct Hrole; [by apply H1|by apply H2]. }
  cbn. apply (returns_now _ 0), (returns_ping _ (Ok "PONG")). cbn.
  apply (returns_get _ _ (Ok None)). cbn. apply (returns_setnx _ _ _ _ (Ok b)). cbn.
  apply returns_save. destruct b; [apply returns_startup|]; apply returns_ret.
Qed.
Lemma loop_primary : loop_state primary_on.
Proof. eapply (loop_init (cfg "primary")); [done|done|]. apply init_returns. by left. Qed.
Lemma loop_secondary : loop_state secondary_off.
Proof. eapply (loop_init (cfg "secondary")); [done|done|]. apply init_returns. by right. Qed.

Lemma outage_leaves_primary_witness :
  (∃ s' v' t', outage_run "i/o timeout" 0 (CheckActiveLoop_pass primary_on vars0) = Ok ((s', v'), t') ∧
     IsActive s' = true ∧ RedisConnectionFailed s' = true ∧ t' ≤ 0 + 4 * (300 * ms)) ∧
  (∃ s' v' t', outage_run "i/o timeout" 0 (CheckActiveLoop_pass secondary_off vars0) = Ok ((s', v'), t') ∧
     isActive s' = false ∧ RedisConnectionFailed s' = true).
Proof.
  destruct (outage_leaves_primary primary_on vars0 "i/o timeout" 0 loop_primary) as [Hp _];
    [vm_compute; congruence|].
  destruct (outage_leaves_primary secondary_off vars0 "i/o timeout" 0 loop_secondary) as (_ & _ & Hs);
    [vm_compute; congruence|].
  split; [exact (Hp eq_refl)|exact (Hs eq_refl eq_refl)].
Defined.

(** The lease of a primary that died runs out after 700 ms: three passes wait
    for it, the fourth takes over. *)
Definition left_over : redis := rset rempty 0 key "primary" (700 * ms).
Lemma standby_takes_over_witness :
  ∃ n s' v' t', t' < Z.max (0 + 1) (700 * ms + 300 * ms) ∧
    up_passes n left_over 0 secondary_off vars0 =
      Ok (s', v', rset left_over t' key "secondary" (1000 * ms), t' + 300 * ms) ∧
    IsActive s' = true ∧ (n <= 4)%nat.
Proof.
  exact (standby_takes_over left_over 0 secondary_off vars0 (700 * ms) "primary" eq_refl eq_refl
    ltac:(vm_compute; reflexivity) ltac:(vm_compute; reflexivity)
    ltac:(vm_compute; discriminate) ltac:(intros t; reflexivity)).
Defined.

(** The primary misses its bumps at 300 ms; Redis is back at 600 ms. *)
Definition primary_blind : HighAvailabilityManager :=
  match outage_run "i/o timeout" (300 * ms) (CheckActiveLoop_pass primary_on vars0) with
  | Ok ((s, _), _) => s
  | Err _ => primary_on
  end.
Definition own_lease : redis := rset rempty 0 key "primary" (1000 * ms).
Lemma regain_own_lease_fatal_witness :
  up_run own_lease (600 * ms) (CheckActiveLoop_pass primary_blind vars0)
  = Err "activity lost when redis connection re-established".
Proof. apply regain_own_lease_fatal; vm_compute; reflexivity. Defined.
End HAMgrWitness.
